(* ===== verification/_CoqProject ===== *)
-Q . S2P
Prelude.v
Lib.v
Varint.v
Header.v
FrameSize.v
OutgoingMessage.v
WireFormat.v
ByteIter.v
Multiframe.v
MultiframeSpec.v
Protocol.v
ProtocolInv.v
ProcessIncoming.v
ProtocolOps.v
Answers.v
Delivery.v
Peers.v
Transfer.v
Flow.v
Duplex.v
Stream.v
Io.v
Rpc.v
Display.v
Instances.v
IoSafe.v
IoSpec.v
ReadyQueue.v
CoreOps.v
Corners.v
Permits.v
Link.v
Cores.v
Waiting.v
Settle.v
Calls.v
Dialogue.v
RpcSpec.v
RpcSystem.v
Endpoint.v
Fizzbuzz.v
RpcSafe.v
Turns.v
Conversation.v
