(* ===== verification/Prelude.v ===== *)
(** * Juliet: a verification of the multiplexed request/response protocol

    Juliet (the crate under src/src/) multiplexes requests and responses over one ordered,
    reliable byte stream.  A connection has up to 256 channels; each side may have a limited
    number of requests outstanding per channel; a message is a header of four bytes and an
    optional payload that is cut into frames of a maximum size.  The crate has three layers,
    each a state machine on its own, and this library models all of them.

    ** The layers and the files that model them

    - Shared data.  [Lib] is lib.rs: channel and request ids, the [Outcome] of parsing and the
      [try_outcome!] macro, the configuration of a channel.  [Varint] is varint.rs, the
      variable-length integers in front of payloads; [Header] is header.rs; [FrameSize] the
      [MaxFrameSize] of protocol.rs.
    - Messages.  [OutgoingMessage] is protocol/outgoing_message.rs: messages, their frame
      iterator and their byte iterator.  [WireFormat] gives the reference wire format
      ([message_frames], [wire]) and shows that the frame iterator produces it; [ByteIter] that
      the byte iterator does, as implementations of the [Buf] trait (a class with laws).
    - Reassembly.  [Multiframe] is protocol/multiframe.rs, the receiver of one channel;
      [MultiframeSpec] has the closed form of its [accept] and what it makes of frames.
    - The protocol.  [Protocol] is protocol.rs: channels, the messages an endpoint creates, and
      [process_incoming], an arm of its [match] per definition ([process_request],
      [process_cancel_req], ...), [process_turn] one turn of its loop.  [ProtocolInv] has the
      invariant of a channel ([channel_wf]) and that a turn keeps it; [ProcessIncoming] what
      [process_incoming] promises on any input; [ProtocolOps] the local operations; [Answers]
      which requests an event answers; [Delivery] that a message arrives as it was sent;
      [Peers] the system of two endpoints that exchange whole messages.
    - The stream of frames.  [Transfer] is a message in transfer, one frame at a time; [Flow]
      one direction of a connection with the frames of many messages interleaved; [Duplex] the
      two endpoints of [Peers] exchanging frames; [Stream] the specification of a direction
      ([transport]) and that [process_incoming] implements it on any part of the stream.
    - The IO layer.  [Io] is io.rs: the core with its queues, every operation of its event
      loop, the handles and the builder.  [IoSafe] has the invariant of a core ([io_wf]) and
      that the event loop never panics; [IoSpec] what its operations do; [ReadyQueue] how
      the queue of messages is written out.  [CoreOps] gives the atomic operations of
      a core ([core_step]), and shows that [next_event] is a run of them and that they keep the
      types of a core; [Corners] is where the code of the IO layer and of the protocol does
      something else than it means to; [Permits] is a core with its handles, and what becomes of the permits;
      [Link] relates a core to a party of [Duplex]; [Cores] is the system of two cores connected
      by streams of bytes; [Waiting] says what its wait queues hold, and [Settle] shows that it
      comes to rest.  [Calls] is the specification of a call, from the request under an [IoId] to
      its answer, and [Dialogue] shows that two cores implement it.
    - The RPC layer.  [Rpc] is rpc.rs: request guards, timeouts, the client, the server's loop,
      incoming requests.  [RpcSpec] says what its operations do, [RpcSystem] what the client and
      the server promise together.  [Endpoint] is a client, a server and its core, and the
      application behind them, as a step relation; [RpcSafe] shows that no
      operation of the layer panics, [Turns] that a turn of the server's loop
      is a run of its steps; [Conversation] is the system of two of them.
    - The example.  [Fizzbuzz] is examples/fizzbuzz.rs: its configuration, the task that answers
      a request, the loop of a connection, the loop of the client.
    - Texts.  [Display] has the text of every value and error of the crate.
    - [Instances] implements the interfaces to other crates in the simplest way, so that
      everything can be evaluated.

    ** How the code is modelled

    A machine integer is a [Z] with its width as a predicate ([u8], [u32], [usize], 64 bits); a
    byte string is the list of its bytes.  Code that can panic is a computation in [exec], whose
    [Panicked] stands for a failed assertion - debug assertions included -, an arithmetic
    overflow, an index out of range, or an [unwrap] or [expect] that fails: that [exec] gives
    [Done] is therefore the absence of all of these.  [&mut] parameters are passed in and
    returned.  A [Result] is a sum with [Ok] and [Err].

    Asynchronous code is a function of what its environment gives.  [next_event] consumes a
    list of inputs: how writing a pending error went, or, each time [select!] is polled, how much
    of the current frame was written and whether writing ended, the results of reading, and
    what the queue of the handles gave.  The branches are tried in the order of the (biased)
    [select!]; a future that is dropped leaves what it had read in the buffer.  [next_request]
    consumes turns: the time, and the polls of its [select!].  Each poll says whether the deadline
    has passed, what the queue of new requests gives, and what the core is polled with; as the
    [select!] is biased, the core is polled only if the other two are not ready ([first_ready],
    [poll_core]), so that a turn may end without the core having been polled.  Request guards are references into a store of their shared contents.

    Code of other crates is not modelled but taken as an argument: the bidirectional map, the
    semaphores, the senders of queues, [OnceCell], [Notify] and [Buf::copy_to_bytes] are
    classes or parameters, with laws from their documentation.  [HashSet] is [gset], [HashMap]
    is [gmap], the heap of timeouts the list of its elements in the order of removal.

    ** Loops and fuel

    - [generate_request_id] has as much fuel as there are outstanding requests, and one: that
      many candidates in a row cannot all be taken ([candidates_not_all_taken]).
    - [process_incoming] has the length of the buffer, and one: a turn that goes on has
      consumed a frame ([process_incoming_safe]).
    - The frame iterator has the length of the payload, and one: every frame but the last
      carries a byte ([frame_iter_correct]).
    - [process_wait_queue] has the length of the queue, and one: it looks at every item once
      ([process_wait_queue_loop_safe]).  Draining the heap has its length, and one
      ([drain_overdue]).
    Other loops are by structural recursion on what they iterate over or on their inputs.

    ** What is shown

    - Encodings: varints and headers round-trip, decoding is total and rejects exactly what it
      should; a message's frames are the reference wire format, respect the maximum frame size,
      and the two iterators agree.
    - Reassembly: the frames of a message give back its payload, whatever single frames of the
      channel come in between; no sequence of frames makes the receiver panic or hold more than
      was announced and permitted.
    - Protocol: whatever a peer sends, [process_incoming] terminates without a panic, keeps the
      limits, and gives the same answers however the stream is cut into reads.  A message that
      is sent arrives as it was sent.  Two endpoints that use only the operations of
      the protocol never provoke an error in each other, and an outstanding request is in exactly
      one place.  A response is reported only for an outstanding request, once.
    - IO: the event loop never panics, and no operation of a core does in any state it can reach;
      the ready queue is written out completely, in order and fairly; an injected error is what
      is sent.  The permits not taken, the tickets, and the requests in the queue to the core
      and in its wait queues add up to the buffer size of the channel ([requests_bounded]).
    - Two cores: polling [next_event] is a run of a core's atomic operations; and two cores
      that run against each other, in any interleaving and with any partial reads and writes,
      refine an abstract transport in both directions: every message sent is reported once and
      unchanged and overtakes only messages of several frames.  The chain is [next_event] to
      [core_step] ([next_event_runs]), a core to a party ([linked], kept by every operation),
      parties to frames ([duplex]), frames to messages ([transport]).  No operation fails in any
      state they reach.  When the applications queue nothing more, every operation that gets work
      done lowers a count of the bytes left, and where none is possible all that was sent has
      been reported: no message sent gets stuck, whatever the order of the steps.  What is then left in a
      wait queue are requests, and the requests that use up the limit of their channel are those
      the other application has not answered - unless a response was cancelled on the channel.
      What the applications have to respect is spelled out in [may_queue]: items fit and are for
      channels there are, no errors, an answer for each request they were told of at most once,
      a cancellation of a request at most once and not while a message with its channel and id is
      sent in several frames.  That the library itself does not enforce the part on
      cancellations is one of the corners.
    - Calls: the requests of an application, as two cores carry them, are a run of [call_step]: a
      request is queued, sent, reported to the other application, answered by it and its answer
      returned, each once and in this order ([cores_carry_calls]).  The answer
      returned under an [IoId] is the one to the request made under it, and when both cores are
      at rest and every request was answered, every call has come back ([call_returned]).  The conditions are that
      an [IoId] is used for one request, which the handles see to ([io_ids_distinct] of
      [Permits]), and that a parse does not send a request under the id whose answer it has just
      read, which takes 65536 requests on the channel; that the code does not exclude it is one
      of the corners.
    - The server's loop: a turn of [next_request] is a run of the steps of an endpoint
      ([next_request_turn_runs]), as long as the core has not failed; what other tasks put into
      the queue to the core while it waits is in the queue before the core takes from it, which
      makes no difference, as it takes from the front.
    - Two endpoints: the whole library, with an application on either side, refines [Dialogue] for
      its cores.  When a guard has a response, that is what the other application
      answered to the one request with this guard, which arrived as it was made
      ([responses_are_answers]); and when all is at rest every guard has its answer
      ([requests_get_answers]).  The conditions are those of calls - that [IoId]s are distinct is
      proved here -, those of [may_queue] that the library does not enforce ([heeds]), also for the
      cancellations that timeouts queue, and that neither server is dropped.
    - RPC: every request handed to the client is on its way in exactly one place or answered for
      good, and waiting for it never panics or misses the answer; timeouts and events do what
      they should; an incoming request is answered at most once; and no operation panics in any
      state that can be reached, the loop of the server and its shutdown included
      ([rpc_never_panics]).
    - Corners: eight situations in which the code departs from its comments, among them an error
      for the peer that is never sent, a response reported for the wrong request, a request
      left in the queue, a response dropped half-way, a cancellation that makes the peer take the
      payload of a request for messages, and a second one that ends the connection.  The first
      five are stated for every core and every channel in the situation; that a run leads to
      the second, which takes 65536 requests on a channel, is not shown.
    - The example: the request the client queues for a number is answered with the number's line of
      the game, within the limits of the channel, the client asks for the numbers in order and
      prints that line for each, and any other request gets an answer as well.
    - Texts: the text of a header determines it, and that of a payload is bounded.

    ** What is not modelled

    The log output of the tracing feature, and of the example program its sockets and
    arguments.  The transport, the runtime and the clock are inputs.  The model of the [select!] takes what a poll gives as a whole:
    that the runtime eventually polls again is not stated.  A [usize] has 64 bits. *)
From stdpp Require Export base numbers list gmap sets.
From stdpp Require Import options.

#[global] Open Scope Z_scope.

(** ** Machine integers

    An unsigned integer of the program is a [Z]; these predicates give its width.
    [usize] is the 64-bit one. *)
Definition u8_max : Z := 255.
Definition u16_max : Z := 65535.
Definition u32_max : Z := 4294967295.
Definition usize_max : Z := 18446744073709551615.

Definition u8 (x : Z) : Prop := 0 ≤ x ≤ u8_max.
Definition u16 (x : Z) : Prop := 0 ≤ x ≤ u16_max.
Definition u32 (x : Z) : Prop := 0 ≤ x ≤ u32_max.
Definition usize (x : Z) : Prop := 0 ≤ x ≤ usize_max.

#[export] Instance u8_dec x : Decision (u8 x).
Proof. unfold u8. apply _. Defined.
#[export] Instance u16_dec x : Decision (u16 x).
Proof. unfold u16. apply _. Defined.
#[export] Instance u32_dec x : Decision (u32 x).
Proof. unfold u32. apply _. Defined.
#[export] Instance usize_dec x : Decision (usize x).
Proof. unfold usize. apply _. Defined.

(** The casts [x as u8], [x as u32] of the language. *)
Definition as_u8 (x : Z) : Z := x mod 256.
Definition as_u32 (x : Z) : Z := x mod 4294967296.
(** [u16::wrapping_add]. *)
Definition wrapping_add16 (x y : Z) : Z := (x + y) mod 65536.
(** [!x] on a [u8]. *)
Definition not_u8 (x : Z) : Z := Z.lxor x 255.

(** ** Computations that may panic

    [Panicked] is a Rust panic: a failed [assert!]/[debug_assert!], an arithmetic
    overflow, an index out of range, [unwrap]/[expect] on the wrong variant,
    [unreachable!()].  [OutOfFuel] is what a loop returns when its fuel was not
    enough; every loop has a theorem that it is. *)
Inductive exec (A : Type) : Type :=
  | Done (a : A)
  | Panicked
  | OutOfFuel.
Arguments Done {A} a.
Arguments Panicked {A}.
Arguments OutOfFuel {A}.

#[export] Instance exec_ret : MRet exec := λ A a, Done a.
#[export] Instance exec_bind : MBind exec := λ A B f m,
  match m with Done a => f a | Panicked => Panicked | OutOfFuel => OutOfFuel end.
#[export] Instance exec_fmap : FMap exec := λ A B f m,
  match m with Done a => Done (f a) | Panicked => Panicked | OutOfFuel => OutOfFuel end.

#[export] Instance exec_eq_dec `{EqDecision A} : EqDecision (exec A).
Proof. solve_decision. Defined.

(** [Result<T, E>]. *)
Notation result T E := (E + T)%type (only parsing).
Notation Ok := inr (only parsing).
Notation Err := inl (only parsing).

(** [assert!] and [debug_assert!]. *)
Definition assert (b : bool) : exec () := if b then Done () else Panicked.
(** [Option::expect] and [Option::unwrap]. *)
Definition unwrap {A} (o : option A) : exec A :=
  match o with Some a => Done a | None => Panicked end.

(** Unsigned arithmetic: below zero or above the width is a panic. *)
Definition usub (x y : Z) : exec Z := if decide (y ≤ x) then Done (x - y) else Panicked.
Definition uadd (max x y : Z) : exec Z :=
  if decide (x + y ≤ max) then Done (x + y) else Panicked.

(** ** Byte strings

    A [Bytes], [BytesMut] or [&[u8]] is the list of its bytes. *)
Abbreviation bytes := (list Z).

(** [x.len()], [x.remaining()]. *)
Definition len {A} (l : list A) : Z := Z.of_nat (length l).
(** [&x[from..]] *)
Definition slice_from {A} (l : list A) (from : Z) : exec (list A) :=
  if decide (0 ≤ from ≤ len l) then Done (drop (Z.to_nat from) l) else Panicked.
(** [&x[from..to]], [Bytes::slice(from..to)] *)
Definition slice {A} (l : list A) (from to : Z) : exec (list A) :=
  if decide (0 ≤ from ≤ to ∧ to ≤ len l)
  then Done (take (Z.to_nat (to - from)) (drop (Z.to_nat from) l)) else Panicked.
(** [Buf::advance] *)
Definition advance {A} (l : list A) (cnt : Z) : exec (list A) := slice_from l cnt.
(** [BytesMut::split_to]: (the bytes split off, the bytes left in the buffer) *)
Definition split_to {A} (l : list A) (at_ : Z) : exec (list A * list A) :=
  if decide (0 ≤ at_ ≤ len l)
  then Done (take (Z.to_nat at_) l, drop (Z.to_nat at_) l) else Panicked.
(** [Bytes::truncate]: no effect when [n] exceeds the length *)
Definition truncate {A} (l : list A) (n : Z) : list A := take (Z.to_nat n) l.

(** [a[i]] and [a[i] = x] on arrays. *)
Definition array_get {A} (l : list A) (i : Z) : exec A :=
  if decide (0 ≤ i) then unwrap (l !! Z.to_nat i) else Panicked.
Definition array_set {A} (l : list A) (i : Z) (x : A) : exec (list A) :=
  if decide (0 ≤ i < len l) then Done (<[Z.to_nat i := x]> l) else Panicked.

(** ** Sets: [HashSet::insert] and [HashSet::remove] with their results *)
Section hashset.
Context `{Countable K}.
(** whether the value was newly inserted, and the set *)
Definition hs_insert (s : gset K) (k : K) : bool * gset K :=
  (bool_decide (k ∉ s), {[k]} ∪ s).
(** whether the value was present, and the set *)
Definition hs_remove (s : gset K) (k : K) : bool * gset K :=
  (bool_decide (k ∈ s), s ∖ {[k]}).
Definition hs_contains (s : gset K) (k : K) : bool := bool_decide (k ∈ s).
Definition hs_len (s : gset K) : Z := Z.of_nat (size s).
End hashset.

(** ** Lemmas on [exec] *)
Lemma bind_Done {A B} (a : A) (f : A → exec B) : (Done a ≫= f) = f a.
Proof. reflexivity. Qed.
Lemma bind_Panicked {A B} (f : A → exec B) : (Panicked ≫= f) = Panicked.
Proof. reflexivity. Qed.
Lemma bind_Done_inv {A B} (m : exec A) (f : A → exec B) b :
  (m ≫= f) = Done b → ∃ a, m = Done a ∧ f a = Done b.
Proof. destruct m; try discriminate. eauto. Qed.
Lemma bind_assoc {A B C} (m : exec A) (f : A → exec B) (g : B → exec C) :
  ((m ≫= f) ≫= g) = (m ≫= λ a, f a ≫= g).
Proof. by destruct m. Qed.
Lemma bind_ext {A B} (m : exec A) (f g : A → exec B) :
  (∀ a, m = Done a → f a = g a) → (m ≫= f) = (m ≫= g).
Proof. destruct m; cbn; auto. Qed.

(** It ends without a panic, with a result like this. *)
Definition returns {A} (m : exec A) (Q : A → Prop) : Prop := ∃ a, m = Done a ∧ Q a.
Lemma returns_ret {A} (a : A) (Q : A → Prop) : Q a → returns (mret a) Q.
Proof. intros Ha. by exists a. Qed.
Lemma returns_bind {A B} (m : exec A) (f : A → exec B) (P : A → Prop) (Q : B → Prop) :
  returns m P → (∀ a, m = Done a → P a → returns (f a) Q) → returns (m ≫= f) Q.
Proof. intros (a & Hm & Ha) Hf. rewrite Hm, bind_Done. by apply Hf. Qed.
Lemma returns_weaken {A} (m : exec A) (P Q : A → Prop) : returns m P → (∀ a, P a → Q a) → returns m Q.
Proof. intros (a & Hm & Ha) Himp. exists a. auto. Qed.

Lemma usub_Done x y : y ≤ x → usub x y = Done (x - y).
Proof. intros. unfold usub. by rewrite decide_True. Qed.
Lemma uadd_Done max x y : x + y ≤ max → uadd max x y = Done (x + y).
Proof. intros. unfold uadd. by rewrite decide_True. Qed.
Lemma assert_true b : b = true → assert b = Done ().
Proof. by intros ->. Qed.
Lemma slice_from_Done {A} (l : list A) n :
  0 ≤ n ≤ len l → slice_from l n = Done (drop (Z.to_nat n) l).
Proof. intros. unfold slice_from. by rewrite decide_True. Qed.
Lemma slice_Done {A} (l : list A) a b :
  0 ≤ a ≤ b → b ≤ len l → slice l a b = Done (take (Z.to_nat (b - a)) (drop (Z.to_nat a) l)).
Proof. intros. unfold slice. by rewrite decide_True. Qed.
Lemma advance_Done {A} (l : list A) n :
  0 ≤ n ≤ len l → advance l n = Done (drop (Z.to_nat n) l).
Proof. apply slice_from_Done. Qed.
Lemma split_to_Done {A} (l : list A) n :
  0 ≤ n ≤ len l → split_to l n = Done (take (Z.to_nat n) l, drop (Z.to_nat n) l).
Proof. intros. unfold split_to. by rewrite decide_True. Qed.
Lemma array_get_Done {A} (l : list A) i x :
  0 ≤ i → l !! Z.to_nat i = Some x → array_get l i = Done x.
Proof. intros ? Hl. unfold array_get. rewrite decide_True by done. by rewrite Hl. Qed.
Lemma array_set_Done {A} (l : list A) i x :
  0 ≤ i < len l → array_set l i x = Done (<[Z.to_nat i := x]> l).
Proof. intros. unfold array_set. by rewrite decide_True. Qed.

(** ** Lengths *)
Lemma len_nonneg {A} (l : list A) : 0 ≤ len l.
Proof. unfold len. lia. Qed.
Lemma len_nil {A} : len (@nil A) = 0.
Proof. reflexivity. Qed.
Lemma len_cons {A} (x : A) l : len (x :: l) = 1 + len l.
Proof. unfold len. cbn [length]. lia. Qed.
Lemma len_singleton {A} (x : A) : len [x] = 1.
Proof. reflexivity. Qed.
Lemma len_app {A} (l k : list A) : len (l ++ k) = len l + len k.
Proof. unfold len. rewrite length_app. lia. Qed.
Lemma len_drop {A} (l : list A) n : 0 ≤ n ≤ len l → len (drop (Z.to_nat n) l) = len l - n.
Proof. unfold len. rewrite length_drop. lia. Qed.
Lemma len_take {A} (l : list A) n : 0 ≤ n ≤ len l → len (take (Z.to_nat n) l) = n.
Proof. unfold len. rewrite length_take. lia. Qed.
Lemma len_zero {A} (l : list A) : len l = 0 → l = [].
Proof. destruct l; [done|]. rewrite len_cons. pose proof (len_nonneg l). lia. Qed.
Lemma drop_app_len {A} (l k : list A) n : n = len l → drop (Z.to_nat n) (l ++ k) = k.
Proof. intros ->. unfold len. rewrite Nat2Z.id. apply drop_app_length. Qed.
Lemma take_app_len {A} (l k : list A) n : n = len l → take (Z.to_nat n) (l ++ k) = l.
Proof. intros ->. unfold len. rewrite Nat2Z.id. apply take_app_length. Qed.
Lemma drop_app_lt {A} (l k : list A) n :
  0 ≤ n ≤ len l → drop (Z.to_nat n) (l ++ k) = drop (Z.to_nat n) l ++ k.
Proof. unfold len. intros. by rewrite drop_app_le by lia. Qed.
Lemma take_app_lt {A} (l k : list A) n :
  0 ≤ n ≤ len l → take (Z.to_nat n) (l ++ k) = take (Z.to_nat n) l.
Proof. unfold len. intros. by rewrite take_app_le by lia. Qed.
Lemma drop_drop_Z {A} (l : list A) n m :
  0 ≤ n → 0 ≤ m → drop (Z.to_nat n) (drop (Z.to_nat m) l) = drop (Z.to_nat (m + n)) l.
Proof. intros. rewrite drop_drop. f_equal. lia. Qed.
Lemma take_ge_len {A} (l : list A) n : len l ≤ n → take (Z.to_nat n) l = l.
Proof. unfold len. intros. apply take_ge. lia. Qed.

(** ** Exhaustive checks over a byte *)
Lemma u8_forallb (P : Z → bool) :
  forallb P (seqZ 0 256) = true → ∀ b, u8 b → P b = true.
Proof.
  intros H b [Hb1 Hb2]. rewrite forallb_forall in H. apply H.
  apply list_elem_of_In, elem_of_seqZ. unfold u8_max in *. lia.
Qed.

(** ** Automation *)
Create HintDb exec discriminated.
#[export] Hint Rewrite @bind_Done @bind_Panicked : exec.
#[export] Hint Rewrite usub_Done uadd_Done @slice_from_Done @slice_Done @advance_Done
  @split_to_Done @array_set_Done using lia : exec.
#[export] Hint Rewrite @len_app : len.
#[export] Hint Rewrite @len_drop @len_take using lia : len.

(** Unfolds the width predicates for [lia]. *)
Ltac widths := unfold u8, u16, u32, usize, u8_max, u16_max, u32_max, usize_max in *.
Ltac ulia := widths; lia.
(** Evaluates the lengths in the goal. *)
Ltac simpl_len :=
  repeat match goal with
  | |- context [len (@nil ?A)] => change (len (@nil A)) with 0
  | |- context [len [?x]] => change (len [x]) with 1
  | |- context [len (_ :: _)] => rewrite len_cons
  | _ => progress autorewrite with len
  end.
(** Runs the computation in the goal as far as its side conditions are arithmetic. *)
Ltac exec_simpl :=
  repeat first [ rewrite bind_Done | rewrite usub_Done by lia | rewrite uadd_Done by ulia
               | progress autorewrite with exec ].
(** Turns [m ≫= f = Done b] into its steps. *)
Ltac inv_exec :=
  repeat match goal with
  | H : (_ ≫= _) = Done _ |- _ =>
      let a := fresh "a" in let Ha := fresh "E" in
      apply bind_Done_inv in H as (a & Ha & H)
  | H : Done _ = Done _ |- _ => injection H as H
  | H : mret _ = Done _ |- _ => injection H as H
  end.

(** ** A list of queues *)

Lemma concat_insert {A} (w : list (list A)) i q q' : w !! i = Some q → concat (<[i:=q']> w) ++ q ≡ₚ concat w ++ q'.
Proof.
  revert i. induction w as [|x w IH]; intros [|i] Hi; try done; cbn [insert list_insert concat].
  - injection Hi as ->. rewrite <- !app_assoc. by rewrite (Permutation_app_comm (concat w) q), (Permutation_app_comm (concat w) q'), Permutation_app_swap_app.
  - rewrite <- !app_assoc. by rewrite (IH i Hi).
Qed.

Lemma concat_push {A} (w : list (list A)) i q x : w !! i = Some q → concat (<[i:=q ++ [x]]> w) ≡ₚ x :: concat w.
Proof.
  intros Hi. apply (Permutation_app_inv_r q). rewrite (concat_insert _ _ _ _ Hi), app_assoc.
  by rewrite (Permutation_app_comm _ [x]).
Qed.
Lemma concat_pop {A} (w : list (list A)) i q x : w !! i = Some (x :: q) → x :: concat (<[i:=q]> w) ≡ₚ concat w.
Proof.
  intros Hi. apply (Permutation_app_inv_r q). cbn [app]. rewrite <- (concat_insert _ _ _ q Hi).
  by rewrite <- Permutation_middle.
Qed.

(** ** What a checked access to an array did *)

Lemma array_get_inv {A} (l : list A) i x : array_get l i = Done x → l !! Z.to_nat i = Some x.
Proof. unfold array_get. case_decide; [|done]. destruct (l !! Z.to_nat i) as [y|]; [|done]. by intros [= ->]. Qed.
Lemma array_set_inv {A} (l : list A) i x l' : array_set l i x = Done l' → l' = <[Z.to_nat i := x]> l.
Proof. unfold array_set. case_decide; [|done]. by intros [= ->]. Qed.
