(* ===== verification/Lib.v ===== *)
(** * The crate root (src/src/lib.rs): identifiers, parsing outcomes, channel configuration *)
From S2P Require Import Prelude.
From stdpp Require Import options.

(** ** Identifiers *)

Record ChannelId := mkChannelId { chan_raw : Z }.
Definition ChannelId_new (chan : Z) : ChannelId := mkChannelId chan.
Definition ChannelId_get (c : ChannelId) : Z := chan_raw c.
Definition u8_from_ChannelId (value : ChannelId) : Z := ChannelId_get value.

Record Id := mkId { id_raw : Z }.
Definition Id_new (id : Z) : Id := mkId id.
Definition Id_get (i : Id) : Z := id_raw i.
Definition u16_from_Id (value : Id) : Z := Id_get value.

#[export] Instance ChannelId_eq_dec : EqDecision ChannelId.
Proof. solve_decision. Defined.
#[export] Instance Id_eq_dec : EqDecision Id.
Proof. solve_decision. Defined.
#[export, program] Instance Id_countable : Countable Id :=
  inj_countable' id_raw mkId _.
Next Obligation. by intros []. Qed.
#[export, program] Instance ChannelId_countable : Countable ChannelId :=
  inj_countable' chan_raw mkChannelId _.
Next Obligation. by intros []. Qed.

(** What the field types [u8] and [u16] of the newtypes guarantee. *)
Definition ChannelId_wf (c : ChannelId) : Prop := u8 (chan_raw c).
Definition Id_wf (i : Id) : Prop := u16 (id_raw i).
#[export] Instance ChannelId_wf_dec c : Decision (ChannelId_wf c).
Proof. unfold ChannelId_wf. apply _. Defined.
#[export] Instance Id_wf_dec c : Decision (Id_wf c).
Proof. unfold Id_wf. apply _. Defined.

(** ** The outcome of parsing a potentially incomplete buffer *)

Inductive Outcome (T E : Type) : Type :=
  | Incomplete (n : Z)  (* [NonZeroU32] *)
  | Fatal (e : E)
  | Success (t : T).
Arguments Incomplete {T E} n.
Arguments Fatal {T E} e.
Arguments Success {T E} t.

#[export] Instance Outcome_eq_dec `{EqDecision T, EqDecision E} : EqDecision (Outcome T E).
Proof. solve_decision. Defined.

Definition Outcome_expect {T E} (o : Outcome T E) : exec T :=
  match o with
  | Success value => mret value
  | Incomplete _ => Panicked
  | Fatal _ => Panicked
  end.

Definition Outcome_map {T T2 E} (f : T → T2) (o : Outcome T E) : Outcome T2 E :=
  match o with
  | Incomplete n => Incomplete n
  | Fatal err => Fatal err
  | Success value => Success (f value)
  end.

Definition Outcome_map_err {T E E2} (f : E → E2) (o : Outcome T E) : Outcome T E2 :=
  match o with
  | Incomplete n => Incomplete n
  | Fatal err => Fatal (f err)
  | Success value => Success value
  end.

(** [Outcome::incomplete]: [u32::try_from] and [NonZeroU32::new] both must succeed. *)
Definition Outcome_incomplete {T E} (remaining : Z) : exec (Outcome T E) :=
  assert (bool_decide (remaining ≤ u32_max));;
  assert (bool_decide (remaining ≠ 0));;
  mret (Incomplete remaining).

Definition Outcome_to_result {T E} (o : Outcome T E) : exec (E + T) :=
  match o with
  | Incomplete _ => Panicked
  | Fatal e => mret (inl e)
  | Success s => mret (inr s)
  end.

(** The [try_outcome!] macro: passes [Incomplete] and [Fatal] upwards together with the
    state [s] the function has reached, or continues with the value. *)
Notation "'try_outcome!' x ':=' o 'state' s 'in' k" :=
  (match o with
   | Incomplete n => mret (Incomplete n, s)
   | Fatal err => mret (Fatal err, s)
   | Success x => k
   end) (at level 200, x pattern, o at level 100, s at level 100, k at level 200).
Notation "'try_outcome!' x ':=' o 'in' k" :=
  (match o with
   | Incomplete n => mret (Incomplete n)
   | Fatal err => mret (Fatal err)
   | Success x => k
   end) (at level 200, x pattern, o at level 100, k at level 200).

Lemma Outcome_incomplete_Done {T E} n :
  0 < n ≤ u32_max → @Outcome_incomplete T E n = Done (Incomplete n).
Proof.
  intros. unfold Outcome_incomplete.
  rewrite !bool_decide_eq_true_2 by lia. done.
Qed.
#[export] Hint Rewrite @Outcome_incomplete_Done using ulia : exec.

(** ** Channel configuration *)

Record ChannelConfiguration := mkChannelConfiguration {
  request_limit : Z;               (* u16 *)
  max_request_payload_size : Z;    (* u32 *)
  max_response_payload_size : Z;   (* u32 *)
}.

Definition ChannelConfiguration_new : ChannelConfiguration :=
  {| request_limit := 1; max_request_payload_size := 0; max_response_payload_size := 0 |}.
Definition ChannelConfiguration_default : ChannelConfiguration := ChannelConfiguration_new.

Definition with_request_limit (self : ChannelConfiguration) (request_limit : Z) :=
  {| request_limit := request_limit;
     max_request_payload_size := max_request_payload_size self;
     max_response_payload_size := max_response_payload_size self |}.
Definition with_max_request_payload_size (self : ChannelConfiguration) (size : Z) :=
  {| request_limit := request_limit self;
     max_request_payload_size := size;
     max_response_payload_size := max_response_payload_size self |}.
Definition with_max_response_payload_size (self : ChannelConfiguration) (size : Z) :=
  {| request_limit := request_limit self;
     max_request_payload_size := max_request_payload_size self;
     max_response_payload_size := size |}.

Definition ChannelConfiguration_wf (c : ChannelConfiguration) : Prop :=
  u16 (request_limit c) ∧ u32 (max_request_payload_size c) ∧ u32 (max_response_payload_size c).
#[export] Instance ChannelConfiguration_wf_dec c : Decision (ChannelConfiguration_wf c).
Proof. unfold ChannelConfiguration_wf. apply _. Defined.
#[export] Instance ChannelConfiguration_eq_dec : EqDecision ChannelConfiguration.
Proof. solve_decision. Defined.
