(* ===== verification/Varint.v ===== *)
(** * Variable length integers (src/src/varint.rs) *)
From S2P Require Import Prelude Lib.
From stdpp Require Import options.

Definition VARINT_MASK : Z := 127.

Inductive Overflow := overflow.
#[export] Instance Overflow_eq_dec : EqDecision Overflow.
Proof. solve_decision. Defined.

Record ParsedU32 := mkParsedU32 {
  offset : Z;  (* NonZeroU8 *)
  value : Z;   (* u32 *)
}.
#[export] Instance ParsedU32_eq_dec : EqDecision ParsedU32.
Proof. solve_decision. Defined.

(** [x << s] on a [u32]: shifting by the width or more is an overflow. *)
Definition shl32 (x s : Z) : exec Z :=
  if decide (0 ≤ s < 32) then Done (as_u32 (Z.shiftl x s)) else Panicked.

(** ** Decoding *)

(** The [while] loop: [input] is the part from [idx] on. *)
Fixpoint decode_varint32_loop (input : bytes) (idx value : Z) : exec (Outcome ParsedU32 Overflow) :=
  match input with
  | [] => mret (Incomplete 1)
  | c :: rest =>
      if bool_decide (4 ≤ idx) && negb (Z.land c 240 =? 0) then mret (Fatal overflow)
      else
        part ← shl32 (Z.land c VARINT_MASK) (idx * 7);
        let value := Z.lor value part in
        if Z.land c (not_u8 VARINT_MASK) =? 0 then
          mret (Success {| offset := as_u8 (idx + 1); value := value |})
        else decode_varint32_loop rest (idx + 1) value
  end.
Definition decode_varint32 (input : bytes) : exec (Outcome ParsedU32 Overflow) :=
  decode_varint32_loop input 0 0.

(** ** Encoding *)

(** Five value bytes and the length in the sixth. *)
Record Varint32 := mkVarint32 { v32 : bytes (* [u8; 6] *) }.
#[export] Instance Varint32_eq_dec : EqDecision Varint32.
Proof. solve_decision. Defined.

Definition SENTINEL : Varint32 := mkVarint32 (replicate 6 0).
Definition MAX_LEN : Z := 5.

Fixpoint Varint32_encode_loop (fuel : nat) (value : Z) (output : bytes) (count : Z)
    : exec (bytes * Z) :=
  match fuel with
  | O => OutOfFuel
  | S fuel =>
      if 0 <? value then
        output ← array_set output count (Z.land (as_u8 value) VARINT_MASK);
        let value := Z.shiftr value 7 in
        if 0 <? value then
          b ← array_get output count;
          output ← array_set output count (Z.lor b (not_u8 VARINT_MASK));
          count ← uadd usize_max count 1;
          Varint32_encode_loop fuel value output count
        else Varint32_encode_loop fuel value output count
      else mret (output, count)
  end.
(** A [u32] has at most five groups of seven bits: six rounds are enough. *)
Definition Varint32_encode (value : Z) : exec Varint32 :=
  '(output, count) ← Varint32_encode_loop 6 value (replicate 6 0) 0;
  n ← uadd u8_max (as_u8 count) 1;
  output ← array_set output 5 n;
  mret (mkVarint32 output).

Definition Varint32_len (self : Varint32) : Z := v32 self !!! 5%nat.
Definition is_sentinel (self : Varint32) : bool := Varint32_len self =? 0.
Definition Varint32_as_ref (self : Varint32) : exec bytes :=
  slice (v32 self) 0 (Varint32_len self).

Definition Varint32_decode (self : Varint32) : exec Z :=
  if is_sentinel self then mret 0
  else
    o ← decode_varint32 (v32 self);
    match o with
    | Incomplete _ | Fatal _ => mret 0
    | Success v => mret (value v)
    end.

Definition Varint32_length_of (value : Z) : Z :=
  if value <? Z.shiftl 1 7 then 1
  else if value <? Z.shiftl 1 14 then 2
  else if value <? Z.shiftl 1 21 then 3
  else if value <? Z.shiftl 1 28 then 4
  else 5.

(** ** Reference definitions

    The format as arithmetic: base 128, least significant digit first, 128 added to every
    digit but the last, at most five digits, the fifth below 16. *)

Fixpoint varint_parse (room : nat) (input : bytes) {struct input} : Outcome ParsedU32 Overflow :=
  match input with
  | [] => Incomplete 1
  | c :: rest =>
      match room with
      | O => if 16 <=? c then Fatal overflow else Success {| offset := 1; value := c |}
      | S room =>
          if c <? 128 then Success {| offset := 1; value := c |}
          else Outcome_map (λ p, {| offset := 1 + offset p; value := c - 128 + 128 * value p |})
                 (varint_parse room rest)
      end
  end.

Fixpoint varint_print (room : nat) (v : Z) : bytes :=
  match room with
  | O => [v]
  | S room => if v <? 128 then [v] else (128 + v mod 128) :: varint_print room (v / 128)
  end.
Definition varint_bytes (v : Z) : bytes := varint_print 4 v.

(** ** Bits and arithmetic *)

Lemma byte_low7 c : u8 c → Z.land c VARINT_MASK = c mod 128.
Proof.
  intros. apply Z.eqb_eq. revert c H.
  by apply (u8_forallb (λ c, Z.land c VARINT_MASK =? c mod 128)).
Qed.
Lemma byte_high4 c : u8 c → (Z.land c 240 =? 0) = (c <? 16).
Proof.
  intros. apply Bool.eqb_prop. revert c H.
  by apply (u8_forallb (λ c, Bool.eqb (Z.land c 240 =? 0) (c <? 16))).
Qed.
Lemma byte_high1 c : u8 c → (Z.land c (not_u8 VARINT_MASK) =? 0) = (c <? 128).
Proof.
  intros. apply Bool.eqb_prop. revert c H.
  by apply (u8_forallb (λ c, Bool.eqb (Z.land c (not_u8 VARINT_MASK) =? 0) (c <? 128))).
Qed.
Lemma byte_set_high b : 0 ≤ b < 128 → Z.lor b (not_u8 VARINT_MASK) = 128 + b.
Proof.
  intros. assert (u8 b) as Hb by ulia.
  assert ((Z.lor b (not_u8 VARINT_MASK) =? 128 + b) || (128 <=? b) = true) as HH.
  { revert b Hb H. intros b Hb _. revert b Hb.
    by apply (u8_forallb (λ b, (Z.lor b (not_u8 VARINT_MASK) =? 128 + b) || (128 <=? b))). }
  apply orb_true_iff in HH as [HH%Z.eqb_eq|HH%Z.leb_le]; [done|lia].
Qed.

Lemma lor_shiftl_add a b k : 0 ≤ k → 0 ≤ a < 2 ^ k → Z.lor a (Z.shiftl b k) = a + b * 2 ^ k.
Proof.
  intros Hk Ha. rewrite <- Z.shiftl_mul_pow2 by done.
  assert (Z.land a (Z.shiftl b k) = 0) as Hland.
  { apply Z.bits_inj'. intros n Hn. rewrite Z.land_spec, Z.bits_0, Z.shiftl_spec by done.
    destruct (decide (n < k)).
    - rewrite (Z.testbit_neg_r b) by lia. by rewrite andb_false_r.
    - rewrite <- (Z.mod_small a (2 ^ k)), Z.mod_pow2_bits_high by lia. done. }
  rewrite Z.add_nocarry_lxor by done. symmetry. by apply Z.lxor_lor.
Qed.

(** ** Decoding agrees with the reference *)

Lemma decode_varint32_loop_spec input idx v :
  Forall u8 input → 0 ≤ idx ≤ 4 → 0 ≤ v < 2 ^ (7 * idx) →
  decode_varint32_loop input idx v =
    Done (Outcome_map (λ p, {| offset := idx + offset p; value := v + 2 ^ (7 * idx) * value p |})
            (varint_parse (4 - Z.to_nat idx)%nat input)).
Proof.
  revert idx v. induction input as [|c rest IH]; intros idx v Hin Hidx Hv; [done|].
  apply Forall_cons in Hin as [Hc Hrest]. cbn [decode_varint32_loop varint_parse].
  rewrite byte_high4, byte_high1, byte_low7 by done.
  assert (Hlor : c mod 128 < 16 ∨ idx < 4 →
    shl32 (c mod 128) (idx * 7) = Done (Z.shiftl (c mod 128) (7 * idx))).
  { intros Hor. unfold shl32. rewrite decide_True by lia. f_equal.
    rewrite (Z.mul_comm idx). unfold as_u32. apply Z.mod_small.
    rewrite Z.shiftl_mul_pow2 by lia.
    pose proof (Z.mod_pos_bound c 128 ltac:(lia)) as Hm.
    remember (c mod 128) as m eqn:Heqm; clear Heqm.
    assert (idx = 0 ∨ idx = 1 ∨ idx = 2 ∨ idx = 3 ∨ idx = 4) as Hcases by lia.
    destruct Hcases as [-> | [-> | [-> | [-> | ->]]]]; cbn; lia. }
  destruct (decide (idx = 4)) as [->|Hne].
  - rewrite bool_decide_eq_true_2 by lia. change (4 - Z.to_nat 4)%nat with 0%nat. cbn [andb].
    destruct (Z.ltb_spec c 16); cbn [negb].
    + rewrite Hlor by (left; rewrite Z.mod_small; ulia). rewrite bind_Done.
      rewrite (proj2 (Z.ltb_lt c 128)) by lia.
      rewrite (proj2 (Z.leb_gt 16 c)) by lia. cbn [Outcome_map].
      rewrite lor_shiftl_add by lia. rewrite Z.mod_small by ulia.
      unfold mret, exec_ret, as_u8. do 3 f_equal. cbn. lia.
    + rewrite (proj2 (Z.leb_le 16 c)) by lia. done.
  - rewrite bool_decide_eq_false_2 by lia. cbn [andb].
    replace (4 - Z.to_nat idx)%nat with (S (4 - Z.to_nat (idx + 1)))%nat by lia.
    rewrite Hlor by lia. rewrite bind_Done, lor_shiftl_add by lia.
    destruct (Z.ltb_spec c 128); cbn [Outcome_map].
    + unfold mret, exec_ret, as_u8. rewrite !Z.mod_small by ulia.
      do 3 f_equal; cbn [value offset]; lia.
    + assert (2 ^ (7 * (idx + 1)) = 128 * 2 ^ (7 * idx)) as Hpow.
      { rewrite Z.mul_add_distr_l, Z.pow_add_r by lia. lia. }
      assert (c mod 128 = c - 128) as Hmod.
      { symmetry. apply Z.mod_unique with 1; ulia. }
      rewrite Hmod. rewrite IH by first [done | lia | rewrite Hpow; widths; nia].
      destruct (varint_parse _ rest); cbn [Outcome_map]; try done.
      do 3 f_equal; cbn [value offset]; rewrite ?Hpow; lia.
Qed.

Lemma decode_varint32_spec input :
  Forall u8 input → decode_varint32 input = Done (varint_parse 4 input).
Proof.
  intros Hin. unfold decode_varint32. rewrite decode_varint32_loop_spec by (done || lia).
  f_equal. change (4 - Z.to_nat 0)%nat with 4%nat.
  destruct (varint_parse 4 input) as [| |[o v]]; cbn -[Z.mul]; try done.
  do 2 f_equal. lia.
Qed.

(** ** The reference format round-trips *)

Lemma pow128_S room : 128 ^ Z.of_nat (S room) = 128 * 128 ^ Z.of_nat room.
Proof. rewrite Nat2Z.inj_succ, Z.pow_succ_r by lia. done. Qed.

Lemma varint_print_u8 room v : 0 ≤ v < 16 * 128 ^ Z.of_nat room → Forall u8 (varint_print room v).
Proof.
  revert v. induction room as [|room IH]; intros v Hv; cbn [varint_print].
  { repeat constructor; ulia. }
  destruct (Z.ltb_spec v 128); [repeat constructor; ulia|].
  pose proof (Z.mod_pos_bound v 128 ltac:(lia)). constructor; [ulia|].
  apply IH. rewrite pow128_S in Hv. split; [apply Z.div_pos; lia|].
  apply Z.div_lt_upper_bound; lia.
Qed.

Lemma varint_print_len room v : 1 ≤ len (varint_print room v) ≤ 1 + Z.of_nat room.
Proof.
  revert v. induction room as [|room IH]; intros v; cbn [varint_print].
  { rewrite len_singleton. lia. }
  destruct (v <? 128); rewrite len_cons; [rewrite len_nil; lia|]. specialize (IH (v / 128)). lia.
Qed.

Lemma varint_parse_print room v rest :
  0 ≤ v < 16 * 128 ^ Z.of_nat room →
  varint_parse room (varint_print room v ++ rest)
    = Success {| offset := len (varint_print room v); value := v |}.
Proof.
  revert v. induction room as [|room IH]; intros v Hv; cbn [varint_print varint_parse app].
  { rewrite (proj2 (Z.leb_gt 16 v)) by lia. done. }
  destruct (Z.ltb_spec v 128) as [Hlt|Hge]; cbn [varint_parse app].
  { rewrite (proj2 (Z.ltb_lt v 128)) by lia. done. }
  pose proof (Z.mod_pos_bound v 128 ltac:(lia)). pose proof (Z.div_mod v 128 ltac:(lia)).
  rewrite (proj2 (Z.ltb_ge (128 + v mod 128) 128)) by lia.
  rewrite pow128_S in Hv. rewrite IH.
  - cbn [Outcome_map offset value]. rewrite len_cons. do 2 f_equal. lia.
  - split; [apply Z.div_pos; lia|]. apply Z.div_lt_upper_bound; lia.
Qed.

Lemma varint_parse_prefix room v n :
  0 ≤ v < 16 * 128 ^ Z.of_nat room → (n < length (varint_print room v))%nat →
  varint_parse room (take n (varint_print room v)) = Incomplete 1.
Proof.
  revert v n. induction room as [|room IH]; intros v n Hv Hn.
  { cbn [varint_print length] in *. destruct n; [done|lia]. }
  cbn [varint_print] in *. destruct n; [done|].
  destruct (Z.ltb_spec v 128); cbn [length] in Hn; [lia|]. cbn [take varint_parse].
  pose proof (Z.mod_pos_bound v 128 ltac:(lia)).
  rewrite (proj2 (Z.ltb_ge (128 + v mod 128) 128)) by lia.
  rewrite pow128_S in Hv. rewrite IH; [done| |lia].
  split; [apply Z.div_pos; lia|]. apply Z.div_lt_upper_bound; lia.
Qed.

Lemma varint_parse_bounds room input p :
  Forall u8 input → varint_parse room input = Success p →
  0 ≤ value p < 16 * 128 ^ Z.of_nat room ∧ 1 ≤ offset p ≤ 1 + Z.of_nat room ∧ offset p ≤ len input.
Proof.
  revert room p. induction input as [|c rest IH]; intros room p Hin; [by destruct room|].
  apply Forall_cons in Hin as [Hc Hrest]. pose proof (len_nonneg rest).
  assert (0 < 128 ^ Z.of_nat room) by (apply Z.pow_pos_nonneg; lia).
  destruct room as [|room]; cbn [varint_parse].
  - destruct (Z.leb_spec 16 c); [done|]. intros [= <-]. cbn. rewrite len_cons. ulia.
  - destruct (Z.ltb_spec c 128).
    + intros [= <-]. cbn [value offset]. rewrite len_cons, pow128_S in *. ulia.
    + destruct (varint_parse room rest) as [| |q] eqn:Hq; cbn [Outcome_map]; [done..|].
      intros [= <-]. apply IH in Hq as (Hv & Ho & Hl); [|done]. cbn [value offset].
      rewrite len_cons, pow128_S. ulia.
Qed.

(** Reading more of the input never changes an answer already given. *)
Lemma varint_parse_app room input extra :
  match varint_parse room input with
  | Incomplete n => n = 1
  | o => varint_parse room (input ++ extra) = o
  end.
Proof.
  revert room. induction input as [|c rest IH]; intros room; [by destruct room|].
  destruct room as [|room]; cbn [varint_parse app].
  - by destruct (16 <=? c).
  - destruct (c <? 128); [done|]. specialize (IH room).
    destruct (varint_parse room rest); cbn [Outcome_map]; [done|by rewrite IH..].
Qed.

Lemma u32_room v : u32 v → 0 ≤ v < 16 * 128 ^ Z.of_nat 4.
Proof. change (16 * 128 ^ Z.of_nat 4) with 4294967296. ulia. Qed.

(** ** The encoder writes the reference format *)

Lemma array_set_mid (pre suf : bytes) x y n :
  n = len pre → array_set (pre ++ y :: suf) n x = Done (pre ++ x :: suf).
Proof.
  intros ->. pose proof (len_nonneg pre). pose proof (len_nonneg suf).
  rewrite array_set_Done by (rewrite len_app, len_cons; lia).
  unfold len. rewrite Nat2Z.id. rewrite <- (Nat.add_0_r (length pre)) at 1.
  by rewrite insert_app_r.
Qed.
Lemma array_get_mid (pre suf : bytes) y n :
  n = len pre → array_get (pre ++ y :: suf) n = Done y.
Proof.
  intros ->. pose proof (len_nonneg pre). apply array_get_Done; [lia|].
  unfold len. rewrite Nat2Z.id. by apply list_lookup_middle.
Qed.

Lemma as_u8_low7 v : 0 ≤ v → Z.land (as_u8 v) VARINT_MASK = v mod 128.
Proof.
  intros. pose proof (Z.mod_pos_bound v 256 ltac:(lia)).
  rewrite byte_low7 by (unfold as_u8; ulia). unfold as_u8.
  change 256 with (128 * 2). rewrite Z.rem_mul_r by lia.
  rewrite Z.mul_comm, Z.mod_add by lia. apply Z.mod_mod. lia.
Qed.

Lemma Varint32_encode_loop_S fuel value output count :
  Varint32_encode_loop (S fuel) value output count =
  if 0 <? value then
    output ← array_set output count (Z.land (as_u8 value) VARINT_MASK);
    if 0 <? Z.shiftr value 7 then
      b ← array_get output count;
      output ← array_set output count (Z.lor b (not_u8 VARINT_MASK));
      count ← uadd usize_max count 1;
      Varint32_encode_loop fuel (Z.shiftr value 7) output count
    else Varint32_encode_loop fuel (Z.shiftr value 7) output count
  else mret (output, count).
Proof. reflexivity. Qed.

Lemma Varint32_encode_loop_spec room v pre zeros :
  0 < v < 128 ^ Z.of_nat (S room) → len pre + Z.of_nat room ≤ usize_max →
  Varint32_encode_loop (S (S room)) v (pre ++ replicate (S room + zeros) 0) (len pre)
  = Done (pre ++ varint_print room v
            ++ replicate (S room + zeros - length (varint_print room v)) 0,
          len pre + len (varint_print room v) - 1).
Proof.
  revert v pre. induction room as [|room IH]; intros v pre Hv Hpre;
    rewrite Varint32_encode_loop_S; rewrite (proj2 (Z.ltb_lt 0 v)) by lia;
    cbn [replicate Nat.add]; rewrite array_set_mid by done; rewrite bind_Done;
    rewrite as_u8_low7 by lia; rewrite Z.shiftr_div_pow2 by lia; change (2 ^ 7) with 128.
  - change (128 ^ Z.of_nat 1) with 128 in Hv. rewrite Z.div_small by lia. cbn [Z.ltb Z.compare].
    rewrite Z.mod_small by lia. cbn [Z.ltb Z.compare Varint32_encode_loop varint_print].
    unfold mret, exec_ret. cbn [length Nat.sub app]. change (len [v]) with 1.
    rewrite Nat.sub_0_r. do 2 f_equal. lia.
  - cbn [varint_print]. destruct (Z.ltb_spec v 128).
    + rewrite Z.div_small by lia. cbn [Z.ltb Z.compare Varint32_encode_loop].
      rewrite Z.mod_small by lia. unfold mret, exec_ret. do 2 f_equal.
      unfold len. cbn [length]. lia.
    + pose proof (Z.mod_pos_bound v 128 ltac:(lia)). rewrite pow128_S in Hv.
      assert (0 < v / 128) by (apply Z.div_str_pos; lia).
      rewrite (proj2 (Z.ltb_lt 0 _)) by done.
      rewrite array_get_mid by done. rewrite bind_Done, array_set_mid by done.
      rewrite byte_set_high by done. rewrite bind_Done, uadd_Done by ulia. rewrite bind_Done.
      replace (len pre + 1) with (len (pre ++ [128 + v mod 128]))
        by (rewrite len_app, len_singleton; lia).
      rewrite cons_middle, app_assoc.
      change (0 :: replicate (room + zeros) 0) with (replicate (S room + zeros) 0).
      rewrite IH.
      * unfold len. rewrite !length_app. cbn [length app Nat.add Nat.sub].
        rewrite <- !app_assoc. cbn [app]. do 2 f_equal. lia.
      * split; [done|]. apply Z.div_lt_upper_bound; lia.
      * rewrite len_app, len_singleton. lia.
Qed.

(** The value [Varint32::encode] returns. *)
Definition Varint32_of (v : Z) : Varint32 :=
  mkVarint32 (varint_bytes v ++ replicate (5 - length (varint_bytes v)) 0 ++ [len (varint_bytes v)]).

Lemma varint_bytes_len v : 1 ≤ len (varint_bytes v) ≤ 5.
Proof. apply (varint_print_len 4). Qed.
Lemma varint_bytes_u8 v : u32 v → Forall u8 (varint_bytes v).
Proof. intros. by apply varint_print_u8, u32_room. Qed.

Lemma Varint32_encode_u32 v : u32 v → Varint32_encode v = Done (Varint32_of v).
Proof.
  intros Hv. pose proof (varint_bytes_len v) as Hlen. unfold Varint32_encode.
  assert (Varint32_encode_loop 6 v (replicate 6 0) 0 =
    Done (varint_bytes v ++ replicate (6 - length (varint_bytes v)) 0, len (varint_bytes v) - 1)) as ->.
  { destruct (decide (v = 0)) as [-> | Hne]; [done|].
    apply (Varint32_encode_loop_spec 4 v [] 1); [|done].
    change (128 ^ Z.of_nat 5) with 34359738368. ulia. }
  rewrite bind_Done. unfold as_u8. rewrite Z.mod_small by lia.
  rewrite uadd_Done by ulia. rewrite bind_Done.
  unfold len in Hlen. replace (6 - length (varint_bytes v))%nat
    with (5 - length (varint_bytes v) + 1)%nat by lia.
  rewrite replicate_add, app_assoc. cbn [replicate].
  rewrite array_set_mid by (unfold len; rewrite length_app, length_replicate; lia).
  rewrite bind_Done, <- app_assoc. unfold Varint32_of, mret, exec_ret. do 4 f_equal.
  cbn [app]. f_equal. lia.
Qed.

Lemma Varint32_of_len v : Varint32_len (Varint32_of v) = len (varint_bytes v).
Proof.
  pose proof (varint_bytes_len v) as Hlen. unfold Varint32_len, Varint32_of. cbn [v32].
  rewrite app_assoc. unfold len in *.
  rewrite lookup_total_app_r by (rewrite length_app, length_replicate; lia).
  rewrite length_app, length_replicate.
  by replace (5 - _)%nat with 0%nat by lia.
Qed.

Lemma Varint32_of_as_ref v : Varint32_as_ref (Varint32_of v) = Done (varint_bytes v).
Proof.
  pose proof (varint_bytes_len v). unfold Varint32_as_ref. rewrite Varint32_of_len.
  rewrite slice_Done; [|lia|].
  - cbn [v32 Varint32_of]. change (Z.to_nat 0) with 0%nat. rewrite drop_0, Z.sub_0_r.
    by rewrite take_app_len.
  - cbn [v32 Varint32_of]. rewrite !len_app, len_singleton.
    pose proof (len_nonneg (replicate (5 - length (varint_bytes v)) 0)). lia.
Qed.

Lemma Varint32_of_not_sentinel v : is_sentinel (Varint32_of v) = false.
Proof.
  unfold is_sentinel. rewrite Varint32_of_len. pose proof (varint_bytes_len v).
  by apply Z.eqb_neq; lia.
Qed.

Lemma Varint32_length_of_spec v : u32 v → Varint32_length_of v = len (varint_bytes v).
Proof.
  intros Hv. unfold Varint32_length_of, varint_bytes.
  change (Z.shiftl 1 7) with 128. change (Z.shiftl 1 14) with 16384.
  change (Z.shiftl 1 21) with 2097152. change (Z.shiftl 1 28) with 268435456.
  assert (Hdiv : ∀ a b, 0 ≤ a → 0 < b → (a / 128 <? b) = (a <? 128 * b)).
  { intros a b Ha Hb. apply eq_bool_prop_intro. rewrite !Is_true_true, !Z.ltb_lt.
    pose proof (Z.div_mod a 128 ltac:(lia)). pose proof (Z.mod_pos_bound a 128 ltac:(lia)). lia. }
  assert (0 ≤ v / 128 ∧ 0 ≤ v / 128 / 128 ∧ 0 ≤ v / 128 / 128 / 128) as (? & ? & ?).
  { split_and!; repeat apply Z.div_pos; ulia. }
  unfold varint_print. rewrite !Hdiv by ulia.
  change (128 * 128) with 16384. change (128 * 16384) with 2097152.
  change (128 * 2097152) with 268435456.
  destruct (v <? 128); [done|]. rewrite !len_cons.
  destruct (v <? 16384); [done|]. rewrite !len_cons.
  destruct (v <? 2097152); [done|]. rewrite !len_cons.
  by destruct (v <? 268435456).
Qed.

Lemma decode_varint32_print v rest :
  u32 v → Forall u8 rest →
  decode_varint32 (varint_bytes v ++ rest)
    = Done (Success {| offset := len (varint_bytes v); value := v |}).
Proof.
  intros Hv Hrest. rewrite decode_varint32_spec.
  - unfold varint_bytes. by rewrite varint_parse_print by by apply u32_room.
  - apply Forall_app. auto using varint_bytes_u8.
Qed.

#[export] Hint Rewrite Varint32_of_len Varint32_of_as_ref Varint32_of_not_sentinel : exec.
#[export] Hint Resolve varint_bytes_u8 : exec.

(** ** Properties *)

(** C31: encoding any [u32] succeeds, the encoded bytes are as many as [length_of] announces
    (at most five), decoding them gives the value back and consumes exactly them whatever
    follows, and every proper prefix is reported incomplete by one byte. *)
Theorem varint_roundtrip v : u32 v →
  ∃ e b, Varint32_encode v = Done e ∧ Varint32_as_ref e = Done b ∧
    len b = Varint32_length_of v ∧ Varint32_len e = Varint32_length_of v ∧ len b ≤ MAX_LEN ∧
    Varint32_decode e = Done v ∧
    (∀ rest, Forall u8 rest →
       decode_varint32 (b ++ rest) = Done (Success {| offset := len b; value := v |})) ∧
    (∀ n, (n < length b)%nat → decode_varint32 (take n b) = Done (Incomplete 1)).
Proof.
  intros Hv. exists (Varint32_of v), (varint_bytes v).
  rewrite Varint32_length_of_spec, Varint32_of_len by done.
  pose proof (varint_bytes_len v) as Hlen.
  split_and!; try done.
  - by apply Varint32_encode_u32.
  - apply Varint32_of_as_ref.
  - unfold MAX_LEN. lia.
  - unfold Varint32_decode. rewrite Varint32_of_not_sentinel. cbn [v32 Varint32_of].
    rewrite decode_varint32_print; [done|done|].
    apply Forall_app; split; [apply Forall_replicate; ulia|repeat constructor; ulia].
  - intros. by apply decode_varint32_print.
  - intros n Hn. rewrite decode_varint32_spec by by apply Forall_take, varint_bytes_u8.
    f_equal. by apply varint_parse_prefix; [apply u32_room|].
Qed.
Lemma varint_roundtrip_witness :
  u32 300 ∧ ∃ e b, Varint32_encode 300 = Done e ∧ Varint32_as_ref e = Done b ∧
    len b = Varint32_length_of 300 ∧ Varint32_len e = Varint32_length_of 300 ∧ len b ≤ MAX_LEN ∧
    Varint32_decode e = Done 300 ∧
    (∀ rest, Forall u8 rest →
       decode_varint32 (b ++ rest) = Done (Success {| offset := len b; value := 300 |})) ∧
    (∀ n, (n < length b)%nat → decode_varint32 (take n b) = Done (Incomplete 1)).
Proof. split; [ulia|]. apply varint_roundtrip. ulia. Defined.

(** C32: on any byte string the decoding loop never panics and computes exactly the reference
    parse: base-128 digits, least significant first, at most five bytes, the fifth below 16. *)
Theorem decode_varint32_reference input :
  Forall u8 input →
  decode_varint32 input = Done (varint_parse 4 input) ∧
  ∀ p, varint_parse 4 input = Success p →
    u32 (value p) ∧ 1 ≤ offset p ≤ MAX_LEN ∧ offset p ≤ len input.
Proof.
  intros Hin. split; [by apply decode_varint32_spec|].
  intros p Hp. apply varint_parse_bounds in Hp as (Hv & Ho & Hl); [|done].
  change (16 * 128 ^ Z.of_nat 4) with 4294967296 in Hv. unfold MAX_LEN. ulia.
Qed.
Lemma decode_varint32_reference_witness :
  Forall u8 [172; 2; 7] ∧
  decode_varint32 [172; 2; 7] = Done (varint_parse 4 [172; 2; 7]) ∧
  ∀ p, varint_parse 4 [172; 2; 7] = Success p →
    u32 (value p) ∧ 1 ≤ offset p ≤ MAX_LEN ∧ offset p ≤ len [172; 2; 7].
Proof.
  assert (Forall u8 [172; 2; 7]) as H by (repeat constructor; ulia).
  split; [exact H|]. exact (decode_varint32_reference _ H).
Defined.

(** Known values of the repository's tests. *)
Example encode_known_value : Varint32_encode 0x12345678 = Done (mkVarint32 [0xf8; 0xac; 0xd1; 0x91; 0x01; 5]).
Proof. reflexivity. Qed.
Example decode_overflow : decode_varint32 [0x80; 0x80; 0x80; 0x80; 0x10] = Done (Fatal overflow).
Proof. reflexivity. Qed.
