(* ===== verification/Header.v ===== *)
(** * Frame headers (src/src/header.rs) *)
From S2P Require Import Prelude Lib.
From stdpp Require Import options.

(** ** Kinds *)

Inductive ErrorKind :=
  | EOther | EMaxFrameSizeExceeded | EInvalidHeader | ESegmentViolation | EBadVarInt
  | EInvalidChannel | EInProgress | EResponseTooLarge | ERequestTooLarge | EDuplicateRequest
  | EFictitiousRequest | ERequestLimitExceeded | EFictitiousCancel | ECancellationLimitExceeded.

Inductive Kind :=
  | KRequest | KResponse | KRequestPl | KResponsePl | KCancelReq | KCancelResp.

#[export] Instance ErrorKind_eq_dec : EqDecision ErrorKind.
Proof. solve_decision. Defined.
#[export] Instance Kind_eq_dec : EqDecision Kind.
Proof. solve_decision. Defined.

(** [kind as u8]: the discriminants. *)
Definition ErrorKind_as_u8 (k : ErrorKind) : Z :=
  match k with
  | EOther => 0 | EMaxFrameSizeExceeded => 1 | EInvalidHeader => 2 | ESegmentViolation => 3
  | EBadVarInt => 4 | EInvalidChannel => 5 | EInProgress => 6 | EResponseTooLarge => 7
  | ERequestTooLarge => 8 | EDuplicateRequest => 9 | EFictitiousRequest => 10
  | ERequestLimitExceeded => 11 | EFictitiousCancel => 12 | ECancellationLimitExceeded => 13
  end.
Definition Kind_as_u8 (k : Kind) : Z :=
  match k with
  | KRequest => 0 | KResponse => 1 | KRequestPl => 2 | KResponsePl => 3
  | KCancelReq => 4 | KCancelResp => 5
  end.

(** The variants in order, and what the derives [EnumCount] and [FromRepr] give from them:
    the number of variants, and the variant with a given discriminant. *)
Definition ErrorKind_iter : list ErrorKind :=
  [EOther; EMaxFrameSizeExceeded; EInvalidHeader; ESegmentViolation; EBadVarInt;
   EInvalidChannel; EInProgress; EResponseTooLarge; ERequestTooLarge; EDuplicateRequest;
   EFictitiousRequest; ERequestLimitExceeded; EFictitiousCancel; ECancellationLimitExceeded].
Definition Kind_iter : list Kind :=
  [KRequest; KResponse; KRequestPl; KResponsePl; KCancelReq; KCancelResp].
Definition ErrorKind_COUNT : Z := len ErrorKind_iter.
Definition Kind_COUNT : Z := len Kind_iter.
Definition ErrorKind_from_repr (d : Z) : option ErrorKind :=
  List.find (λ k, ErrorKind_as_u8 k =? d) ErrorKind_iter.
Definition Kind_from_repr (d : Z) : option Kind :=
  List.find (λ k, Kind_as_u8 k =? d) Kind_iter.

(** ** The header: four bytes *)

Record Header := mkHeader { hb0 : Z; hb1 : Z; hb2 : Z; hb3 : Z }.
#[export] Instance Header_eq_dec : EqDecision Header.
Proof. solve_decision. Defined.

Definition Header_SIZE : Z := 4.
Definition KIND_ERR_BIT : Z := 128.
Definition KIND_ERR_MASK : Z := 15.
Definition KIND_MASK : Z := 7.

(** [u16::to_le_bytes] and [u16::from_le_bytes]. *)
Definition to_le_bytes (x : Z) : Z * Z := (x mod 256, x / 256 mod 256).
Definition from_le_bytes (b0 b1 : Z) : Z := b0 + 256 * b1.

Definition Header_new (kind : Kind) (channel : ChannelId) (id : Id) : Header :=
  let id := to_le_bytes (Id_get id) in
  mkHeader (Kind_as_u8 kind) (ChannelId_get channel) id.1 id.2.

Definition Header_new_error (kind : ErrorKind) (channel : ChannelId) (id : Id) : Header :=
  let id := to_le_bytes (Id_get id) in
  mkHeader (Z.lor (ErrorKind_as_u8 kind) KIND_ERR_BIT) (ChannelId_get channel) id.1 id.2.

Definition kind_byte (self : Header) : Z := hb0 self.
Definition Header_channel (self : Header) : ChannelId := ChannelId_new (hb1 self).
Definition Header_id (self : Header) : Id := Id_new (from_le_bytes (hb2 self) (hb3 self)).
Definition is_error (self : Header) : bool :=
  Z.land (kind_byte self) KIND_ERR_BIT =? KIND_ERR_BIT.

Definition error_kind (self : Header) : exec ErrorKind :=
  assert (is_error self);;
  unwrap (ErrorKind_from_repr (Z.land (kind_byte self) KIND_ERR_MASK)).

Definition kind (self : Header) : exec Kind :=
  assert (negb (is_error self));;
  unwrap (Kind_from_repr (Z.land (kind_byte self) KIND_MASK)).

Definition is_request (self : Header) : exec bool :=
  if negb (is_error self) then
    k ← kind self;
    mret (match k with KRequest | KRequestPl => true | _ => false end)
  else mret false.

Definition with_err (self : Header) (kind : ErrorKind) : Header :=
  Header_new_error kind (Header_channel self) (Header_id self).

Definition Header_parse (raw : Z * Z * Z * Z) : option Header :=
  let '(r0, r1, r2, r3) := raw in
  let r0 := Z.land r0 (Z.lor (Z.lor KIND_ERR_MASK KIND_MASK) KIND_ERR_BIT) in
  let header := mkHeader r0 r1 r2 r3 in
  if is_error header then
    if ErrorKind_COUNT <=? Z.land (kind_byte header) KIND_ERR_MASK then None
    else Some header
  else
    if Kind_COUNT <=? Z.land (kind_byte header) KIND_MASK then None
    else if negb (Z.land (kind_byte header) KIND_MASK =? kind_byte header) then None
    else Some header.

(** [From<Header> for [u8; 4]] and [AsRef<[u8; 4]>]: the bytes sent to a peer. *)
Definition Header_into (self : Header) : Z * Z * Z * Z := (hb0 self, hb1 self, hb2 self, hb3 self).
Definition Header_as_ref (self : Header) : bytes := [hb0 self; hb1 self; hb2 self; hb3 self].

(** [buffer[0..Header::SIZE].try_into().unwrap()] *)
Definition header_raw (buffer : bytes) : exec (Z * Z * Z * Z) :=
  s ← slice buffer 0 Header_SIZE;
  match s with
  | [a; b; c; d] => mret (a, b, c, d)
  | _ => Panicked
  end.

(** ** Well-formed headers: what [Header::new], [Header::new_error] and [Header::parse] build *)

Definition Header_wf (h : Header) : Prop :=
  (∃ k c i, h = Header_new k c i ∧ ChannelId_wf c ∧ Id_wf i) ∨
  (∃ k c i, h = Header_new_error k c i ∧ ChannelId_wf c ∧ Id_wf i).

(** ** Lemmas *)

Lemma from_to_le_bytes x : u16 x → from_le_bytes (to_le_bytes x).1 (to_le_bytes x).2 = x.
Proof.
  intros. unfold from_le_bytes, to_le_bytes. cbn [fst snd].
  pose proof (Z.div_mod x 256 ltac:(lia)). rewrite (Z.mod_small (x / 256)); [lia|].
  split; [apply Z.div_pos; ulia|]. apply Z.div_lt_upper_bound; ulia.
Qed.
Lemma to_from_le_bytes b0 b1 : u8 b0 → u8 b1 → to_le_bytes (from_le_bytes b0 b1) = (b0, b1).
Proof.
  intros. unfold from_le_bytes, to_le_bytes. rewrite (Z.mul_comm 256), Z.mod_add, Z.div_add by lia.
  by rewrite (Z.div_small b0), Z.add_0_l, !Z.mod_small by ulia.
Qed.
Lemma to_le_bytes_u8 x : u8 (to_le_bytes x).1 ∧ u8 (to_le_bytes x).2.
Proof.
  unfold to_le_bytes. cbn [fst snd].
  pose proof (Z.mod_pos_bound x 256 ltac:(lia)).
  pose proof (Z.mod_pos_bound (x / 256) 256 ltac:(lia)). ulia.
Qed.
Lemma from_le_bytes_u16 b0 b1 : u8 b0 → u8 b1 → u16 (from_le_bytes b0 b1).
Proof. unfold from_le_bytes. ulia. Qed.

Lemma Header_channel_new k c i : Header_channel (Header_new k c i) = c.
Proof. by destruct c. Qed.
Lemma Header_channel_new_error k c i : Header_channel (Header_new_error k c i) = c.
Proof. by destruct c. Qed.
Lemma Header_id_new k c i : Id_wf i → Header_id (Header_new k c i) = i.
Proof.
  destruct i as [x]. intros. unfold Header_id, Header_new, Id_get, Id_new. cbn [hb2 hb3 id_raw].
  by rewrite from_to_le_bytes.
Qed.
Lemma Header_id_new_error k c i : Id_wf i → Header_id (Header_new_error k c i) = i.
Proof.
  destruct i as [x]. intros. unfold Header_id, Header_new_error, Id_get, Id_new.
  cbn [hb2 hb3 id_raw]. by rewrite from_to_le_bytes.
Qed.
Lemma is_error_new k c i : is_error (Header_new k c i) = false.
Proof. by destruct k. Qed.
Lemma is_error_new_error k c i : is_error (Header_new_error k c i) = true.
Proof. by destruct k. Qed.
Lemma kind_new k c i : kind (Header_new k c i) = Done k.
Proof. by destruct k. Qed.
Lemma error_kind_new_error k c i : error_kind (Header_new_error k c i) = Done k.
Proof. by destruct k. Qed.
#[export] Hint Rewrite Header_channel_new Header_channel_new_error is_error_new
  is_error_new_error kind_new error_kind_new_error : exec.
#[export] Hint Rewrite Header_id_new Header_id_new_error using done : exec.

Lemma Header_parse_new k c i : Header_parse (Header_into (Header_new k c i)) = Some (Header_new k c i).
Proof. by destruct k. Qed.
Lemma Header_parse_new_error k c i :
  Header_parse (Header_into (Header_new_error k c i)) = Some (Header_new_error k c i).
Proof. by destruct k. Qed.

(** The kind byte of a parsed header is that of one of the twenty kinds. *)
Lemma Header_parse_kind_byte b : u8 b → ∀ c i0 i1 h,
  Header_parse (b, c, i0, i1) = Some h →
  hb1 h = c ∧ hb2 h = i0 ∧ hb3 h = i1 ∧
  ((∃ k, hb0 h = Kind_as_u8 k) ∨ (∃ k, hb0 h = Z.lor (ErrorKind_as_u8 k) KIND_ERR_BIT)).
Proof.
  intros Hb c i0 i1 h Hp.
  assert (hb1 h = c ∧ hb2 h = i0 ∧ hb3 h = i1) as (H1 & H2 & H3).
  { unfold Header_parse in Hp. repeat case_match; simplify_eq; done. }
  split_and!; try done. clear H1 H2 H3.
  pose (ok x := match Header_parse (x, 0, 0, 0) with
    | None => true
    | Some h => existsb (λ k, hb0 h =? Kind_as_u8 k) Kind_iter
               || existsb (λ k, hb0 h =? Z.lor (ErrorKind_as_u8 k) KIND_ERR_BIT) ErrorKind_iter
    end).
  assert (ok b = true) as Hok by (revert b Hb Hp; intros b Hb _; revert b Hb; by apply u8_forallb).
  assert (∃ h', Header_parse (b, 0, 0, 0) = Some h' ∧ hb0 h' = hb0 h) as (h' & Hp' & Hh').
  { clear Hok. unfold Header_parse in *. unfold is_error, kind_byte in *. cbn [hb0] in *.
    repeat case_match; simplify_eq; eexists; split; reflexivity. }
  unfold ok in Hok. rewrite Hp' in Hok. rewrite <- Hh'.
  apply orb_true_iff in Hok as [Hk|Hk]; apply existsb_exists in Hk as (k & _ & Hk%Z.eqb_eq);
    [left|right]; eauto.
Qed.

Lemma Header_parse_wf b0 b1 b2 b3 h :
  u8 b0 → u8 b1 → u8 b2 → u8 b3 → Header_parse (b0, b1, b2, b3) = Some h → Header_wf h.
Proof.
  intros Hb0 Hb1 Hb2 Hb3 Hp.
  apply Header_parse_kind_byte in Hp as (H1 & H2 & H3 & Hk); [|done].
  assert (ChannelId_wf (ChannelId_new b1)) as Hc by done.
  assert (Id_wf (Id_new (from_le_bytes b2 b3))) as Hi by by apply from_le_bytes_u16.
  destruct Hk as [[k Hk]|[k Hk]]; [left|right];
    exists k, (ChannelId_new b1), (Id_new (from_le_bytes b2 b3)); (split; [|done]);
    unfold Header_new, Header_new_error, Id_get, ChannelId_get; cbn [id_raw chan_raw Id_new ChannelId_new];
    rewrite to_from_le_bytes by done; destruct h; cbn in *; by subst.
Qed.

Lemma Header_as_ref_u8 h : Header_wf h → Forall u8 (Header_as_ref h).
Proof.
  intros [(k & [c] & [i] & -> & Hc & Hi)|(k & [c] & [i] & -> & Hc & Hi)];
    pose proof (to_le_bytes_u8 i) as [? ?];
    unfold Header_as_ref, Header_new, Header_new_error, Id_get, ChannelId_get;
    cbn [hb0 hb1 hb2 hb3 id_raw chan_raw];
    rewrite !Forall_cons, Forall_nil; refine (conj _ (conj _ (conj _ (conj _ I))));
    try assumption; destruct k; vm_compute; split; discriminate.
Qed.

Lemma header_raw_as_ref h rest : header_raw (Header_as_ref h ++ rest) = Done (Header_into h).
Proof.
  unfold header_raw. pose proof (len_nonneg rest).
  assert (len (Header_as_ref h) = 4) as Header_len by done.
  rewrite slice_Done by (unfold Header_SIZE; rewrite ?len_app, ?Header_len; lia). done.
Qed.
Lemma header_raw_app buf extra :
  Header_SIZE ≤ len buf → header_raw (buf ++ extra) = header_raw buf.
Proof.
  intros H. unfold header_raw, Header_SIZE in *. pose proof (len_nonneg extra).
  rewrite !slice_Done by (rewrite ?len_app; lia).
  by rewrite !drop_0, take_app_lt by lia.
Qed.
Lemma header_raw_Done buf :
  Header_SIZE ≤ len buf → ∃ a b c d tl, buf = a :: b :: c :: d :: tl ∧ header_raw buf = Done (a, b, c, d).
Proof.
  unfold Header_SIZE, len. intros H. destruct buf as [|a [|b [|c [|d tl]]]]; cbn [length] in H; try lia.
  exists a, b, c, d, tl. split; [done|].
  change (a :: b :: c :: d :: tl) with (Header_as_ref (mkHeader a b c d) ++ tl).
  by rewrite header_raw_as_ref.
Qed.
Lemma Header_as_ref_len h : len (Header_as_ref h) = Header_SIZE.
Proof. done. Qed.

(** ** Properties *)

(** A header that [new] builds is read back as itself: [parse] accepts its bytes, and the
    accessors return the kind, channel and id it was built from. *)
Lemma header_new_roundtrip k c i : Id_wf i →
  let h := Header_new k c i in
  Header_parse (Header_into h) = Some h ∧ is_error h = false ∧ kind h = Done k ∧
  Header_channel h = c ∧ Header_id h = i ∧
  is_request h = Done (bool_decide (k = KRequest ∨ k = KRequestPl)).
Proof.
  intros Hi h. subst h. rewrite Header_parse_new, is_error_new, kind_new, Header_channel_new, Header_id_new by done.
  split_and!; try done. unfold is_request. rewrite is_error_new, kind_new. by destruct k.
Qed.

(** Which of the upper bits of the kind byte [parse] looks at. *)
Lemma Header_parse_masked b0 b1 b2 b3 : Header_parse (Z.land b0 0x8F, b1, b2, b3) = Header_parse (b0, b1, b2, b3).
Proof. unfold Header_parse. change (Z.lor _ KIND_ERR_BIT) with 0x8F. by rewrite <- Z.land_assoc. Qed.
Lemma Header_parse_bytes b0 b1 b2 b3 h : Header_parse (b0, b1, b2, b3) = Some h → Header_as_ref h = [Z.land b0 0x8F; b1; b2; b3].
Proof. unfold Header_parse. change (Z.lor _ KIND_ERR_BIT) with 0x8F. intros Hp. repeat case_match; by simplify_eq. Qed.
Lemma Header_parse_into h : Header_wf h → Header_parse (Header_into h) = Some h.
Proof. intros [(k & c & i & -> & _)|(k & c & i & -> & _)]; [apply Header_parse_new|apply Header_parse_new_error]. Qed.

(** C33: [parse] accepts exactly the well-formed headers.  Whatever four bytes it is given, it gives
    a header if and only if that is one that [new] or [new_error] builds from a kind, a channel
    and an id - any of the kinds - and the bytes are its own, but for the three bits of the kind
    byte that have no meaning.  In particular it reads every header back as it was sent, and
    refuses bytes only if no header has them.  The accessor for the kind of a header it gives
    does not panic, and the parts of the header make it up again. *)
Theorem header_parse_exact b0 b1 b2 b3 : u8 b0 → u8 b1 → u8 b2 → u8 b3 →
  (∀ h, Header_parse (b0, b1, b2, b3) = Some h ↔ Header_wf h ∧ Header_as_ref h = [Z.land b0 0x8F; b1; b2; b3]) ∧
  (∀ h, Header_wf h → Header_parse (Header_into h) = Some h) ∧
  (Header_parse (b0, b1, b2, b3) = None ↔ ∀ h, Header_wf h → Header_as_ref h ≠ [Z.land b0 0x8F; b1; b2; b3]) ∧
  ∀ h, Header_parse (b0, b1, b2, b3) = Some h →
    (∃ k, kind h = Done k ∧ is_error h = false ∧ h = Header_new k (Header_channel h) (Header_id h)) ∨
    (∃ k, error_kind h = Done k ∧ is_error h = true ∧ h = with_err h k).
Proof.
  intros Hb0 Hb1 Hb2 Hb3.
  assert (∀ h, Header_parse (b0, b1, b2, b3) = Some h ↔ Header_wf h ∧ Header_as_ref h = [Z.land b0 0x8F; b1; b2; b3]) as Hexact.
  { intros h. split.
    - intros Hp. split; [by apply (Header_parse_wf b0 b1 b2 b3)|by apply Header_parse_bytes].
    - intros [Hw Hh]. rewrite <- Header_parse_masked, <- (Header_parse_into h Hw).
      destruct h. unfold Header_as_ref in Hh. cbn [hb0 hb1 hb2 hb3] in Hh. by injection Hh as -> -> -> ->. }
  split; [done|]. split; [apply Header_parse_into|]. split.
  - split; [intros Hp h Hw Hh; by rewrite (proj2 (Hexact h) (conj Hw Hh)) in Hp|].
    intros Hno. apply eq_None_not_Some. intros [h [Hw Hh]%Hexact]. by destruct (Hno h).
  - intros h [Hw _]%Hexact. unfold with_err. destruct Hw as [(k & c & i & -> & _ & Hi)|(k & c & i & -> & _ & Hi)].
    + left. exists k. by autorewrite with exec.
    + right. exists k. by autorewrite with exec.
Qed.
(** Known values of the repository: a header, and a kind byte that is no kind. *)
Lemma header_parse_exact_witness :
  let h := Header_new_error EInProgress (ChannelId_new 0x48) (Id_new 0xBBAA) in
  Header_parse (0x86, 0x48, 0xAA, 0xBB) = Some h ∧ (Header_wf h ∧ Header_as_ref h = [0x86; 0x48; 0xAA; 0xBB]) ∧
  (Header_parse (6, 0, 0, 0) = None ∧ ∀ h, Header_wf h → Header_as_ref h ≠ [6; 0; 0; 0]).
Proof.
  intros h. assert (Header_parse (0x86, 0x48, 0xAA, 0xBB) = Some h) as Hp by reflexivity. split; [exact Hp|]. split.
  - destruct (header_parse_exact 0x86 0x48 0xAA 0xBB) as [Hexact _]; [ulia..|]. exact (proj1 (Hexact h) Hp).
  - assert (Header_parse (6, 0, 0, 0) = None) as Hn by reflexivity. split; [exact Hn|].
    destruct (header_parse_exact 6 0 0 0) as (_ & _ & Hnone & _); [ulia..|]. exact (proj1 Hnone Hn).
Defined.

(** The repository's known values. *)
Example known_header :
  Header_parse (0x86, 0x48, 0xAA, 0xBB)
  = Some (Header_new_error EInProgress (ChannelId_new 0x48) (Id_new 0xBBAA)).
Proof. reflexivity. Qed.
Example fuzz_header_regressions :
  Header_parse (8, 0, 0, 0) = None ∧ Header_parse (48, 0, 0, 0) = Some (mkHeader 0 0 0 0).
Proof. split; reflexivity. Qed.
