(* ===== verification/FrameSize.v ===== *)
(** * The maximum frame size (src/src/protocol.rs, [MaxFrameSize] and [payload_is_multi_frame]) *)
From S2P Require Import Prelude Lib Varint Header.
From stdpp Require Import options.

Record MaxFrameSize := mkMaxFrameSize { mfs : Z (* u32 *) }.

Definition MaxFrameSize_MIN : Z := Header_SIZE + MAX_LEN + 1.
Definition MaxFrameSize_DEFAULT : MaxFrameSize := mkMaxFrameSize 4096.

Definition MaxFrameSize_new (max_frame_size : Z) : exec MaxFrameSize :=
  assert (MaxFrameSize_MIN <=? max_frame_size);;
  mret (mkMaxFrameSize max_frame_size).

Definition MaxFrameSize_get (self : MaxFrameSize) : Z := mfs self.
Definition get_usize (self : MaxFrameSize) : Z := mfs self.
Definition without_header (self : MaxFrameSize) : exec Z := usub (get_usize self) Header_SIZE.
Definition without_preamble (self : MaxFrameSize) (payload_len : Z) : exec Z :=
  n ← without_header self;
  usub n (Varint32_length_of payload_len).

Definition payload_is_multi_frame (max_frame_size : MaxFrameSize) (payload_len : Z) : exec bool :=
  assert (payload_len <=? u32_max);;
  room ← without_preamble max_frame_size (as_u32 payload_len);
  mret (room <? payload_len).

(** What [new] and [DEFAULT] guarantee: there is room for a preamble and a byte. *)
Definition MaxFrameSize_wf (m : MaxFrameSize) : Prop := MaxFrameSize_MIN ≤ mfs m ≤ u32_max.
#[export] Instance MaxFrameSize_wf_dec m : Decision (MaxFrameSize_wf m).
Proof. unfold MaxFrameSize_wf. apply _. Defined.
#[export] Instance MaxFrameSize_eq_dec : EqDecision MaxFrameSize.
Proof. solve_decision. Defined.

Lemma MaxFrameSize_wf_bounds m : MaxFrameSize_wf m → 10 ≤ mfs m ≤ 4294967295.
Proof. done. Qed.
Lemma MaxFrameSize_new_wf n m : u32 n → MaxFrameSize_new n = Done m → MaxFrameSize_wf m.
Proof.
  unfold MaxFrameSize_new, assert. intros Hn. destruct (Z.leb_spec MaxFrameSize_MIN n); [|done].
  intros [= <-]. unfold MaxFrameSize_wf. cbn [mfs]. ulia.
Qed.
Lemma MaxFrameSize_DEFAULT_wf : MaxFrameSize_wf MaxFrameSize_DEFAULT.
Proof. split; vm_compute; discriminate. Qed.

Lemma without_header_Done m : MaxFrameSize_wf m → without_header m = Done (mfs m - 4).
Proof.
  intros ?%MaxFrameSize_wf_bounds. unfold without_header, get_usize, Header_SIZE.
  by rewrite usub_Done by lia.
Qed.
Lemma as_u32_small n : u32 n → as_u32 n = n.
Proof. intros. unfold as_u32. apply Z.mod_small. ulia. Qed.
Lemma without_preamble_Done m n :
  MaxFrameSize_wf m → u32 n → without_preamble m n = Done (mfs m - 4 - len (varint_bytes n)).
Proof.
  intros Hm Hn. unfold without_preamble. rewrite without_header_Done by done.
  rewrite bind_Done, Varint32_length_of_spec by done.
  apply MaxFrameSize_wf_bounds in Hm. pose proof (varint_bytes_len n). by rewrite usub_Done by lia.
Qed.
Lemma payload_is_multi_frame_Done m n :
  MaxFrameSize_wf m → u32 n →
  payload_is_multi_frame m n = Done (mfs m - 4 - len (varint_bytes n) <? n).
Proof.
  intros Hm Hn. unfold payload_is_multi_frame. rewrite as_u32_small by done.
  rewrite assert_true by (apply Z.leb_le; ulia). cbn [mbind exec_bind].
  by rewrite without_preamble_Done.
Qed.
#[export] Hint Rewrite without_header_Done without_preamble_Done payload_is_multi_frame_Done
  as_u32_small using done : exec.
