(* ===== verification/OutgoingMessage.v ===== *)
(** * Outgoing messages and their frames (src/src/protocol/outgoing_message.rs) *)
From S2P Require Import Prelude Lib Varint Header FrameSize.
From stdpp Require Import options.

(** ** The [bytes::Buf] trait

    The operations a type implements and, in [BufLaws], what the trait's documentation asks of
    them: a buffer has some contents left; [chunk] is a prefix of them, empty only when nothing
    is left; [advance] drops bytes from the front. *)
Class Buf (B : Type) := {
  buf_remaining : B → exec Z;
  buf_chunk : B → exec bytes;
  buf_advance : B → Z → exec B;
}.
Class BufLaws (B : Type) `{Buf B} := {
  buf_wf : B → Prop;
  buf_contents : B → bytes;
  buf_remaining_spec b : buf_wf b → buf_remaining b = Done (len (buf_contents b));
  buf_chunk_spec b : buf_wf b →
    ∃ ch, buf_chunk b = Done ch ∧ ch `prefix_of` buf_contents b ∧
          (buf_contents b ≠ [] → ch ≠ []);
  buf_advance_spec b n : buf_wf b → 0 ≤ n ≤ len (buf_contents b) →
    ∃ b', buf_advance b n = Done b' ∧ buf_wf b' ∧
          buf_contents b' = drop (Z.to_nat n) (buf_contents b);
}.

(** ** Messages *)

Record OutgoingMessage := mkOutgoingMessage {
  om_header : Header;
  om_payload : option bytes;
}.
#[export] Instance OutgoingMessage_eq_dec : EqDecision OutgoingMessage.
Proof. solve_decision. Defined.

Definition OutgoingMessage_new (header : Header) (payload : option bytes) : OutgoingMessage :=
  {| om_header := header; om_payload := payload |}.

Definition is_multi_frame (self : OutgoingMessage) (max_frame_size : MaxFrameSize) : exec bool :=
  match om_payload self with
  | Some payload => payload_is_multi_frame max_frame_size (len payload)
  | None => mret false
  end.

Definition OutgoingMessage_header (self : OutgoingMessage) : Header := om_header self.

Definition non_header_len (self : OutgoingMessage) : exec Z :=
  match om_payload self with
  | Some pl => uadd usize_max (Varint32_length_of (as_u32 (len pl))) (len pl)
  | None => mret 0
  end.

Definition num_frames (self : OutgoingMessage) (max_frame_size : MaxFrameSize) : exec Z :=
  usable_size ← without_header max_frame_size;
  n ← non_header_len self;
  n ← uadd usize_max n usable_size;
  n ← usub n 1;
  assert (negb (usable_size =? 0));;
  let num_frames := n / usable_size in
  mret (if num_frames =? 0 then 1 else num_frames).

Definition umul (x y : Z) : exec Z :=
  if decide (x * y ≤ usize_max) then Done (x * y) else Panicked.
Definition total_len (self : OutgoingMessage) (max_frame_size : MaxFrameSize) : exec Z :=
  n ← num_frames self max_frame_size;
  n ← umul n Header_SIZE;
  m ← non_header_len self;
  uadd usize_max n m.

(** [Bytes::truncate] of the payload to what the first frame holds. *)
Definition truncate_to_single_frame (self : OutgoingMessage) (max_frame_size : MaxFrameSize)
    : exec OutgoingMessage :=
  multi ← is_multi_frame self max_frame_size;
  if (multi : bool) then
    match om_payload self with
    | Some payload =>
        n ← without_preamble max_frame_size (as_u32 (len payload));
        mret {| om_header := om_header self; om_payload := Some (truncate payload n) |}
    | None => mret self
    end
  else mret self.

(** ** Preambles: a header and an optional length prefix *)

Record Preamble := mkPreamble {
  pre_header : Header;
  payload_length : Varint32;
}.
Definition Preamble_new (header : Header) (payload_length : Varint32) : Preamble :=
  {| pre_header := header; payload_length := payload_length |}.
Definition Preamble_len (self : Preamble) : Z := Header_SIZE + Varint32_len (payload_length self).
Definition Preamble_header (self : Preamble) : Header := pre_header self.
(** The record's bytes in memory are those of its two fields; the prefix of them in use. *)
Definition Preamble_as_ref (self : Preamble) : exec bytes :=
  slice (Header_as_ref (pre_header self) ++ v32 (payload_length self)) 0 (Preamble_len self).

(** ** Frames *)

(** [Chain<Cursor<Preamble>, Bytes>]: the preamble with the cursor's position, then the segment. *)
Record OutgoingFrame := mkOutgoingFrame {
  fr_preamble : Preamble;
  fr_pos : Z;
  fr_segment : bytes;
}.

Definition OutgoingFrame_new_with_payload (preamble : Preamble) (payload : bytes) : exec OutgoingFrame :=
  assert (len payload <=? u32_max);;
  mret {| fr_preamble := preamble; fr_pos := 0; fr_segment := payload |}.
Definition OutgoingFrame_new (preamble : Preamble) : exec OutgoingFrame :=
  assert (is_sentinel (payload_length preamble));;
  OutgoingFrame_new_with_payload preamble [].
Definition OutgoingFrame_header (self : OutgoingFrame) : Header := Preamble_header (fr_preamble self).
Definition segment (self : OutgoingFrame) : bytes := fr_segment self.

(** [Buf for OutgoingFrame], through the cursor and the chain: the preamble's bytes from the
    position on, then the segment. *)
Definition OutgoingFrame_remaining (self : OutgoingFrame) : exec Z :=
  p ← Preamble_as_ref (fr_preamble self);
  uadd usize_max (len (drop (Z.to_nat (fr_pos self)) p)) (len (fr_segment self)).
Definition OutgoingFrame_chunk (self : OutgoingFrame) : exec bytes :=
  p ← Preamble_as_ref (fr_preamble self);
  mret (match drop (Z.to_nat (fr_pos self)) p with
        | [] => fr_segment self
        | first => first
        end).
Definition OutgoingFrame_advance (self : OutgoingFrame) (cnt : Z) : exec OutgoingFrame :=
  p ← Preamble_as_ref (fr_preamble self);
  let a_rem := len (drop (Z.to_nat (fr_pos self)) p) in
  if cnt <=? a_rem then
    mret {| fr_preamble := fr_preamble self; fr_pos := fr_pos self + cnt;
            fr_segment := fr_segment self |}
  else
    s ← advance (fr_segment self) (cnt - a_rem);
    mret {| fr_preamble := fr_preamble self; fr_pos := fr_pos self + a_rem; fr_segment := s |}.
#[export] Instance OutgoingFrame_buf : Buf OutgoingFrame := {
  buf_remaining := OutgoingFrame_remaining;
  buf_chunk := OutgoingFrame_chunk;
  buf_advance := OutgoingFrame_advance;
}.

(** ** The frame iterator *)

Record FrameIter := mkFrameIter {
  fi_msg : OutgoingMessage;
  bytes_processed : Z;
}.

Definition frames (self : OutgoingMessage) : FrameIter :=
  {| fi_msg := self; bytes_processed := 0 |}.

Definition next_owned (self : FrameIter) (max_frame_size : MaxFrameSize)
    : exec (OutgoingFrame * option FrameIter) :=
  match om_payload (fi_msg self) with
  | Some payload =>
      payload_remaining ← usub (len payload) (bytes_processed self);
      length_prefix ← (if bytes_processed self =? 0
                       then Varint32_encode (as_u32 payload_remaining) else mret SENTINEL);
      let preamble := Preamble_new (om_header (fi_msg self)) length_prefix in
      frame_capacity ← usub (get_usize max_frame_size) (Preamble_len preamble);
      let frame_payload_len := Z.min frame_capacity payload_remaining in
      let processed := bytes_processed self + frame_payload_len in
      frame_payload ← slice payload (bytes_processed self) processed;
      payload_remaining ← usub (len payload) processed;
      frame ← OutgoingFrame_new_with_payload preamble frame_payload;
      mret (frame,
            if 0 <? payload_remaining
            then Some {| fi_msg := fi_msg self; bytes_processed := processed |} else None)
  | None =>
      frame ← OutgoingFrame_new (Preamble_new (om_header (fi_msg self)) SENTINEL);
      mret (frame, None)
  end.
Definition FrameIter_header (self : FrameIter) : Header := OutgoingMessage_header (fi_msg self).

(** What iterating [frame_iter] to its end collects. *)
Fixpoint frame_iter_from (fuel : nat) (frames : option FrameIter) (max_frame_size : MaxFrameSize)
    : exec (list OutgoingFrame) :=
  match frames with
  | None => mret []
  | Some iter =>
      match fuel with
      | O => OutOfFuel
      | S fuel =>
          '(frame, more) ← next_owned iter max_frame_size;
          rest ← frame_iter_from fuel more max_frame_size;
          mret (frame :: rest)
      end
  end.
(** Every frame but the last carries at least one byte of payload. *)
Definition frame_iter (self : OutgoingMessage) (max_frame_size : MaxFrameSize)
    : exec (list OutgoingFrame) :=
  frame_iter_from (S (length (default [] (om_payload self)))) (Some (frames self)) max_frame_size.

(** ** The byte iterator *)

Record ByteIter := mkByteIter {
  bi_msg : OutgoingMessage;
  length_prefix : Varint32;
  consumed : Z;
  bi_max_frame_size : MaxFrameSize;
}.

Definition iter_bytes (self : OutgoingMessage) (max_frame_size : MaxFrameSize) : exec ByteIter :=
  length_prefix ← match om_payload self with
                  | Some pl => Varint32_encode (as_u32 (len pl))
                  | None => mret SENTINEL
                  end;
  mret {| bi_msg := self; length_prefix := length_prefix; consumed := 0;
          bi_max_frame_size := max_frame_size |}.

Definition ByteIter_total (self : ByteIter) : exec Z := total_len (bi_msg self) (bi_max_frame_size self).
Definition ByteIter_remaining (self : ByteIter) : exec Z :=
  t ← ByteIter_total self;
  usub t (consumed self).

Definition ByteIter_chunk (self : ByteIter) : exec bytes :=
  r ← ByteIter_remaining self;
  if r =? 0 then mret []
  else
    let size := get_usize (bi_max_frame_size self) in
    assert (negb (size =? 0));;
    let frames_completed := consumed self / size in
    let frame_progress := consumed self mod size in
    let in_first_frame := frames_completed =? 0 in
    if frame_progress <? Header_SIZE then
      slice_from (Header_as_ref (om_header (bi_msg self))) frame_progress
    else
      assert (negb (is_sentinel (length_prefix self)));;
      let vlen := Varint32_len (length_prefix self) in
      if in_first_frame && (frame_progress <? Header_SIZE + vlen) then
        varint_progress ← usub frame_progress Header_SIZE;
        v ← Varint32_as_ref (length_prefix self);
        slice_from v varint_progress
      else
        space_in_frame ← without_header (bi_max_frame_size self);
        let first_preamble := Header_SIZE + vlen in
        '(frame_payload_start, frame_payload_progress, frame_payload_end) ←
          (if in_first_frame then
             progress ← usub frame_progress first_preamble;
             end_ ← usub size first_preamble;
             mret (0, progress, end_)
           else
             start ← umul frames_completed space_in_frame;
             start ← usub start vlen;
             progress ← usub frame_progress Header_SIZE;
             end_ ← uadd usize_max start space_in_frame;
             mret (start, progress, end_));
        current_frame_chunk ← match om_payload (bi_msg self) with
                              | Some pl => slice pl frame_payload_start (Z.min frame_payload_end (len pl))
                              | None => mret []
                              end;
        slice_from current_frame_chunk frame_payload_progress.

Definition ByteIter_advance (self : ByteIter) (cnt : Z) : exec ByteIter :=
  n ← uadd usize_max (consumed self) cnt;
  t ← ByteIter_total self;
  mret {| bi_msg := bi_msg self; length_prefix := length_prefix self; consumed := Z.min n t;
          bi_max_frame_size := bi_max_frame_size self |}.
#[export] Instance ByteIter_buf : Buf ByteIter := {
  buf_remaining := ByteIter_remaining;
  buf_chunk := ByteIter_chunk;
  buf_advance := ByteIter_advance;
}.

(** [Buf::copy_to_bytes] is a provided method of the trait, code of the [bytes] crate: a
    parameter of what uses it. *)
Section copying.
Context (copy_to_bytes : ∀ B, Buf B → B → Z → exec bytes).

Definition OutgoingMessage_to_bytes (self : OutgoingMessage) (max_frame_size : MaxFrameSize)
    : exec bytes :=
  everything ← iter_bytes self max_frame_size;
  r ← buf_remaining everything;
  copy_to_bytes ByteIter _ everything r.

Definition OutgoingFrame_to_bytes (self : OutgoingFrame) : exec bytes :=
  r ← buf_remaining self;
  copy_to_bytes OutgoingFrame _ self r.
End copying.
