(* ===== verification/WireFormat.v ===== *)
(** * The wire format of a message, and that the frame iterator writes it

    The reference: the length prefix and the payload are cut into pieces of the room a frame
    has behind its header, and every piece is sent behind a copy of the header. *)
From S2P Require Import Prelude Lib Varint Header FrameSize OutgoingMessage.
From stdpp Require Import options.

(** ** Reference definitions *)

Fixpoint segments (n : nat) (space : Z) (body : bytes) : list bytes :=
  match n with
  | O => []
  | S n => take (Z.to_nat space) body :: segments n space (drop (Z.to_nat space) body)
  end.

(** How many pieces of [space] bytes hold [n] bytes. *)
Definition div_up (n space : Z) : Z := (n + space - 1) / space.

Definition message_body (payload : option bytes) : bytes :=
  match payload with
  | Some pl => varint_bytes (len pl) ++ pl
  | None => []
  end.
Definition frame_count (m : MaxFrameSize) (payload : option bytes) : Z :=
  Z.max 1 (div_up (len (message_body payload)) (mfs m - 4)).
Definition message_segments (m : MaxFrameSize) (payload : option bytes) : list bytes :=
  segments (Z.to_nat (frame_count m payload)) (mfs m - 4) (message_body payload).
Definition message_frames (m : MaxFrameSize) (msg : OutgoingMessage) : list bytes :=
  map (app (Header_as_ref (om_header msg))) (message_segments m (om_payload msg)).
Definition wire (m : MaxFrameSize) (msg : OutgoingMessage) : bytes :=
  concat (message_frames m msg).

(** The payload's length fits the length prefix. *)
Definition payload_wf (payload : option bytes) : Prop :=
  match payload with Some pl => u32 (len pl) | None => True end.
#[export] Instance payload_wf_dec payload : Decision (payload_wf payload).
Proof. destruct payload; cbn; apply _. Defined.

(** The bytes a frame not yet written sends. *)
Definition preamble_bytes (p : Preamble) : bytes :=
  take (Z.to_nat (Preamble_len p)) (Header_as_ref (pre_header p) ++ v32 (payload_length p)).
Definition frame_bytes (f : OutgoingFrame) : bytes :=
  drop (Z.to_nat (fr_pos f)) (preamble_bytes (fr_preamble f)) ++ fr_segment f.

(** The first frame of a message with a payload, and the ones after it. *)
Definition first_frame (m : MaxFrameSize) (h : Header) (pl : bytes) : OutgoingFrame :=
  mkOutgoingFrame (mkPreamble h (Varint32_of (len pl))) 0
    (take (Z.to_nat (mfs m - 4 - len (varint_bytes (len pl)))) pl).
Definition next_frame (h : Header) (s : bytes) : OutgoingFrame :=
  mkOutgoingFrame (mkPreamble h SENTINEL) 0 s.

(** ** Division *)

Lemma div_up_bounds n space : 0 < space →
  (div_up n space - 1) * space < n ≤ div_up n space * space.
Proof.
  intros. unfold div_up. pose proof (Z.div_mod (n + space - 1) space ltac:(lia)).
  pose proof (Z.mod_pos_bound (n + space - 1) space ltac:(lia)). nia.
Qed.
Lemma div_up_unique n space k : 0 < space → (k - 1) * space < n ≤ k * space → div_up n space = k.
Proof. intros Hs Hk. pose proof (div_up_bounds n space Hs). nia. Qed.
Lemma div_up_step n space : 0 < space → div_up n space = 1 + div_up (n - space) space.
Proof.
  intros Hs. apply div_up_unique; [done|]. pose proof (div_up_bounds (n - space) space Hs). nia.
Qed.
Lemma div_up_nonpos n space : 0 < space → - space < n ≤ 0 → div_up n space = 0.
Proof. intros. apply div_up_unique; lia. Qed.
Lemma div_up_pos n space : 0 < space → 0 < n → 0 < div_up n space.
Proof. intros Hs Hn. pose proof (div_up_bounds n space Hs). nia. Qed.

(** ** Segments *)

Lemma segments_concat n space body :
  0 < space → len body ≤ Z.of_nat n * space → concat (segments n space body) = body.
Proof.
  intros Hs. revert body. induction n as [|n IH]; intros body Hb; cbn [segments concat].
  { pose proof (len_nonneg body). symmetry. apply len_zero. lia. }
  rewrite IH; [apply take_drop|]. destruct (decide (space ≤ len body)).
  - rewrite len_drop by lia. lia.
  - rewrite drop_ge by (unfold len in *; lia). rewrite len_nil. nia.
Qed.
Lemma segments_length n space body : length (segments n space body) = n.
Proof. revert body. induction n; intros; cbn; auto. Qed.
Lemma segments_len_le n space body :
  0 < space → Forall (λ s, len s ≤ space) (segments n space body).
Proof.
  intros Hs. revert body. induction n as [|n IH]; intros body; constructor; [|by apply IH].
  unfold len. rewrite length_take. lia.
Qed.
(** Every piece but the last is full, and none is empty unless the body is. *)
Lemma segments_full n space body i s :
  0 < space → (Z.of_nat n - 1) * space < len body →
  segments n space body !! i = Some s → (S i < n)%nat → len s = space.
Proof.
  intros Hs. revert body i. induction n as [|n IH]; intros body i Hb Hi Hlt; [done|].
  destruct i as [|i]; cbn in Hi.
  - simplify_eq. apply len_take. nia.
  - apply IH in Hi; [done| |lia]. rewrite len_drop by nia. lia.
Qed.

(** ** Single frames *)

Lemma preamble_bytes_first h v : preamble_bytes (mkPreamble h (Varint32_of v)) = Header_as_ref h ++ varint_bytes v.
Proof.
  unfold preamble_bytes, Preamble_len. cbn [payload_length pre_header].
  rewrite Varint32_of_len. unfold Varint32_of. cbn [v32].
  rewrite app_assoc. apply take_app_len. by rewrite len_app.
Qed.
Lemma preamble_bytes_next h : preamble_bytes (mkPreamble h SENTINEL) = Header_as_ref h.
Proof. done. Qed.
Lemma frame_bytes_first m h pl :
  frame_bytes (first_frame m h pl)
  = Header_as_ref h ++ varint_bytes (len pl) ++ take (Z.to_nat (mfs m - 4 - len (varint_bytes (len pl)))) pl.
Proof. unfold frame_bytes, first_frame. cbn [fr_pos fr_preamble fr_segment]. by rewrite preamble_bytes_first, drop_0, <- app_assoc. Qed.
Lemma frame_bytes_next h s : frame_bytes (next_frame h s) = Header_as_ref h ++ s.
Proof. done. Qed.

(** ** [next_owned] *)

Section next_owned.
Context (m : MaxFrameSize) (Hm : MaxFrameSize_wf m).
Context (h : Header) (pl : bytes) (Hpl : u32 (len pl)).
Let msg := OutgoingMessage_new h (Some pl).

Lemma next_owned_first :
  let cap := mfs m - 4 - len (varint_bytes (len pl)) in
  next_owned {| fi_msg := msg; bytes_processed := 0 |} m =
    Done (first_frame m h pl,
          if cap <? len pl then Some {| fi_msg := msg; bytes_processed := cap |} else None).
Proof using Hm Hpl.
  intros cap. apply MaxFrameSize_wf_bounds in Hm. pose proof (varint_bytes_len (len pl)).
  unfold next_owned, msg, OutgoingMessage_new. cbn [om_payload fi_msg bytes_processed om_header].
  pose proof (len_nonneg pl). rewrite usub_Done, Z.sub_0_r by lia. cbn [Z.eqb].
  rewrite bind_Done, as_u32_small, Varint32_encode_u32 by done. rewrite bind_Done.
  unfold Preamble_len, Preamble_new, get_usize, Header_SIZE. cbn [payload_length].
  rewrite Varint32_of_len, usub_Done by lia. rewrite bind_Done.
  replace (mfs m - (4 + len (varint_bytes (len pl)))) with cap by lia.
  rewrite Z.add_0_l, slice_Done by lia. rewrite bind_Done, usub_Done by lia. rewrite bind_Done.
  rewrite Z.sub_0_r. change (drop (Z.to_nat 0) pl) with pl.
  assert (take (Z.to_nat (Z.min cap (len pl))) pl = take (Z.to_nat cap) pl) as ->.
  { destruct (Z.min_spec cap (len pl)) as [[? ->]|[? ->]]; [done|]. rewrite !take_ge_len by lia. done. }
  unfold OutgoingFrame_new_with_payload.
  rewrite assert_true by (apply Z.leb_le; unfold len in *; rewrite length_take; ulia).
  rewrite !bind_Done. unfold first_frame, mret, exec_ret. do 2 f_equal.
  destruct (Z.ltb_spec cap (len pl)).
  - rewrite Z.min_l by lia. by rewrite (proj2 (Z.ltb_lt _ _)) by lia.
  - rewrite Z.min_r by lia. by rewrite (proj2 (Z.ltb_ge _ _)) by lia.
Qed.

Lemma next_owned_next b : 0 < b ≤ len pl →
  next_owned {| fi_msg := msg; bytes_processed := b |} m =
    Done (next_frame h (take (Z.to_nat (mfs m - 4)) (drop (Z.to_nat b) pl)),
          if b + (mfs m - 4) <? len pl
          then Some {| fi_msg := msg; bytes_processed := b + (mfs m - 4) |} else None).
Proof using Hm Hpl.
  intros Hb. apply MaxFrameSize_wf_bounds in Hm.
  unfold next_owned, msg, OutgoingMessage_new. cbn [om_payload fi_msg bytes_processed om_header].
  rewrite usub_Done by lia. rewrite bind_Done, (proj2 (Z.eqb_neq b 0)) by lia.
  change (mret SENTINEL ≫= ?f) with (f SENTINEL). cbn beta zeta.
  change (Preamble_len (Preamble_new h SENTINEL)) with 4. unfold get_usize.
  rewrite usub_Done by lia. rewrite bind_Done.
  rewrite slice_Done by lia. rewrite bind_Done, usub_Done by lia. rewrite bind_Done.
  set (n := Z.min (mfs m - 4) (len pl - b)). replace (b + n - b) with n by lia.
  assert (take (Z.to_nat n) (drop (Z.to_nat b) pl)
          = take (Z.to_nat (mfs m - 4)) (drop (Z.to_nat b) pl)) as ->.
  { subst n. destruct (Z.min_spec (mfs m - 4) (len pl - b)) as [[? ->]|[? ->]]; [done|].
    rewrite !take_ge_len by (rewrite len_drop by lia; lia). done. }
  unfold OutgoingFrame_new_with_payload.
  rewrite assert_true by (apply Z.leb_le; unfold len in *; rewrite length_take, length_drop; ulia).
  rewrite !bind_Done. unfold next_frame, mret, exec_ret. do 2 f_equal. subst n.
  destruct (Z.ltb_spec (b + (mfs m - 4)) (len pl)).
  - rewrite Z.min_l by lia. by rewrite (proj2 (Z.ltb_lt _ _)) by lia.
  - rewrite Z.min_r by lia. by rewrite (proj2 (Z.ltb_ge _ _)) by lia.
Qed.

(** Iterating from the second frame on. *)
Lemma frame_iter_from_next n fuel b :
  (n ≤ fuel)%nat → 0 < b → (Z.of_nat n - 1) * (mfs m - 4) < len pl - b ≤ Z.of_nat n * (mfs m - 4) →
  frame_iter_from fuel
    (if b <? len pl then Some {| fi_msg := msg; bytes_processed := b |} else None) m
  = Done (map (next_frame h) (segments n (mfs m - 4) (drop (Z.to_nat b) pl))).
Proof using Hm Hpl.
  pose proof (MaxFrameSize_wf_bounds _ Hm) as Hm'.
  revert fuel b. induction n as [|n IH]; intros fuel b Hfuel Hb Hn.
  { rewrite (proj2 (Z.ltb_ge b (len pl))) by lia. by destruct fuel. }
  assert (b < len pl) by nia. rewrite (proj2 (Z.ltb_lt b (len pl))) by done.
  destruct fuel as [|fuel]; [lia|]. cbn [frame_iter_from segments map].
  rewrite next_owned_next by lia. rewrite bind_Done.
  rewrite IH by nia. rewrite bind_Done. rewrite drop_drop_Z by lia. done.
Qed.
End next_owned.

(** ** The whole iteration *)

Definition expected_frames (m : MaxFrameSize) (msg : OutgoingMessage) : list OutgoingFrame :=
  match om_payload msg with
  | Some pl =>
      let cap := mfs m - 4 - len (varint_bytes (len pl)) in
      first_frame m (om_header msg) pl ::
      map (next_frame (om_header msg))
        (segments (Z.to_nat (frame_count m (Some pl) - 1)) (mfs m - 4) (drop (Z.to_nat cap) pl))
  | None => [next_frame (om_header msg) []]
  end.

Lemma frame_count_pos m payload : 1 ≤ frame_count m payload.
Proof. unfold frame_count. lia. Qed.

Lemma frame_count_bounds m pl : MaxFrameSize_wf m →
  let n := frame_count m (Some pl) in
  (n - 1) * (mfs m - 4) < len (varint_bytes (len pl)) + len pl ≤ n * (mfs m - 4).
Proof.
  intros Hm n. apply MaxFrameSize_wf_bounds in Hm. subst n. unfold frame_count, message_body.
  rewrite len_app. pose proof (varint_bytes_len (len pl)). pose proof (len_nonneg pl).
  pose proof (div_up_pos (len (varint_bytes (len pl)) + len pl) (mfs m - 4) ltac:(lia) ltac:(lia)).
  rewrite Z.max_r by lia. apply div_up_bounds. lia.
Qed.

Lemma frame_iter_expected m msg :
  MaxFrameSize_wf m → payload_wf (om_payload msg) → frame_iter msg m = Done (expected_frames m msg).
Proof.
  destruct msg as [h [pl|]]; intros Hm Hpl; [|done].
  cbn [om_payload payload_wf] in Hpl.
  unfold frame_iter, expected_frames. cbn [om_payload om_header default frame_iter_from frames].
  pose proof (next_owned_first m Hm h pl Hpl) as Hnext. unfold OutgoingMessage_new in Hnext.
  unfold frames. cbn [id from_option]. rewrite Hnext. rewrite bind_Done. clear Hnext.
  pose proof (frame_count_bounds m pl Hm) as Hn. cbv zeta in Hn.
  pose proof (frame_count_pos m (Some pl)).
  pose proof (MaxFrameSize_wf_bounds m Hm). pose proof (varint_bytes_len (len pl)).
  pose proof (len_nonneg pl).
  set (cap := mfs m - 4 - len (varint_bytes (len pl))) in *.
  set (n := frame_count m (Some pl)) in *.
  pose proof (frame_iter_from_next m Hm h pl Hpl (Z.to_nat (n - 1)) (length pl) cap) as Hrest.
  unfold OutgoingMessage_new in Hrest. rewrite Hrest; [done| | |].
  - unfold len in *. destruct (decide (n = 1)); [lia|]. nia.
  - lia.
  - rewrite Z2Nat.id by lia. nia.
Qed.

(** Cutting behind the first piece. *)
Lemma message_segments_Some m pl : MaxFrameSize_wf m →
  let cap := mfs m - 4 - len (varint_bytes (len pl)) in
  message_segments m (Some pl)
  = (varint_bytes (len pl) ++ take (Z.to_nat cap) pl)
    :: segments (Z.to_nat (frame_count m (Some pl) - 1)) (mfs m - 4) (drop (Z.to_nat cap) pl).
Proof.
  intros Hm cap. unfold message_segments. pose proof (frame_count_pos m (Some pl)).
  pose proof (MaxFrameSize_wf_bounds m Hm). pose proof (varint_bytes_len (len pl)).
  replace (Z.to_nat (frame_count m (Some pl))) with (S (Z.to_nat (frame_count m (Some pl) - 1))) by lia.
  cbn [segments message_body]. f_equal; [|f_equal].
  - rewrite take_app, take_ge by (unfold len in *; lia). f_equal. f_equal. unfold len in *. lia.
  - rewrite drop_app, drop_ge by (unfold len in *; lia). cbn [app]. f_equal. unfold len in *. lia.
Qed.

Lemma expected_frames_bytes m msg : MaxFrameSize_wf m →
  map frame_bytes (expected_frames m msg) = message_frames m msg.
Proof.
  destruct msg as [h [pl|]]; intros Hm; unfold message_frames; cbn [om_payload om_header].
  - rewrite message_segments_Some by done. unfold expected_frames. cbn [om_payload om_header map].
    f_equal; [by rewrite frame_bytes_first, app_assoc|].
    rewrite map_map. by apply map_ext.
  - unfold message_segments, expected_frames, frame_count. cbn [om_payload message_body].
    pose proof (MaxFrameSize_wf_bounds m Hm).
    simpl_len; rewrite div_up_nonpos, Z.max_l by lia. change (Z.to_nat 1) with 1%nat.
    cbn [segments map]. by rewrite take_nil.
Qed.

Lemma expected_frames_length m msg : MaxFrameSize_wf m →
  len (expected_frames m msg) = frame_count m (om_payload msg).
Proof.
  intros Hm. unfold len.
  rewrite <- (length_map frame_bytes), expected_frames_bytes by done.
  unfold message_frames, message_segments. rewrite length_map, segments_length.
  pose proof (frame_count_pos m (om_payload msg)). lia.
Qed.

Lemma expected_frames_payload m msg : MaxFrameSize_wf m →
  concat (map fr_segment (expected_frames m msg)) = default [] (om_payload msg).
Proof.
  destruct msg as [h [pl|]]; intros Hm; [|done]. unfold expected_frames.
  cbn [om_payload om_header map concat default first_frame fr_segment]. rewrite map_map.
  rewrite (map_ext _ id) by done. rewrite map_id.
  pose proof (frame_count_bounds m pl Hm) as Hn. cbv zeta in Hn.
  pose proof (MaxFrameSize_wf_bounds m Hm). pose proof (varint_bytes_len (len pl)).
  pose proof (frame_count_pos m (Some pl)).
  rewrite segments_concat; [apply take_drop|lia|].
  rewrite Z2Nat.id by lia. set (cap := mfs m - 4 - len (varint_bytes (len pl))) in *.
  destruct (decide (cap ≤ len pl)); [rewrite len_drop by lia; nia|].
  rewrite drop_ge by (unfold len in *; lia). rewrite len_nil. nia.
Qed.

Lemma expected_frames_header m msg : Forall (λ f, OutgoingFrame_header f = om_header msg) (expected_frames m msg).
Proof.
  destruct msg as [h [pl|]]; unfold expected_frames; cbn [om_payload om_header]; [|by repeat constructor].
  constructor; [done|]. apply Forall_map. by apply Forall_true.
Qed.

Lemma message_frames_size m msg : MaxFrameSize_wf m → payload_wf (om_payload msg) →
  Forall (λ b, len b ≤ mfs m) (message_frames m msg).
Proof.
  intros Hm _. unfold message_frames. apply Forall_map.
  pose proof (MaxFrameSize_wf_bounds m Hm).
  eapply Forall_impl; [apply segments_len_le; lia|]. intros s Hs. cbn beta in *.
  rewrite len_app, Header_as_ref_len. unfold Header_SIZE. lia.
Qed.

(** ** Counting frames *)

Lemma non_header_len_Done payload h : payload_wf payload →
  non_header_len (OutgoingMessage_new h payload) = Done (len (message_body payload)).
Proof.
  unfold non_header_len. destruct payload as [pl|]; cbn [om_payload OutgoingMessage_new message_body]; [|done].
  intros Hpl. cbn in Hpl. rewrite as_u32_small, Varint32_length_of_spec by done.
  pose proof (varint_bytes_len (len pl)). rewrite uadd_Done by ulia. by rewrite len_app.
Qed.
Lemma message_body_len payload : payload_wf payload → 0 ≤ len (message_body payload) ≤ u32_max + 5.
Proof.
  destruct payload as [pl|]; cbn [message_body]; [|simpl_len; ulia].
  intros Hpl. cbn in Hpl. rewrite len_app. pose proof (varint_bytes_len (len pl)). ulia.
Qed.
Lemma num_frames_Done m h payload : MaxFrameSize_wf m → payload_wf payload →
  num_frames (OutgoingMessage_new h payload) m = Done (frame_count m payload).
Proof.
  intros Hm Hp. unfold num_frames. pose proof (MaxFrameSize_wf_bounds m Hm).
  pose proof (message_body_len payload Hp).
  rewrite without_header_Done, bind_Done, non_header_len_Done, bind_Done by done.
  rewrite uadd_Done by ulia. rewrite bind_Done, usub_Done by lia. rewrite bind_Done.
  rewrite assert_true by (apply negb_true_iff, Z.eqb_neq; lia). rewrite bind_Done.
  unfold mret, exec_ret, frame_count. f_equal. fold (div_up (len (message_body payload)) (mfs m - 4)).
  set (b := len (message_body payload)) in *.
  assert (0 ≤ div_up b (mfs m - 4)) by (apply Z.div_pos; lia).
  destruct (Z.eqb_spec (div_up b (mfs m - 4)) 0); lia.
Qed.
Lemma is_multi_frame_Done m h payload : MaxFrameSize_wf m → payload_wf payload →
  is_multi_frame (OutgoingMessage_new h payload) m = Done (1 <? frame_count m payload).
Proof.
  intros Hm Hp. unfold is_multi_frame. destruct payload as [pl|]; cbn [om_payload OutgoingMessage_new].
  - cbn in Hp. rewrite payload_is_multi_frame_Done by done. f_equal.
    pose proof (frame_count_bounds m pl Hm) as Hn. cbv zeta in Hn.
    pose proof (MaxFrameSize_wf_bounds m Hm). pose proof (frame_count_pos m (Some pl)).
    apply eq_bool_prop_intro. rewrite !Is_true_true, !Z.ltb_lt. nia.
  - unfold frame_count. cbn [message_body]. pose proof (MaxFrameSize_wf_bounds m Hm).
    simpl_len; by rewrite div_up_nonpos, Z.max_l by lia.
Qed.

(** ** Properties of the frame iterator *)

(** C22: iterating over the frames of any message terminates without panicking; there are as
    many frames as [num_frames] announces, more than one exactly if [is_multi_frame] says so;
    their segments are the payload in order; every frame carries the message's header and
    respects the maximum frame size; and the bytes they send are the reference wire format. *)
Theorem frame_iter_correct m h payload : MaxFrameSize_wf m → payload_wf payload →
  let msg := OutgoingMessage_new h payload in
  ∃ fs, frame_iter msg m = Done fs ∧
    num_frames msg m = Done (len fs) ∧ is_multi_frame msg m = Done (1 <? len fs) ∧
    concat (map segment fs) = default [] payload ∧
    Forall (λ f, OutgoingFrame_header f = h ∧ len (frame_bytes f) ≤ mfs m) fs ∧
    map frame_bytes fs = message_frames m msg.
Proof.
  intros Hm Hp msg. subst msg. exists (expected_frames m (OutgoingMessage_new h payload)).
  rewrite expected_frames_length, num_frames_Done, is_multi_frame_Done by done.
  split_and!; try done.
  - by apply frame_iter_expected.
  - by apply expected_frames_payload.
  - apply Forall_and; split; [apply (expected_frames_header m (OutgoingMessage_new h payload))|].
    apply (Forall_map frame_bytes (λ b, len b ≤ mfs m)).
    rewrite expected_frames_bytes by done. by apply message_frames_size.
  - by apply expected_frames_bytes.
Qed.
Lemma frame_iter_correct_witness :
  MaxFrameSize_wf (mkMaxFrameSize 16) ∧ payload_wf (Some (replicate 30 7)) ∧
  let msg := OutgoingMessage_new (mkHeader 2 0 1 0) (Some (replicate 30 7)) in
  ∃ fs, frame_iter msg (mkMaxFrameSize 16) = Done fs ∧
    num_frames msg (mkMaxFrameSize 16) = Done (len fs) ∧
    is_multi_frame msg (mkMaxFrameSize 16) = Done (1 <? len fs) ∧
    concat (map segment fs) = default [] (Some (replicate 30 7)) ∧
    Forall (λ f, OutgoingFrame_header f = mkHeader 2 0 1 0 ∧ len (frame_bytes f) ≤ mfs (mkMaxFrameSize 16)) fs ∧
    map frame_bytes fs = message_frames (mkMaxFrameSize 16) msg.
Proof.
  assert (MaxFrameSize_wf (mkMaxFrameSize 16)) as Hm by (split; vm_compute; discriminate).
  assert (payload_wf (Some (replicate 30 7))) as Hp by (split; vm_compute; discriminate).
  split; [exact Hm|]. split; [exact Hp|].
  exact (frame_iter_correct (mkMaxFrameSize 16) (mkHeader 2 0 1 0) (Some (replicate 30 7)) Hm Hp).
Defined.

Lemma Varint32_length_of_mono a b : a ≤ b → Varint32_length_of a ≤ Varint32_length_of b.
Proof.
  intros. unfold Varint32_length_of.
  repeat match goal with |- context [?x <? ?y] => destruct (Z.ltb_spec x y) end; lia.
Qed.

Lemma next_owned_single m h payload :
  MaxFrameSize_wf m → payload_wf payload → frame_count m payload = 1 →
  ∃ f, next_owned (frames (OutgoingMessage_new h payload)) m = Done (f, None) ∧
       OutgoingFrame_header f = h ∧ fr_segment f = default [] payload ∧
       frame_bytes f = Header_as_ref h ++ message_body payload.
Proof.
  intros Hm Hp Hone. destruct payload as [pl|].
  - cbn in Hp. eexists. unfold frames. rewrite next_owned_first by done.
    pose proof (frame_count_bounds m pl Hm) as Hn. cbv zeta in Hn. rewrite Hone in Hn.
    rewrite (proj2 (Z.ltb_ge _ _)) by lia. split_and!; [done..| |].
    + cbn [fr_segment first_frame default from_option id]. apply take_ge_len. lia.
    + rewrite frame_bytes_first. cbn [message_body]. rewrite take_ge_len by lia. done.
  - eexists. split; [done|]. split_and!; try done.
Qed.

(** A payload cut to what fits into a single frame behind the header and its own length: the length
    before the cut, so that a byte of room may be left if the length gets shorter by the cut. *)
Definition single_frame_room (m : MaxFrameSize) (pl : bytes) : Z := mfs m - 4 - len (varint_bytes (len pl)).
Definition cut_payload (m : MaxFrameSize) (payload : option bytes) : option bytes :=
  (λ pl, take (Z.to_nat (single_frame_room m pl)) pl) <$> payload.
Lemma cut_payload_fits m payload : MaxFrameSize_wf m → payload_wf payload →
  payload_wf (cut_payload m payload) ∧ frame_count m (cut_payload m payload) = 1 ∧
  (frame_count m payload = 1 → cut_payload m payload = payload).
Proof.
  intros Hm Hp. destruct payload as [pl|]; [|split; [done|split; [|done]]].
  2: { unfold frame_count. cbn [cut_payload fmap option_fmap option_map message_body]. change (len (@nil Z)) with 0.
       pose proof (MaxFrameSize_wf_bounds m Hm). by rewrite div_up_nonpos by lia. }
  unfold cut_payload. cbn [fmap option_fmap option_map]. set (n := single_frame_room m pl).
  pose proof (MaxFrameSize_wf_bounds m Hm). pose proof (varint_bytes_len (len pl)). cbn in Hp. pose proof (len_nonneg pl).
  pose proof (frame_count_bounds m pl Hm) as Hn. cbv zeta in Hn. pose proof (frame_count_pos m (Some pl)).
  assert (frame_count m (Some pl) = 1 → take (Z.to_nat n) pl = pl) as Hall.
  { intros Hone. rewrite Hone in Hn. apply take_ge_len. unfold n, single_frame_room. lia. }
  destruct (decide (frame_count m (Some pl) = 1)) as [Hone|Hmany]; [by rewrite Hall|].
  assert (0 < n < len pl) as Hlt by (unfold n, single_frame_room; nia).
  assert (len (take (Z.to_nat n) pl) = n) as Hlen by (apply len_take; lia).
  split; [cbn; ulia|]. split; [|by intros].
  pose proof (frame_count_bounds m (take (Z.to_nat n) pl) Hm) as Hn'. cbv zeta in Hn'.
  pose proof (frame_count_pos m (Some (take (Z.to_nat n) pl))).
  assert (len (varint_bytes (len (take (Z.to_nat n) pl))) ≤ len (varint_bytes (len pl))) as Hmono.
  { rewrite <- !Varint32_length_of_spec by (done || (rewrite Hlen; ulia)). apply Varint32_length_of_mono. lia. }
  unfold n, single_frame_room in *. nia.
Qed.

(** [truncate_to_single_frame] never panics, leaves a message that fits alone and cuts the
    payload of any other to what fits, and the result is always sent as a single frame with
    nothing remaining. *)
Lemma truncate_single_frame m h payload : MaxFrameSize_wf m → payload_wf payload →
  truncate_to_single_frame (OutgoingMessage_new h payload) m = Done (OutgoingMessage_new h (cut_payload m payload)) ∧
  is_multi_frame (OutgoingMessage_new h (cut_payload m payload)) m = Done false ∧
  (is_multi_frame (OutgoingMessage_new h payload) m = Done false → cut_payload m payload = payload) ∧
  ∃ f, next_owned (frames (OutgoingMessage_new h (cut_payload m payload))) m = Done (f, None) ∧
    OutgoingFrame_header f = h ∧ frame_bytes f = Header_as_ref h ++ message_body (cut_payload m payload).
Proof.
  intros Hm Hp. destruct (cut_payload_fits m payload Hm Hp) as (Hp' & Hone & Hsame).
  pose proof (frame_count_pos m payload). rewrite !is_multi_frame_Done, Hone by done. split; [|split; [done|split]].
  - unfold truncate_to_single_frame. rewrite is_multi_frame_Done, bind_Done by done.
    destruct (Z.ltb_spec 1 (frame_count m payload)); [|by rewrite Hsame by lia].
    destruct payload as [pl|]; [|done]. cbn [om_payload OutgoingMessage_new om_header]. cbn in Hp.
    by rewrite as_u32_small, without_preamble_Done, bind_Done by done.
  - intros [= Hf%Z.ltb_ge]. apply Hsame. lia.
  - destruct (next_owned_single m h _ Hm Hp' Hone) as (f & Hf & Hh & _ & Hb). by exists f.
Qed.
