(* ===== verification/ByteIter.v ===== *)
(** * The byte iterator and the frame's [Buf] implementation write the wire format

    [ByteIter] and [OutgoingFrame] implement [bytes::Buf]; here they are shown to obey the
    trait's laws, with the wire format (all frames, one frame) as their contents. *)
From S2P Require Import Prelude Lib Varint Header FrameSize OutgoingMessage WireFormat.
From stdpp Require Import options.

(** ** Lengths and suffixes of the wire format *)

Lemma segments_wire_len h n space body :
  len (concat (map (app (Header_as_ref h)) (segments n space body)))
  = Z.of_nat n * 4 + len (concat (segments n space body)).
Proof.
  revert body. induction n as [|n IH]; intros body; [done|].
  cbn [segments map concat]. rewrite !len_app, IH, Header_as_ref_len.
  unfold Header_SIZE. lia.
Qed.

(** Skipping [k] full frames. *)
Lemma drop_segments_wire h k n space body r :
  0 < space → (k < n)%nat → Z.of_nat k * space ≤ len body → 0 ≤ r →
  drop (Z.to_nat (Z.of_nat k * (space + 4) + r))
       (concat (map (app (Header_as_ref h)) (segments n space body)))
  = drop (Z.to_nat r)
      (concat (map (app (Header_as_ref h))
                 (segments (n - k) space (drop (Z.to_nat (Z.of_nat k * space)) body)))).
Proof.
  intros Hs. revert n body. induction k as [|k IH]; intros n body Hk Hb Hr.
  { rewrite Z.mul_0_l, Z.mul_0_l, Z.add_0_l, Nat.sub_0_r. done. }
  destruct n as [|n]; [lia|]. cbn [segments map concat Nat.sub].
  replace (Z.to_nat (Z.of_nat (S k) * (space + 4) + r))
    with (Z.to_nat (space + 4) + Z.to_nat (Z.of_nat k * (space + 4) + r))%nat by lia.
  rewrite <- drop_drop, drop_app_len.
  - rewrite IH by (rewrite ?len_drop by nia; nia). rewrite drop_drop_Z by lia.
    do 6 f_equal. lia.
  - rewrite len_app, Header_as_ref_len, len_take by nia. unfold Header_SIZE. lia.
Qed.

Lemma message_body_bounds m payload : MaxFrameSize_wf m →
  (frame_count m payload - 1) * (mfs m - 4) ≤ len (message_body payload)
    ≤ frame_count m payload * (mfs m - 4) ∧
  (0 < len (message_body payload) →
     (frame_count m payload - 1) * (mfs m - 4) < len (message_body payload)).
Proof.
  intros Hm. pose proof (MaxFrameSize_wf_bounds m Hm). destruct payload as [pl|].
  - pose proof (frame_count_bounds m pl Hm) as Hn. cbv zeta in Hn.
    cbn [message_body]. rewrite len_app. lia.
  - unfold frame_count. cbn [message_body]. simpl_len. rewrite div_up_nonpos by lia. lia.
Qed.

Lemma wire_len m h payload : MaxFrameSize_wf m →
  len (wire m (OutgoingMessage_new h payload))
  = frame_count m payload * 4 + len (message_body payload).
Proof.
  intros Hm. pose proof (MaxFrameSize_wf_bounds m Hm). pose proof (frame_count_pos m payload).
  pose proof (message_body_bounds m payload Hm) as [? _].
  unfold wire, message_frames, message_segments. cbn [om_header om_payload OutgoingMessage_new].
  rewrite segments_wire_len, segments_concat by lia. lia.
Qed.

Lemma total_len_Done m h payload : MaxFrameSize_wf m → payload_wf payload →
  let msg := OutgoingMessage_new h payload in total_len msg m = Done (len (wire m msg)).
Proof.
  intros Hm Hp msg. pose proof (MaxFrameSize_wf_bounds m Hm).
  pose proof (message_body_len payload Hp).
  pose proof (message_body_bounds m payload Hm) as [Hb _].
  pose proof (frame_count_pos m payload) as Hpos.
  assert (frame_count m payload ≤ u32_max + 6) by nia.
  unfold total_len, msg. rewrite num_frames_Done, bind_Done by done.
  unfold umul, Header_SIZE. rewrite decide_True by ulia.
  rewrite bind_Done, non_header_len_Done, bind_Done by done.
  rewrite uadd_Done by ulia. by rewrite wire_len.
Qed.

(** ** [ByteIter] *)

Definition ByteIter_wf (b : ByteIter) : Prop :=
  MaxFrameSize_wf (bi_max_frame_size b) ∧ payload_wf (om_payload (bi_msg b)) ∧
  length_prefix b = match om_payload (bi_msg b) with
                    | Some pl => Varint32_of (len pl) | None => SENTINEL end ∧
  0 ≤ consumed b ≤ len (wire (bi_max_frame_size b) (bi_msg b)).
(** What is still to be handed out: the rest of the message's wire format. *)
Definition ByteIter_contents (b : ByteIter) : bytes :=
  drop (Z.to_nat (consumed b)) (wire (bi_max_frame_size b) (bi_msg b)).

Lemma OutgoingMessage_eta msg : OutgoingMessage_new (om_header msg) (om_payload msg) = msg.
Proof. by destruct msg. Qed.

Lemma ByteIter_total_Done b : ByteIter_wf b →
  ByteIter_total b = Done (len (wire (bi_max_frame_size b) (bi_msg b))).
Proof.
  intros (Hm & Hp & _). unfold ByteIter_total. rewrite <- (OutgoingMessage_eta (bi_msg b)).
  by apply total_len_Done.
Qed.
Lemma ByteIter_remaining_Done b : ByteIter_wf b →
  ByteIter_remaining b = Done (len (ByteIter_contents b)).
Proof.
  intros Hwf. unfold ByteIter_remaining. rewrite ByteIter_total_Done by done.
  destruct Hwf as (_ & _ & _ & Hc1 & Hc2). rewrite bind_Done, usub_Done by done.
  unfold ByteIter_contents. by rewrite len_drop by lia.
Qed.

Lemma prefix_of_drop_lt (piece rest : bytes) r :
  0 ≤ r < len piece →
  drop (Z.to_nat r) piece `prefix_of` drop (Z.to_nat r) (piece ++ rest) ∧
  drop (Z.to_nat r) piece ≠ [].
Proof.
  intros Hr. split.
  - rewrite drop_app_lt by lia. by apply prefix_app_r.
  - intros Hnil%(f_equal len). rewrite len_drop in Hnil by lia. change (len (@nil Z)) with 0 in Hnil. lia.
Qed.

(** Byte [r] of frame [k], counted from the start of the message. *)
Lemma frame_position m h payload p : MaxFrameSize_wf m →
  0 ≤ p < len (wire m (OutgoingMessage_new h payload)) →
  let space := mfs m - 4 in
  let k := p / mfs m in let r := p mod mfs m in
  let piece := take (Z.to_nat space) (drop (Z.to_nat (k * space)) (message_body payload)) in
  0 ≤ k ∧ 0 ≤ r < mfs m ∧ r < 4 + len piece ∧ k * space ≤ len (message_body payload) ∧
  (payload = None → k = 0) ∧
  ∃ rest, drop (Z.to_nat p) (wire m (OutgoingMessage_new h payload))
          = drop (Z.to_nat r) (Header_as_ref h ++ piece ++ rest).
Proof.
  intros Hm Hpos space k r piece. pose proof (MaxFrameSize_wf_bounds m Hm) as Hb.
  pose proof (Z.mod_pos_bound p (mfs m) ltac:(lia)) as Hr.
  pose proof (Z.div_mod p (mfs m) ltac:(lia)) as Hdm.
  assert (0 ≤ k) as Hk by (apply Z.div_pos; lia).
  rewrite wire_len in Hpos by done.
  pose proof (message_body_bounds m payload Hm) as [Hbody Hstrict].
  pose proof (frame_count_pos m payload) as Hn.
  set (n := frame_count m payload) in *. fold space in Hbody, Hstrict.
  fold k r in Hr, Hdm. assert (mfs m = space + 4) as Hsz by (subst space; lia).
  assert (k < n) as Hkn by nia.
  assert (k * space ≤ len (message_body payload)) as Hks by nia.
  assert (r < 4 + len piece) as Hrp.
  { subst piece. destruct (decide (space ≤ len (message_body payload) - k * space)).
    - rewrite len_take; [lia|]. rewrite len_drop by nia. lia.
    - rewrite take_ge_len; rewrite len_drop by nia; [|lia].
      destruct (decide (k = n - 1)); nia. }
  split_and!; try done; try lia.
  { intros ->. change (len (message_body None)) with 0 in *. nia. }
  exists (concat (map (app (Header_as_ref h))
           (segments (Z.to_nat n - Z.to_nat k - 1) space
             (drop (Z.to_nat space) (drop (Z.to_nat (k * space)) (message_body payload)))))).
  unfold wire, message_frames, message_segments. cbn [om_header om_payload OutgoingMessage_new].
  fold n space.
  replace p with (Z.of_nat (Z.to_nat k) * (space + 4) + r) by nia.
  rewrite drop_segments_wire by (rewrite ?Z2Nat.id by lia; lia).
  rewrite Z2Nat.id by lia.
  replace (Z.to_nat n - Z.to_nat k)%nat with (S (Z.to_nat n - Z.to_nat k - 1)) by lia.
  cbn [segments map concat]. rewrite <- app_assoc. fold piece. do 6 f_equal. lia.
Qed.

(** The payload bytes of frame [k], as the code slices them. *)
Lemma frame_payload_slice m pl k :
  MaxFrameSize_wf m → 0 ≤ k → k * (mfs m - 4) ≤ len (varint_bytes (len pl)) + len pl →
  let vl := len (varint_bytes (len pl)) in
  let piece := take (Z.to_nat (mfs m - 4)) (drop (Z.to_nat (k * (mfs m - 4))) (message_body (Some pl))) in
  (k ≠ 0 → slice pl (k * (mfs m - 4) - vl) (Z.min (k * (mfs m - 4) - vl + (mfs m - 4)) (len pl)) = Done piece) ∧
  (k = 0 → slice pl 0 (Z.min (mfs m - (4 + vl)) (len pl)) = Done (drop (Z.to_nat vl) piece) ∧
           take (Z.to_nat vl) piece = varint_bytes (len pl)).
Proof.
  intros Hm Hk Hks vl piece. pose proof (MaxFrameSize_wf_bounds m Hm).
  pose proof (varint_bytes_len (len pl)) as Hvl. fold vl in Hvl, Hks. pose proof (len_nonneg pl).
  set (space := mfs m - 4) in *. cbn [message_body] in piece. split.
  - intros Hk0. assert (space ≤ k * space) by nia.
    rewrite slice_Done by lia. f_equal. subst piece.
    assert (drop (Z.to_nat (k * space)) (varint_bytes (len pl) ++ pl)
            = drop (Z.to_nat (k * space - vl)) pl) as ->.
    { rewrite drop_app, drop_ge by (unfold len in *; lia). cbn [app]. f_equal. unfold len in *. lia. }
    destruct (Z.min_spec (k * space - vl + space) (len pl)) as [[? ->]|[? ->]].
    + f_equal. lia.
    + rewrite !take_ge_len by (rewrite len_drop by lia; lia). done.
  - intros ->. subst piece. rewrite Z.mul_0_l. change (Z.to_nat 0) with 0%nat. rewrite drop_0.
    assert (take (Z.to_nat space) (varint_bytes (len pl) ++ pl)
            = varint_bytes (len pl) ++ take (Z.to_nat (space - vl)) pl) as ->.
    { rewrite take_app, take_ge by (unfold len in *; lia). f_equal. f_equal. unfold len in *. lia. }
    rewrite drop_app_len, take_app_len by done. split; [|done].
    rewrite slice_Done by lia. f_equal. rewrite Z.sub_0_r. change (Z.to_nat 0) with 0%nat.
    rewrite drop_0. replace (mfs m - (4 + vl)) with (space - vl) by lia.
    destruct (Z.min_spec (space - vl) (len pl)) as [[? ->]|[? ->]]; [done|].
    rewrite !take_ge_len by lia. done.
Qed.

(** The part of the payload in a frame, from byte [r] of the frame on: in the first frame behind
    the length prefix, and in a later one. *)
Lemma first_payload_chunk m pl r rest : MaxFrameSize_wf m →
  let vl := len (varint_bytes (len pl)) in
  let piece := take (Z.to_nat (mfs m - 4)) (message_body (Some pl)) in
  4 + vl ≤ r < 4 + len piece →
  ∃ ch, (c ← slice pl 0 (Z.min (mfs m - (4 + vl)) (len pl)); slice_from c (r - (4 + vl))) = Done ch ∧
    ch `prefix_of` drop (Z.to_nat (r - 4)) (piece ++ rest) ∧ ch ≠ [].
Proof.
  intros Hm vl piece Hr. pose proof (MaxFrameSize_wf_bounds m Hm) as Hb. pose proof (len_nonneg pl).
  pose proof (varint_bytes_len (len pl)) as Hvl. fold vl in Hvl.
  destruct (frame_payload_slice m pl 0 Hm) as [_ Hfirst]; [lia|fold vl; lia|]. destruct (Hfirst eq_refl) as [Hsl Htake].
  fold vl in Hsl, Htake. rewrite Z.mul_0_l in Hsl, Htake. change (drop (Z.to_nat 0) ?x) with x in Hsl, Htake. fold piece in Hsl, Htake.
  rewrite Hsl, bind_Done. assert (piece = varint_bytes (len pl) ++ drop (Z.to_nat vl) piece) as Hpiece
    by (rewrite <- Htake; by rewrite take_drop).
  assert (len piece = vl + len (drop (Z.to_nat vl) piece)) as Hlp by (rewrite Hpiece at 1; apply len_app).
  rewrite slice_from_Done by lia. destruct (prefix_of_drop_lt piece rest (r - 4)) as [Hpre Hne]; [lia|].
  rewrite drop_drop_Z by lia. replace (vl + (r - (4 + vl))) with (r - 4) by lia. eauto.
Qed.
Lemma later_payload_chunk m pl k r rest : MaxFrameSize_wf m → 0 < k →
  let vl := len (varint_bytes (len pl)) in
  let piece := take (Z.to_nat (mfs m - 4)) (drop (Z.to_nat (k * (mfs m - 4))) (message_body (Some pl))) in
  k * (mfs m - 4) ≤ vl + len pl → 4 ≤ r < 4 + len piece →
  ∃ ch, (c ← slice pl (k * (mfs m - 4) - vl) (Z.min (k * (mfs m - 4) - vl + (mfs m - 4)) (len pl)); slice_from c (r - 4)) = Done ch ∧
    ch `prefix_of` drop (Z.to_nat (r - 4)) (piece ++ rest) ∧ ch ≠ [].
Proof.
  intros Hm Hk vl piece Hks Hr. destruct (frame_payload_slice m pl k Hm) as [Hlater _]; [lia|exact Hks|].
  fold vl piece in Hlater. rewrite Hlater by lia. rewrite bind_Done, slice_from_Done by lia.
  destruct (prefix_of_drop_lt piece rest (r - 4)) as [? ?]; [lia|]. eauto.
Qed.

Lemma ByteIter_chunk_spec b : ByteIter_wf b →
  ∃ ch, ByteIter_chunk b = Done ch ∧ ch `prefix_of` ByteIter_contents b ∧
        (ByteIter_contents b ≠ [] → ch ≠ []).
Proof.
  intros Hwf. unfold ByteIter_chunk. rewrite ByteIter_remaining_Done, bind_Done by done.
  destruct b as [[h payload] lp p m]. destruct Hwf as (Hm & Hp & Hlp & Hc).
  unfold ByteIter_contents in *. cbn [bi_msg length_prefix consumed bi_max_frame_size om_header om_payload] in *.
  change (mkOutgoingMessage h payload) with (OutgoingMessage_new h payload) in *.
  pose proof (MaxFrameSize_wf_bounds m Hm) as Hb.
  destruct (Z.eqb_spec (len (drop (Z.to_nat p) (wire m (OutgoingMessage_new h payload)))) 0) as [Hz|Hnz].
  { apply len_zero in Hz. rewrite Hz. exists []. split_and!; [done|apply prefix_nil|done]. }
  assert (0 ≤ p < len (wire m (OutgoingMessage_new h payload))) as Hpos.
  { rewrite len_drop in Hnz by lia. lia. }
  destruct (frame_position m h payload p Hm Hpos) as (Hk & Hr & Hrp & Hks & Hnone & rest & Hdrop).
  rewrite Hdrop. clear Hnz Hdrop Hpos Hc. unfold get_usize, Header_SIZE.
  revert Hk Hr Hrp Hks Hnone. generalize (p / mfs m) as k, (p mod mfs m) as r.
  intros k r Hk Hr Hrp Hks Hnone.
  set (piece := take (Z.to_nat (mfs m - 4)) (drop (Z.to_nat (k * (mfs m - 4))) (message_body payload))) in *.
  rewrite (assert_true (negb (mfs m =? 0))) by (apply negb_true_iff, Z.eqb_neq; lia). rewrite bind_Done.
  destruct (Z.ltb_spec r 4) as [Hr4|Hr4].
  { rewrite slice_from_Done by (rewrite Header_as_ref_len; unfold Header_SIZE; lia).
    destruct (prefix_of_drop_lt (Header_as_ref h) (piece ++ rest) r) as [? ?];
      [rewrite Header_as_ref_len; unfold Header_SIZE; lia|]. eauto. }
  assert (drop (Z.to_nat r) (Header_as_ref h ++ piece ++ rest) = drop (Z.to_nat (r - 4)) (piece ++ rest)) as ->.
  { replace (Z.to_nat r) with (Z.to_nat 4 + Z.to_nat (r - 4))%nat by lia.
    by rewrite <- drop_drop, (drop_app_len (Header_as_ref h)). }
  destruct payload as [pl|].
  2:{ subst piece. cbn [message_body] in Hrp. rewrite drop_nil, take_nil in Hrp.
      change (len (@nil Z)) with 0 in Hrp. lia. }
  rewrite Hlp, Varint32_of_not_sentinel. cbn [negb assert]. rewrite bind_Done.
  rewrite Varint32_of_len, Varint32_of_as_ref.
  pose proof (varint_bytes_len (len pl)) as Hvl. pose proof (len_nonneg pl).
  assert (k * (mfs m - 4) ≤ len (varint_bytes (len pl)) + len pl) as Hks' by
    (cbn [message_body] in Hks; rewrite len_app in Hks; exact Hks).
  set (vl := len (varint_bytes (len pl))) in *.
  assert (∀ ch, ch `prefix_of` drop (Z.to_nat (r - 4)) (piece ++ rest) ∧ ch ≠ [] →
    ch `prefix_of` drop (Z.to_nat (r - 4)) (piece ++ rest) ∧ (drop (Z.to_nat (r - 4)) (piece ++ rest) ≠ [] → ch ≠ [])) as Hch by tauto.
  destruct (Z.eqb_spec k 0) as [->|Hk0]; cbn [andb].
  - destruct (Z.ltb_spec r (4 + vl)).
    + rewrite usub_Done by lia. rewrite !bind_Done, slice_from_Done by (fold vl; lia).
      eexists. split; [reflexivity|]. apply Hch.
      destruct (frame_payload_slice m pl 0 Hm) as [_ Hfirst]; [lia|exact Hks'|]. destruct (Hfirst eq_refl) as [_ Htake].
      fold vl piece in Htake. rewrite <- (take_drop (Z.to_nat vl) piece), Htake, <- app_assoc.
      apply prefix_of_drop_lt. fold vl. lia.
    + rewrite without_header_Done by done. rewrite !usub_Done by lia. rewrite !bind_Done.
      destruct (first_payload_chunk m pl r rest Hm) as (ch & Hd & Hp2); [fold vl; subst piece; cbn [message_body] in *; done|].
      exists ch. split; [exact Hd|]. apply Hch. exact Hp2.
  - assert (mfs m - 4 ≤ k * (mfs m - 4)) by nia.
    assert (k * (mfs m - 4) + (mfs m - 4) ≤ usize_max).
    { cbn in Hp. assert (k * (mfs m - 4) ≤ u32_max + 5) by ulia. ulia. }
    rewrite without_header_Done, bind_Done by done. unfold umul. rewrite decide_True by lia.
    rewrite bind_Done, !usub_Done, bind_Done, bind_Done, uadd_Done, !bind_Done by lia.
    destruct (later_payload_chunk m pl k r rest Hm) as (ch & Hd & Hp2); [lia|exact Hks'|done|].
    exists ch. split; [exact Hd|]. apply Hch. exact Hp2.
Qed.

Lemma ByteIter_advance_spec b n : ByteIter_wf b → 0 ≤ n ≤ len (ByteIter_contents b) →
  ∃ b', ByteIter_advance b n = Done b' ∧ ByteIter_wf b' ∧
        ByteIter_contents b' = drop (Z.to_nat n) (ByteIter_contents b).
Proof.
  intros Hwf Hn. unfold ByteIter_advance. pose proof (ByteIter_total_Done b Hwf) as Ht.
  destruct Hwf as (Hm & Hp & Hlp & Hc). unfold ByteIter_contents in *.
  rewrite len_drop in Hn by lia.
  assert (len (wire (bi_max_frame_size b) (bi_msg b)) ≤ usize_max).
  { rewrite <- (OutgoingMessage_eta (bi_msg b)), wire_len by done.
    pose proof (message_body_len _ Hp). pose proof (MaxFrameSize_wf_bounds _ Hm).
    pose proof (message_body_bounds _ (om_payload (bi_msg b)) Hm) as [? _].
    pose proof (frame_count_pos (bi_max_frame_size b) (om_payload (bi_msg b))).
    assert (frame_count (bi_max_frame_size b) (om_payload (bi_msg b)) ≤ u32_max + 6) by nia. ulia. }
  rewrite uadd_Done by lia. rewrite bind_Done, Ht, bind_Done, Z.min_l by lia.
  eexists. split; [done|]. unfold ByteIter_wf. cbn [consumed bi_msg bi_max_frame_size length_prefix].
  split; [split_and!; try done; lia|]. rewrite drop_drop_Z by lia. done.
Qed.

#[export] Instance ByteIter_laws : BufLaws ByteIter := {
  buf_wf := ByteIter_wf;
  buf_contents := ByteIter_contents;
  buf_remaining_spec := ByteIter_remaining_Done;
  buf_chunk_spec := ByteIter_chunk_spec;
  buf_advance_spec := ByteIter_advance_spec;
}.

(** ** [OutgoingFrame] *)

Definition Preamble_wf (p : Preamble) : Prop :=
  0 ≤ Varint32_len (payload_length p) ≤ len (v32 (payload_length p)) ∧
  len (v32 (payload_length p)) = 6.
Definition OutgoingFrame_wf (f : OutgoingFrame) : Prop :=
  Preamble_wf (fr_preamble f) ∧ 0 ≤ fr_pos f ≤ Preamble_len (fr_preamble f) ∧
  u32 (len (fr_segment f)).

Lemma Preamble_as_ref_Done p : Preamble_wf p →
  Preamble_as_ref p = Done (preamble_bytes p) ∧ len (preamble_bytes p) = Preamble_len p.
Proof.
  intros [Hl H6]. unfold Preamble_as_ref, preamble_bytes, Preamble_len, Header_SIZE.
  split.
  - rewrite slice_Done by (rewrite ?len_app, ?Header_as_ref_len; unfold Header_SIZE; lia).
    by rewrite drop_0, Z.sub_0_r.
  - apply len_take. rewrite len_app, Header_as_ref_len. unfold Header_SIZE. lia.
Qed.

Lemma OutgoingFrame_remaining_Done f : OutgoingFrame_wf f →
  OutgoingFrame_remaining f = Done (len (frame_bytes f)).
Proof.
  intros (Hp & Hpos & Hs). destruct (Preamble_as_ref_Done _ Hp) as [Href Hlen].
  unfold OutgoingFrame_remaining, frame_bytes. rewrite Href, bind_Done.
  rewrite len_app, len_drop by lia. destruct Hp. unfold Preamble_len, Header_SIZE in *.
  rewrite uadd_Done by ulia. done.
Qed.
Lemma OutgoingFrame_chunk_spec f : OutgoingFrame_wf f →
  ∃ ch, OutgoingFrame_chunk f = Done ch ∧ ch `prefix_of` frame_bytes f ∧
        (frame_bytes f ≠ [] → ch ≠ []).
Proof.
  intros (Hp & Hpos & Hs). destruct (Preamble_as_ref_Done _ Hp) as [Href Hlen].
  unfold OutgoingFrame_chunk, frame_bytes. rewrite Href, bind_Done. eexists. split; [done|].
  destruct (drop (Z.to_nat (fr_pos f)) (preamble_bytes (fr_preamble f))); [done|].
  split; [by apply prefix_app_r|done].
Qed.
Lemma OutgoingFrame_advance_spec f n : OutgoingFrame_wf f → 0 ≤ n ≤ len (frame_bytes f) →
  ∃ f', OutgoingFrame_advance f n = Done f' ∧ OutgoingFrame_wf f' ∧
        frame_bytes f' = drop (Z.to_nat n) (frame_bytes f).
Proof.
  intros (Hp & Hpos & Hs) Hn. destruct (Preamble_as_ref_Done _ Hp) as [Href Hlen].
  unfold OutgoingFrame_advance, frame_bytes in *. rewrite Href, bind_Done.
  rewrite len_app, len_drop in * by lia. rewrite Hlen in *.
  pose proof (len_nonneg (fr_segment f)).
  destruct (Z.leb_spec n (Preamble_len (fr_preamble f) - fr_pos f)).
  - eexists. split; [done|]. unfold OutgoingFrame_wf. cbn [fr_preamble fr_pos fr_segment].
    split; [split_and!; try done; lia|].
    rewrite drop_app_lt by (rewrite len_drop by lia; lia). by rewrite drop_drop_Z by lia.
  - rewrite advance_Done by lia. rewrite bind_Done. eexists. split; [done|].
    unfold OutgoingFrame_wf. cbn [fr_preamble fr_pos fr_segment].
    split; [split_and!; try done; rewrite ?len_drop by lia; ulia|].
    rewrite drop_ge by (unfold len in *; lia). cbn [app].
    rewrite drop_app, (drop_ge (drop _ _)) by (rewrite length_drop; unfold len in *; lia).
    cbn [app]. f_equal. rewrite length_drop. unfold len in *. lia.
Qed.
#[export] Instance OutgoingFrame_laws : BufLaws OutgoingFrame := {
  buf_wf := OutgoingFrame_wf;
  buf_contents := frame_bytes;
  buf_remaining_spec := OutgoingFrame_remaining_Done;
  buf_chunk_spec := OutgoingFrame_chunk_spec;
  buf_advance_spec := OutgoingFrame_advance_spec;
}.

(** ** [Buf::copy_to_bytes] *)

(** What the documentation of the provided method says: the next [n] bytes of the contents. *)
Definition copy_to_bytes_law (copy_to_bytes : ∀ B, Buf B → B → Z → exec bytes) : Prop :=
  ∀ B (HB : Buf B) (HL : BufLaws B) b n, buf_wf b → 0 ≤ n ≤ len (buf_contents b) →
    copy_to_bytes B HB b n = Done (take (Z.to_nat n) (buf_contents b)).

(** A copying loop over [chunk] and [advance] that obeys it. *)
Fixpoint copy_loop (fuel : nat) (B : Type) (HB : Buf B) (b : B) (n : Z) : exec bytes :=
  if n =? 0 then mret [] else
  match fuel with
  | O => OutOfFuel
  | S fuel =>
      ch ← buf_chunk b;
      let k := Z.min n (len ch) in
      b ← buf_advance b k;
      rest ← copy_loop fuel B HB b (n - k);
      mret (take (Z.to_nat k) ch ++ rest)
  end.
Definition copy_all (B : Type) (HB : Buf B) (b : B) (n : Z) : exec bytes :=
  copy_loop (Z.to_nat n) B HB b n.

Lemma copy_loop_spec fuel B (HB : Buf B) (HL : BufLaws B) b n :
  buf_wf b → 0 ≤ n ≤ len (buf_contents b) → (Z.to_nat n ≤ fuel)%nat →
  copy_loop fuel B HB b n = Done (take (Z.to_nat n) (buf_contents b)).
Proof.
  revert b n. induction fuel as [|fuel IH]; intros b n Hwf Hn Hfuel.
  { assert (n = 0) as -> by lia. done. }
  cbn [copy_loop]. destruct (Z.eqb_spec n 0) as [-> |Hn0]; [done|].
  destruct (buf_chunk_spec b Hwf) as (ch & -> & [tl Htl] & Hne). rewrite bind_Done.
  assert (0 < len ch).
  { pose proof (len_nonneg ch). destruct (decide (len ch = 0)); [|lia].
    exfalso. apply Hne; [|by apply len_zero]. intros Hnil. rewrite Hnil in Hn.
    change (len (@nil Z)) with 0 in Hn. lia. }
  set (k := Z.min n (len ch)). assert (0 ≤ k ≤ len (buf_contents b)) as Hk by lia.
  destruct (buf_advance_spec b k Hwf Hk) as (b' & -> & Hwf' & Hc'). rewrite bind_Done.
  rewrite IH; [|done| |lia].
  2:{ rewrite Hc', len_drop by lia. lia. }
  rewrite bind_Done, Hc'. unfold mret, exec_ret. f_equal.
  assert (take (Z.to_nat k) ch = take (Z.to_nat k) (buf_contents b)) as ->.
  { rewrite Htl, take_app_le by (unfold len in *; lia). done. }
  rewrite take_take_drop. f_equal. lia.
Qed.
Lemma copy_all_law : copy_to_bytes_law copy_all.
Proof. intros B HB HL b n Hwf Hn. by apply copy_loop_spec. Qed.

(** ** Properties *)

Lemma frame_wf_first m h pl : MaxFrameSize_wf m → u32 (len pl) → OutgoingFrame_wf (first_frame m h pl).
Proof.
  intros Hm Hpl. unfold OutgoingFrame_wf, Preamble_wf, Preamble_len, first_frame.
  cbn [fr_preamble fr_pos fr_segment payload_length]. rewrite Varint32_of_len.
  pose proof (varint_bytes_len (len pl)). unfold Varint32_of. cbn [v32].
  assert (len (varint_bytes (len pl) ++ replicate (5 - length (varint_bytes (len pl))) 0
                 ++ [len (varint_bytes (len pl))]) = 6) as ->.
  { unfold len in *. rewrite !length_app, length_replicate. cbn [length]. lia. }
  unfold Header_SIZE, len in *. rewrite length_take. split_and!; ulia.
Qed.
Lemma frame_wf_next h s : u32 (len s) → OutgoingFrame_wf (next_frame h s).
Proof.
  intros Hs. split; [|split; [|exact Hs]]; cbn [fr_preamble fr_pos next_frame].
  - split; [split; vm_compute; discriminate|done].
  - split; vm_compute; discriminate.
Qed.

Lemma expected_frames_wf m msg : MaxFrameSize_wf m → payload_wf (om_payload msg) →
  Forall OutgoingFrame_wf (expected_frames m msg).
Proof.
  destruct msg as [h [pl|]]; unfold expected_frames; cbn [om_payload om_header payload_wf]; intros Hm Hp.
  - constructor; [by apply frame_wf_first|]. apply Forall_map.
    pose proof (MaxFrameSize_wf_bounds m Hm).
    eapply Forall_impl; [apply segments_len_le; lia|]. intros s Hs.
    apply frame_wf_next. pose proof (len_nonneg s). cbn beta in Hs. ulia.
  - constructor; [|done]. apply frame_wf_next. split; vm_compute; discriminate.
Qed.

(** C23: the byte iterator obeys the laws of [bytes::Buf] with the message's wire format as its
    contents, so any reader that only relies on them — as [to_bytes] does through the provided
    [copy_to_bytes] — gets from the hand-computed offsets of [chunk] the same bytes as from
    writing out the frames of [frame_iter] one after the other. *)
Theorem to_bytes_concatenates_frames copy_to_bytes m h payload :
  copy_to_bytes_law copy_to_bytes → MaxFrameSize_wf m → payload_wf payload →
  let msg := OutgoingMessage_new h payload in
  OutgoingMessage_to_bytes copy_to_bytes msg m = Done (wire m msg) ∧
  total_len msg m = Done (len (wire m msg)) ∧
  ∃ fs bs, frame_iter msg m = Done fs ∧
    mapM (OutgoingFrame_to_bytes copy_to_bytes) fs = Done bs ∧ wire m msg = concat bs.
Proof.
  intros Hcopy Hm Hp msg. split_and!.
  - unfold OutgoingMessage_to_bytes, iter_bytes. subst msg.
    set (lp := match payload with Some pl => Varint32_of (len pl) | None => SENTINEL end).
    assert (match payload with Some pl => Varint32_encode (as_u32 (len pl)) | None => mret SENTINEL end
            = Done lp) as Hlp.
    { subst lp. destruct payload; [|done]. cbn in Hp. by rewrite as_u32_small, Varint32_encode_u32. }
    cbn [om_payload OutgoingMessage_new]. rewrite Hlp, !bind_Done.
    set (b := mkByteIter (mkOutgoingMessage h payload) lp 0 m).
    assert (buf_wf b) as Hwf.
    { split_and!; try done. cbn [consumed b bi_max_frame_size bi_msg]. apply len_nonneg. }
    change (OutgoingMessage_new h payload) with (mkOutgoingMessage h payload). fold b.
    rewrite (buf_remaining_spec b Hwf), bind_Done.
    pose proof (len_nonneg (buf_contents b)).
    rewrite (Hcopy ByteIter _ _ b) by (done || lia). f_equal. rewrite take_ge_len by lia. done.
  - by apply total_len_Done.
  - exists (expected_frames m msg), (message_frames m msg). split; [by apply frame_iter_expected|].
    split; [|done]. rewrite <- expected_frames_bytes by done.
    pose proof (expected_frames_wf m msg Hm Hp) as Hwf.
    induction Hwf as [|f fs Hf Hfs IH]; [done|]. cbn [map mapM].
    assert (OutgoingFrame_to_bytes copy_to_bytes f = Done (frame_bytes f)) as ->.
    { unfold OutgoingFrame_to_bytes. pose proof (len_nonneg (buf_contents f)).
      assert (buf_wf f) as Hf' by exact Hf.
      rewrite (buf_remaining_spec f Hf'), bind_Done.
      rewrite (Hcopy OutgoingFrame _ _ f) by (done || lia). f_equal. rewrite take_ge_len by lia. done. }
    rewrite bind_Done, IH. done.
Qed.
Lemma to_bytes_concatenates_frames_witness :
  copy_to_bytes_law copy_all ∧ MaxFrameSize_wf (mkMaxFrameSize 16) ∧
  payload_wf (Some (replicate 40 5)) ∧
  let msg := OutgoingMessage_new (mkHeader 2 0 1 0) (Some (replicate 40 5)) in
  OutgoingMessage_to_bytes copy_all msg (mkMaxFrameSize 16) = Done (wire (mkMaxFrameSize 16) msg) ∧
  total_len msg (mkMaxFrameSize 16) = Done (len (wire (mkMaxFrameSize 16) msg)) ∧
  ∃ fs bs, frame_iter msg (mkMaxFrameSize 16) = Done fs ∧
    mapM (OutgoingFrame_to_bytes copy_all) fs = Done bs ∧ wire (mkMaxFrameSize 16) msg = concat bs.
Proof.
  assert (MaxFrameSize_wf (mkMaxFrameSize 16)) as Hm by (split; vm_compute; discriminate).
  assert (payload_wf (Some (replicate 40 5))) as Hp by (split; vm_compute; discriminate).
  split; [exact copy_all_law|]. split; [exact Hm|]. split; [exact Hp|].
  exact (to_bytes_concatenates_frames copy_all _ _ _ copy_all_law Hm Hp).
Defined.

Example to_bytes_example :
  OutgoingMessage_to_bytes copy_all
    (OutgoingMessage_new (mkHeader 2 0 1 0) (Some (seqZ 0 20))) (mkMaxFrameSize 16)
  = Done ([2; 0; 1; 0; 20] ++ seqZ 0 11 ++ [2; 0; 1; 0] ++ seqZ 11 9).
Proof. reflexivity. Qed.
