(* ===== verification/Multiframe.v ===== *)
(** * Receiving multi-frame messages (src/src/protocol/multiframe.rs) *)
From S2P Require Import Prelude Lib Varint Header FrameSize OutgoingMessage.
From stdpp Require Import options.

(** [err_msg] of src/src/protocol.rs: an error message answering a received header. *)
Definition err_msg {T} (header : Header) (kind : ErrorKind) : Outcome T OutgoingMessage :=
  Fatal (OutgoingMessage_new (with_err header kind) None).

(** ** Data *)

Inductive MultiframeReceiver :=
  | Ready
  | InProgress (header : Header) (payload : bytes) (total_payload_size : Z).
Definition MultiframeReceiver_default : MultiframeReceiver := Ready.

Inductive CompletedFrame :=
  | NewMultiFrame
  | IntermediateMultiFrame
  | SingleFrame (payload : bytes)
  | CompletedMultiFrame (payload : bytes).

#[export] Instance MultiframeReceiver_eq_dec : EqDecision MultiframeReceiver.
Proof. solve_decision. Defined.
#[export] Instance CompletedFrame_eq_dec : EqDecision CompletedFrame.
Proof. solve_decision. Defined.

Definition was_new (self : CompletedFrame) : bool :=
  match self with
  | NewMultiFrame => true
  | IntermediateMultiFrame => false
  | SingleFrame _ => true
  | CompletedMultiFrame _ => false
  end.
Definition into_completed_payload (self : CompletedFrame) : option bytes :=
  match self with
  | NewMultiFrame => None
  | IntermediateMultiFrame => None
  | SingleFrame payload => Some payload
  | CompletedMultiFrame payload => Some payload
  end.

Record InitialFrameData := mkInitialFrameData {
  preamble_len : Z;
  segment_len : Z;
  payload_size : Z;
}.
Definition is_complete (self : InitialFrameData) : exec bool :=
  assert (segment_len self <=? payload_size self);;
  mret (segment_len self =? payload_size self).

(** ** Operations *)

Definition detect_starting_segment (header : Header) (buffer : bytes)
    (max_frame_size : MaxFrameSize) (max_payload_size : Z) (payload_exceeded_error_kind : ErrorKind)
    : exec (Outcome InitialFrameData OutgoingMessage) :=
  segment_buf ← slice_from buffer Header_SIZE;
  decoded ← decode_varint32 segment_buf;
  try_outcome! payload_size :=
    Outcome_map_err (λ _, OutgoingMessage_new (with_err header EBadVarInt) None) decoded in
  if max_payload_size <? value payload_size then
    mret (err_msg header payload_exceeded_error_kind)
  else
    preamble_len ← uadd usize_max Header_SIZE (offset payload_size);
    max_data_in_frame ← usub (MaxFrameSize_get max_frame_size) (as_u32 preamble_len);
    let segment_len := Z.min max_data_in_frame (value payload_size) in
    frame_end ← uadd usize_max preamble_len segment_len;
    if len buffer <? frame_end then
      missing ← usub frame_end (len buffer);
      Outcome_incomplete missing
    else
      mret (Success {| preamble_len := preamble_len; segment_len := segment_len;
                       payload_size := value payload_size |}).

(** Mutates the incoming buffer and the stored payload: both are returned. *)
Definition extract_segment (incoming stored_payload : bytes) (total_payload_size : Z)
    (max_frame_size : MaxFrameSize) : exec (Outcome bool OutgoingMessage * (bytes * bytes)) :=
  bytes_remaining ← usub total_payload_size (len stored_payload);
  room ← without_header max_frame_size;
  let segment_size := Z.min bytes_remaining room in
  frame_end ← uadd usize_max segment_size Header_SIZE;
  if len incoming <? frame_end then
    missing ← usub frame_end (len incoming);
    o ← Outcome_incomplete missing;
    mret (o, (incoming, stored_payload))
  else
    incoming ← advance incoming Header_SIZE;
    seg ← slice incoming 0 segment_size;
    let stored_payload := stored_payload ++ seg in
    incoming ← advance incoming segment_size;
    mret (Success (len stored_payload =? total_payload_size), (incoming, stored_payload)).

(** Mutates the receiver and the buffer: both are returned. *)
Definition accept (self : MultiframeReceiver) (header : Header) (buffer : bytes)
    (max_frame_size : MaxFrameSize) (max_payload_size : Z) (payload_exceeded_error_kind : ErrorKind)
    : exec (Outcome CompletedFrame OutgoingMessage * (MultiframeReceiver * bytes)) :=
  match self with
  | Ready =>
      detected ← detect_starting_segment header buffer max_frame_size max_payload_size
                   payload_exceeded_error_kind;
      try_outcome! frame_data := detected state (self, buffer) in
      buffer ← advance buffer (preamble_len frame_data);
      '(segment, buffer) ← split_to buffer (segment_len frame_data);
      complete ← is_complete frame_data;
      if (complete : bool) then
        mret (Success (SingleFrame segment), (self, buffer))
      else
        mret (Success NewMultiFrame,
              (InProgress header segment (payload_size frame_data), buffer))
  | InProgress active_header payload total_payload_size =>
      if bool_decide (header ≠ active_header) then
        detected ← detect_starting_segment header buffer max_frame_size max_payload_size
                     payload_exceeded_error_kind;
        try_outcome! frame_data := detected state (self, buffer) in
        complete ← is_complete frame_data;
        if (complete : bool) then
          buffer ← advance buffer (preamble_len frame_data);
          '(segment, buffer) ← split_to buffer (segment_len frame_data);
          mret (Success (SingleFrame segment), (self, buffer))
        else
          mret (err_msg header EInProgress, (self, buffer))
      else
        '(extracted, (buffer, payload)) ←
          extract_segment buffer payload total_payload_size max_frame_size;
        try_outcome! finished := extracted
          state (InProgress active_header payload total_payload_size, buffer) in
        if (finished : bool) then
          mret (Success (CompletedMultiFrame payload), (Ready, buffer))
        else
          mret (Success IntermediateMultiFrame,
                (InProgress active_header payload total_payload_size, buffer))
  end.

Definition in_progress_header (self : MultiframeReceiver) : option Header :=
  match self with
  | Ready => None
  | InProgress header _ _ => Some header
  end.
