(* ===== verification/MultiframeSpec.v ===== *)
(** * What the multi-frame receiver does

    Closed forms of the receiver's operations, its invariant, and that it reassembles what the
    frame iterator cuts up. *)
From S2P Require Import Prelude Lib Varint Header FrameSize OutgoingMessage WireFormat Multiframe.
From stdpp Require Import options.

(** ** Closed forms *)

Definition detect_spec (header : Header) (buffer : bytes) (m : MaxFrameSize)
    (max_payload_size : Z) (kind : ErrorKind) : Outcome InitialFrameData OutgoingMessage :=
  match varint_parse 4 (drop 4 buffer) with
  | Incomplete n => Incomplete n
  | Fatal _ => err_msg header EBadVarInt
  | Success p =>
      if max_payload_size <? value p then err_msg header kind
      else
        let pre := 4 + offset p in
        let seg := Z.min (mfs m - pre) (value p) in
        if len buffer <? pre + seg then Incomplete (pre + seg - len buffer)
        else Success (mkInitialFrameData pre seg (value p))
  end.

Definition extract_spec (incoming stored : bytes) (total : Z) (m : MaxFrameSize)
    : Outcome bool OutgoingMessage * (bytes * bytes) :=
  let seg := Z.min (total - len stored) (mfs m - 4) in
  if len incoming <? seg + 4 then (Incomplete (seg + 4 - len incoming), (incoming, stored))
  else (Success (len stored + seg =? total),
        (drop (Z.to_nat (4 + seg)) incoming,
         stored ++ take (Z.to_nat seg) (drop 4 incoming))).

Definition accept_spec (self : MultiframeReceiver) (header : Header) (buffer : bytes)
    (m : MaxFrameSize) (max_payload_size : Z) (kind : ErrorKind)
    : Outcome CompletedFrame OutgoingMessage * (MultiframeReceiver * bytes) :=
  let start (fresh : bool) :=
    match detect_spec header buffer m max_payload_size kind with
    | Incomplete n => (Incomplete n, (self, buffer))
    | Fatal e => (Fatal e, (self, buffer))
    | Success d =>
        let seg := take (Z.to_nat (segment_len d)) (drop (Z.to_nat (preamble_len d)) buffer) in
        let rest := drop (Z.to_nat (preamble_len d + segment_len d)) buffer in
        if segment_len d =? payload_size d then (Success (SingleFrame seg), (self, rest))
        else if fresh then (Success NewMultiFrame, (InProgress header seg (payload_size d), rest))
        else (err_msg header EInProgress, (self, buffer))
    end in
  match self with
  | Ready => start true
  | InProgress active payload total =>
      if decide (header = active) then
        match extract_spec buffer payload total m with
        | (Incomplete n, _) => (Incomplete n, (self, buffer))
        | (Fatal e, _) => (Fatal e, (self, buffer))
        | (Success true, (rest, payload)) => (Success (CompletedMultiFrame payload), (Ready, rest))
        | (Success false, (rest, payload)) =>
            (Success IntermediateMultiFrame, (InProgress active payload total, rest))
        end
      else start false
  end.

(** ** The receiver's invariant: a transfer in progress is missing at least one byte *)

Definition receiver_wf (r : MultiframeReceiver) : Prop :=
  match r with
  | Ready => True
  | InProgress _ payload total => len payload < total ∧ u32 total
  end.
#[export] Instance receiver_wf_dec r : Decision (receiver_wf r).
Proof. destruct r; cbn; apply _. Defined.

(** ** The operations compute their closed forms without panicking *)

Lemma decode_bounds input p : Forall u8 input → varint_parse 4 input = Success p →
  u32 (value p) ∧ 1 ≤ offset p ≤ 5 ∧ offset p ≤ len input.
Proof.
  intros Hin Hp. apply varint_parse_bounds in Hp as (Hv & Ho & Hl); [|done].
  change (16 * 128 ^ Z.of_nat 4) with 4294967296 in Hv. ulia.
Qed.

Lemma detect_starting_segment_Done h buffer m max kind :
  MaxFrameSize_wf m → Forall u8 buffer → 4 ≤ len buffer →
  detect_starting_segment h buffer m max kind = Done (detect_spec h buffer m max kind).
Proof.
  intros Hm Hin Hlen. pose proof (MaxFrameSize_wf_bounds m Hm) as Hb.
  unfold detect_starting_segment, detect_spec, Header_SIZE, MaxFrameSize_get.
  rewrite slice_from_Done, bind_Done by lia. change (Z.to_nat 4) with 4%nat.
  rewrite decode_varint32_spec, bind_Done by by apply Forall_drop.
  destruct (varint_parse 4 (drop 4 buffer)) as [n|e|p] eqn:Hp; cbn [Outcome_map_err]; try done.
  apply decode_bounds in Hp as (Hv & Ho & Hl); [|by apply Forall_drop].
  destruct (max <? value p); [done|].
  rewrite uadd_Done by ulia. rewrite bind_Done, as_u32_small by ulia.
  rewrite usub_Done by lia. rewrite bind_Done, uadd_Done by ulia. rewrite bind_Done.
  destruct (Z.ltb_spec (len buffer) (4 + offset p + Z.min (mfs m - (4 + offset p)) (value p))); [|done].
  rewrite usub_Done by lia. rewrite bind_Done. pose proof (len_nonneg buffer).
  apply Outcome_incomplete_Done. ulia.
Qed.

Lemma detect_spec_Success h buffer m max kind d :
  MaxFrameSize_wf m → Forall u8 buffer → 4 ≤ len buffer →
  detect_spec h buffer m max kind = Success d →
  5 ≤ preamble_len d ≤ 9 ∧ 0 ≤ segment_len d ≤ payload_size d ∧ u32 (payload_size d) ∧
  payload_size d ≤ max ∧ preamble_len d + segment_len d ≤ Z.min (mfs m) (len buffer).
Proof.
  intros Hm Hin Hlen. pose proof (MaxFrameSize_wf_bounds m Hm) as Hb. unfold detect_spec.
  destruct (varint_parse 4 (drop 4 buffer)) as [n|e|p] eqn:Hp; try done.
  apply decode_bounds in Hp as (Hv & Ho & Hl); [|by apply Forall_drop].
  destruct (Z.ltb_spec max (value p)); [done|].
  destruct (Z.ltb_spec (len buffer) (4 + offset p + Z.min (mfs m - (4 + offset p)) (value p))); [done|].
  intros [= <-]. cbn [preamble_len segment_len payload_size]. ulia.
Qed.

Lemma extract_segment_Done incoming stored total m :
  MaxFrameSize_wf m → len stored ≤ total → u32 total → 4 ≤ len incoming →
  extract_segment incoming stored total m = Done (extract_spec incoming stored total m).
Proof.
  intros Hm Hst Ht Hlen. pose proof (MaxFrameSize_wf_bounds m Hm) as Hb.
  unfold extract_segment, extract_spec. pose proof (len_nonneg stored).
  rewrite usub_Done by lia. rewrite bind_Done, without_header_Done, bind_Done by done.
  set (seg := Z.min (total - len stored) (mfs m - 4)).
  unfold Header_SIZE. rewrite uadd_Done by ulia. rewrite bind_Done.
  destruct (Z.ltb_spec (len incoming) (seg + 4)).
  - rewrite usub_Done by lia. rewrite bind_Done.
    rewrite Outcome_incomplete_Done by ulia. done.
  - rewrite advance_Done by lia. rewrite bind_Done, slice_Done by (rewrite ?len_drop by lia; lia).
    rewrite bind_Done, advance_Done by (rewrite len_drop by lia; lia). rewrite bind_Done.
    rewrite Z.sub_0_r. change (Z.to_nat 0) with 0%nat. rewrite drop_0, drop_drop_Z by lia.
    rewrite len_app, len_take by (rewrite len_drop by lia; lia). done.
Qed.

Lemma accept_Done r h buffer m max kind :
  MaxFrameSize_wf m → receiver_wf r → Forall u8 buffer → 4 ≤ len buffer →
  accept r h buffer m max kind = Done (accept_spec r h buffer m max kind).
Proof.
  intros Hm Hr Hin Hlen. unfold accept, accept_spec. destruct r as [|active payload total].
  - rewrite detect_starting_segment_Done, bind_Done by done.
    destruct (detect_spec h buffer m max kind) as [n|e|d] eqn:Hd; try done.
    apply detect_spec_Success in Hd as (Hpre & Hseg & Hps & _ & Hfit); [|done..].
    rewrite advance_Done, bind_Done, split_to_Done, bind_Done by (rewrite ?len_drop by lia; lia).
    unfold is_complete. rewrite assert_true by (apply Z.leb_le; lia). rewrite !bind_Done.
    rewrite drop_drop_Z by lia. by destruct (segment_len d =? payload_size d).
  - destruct (decide (h = active)) as [-> | Hne].
    + rewrite bool_decide_eq_false_2 by naive_solver. destruct Hr as [Hst Ht].
      rewrite extract_segment_Done, bind_Done by (done || lia).
      destruct (extract_spec buffer payload total m) as [[n|e|[]] [rest payload']] eqn:He;
        unfold extract_spec in He; case_match; simplify_eq; done.
    + rewrite bool_decide_eq_true_2 by done.
      rewrite detect_starting_segment_Done, bind_Done by done.
      destruct (detect_spec h buffer m max kind) as [n|e|d] eqn:Hd; try done.
      apply detect_spec_Success in Hd as (Hpre & Hseg & Hps & _ & Hfit); [|done..].
      unfold is_complete. rewrite assert_true by (apply Z.leb_le; lia). rewrite !bind_Done.
      destruct (segment_len d =? payload_size d); [|done].
      rewrite advance_Done, bind_Done, split_to_Done, bind_Done by (rewrite ?len_drop by lia; lia).
      by rewrite drop_drop_Z by lia.
Qed.

(** ** What one call does to the receiver and the buffer *)

(** The effect of a successful call: one frame is gone from the buffer, and the receiver's
    stored payload has grown by it, or has been handed out. *)
Definition accept_effect (r r' : MultiframeReceiver) (header : Header) (max : Z)
    (completed : CompletedFrame) : Prop :=
  match completed with
  | NewMultiFrame => r = Ready ∧
      ∃ payload total, r' = InProgress header payload total ∧ len payload < total ≤ max ∧ u32 total
  | IntermediateMultiFrame => ∃ p p' total,
      r = InProgress header p total ∧ r' = InProgress header p' total ∧
      p `prefix_of` p' ∧ len p < len p' < total
  | SingleFrame payload => r' = r ∧ len payload ≤ max ∧ in_progress_header r ≠ Some header
  | CompletedMultiFrame payload => ∃ p total,
      r = InProgress header p total ∧ r' = Ready ∧ p `prefix_of` payload ∧ len payload = total
  end.

Lemma take_drop_frame (buffer : bytes) a b : 0 ≤ a → 0 ≤ b → a + b ≤ len buffer →
  ∃ frame, buffer = frame ++ drop (Z.to_nat (a + b)) buffer ∧ len frame = a + b.
Proof.
  intros. exists (take (Z.to_nat (a + b)) buffer). rewrite take_drop.
  split; [done|]. apply len_take. lia.
Qed.

Lemma detect_spec_kinds h buffer m max kind : MaxFrameSize_wf m → Forall u8 buffer → 4 ≤ len buffer →
  match detect_spec h buffer m max kind with
  | Incomplete n => 0 < n ≤ mfs m
  | Fatal e => ∃ k, k ∈ [EBadVarInt; kind; EInProgress] ∧ e = OutgoingMessage_new (with_err h k) None
  | Success d => segment_len d = Z.min (mfs m - preamble_len d) (payload_size d)
  end.
Proof.
  intros Hm Hin Hlen. pose proof (MaxFrameSize_wf_bounds m Hm) as Hb.
  unfold detect_spec. destruct (varint_parse 4 (drop 4 buffer)) as [n|e|p] eqn:Hp; cbn beta iota.
  - pose proof (varint_parse_app 4 (drop 4 buffer) []) as Hone. rewrite Hp in Hone. lia.
  - exists EBadVarInt. split; [set_solver|done].
  - apply decode_bounds in Hp as (Hv & Ho & Hl); [|by apply Forall_drop].
    destruct (max <? value p); [exists kind; split; [set_solver|done]|].
    by destruct (Z.ltb_spec (len buffer) (4 + offset p + Z.min (mfs m - (4 + offset p)) (value p))); [ulia|].
Qed.
Lemma accept_spec_effect r h buffer m max kind :
  MaxFrameSize_wf m → receiver_wf r → Forall u8 buffer → 4 ≤ len buffer →
  match accept_spec r h buffer m max kind with
  | (Incomplete n, (r', buffer')) => 0 < n ≤ mfs m ∧ r' = r ∧ buffer' = buffer
  | (Fatal e, (r', buffer')) => r' = r ∧ buffer' = buffer ∧
      ∃ k, k ∈ [EBadVarInt; kind; EInProgress] ∧ e = OutgoingMessage_new (with_err h k) None
  | (Success completed, (r', buffer')) =>
      accept_effect r r' h max completed ∧
      ∃ frame, buffer = frame ++ buffer' ∧ 4 < len frame ≤ mfs m
  end.
Proof.
  intros Hm Hr Hin Hlen. pose proof (MaxFrameSize_wf_bounds m Hm) as Hb.
  pose proof (detect_spec_kinds h buffer m max kind Hm Hin Hlen) as Hdet.
  unfold accept_spec. destruct r as [|active payload total].
  - destruct (detect_spec h buffer m max kind) as [n|e|d] eqn:Hd; [done|naive_solver|].
    apply detect_spec_Success in Hd as (Hpre & Hseg & Hps & Hmax & Hfit); [|done..].
    destruct (take_drop_frame buffer (preamble_len d) (segment_len d)) as (frame & Hf & Hfl); [lia..|].
    assert (len (take (Z.to_nat (segment_len d)) (drop (Z.to_nat (preamble_len d)) buffer))
            = segment_len d) as Hsl by (rewrite len_take by (rewrite len_drop by lia; lia); done).
    destruct (Z.eqb_spec (segment_len d) (payload_size d)); cbn [accept_effect];
      (split; [|exists frame; split; [done|lia]]).
    + split_and!; [done|lia|done].
    + split; [done|]. do 2 eexists. split; [done|]. split; [lia|done].
  - destruct Hr as [Hst Ht]. pose proof (len_nonneg payload). case_decide as Hh.
    + subst active. unfold extract_spec.
      set (seg := Z.min (total - len payload) (mfs m - 4)).
      assert (0 < seg) by ulia.
      destruct (Z.ltb_spec (len buffer) (seg + 4)); [split_and!; [lia..|done|done]|].
      assert (len (take (Z.to_nat seg) (drop 4 buffer)) = seg) as Hsl.
      { apply len_take. change 4%nat with (Z.to_nat 4). rewrite len_drop by lia. lia. }
      destruct (take_drop_frame buffer 4 seg) as (frame & Hf & Hfl); [lia..|].
      destruct (Z.eqb_spec (len payload + seg) total); cbn [accept_effect];
        (split; [|exists frame; split; [done|lia]]).
      * do 2 eexists. split_and!; [done..|by apply prefix_app_r|]. rewrite len_app. lia.
      * do 3 eexists. split; [done|]. split; [done|]. split; [by apply prefix_app_r|].
        rewrite len_app. lia.
    + destruct (detect_spec h buffer m max kind) as [n|e|d] eqn:Hd; [done|naive_solver|].
      apply detect_spec_Success in Hd as (Hpre & Hseg & Hps & Hmax & Hfit); [|done..].
      destruct (take_drop_frame buffer (preamble_len d) (segment_len d)) as (frame & Hf & Hfl); [lia..|].
      destruct (Z.eqb_spec (segment_len d) (payload_size d)).
      * cbn [accept_effect]. split; [|exists frame; split; [done|lia]].
        split_and!; [done| |cbn; naive_solver].
        rewrite len_take; [lia|]. rewrite len_drop by lia. lia.
      * split_and!; [done..|]. exists EInProgress. split; [set_solver|done].
Qed.

(** ** More input does not change an answer already given *)

Lemma detect_spec_app h buffer extra m max kind : 4 ≤ len buffer →
  match detect_spec h buffer m max kind with
  | Incomplete n => len extra < n →
      detect_spec h (buffer ++ extra) m max kind = Incomplete (n - len extra)
  | o => detect_spec h (buffer ++ extra) m max kind = o
  end.
Proof.
  intros Hlen. unfold detect_spec. change 4%nat with (Z.to_nat 4).
  rewrite drop_app_lt by lia. pose proof (varint_parse_app (Z.to_nat 4) (drop (Z.to_nat 4) buffer) extra) as Hv.
  pose proof (len_nonneg extra).
  destruct (varint_parse (Z.to_nat 4) (drop (Z.to_nat 4) buffer)) as [n|e|p] eqn:Hp.
  - intros. assert (extra = []) as -> by (apply len_zero; lia).
    rewrite app_nil_r, Hp. change (len (@nil Z)) with 0. f_equal. lia.
  - by rewrite Hv.
  - rewrite Hv, len_app. destruct (max <? value p); [done|].
    destruct (Z.ltb_spec (len buffer) (4 + offset p + Z.min (mfs m - (4 + offset p)) (value p))).
    + intros. rewrite (proj2 (Z.ltb_lt _ _)) by lia. f_equal. lia.
    + rewrite (proj2 (Z.ltb_ge _ _)) by lia. done.
Qed.

Lemma take_drop_app_lt (buffer extra : bytes) a b : 0 ≤ a → 0 ≤ b → a + b ≤ len buffer →
  take (Z.to_nat b) (drop (Z.to_nat a) (buffer ++ extra)) = take (Z.to_nat b) (drop (Z.to_nat a) buffer).
Proof. intros. rewrite drop_app_lt by lia. apply take_app_lt. rewrite len_drop by lia. lia. Qed.

Lemma accept_spec_app r h buffer extra m max kind :
  MaxFrameSize_wf m → receiver_wf r → Forall u8 buffer → 4 ≤ len buffer →
  match accept_spec r h buffer m max kind with
  | (Incomplete n, _) => len extra < n →
      accept_spec r h (buffer ++ extra) m max kind = (Incomplete (n - len extra), (r, buffer ++ extra))
  | (o, (r', buffer')) => accept_spec r h (buffer ++ extra) m max kind = (o, (r', buffer' ++ extra))
  end.
Proof.
  intros Hm Hr Hin Hlen. pose proof (MaxFrameSize_wf_bounds m Hm) as Hb.
  pose proof (detect_spec_app h buffer extra m max kind Hlen) as Hdet.
  pose proof (len_nonneg extra). unfold accept_spec. destruct r as [|active payload total].
  - destruct (detect_spec h buffer m max kind) as [n|e|d] eqn:Hd.
    { intros. by rewrite Hdet. }
    { by rewrite Hdet. }
    rewrite Hdet.
    apply detect_spec_Success in Hd as (Hpre & Hseg & Hps & Hmax & Hfit); [|done..].
    rewrite take_drop_app_lt, drop_app_lt by lia.
    by destruct (segment_len d =? payload_size d).
  - destruct Hr as [Hst Ht]. pose proof (len_nonneg payload). case_decide as Hh.
    + subst active. unfold extract_spec. rewrite len_app.
      set (seg := Z.min (total - len payload) (mfs m - 4)). assert (0 < seg) by ulia.
      destruct (Z.ltb_spec (len buffer) (seg + 4)).
      * intros. rewrite (proj2 (Z.ltb_lt _ _)) by lia. do 2 f_equal. lia.
      * rewrite (proj2 (Z.ltb_ge _ _)) by lia. change 4%nat with (Z.to_nat 4).
        rewrite take_drop_app_lt, drop_app_lt by lia. by destruct (len payload + seg =? total).
    + destruct (detect_spec h buffer m max kind) as [n|e|d] eqn:Hd.
      { intros. by rewrite Hdet. }
      { by rewrite Hdet. }
      rewrite Hdet.
      apply detect_spec_Success in Hd as (Hpre & Hseg & Hps & Hmax & Hfit); [|done..].
      rewrite take_drop_app_lt, drop_app_lt by lia.
      by destruct (segment_len d =? payload_size d).
Qed.

(** ** Reassembly *)

(** The frames [frame_iter] writes, seen from the receiver. *)
Lemma accept_spec_first r h m pl rest max kind : MaxFrameSize_wf m → u32 (len pl) → len pl ≤ max →
  (∀ p t, r ≠ InProgress h p t) →
  let cap := mfs m - 4 - len (varint_bytes (len pl)) in
  accept_spec r h (Header_as_ref h ++ varint_bytes (len pl) ++ take (Z.to_nat cap) pl ++ rest) m max kind
  = if len pl <=? cap then (Success (SingleFrame pl), (r, rest))
    else match r with
         | Ready => (Success NewMultiFrame,
                     (InProgress h (take (Z.to_nat cap) pl) (len pl), rest))
         | InProgress _ _ _ =>
             (err_msg h EInProgress,
              (r, Header_as_ref h ++ varint_bytes (len pl) ++ take (Z.to_nat cap) pl ++ rest))
         end.
Proof.
  intros Hm Hu Hmax Hr cap. pose proof (MaxFrameSize_wf_bounds m Hm). pose proof (len_nonneg pl).
  pose proof (varint_bytes_len (len pl)). pose proof (len_nonneg rest).
  set (vb := varint_bytes (len pl)) in *. set (buffer := Header_as_ref h ++ _).
  assert (len (Header_as_ref h) = 4) as Hh by done.
  assert (len (take (Z.to_nat cap) pl) = Z.min cap (len pl)) as Htl
    by (unfold len in *; rewrite length_take; lia).
  assert (detect_spec h buffer m max kind
          = Success (mkInitialFrameData (4 + len vb) (Z.min cap (len pl)) (len pl))) as Hdet.
  { unfold detect_spec, buffer. change 4%nat with (Z.to_nat 4). rewrite drop_app_len by done.
    unfold vb, varint_bytes. change (Z.to_nat 4) with 4%nat.
    rewrite varint_parse_print by by apply u32_room. cbn [value offset].
    fold (varint_bytes (len pl)). fold vb.
    rewrite (proj2 (Z.ltb_ge _ _)) by lia. rewrite !len_app, Htl.
    rewrite (proj2 (Z.ltb_ge _ _)) by lia. do 2 f_equal. lia. }
  assert (drop (Z.to_nat (4 + len vb)) buffer = take (Z.to_nat cap) pl ++ rest) as Hd1.
  { unfold buffer. rewrite app_assoc. apply drop_app_len. rewrite len_app. lia. }
  assert (drop (Z.to_nat (4 + len vb + Z.min cap (len pl))) buffer = rest) as Hd2.
  { rewrite <- drop_drop_Z, Hd1 by lia. apply drop_app_len. lia. }
  unfold accept_spec. destruct r as [|active payload total].
  - rewrite Hdet. cbn [segment_len payload_size preamble_len]. rewrite Hd1, Hd2, take_app_len by lia.
    destruct (Z.leb_spec (len pl) cap).
    + rewrite (proj2 (Z.eqb_eq _ _)), take_ge_len by lia. done.
    + rewrite (proj2 (Z.eqb_neq _ _)) by lia. done.
  - case_decide as Hact; [subst active; by destruct (Hr payload total)|].
    rewrite Hdet. cbn [segment_len payload_size preamble_len]. rewrite Hd1, Hd2, take_app_len by lia.
    destruct (Z.leb_spec (len pl) cap).
    + rewrite (proj2 (Z.eqb_eq _ _)), take_ge_len by lia. done.
    + rewrite (proj2 (Z.eqb_neq _ _)) by lia. done.
Qed.

Lemma accept_spec_next h m stored seg total rest max kind : MaxFrameSize_wf m →
  len seg = Z.min (total - len stored) (mfs m - 4) →
  accept_spec (InProgress h stored total) h (Header_as_ref h ++ seg ++ rest) m max kind
  = if len stored + len seg =? total
    then (Success (CompletedMultiFrame (stored ++ seg)), (Ready, rest))
    else (Success IntermediateMultiFrame, (InProgress h (stored ++ seg) total, rest)).
Proof.
  intros Hm Hseg. unfold accept_spec. rewrite decide_True by done. unfold extract_spec.
  rewrite <- Hseg, !len_app. assert (len (Header_as_ref h) = 4) as Hh by done.
  pose proof (len_nonneg rest). pose proof (len_nonneg seg).
  rewrite (proj2 (Z.ltb_ge _ _)) by lia. rewrite <- drop_drop_Z by lia. change 4%nat with (Z.to_nat 4).
  rewrite !drop_app_len, take_app_len by done. by destruct (len stored + len seg =? total).
Qed.

(** Calls [accept] until a message is complete, as the module's tests do. *)
Fixpoint accept_all (fuel : nat) (r : MultiframeReceiver) (header : Header) (buffer : bytes)
    (m : MaxFrameSize) (max : Z) (kind : ErrorKind)
    : exec (Outcome bytes OutgoingMessage * (MultiframeReceiver * bytes)) :=
  match fuel with
  | O => OutOfFuel
  | S fuel =>
      '(o, (r, buffer)) ← accept r header buffer m max kind;
      try_outcome! completed := o state (r, buffer) in
      match into_completed_payload completed with
      | Some payload => mret (Success payload, (r, buffer))
      | None => accept_all fuel r header buffer m max kind
      end
  end.

Lemma segments_u8 n space body : Forall u8 body → Forall (Forall u8) (segments n space body).
Proof.
  revert body. induction n as [|n IH]; intros body Hb; cbn [segments]; constructor.
  - by apply Forall_take.
  - by apply IH, Forall_drop.
Qed.
Lemma message_frames_u8 m h payload : Header_wf h → payload_wf payload → Forall u8 (default [] payload) →
  Forall (Forall u8) (message_frames m (OutgoingMessage_new h payload)).
Proof.
  intros Hh Hp Hu. unfold message_frames. apply Forall_map.
  eapply Forall_impl; [apply segments_u8|].
  - destruct payload; [|constructor]. cbn [om_payload OutgoingMessage_new message_body].
    apply Forall_app. split; [by apply varint_bytes_u8|done].
  - intros s Hs. apply Forall_app. split; [by apply Header_as_ref_u8|done].
Qed.
Lemma wire_u8 m h payload : Header_wf h → payload_wf payload → Forall u8 (default [] payload) →
  Forall u8 (wire m (OutgoingMessage_new h payload)).
Proof. intros. unfold wire. apply Forall_concat. by apply message_frames_u8. Qed.

(** The wire of a message with a payload: the first frame, then the later ones. *)
Definition later_frames (m : MaxFrameSize) (h : Header) (pl : bytes) : bytes :=
  let cap := mfs m - 4 - len (varint_bytes (len pl)) in
  concat (map (app (Header_as_ref h))
    (segments (Z.to_nat (frame_count m (Some pl) - 1)) (mfs m - 4) (drop (Z.to_nat cap) pl))).
Lemma wire_Some m h pl : MaxFrameSize_wf m →
  let cap := mfs m - 4 - len (varint_bytes (len pl)) in
  wire m (OutgoingMessage_new h (Some pl))
  = Header_as_ref h ++ varint_bytes (len pl) ++ take (Z.to_nat cap) pl ++ later_frames m h pl.
Proof.
  intros Hm cap. unfold wire, message_frames, later_frames. cbn [om_payload om_header OutgoingMessage_new].
  rewrite message_segments_Some by done. cbn [map concat]. by rewrite <- !app_assoc.
Qed.
Lemma wire_None m h : MaxFrameSize_wf m → wire m (OutgoingMessage_new h None) = Header_as_ref h.
Proof.
  intros Hm. unfold wire. rewrite <- expected_frames_bytes by done. cbn. done.
Qed.

Definition segment_frames (h : Header) (n : nat) (space : Z) (body : bytes) : bytes :=
  concat (map (app (Header_as_ref h)) (segments n space body)).

Lemma accept_spec_later h m stored body n rest max kind : MaxFrameSize_wf m →
  let space := mfs m - 4 in
  Z.of_nat n * space < len body ≤ Z.of_nat (S n) * space →
  accept_spec (InProgress h stored (len stored + len body)) h
    (segment_frames h (S n) space body ++ rest) m max kind
  = match n with
    | O => (Success (CompletedMultiFrame (stored ++ body)), (Ready, rest))
    | S _ => (Success IntermediateMultiFrame,
              (InProgress h (stored ++ take (Z.to_nat space) body) (len stored + len body),
               segment_frames h n space (drop (Z.to_nat space) body) ++ rest))
    end.
Proof.
  intros Hm space Hn. pose proof (MaxFrameSize_wf_bounds m Hm).
  unfold segment_frames. cbn [segments map concat]. rewrite <- !app_assoc.
  assert (len (take (Z.to_nat space) body) = Z.min (len body) space) as Hl
    by (unfold len in *; rewrite length_take; lia).
  rewrite accept_spec_next by (done || lia). rewrite Hl. destruct n as [|n].
  - rewrite (proj2 (Z.eqb_eq _ _)), take_ge_len by lia. cbn [segments map concat]. done.
  - rewrite (proj2 (Z.eqb_neq _ _)) by nia. done.
Qed.

Lemma segment_frames_u8 h n space body : Header_wf h → Forall u8 body →
  Forall u8 (segment_frames h n space body).
Proof.
  intros Hh Hb. apply Forall_concat, Forall_map. eapply Forall_impl; [by apply segments_u8|].
  intros s Hs. apply Forall_app. split; [by apply Header_as_ref_u8|done].
Qed.
Lemma segment_frames_ready h n space body rest : Header_wf h → Forall u8 body → Forall u8 rest →
  Forall u8 (segment_frames h (S n) space body ++ rest) ∧
  4 ≤ len (segment_frames h (S n) space body ++ rest).
Proof.
  intros. split; [apply Forall_app; split; [by apply segment_frames_u8|done]|].
  unfold segment_frames. cbn [segments map concat]. rewrite !len_app.
  assert (len (Header_as_ref h) = 4) as -> by done.
  pose proof (len_nonneg (take (Z.to_nat space) body)). pose proof (len_nonneg rest).
  pose proof (len_nonneg (concat (map (app (Header_as_ref h)) (segments n space (drop (Z.to_nat space) body))))).
  lia.
Qed.

Lemma accept_all_later h m n : ∀ stored body rest max kind,
  MaxFrameSize_wf m → Header_wf h → Forall u8 body → Forall u8 rest → u32 (len stored + len body) →
  Z.of_nat n * (mfs m - 4) < len body ≤ Z.of_nat (S n) * (mfs m - 4) →
  accept_all (S n) (InProgress h stored (len stored + len body)) h
    (segment_frames h (S n) (mfs m - 4) body ++ rest) m max kind
  = Done (Success (stored ++ body), (Ready, rest)).
Proof.
  induction n as [|n IH]; intros stored body rest max kind Hm Hh Hbu Hr Hu Hn;
    pose proof (MaxFrameSize_wf_bounds m Hm).
  - destruct (segment_frames_ready h 0 (mfs m - 4) body rest) as [? ?]; [done..|].
    cbn [accept_all]. rewrite accept_Done, bind_Done, accept_spec_later by (done || (split; [nia|done])).
    done.
  - destruct (segment_frames_ready h (S n) (mfs m - 4) body rest) as [? ?]; [done..|].
    remember (S n) as n' eqn:Hn'. cbn [accept_all].
    rewrite accept_Done, bind_Done, accept_spec_later by (done || (split; [nia|done])). subst n'.
    cbn [into_completed_payload].
    set (space := mfs m - 4) in *. set (tk := take (Z.to_nat space) body). set (dr := drop (Z.to_nat space) body).
    assert (len body = len tk + len dr) as Hsplit by (unfold tk, dr; rewrite <- len_app, take_drop; done).
    assert (len tk = space) as Htl by (apply len_take; nia).
    replace (len stored + len body) with (len (stored ++ tk) + len dr) in * by (rewrite len_app; lia).
    rewrite IH; [|done..|by apply Forall_drop|done|done|nia].
    unfold tk, dr. by rewrite <- app_assoc, take_drop.
Qed.

Lemma multi_frame_start h m pl rest : MaxFrameSize_wf m → u32 (len pl) → frame_count m (Some pl) ≠ 1 →
  ∃ n tk dr, pl = tk ++ dr ∧ frame_count m (Some pl) = Z.of_nat (S (S n)) ∧
  Z.of_nat n * (mfs m - 4) < len dr ≤ Z.of_nat (S n) * (mfs m - 4) ∧
  ∀ max kind, len pl ≤ max →
    accept_spec Ready h (wire m (OutgoingMessage_new h (Some pl)) ++ rest) m max kind
    = (Success NewMultiFrame,
       (InProgress h tk (len tk + len dr), segment_frames h (S n) (mfs m - 4) dr ++ rest)).
Proof.
  intros Hm Hu Hmany. pose proof (MaxFrameSize_wf_bounds m Hm).
  pose proof (varint_bytes_len (len pl)). pose proof (len_nonneg pl).
  pose proof (frame_count_bounds m pl Hm) as Hn. cbv zeta in Hn.
  pose proof (frame_count_pos m (Some pl)).
  set (cap := mfs m - 4 - len (varint_bytes (len pl))) in *.
  exists (Z.to_nat (frame_count m (Some pl) - 2)), (take (Z.to_nat cap) pl), (drop (Z.to_nat cap) pl).
  assert (cap < len pl) by nia.
  rewrite take_drop, len_drop, len_take by lia. split; [done|]. split; [nia|]. split; [unfold cap in *; nia|].
  intros max kind Hmax. rewrite wire_Some by done. cbv zeta.
  rewrite <- !app_assoc, accept_spec_first by done. cbv zeta. unfold later_frames. fold cap.
  rewrite (proj2 (Z.leb_gt _ _)) by lia. replace (cap + (len pl - cap)) with (len pl) by lia.
  by replace (S (Z.to_nat (frame_count m (Some pl) - 2)))
    with (Z.to_nat (frame_count m (Some pl) - 1)) by nia.
Qed.

(** What a ready receiver does with the first frame of a message: it is all of it, or the
    later frames' segments follow. *)
Lemma accept_spec_single h m pl rest max kind :
  MaxFrameSize_wf m → u32 (len pl) → len pl ≤ max → frame_count m (Some pl) = 1 →
  accept_spec Ready h (wire m (OutgoingMessage_new h (Some pl)) ++ rest) m max kind
  = (Success (SingleFrame pl), (Ready, rest)).
Proof.
  intros Hm Hu Hmax Hone. pose proof (MaxFrameSize_wf_bounds m Hm).
  pose proof (frame_count_bounds m pl Hm) as Hn. cbv zeta in Hn. rewrite Hone in Hn.
  rewrite wire_Some by done. cbv zeta. rewrite <- !app_assoc, accept_spec_first by done. cbv zeta.
  unfold later_frames. rewrite Hone. rewrite (proj2 (Z.leb_le _ _)) by lia.
  by change (segments (Z.to_nat (1 - 1))) with (segments 0).
Qed.

Lemma wire_ready m h pl rest : MaxFrameSize_wf m → Header_wf h → u32 (len pl) → Forall u8 pl →
  Forall u8 rest →
  Forall u8 (wire m (OutgoingMessage_new h (Some pl)) ++ rest) ∧
  4 ≤ len (wire m (OutgoingMessage_new h (Some pl)) ++ rest).
Proof.
  intros. split; [apply Forall_app; split; [by apply wire_u8|done]|].
  rewrite wire_Some by done. cbv zeta. rewrite !len_app.
  assert (len (Header_as_ref h) = 4) as -> by done.
  pose proof (varint_bytes_len (len pl)). pose proof (len_nonneg rest).
  pose proof (len_nonneg (later_frames m h pl)).
  pose proof (len_nonneg (take (Z.to_nat (mfs m - 4 - len (varint_bytes (len pl)))) pl)). lia.
Qed.

(** C21: a ready receiver reassembles what the frame iterator cut up: given the bytes of the
    frames of a message whose payload is within the limit, one call per frame gives back the
    payload, leaves exactly the bytes behind the message in the buffer and the receiver ready
    again. *)
Theorem accept_reassembles m h pl rest max kind :
  MaxFrameSize_wf m → Header_wf h → Forall u8 pl → u32 (len pl) → len pl ≤ max → Forall u8 rest →
  accept_all (Z.to_nat (frame_count m (Some pl))) Ready h
    (wire m (OutgoingMessage_new h (Some pl)) ++ rest) m max kind
  = Done (Success pl, (Ready, rest)).
Proof.
  intros Hm Hh Hpl Hu Hmax Hrest. destruct (wire_ready m h pl rest) as [Hb Hl]; [done..|].
  destruct (decide (frame_count m (Some pl) = 1)) as [Hone|Hmany].
  - pose proof (accept_spec_single h m pl rest max kind Hm Hu Hmax Hone) as Hs. rewrite Hone.
    change (Z.to_nat 1) with 1%nat. cbn [accept_all]. by rewrite accept_Done, bind_Done, Hs by done.
  - destruct (multi_frame_start h m pl rest Hm Hu Hmany) as (n & tk & dr & Hpe & Hfc & Hn & Hs).
    rewrite Hfc, Nat2Z.id. specialize (Hs max kind Hmax). remember (S n) as n' eqn:Hn'. cbn [accept_all].
    rewrite accept_Done, bind_Done, Hs by done. cbn [into_completed_payload]. subst n'.
    rewrite Hpe, len_app in Hu. rewrite Hpe in Hpl. apply Forall_app in Hpl as [_ Hdr].
    rewrite accept_all_later by done. by rewrite Hpe.
Qed.
Lemma accept_reassembles_witness :
  let m := mkMaxFrameSize 10 in let h := Header_new KResponsePl (ChannelId_new 1) (Id_new 300) in
  let pl := replicate 33 7 in
  MaxFrameSize_wf m ∧ Header_wf h ∧ Forall u8 pl ∧ u32 (len pl) ∧ Forall u8 [9; 8; 7] ∧
  frame_count m (Some pl) = 6 ∧
  accept_all 6 Ready h (wire m (OutgoingMessage_new h (Some pl)) ++ [9; 8; 7]) m 40 EResponseTooLarge
  = Done (Success pl, (Ready, [9; 8; 7])).
Proof.
  intros m h pl.
  assert (MaxFrameSize_wf m) as Hm by (split; vm_compute; discriminate).
  assert (Header_wf h) as Hh by (left; do 3 eexists; split; [reflexivity|]; split; split; vm_compute; discriminate).
  assert (Forall u8 pl) as Hpl by (apply Forall_replicate; split; vm_compute; discriminate).
  assert (u32 (len pl)) as Hu by (split; vm_compute; discriminate).
  assert (len pl ≤ 40) as Hmax by (vm_compute; discriminate).
  assert (Forall u8 [9; 8; 7]) as Hr by (repeat constructor; vm_compute; discriminate).
  exact (conj Hm (conj Hh (conj Hpl (conj Hu (conj Hr (conj eq_refl
    (accept_reassembles m h pl [9; 8; 7] 40 EResponseTooLarge Hm Hh Hpl Hu Hmax Hr))))))).
Defined.

(** C28: [accept] never panics, whatever bytes a peer sends. When it is [Incomplete] or [Fatal]
    neither the receiver nor the buffer has changed, and the number of bytes it asks for does
    not exceed a frame; when it succeeds exactly one frame, no larger than the maximum, is gone
    from the buffer, the receiver is well-formed, and a payload that is stored or handed out is
    no longer than was announced within the limit. *)
Lemma accept_safe r h buffer m max kind :
  MaxFrameSize_wf m → receiver_wf r → Forall u8 buffer → Header_SIZE ≤ len buffer →
  ∃ o r' buffer', accept r h buffer m max kind = Done (o, (r', buffer')) ∧ receiver_wf r' ∧
    match o with
    | Incomplete n => 0 < n ≤ mfs m ∧ r' = r ∧ buffer' = buffer
    | Fatal e => r' = r ∧ buffer' = buffer ∧
        ∃ k, k ∈ [EBadVarInt; kind; EInProgress] ∧ e = OutgoingMessage_new (with_err h k) None
    | Success completed => accept_effect r r' h max completed ∧
        ∃ frame, buffer = frame ++ buffer' ∧ Header_SIZE < len frame ≤ mfs m
    end.
Proof.
  intros Hm Hr Hb Hl. rewrite accept_Done by done.
  pose proof (accept_spec_effect r h buffer m max kind Hm Hr Hb Hl) as He.
  destruct (accept_spec r h buffer m max kind) as [o [r' buffer']].
  exists o, r', buffer'. split; [done|]. split; [|by destruct o].
  destruct o as [n|e|c]; [by destruct He as (_ & -> & _)|by destruct He as (-> & _)|].
  destruct He as [He _]. destruct c; cbn [accept_effect] in He.
  - destruct He as (_ & p & t & -> & Hlt & Hu). cbn. split; [lia|done].
  - destruct He as (p & p' & t & -> & -> & _ & Hlt). destruct Hr as [_ Hu]. split; [lia|done].
  - by destruct He as (-> & _).
  - by destruct He as (p & t & _ & -> & _).
Qed.

(** While a transfer is in progress, a message with another header that fits a single frame
    is delivered and leaves the transfer as it is; one that does not is refused with [InProgress],
    so no second transfer is ever started. *)
Lemma accept_interspersed r h active p total m pl rest max kind :
  MaxFrameSize_wf m → r = InProgress active p total → receiver_wf r → Header_wf h → h ≠ active →
  Forall u8 pl → u32 (len pl) → len pl ≤ max → Forall u8 rest →
  let buffer := wire m (OutgoingMessage_new h (Some pl)) ++ rest in
  accept r h buffer m max kind
  = Done (if frame_count m (Some pl) =? 1 then (Success (SingleFrame pl), (r, rest))
          else (Fatal (OutgoingMessage_new (with_err h EInProgress) None), (r, buffer))).
Proof.
  intros Hm Hrp Hr Hh Hne Hpl Hu Hmax Hrest buffer. destruct (wire_ready m h pl rest) as [Hb Hl]; [done..|].
  rewrite accept_Done by done. f_equal. subst buffer.
  rewrite wire_Some by done. cbv zeta. rewrite <- !app_assoc.
  rewrite accept_spec_first by (done || (subst r; congruence)). cbv zeta.
  pose proof (frame_count_bounds m pl Hm) as Hn. cbv zeta in Hn.
  pose proof (MaxFrameSize_wf_bounds m Hm). pose proof (varint_bytes_len (len pl)).
  pose proof (frame_count_pos m (Some pl)). unfold later_frames.
  destruct (Z.leb_spec (len pl) (mfs m - 4 - len (varint_bytes (len pl)))).
  - assert (frame_count m (Some pl) = 1) as -> by nia. done.
  - rewrite (proj2 (Z.eqb_neq _ _)) by nia. by rewrite Hrp.
Qed.
