(* ===== verification/Protocol.v ===== *)
(** * The protocol state machine (src/src/protocol.rs, src/src/util.rs)

    Per-channel state, the messages an endpoint creates, and [process_incoming], the parser of
    everything a peer sends. A method with [&mut self] returns the new state beside its result. *)
From S2P Require Import Prelude Lib Varint Header FrameSize OutgoingMessage Multiframe.
From stdpp Require Import options.

Definition UNKNOWN_CHANNEL : ChannelId := ChannelId_new 0.
Definition UNKNOWN_ID : Id := Id_new 0.

(** [util::Index]: an offset tied to the buffer it was computed from. *)
Record Index := mkIndex { index : Z }.
Definition Index_deref (self : Index) : Z := index self.
Definition Index_new (buffer : bytes) (index : Z) : Index := mkIndex index.

(** ** Channels *)

Record Channel := mkChannel {
  incoming_requests : gset Id;
  outgoing_requests : gset Id;
  current_multiframe_receiver : MultiframeReceiver;
  cancellation_allowance : Z;   (* u16 *)
  config : ChannelConfiguration;
  prev_request_id : Z;          (* u16 *)
}.
#[export] Instance Channel_eq_dec : EqDecision Channel.
Proof. solve_decision. Defined.

Definition Channel_new (config : ChannelConfiguration) : Channel := {|
  incoming_requests := ∅; outgoing_requests := ∅;
  current_multiframe_receiver := MultiframeReceiver_default;
  cancellation_allowance := 0; config := config; prev_request_id := 0 |}.

Definition set_incoming (self : Channel) (s : gset Id) : Channel := {|
  incoming_requests := s; outgoing_requests := outgoing_requests self;
  current_multiframe_receiver := current_multiframe_receiver self;
  cancellation_allowance := cancellation_allowance self; config := config self;
  prev_request_id := prev_request_id self |}.
Definition set_outgoing (self : Channel) (s : gset Id) : Channel := {|
  incoming_requests := incoming_requests self; outgoing_requests := s;
  current_multiframe_receiver := current_multiframe_receiver self;
  cancellation_allowance := cancellation_allowance self; config := config self;
  prev_request_id := prev_request_id self |}.
Definition set_receiver (self : Channel) (r : MultiframeReceiver) : Channel := {|
  incoming_requests := incoming_requests self; outgoing_requests := outgoing_requests self;
  current_multiframe_receiver := r;
  cancellation_allowance := cancellation_allowance self; config := config self;
  prev_request_id := prev_request_id self |}.
Definition set_allowance (self : Channel) (n : Z) : Channel := {|
  incoming_requests := incoming_requests self; outgoing_requests := outgoing_requests self;
  current_multiframe_receiver := current_multiframe_receiver self;
  cancellation_allowance := n; config := config self;
  prev_request_id := prev_request_id self |}.
Definition set_prev_request_id (self : Channel) (n : Z) : Channel := {|
  incoming_requests := incoming_requests self; outgoing_requests := outgoing_requests self;
  current_multiframe_receiver := current_multiframe_receiver self;
  cancellation_allowance := cancellation_allowance self; config := config self;
  prev_request_id := n |}.

Definition is_at_max_incoming_requests (self : Channel) : bool :=
  request_limit (config self) <=? hs_len (incoming_requests self).

Definition increment_cancellation_allowance (self : Channel) : exec Channel :=
  if cancellation_allowance self <? request_limit (config self) then
    n ← uadd u16_max (cancellation_allowance self) 1;
    mret (set_allowance self n)
  else mret self.

(** The [while] loop: each turn rules out one more outgoing request. *)
Fixpoint generate_request_id_loop (fuel : nat) (outgoing : gset Id) (candidate : Z) : exec Z :=
  match fuel with
  | O => OutOfFuel
  | S fuel =>
      if hs_contains outgoing (Id_new candidate)
      then generate_request_id_loop fuel outgoing (wrapping_add16 candidate 1)
      else mret candidate
  end.
Definition generate_request_id (self : Channel) : exec (option Id * Channel) :=
  if hs_len (outgoing_requests self) =? u16_max then mret (None, self)
  else
    candidate ← generate_request_id_loop (S (size (outgoing_requests self)))
                  (outgoing_requests self) (wrapping_add16 (prev_request_id self) 1);
    mret (Some (Id_new candidate), set_prev_request_id self candidate).

Definition Channel_allowed_to_send_request (self : Channel) : bool :=
  hs_len (outgoing_requests self) <? request_limit (config self).
Definition Channel_request_limit (self : Channel) : Z := request_limit (config self).

Definition create_unchecked_request (self : Channel) (channel_id : ChannelId) (payload : option bytes)
    : exec (OutgoingMessage * Channel) :=
  '(id, self) ← generate_request_id self;
  let id := default (Id_new 0) id in
  let self := set_outgoing self (hs_insert (outgoing_requests self) id).2 in
  match payload with
  | Some payload =>
      mret (OutgoingMessage_new (Header_new KRequestPl channel_id id) (Some payload), self)
  | None => mret (OutgoingMessage_new (Header_new KRequest channel_id id) None, self)
  end.

Definition create_unchecked_response (channel : ChannelId) (id : Id) (payload : option bytes)
    : OutgoingMessage :=
  match payload with
  | Some payload => OutgoingMessage_new (Header_new KResponsePl channel id) (Some payload)
  | None => OutgoingMessage_new (Header_new KResponse channel id) None
  end.
Definition create_unchecked_request_cancellation (channel : ChannelId) (id : Id) : OutgoingMessage :=
  OutgoingMessage_new (Header_new KCancelReq channel id) None.
Definition create_unchecked_response_cancellation (channel : ChannelId) (id : Id) : OutgoingMessage :=
  OutgoingMessage_new (Header_new KCancelResp channel id) None.

(** ** Results *)

Inductive CompletedRead :=
  | ErrorReceived (header : Header) (data : option bytes)
  | NewRequest (channel : ChannelId) (id : Id) (payload : option bytes)
  | ReceivedResponse (channel : ChannelId) (id : Id) (payload : option bytes)
  | RequestCancellation (channel : ChannelId) (id : Id)
  | ResponseCancellation (channel : ChannelId) (id : Id).

Inductive LocalProtocolViolation :=
  | WouldExceedRequestLimit (limit : Z)
  | InvalidChannel (channel : ChannelId) (channel_count : Z)
  | PayloadExceedsLimit (payload_length limit : Z)
  | ErrorPayloadIsMultiFrame (payload_length max_frame_size : Z).
#[export] Instance CompletedRead_eq_dec : EqDecision CompletedRead.
Proof. solve_decision. Defined.
#[export] Instance LocalProtocolViolation_eq_dec : EqDecision LocalProtocolViolation.
Proof. solve_decision. Defined.

(** ** The protocol and its builder: [N] is the number of channels *)

Record JulietProtocol := mkJulietProtocol {
  channels : list Channel;
  max_frame_size : MaxFrameSize;
}.
#[export] Instance JulietProtocol_eq_dec : EqDecision JulietProtocol.
Proof. solve_decision. Defined.

Record ProtocolBuilder := mkProtocolBuilder {
  pb_channel_config : list ChannelConfiguration;
  pb_max_frame_size : MaxFrameSize;
}.
Definition with_default_channel_config (N : nat) (config : ChannelConfiguration) : ProtocolBuilder :=
  {| pb_channel_config := replicate N config; pb_max_frame_size := MaxFrameSize_DEFAULT |}.
Definition ProtocolBuilder_new (N : nat) : ProtocolBuilder :=
  with_default_channel_config N ChannelConfiguration_new.
Definition ProtocolBuilder_default (N : nat) : ProtocolBuilder := ProtocolBuilder_new N.
Definition channel_config (self : ProtocolBuilder) (channel : ChannelId)
    (config : ChannelConfiguration) : exec ProtocolBuilder :=
  cs ← array_set (pb_channel_config self) (ChannelId_get channel) config;
  mret {| pb_channel_config := cs; pb_max_frame_size := pb_max_frame_size self |}.
Definition ProtocolBuilder_max_frame_size (self : ProtocolBuilder) (max_frame_size : Z)
    : exec ProtocolBuilder :=
  m ← MaxFrameSize_new max_frame_size;
  mret {| pb_channel_config := pb_channel_config self; pb_max_frame_size := m |}.
Definition ProtocolBuilder_build (self : ProtocolBuilder) : JulietProtocol :=
  {| channels := map Channel_new (pb_channel_config self);
     max_frame_size := pb_max_frame_size self |}.
Definition builder (N : nat) (config : ChannelConfiguration) : ProtocolBuilder :=
  {| pb_channel_config := replicate N config; pb_max_frame_size := MaxFrameSize_DEFAULT |}.

Definition N_channels (self : JulietProtocol) : Z := len (channels self).

Definition lookup_channel (self : JulietProtocol) (channel : ChannelId)
    : exec (result Channel LocalProtocolViolation) :=
  if N_channels self <=? chan_raw channel then
    mret (Err (InvalidChannel channel (N_channels self)))
  else c ← array_get (channels self) (chan_raw channel); mret (Ok c).
(** The mutable borrow: what is written back through it is [put_channel]. *)
Definition lookup_channel_mut (self : JulietProtocol) (channel : ChannelId)
    : exec (result Channel LocalProtocolViolation) :=
  if N_channels self <=? chan_raw channel then
    mret (Err (InvalidChannel channel (N_channels self)))
  else c ← array_get (channels self) (chan_raw channel); mret (Ok c).
Definition put_channel (self : JulietProtocol) (channel : ChannelId) (c : Channel) : JulietProtocol :=
  {| channels := <[Z.to_nat (chan_raw channel) := c]> (channels self);
     max_frame_size := max_frame_size self |}.

Definition allowed_to_send_request (self : JulietProtocol) (channel : ChannelId)
    : exec (result bool LocalProtocolViolation) :=
  c ← lookup_channel self channel;
  mret (match c with Ok c => Ok (Channel_allowed_to_send_request c) | Err e => Err e end).

(** ** Creating messages *)

Definition create_request (self : JulietProtocol) (channel : ChannelId) (payload : option bytes)
    : exec (result OutgoingMessage LocalProtocolViolation * JulietProtocol) :=
  chan ← lookup_channel_mut self channel;
  match chan with
  | Err e => mret (Err e, self)
  | Ok chan =>
      let limit := max_request_payload_size (config chan) in
      if match payload with Some payload => limit <? len payload | None => false end then
        mret (Err (PayloadExceedsLimit (len (default [] payload)) limit), self)
      else if negb (Channel_allowed_to_send_request chan) then
        mret (Err (WouldExceedRequestLimit (Channel_request_limit chan)), self)
      else
        '(msg, chan) ← create_unchecked_request chan channel payload;
        mret (Ok msg, put_channel self channel chan)
  end.

Definition create_response (self : JulietProtocol) (channel : ChannelId) (id : Id)
    (payload : option bytes)
    : exec (result (option OutgoingMessage) LocalProtocolViolation * JulietProtocol) :=
  chan ← lookup_channel_mut self channel;
  match chan with
  | Err e => mret (Err e, self)
  | Ok chan =>
      let '(removed, incoming) := hs_remove (incoming_requests chan) id in
      let chan := set_incoming chan incoming in
      let self := put_channel self channel chan in
      if negb removed then mret (Ok None, self)
      else if match payload with
              | Some payload => max_response_payload_size (config chan) <? len payload
              | None => false
              end then
        mret (Err (PayloadExceedsLimit (len (default [] payload))
                     (max_request_payload_size (config chan))), self)
      else mret (Ok (Some (create_unchecked_response channel id payload)), self)
  end.

Definition cancel_request (self : JulietProtocol) (channel : ChannelId) (id : Id)
    : exec (result (option OutgoingMessage) LocalProtocolViolation * JulietProtocol) :=
  chan ← lookup_channel_mut self channel;
  match chan with
  | Err e => mret (Err e, self)
  | Ok chan =>
      if negb (hs_contains (outgoing_requests chan) id) then mret (Ok None, self)
      else mret (Ok (Some (create_unchecked_request_cancellation channel id)), self)
  end.

Definition cancel_response (self : JulietProtocol) (channel : ChannelId) (id : Id)
    : exec (result (option OutgoingMessage) LocalProtocolViolation * JulietProtocol) :=
  chan ← lookup_channel_mut self channel;
  match chan with
  | Err e => mret (Err e, self)
  | Ok chan =>
      let '(removed, incoming) := hs_remove (incoming_requests chan) id in
      let self := put_channel self channel (set_incoming chan incoming) in
      if negb removed then mret (Ok None, self)
      else mret (Ok (Some (create_unchecked_response_cancellation channel id)), self)
  end.

Definition custom_error (self : JulietProtocol) (channel : ChannelId) (id : Id) (payload : bytes)
    : exec (result OutgoingMessage LocalProtocolViolation) :=
  let header := Header_new_error EOther channel id in
  let payload_length := len payload in
  let msg := OutgoingMessage_new header (Some payload) in
  multi ← is_multi_frame msg (max_frame_size self);
  if (multi : bool) then
    mret (Err (ErrorPayloadIsMultiFrame payload_length (mfs (max_frame_size self))))
  else mret (Ok msg).

(** ** Processing incoming data

    A turn of the loop of [process_incoming] ends with a value to return, or with [None]: the
    loop goes on. The handlers below are the arms of its [match]es. *)

Abbreviation Turn S := (exec (option (Outcome CompletedRead OutgoingMessage) * S)).

(** [return e], [Fatal]: nothing follows. *)
Definition return_ {S} (o : Outcome CompletedRead OutgoingMessage) (s : S) : Turn S := mret (Some o, s).

Definition invalid_header_msg : OutgoingMessage :=
  OutgoingMessage_new (Header_new_error EInvalidHeader UNKNOWN_CHANNEL UNKNOWN_ID) None.

(** A received error header. *)
Definition process_error (mfs : MaxFrameSize) (header : Header) (buffer : bytes) : Turn bytes :=
  kind ← error_kind header;
  match kind with
  | EOther =>
      tail ← slice_from buffer Header_SIZE;
      decoded ← decode_varint32 tail;
      match Outcome_map_err (λ _, OutgoingMessage_new (with_err header EBadVarInt) None) decoded with
      | Incomplete n => return_ (Incomplete n) buffer
      | Fatal err => return_ (Fatal err) buffer
      | Success parsed_length =>
          pe ← uadd usize_max Header_SIZE (offset parsed_length);
          let preamble_end := Index_new buffer pe in
          let payload_length := value parsed_length in
          fe ← uadd usize_max (Index_deref preamble_end) payload_length;
          let frame_end := Index_new buffer fe in
          if get_usize mfs <? Index_deref frame_end then
            return_ (err_msg header ESegmentViolation) buffer
          else if len buffer <? Index_deref frame_end then
            missing ← usub (Index_deref frame_end) (len buffer);
            o ← Outcome_incomplete missing;
            return_ o buffer
          else
            buffer ← advance buffer (Index_deref preamble_end);
            '(payload, buffer) ← split_to buffer payload_length;
            return_ (Success (ErrorReceived header (Some payload))) buffer
      end
  | _ =>
      buffer ← advance buffer Header_SIZE;
      return_ (Success (ErrorReceived header None)) buffer
  end.

Definition process_request (header : Header) (channel : Channel) (buffer : bytes)
    : Turn (Channel * bytes) :=
  if is_at_max_incoming_requests channel then
    return_ (err_msg header ERequestLimitExceeded) (channel, buffer)
  else
    let '(inserted, incoming) := hs_insert (incoming_requests channel) (Header_id header) in
    let channel := set_incoming channel incoming in
    if negb inserted then return_ (err_msg header EDuplicateRequest) (channel, buffer)
    else
      channel ← increment_cancellation_allowance channel;
      buffer ← advance buffer Header_SIZE;
      return_ (Success (NewRequest (Header_channel header) (Header_id header) None)) (channel, buffer).

Definition process_response (header : Header) (channel : Channel) (buffer : bytes)
    : Turn (Channel * bytes) :=
  let '(removed, outgoing) := hs_remove (outgoing_requests channel) (Header_id header) in
  let channel := set_outgoing channel outgoing in
  if negb removed then return_ (err_msg header EFictitiousRequest) (channel, buffer)
  else
    buffer ← advance buffer Header_SIZE;
    return_ (Success (ReceivedResponse (Header_channel header) (Header_id header) None))
      (channel, buffer).

(** Once [accept] has consumed a frame of a request with a payload. *)
Definition record_request_frame (header : Header) (channel : Channel) (buffer : bytes)
    (completed_frame : CompletedFrame) : Turn (Channel * bytes) :=
  let finish (channel : Channel) : Turn (Channel * bytes) :=
    match into_completed_payload completed_frame with
    | Some payload =>
        return_ (Success (NewRequest (Header_channel header) (Header_id header) (Some payload)))
          (channel, buffer)
    | None => mret (None, (channel, buffer))
    end in
  if was_new completed_frame then
    if is_at_max_incoming_requests channel then
      return_ (err_msg header ERequestLimitExceeded) (channel, buffer)
    else
      let '(inserted, incoming) := hs_insert (incoming_requests channel) (Header_id header) in
      let channel := set_incoming channel incoming in
      if negb inserted then return_ (err_msg header EDuplicateRequest) (channel, buffer)
      else
        channel ← increment_cancellation_allowance channel;
        finish channel
  else finish channel.

Definition process_request_pl (mfs : MaxFrameSize) (header : Header) (channel : Channel)
    (buffer : bytes) : Turn (Channel * bytes) :=
  '(accepted, (receiver, buffer)) ←
    accept (current_multiframe_receiver channel) header buffer mfs
      (max_request_payload_size (config channel)) ERequestTooLarge;
  let channel := set_receiver channel receiver in
  match accepted with
  | Incomplete n => return_ (Incomplete n) (channel, buffer)
  | Fatal err => return_ (Fatal err) (channel, buffer)
  | Success completed_frame => record_request_frame header channel buffer completed_frame
  end.

Definition process_response_pl (mfs : MaxFrameSize) (header : Header) (channel : Channel)
    (buffer : bytes) : Turn (Channel * bytes) :=
  if negb (hs_contains (outgoing_requests channel) (Header_id header)) then
    return_ (err_msg header EFictitiousRequest) (channel, buffer)
  else
    '(accepted, (receiver, buffer)) ←
      accept (current_multiframe_receiver channel) header buffer mfs
        (max_response_payload_size (config channel)) EResponseTooLarge;
    let channel := set_receiver channel receiver in
    match accepted with
    | Incomplete n => return_ (Incomplete n) (channel, buffer)
    | Fatal err => return_ (Fatal err) (channel, buffer)
    | Success multiframe_outcome =>
        match into_completed_payload multiframe_outcome with
        | Some payload =>
            let channel :=
              set_outgoing channel (hs_remove (outgoing_requests channel) (Header_id header)).2 in
            return_ (Success (ReceivedResponse (Header_channel header) (Header_id header) (Some payload)))
              (channel, buffer)
        | None => mret (None, (channel, buffer))
        end
    end.

(** A transfer in progress under the cancelled id is dropped with its tracked request. *)
Definition cancel_transfer (header : Header) (channel : Channel) : Channel :=
  match in_progress_header (current_multiframe_receiver channel) with
  | Some in_progress_header =>
      if bool_decide (Header_id in_progress_header = Header_id header) then
        let channel := set_receiver channel MultiframeReceiver_default in
        set_incoming channel (hs_remove (incoming_requests channel) (Header_id header)).2
      else channel
  | None => channel
  end.
Definition process_cancel_req (header : Header) (channel : Channel) (buffer : bytes)
    : Turn (Channel * bytes) :=
  if cancellation_allowance channel =? 0 then
    return_ (err_msg header ECancellationLimitExceeded) (channel, buffer)
  else
    allowance ← usub (cancellation_allowance channel) 1;
    let channel := set_allowance channel allowance in
    buffer ← advance buffer Header_SIZE;
    let channel := cancel_transfer header channel in
    if negb (hs_contains (incoming_requests channel) (Header_id header)) then
      mret (None, (channel, buffer))
    else
      return_ (Success (RequestCancellation (Header_channel header) (Header_id header)))
        (channel, buffer).

Definition process_cancel_resp (header : Header) (channel : Channel) (buffer : bytes)
    : Turn (Channel * bytes) :=
  let '(removed, outgoing) := hs_remove (outgoing_requests channel) (Header_id header) in
  let channel := set_outgoing channel outgoing in
  if (removed : bool) then
    buffer ← advance buffer Header_SIZE;
    return_ (Success (ResponseCancellation (Header_channel header) (Header_id header)))
      (channel, buffer)
  else return_ (err_msg header EFictitiousCancel) (channel, buffer).

(** [match header.kind()]. *)
Definition process_frame (mfs : MaxFrameSize) (header : Header) (channel : Channel) (buffer : bytes)
    : Turn (Channel * bytes) :=
  kind ← kind header;
  match kind with
  | KRequest => process_request header channel buffer
  | KResponse => process_response header channel buffer
  | KRequestPl => process_request_pl mfs header channel buffer
  | KResponsePl => process_response_pl mfs header channel buffer
  | KCancelReq => process_cancel_req header channel buffer
  | KCancelResp => process_cancel_resp header channel buffer
  end.

(** One turn of the loop. *)
Definition process_turn (self : JulietProtocol) (buffer : bytes) : Turn (JulietProtocol * bytes) :=
  if len buffer <? Header_SIZE then
    missing ← usub Header_SIZE (len buffer);
    o ← Outcome_incomplete missing;
    return_ o (self, buffer)
  else
    raw ← header_raw buffer;
    match Header_parse raw with
    | None => return_ (Fatal invalid_header_msg) (self, buffer)
    | Some header =>
        if is_error header then
          '(r, buffer) ← process_error (max_frame_size self) header buffer;
          mret (r, (self, buffer))
        else
          let idx := Header_channel header in
          match channels self !! Z.to_nat (ChannelId_get idx) with
          | None => return_ (err_msg header EInvalidChannel) (self, buffer)
          | Some channel =>
              '(r, (channel, buffer)) ← process_frame (max_frame_size self) header channel buffer;
              mret (r, (put_channel self idx channel, buffer))
          end
    end.

Fixpoint process_incoming_loop (fuel : nat) (self : JulietProtocol) (buffer : bytes)
    : exec (Outcome CompletedRead OutgoingMessage * (JulietProtocol * bytes)) :=
  match fuel with
  | O => OutOfFuel
  | S fuel =>
      '(r, (self, buffer)) ← process_turn self buffer;
      match r with
      | Some o => mret (o, (self, buffer))
      | None => process_incoming_loop fuel self buffer
      end
  end.
(** A turn that does not return consumes a frame. *)
Definition process_incoming (self : JulietProtocol) (buffer : bytes)
    : exec (Outcome CompletedRead OutgoingMessage * (JulietProtocol * bytes)) :=
  process_incoming_loop (S (length buffer)) self buffer.
