(* ===== verification/ProtocolInv.v ===== *)
(** * Processing incoming data never panics, terminates, and keeps the protocol's limits

    The invariant of a channel and of a protocol, that a turn of [process_incoming]'s loop keeps
    it, consumes whole frames and does not depend on how the bytes arrive. *)
From S2P Require Import Prelude Lib Varint Header FrameSize OutgoingMessage Multiframe MultiframeSpec Protocol.
From stdpp Require Import options.

(** ** Sets *)

Lemma hs_len_nonneg `{Countable K} (s : gset K) : 0 ≤ hs_len s.
Proof. unfold hs_len. lia. Qed.
Lemma hs_len_insert `{Countable K} (s : gset K) k : k ∉ s → hs_len ({[k]} ∪ s) = hs_len s + 1.
Proof.
  intros Hk. unfold hs_len. rewrite size_union by set_solver. rewrite size_singleton. lia.
Qed.
Lemma hs_len_remove `{Countable K} (s : gset K) k : hs_len (s ∖ {[k]}) ≤ hs_len s.
Proof. unfold hs_len. apply inj_le, subseteq_size. set_solver. Qed.
Lemma hs_len_remove_in `{Countable K} (s : gset K) k : k ∈ s → hs_len (s ∖ {[k]}) = hs_len s - 1.
Proof.
  intros Hk. assert (s = {[k]} ∪ (s ∖ {[k]})) as Hs by by apply union_difference_singleton_L.
  rewrite Hs at 2. rewrite hs_len_insert by set_solver. lia.
Qed.

(** ** The invariant *)

(** A transfer in progress is that of a request or a response with a payload, announced within
    the channel's limit for it. *)
Definition transfer_wf (cfg : ChannelConfiguration) (r : MultiframeReceiver) : Prop :=
  match r with
  | Ready => True
  | InProgress h _ total => Header_wf h ∧
      (kind h = Done KRequestPl ∧ is_error h = false ∧ total ≤ max_request_payload_size cfg ∨
       kind h = Done KResponsePl ∧ is_error h = false ∧ total ≤ max_response_payload_size cfg)
  end.

Record channel_wf (c : Channel) : Prop := {
  cw_config : ChannelConfiguration_wf (config c);
  cw_incoming : hs_len (incoming_requests c) ≤ request_limit (config c);
  cw_outgoing : hs_len (outgoing_requests c) ≤ request_limit (config c);
  cw_outgoing_ids : set_Forall Id_wf (outgoing_requests c);
  cw_incoming_ids : set_Forall Id_wf (incoming_requests c);
  cw_allowance : 0 ≤ cancellation_allowance c ≤ request_limit (config c);
  cw_receiver : receiver_wf (current_multiframe_receiver c);
  cw_transfer : transfer_wf (config c) (current_multiframe_receiver c);
  cw_prev : u16 (prev_request_id c);
}.

Record protocol_wf (p : JulietProtocol) : Prop := {
  pw_channels : Forall channel_wf (channels p);
  pw_count : len (channels p) ≤ 256;
  pw_mfs : MaxFrameSize_wf (max_frame_size p);
}.

(** The same channels with the same configurations. *)
Definition same_config (p p' : JulietProtocol) : Prop :=
  max_frame_size p' = max_frame_size p ∧ map config (channels p') = map config (channels p).

Lemma Channel_new_wf cfg : ChannelConfiguration_wf cfg → channel_wf (Channel_new cfg).
Proof.
  intros Hc. pose proof Hc as (Hl & _). constructor; cbn; try done;
    try (change (hs_len (∅ : gset Id)) with 0; ulia); try apply set_Forall_empty; ulia.
Qed.
Lemma build_wf b : Forall ChannelConfiguration_wf (pb_channel_config b) →
  len (pb_channel_config b) ≤ 256 → MaxFrameSize_wf (pb_max_frame_size b) →
  protocol_wf (ProtocolBuilder_build b).
Proof.
  intros Hc Hn Hm. constructor; cbn; [|unfold len in *; rewrite length_map; lia|done].
  apply Forall_map. eapply Forall_impl; [done|]. intros; by apply Channel_new_wf.
Qed.

Lemma put_channel_same_config p ch c c' :
  channels p !! Z.to_nat (chan_raw ch) = Some c → config c' = config c →
  same_config p (put_channel p ch c').
Proof.
  intros Hl Hc. split; [done|]. cbn [put_channel channels]. rewrite list_fmap_insert, Hc.
  apply list_insert_id. by rewrite list_lookup_fmap, Hl.
Qed.
Lemma put_channel_wf p ch c' : protocol_wf p → channel_wf c' → protocol_wf (put_channel p ch c').
Proof.
  intros [Hc Hn Hm] Hc'. constructor; cbn [put_channel channels max_frame_size]; [|unfold len in *; rewrite length_insert; lia|done].
  by apply Forall_insert.
Qed.
Lemma put_channel_id p ch c : channels p !! Z.to_nat (chan_raw ch) = Some c → put_channel p ch c = p.
Proof. intros Hl. unfold put_channel. rewrite list_insert_id by done. by destruct p. Qed.
Lemma same_config_refl p : same_config p p.
Proof. done. Qed.
Lemma same_config_trans p1 p2 p3 : same_config p1 p2 → same_config p2 p3 → same_config p1 p3.
Proof. intros [H1 H2] [H3 H4]. split; congruence. Qed.

(** ** What a turn of the loop promises

    [turn_ok f s0 wf m buffer]: from the state [s0] the handler [f] does not panic on [buffer],
    its new state is [wf], and how the bytes arrive does not matter: given more input it gives
    the same answer and leaves the additional bytes, and while it is [Incomplete] it has changed
    nothing and asks for exactly the bytes still missing. *)
Definition error_message (e : OutgoingMessage) : Prop :=
  om_payload e = None ∧ is_error (om_header e) = true ∧
  ∃ k, k ≠ EOther ∧ error_kind (om_header e) = Done k.

Definition turn_ok {S} (f : bytes → Turn (S * bytes)) (s0 : S) (wf : S → Prop) (m : MaxFrameSize)
    (buffer : bytes) : Prop :=
  ∃ r s b, f buffer = Done (r, (s, b)) ∧ wf s ∧
  match r with
  | Some (Incomplete n) => s = s0 ∧ b = buffer ∧ 0 < n ≤ mfs m ∧
      ∀ extra, Forall u8 extra → len extra < n →
        f (buffer ++ extra) = Done (Some (Incomplete (n - len extra)), (s0, buffer ++ extra))
  | Some (Fatal e) => error_message e ∧
      (∃ frame, buffer = frame ++ b ∧ len frame ≤ mfs m) ∧
      ∀ extra, Forall u8 extra → f (buffer ++ extra) = Done (r, (s, b ++ extra))
  | _ => (∃ frame, buffer = frame ++ b ∧ 4 ≤ len frame ≤ mfs m) ∧
      ∀ extra, Forall u8 extra → f (buffer ++ extra) = Done (r, (s, b ++ extra))
  end.

Lemma err_msg_error h k : k ≠ EOther → error_message (OutgoingMessage_new (with_err h k) None).
Proof. intros Hk. split_and!; [done|by destruct k|]. exists k. split; [done|]. apply error_kind_new_error. Qed.

(** A handler that answers [Fatal] before touching the buffer. *)
Lemma turn_ok_fatal {S} (f : bytes → Turn (S * bytes)) s0 (wf : S → Prop) m buffer e s :
  MaxFrameSize_wf m → (∀ b, f b = return_ (Fatal e) (s, b)) → wf s → error_message e →
  turn_ok f s0 wf m buffer.
Proof.
  intros Hm Hf Hs He. exists (Some (Fatal e)), s, buffer. rewrite Hf. split; [done|]. split; [done|].
  split; [done|]. split; [|by intros; rewrite Hf].
  exists []. split; [done|]. change (len (@nil Z)) with 0. apply MaxFrameSize_wf_bounds in Hm. lia.
Qed.

(** A handler that consumes the header alone. *)
Lemma turn_ok_header {S} (f : bytes → Turn (S * bytes)) s0 (wf : S → Prop) m buffer r s :
  MaxFrameSize_wf m → (∀ b, f b = (b ← advance b Header_SIZE; mret (r, (s, b)))) →
  match r with Some (Incomplete _) | Some (Fatal _) => False | _ => True end →
  wf s → 4 ≤ len buffer → turn_ok f s0 wf m buffer.
Proof.
  intros Hm Hf Hr Hs Hl. exists r, s, (drop (Z.to_nat 4) buffer).
  assert (∀ extra, f (buffer ++ extra) = Done (r, (s, drop (Z.to_nat 4) buffer ++ extra))) as Hex.
  { intros extra. pose proof (len_nonneg extra). rewrite Hf. unfold Header_SIZE.
    rewrite advance_Done by (rewrite len_app; lia). rewrite bind_Done, drop_app_lt by lia. done. }
  split; [by rewrite <- (app_nil_r buffer), Hex, !app_nil_r|]. split; [done|].
  assert (∃ frame, buffer = frame ++ drop (Z.to_nat 4) buffer ∧ 4 ≤ len frame ≤ mfs m) as Hfr.
  { exists (take (Z.to_nat 4) buffer). rewrite take_drop, len_take by lia.
    apply MaxFrameSize_wf_bounds in Hm. split; [done|lia]. }
  destruct r as [[n|e|c]|]; [done..| |]; split; auto.
Qed.

(** ** The handlers keep the promise *)

Definition channel_ok (c c' : Channel) : Prop := channel_wf c' ∧ config c' = config c.

Lemma channel_ok_refl c : channel_wf c → channel_ok c c.
Proof. done. Qed.

Lemma set_outgoing_remove_wf c id : channel_wf c →
  channel_ok c (set_outgoing c (outgoing_requests c ∖ {[id]})).
Proof.
  intros [Hcfg Hin Hout Hoids Hiids Hall Hrec Htr Hprev]. split; [|done].
  constructor; cbn; try done.
  - pose proof (hs_len_remove (outgoing_requests c) id). lia.
  - intros x Hx. apply Hoids. set_solver.
Qed.
Lemma set_incoming_remove_wf c id : channel_wf c →
  channel_ok c (set_incoming c (incoming_requests c ∖ {[id]})).
Proof.
  intros [Hcfg Hin Hout Hoids Hiids Hall Hrec Htr Hprev]. split; [|done].
  constructor; cbn; try done.
  - pose proof (hs_len_remove (incoming_requests c) id). lia.
  - intros x Hx. apply Hiids. set_solver.
Qed.
Lemma set_incoming_insert_wf c id : channel_wf c → Id_wf id →
  is_at_max_incoming_requests c = false → channel_ok c (set_incoming c ({[id]} ∪ incoming_requests c)).
Proof.
  intros [Hcfg Hin Hout Hoids Hiids Hall Hrec Htr Hprev] Hid Hmax. split; [|done].
  unfold is_at_max_incoming_requests in Hmax. apply Z.leb_gt in Hmax.
  constructor; cbn; try done.
  - destruct (decide (id ∈ incoming_requests c)).
    + assert ({[id]} ∪ incoming_requests c = incoming_requests c) as -> by set_solver. done.
    + rewrite hs_len_insert by done. lia.
  - intros x Hx. destruct (decide (x = id)) as [->|]; [done|]. apply Hiids. set_solver.
Qed.
Lemma set_receiver_wf c r : channel_wf c → receiver_wf r → transfer_wf (config c) r →
  channel_ok c (set_receiver c r).
Proof. intros [] ? ?. split; [|done]. by constructor. Qed.
Lemma set_allowance_wf c n : channel_wf c → 0 ≤ n ≤ request_limit (config c) →
  channel_ok c (set_allowance c n).
Proof. intros [] ?. split; [|done]. by constructor. Qed.

Lemma channel_ok_trans c1 c2 c3 : channel_ok c1 c2 → channel_ok c2 c3 → channel_ok c1 c3.
Proof. intros [_ H] [H1 H2]. split; [done|congruence]. Qed.

Lemma increment_cancellation_allowance_Done c : channel_wf c →
  increment_cancellation_allowance c
  = Done (set_allowance c (Z.min (cancellation_allowance c + 1) (request_limit (config c)))).
Proof.
  intros [[Hl _] Hin Hout Hoids Hiids Hall Hrec Htr Hprev]. unfold increment_cancellation_allowance.
  destruct (Z.ltb_spec (cancellation_allowance c) (request_limit (config c))).
  - rewrite uadd_Done by ulia. rewrite bind_Done. by rewrite Z.min_l by lia.
  - rewrite Z.min_r by lia. replace (request_limit (config c)) with (cancellation_allowance c) by lia.
    by destruct c.
Qed.
Lemma increment_wf c : channel_wf c →
  channel_ok c (set_allowance c (Z.min (cancellation_allowance c + 1) (request_limit (config c)))).
Proof. intros Hc. pose proof (cw_allowance c Hc). apply set_allowance_wf; [done|lia]. Qed.

Lemma Header_id_wf h : Header_wf h → Id_wf (Header_id h).
Proof. intros [(k & c & i & -> & _ & Hi)|(k & c & i & -> & _ & Hi)]; by autorewrite with exec. Qed.

Lemma process_request_ok m h c buffer : MaxFrameSize_wf m → Header_wf h → channel_wf c → 4 ≤ len buffer →
  turn_ok (process_request h c) c (channel_ok c) m buffer.
Proof.
  intros Hm Hh Hc Hl. unfold process_request.
  destruct (is_at_max_incoming_requests c) eqn:Hmax.
  { by apply (turn_ok_fatal _ _ _ _ _ (OutgoingMessage_new (with_err h ERequestLimitExceeded) None) c); try apply err_msg_error. }
  unfold hs_insert. case_bool_decide as Hid; cbn [negb].
  - eapply (turn_ok_header _ _ _ _ _ (Some (Success _))); [done| |done| |done].
    { intros b. pose proof (set_incoming_insert_wf c (Header_id h) Hc (Header_id_wf h Hh) Hmax) as [Hc' _].
      rewrite increment_cancellation_allowance_Done by done. rewrite bind_Done. reflexivity. }
    eapply channel_ok_trans; [by apply set_incoming_insert_wf; [|apply Header_id_wf|]|].
    apply increment_wf. by apply set_incoming_insert_wf; [|apply Header_id_wf|].
  - apply (turn_ok_fatal _ _ _ _ _ (OutgoingMessage_new (with_err h EDuplicateRequest) None)
      (set_incoming c ({[Header_id h]} ∪ incoming_requests c))); [done..| |by apply err_msg_error].
    by apply set_incoming_insert_wf; [|apply Header_id_wf|].
Qed.

Lemma process_response_ok m h c buffer : MaxFrameSize_wf m → channel_wf c → 4 ≤ len buffer →
  turn_ok (process_response h c) c (channel_ok c) m buffer.
Proof.
  intros Hm Hc Hl. unfold process_response, hs_remove. case_bool_decide; cbn [negb].
  - eapply (turn_ok_header _ _ _ _ _ (Some (Success _))); [done|intros; reflexivity|done| |done].
    by apply set_outgoing_remove_wf.
  - eapply (turn_ok_fatal _ _ _ _ _ _ _); [done|intros; reflexivity| |by apply err_msg_error].
    by apply set_outgoing_remove_wf.
Qed.

Lemma process_cancel_resp_ok m h c buffer : MaxFrameSize_wf m → channel_wf c → 4 ≤ len buffer →
  turn_ok (process_cancel_resp h c) c (channel_ok c) m buffer.
Proof.
  intros Hm Hc Hl. unfold process_cancel_resp, hs_remove. case_bool_decide.
  - eapply (turn_ok_header _ _ _ _ _ (Some (Success _))); [done|intros; reflexivity|done| |done].
    by apply set_outgoing_remove_wf.
  - eapply (turn_ok_fatal _ _ _ _ _ _ _); [done|intros; reflexivity| |by apply err_msg_error].
    by apply set_outgoing_remove_wf.
Qed.

Lemma cancel_transfer_wf h c : channel_wf c → channel_ok c (cancel_transfer h c).
Proof.
  intros Hc. unfold cancel_transfer. destruct (in_progress_header _); [|done].
  case_bool_decide; [|done]. eapply channel_ok_trans; [by apply (set_receiver_wf c Ready)|].
  apply (set_incoming_remove_wf (set_receiver c Ready)). by apply set_receiver_wf.
Qed.

Lemma process_cancel_req_ok m h c buffer : MaxFrameSize_wf m → channel_wf c → 4 ≤ len buffer →
  turn_ok (process_cancel_req h c) c (channel_ok c) m buffer.
Proof.
  intros Hm Hc Hl. unfold process_cancel_req. pose proof (cw_allowance c Hc) as Ha.
  destruct (Z.eqb_spec (cancellation_allowance c) 0).
  { eapply (turn_ok_fatal _ _ _ _ _ _ _); [done|intros; reflexivity|done|by apply err_msg_error]. }
  assert (channel_ok c (cancel_transfer h (set_allowance c (cancellation_allowance c - 1)))) as Hok.
  { eapply channel_ok_trans; [apply (set_allowance_wf c (cancellation_allowance c - 1)); [done|lia]|].
    apply cancel_transfer_wf. apply set_allowance_wf; [done|lia]. }
  set (c' := cancel_transfer h _) in *.
  apply (turn_ok_header _ _ _ _ _ (if negb (hs_contains (incoming_requests c') (Header_id h)) then None
    else Some (Success (RequestCancellation (Header_channel h) (Header_id h)))) c'); try done.
  - intros b. rewrite usub_Done by lia. rewrite bind_Done. apply bind_ext. intros b' _. fold c'.
    by destruct (negb _).
  - by destruct (negb _).
Qed.

(** What follows [accept] does not look at the buffer. *)
Definition final_turn (r : option (Outcome CompletedRead OutgoingMessage)) : Prop :=
  match r with
  | Some (Incomplete _) => False
  | Some (Fatal e) => error_message e
  | _ => True
  end.

Lemma record_request_frame_ok h c completed : Header_wf h → channel_wf c →
  ∃ r s, (∀ b, record_request_frame h c b completed = Done (r, (s, b))) ∧ channel_ok c s ∧ final_turn r.
Proof.
  intros Hh Hc. unfold record_request_frame.
  assert (∀ c', channel_ok c c' → ∃ r s,
    (∀ b, (match into_completed_payload completed with
     | Some payload => return_ (Success (NewRequest (Header_channel h) (Header_id h) (Some payload))) (c', b)
     | None => mret (None, (c', b)) end : Turn (Channel * bytes)) = Done (r, (s, b))) ∧ channel_ok c s ∧ final_turn r) as Hfin.
  { intros c' Hc'. destruct (into_completed_payload completed); do 2 eexists; done. }
  destruct (was_new completed); [|by apply Hfin].
  destruct (is_at_max_incoming_requests c) eqn:Hmax.
  { do 2 eexists. split; [done|]. split; [done|]. by apply err_msg_error. }
  unfold hs_insert. case_bool_decide; cbn [negb].
  - pose proof (set_incoming_insert_wf c (Header_id h) Hc (Header_id_wf h Hh) Hmax) as Hok.
    destruct (Hfin (set_allowance (set_incoming c ({[Header_id h]} ∪ incoming_requests c))
      (Z.min (cancellation_allowance c + 1) (request_limit (config c))))) as (r & s & Hr & Hs).
    { eapply channel_ok_trans; [apply Hok|]. apply (increment_wf (set_incoming c _)). apply Hok. }
    exists r, s. split; [|done]. intros b.
    rewrite increment_cancellation_allowance_Done by apply Hok. rewrite bind_Done. apply Hr.
  - do 2 eexists. split; [done|]. split; [|by apply err_msg_error].
    by apply set_incoming_insert_wf; [|apply Header_id_wf|].
Qed.

Lemma set_receiver_id c : set_receiver c (current_multiframe_receiver c) = c.
Proof. by destruct c. Qed.

(** The receiver after a call keeps the channel's invariant. *)
Lemma accept_transfer_wf cfg r r' h max completed : Header_wf h →
  transfer_wf cfg r → accept_effect r r' h max completed →
  is_error h = false →
  (kind h = Done KRequestPl ∧ max = max_request_payload_size cfg ∨
   kind h = Done KResponsePl ∧ max = max_response_payload_size cfg) →
  transfer_wf cfg r'.
Proof.
  intros Hh Hr He Herr Hk. destruct completed; cbn [accept_effect] in He.
  - destruct He as (_ & p & t & -> & Ht & _). split; [done|].
    destruct Hk as [[Hk ->]|[Hk ->]]; [left|right]; (split; [done|]; split; [done|lia]).
  - destruct He as (p & p' & t & -> & -> & _). done.
  - by destruct He as [-> _].
  - by destruct He as (p & t & _ & -> & _).
Qed.

(** A handler that is a call of [accept] and a continuation that does not look at the buffer. *)
Lemma turn_ok_accept m h c buffer max k (cont : CompletedFrame → Channel → bytes → Turn (Channel * bytes)) :
  MaxFrameSize_wf m → Header_wf h → channel_wf c → Forall u8 buffer → 4 ≤ len buffer → k ≠ EOther →
  is_error h = false →
  (kind h = Done KRequestPl ∧ max = max_request_payload_size (config c) ∨
   kind h = Done KResponsePl ∧ max = max_response_payload_size (config c)) →
  (∀ completed c', channel_ok c c' → ∃ r s, (∀ b, cont completed c' b = Done (r, (s, b))) ∧
     channel_ok c s ∧ final_turn r) →
  turn_ok (λ buffer,
    '(accepted, (receiver, buffer)) ← accept (current_multiframe_receiver c) h buffer m max k;
    let channel := set_receiver c receiver in
    match accepted with
    | Incomplete n => return_ (Incomplete n) (channel, buffer)
    | Fatal err => return_ (Fatal err) (channel, buffer)
    | Success completed => cont completed channel buffer
    end) c (channel_ok c) m buffer.
Proof.
  intros Hm Hh Hc Hb Hl Hk Herr Hkind Hcont. set (r := current_multiframe_receiver c).
  assert (receiver_wf r) as Hr by apply Hc.
  assert (∀ extra, Forall u8 extra → accept r h (buffer ++ extra) m max k
    = Done (accept_spec r h (buffer ++ extra) m max k)) as Hacc.
  { intros extra He. apply accept_Done; [done..|by apply Forall_app|].
    rewrite len_app. pose proof (len_nonneg extra). lia. }
  pose proof (accept_spec_effect r h buffer m max k Hm Hr Hb Hl) as Heff.
  assert (∀ extra, _) as Happ by exact (λ extra, accept_spec_app r h buffer extra m max k Hm Hr Hb Hl).
  pose proof (Hacc []) as Hacc0. rewrite app_nil_r in Hacc0. unfold turn_ok.
  rewrite Hacc0, bind_Done by constructor.
  destruct (accept_spec r h buffer m max k) as [[n|e|completed] [r' b']].
  - destruct Heff as (Hn & -> & ->). subst r. rewrite set_receiver_id.
    do 3 eexists. split; [done|]. split; [done|]. cbn. split_and!; [done..|lia|lia|].
    intros extra He Hlt. rewrite Hacc, Happ, bind_Done by done. by rewrite set_receiver_id.
  - destruct Heff as (-> & -> & (k' & Hk' & ->)). subst r.
    do 3 eexists. split; [done|]. rewrite set_receiver_id. split; [done|]. cbn.
    split; [apply err_msg_error; intros ->; set_solver|]. split.
    + exists []. split; [done|]. apply MaxFrameSize_wf_bounds in Hm. change (len (@nil Z)) with 0. lia.
    + intros extra He. rewrite Hacc, Happ, bind_Done by done. by rewrite set_receiver_id.
  - destruct Heff as (Heff & frame & -> & Hf).
    assert (receiver_wf r') as Hr'.
    { destruct (accept_safe r h (frame ++ b') m max k Hm Hr Hb Hl) as (o & r2 & b2 & Ha & Hr2 & _).
      rewrite Hacc0 in Ha by constructor. by injection Ha as <- <- <-. }
    destruct (Hcont completed (set_receiver c r')) as (res & s & Hres & Hs & Hfin).
    { apply set_receiver_wf; [done..|]. eapply accept_transfer_wf; try done. apply Hc. }
    exists res, s, b'. rewrite Hres. split; [done|]. split; [done|].
    destruct res as [[n|e|cr]|]; [done|..]; cbn in Hfin; try (split; [done|]); (split;
      [exists frame; split; [done|lia]|]); intros extra He;
      rewrite Hacc, Happ, bind_Done by done; apply Hres.
Qed.

Lemma process_request_pl_ok m h c buffer : MaxFrameSize_wf m → Header_wf h → channel_wf c →
  Forall u8 buffer → 4 ≤ len buffer → is_error h = false → kind h = Done KRequestPl →
  turn_ok (process_request_pl m h c) c (channel_ok c) m buffer.
Proof.
  intros Hm Hh Hc Hb Hl Herr Hk.
  apply (turn_ok_accept m h c buffer _ ERequestTooLarge (λ cf c b, record_request_frame h c b cf));
    try done; [by left|].
  intros cf c' Hc'. destruct (record_request_frame_ok h c' cf) as (r & s & Hr & Hs & Hf); [done|apply Hc'|].
  exists r, s. split; [done|]. split; [by eapply channel_ok_trans|done].
Qed.

Lemma process_response_pl_ok m h c buffer : MaxFrameSize_wf m → Header_wf h → channel_wf c →
  Forall u8 buffer → 4 ≤ len buffer → is_error h = false → kind h = Done KResponsePl →
  turn_ok (process_response_pl m h c) c (channel_ok c) m buffer.
Proof.
  intros Hm Hh Hc Hb Hl Herr Hk. unfold process_response_pl.
  destruct (negb (hs_contains (outgoing_requests c) (Header_id h))).
  { eapply (turn_ok_fatal _ _ _ _ _ _ _); [done|intros; reflexivity|done|by apply err_msg_error]. }
  apply (turn_ok_accept m h c buffer _ EResponseTooLarge
    (λ cf c b, match into_completed_payload cf with
     | Some payload =>
         return_ (Success (ReceivedResponse (Header_channel h) (Header_id h) (Some payload)))
           (set_outgoing c (hs_remove (outgoing_requests c) (Header_id h)).2, b)
     | None => mret (None, (c, b)) end)); try done; [by right|].
  intros cf c' Hc'. destruct (into_completed_payload cf); [|by do 2 eexists].
  do 2 eexists. split; [done|]. split; [|done].
  eapply channel_ok_trans; [done|]. apply set_outgoing_remove_wf. apply Hc'.
Qed.

(** A received error: the closed form of the handler. *)
Definition process_error_spec (m : MaxFrameSize) (h : Header) (k : ErrorKind) (buffer : bytes)
    : option (Outcome CompletedRead OutgoingMessage) * bytes :=
  if decide (k = EOther) then
    match varint_parse 4 (drop 4 buffer) with
    | Incomplete n => (Some (Incomplete n), buffer)
    | Fatal _ => (Some (err_msg h EBadVarInt), buffer)
    | Success p =>
        let pre := 4 + offset p in
        if mfs m <? pre + value p then (Some (err_msg h ESegmentViolation), buffer)
        else if len buffer <? pre + value p then (Some (Incomplete (pre + value p - len buffer)), buffer)
        else (Some (Success (ErrorReceived h
                (Some (take (Z.to_nat (value p)) (drop (Z.to_nat pre) buffer))))),
              drop (Z.to_nat (pre + value p)) buffer)
    end
  else (Some (Success (ErrorReceived h None)), drop 4 buffer).

Lemma process_error_Done m h k buffer : MaxFrameSize_wf m → error_kind h = Done k →
  Forall u8 buffer → 4 ≤ len buffer →
  process_error m h buffer = Done (process_error_spec m h k buffer).
Proof.
  intros Hm Hk Hb Hl. pose proof (MaxFrameSize_wf_bounds m Hm).
  unfold process_error, process_error_spec, Header_SIZE, get_usize. rewrite Hk, bind_Done.
  destruct (decide (k = EOther)) as [->|Hne].
  2:{ destruct k; try done; rewrite advance_Done by lia; done. }
  rewrite slice_from_Done, bind_Done by lia. change (Z.to_nat 4) with 4%nat.
  rewrite decode_varint32_spec, bind_Done by by apply Forall_drop.
  destruct (varint_parse 4 (drop 4 buffer)) as [n|e|p] eqn:Hp; [done..|]. cbn [Outcome_map_err].
  apply decode_bounds in Hp as (Hv & Ho & Hpl); [|by apply Forall_drop].
  rewrite uadd_Done by ulia. rewrite bind_Done. cbn [Index_new Index_deref index].
  rewrite uadd_Done by ulia. rewrite bind_Done.
  destruct (Z.ltb_spec (mfs m) (4 + offset p + value p)); [done|].
  destruct (Z.ltb_spec (len buffer) (4 + offset p + value p)).
  - rewrite usub_Done by lia. rewrite bind_Done, Outcome_incomplete_Done by ulia. done.
  - assert (0 ≤ value p) by ulia. rewrite advance_Done, bind_Done by lia.
    rewrite split_to_Done, bind_Done by (rewrite len_drop by lia; lia).
    by rewrite drop_drop_Z by lia.
Qed.

Lemma process_error_spec_app m h k buffer : MaxFrameSize_wf m → Forall u8 buffer → 4 ≤ len buffer →
  match process_error_spec m h k buffer with
  | (Some (Incomplete n), b) => b = buffer ∧ 0 < n ≤ mfs m ∧ ∀ extra, len extra < n →
      process_error_spec m h k (buffer ++ extra) = (Some (Incomplete (n - len extra)), buffer ++ extra)
  | (Some (Fatal e), b) => error_message e ∧ b = buffer ∧
      ∀ extra, process_error_spec m h k (buffer ++ extra) = (Some (Fatal e), buffer ++ extra)
  | (r, b) => (∃ frame, buffer = frame ++ b ∧ 4 ≤ len frame ≤ mfs m) ∧
      ∀ extra, process_error_spec m h k (buffer ++ extra) = (r, b ++ extra)
  end.
Proof.
  intros Hm Hb Hl. pose proof (MaxFrameSize_wf_bounds m Hm). unfold process_error_spec.
  change 4%nat with (Z.to_nat 4).
  destruct (decide (k = EOther)) as [->|Hne].
  2:{ split; [|intros; by rewrite drop_app_lt by lia].
      exists (take (Z.to_nat 4) buffer). rewrite take_drop, len_take by lia. split; [done|lia]. }
  pose proof (λ extra, varint_parse_app (Z.to_nat 4) (drop (Z.to_nat 4) buffer) extra) as Hv.
  destruct (varint_parse (Z.to_nat 4) (drop (Z.to_nat 4) buffer)) as [n|e|q] eqn:Hq; cbn beta iota in *.
  - pose proof (Hv []) as ->. split; [done|]. split; [lia|]. intros extra Hlt. pose proof (len_nonneg extra).
    assert (extra = []) as -> by (apply len_zero; lia). by rewrite !app_nil_r, Hq.
  - split; [by apply err_msg_error|]. split; [done|]. intros extra. by rewrite drop_app_lt, Hv by lia.
  - apply decode_bounds in Hq as (Hqv & Ho & Hpl); [|by apply Forall_drop]. assert (0 ≤ value q) by ulia.
    destruct (Z.ltb_spec (mfs m) (4 + offset q + value q)) as [Hbig|Hfit].
    { split; [by apply err_msg_error|]. split; [done|]. intros extra. rewrite drop_app_lt, Hv by lia.
      by rewrite (proj2 (Z.ltb_lt _ _) Hbig). }
    destruct (Z.ltb_spec (len buffer) (4 + offset q + value q)).
    + split; [done|]. split; [lia|]. intros extra Hlt. rewrite drop_app_lt, Hv, len_app by lia.
      rewrite (proj2 (Z.ltb_ge _ _)), (proj2 (Z.ltb_lt _ _)) by lia. do 3 f_equal. lia.
    + split.
      * destruct (take_drop_frame buffer (4 + offset q) (value q)) as (f & Hf & Hfl); [lia..|].
        exists f. split; [done|lia].
      * intros extra. pose proof (len_nonneg extra).
        rewrite (drop_app_lt buffer extra 4), Hv, len_app by lia.
        rewrite !(proj2 (Z.ltb_ge _ _)) by lia. by rewrite take_drop_app_lt, drop_app_lt by lia.
Qed.

Lemma Header_wf_error_kind h : Header_wf h → is_error h = true → ∃ k, error_kind h = Done k.
Proof.
  intros [(k & c & i & -> & _)|(k & c & i & -> & _)].
  - by rewrite is_error_new.
  - intros _. exists k. apply error_kind_new_error.
Qed.
Lemma Header_wf_kind h : Header_wf h → is_error h = false → ∃ k, kind h = Done k.
Proof.
  intros [(k & c & i & -> & _)|(k & c & i & -> & _)].
  - intros _. exists k. apply kind_new.
  - by rewrite is_error_new_error.
Qed.

Lemma process_error_ok m h p buffer : MaxFrameSize_wf m → Header_wf h → protocol_wf p → is_error h = true →
  Forall u8 buffer → 4 ≤ len buffer →
  turn_ok (λ buffer, '(r, buffer) ← process_error m h buffer; mret (r, (p, buffer)))
    p (λ p', protocol_wf p' ∧ same_config p p') m buffer.
Proof.
  intros Hm Hh Hwf Herr Hb Hl. pose proof (MaxFrameSize_wf_bounds m Hm).
  destruct (Header_wf_error_kind h Hh Herr) as [k Hk].
  assert (∀ extra, Forall u8 extra →
    process_error m h (buffer ++ extra) = Done (process_error_spec m h k (buffer ++ extra))) as Hdone.
  { intros extra He. apply process_error_Done; [done..|by apply Forall_app|].
    rewrite len_app. pose proof (len_nonneg extra). lia. }
  pose proof (process_error_spec_app m h k buffer Hm Hb Hl) as Hs.
  unfold turn_ok. rewrite (process_error_Done m h k), bind_Done by done.
  destruct (process_error_spec m h k buffer) as [r b]. exists r, p, b. split; [done|]. split; [done|].
  destruct r as [[n|e|c]|].
  - destruct Hs as (-> & Hn & Hex). split; [done|]. split; [done|]. split; [done|].
    intros extra He Hlt. by rewrite Hdone, Hex, bind_Done.
  - destruct Hs as (He & -> & Hex). split; [done|]. split.
    + exists []. split; [done|]. change (len (@nil Z)) with 0. lia.
    + intros extra Hu. by rewrite Hdone, Hex, bind_Done.
  - destruct Hs as (Hf & Hex). split; [done|]. intros extra He. by rewrite Hdone, Hex, bind_Done.
  - destruct Hs as (Hf & Hex). split; [done|]. intros extra He. by rewrite Hdone, Hex, bind_Done.
Qed.

(** Lifting a handler of one channel to the protocol. *)
Lemma turn_ok_channel m p ch c (f : bytes → Turn (Channel * bytes)) buffer :
  protocol_wf p → channels p !! Z.to_nat (chan_raw ch) = Some c → turn_ok f c (channel_ok c) m buffer →
  turn_ok (λ buffer, '(r, (c', buffer)) ← f buffer; mret (r, (put_channel p ch c', buffer)))
    p (λ p', protocol_wf p' ∧ same_config p p') m buffer.
Proof.
  intros Hp Hl (r & c' & b & Hf & [Hwf Hcfg] & Hr). exists r, (put_channel p ch c'), b.
  rewrite Hf, bind_Done. split; [done|].
  split; [split; [by apply put_channel_wf|by eapply put_channel_same_config]|].
  destruct r as [[n|e|cr]|].
  - destruct Hr as (-> & -> & Hn & Hex). split; [by apply put_channel_id|]. split; [done|]. split; [done|].
    intros extra He Hlt. rewrite Hex, bind_Done by done. by rewrite put_channel_id.
  - destruct Hr as (He & Hfr & Hex). split; [done|]. split; [done|]. intros extra Hu.
    by rewrite Hex, bind_Done.
  - destruct Hr as (Hfr & Hex). split; [done|]. intros extra He. by rewrite Hex, bind_Done.
  - destruct Hr as (Hfr & Hex). split; [done|]. intros extra He. by rewrite Hex, bind_Done.
Qed.

Lemma turn_ok_ext {S} (f g : bytes → Turn (S * bytes)) s0 (wf : S → Prop) m buffer :
  (∀ extra, f (buffer ++ extra) = g (buffer ++ extra)) → turn_ok g s0 wf m buffer →
  turn_ok f s0 wf m buffer.
Proof.
  intros Hfg (r & s & b & Hg & Hwf & Hr). exists r, s, b.
  pose proof (Hfg []) as H0. rewrite app_nil_r in H0. rewrite H0. split; [done|]. split; [done|].
  destruct r as [[n|e|cr]|].
  - destruct Hr as (Hs & Hb & Hn & Hex). split_and!; [done..|lia|lia|]. intros. rewrite Hfg. auto.
  - destruct Hr as (He & Hfr & Hex). split; [done|]. split; [done|]. intros. rewrite Hfg. auto.
  - destruct Hr as (Hfr & Hex). split; [done|]. intros. rewrite Hfg. auto.
  - destruct Hr as (Hfr & Hex). split; [done|]. intros. rewrite Hfg. auto.
Qed.

Lemma process_frame_ok m h c buffer : MaxFrameSize_wf m → Header_wf h → channel_wf c →
  Forall u8 buffer → 4 ≤ len buffer → is_error h = false →
  turn_ok (process_frame m h c) c (channel_ok c) m buffer.
Proof.
  intros Hm Hh Hc Hb Hl Herr. destruct (Header_wf_kind h Hh Herr) as [k Hk].
  apply (turn_ok_ext _ (λ b, match k with
    | KRequest => process_request h c b | KResponse => process_response h c b
    | KRequestPl => process_request_pl m h c b | KResponsePl => process_response_pl m h c b
    | KCancelReq => process_cancel_req h c b | KCancelResp => process_cancel_resp h c b end)).
  { intros. unfold process_frame. by rewrite Hk, bind_Done. }
  destruct k.
  - by apply process_request_ok.
  - by apply process_response_ok.
  - by apply process_request_pl_ok.
  - by apply process_response_pl_ok.
  - by apply process_cancel_req_ok.
  - by apply process_cancel_resp_ok.
Qed.

(** A turn of the loop: with less than a header nothing happens. *)
Lemma process_turn_short p buffer : len buffer < Header_SIZE →
  process_turn p buffer = Done (Some (Incomplete (Header_SIZE - len buffer)), (p, buffer)).
Proof.
  unfold Header_SIZE. intros H. unfold process_turn, Header_SIZE. pose proof (len_nonneg buffer).
  rewrite (proj2 (Z.ltb_lt _ _)), usub_Done by lia. rewrite bind_Done, Outcome_incomplete_Done by ulia.
  done.
Qed.

Lemma process_turn_long p buffer : protocol_wf p → Forall u8 buffer → Header_SIZE ≤ len buffer →
  turn_ok (process_turn p) p (λ p', protocol_wf p' ∧ same_config p p') (max_frame_size p) buffer.
Proof.
  intros Hp Hb Hl. pose proof (pw_mfs p Hp) as Hm.
  destruct (header_raw_Done buffer Hl) as (a & b & c & d & tl & Hbuf & Hraw).
  assert (u8 a ∧ u8 b ∧ u8 c ∧ u8 d) as (Ha & Hbb & Hc & Hd).
  { subst buffer. rewrite !Forall_cons in Hb. naive_solver. }
  assert (∀ extra, len (buffer ++ extra) <? Header_SIZE = false) as Hlong.
  { intros. apply Z.ltb_ge. rewrite len_app. pose proof (len_nonneg extra). lia. }
  destruct (Header_parse (a, b, c, d)) as [h|] eqn:Hh.
  2:{ apply (turn_ok_ext _ (λ b, return_ (Fatal invalid_header_msg) (p, b))).
      { intros. unfold process_turn. by rewrite Hlong, header_raw_app, Hraw, bind_Done, Hh. }
      eapply (turn_ok_fatal _ _ _ _ _ invalid_header_msg p); [done..|].
      split; [done|]. split; [done|]. by exists EInvalidHeader. }
  pose proof (Header_parse_wf a b c d h Ha Hbb Hc Hd Hh) as Hhwf.
  destruct (is_error h) eqn:Herr.
  { apply (turn_ok_ext _ (λ b, '(r, b) ← process_error (max_frame_size p) h b; mret (r, (p, b)))).
    { intros. unfold process_turn. by rewrite Hlong, header_raw_app, Hraw, bind_Done, Hh, Herr. }
    by apply process_error_ok. }
  destruct (channels p !! Z.to_nat (chan_raw (Header_channel h))) as [ch|] eqn:Hch.
  - apply (turn_ok_ext _ (λ b, '(r, (c', b)) ← process_frame (max_frame_size p) h ch b;
      mret (r, (put_channel p (Header_channel h) c', b)))).
    { intros. unfold process_turn. rewrite Hlong, header_raw_app, Hraw, bind_Done, Hh, Herr by done.
      unfold ChannelId_get. by rewrite Hch. }
    apply (turn_ok_channel _ _ _ ch); [done..|]. apply process_frame_ok; try done.
    eapply Forall_lookup_1; [apply (pw_channels p Hp)|done].
  - apply (turn_ok_ext _ (λ b, return_ (err_msg h EInvalidChannel) (p, b))).
    { intros. unfold process_turn. rewrite Hlong, header_raw_app, Hraw, bind_Done, Hh, Herr by done.
      unfold ChannelId_get. by rewrite Hch. }
    eapply (turn_ok_fatal _ _ _ _ _ _ _); [done|intros; reflexivity|done|by apply err_msg_error].
Qed.

Lemma process_turn_ok p buffer : protocol_wf p → Forall u8 buffer →
  turn_ok (process_turn p) p (λ p', protocol_wf p' ∧ same_config p p') (max_frame_size p) buffer.
Proof.
  intros Hp Hb. destruct (decide (Header_SIZE ≤ len buffer)) as [Hl|Hl]; [by apply process_turn_long|].
  pose proof (MaxFrameSize_wf_bounds _ (pw_mfs p Hp)). pose proof (len_nonneg buffer).
  exists (Some (Incomplete (Header_SIZE - len buffer))), p, buffer. rewrite process_turn_short by lia.
  split; [done|]. split; [done|]. unfold Header_SIZE in *. split_and!; [done..|lia|lia|].
  intros extra He Hlt. rewrite process_turn_short by (rewrite len_app; unfold Header_SIZE; lia).
  rewrite len_app. unfold Header_SIZE. do 4 f_equal. lia.
Qed.
