(* ===== verification/ProcessIncoming.v ===== *)
(** * [process_incoming] on any input

    Termination, panic freedom, the invariant, and independence of how the bytes arrive. *)
From S2P Require Import Prelude Lib Varint Header FrameSize OutgoingMessage Multiframe MultiframeSpec Protocol ProtocolInv.
From stdpp Require Import options.

(** ** The loop, without its fuel *)

Lemma turn_progress p buffer r s b : protocol_wf p → Forall u8 buffer →
  process_turn p buffer = Done (r, (s, b)) →
  protocol_wf s ∧ same_config p s ∧ Forall u8 b ∧ (r = None → (length b < length buffer)%nat).
Proof.
  intros Hp Hb Ht. destruct (process_turn_ok p buffer Hp Hb) as (r' & s' & b' & Ht' & [Hs Hc] & Hr).
  rewrite Ht in Ht'. injection Ht' as <- <- <-. split; [done|]. split; [done|].
  destruct r as [[n|e|cr]|].
  - by destruct Hr as (_ & -> & _).
  - destruct Hr as (_ & (f & -> & _) & _). apply Forall_app in Hb as [_ Hb]. done.
  - destruct Hr as ((f & -> & _) & _). apply Forall_app in Hb as [_ Hb]. done.
  - destruct Hr as ((f & -> & Hf) & _). apply Forall_app in Hb as [_ Hb]. split; [done|].
    intros _. rewrite length_app. unfold len in Hf. lia.
Qed.

Lemma loop_fuel f1 : ∀ f2 p buffer, protocol_wf p → Forall u8 buffer →
  (length buffer < f1)%nat → (length buffer < f2)%nat →
  process_incoming_loop f1 p buffer = process_incoming_loop f2 p buffer.
Proof.
  induction f1 as [|f1 IH]; intros [|f2] p buffer Hp Hb H1 H2; try lia. cbn [process_incoming_loop].
  apply bind_ext. intros [r [s b]] Ht. destruct r; [done|].
  destruct (turn_progress p buffer None s b Hp Hb Ht) as (Hs & _ & Hb' & Hlt). specialize (Hlt eq_refl).
  apply IH; done || lia.
Qed.

Lemma process_incoming_unfold p buffer : protocol_wf p → Forall u8 buffer →
  process_incoming p buffer
  = ('(r, (p, buffer)) ← process_turn p buffer;
     match r with Some o => mret (o, (p, buffer)) | None => process_incoming p buffer end).
Proof.
  intros Hp Hb. unfold process_incoming at 1. cbn [process_incoming_loop].
  apply bind_ext. intros [r [s b]] Ht. destruct r; [done|].
  destruct (turn_progress p buffer None s b Hp Hb Ht) as (Hs & _ & Hb' & Hlt). specialize (Hlt eq_refl).
  apply loop_fuel; done || lia.
Qed.

(** ** The answer on any input *)

Definition incoming_ok (p : JulietProtocol) (buffer : bytes) : Prop :=
  ∃ o p' rest consumed, process_incoming p buffer = Done (o, (p', rest)) ∧
  protocol_wf p' ∧ same_config p p' ∧ buffer = consumed ++ rest ∧
  match o with
  | Incomplete n => 0 < n ≤ mfs (max_frame_size p) ∧
      (∀ extra, Forall u8 extra → len extra < n →
        process_incoming p (buffer ++ extra) = Done (Incomplete (n - len extra), (p', rest ++ extra))) ∧
      (∀ extra, Forall u8 extra →
        process_incoming p (buffer ++ extra) = process_incoming p' (rest ++ extra))
  | Fatal e => error_message e ∧
      ∀ extra, Forall u8 extra → process_incoming p (buffer ++ extra) = Done (o, (p', rest ++ extra))
  | Success _ => Header_SIZE ≤ len consumed ∧
      ∀ extra, Forall u8 extra → process_incoming p (buffer ++ extra) = Done (o, (p', rest ++ extra))
  end.

Lemma process_incoming_ok p buffer : protocol_wf p → Forall u8 buffer → incoming_ok p buffer.
Proof.
  revert p. induction (Nat.lt_wf_0_projected length buffer) as [buffer _ IH]. intros p Hp Hb.
  destruct (process_turn_ok p buffer Hp Hb) as (r & s & b & Ht & [Hs Hc] & Hr).
  destruct (turn_progress p buffer r s b Hp Hb Ht) as (_ & _ & Hbb & Hlt).
  pose proof (process_incoming_unfold p buffer Hp Hb) as Hun. rewrite Ht, bind_Done in Hun.
  assert (∀ extra, Forall u8 extra → process_incoming p (buffer ++ extra)
    = ('(r, (p, buffer)) ← process_turn p (buffer ++ extra);
       match r with Some o => mret (o, (p, buffer)) | None => process_incoming p buffer end)) as Hex
    by (intros; apply process_incoming_unfold; [done|by apply Forall_app]).
  destruct r as [[n|e|cr]|].
  - destruct Hr as (-> & -> & Hn & Happ). exists (Incomplete n), p, buffer, [].
    split; [done|]. split; [done|]. split; [done|]. split; [done|]. split; [done|]. split; [|done].
    intros extra He Hlt'. rewrite Hex, Happ by done. done.
  - destruct Hr as (He & (f & -> & _) & Happ). exists (Fatal e), s, b, f.
    split_and!; try done. intros extra Hu. rewrite Hex, Happ by done. done.
  - destruct Hr as ((f & -> & Hf) & Happ). exists (Success cr), s, b, f. unfold Header_SIZE.
    split_and!; try (done || lia). intros extra Hu. rewrite Hex, Happ by done. done.
  - destruct Hr as ((f & -> & Hf) & Happ).
    destruct (IH b (Hlt eq_refl) s Hs Hbb) as (o & p' & rest & consumed & Ho & Hp' & Hc' & -> & Hob).
    pose proof (same_config_trans _ _ _ Hc Hc') as Hcc. destruct Hc as [Hmfs _].
    exists o, p', rest, (f ++ consumed). rewrite Hun. split; [done|]. split; [done|]. split; [done|].
    split; [by rewrite app_assoc|].
    assert (∀ extra, Forall u8 extra → process_incoming p ((f ++ consumed ++ rest) ++ extra)
      = process_incoming s ((consumed ++ rest) ++ extra)) as Hstep.
    { intros extra He. rewrite Hex, Happ by done. done. }
    destruct o as [n|e|cr].
    + rewrite Hmfs in Hob. destruct Hob as (Hn & H1 & H2). split; [done|]. split; intros; rewrite Hstep by done; auto.
    + destruct Hob as (He & H1). split; [done|]. intros; rewrite Hstep by done; auto.
    + destruct Hob as (He & H1). split; [rewrite len_app; pose proof (len_nonneg f); lia|].
      intros; rewrite Hstep by done; auto.
Qed.

(** ** A concrete endpoint for the witnesses *)

Definition demo_config : ChannelConfiguration := mkChannelConfiguration 2 100 50.
Definition demo : JulietProtocol :=
  ProtocolBuilder_build (mkProtocolBuilder (replicate 2 demo_config) (mkMaxFrameSize 10)).
Lemma demo_wf : protocol_wf demo.
Proof.
  apply build_wf; [|vm_compute; discriminate|split; vm_compute; discriminate].
  apply Forall_replicate. split; [|split]; split; vm_compute; discriminate.
Qed.

(** ** Properties *)

(** C1: whatever a peer sends, [process_incoming] terminates without a panic in a state that
    keeps the invariant (the request sets and the cancellation allowance within the configured
    limits, the transfer in progress shorter than its announced, permitted size) under the same
    configuration. It consumes a prefix of the buffer, at least a header if it reports an event;
    it never asks for more than a frame; and the error it answers with is never one that
    carries a payload. *)
Theorem process_incoming_safe p buffer : protocol_wf p → Forall u8 buffer →
  ∃ o p' rest consumed, process_incoming p buffer = Done (o, (p', rest)) ∧
    protocol_wf p' ∧ same_config p p' ∧ buffer = consumed ++ rest ∧
    match o with
    | Incomplete n => 0 < n ≤ mfs (max_frame_size p)
    | Fatal e => om_payload e = None ∧ is_error (om_header e) = true ∧
                 ∃ k, k ≠ EOther ∧ error_kind (om_header e) = Done k
    | Success _ => Header_SIZE ≤ len consumed
    end.
Proof.
  intros Hp Hb. destruct (process_incoming_ok p buffer Hp Hb) as (o & p' & rest & consumed & H & H1 & H2 & H3 & Ho).
  exists o, p', rest, consumed. split_and!; try done. by destruct o as [n|e|c]; destruct Ho.
Qed.
Lemma process_incoming_safe_witness :
  let buffer := [2; 1; 44; 1; 12; 1; 2; 3; 4; 5; 2; 1; 44; 1; 6] in
  protocol_wf demo ∧ Forall u8 buffer ∧
  ∃ o p' rest consumed, process_incoming demo buffer = Done (o, (p', rest)) ∧
    protocol_wf p' ∧ same_config demo p' ∧ buffer = consumed ++ rest ∧
    match o with
    | Incomplete n => 0 < n ≤ mfs (max_frame_size demo)
    | Fatal e => om_payload e = None ∧ is_error (om_header e) = true ∧
                 ∃ k, k ≠ EOther ∧ error_kind (om_header e) = Done k
    | Success _ => Header_SIZE ≤ len consumed
    end.
Proof.
  intros buffer. assert (Forall u8 buffer) as Hb by (repeat constructor; vm_compute; discriminate).
  exact (conj demo_wf (conj Hb (process_incoming_safe demo buffer demo_wf Hb))).
Defined.

(** C2: how the stream is cut into reads does not matter. After [Incomplete], going on with
    more bytes gives exactly what processing everything at once would have given, and with
    fewer bytes than were asked for the answer is [Incomplete] by the rest; an event or error
    already reported is the same when more bytes were there, which stay in the buffer. *)
Theorem process_incoming_chunking p buffer extra o p' rest :
  protocol_wf p → Forall u8 buffer → Forall u8 extra →
  process_incoming p buffer = Done (o, (p', rest)) →
  match o with
  | Incomplete n =>
      process_incoming p (buffer ++ extra) = process_incoming p' (rest ++ extra) ∧
      (len extra < n →
       process_incoming p (buffer ++ extra) = Done (Incomplete (n - len extra), (p', rest ++ extra)))
  | o => process_incoming p (buffer ++ extra) = Done (o, (p', rest ++ extra))
  end.
Proof.
  intros Hp Hb He Ho.
  destruct (process_incoming_ok p buffer Hp Hb) as (o' & p'' & rest' & consumed & H & _ & _ & _ & Hcases).
  rewrite Ho in H. injection H as <- <- <-. destruct o as [n|e|c].
  - destruct Hcases as (_ & H1 & H2). auto.
  - destruct Hcases as (_ & H1). auto.
  - destruct Hcases as (_ & H1). auto.
Qed.
Lemma process_incoming_chunking_witness :
  let buffer := [2; 1; 44; 1; 12; 1; 2; 3] in let extra := [4; 5; 2; 1; 44; 1] in
  protocol_wf demo ∧
  process_incoming demo buffer = Done (Incomplete 2, (demo, buffer)) ∧
  process_incoming demo (buffer ++ extra) = process_incoming demo (buffer ++ extra) ∧
  (len extra < 2 → process_incoming demo (buffer ++ extra)
     = Done (Incomplete (2 - len extra), (demo, buffer ++ extra))).
Proof.
  intros buffer extra.
  assert (Forall u8 buffer) as Hb by (repeat constructor; vm_compute; discriminate).
  assert (Forall u8 extra) as He by (repeat constructor; vm_compute; discriminate).
  assert (process_incoming demo buffer = Done (Incomplete 2, (demo, buffer))) as Hr by (vm_compute; reflexivity).
  exact (conj demo_wf (conj Hr
    (process_incoming_chunking demo buffer extra (Incomplete 2) demo buffer demo_wf Hb He Hr))).
Defined.
