(* ===== verification/ProtocolOps.v ===== *)
(** * What the local operations of the protocol do

    Request id generation, and the messages an endpoint creates: on every branch, with the
    state left behind. *)
From S2P Require Import Prelude Lib Varint Header FrameSize OutgoingMessage WireFormat Multiframe MultiframeSpec Protocol ProtocolInv.
From stdpp Require Import options.

(** ** Generating request ids *)

(** The [k]-th candidate after [prev]. *)
Definition candidate (prev k : Z) : Z := (prev + k) mod 65536.

Lemma wrapping_add16_candidate prev k : wrapping_add16 (candidate prev k) 1 = candidate prev (k + 1).
Proof. unfold wrapping_add16, candidate. rewrite Zplus_mod_idemp_l. f_equal. lia. Qed.
Lemma candidate_u16 prev k : u16 (candidate prev k).
Proof. unfold candidate. pose proof (Z.mod_pos_bound (prev + k) 65536). ulia. Qed.
Lemma candidate_inj prev i j : 0 ≤ i < 65536 → 0 ≤ j < 65536 → candidate prev i = candidate prev j → i = j.
Proof.
  unfold candidate. intros Hi Hj H.
  pose proof (Z.div_mod (prev + i) 65536 ltac:(lia)). pose proof (Z.div_mod (prev + j) 65536 ltac:(lia)).
  assert (i - j = 65536 * ((prev + i) / 65536 - (prev + j) / 65536)) by lia. nia.
Qed.

Lemma generate_loop_spec fuel outgoing prev k :
  (∃ j, 0 ≤ j < Z.of_nat fuel ∧
     generate_request_id_loop fuel outgoing (candidate prev k) = Done (candidate prev (k + j)) ∧
     Id_new (candidate prev (k + j)) ∉ outgoing ∧
     ∀ i, 0 ≤ i < j → Id_new (candidate prev (k + i)) ∈ outgoing) ∨
  (generate_request_id_loop fuel outgoing (candidate prev k) = OutOfFuel ∧
   ∀ i, 0 ≤ i < Z.of_nat fuel → Id_new (candidate prev (k + i)) ∈ outgoing).
Proof.
  revert k. induction fuel as [|fuel IH]; intros k; cbn [generate_request_id_loop].
  { right. split; [done|]. intros; lia. }
  unfold hs_contains. case_bool_decide as Hin.
  2:{ left. exists 0. rewrite Z.add_0_r. split_and!; try done; lia. }
  rewrite wrapping_add16_candidate.
  assert (∀ i, k + 1 + i = k + (i + 1)) as Hsh by lia.
  destruct (IH (k + 1)) as [(j & Hj & -> & Hn & Hall)|(-> & Hall)].
  - left. exists (j + 1). rewrite <- Hsh. split_and!; try (done || lia).
    intros i Hi. destruct (decide (i = 0)) as [->|]; [by rewrite Z.add_0_r|].
    replace (k + i) with (k + 1 + (i - 1)) by lia. apply Hall. lia.
  - right. split; [done|]. intros i Hi. destruct (decide (i = 0)) as [->|]; [by rewrite Z.add_0_r|].
    replace (k + i) with (k + 1 + (i - 1)) by lia. apply Hall. lia.
Qed.

(** As many consecutive candidates cannot all be taken. *)
Lemma candidates_not_all_taken (outgoing : gset Id) prev k :
  Z.of_nat (size outgoing) < 65536 →
  ¬ (∀ i, 0 ≤ i < Z.of_nat (S (size outgoing)) → Id_new (candidate prev (k + i)) ∈ outgoing).
Proof.
  intros Hsize Hall.
  set (ids := map (λ i, Id_new (candidate prev (k + i))) (seqZ 0 (Z.of_nat (S (size outgoing))))).
  assert (NoDup ids) as Hnd.
  { apply NoDup_fmap_2_strong; [|apply NoDup_seqZ]. intros i j Hi Hj [= H].
    apply elem_of_seqZ in Hi, Hj.
    assert (candidate (prev + k) i = candidate (prev + k) j) as H'
      by (unfold candidate in *; rewrite <- !Z.add_assoc; done).
    by apply candidate_inj in H'; lia. }
  assert (list_to_set ids ⊆ outgoing) as Hsub.
  { intros x Hx. apply elem_of_list_to_set, list_elem_of_fmap in Hx as (i & -> & Hi).
    apply Hall. apply elem_of_seqZ in Hi. lia. }
  apply subseteq_size in Hsub. rewrite size_list_to_set in Hsub by done.
  unfold ids in Hsub. rewrite length_map, length_seqZ in Hsub. lia.
Qed.

Lemma generate_request_id_Done c : u16 (prev_request_id c) →
  hs_len (outgoing_requests c) < u16_max →
  ∃ j, 1 ≤ j ≤ hs_len (outgoing_requests c) + 1 ∧
  let id := Id_new (candidate (prev_request_id c) j) in
  generate_request_id c = Done (Some id, set_prev_request_id c (id_raw id)) ∧
  id ∉ outgoing_requests c ∧ Id_wf id ∧
  ∀ i, 1 ≤ i < j → Id_new (candidate (prev_request_id c) i) ∈ outgoing_requests c.
Proof.
  intros Hp Hlen. unfold generate_request_id. rewrite (proj2 (Z.eqb_neq _ _)) by lia.
  change (wrapping_add16 (prev_request_id c) 1) with (candidate (prev_request_id c) 1).
  destruct (generate_loop_spec (S (size (outgoing_requests c))) (outgoing_requests c) (prev_request_id c) 1)
    as [(j & Hj & -> & Hn & Hall)|(_ & Hall)].
  - exists (1 + j). unfold hs_len. split; [lia|]. rewrite bind_Done. split_and!; try done.
    + apply candidate_u16.
    + intros i Hi. replace i with (1 + (i - 1)) by lia. apply Hall. lia.
  - exfalso. eapply candidates_not_all_taken; [|exact Hall]. unfold hs_len in Hlen. ulia.
Qed.

(** ** Lookups *)

Lemma lookup_channel_mut_Done p ch : 0 ≤ chan_raw ch →
  lookup_channel_mut p ch = Done (match channels p !! Z.to_nat (chan_raw ch) with
                                  | Some c => Ok c
                                  | None => Err (InvalidChannel ch (len (channels p)))
                                  end).
Proof.
  intros Hch. unfold lookup_channel_mut, N_channels. destruct (Z.leb_spec (len (channels p)) (chan_raw ch)).
  - rewrite lookup_ge_None_2 by (unfold len in *; lia). done.
  - destruct (lookup_lt_is_Some_2 (channels p) (Z.to_nat (chan_raw ch))) as [c Hc].
    { unfold len in *. lia. }
    rewrite Hc. by rewrite (array_get_Done _ _ c).
Qed.
Lemma lookup_channel_Done p ch : 0 ≤ chan_raw ch → lookup_channel p ch = lookup_channel_mut p ch.
Proof. done. Qed.
Lemma channel_wf_lookup p i c : protocol_wf p → channels p !! i = Some c → channel_wf c.
Proof. intros Hp Hc. eapply Forall_lookup_1; [apply (pw_channels p Hp)|done]. Qed.

(** The limit of a payload is exceeded. *)
Definition exceeds (limit : Z) (payload : option bytes) : bool :=
  match payload with Some payload => limit <? len payload | None => false end.

(** The request an endpoint sends under [id]. *)
Definition request_message (ch : ChannelId) (id : Id) (payload : option bytes) : OutgoingMessage :=
  OutgoingMessage_new
    (Header_new (match payload with Some _ => KRequestPl | None => KRequest end) ch id) payload.
Definition response_message (ch : ChannelId) (id : Id) (payload : option bytes) : OutgoingMessage :=
  OutgoingMessage_new
    (Header_new (match payload with Some _ => KResponsePl | None => KResponse end) ch id) payload.

Lemma create_unchecked_response_message ch id payload :
  create_unchecked_response ch id payload = response_message ch id payload.
Proof. by destruct payload. Qed.

(** ** The channel after a request was made *)
Definition with_outgoing (c : Channel) (id : Id) : Channel :=
  set_outgoing (set_prev_request_id c (id_raw id)) ({[id]} ∪ outgoing_requests c).

Lemma with_outgoing_wf c id : channel_wf c → Id_wf id → Channel_allowed_to_send_request c = true →
  channel_ok c (with_outgoing c id).
Proof.
  intros [Hcfg Hin Hout Hoids Hiids Hall Hrec Htr Hprev] Hid Hallow. split; [|done].
  unfold Channel_allowed_to_send_request in Hallow. apply Z.ltb_lt in Hallow.
  constructor; cbn; try done.
  - destruct (decide (id ∈ outgoing_requests c)).
    + assert ({[id]} ∪ outgoing_requests c = outgoing_requests c) as -> by set_solver. done.
    + rewrite hs_len_insert by done. lia.
  - intros x Hx. destruct (decide (x = id)) as [->|]; [done|]. apply Hoids. set_solver.
Qed.

Lemma create_unchecked_request_Done c ch payload : channel_wf c →
  Channel_allowed_to_send_request c = true →
  ∃ id, create_unchecked_request c ch payload = Done (request_message ch id payload, with_outgoing c id) ∧
  id ∉ outgoing_requests c ∧ Id_wf id.
Proof.
  intros Hc Hallow. pose proof (cw_prev c Hc) as Hprev. destruct (cw_config c Hc) as [Hlim _].
  assert (hs_len (outgoing_requests c) < u16_max) as Hlt.
  { unfold Channel_allowed_to_send_request in Hallow. apply Z.ltb_lt in Hallow. ulia. }
  destruct (generate_request_id_Done c Hprev Hlt) as (j & _ & Hgen). cbv zeta in Hgen.
  destruct Hgen as (Hgen & Hn & Hid & _). eexists. split; [|done].
  unfold create_unchecked_request. rewrite Hgen, bind_Done. cbn [default from_option id].
  by destruct payload.
Qed.

Lemma create_request_spec p ch payload : protocol_wf p → ChannelId_wf ch →
  match channels p !! Z.to_nat (chan_raw ch) with
  | None => create_request p ch payload = Done (Err (InvalidChannel ch (len (channels p))), p)
  | Some c =>
      if exceeds (max_request_payload_size (config c)) payload then
        create_request p ch payload
        = Done (Err (PayloadExceedsLimit (len (default [] payload)) (max_request_payload_size (config c))), p)
      else if Channel_allowed_to_send_request c then
        ∃ id, create_request p ch payload
              = Done (Ok (request_message ch id payload), put_channel p ch (with_outgoing c id)) ∧
              id ∉ outgoing_requests c ∧ Id_wf id
      else create_request p ch payload = Done (Err (WouldExceedRequestLimit (request_limit (config c))), p)
  end.
Proof.
  intros Hp [Hch _]. unfold create_request. rewrite lookup_channel_mut_Done, bind_Done by done.
  destruct (channels p !! Z.to_nat (chan_raw ch)) as [c|] eqn:Hc; [|done].
  fold (exceeds (max_request_payload_size (config c)) payload).
  destruct (exceeds _ _); [done|]. destruct (Channel_allowed_to_send_request c) eqn:Hallow; [|done].
  cbn [negb]. destruct (create_unchecked_request_Done c ch payload) as (id & Hu & Hn & Hid);
    [by eapply channel_wf_lookup|done|].
  exists id. rewrite Hu, bind_Done. done.
Qed.

(** A free next id is the one that is taken. *)
Lemma create_request_next p ch payload c id p' : protocol_wf p → ChannelId_wf ch → channels p !! Z.to_nat (chan_raw ch) = Some c →
  create_request p ch payload = Done (Ok (request_message ch id payload), p') → Id_wf id →
  Id_new (candidate (prev_request_id c) 1) ∉ outgoing_requests c → id = Id_new (candidate (prev_request_id c) 1).
Proof.
  intros Hp [Hch _] Hc Hr Hid Hno. pose proof (channel_wf_lookup _ _ _ Hp Hc) as Hw. destruct (cw_config c Hw) as [Hlim _].
  unfold create_request in Hr. rewrite lookup_channel_mut_Done, bind_Done, Hc in Hr by done.
  fold (exceeds (max_request_payload_size (config c)) payload) in Hr. destruct (exceeds _ _); [done|].
  destruct (Channel_allowed_to_send_request c) eqn:Hallow; [|done]. cbn [negb] in Hr.
  unfold Channel_allowed_to_send_request in Hallow. apply Z.ltb_lt in Hallow.
  destruct (generate_request_id_Done c (cw_prev c Hw)) as (j & Hj & Hgen); [ulia|]. cbv zeta in Hgen.
  destruct Hgen as (Hgen & _ & Hidj & Hall). assert (j = 1) as ->.
  { destruct (decide (j = 1)); [done|]. destruct Hno. apply Hall. lia. }
  unfold create_unchecked_request in Hr. rewrite Hgen, !bind_Done in Hr. cbn [default from_option Datatypes.id] in Hr.
  assert (Header_new (match payload with Some _ => KRequestPl | None => KRequest end) ch (Id_new (candidate (prev_request_id c) 1))
    = Header_new (match payload with Some _ => KRequestPl | None => KRequest end) ch id) as Hh.
  { apply (f_equal (λ x, match x with Done (Ok m, _) => om_header m | _ => Header_new KRequest ch id end)) in Hr. by destruct payload. }
  apply (f_equal Header_id) in Hh. by rewrite !Header_id_new in Hh by done.
Qed.

Lemma create_response_spec p ch id payload : ChannelId_wf ch →
  create_response p ch id payload
  = Done (match channels p !! Z.to_nat (chan_raw ch) with
    | None => (Err (InvalidChannel ch (len (channels p))), p)
    | Some c =>
        let p' := put_channel p ch (set_incoming c (incoming_requests c ∖ {[id]})) in
        (if negb (bool_decide (id ∈ incoming_requests c)) then Ok None
         else if exceeds (max_response_payload_size (config c)) payload then
           Err (PayloadExceedsLimit (len (default [] payload)) (max_request_payload_size (config c)))
         else Ok (Some (response_message ch id payload)), p')
    end).
Proof.
  intros [Hch _]. unfold create_response. rewrite lookup_channel_mut_Done, bind_Done by done.
  destruct (channels p !! Z.to_nat (chan_raw ch)) as [c|] eqn:Hc; [|done]. unfold hs_remove.
  destruct (negb _); [done|]. cbn [set_incoming config].
  fold (exceeds (max_response_payload_size (config c)) payload).
  destruct (exceeds _ _); [done|]. by rewrite create_unchecked_response_message.
Qed.

Lemma cancel_request_spec p ch id : ChannelId_wf ch →
  cancel_request p ch id
  = Done (match channels p !! Z.to_nat (chan_raw ch) with
    | None => Err (InvalidChannel ch (len (channels p)))
    | Some c => if bool_decide (id ∈ outgoing_requests c)
                then Ok (Some (create_unchecked_request_cancellation ch id)) else Ok None
    end, p).
Proof.
  intros [Hch _]. unfold cancel_request. rewrite lookup_channel_mut_Done, bind_Done by done.
  destruct (channels p !! Z.to_nat (chan_raw ch)) as [c|] eqn:Hc; [|done]. unfold hs_contains.
  by case_bool_decide.
Qed.

Lemma cancel_response_spec p ch id : ChannelId_wf ch →
  cancel_response p ch id
  = Done (match channels p !! Z.to_nat (chan_raw ch) with
    | None => (Err (InvalidChannel ch (len (channels p))), p)
    | Some c =>
        (if bool_decide (id ∈ incoming_requests c)
         then Ok (Some (create_unchecked_response_cancellation ch id)) else Ok None,
         put_channel p ch (set_incoming c (incoming_requests c ∖ {[id]})))
    end).
Proof.
  intros [Hch _]. unfold cancel_response. rewrite lookup_channel_mut_Done, bind_Done by done.
  destruct (channels p !! Z.to_nat (chan_raw ch)) as [c|] eqn:Hc; [|done]. unfold hs_remove.
  by case_bool_decide.
Qed.

(** ** Properties *)

Definition busy : Channel :=
  {| incoming_requests := {[Id_new 7]}; outgoing_requests := {[Id_new 0; Id_new 65535]};
     current_multiframe_receiver := Ready; cancellation_allowance := 1;
     config := mkChannelConfiguration 4 100 50; prev_request_id := 65534 |}.
Lemma busy_wf : channel_wf busy.
Proof.
  constructor; [|vm_compute; discriminate|vm_compute; discriminate| | | |done|done|].
  - split; [|split]; split; vm_compute; discriminate.
  - intros x Hx. assert (x = Id_new 0 ∨ x = Id_new 65535) as [-> | ->] by (cbn in Hx; set_solver);
      split; vm_compute; discriminate.
  - intros x Hx. assert (x = Id_new 7) as -> by (cbn in Hx; set_solver). split; vm_compute; discriminate.
  - split; vm_compute; discriminate.
  - split; vm_compute; discriminate.
Qed.
Definition busy_protocol : JulietProtocol := mkJulietProtocol [busy] (mkMaxFrameSize 10).
Lemma busy_protocol_wf : protocol_wf busy_protocol.
Proof.
  constructor; [apply Forall_singleton, busy_wf|vm_compute; discriminate|split; vm_compute; discriminate].
Qed.

(** C30: while fewer than [u16::MAX] requests are outstanding, [generate_request_id] terminates,
    and returns the first id after the last one generated, in the order of the ids modulo
    2^16, that is not the id of an outstanding request. *)
Theorem generate_request_id_fresh c : channel_wf c → hs_len (outgoing_requests c) < u16_max →
  ∃ j, 1 ≤ j ≤ hs_len (outgoing_requests c) + 1 ∧
  let id := Id_new ((prev_request_id c + j) mod 65536) in
  generate_request_id c = Done (Some id, set_prev_request_id c (id_raw id)) ∧
  id ∉ outgoing_requests c ∧ Id_wf id ∧
  ∀ i, 1 ≤ i < j → Id_new ((prev_request_id c + i) mod 65536) ∈ outgoing_requests c.
Proof. intros Hc. apply generate_request_id_Done, Hc. Qed.
Lemma generate_request_id_fresh_witness :
  channel_wf busy ∧ hs_len (outgoing_requests busy) < u16_max ∧
  ∃ j, 1 ≤ j ≤ hs_len (outgoing_requests busy) + 1 ∧
  let id := Id_new ((prev_request_id busy + j) mod 65536) in
  generate_request_id busy = Done (Some id, set_prev_request_id busy (id_raw id)) ∧
  id ∉ outgoing_requests busy ∧ Id_wf id ∧
  ∀ i, 1 ≤ i < j → Id_new ((prev_request_id busy + i) mod 65536) ∈ outgoing_requests busy.
Proof.
  assert (hs_len (outgoing_requests busy) < u16_max) as Hlt by (vm_compute; reflexivity).
  exact (conj busy_wf (conj Hlt (generate_request_id_fresh busy busy_wf Hlt))).
Defined.

(** C26: [create_request] refuses exactly an unknown channel, a payload over the channel's
    limit and a request over the channel's request limit, in that order and without changing
    anything; otherwise it returns the request under an id not in use, with the payload as
    given, records that id alone, and keeps the invariant. *)
Theorem create_request_correct p ch payload : protocol_wf p → ChannelId_wf ch →
  ∃ r p', create_request p ch payload = Done (r, p') ∧ protocol_wf p' ∧ same_config p p' ∧
  match channels p !! Z.to_nat (chan_raw ch) with
  | None => r = Err (InvalidChannel ch (len (channels p))) ∧ p' = p
  | Some c =>
      if exceeds (max_request_payload_size (config c)) payload then
        r = Err (PayloadExceedsLimit (len (default [] payload)) (max_request_payload_size (config c))) ∧ p' = p
      else if hs_len (outgoing_requests c) <? request_limit (config c) then
        ∃ id, id ∉ outgoing_requests c ∧ Id_wf id ∧ r = Ok (request_message ch id payload) ∧
              p' = put_channel p ch (with_outgoing c id)
      else r = Err (WouldExceedRequestLimit (request_limit (config c))) ∧ p' = p
  end.
Proof.
  intros Hp Hch. pose proof (create_request_spec p ch payload Hp Hch) as Hs.
  destruct (channels p !! Z.to_nat (chan_raw ch)) as [c|] eqn:Hc; [|by do 2 eexists].
  destruct (exceeds _ _); [by do 2 eexists|].
  change (hs_len (outgoing_requests c) <? request_limit (config c)) with (Channel_allowed_to_send_request c).
  destruct (Channel_allowed_to_send_request c) eqn:Hallow; [|by do 2 eexists].
  destruct Hs as (id & Hr & Hn & Hid). pose proof (channel_wf_lookup _ _ _ Hp Hc) as Hwf.
  destruct (with_outgoing_wf c id Hwf Hid Hallow) as [Hwf' Hcfg].
  do 2 eexists. split; [exact Hr|]. split; [by apply put_channel_wf|].
  split; [by eapply put_channel_same_config|]. by exists id.
Qed.
Lemma create_request_correct_witness :
  protocol_wf busy_protocol ∧ ChannelId_wf (ChannelId_new 0) ∧
  ∃ r p', create_request busy_protocol (ChannelId_new 0) (Some [1; 2; 3]) = Done (r, p') ∧
  protocol_wf p' ∧ same_config busy_protocol p' ∧
  match channels busy_protocol !! Z.to_nat (chan_raw (ChannelId_new 0)) with
  | None => r = Err (InvalidChannel (ChannelId_new 0) (len (channels busy_protocol))) ∧ p' = busy_protocol
  | Some c =>
      if exceeds (max_request_payload_size (config c)) (Some [1; 2; 3]) then
        r = Err (PayloadExceedsLimit (len [1; 2; 3]) (max_request_payload_size (config c))) ∧ p' = busy_protocol
      else if hs_len (outgoing_requests c) <? request_limit (config c) then
        ∃ id, id ∉ outgoing_requests c ∧ Id_wf id ∧
              r = Ok (request_message (ChannelId_new 0) id (Some [1; 2; 3])) ∧
              p' = put_channel busy_protocol (ChannelId_new 0) (with_outgoing c id)
      else r = Err (WouldExceedRequestLimit (request_limit (config c))) ∧ p' = busy_protocol
  end.
Proof.
  assert (ChannelId_wf (ChannelId_new 0)) as Hch by (split; vm_compute; discriminate).
  exact (conj busy_protocol_wf (conj Hch
    (create_request_correct busy_protocol (ChannelId_new 0) (Some [1; 2; 3]) busy_protocol_wf Hch))).
Defined.

(** [create_response] answers a request at most once: for an id without an incoming
    request it gives no message; otherwise the id is released, also when the payload is over
    the response limit, in which case the error reports the limit for {e requests}. A response
    that is returned carries the payload as given. *)
Lemma create_response_correct p ch id payload c : protocol_wf p → ChannelId_wf ch →
  channels p !! Z.to_nat (chan_raw ch) = Some c →
  ∃ r p', create_response p ch id payload = Done (r, p') ∧ protocol_wf p' ∧ same_config p p' ∧
  p' = put_channel p ch (set_incoming c (incoming_requests c ∖ {[id]})) ∧
  (r = Ok None ∧ id ∉ incoming_requests c ∨
   id ∈ incoming_requests c ∧
   if exceeds (max_response_payload_size (config c)) payload
   then r = Err (PayloadExceedsLimit (len (default [] payload)) (max_request_payload_size (config c)))
   else r = Ok (Some (response_message ch id payload))) ∧
  create_response p' ch id payload = Done (Ok None, p').
Proof.
  intros Hp Hch Hc. rewrite create_response_spec by done. rewrite Hc. cbv zeta.
  set (c' := set_incoming c (incoming_requests c ∖ {[id]})). set (p' := put_channel p ch c').
  do 2 eexists. split; [done|].
  destruct (set_incoming_remove_wf c id (channel_wf_lookup _ _ _ Hp Hc)) as [Hwf Hcfg].
  split; [by apply put_channel_wf|]. split; [by eapply put_channel_same_config|].
  split; [done|]. split.
  - case_bool_decide; cbn [negb]; [right|by left]. by destruct (exceeds _ _).
  - rewrite create_response_spec by done.
    assert (channels p' !! Z.to_nat (chan_raw ch) = Some c') as ->.
    { apply list_lookup_insert_eq. by eapply lookup_lt_Some. }
    cbv zeta. rewrite bool_decide_eq_false_2 by (cbn; set_solver). cbn [negb]. do 2 f_equal.
    unfold p', put_channel. cbn [channels max_frame_size]. f_equal. rewrite list_insert_insert_eq. f_equal.
    unfold c', set_incoming. cbn. f_equal. set_solver.
Qed.

(** [custom_error] accepts a payload exactly if it fits a single frame behind its header
    and length, and then the frame iterator sends it as one frame; whether the channel exists
    does not matter. *)
Lemma custom_error_correct p ch id payload : protocol_wf p → u32 (len payload) →
  let msg := OutgoingMessage_new (Header_new_error EOther ch id) (Some payload) in
  let m := max_frame_size p in
  if mfs m <? Header_SIZE + len (varint_bytes (len payload)) + len payload then
    custom_error p ch id payload = Done (Err (ErrorPayloadIsMultiFrame (len payload) (mfs m)))
  else
    custom_error p ch id payload = Done (Ok msg) ∧
    ∃ f, next_owned (frames msg) m = Done (f, None) ∧
         OutgoingFrame_header f = om_header msg ∧ segment f = payload.
Proof.
  intros Hp Hl msg m. pose proof (pw_mfs p Hp) as Hm. unfold custom_error. cbv zeta.
  rewrite is_multi_frame_Done, bind_Done by done. unfold Header_SIZE. fold m.
  pose proof (frame_count_bounds m payload Hm) as Hn. cbv zeta in Hn.
  pose proof (frame_count_pos m (Some payload)). pose proof (MaxFrameSize_wf_bounds m Hm).
  destruct (Z.ltb_spec (mfs m) (4 + len (varint_bytes (len payload)) + len payload)).
  - rewrite (proj2 (Z.ltb_lt _ _)) by (unfold m in *; nia). done.
  - assert (frame_count m (Some payload) = 1) as Hone by (unfold m in *; nia).
    rewrite Hone. split; [done|].
    destruct (next_owned_single m (Header_new_error EOther ch id) (Some payload) Hm Hl Hone)
      as (f & Hf & Hh & Hs & _). by exists f.
Qed.
