(* ===== verification/Answers.v ===== *)
(** * Which requests the events of [process_incoming] answer

    A response, or the cancellation of one, is reported only for a request that is outstanding,
    and takes it off the outstanding requests; nothing else the peer sends does. *)
From S2P Require Import Prelude Lib Varint Header FrameSize OutgoingMessage Multiframe MultiframeSpec Protocol ProtocolInv ProcessIncoming ProtocolOps.
From stdpp Require Import options.

(** The outstanding requests of a channel. *)
Definition outgoing_at (p : JulietProtocol) (ch : ChannelId) : gset Id :=
  match channels p !! Z.to_nat (chan_raw ch) with Some c => outgoing_requests c | None => ∅ end.

(** What an event says about a channel's outstanding requests before and after it. *)
Definition answers (h : Header) (out out' : gset Id) (r : option (Outcome CompletedRead OutgoingMessage)) : Prop :=
  match r with
  | Some (Success (ReceivedResponse ch id _)) | Some (Success (ResponseCancellation ch id)) =>
      ch = Header_channel h ∧ id ∈ out ∧ out' = out ∖ {[id]}
  | _ => out' = out
  end.

Lemma difference_not_elem (s : gset Id) id : id ∉ s → s ∖ {[id]} = s.
Proof. set_solver. Qed.

Lemma process_request_answers h c buffer r c' b : process_request h c buffer = Done (r, (c', b)) →
  answers h (outgoing_requests c) (outgoing_requests c') r.
Proof.
  unfold process_request, return_. intros Hr. destruct (is_at_max_incoming_requests c); [by inv_exec; simplify_eq|].
  destruct (hs_insert _ _) as [inserted incoming]. destruct (negb inserted); [by inv_exec; simplify_eq|].
  unfold increment_cancellation_allowance in Hr. inv_exec.
  destruct (_ <? _) in E; inv_exec; by simplify_eq.
Qed.
Lemma process_response_answers h c buffer r c' b : process_response h c buffer = Done (r, (c', b)) →
  answers h (outgoing_requests c) (outgoing_requests c') r.
Proof.
  unfold process_response, return_, hs_remove. intros Hr. case_bool_decide; cbn [negb] in Hr; inv_exec; simplify_eq; cbn.
  - done.
  - by apply difference_not_elem.
Qed.
Lemma process_cancel_resp_answers h c buffer r c' b : process_cancel_resp h c buffer = Done (r, (c', b)) →
  answers h (outgoing_requests c) (outgoing_requests c') r.
Proof.
  unfold process_cancel_resp, return_, hs_remove. intros Hr. case_bool_decide; inv_exec; simplify_eq; cbn.
  - done.
  - by apply difference_not_elem.
Qed.
Lemma cancel_transfer_outgoing h c : outgoing_requests (cancel_transfer h c) = outgoing_requests c.
Proof. unfold cancel_transfer. destruct (in_progress_header _); [|done]. by case_bool_decide. Qed.
Lemma process_cancel_req_answers h c buffer r c' b : process_cancel_req h c buffer = Done (r, (c', b)) →
  answers h (outgoing_requests c) (outgoing_requests c') r.
Proof.
  unfold process_cancel_req, return_. intros Hr. destruct (_ =? 0); [by inv_exec; simplify_eq|].
  apply bind_Done_inv in Hr as (a & _ & Hr). apply bind_Done_inv in Hr as (b1 & _ & Hr).
  destruct (negb _); inv_exec; simplify_eq; cbn; by rewrite cancel_transfer_outgoing.
Qed.
Lemma increment_outgoing c c' : increment_cancellation_allowance c = Done c' → outgoing_requests c' = outgoing_requests c.
Proof. unfold increment_cancellation_allowance. intros Hi. destruct (_ <? _); inv_exec; by simplify_eq. Qed.
Lemma record_request_frame_answers h c buffer completed r c' b :
  record_request_frame h c buffer completed = Done (r, (c', b)) →
  answers h (outgoing_requests c) (outgoing_requests c') r.
Proof.
  unfold record_request_frame, return_. intros Hr.
  assert (∀ c0, outgoing_requests c0 = outgoing_requests c →
    match into_completed_payload completed with
    | Some payload => mret (Some (Success (NewRequest (Header_channel h) (Header_id h) (Some payload))), (c0, buffer))
    | None => mret (None, (c0, buffer))
    end = Done (r, (c', b)) → answers h (outgoing_requests c) (outgoing_requests c') r) as Hfin.
  { intros c0 Hc0 Hf. destruct (into_completed_payload completed); inv_exec; by simplify_eq. }
  destruct (was_new completed); [|by apply (Hfin c)].
  destruct (is_at_max_incoming_requests c); [by inv_exec; simplify_eq|].
  destruct (hs_insert _ _) as [inserted incoming]. destruct (negb inserted); [by inv_exec; simplify_eq|].
  apply bind_Done_inv in Hr as (c0 & Hi & Hr). apply increment_outgoing in Hi. by apply (Hfin c0).
Qed.
Lemma process_request_pl_answers m h c buffer r c' b : process_request_pl m h c buffer = Done (r, (c', b)) →
  answers h (outgoing_requests c) (outgoing_requests c') r.
Proof.
  unfold process_request_pl, return_. intros Hr. apply bind_Done_inv in Hr as ([accepted [receiver buf]] & _ & Hr).
  destruct accepted as [n|e|completed]; [by inv_exec; simplify_eq|by inv_exec; simplify_eq|].
  by eapply (record_request_frame_answers h (set_receiver c receiver) buf completed).
Qed.
Lemma process_response_pl_answers m h c buffer r c' b : process_response_pl m h c buffer = Done (r, (c', b)) →
  answers h (outgoing_requests c) (outgoing_requests c') r.
Proof.
  unfold process_response_pl, return_, hs_contains, hs_remove. intros Hr.
  case_bool_decide as Hin; cbn [negb] in Hr; [|by inv_exec; simplify_eq].
  apply bind_Done_inv in Hr as ([accepted [receiver buf]] & _ & Hr).
  destruct accepted as [n|e|completed]; [by inv_exec; simplify_eq|by inv_exec; simplify_eq|].
  destruct (into_completed_payload completed); inv_exec; by simplify_eq.
Qed.
Lemma process_frame_answers m h c buffer r c' b : process_frame m h c buffer = Done (r, (c', b)) →
  answers h (outgoing_requests c) (outgoing_requests c') r.
Proof.
  unfold process_frame. intros Hr. apply bind_Done_inv in Hr as (k & _ & Hr). destruct k.
  - by eapply process_request_answers.
  - by eapply process_response_answers.
  - by eapply process_request_pl_answers.
  - by eapply process_response_pl_answers.
  - by eapply process_cancel_req_answers.
  - by eapply process_cancel_resp_answers.
Qed.

(** An error is not an answer. *)
Lemma process_error_answers m h buffer r b out : process_error m h buffer = Done (r, b) → answers h out out r.
Proof.
  intros Hr. destruct r as [[n|e|cr]|]; try done. destruct cr as [hh d|ch id pl|ch id pl|ch id|ch id]; try done; exfalso.
  all: unfold process_error, return_ in Hr; apply bind_Done_inv in Hr as (k & _ & Hr); destruct k;
    try (by inv_exec; simplify_eq).
  all: apply bind_Done_inv in Hr as (tl & _ & Hr); apply bind_Done_inv in Hr as (dec & _ & Hr).
  all: destruct (Outcome_map_err _ dec) as [n|e|pl']; try (by inv_exec; simplify_eq).
  all: apply bind_Done_inv in Hr as (pe & _ & Hr); apply bind_Done_inv in Hr as (fe & _ & Hr).
  all: destruct (_ <? _) in Hr; [by inv_exec; simplify_eq|]; destruct (_ <? _) in Hr.
  all: repeat (apply bind_Done_inv in Hr as (? & ? & Hr)).
  all: try (unfold Outcome_incomplete in *; by inv_exec; simplify_eq).
  all: case_match; by inv_exec; simplify_eq.
Qed.

(** Outside the channel of the event nothing changes. *)
Definition answers_at (p p' : JulietProtocol) (r : option (Outcome CompletedRead OutgoingMessage)) : Prop :=
  match r with
  | Some (Success (ReceivedResponse ch id _)) | Some (Success (ResponseCancellation ch id)) =>
      ChannelId_wf ch ∧ chan_raw ch < len (channels p) ∧ id ∈ outgoing_at p ch ∧
      outgoing_at p' ch = outgoing_at p ch ∖ {[id]} ∧
      ∀ ch', ChannelId_wf ch' → ch' ≠ ch → outgoing_at p' ch' = outgoing_at p ch'
  | _ => ∀ ch, ChannelId_wf ch → outgoing_at p' ch = outgoing_at p ch
  end.

Lemma outgoing_at_put p ch c c' ch' : ChannelId_wf ch → ChannelId_wf ch' →
  channels p !! Z.to_nat (chan_raw ch) = Some c →
  outgoing_at (put_channel p ch c') ch' = if decide (ch' = ch) then outgoing_requests c' else outgoing_at p ch'.
Proof.
  intros [H1 _] [H2 _] Hc. unfold outgoing_at, put_channel. cbn [channels]. case_decide as Heq.
  - subst ch'. rewrite list_lookup_insert_eq by by eapply lookup_lt_Some. done.
  - rewrite list_lookup_insert_ne; [done|]. intros Hr. apply Heq. destruct ch, ch'. cbn in *. f_equal. lia.
Qed.

Lemma process_turn_answers p buffer r p' b : protocol_wf p → Forall u8 buffer →
  process_turn p buffer = Done (r, (p', b)) → answers_at p p' r.
Proof.
  intros Hp Hb Ht. unfold process_turn, return_ in Ht.
  destruct (Z.ltb_spec (len buffer) Header_SIZE) as [|Hl].
  { apply bind_Done_inv in Ht as (n & _ & Ht). apply bind_Done_inv in Ht as (o & Ho & Ht).
    unfold Outcome_incomplete in Ho. inv_exec. by simplify_eq. }
  apply bind_Done_inv in Ht as (raw & Hraw & Ht).
  destruct (Header_parse raw) as [h|] eqn:Hh; [|by inv_exec; simplify_eq].
  destruct (is_error h).
  { apply bind_Done_inv in Ht as ([r' b'] & He & Ht). inv_exec. simplify_eq.
    apply (process_error_answers _ _ _ _ _ ∅) in He.
    destruct r as [[n|e|[hh d|ch id pl|ch id pl|ch id|ch id]]|]; try done; cbn in He; set_solver. }
  destruct (channels p !! Z.to_nat (ChannelId_get (Header_channel h))) as [c|] eqn:Hc; [|by inv_exec; simplify_eq].
  apply bind_Done_inv in Ht as ([r' [c' b']] & Hf & Ht). inv_exec. simplify_eq.
  apply process_frame_answers in Hf. unfold ChannelId_get in Hc.
  assert (ChannelId_wf (Header_channel h)) as Hch.
  { destruct (header_raw_Done buffer Hl) as (b0 & b1 & b2 & b3 & tl & -> & Hr). rewrite Hraw in Hr. injection Hr as ->.
    rewrite !Forall_cons in Hb. eapply Header_parse_wf in Hh; [|naive_solver..].
    by destruct Hh as [(k & ch & id & -> & Hch & _)|(k & ch & id & -> & Hch & _)]. }
  assert (outgoing_at p (Header_channel h) = outgoing_requests c) as Hout by (unfold outgoing_at; by rewrite Hc).
  assert (chan_raw (Header_channel h) < len (channels p)) as Hlt.
  { apply lookup_lt_Some in Hc. unfold len. destruct Hch. lia. }
  assert (∀ ch, ChannelId_wf ch → outgoing_requests c' = outgoing_requests c →
    outgoing_at (put_channel p (Header_channel h) c') ch = outgoing_at p ch) as Hsame.
  { intros ch Hchw Heq. rewrite (outgoing_at_put p _ c) by done. case_decide; [subst; by rewrite Heq|done]. }
  unfold answers_at. unfold answers in Hf.
  destruct r as [[n|e|[hh d|ch id pl|ch id pl|ch id|ch id]]|]; auto.
  all: destruct Hf as (-> & Hin & Heq); rewrite Hout; split; [done|]; split; [done|]; split; [done|].
  all: split; [rewrite (outgoing_at_put p _ c) by done; by rewrite decide_True|].
  all: intros ch' Hch' Hne; rewrite (outgoing_at_put p _ c) by done; by rewrite decide_False.
Qed.

Lemma answers_at_trans p s p' r : len (channels s) = len (channels p) →
  (∀ ch, ChannelId_wf ch → outgoing_at s ch = outgoing_at p ch) → answers_at s p' r → answers_at p p' r.
Proof.
  intros Hlen Hs Ha. destruct r as [[n|e|[hh d|ch id pl|ch id pl|ch id|ch id]]|]; cbn [answers_at] in *;
    try (intros ch0 Hch0; rewrite Ha by done; by apply Hs).
  all: destruct Ha as (Hch & Hlt & Hin & Heq & Hne); rewrite Hs in Hin, Heq by done; rewrite Hlen in Hlt.
  all: split; [done|]; split; [done|]; split; [done|]; split; [done|].
  all: intros ch' Hch' Hn; rewrite Hne by done; by apply Hs.
Qed.

Lemma process_incoming_loop_answers fuel : ∀ p buffer o p' rest, protocol_wf p → Forall u8 buffer →
  process_incoming_loop fuel p buffer = Done (o, (p', rest)) → answers_at p p' (Some o).
Proof.
  induction fuel as [|fuel IH]; intros p buffer o p' rest Hp Hb Hl; cbn [process_incoming_loop] in Hl; [done|].
  apply bind_Done_inv in Hl as ([r [s b]] & Ht & Hl).
  pose proof (process_turn_answers _ _ _ _ _ Hp Hb Ht) as Ha.
  destruct (turn_progress _ _ _ _ _ Hp Hb Ht) as (Hs & [_ Hc%(f_equal length)] & Hb' & _).
  destruct r as [o'|]; [inv_exec; by simplify_eq|].
  eapply answers_at_trans; [|exact Ha|by eapply IH]. rewrite !length_map in Hc. unfold len. lia.
Qed.
Lemma process_incoming_answers_at p buffer o p' rest : protocol_wf p → Forall u8 buffer →
  process_incoming p buffer = Done (o, (p', rest)) → answers_at p p' (Some o).
Proof. apply process_incoming_loop_answers. Qed.

(** C24: a response, or the peer's cancellation of one, is reported only for a request that is
    outstanding on that channel, and takes exactly that request off the outstanding ones, so
    that none is answered twice; whatever else the peer sends - frames of a response not yet
    complete, requests, cancellations, errors, violations - leaves the outstanding requests of
    every channel as they are. *)
Theorem process_incoming_answers_once p buffer o p' rest : protocol_wf p → Forall u8 buffer →
  process_incoming p buffer = Done (o, (p', rest)) →
  match o with
  | Success (ReceivedResponse ch id _) | Success (ResponseCancellation ch id) =>
      id ∈ outgoing_at p ch ∧ outgoing_at p' ch = outgoing_at p ch ∖ {[id]} ∧
      ∀ ch', ChannelId_wf ch' → ch' ≠ ch → outgoing_at p' ch' = outgoing_at p ch'
  | _ => ∀ ch, ChannelId_wf ch → outgoing_at p' ch = outgoing_at p ch
  end.
Proof.
  intros Hp Hb Ho. pose proof (process_incoming_answers_at _ _ _ _ _ Hp Hb Ho) as Ha.
  destruct o as [n|e|[hh d|ch id pl|ch id pl|ch id|ch id]]; try exact Ha; by destruct Ha as (_ & _ & ?).
Qed.

Lemma process_incoming_answers_once_witness :
  let buffer := [1; 0; 255; 255; 1; 0; 255; 255] in
  let ch := ChannelId_new 0 in let id := Id_new 65535 in
  ∃ p', process_incoming busy_protocol buffer = Done (Success (ReceivedResponse ch id None), (p', [1; 0; 255; 255])) ∧
    id ∈ outgoing_at busy_protocol ch ∧ outgoing_at p' ch = outgoing_at busy_protocol ch ∖ {[id]} ∧
    ∀ ch', ChannelId_wf ch' → ch' ≠ ch → outgoing_at p' ch' = outgoing_at busy_protocol ch'.
Proof.
  intros buffer ch id. assert (Forall u8 buffer) as Hb by (repeat constructor; vm_compute; discriminate).
  set (p' := put_channel busy_protocol ch (set_outgoing busy (outgoing_requests busy ∖ {[id]}))).
  assert (process_incoming busy_protocol buffer = Done (Success (ReceivedResponse ch id None), (p', [1; 0; 255; 255])))
    as Hr by (vm_compute; reflexivity).
  exists p'. split; [exact Hr|].
  exact (process_incoming_answers_once busy_protocol buffer (Success (ReceivedResponse ch id None)) p'
    [1; 0; 255; 255] busy_protocol_wf Hb Hr).
Defined.
