(* ===== verification/Delivery.v ===== *)
(** * What a protocol does with the messages of a well-behaved peer

    Every message the local operations create, put on the wire by the frame iterator, is read
    back by [process_incoming] as the corresponding event. *)
From S2P Require Import Prelude Lib Varint Header FrameSize OutgoingMessage WireFormat Multiframe.
From S2P Require Import MultiframeSpec Protocol ProtocolInv ProcessIncoming ProtocolOps.
From stdpp Require Import options.

(** ** One turn on a known header *)

Lemma put_channel_lookup p ch c c' : channels p !! Z.to_nat (chan_raw ch) = Some c →
  channels (put_channel p ch c') !! Z.to_nat (chan_raw ch) = Some c'.
Proof. intros Hc. apply list_lookup_insert_eq. by eapply lookup_lt_Some. Qed.
Lemma put_channel_twice p ch c c' : put_channel (put_channel p ch c) ch c' = put_channel p ch c'.
Proof. unfold put_channel. cbn. f_equal. apply list_insert_insert_eq. Qed.

Lemma process_turn_header p k ch id c rest : channels p !! Z.to_nat (chan_raw ch) = Some c →
  let h := Header_new k ch id in
  process_turn p (Header_as_ref h ++ rest)
  = ('(r, (c', b)) ← match k with
       | KRequest => process_request h c (Header_as_ref h ++ rest)
       | KResponse => process_response h c (Header_as_ref h ++ rest)
       | KRequestPl => process_request_pl (max_frame_size p) h c (Header_as_ref h ++ rest)
       | KResponsePl => process_response_pl (max_frame_size p) h c (Header_as_ref h ++ rest)
       | KCancelReq => process_cancel_req h c (Header_as_ref h ++ rest)
       | KCancelResp => process_cancel_resp h c (Header_as_ref h ++ rest)
       end;
     mret (r, (put_channel p ch c', b))).
Proof.
  intros Hc h. unfold process_turn, Header_SIZE. rewrite len_app. pose proof (len_nonneg rest).
  assert (len (Header_as_ref h) = 4) as -> by done.
  rewrite (proj2 (Z.ltb_ge _ _)) by lia. rewrite header_raw_as_ref, bind_Done. subst h.
  rewrite Header_parse_new, is_error_new, Header_channel_new. unfold ChannelId_get. rewrite Hc.
  unfold process_frame. rewrite kind_new, bind_Done. by destruct k.
Qed.

Lemma advance_header h rest : advance (Header_as_ref h ++ rest) Header_SIZE = Done rest.
Proof.
  unfold Header_SIZE. pose proof (len_nonneg rest). assert (len (Header_as_ref h) = 4) as Hh by done.
  rewrite advance_Done by (rewrite len_app; lia). by rewrite drop_app_len.
Qed.

(** ** Messages without a payload *)

(** The channel once a request was received. *)
Definition received_request (c : Channel) (id : Id) : Channel :=
  set_allowance (set_incoming c ({[id]} ∪ incoming_requests c))
    (Z.min (cancellation_allowance c + 1) (request_limit (config c))).
(** A request under [id] is acceptable. *)
Definition request_acceptable (c : Channel) (id : Id) : Prop :=
  is_at_max_incoming_requests c = false ∧ id ∉ incoming_requests c.

Lemma received_request_ok c id : channel_wf c → Id_wf id → is_at_max_incoming_requests c = false →
  channel_ok c (received_request c id).
Proof.
  intros Hc Hid Hmax. eapply channel_ok_trans; [by apply set_incoming_insert_wf|].
  apply (increment_wf (set_incoming c _)). by apply set_incoming_insert_wf.
Qed.

Section delivery.
Context (p : JulietProtocol) (Hp : protocol_wf p).
Context (ch : ChannelId) (Hch : ChannelId_wf ch) (id : Id) (Hid : Id_wf id).
Context (c : Channel) (Hc : channels p !! Z.to_nat (chan_raw ch) = Some c).
Context (rest : bytes) (Hrest : Forall u8 rest).

Lemma deliver_header_u8 k : Forall u8 (Header_as_ref (Header_new k ch id) ++ rest).
Proof using Hch Hid Hrest.
  apply Forall_app. split; [|done]. apply Header_as_ref_u8. left. by exists k, ch, id.
Qed.

Lemma deliver_request_None : request_acceptable c id →
  process_incoming p (Header_as_ref (Header_new KRequest ch id) ++ rest)
  = Done (Success (NewRequest ch id None), (put_channel p ch (received_request c id), rest)).
Proof using Hp Hch Hid Hc Hrest.
  intros [Hmax Hn]. rewrite process_incoming_unfold by (done || apply deliver_header_u8).
  rewrite (process_turn_header p KRequest ch id c) by done. unfold process_request.
  rewrite Hmax, Header_id_new by done. unfold hs_insert. rewrite bool_decide_eq_true_2 by done.
  cbn [negb]. pose proof (channel_wf_lookup _ _ _ Hp Hc) as Hwf.
  rewrite increment_cancellation_allowance_Done by by apply set_incoming_insert_wf.
  rewrite bind_Done, advance_header, bind_Done. by rewrite Header_channel_new.
Qed.

Lemma deliver_response_None : id ∈ outgoing_requests c →
  process_incoming p (Header_as_ref (Header_new KResponse ch id) ++ rest)
  = Done (Success (ReceivedResponse ch id None),
          (put_channel p ch (set_outgoing c (outgoing_requests c ∖ {[id]})), rest)).
Proof using Hp Hch Hid Hc Hrest.
  intros Hin. rewrite process_incoming_unfold by (done || apply deliver_header_u8).
  rewrite (process_turn_header p KResponse ch id c) by done. unfold process_response, hs_remove.
  rewrite Header_id_new, bool_decide_eq_true_2 by done. cbn [negb].
  rewrite advance_header, bind_Done. by rewrite Header_channel_new.
Qed.

Lemma deliver_cancel_resp : id ∈ outgoing_requests c →
  process_incoming p (Header_as_ref (Header_new KCancelResp ch id) ++ rest)
  = Done (Success (ResponseCancellation ch id),
          (put_channel p ch (set_outgoing c (outgoing_requests c ∖ {[id]})), rest)).
Proof using Hp Hch Hid Hc Hrest.
  intros Hin. rewrite process_incoming_unfold by (done || apply deliver_header_u8).
  rewrite (process_turn_header p KCancelResp ch id c) by done. unfold process_cancel_resp, hs_remove.
  rewrite Header_id_new, bool_decide_eq_true_2 by done.
  rewrite advance_header, bind_Done. by rewrite Header_channel_new.
Qed.

(** A cancellation of a request still unanswered is reported; a late one is skipped. *)
Lemma deliver_cancel_req : 0 < cancellation_allowance c → current_multiframe_receiver c = Ready →
  let c' := set_allowance c (cancellation_allowance c - 1) in
  process_incoming p (Header_as_ref (Header_new KCancelReq ch id) ++ rest)
  = if bool_decide (id ∈ incoming_requests c)
    then Done (Success (RequestCancellation ch id), (put_channel p ch c', rest))
    else process_incoming (put_channel p ch c') rest.
Proof using Hp Hch Hid Hc Hrest.
  intros Ha Hr c'. rewrite process_incoming_unfold by (done || apply deliver_header_u8).
  rewrite (process_turn_header p KCancelReq ch id c) by done. unfold process_cancel_req.
  rewrite (proj2 (Z.eqb_neq _ _)), usub_Done by lia. rewrite bind_Done, advance_header, bind_Done.
  unfold cancel_transfer. cbn [set_allowance current_multiframe_receiver]. rewrite Hr.
  cbn [in_progress_header]. fold c'. unfold hs_contains. rewrite Header_id_new, Header_channel_new by done.
  change (incoming_requests c') with (incoming_requests c). by case_bool_decide.
Qed.

(** ** Messages with a payload *)

End delivery.

(** The event of a complete message, and the channel behind it. *)
Definition completed_message (k : Kind) (ch : ChannelId) (id : Id) (payload : bytes) (c : Channel)
    : CompletedRead * Channel :=
  match k with
  | KRequestPl => (NewRequest ch id (Some payload), c)
  | _ => (ReceivedResponse ch id (Some payload), set_outgoing c (outgoing_requests c ∖ {[id]}))
  end.
(** A payload message of kind [k] is acceptable, and the channel once its first frame is in. *)
Definition message_acceptable (k : Kind) (c : Channel) (id : Id) (payload : bytes) : Prop :=
  match k with
  | KRequestPl => request_acceptable c id ∧ len payload ≤ max_request_payload_size (config c)
  | _ => id ∈ outgoing_requests c ∧ len payload ≤ max_response_payload_size (config c)
  end.
Definition message_started (k : Kind) (c : Channel) (id : Id) : Channel :=
  match k with KRequestPl => received_request c id | _ => c end.

(** The frames after the first: the header is known, so neither limit is looked at again. *)
Definition transfer_acceptable (k : Kind) (c : Channel) (id : Id) : Prop :=
  match k with KRequestPl => True | _ => id ∈ outgoing_requests c end.

Lemma turn_later k p ch id c stored body n rest :
  k = KRequestPl ∨ k = KResponsePl →
  protocol_wf p → ChannelId_wf ch → Id_wf id → Forall u8 body → Forall u8 rest →
  channels p !! Z.to_nat (chan_raw ch) = Some c → transfer_acceptable k c id →
  u32 (len stored + len body) →
  let h := Header_new k ch id in let space := mfs (max_frame_size p) - 4 in
  Z.of_nat n * space < len body ≤ Z.of_nat (S n) * space →
  current_multiframe_receiver c = InProgress h stored (len stored + len body) →
  process_turn p (segment_frames h (S n) space body ++ rest)
  = match n with
    | O => let '(read, c') := completed_message k ch id (stored ++ body) (set_receiver c Ready) in
           Done (Some (Success read), (put_channel p ch c', rest))
    | S _ => Done (None,
        (put_channel p ch (set_receiver c
           (InProgress h (stored ++ take (Z.to_nat space) body) (len stored + len body))),
         segment_frames h n space (drop (Z.to_nat space) body) ++ rest))
    end.
Proof.
  intros Hk Hp Hch Hid Hb Hrest Hc Hacc Hu h space Hn Hr. pose proof (pw_mfs p Hp) as Hm.
  assert (Header_wf h) as Hh by (left; by exists k, ch, id).
  destruct (segment_frames_ready h n space body rest Hh Hb Hrest) as [Hbuf Hlen].
  assert (segment_frames h (S n) space body ++ rest
    = Header_as_ref h ++ (take (Z.to_nat space) body
        ++ segment_frames h n space (drop (Z.to_nat space) body) ++ rest)) as Heq.
  { unfold segment_frames. cbn [segments map concat]. by rewrite <- !app_assoc. }
  rewrite Heq, (process_turn_header p k ch id c) by done. fold h. rewrite <- Heq.
  assert (∀ max kind, accept (current_multiframe_receiver c) h (segment_frames h (S n) space body ++ rest)
     (max_frame_size p) max kind
   = Done (accept_spec (InProgress h stored (len stored + len body)) h
       (segment_frames h (S n) space body ++ rest) (max_frame_size p) max kind)) as Hdone.
  { intros. rewrite Hr. apply accept_Done; try done. split; [nia|done]. }
  pose proof (λ max kind, accept_spec_later h (max_frame_size p) stored body n rest max kind Hm Hn) as Hs.
  fold space in Hs. destruct Hk as [-> | ->].
  - unfold process_request_pl. rewrite Hdone, bind_Done, Hs. destruct n as [|n]; [|done].
    unfold record_request_frame. cbn. subst h. by rewrite Header_id_new, Header_channel_new.
  - unfold process_response_pl. cbn [transfer_acceptable] in Hacc. unfold hs_contains.
    assert (Header_id h = id) as Hhid by by apply Header_id_new.
    rewrite Hhid, bool_decide_eq_true_2 by done. cbn [negb]. rewrite Hdone, bind_Done, Hs.
    destruct n as [|n]; [|done]. cbn [into_completed_payload completed_message].
    subst h. by rewrite Header_channel_new.
Qed.

Lemma deliver_later k ch id rest n : ∀ p c stored body,
  k = KRequestPl ∨ k = KResponsePl →
  protocol_wf p → ChannelId_wf ch → Id_wf id → Forall u8 body → Forall u8 rest →
  channels p !! Z.to_nat (chan_raw ch) = Some c → transfer_acceptable k c id →
  u32 (len stored + len body) →
  let h := Header_new k ch id in let space := mfs (max_frame_size p) - 4 in
  Z.of_nat n * space < len body ≤ Z.of_nat (S n) * space →
  current_multiframe_receiver c = InProgress h stored (len stored + len body) →
  process_incoming p (segment_frames h (S n) space body ++ rest)
  = let '(read, c') := completed_message k ch id (stored ++ body) (set_receiver c Ready) in
    Done (Success read, (put_channel p ch c', rest)).
Proof.
  induction n as [|n IH]; intros p c stored body Hk Hp Hch Hid Hb Hrest Hc Hacc Hu h space Hn Hr;
    (assert (Header_wf h) as Hh by (left; by exists k, ch, id));
    pose proof (MaxFrameSize_wf_bounds _ (pw_mfs p Hp)).
  - destruct (segment_frames_ready h 0 space body rest Hh Hb Hrest) as [Hbuf _].
    rewrite process_incoming_unfold by done.
    rewrite (turn_later k p ch id c stored body 0) by done. by destruct (completed_message _ _ _ _ _).
  - destruct (segment_frames_ready h (S n) space body rest Hh Hb Hrest) as [Hbuf _].
    rewrite process_incoming_unfold by done.
    pose proof (turn_later k p ch id c stored body (S n) rest Hk Hp Hch Hid Hb Hrest Hc Hacc Hu Hn Hr) as Ht.
    fold space in Ht. fold h in Ht.
    set (tk := take (Z.to_nat space) body) in *. set (dr := drop (Z.to_nat space) body) in *.
    assert (body = tk ++ dr) as Hbody by (symmetry; apply take_drop).
    assert (len tk = space) as Htl by (apply len_take; unfold space in *; nia).
    assert (len body = len tk + len dr) as Hsplit by (rewrite Hbody at 1; apply len_app).
    replace (len stored + len body) with (len (stored ++ tk) + len dr) in * by (rewrite len_app; lia).
    destruct (turn_progress _ _ _ _ _ Hp Hbuf Ht) as (Hp' & _).
    rewrite Ht, bind_Done.
    pose proof (IH (put_channel p ch (set_receiver c (InProgress h (stored ++ tk) (len (stored ++ tk) + len dr))))
      (set_receiver c (InProgress h (stored ++ tk) (len (stored ++ tk) + len dr))) (stored ++ tk) dr) as IH'.
    cbv zeta in IH'. cbn [put_channel max_frame_size] in IH'. fold space in IH'. fold h in IH'.
    change (mkJulietProtocol (<[Z.to_nat (chan_raw ch):=?x]> (channels p)) (max_frame_size p))
      with (put_channel p ch x) in IH'.
    cbn [put_channel] in Hp' |- *. rewrite IH'; try done.
    + rewrite <- app_assoc, <- Hbody.
      change (mkJulietProtocol (<[Z.to_nat (chan_raw ch):=?x]> (channels p)) (max_frame_size p))
        with (put_channel p ch x).
      destruct Hk as [-> | ->]; cbn [completed_message]; by rewrite put_channel_twice.
    + by apply Forall_drop.
    + by apply (put_channel_lookup p ch c).
    + unfold space in *. lia.
Qed.

Lemma receiver_of_started k c id :
  current_multiframe_receiver (message_started k c id) = current_multiframe_receiver c.
Proof. by destruct k. Qed.

Lemma started_receiver_wf m h buffer c completed r b :
  MaxFrameSize_wf m → Header_wf h → Forall u8 buffer → 4 ≤ len buffer → channel_wf c →
  kind h = Done KRequestPl → is_error h = false →
  accept_spec Ready h buffer m (max_request_payload_size (config c)) ERequestTooLarge
    = (Success completed, (r, b)) →
  channel_wf (set_receiver c r).
Proof.
  intros Hm Hh Hb Hl Hc Hk Herr Hs.
  destruct (accept_safe Ready h buffer m (max_request_payload_size (config c)) ERequestTooLarge Hm I Hb Hl)
    as (o & r' & b' & Ha & Hr' & Heff).
  rewrite accept_Done, Hs in Ha by done. injection Ha as <- <- <-. destruct Heff as [Heff _].
  apply set_receiver_wf; [done..|].
  apply (accept_transfer_wf (config c) Ready r h _ completed Hh I Heff Herr). by left.
Qed.

(** The turn on the first frame, given what [accept] says about it. *)
Lemma turn_start k p ch id c pl rest completed r b :
  k = KRequestPl ∨ k = KResponsePl →
  protocol_wf p → ChannelId_wf ch → Id_wf id → Forall u8 pl → u32 (len pl) → Forall u8 rest →
  channels p !! Z.to_nat (chan_raw ch) = Some c →
  current_multiframe_receiver c = Ready → message_acceptable k c id pl →
  let h := Header_new k ch id in
  let buffer := wire (max_frame_size p) (OutgoingMessage_new h (Some pl)) ++ rest in
  (∀ max kind, len pl ≤ max →
     accept_spec Ready h buffer (max_frame_size p) max kind = (Success completed, (r, b))) →
  was_new completed = true →
  process_turn p buffer
  = match into_completed_payload completed with
    | Some payload =>
        let '(read, c') := completed_message k ch id payload (set_receiver (message_started k c id) r) in
        Done (Some (Success read), (put_channel p ch c', b))
    | None => Done (None, (put_channel p ch (set_receiver (message_started k c id) r), b))
    end.
Proof.
  intros Hk Hp Hch Hid Hpl Hu Hrest Hc Hr Hacc h buffer Hspec Hnew. pose proof (pw_mfs p Hp) as Hm.
  assert (Header_wf h) as Hh by (left; by exists k, ch, id).
  destruct (wire_ready (max_frame_size p) h pl rest) as [Hb Hl]; [done..|]. fold buffer in Hb, Hl.
  assert (∀ max kind, len pl ≤ max →
    accept (current_multiframe_receiver c) h buffer (max_frame_size p) max kind
    = Done (Success completed, (r, b))) as Hdone.
  { intros. rewrite Hr, accept_Done by done. by rewrite Hspec. }
  assert (∃ tl, buffer = Header_as_ref h ++ tl) as [tl Htl].
  { unfold buffer. rewrite wire_Some by done. cbv zeta. rewrite <- !app_assoc. by eexists. }
  assert (Header_id h = id) as Hhid by by apply Header_id_new.
  assert (Header_channel h = ch) as Hhch by apply Header_channel_new.
  pose proof (process_turn_header p k ch id c tl Hc) as Ht. cbv zeta in Ht. fold h in Ht.
  rewrite <- Htl in Ht. rewrite Ht. destruct Hk as [-> | ->]; destruct Hacc as [Hacc Hmax].
  - destruct Hacc as [Hatmax Hn]. unfold process_request_pl. rewrite Hdone, bind_Done by done.
    unfold record_request_frame. rewrite Hnew.
    change (is_at_max_incoming_requests (set_receiver c r)) with (is_at_max_incoming_requests c).
    rewrite Hatmax, Hhid, Hhch. unfold hs_insert.
    change (incoming_requests (set_receiver c r)) with (incoming_requests c).
    rewrite bool_decide_eq_true_2 by done. cbn [negb].
    pose proof (channel_wf_lookup _ _ _ Hp Hc) as Hwf.
    rewrite increment_cancellation_allowance_Done.
    { rewrite bind_Done. by destruct (into_completed_payload completed). }
    apply (set_incoming_insert_wf (set_receiver c r) id); [|done..].
    apply (started_receiver_wf (max_frame_size p) h buffer c completed r b); try done.
    by apply Hspec.
  - unfold process_response_pl, hs_contains. rewrite Hhid, bool_decide_eq_true_2 by done. cbn [negb].
    rewrite Hdone, bind_Done by done. rewrite Hhch. by destruct (into_completed_payload completed).
Qed.

Lemma deliver_payload k p ch id c pl rest :
  k = KRequestPl ∨ k = KResponsePl →
  protocol_wf p → ChannelId_wf ch → Id_wf id → Forall u8 pl → u32 (len pl) → Forall u8 rest →
  channels p !! Z.to_nat (chan_raw ch) = Some c →
  current_multiframe_receiver c = Ready → message_acceptable k c id pl →
  process_incoming p (wire (max_frame_size p) (OutgoingMessage_new (Header_new k ch id) (Some pl)) ++ rest)
  = let '(read, c') := completed_message k ch id pl (message_started k c id) in
    Done (Success read, (put_channel p ch c', rest)).
Proof.
  intros Hk Hp Hch Hid Hpl Hu Hrest Hc Hr Hacc. set (h := Header_new k ch id).
  pose proof (pw_mfs p Hp) as Hm. assert (Header_wf h) as Hh by (left; by exists k, ch, id).
  destruct (wire_ready (max_frame_size p) h pl rest) as [Hb Hl]; [done..|].
  assert (set_receiver (message_started k c id) Ready = message_started k c id) as Hready.
  { rewrite <- Hr, <- (receiver_of_started k c id). apply set_receiver_id. }
  rewrite process_incoming_unfold by done.
  destruct (decide (frame_count (max_frame_size p) (Some pl) = 1)) as [Hone|Hmany].
  - pose proof (turn_start k p ch id c pl rest (SingleFrame pl) Ready rest) as Ht.
    cbv zeta in Ht. fold h in Ht. rewrite Ht; try done.
    + cbn [into_completed_payload]. rewrite Hready. by destruct (completed_message _ _ _ _ _).
    + intros max kind Hmax. by apply accept_spec_single.
  - destruct (multi_frame_start h (max_frame_size p) pl rest Hm Hu Hmany) as (n & tk & dr & Hpe & _ & Hn & Hs).
    pose proof (turn_start k p ch id c pl rest NewMultiFrame _ _ Hk Hp Hch Hid Hpl Hu Hrest Hc Hr Hacc Hs eq_refl) as Ht.
    fold h in Ht. cbn [into_completed_payload] in Ht. destruct (turn_progress _ _ _ _ _ Hp Hb Ht) as (Hp' & _).
    rewrite Ht, bind_Done.
    set (c1 := set_receiver (message_started k c id) (InProgress h tk (len tk + len dr))) in *.
    pose proof (deliver_later k ch id rest n (put_channel p ch c1) c1 tk dr Hk Hp' Hch Hid) as Hd.
    rewrite Hpe, len_app in Hu. rewrite Hpe in Hpl. apply Forall_app in Hpl as [_ Hdr].
    cbv zeta in Hd. fold h in Hd. cbn [put_channel max_frame_size] in Hd.
    cbn [put_channel] in Hd |- *. rewrite Hd; try done.
    + rewrite <- Hpe. change (set_receiver c1 Ready) with (set_receiver (message_started k c id) Ready).
      rewrite Hready. destruct Hk as [-> | ->]; cbn [completed_message];
        unfold put_channel; cbn [channels max_frame_size]; by rewrite list_insert_insert_eq.
    + by apply (put_channel_lookup p ch c).
    + destruct Hk as [-> | ->]; [done|]. by destruct Hacc.
Qed.

(** ** Every message of an endpoint *)

Inductive Msg :=
  | MReq (ch : ChannelId) (id : Id) (payload : option bytes)
  | MResp (ch : ChannelId) (id : Id) (payload : option bytes)
  | MCancelReq (ch : ChannelId) (id : Id)
  | MCancelResp (ch : ChannelId) (id : Id).

Definition message_of (m : Msg) : OutgoingMessage :=
  match m with
  | MReq ch id payload => request_message ch id payload
  | MResp ch id payload => response_message ch id payload
  | MCancelReq ch id => create_unchecked_request_cancellation ch id
  | MCancelResp ch id => create_unchecked_response_cancellation ch id
  end.
Definition msg_channel (m : Msg) : ChannelId :=
  match m with MReq ch _ _ | MResp ch _ _ | MCancelReq ch _ | MCancelResp ch _ => ch end.
Definition msg_id (m : Msg) : Id :=
  match m with MReq _ id _ | MResp _ id _ | MCancelReq _ id | MCancelResp _ id => id end.
Definition msg_payload (m : Msg) : option bytes :=
  match m with MReq _ _ pl | MResp _ _ pl => pl | _ => None end.

(** A payload of bytes within the limit the configuration sets for it. *)
Definition payload_ok (limit : Z) (payload : option bytes) : Prop :=
  match payload with Some pl => Forall u8 pl ∧ len pl ≤ limit | None => True end.
Definition msg_ok (cfg : ChannelConfiguration) (m : Msg) : Prop :=
  ChannelId_wf (msg_channel m) ∧ Id_wf (msg_id m) ∧
  match m with
  | MReq _ _ pl => payload_ok (max_request_payload_size cfg) pl
  | MResp _ _ pl => payload_ok (max_response_payload_size cfg) pl
  | _ => True
  end.

(** When a channel accepts a message, what it becomes, and what is reported. *)
Definition acceptable (m : Msg) (c : Channel) : Prop :=
  match m with
  | MReq _ id _ => request_acceptable c id
  | MResp _ id _ | MCancelResp _ id => id ∈ outgoing_requests c
  | MCancelReq _ _ => 0 < cancellation_allowance c
  end.
Definition effect (m : Msg) (c : Channel) : Channel :=
  match m with
  | MReq _ id _ => received_request c id
  | MResp _ id _ | MCancelResp _ id => set_outgoing c (outgoing_requests c ∖ {[id]})
  | MCancelReq _ _ => set_allowance c (cancellation_allowance c - 1)
  end.
Definition report (m : Msg) (c : Channel) : option CompletedRead :=
  match m with
  | MReq ch id pl => Some (NewRequest ch id pl)
  | MResp ch id pl => Some (ReceivedResponse ch id pl)
  | MCancelReq ch id =>
      if bool_decide (id ∈ incoming_requests c) then Some (RequestCancellation ch id) else None
  | MCancelResp ch id => Some (ResponseCancellation ch id)
  end.

Lemma deliver_message p m c rest : protocol_wf p → msg_ok (config c) m → Forall u8 rest →
  channels p !! Z.to_nat (chan_raw (msg_channel m)) = Some c →
  current_multiframe_receiver c = Ready → acceptable m c →
  process_incoming p (wire (max_frame_size p) (message_of m) ++ rest)
  = match report m c with
    | Some read => Done (Success read, (put_channel p (msg_channel m) (effect m c), rest))
    | None => process_incoming (put_channel p (msg_channel m) (effect m c)) rest
    end.
Proof.
  intros Hp (Hch & Hid & Hpl) Hrest Hc Hr Hacc. pose proof (pw_mfs p Hp) as Hm.
  destruct (cw_config c (channel_wf_lookup _ _ _ Hp Hc)) as (_ & Hq & Hs).
  destruct m as [ch id [pl|]|ch id [pl|]|ch id|ch id]; cbn [msg_channel msg_id report acceptable effect] in *.
  - destruct Hpl as [Hu Hmax].
    apply (deliver_payload KRequestPl p ch id c pl rest); try done; [by left|split; [|ulia]].
    apply len_nonneg.
  - unfold message_of, request_message. rewrite wire_None by done. by apply deliver_request_None.
  - destruct Hpl as [Hu Hmax].
    apply (deliver_payload KResponsePl p ch id c pl rest); try done; [by right|split; [|ulia]].
    apply len_nonneg.
  - unfold message_of, response_message. rewrite wire_None by done. by apply deliver_response_None.
  - unfold message_of, create_unchecked_request_cancellation. rewrite wire_None by done.
    rewrite (deliver_cancel_req p Hp ch Hch id Hid c) by done. by case_bool_decide.
  - unfold message_of, create_unchecked_response_cancellation. rewrite wire_None by done.
    by apply deliver_cancel_resp.
Qed.

(** ** Properties *)

(** C19: a message on the wire arrives as it was sent: whatever its payload and however many frames it
    takes, if the receiving channel has room for the request (or is waiting for the response),
    [process_incoming] reports the event with the id and the payload of the message, leaves the
    bytes behind the message in the buffer and changes nothing but the channel's bookkeeping;
    only a request cancellation that comes too late is skipped. *)
Theorem message_roundtrip p m c rest : protocol_wf p → msg_ok (config c) m → Forall u8 rest →
  channels p !! Z.to_nat (chan_raw (msg_channel m)) = Some c →
  current_multiframe_receiver c = Ready → acceptable m c →
  process_incoming p (wire (max_frame_size p) (message_of m) ++ rest)
  = match report m c with
    | Some read => Done (Success read, (put_channel p (msg_channel m) (effect m c), rest))
    | None => process_incoming (put_channel p (msg_channel m) (effect m c)) rest
    end.
Proof. apply deliver_message. Qed.
Lemma message_roundtrip_witness :
  let m := MReq (ChannelId_new 0) (Id_new 9) (Some (replicate 33 5)) in
  process_incoming busy_protocol (wire (max_frame_size busy_protocol) (message_of m) ++ [1; 2])
  = Done (Success (NewRequest (ChannelId_new 0) (Id_new 9) (Some (replicate 33 5))),
          (put_channel busy_protocol (ChannelId_new 0) (received_request busy (Id_new 9)), [1; 2])).
Proof.
  refine (message_roundtrip busy_protocol (MReq (ChannelId_new 0) (Id_new 9) (Some (replicate 33 5)))
    busy [1; 2] busy_protocol_wf _ _ eq_refl eq_refl _).
  - split; [split; vm_compute; discriminate|]. split; [split; vm_compute; discriminate|].
    split; [apply Forall_replicate; split; vm_compute; discriminate|vm_compute; discriminate].
  - repeat constructor; vm_compute; discriminate.
  - split; [reflexivity|]. cbn. set_solver.
Defined.
