(* ===== verification/Peers.v ===== *)
(** * Two endpoints

    Two protocols with the same configuration talk over a pair of ordered, reliable streams.
    Either one may at any time create a request, a response, a cancellation of a response or, at
    most once per request, a cancellation of a request, and either one may at any time process
    the oldest message it has not processed yet.  Neither can ever provoke an error in the
    other. *)
From stdpp Require Import functions relations.
From S2P Require Import Prelude Lib Varint Header FrameSize OutgoingMessage WireFormat Multiframe.
From S2P Require Import MultiframeSpec Protocol ProtocolInv ProcessIncoming ProtocolOps Delivery.
From stdpp Require Import options.

(** ** The system *)

(** An endpoint, the messages it has sent that the other has not processed yet, and the
    outstanding requests it has cancelled. *)
Record endpoint := mkEndpoint {
  proto : JulietProtocol;
  sent : list Msg;
  cancelled : ChannelId → gset Id;
}.
Record system := mkSystem { here : endpoint; there : endpoint }.
Definition flip_system (s : system) : system := mkSystem (there s) (here s).

Definition payload_bytes (payload : option bytes) : Prop := Forall u8 (default [] payload).

(** What the caller of an endpoint may do. *)
Inductive local_step : endpoint → endpoint → Prop :=
  | local_request e ch payload id p' :
      ChannelId_wf ch → payload_bytes payload →
      create_request (proto e) ch payload = Done (Ok (message_of (MReq ch id payload)), p') →
      Id_wf id →
      local_step e (mkEndpoint p' (sent e ++ [MReq ch id payload])
                      (<[ch := cancelled e ch ∖ {[id]}]> (cancelled e)))
  | local_response e ch id payload p' :
      ChannelId_wf ch → payload_bytes payload →
      create_response (proto e) ch id payload = Done (Ok (Some (message_of (MResp ch id payload))), p') →
      local_step e (mkEndpoint p' (sent e ++ [MResp ch id payload]) (cancelled e))
  | local_cancel_request e ch id p' :
      ChannelId_wf ch → id ∉ cancelled e ch →
      cancel_request (proto e) ch id = Done (Ok (Some (message_of (MCancelReq ch id))), p') →
      local_step e (mkEndpoint p' (sent e ++ [MCancelReq ch id])
                      (<[ch := {[id]} ∪ cancelled e ch]> (cancelled e)))
  | local_cancel_response e ch id p' :
      ChannelId_wf ch →
      cancel_response (proto e) ch id = Done (Ok (Some (message_of (MCancelResp ch id))), p') →
      local_step e (mkEndpoint p' (sent e ++ [MCancelResp ch id]) (cancelled e)).

Inductive step : system → system → Prop :=
  | step_local s e' : local_step (here s) e' → step s (mkSystem e' (there s))
  | step_receive s m q o p' rest :
      sent (here s) = m :: q →
      process_incoming (proto (there s)) (wire (max_frame_size (proto (here s))) (message_of m))
        = Done (o, (p', rest)) →
      step s (mkSystem (mkEndpoint (proto (here s)) q (cancelled (here s)))
                       (mkEndpoint p' (sent (there s)) (cancelled (there s))))
  | step_flip s s' : step s s' → step (flip_system s) (flip_system s').

Definition init_endpoint (b : ProtocolBuilder) : endpoint :=
  mkEndpoint (ProtocolBuilder_build b) [] (λ _, ∅).
Definition init (b : ProtocolBuilder) : system := mkSystem (init_endpoint b) (init_endpoint b).

(** ** The invariant of a channel *)

Definition requests_in (q : list Msg) : list Id :=
  omap (λ m, match m with MReq _ id _ => Some id | _ => None end) q.
Definition answers_in (q : list Msg) : list Id :=
  omap (λ m, match m with MResp _ id _ | MCancelResp _ id => Some id | _ => None end) q.

(** The cancellation allowance once the messages in [q] are processed, if it suffices. *)
Fixpoint allowance_after (limit a : Z) (q : list Msg) : option Z :=
  match q with
  | [] => Some a
  | MReq _ _ _ :: q => allowance_after limit (Z.min (a + 1) limit) q
  | MCancelReq _ _ :: q => if 0 <? a then allowance_after limit (a - 1) q else None
  | _ :: q => allowance_after limit a q
  end.

(** The requests of [cx] to [cy], over the queue [q] towards [cy] and the queue [q'] back: an
    outstanding request is in exactly one of three places, and the allowance covers every
    cancellation sent and every one still possible. *)
Record requests_inv (cx cy : Channel) (q q' : list Msg) (canc : gset Id) : Prop := {
  ri_places id : id ∈ outgoing_requests cx ↔
    id ∈ requests_in q ∨ id ∈ incoming_requests cy ∨ id ∈ answers_in q';
  ri_requests : NoDup (requests_in q);
  ri_answers : NoDup (answers_in q');
  ri_apart id : ¬ (id ∈ requests_in q ∧ id ∈ incoming_requests cy) ∧
                ¬ (id ∈ requests_in q ∧ id ∈ answers_in q') ∧
                ¬ (id ∈ incoming_requests cy ∧ id ∈ answers_in q');
  ri_allowance : ∃ a, allowance_after (request_limit (config cy)) (cancellation_allowance cy) q = Some a ∧
                      hs_len (outgoing_requests cx ∖ canc) ≤ a;
}.

Lemma requests_in_app q m : requests_in (q ++ [m]) = requests_in q ++ requests_in [m].
Proof. apply omap_app. Qed.
Lemma answers_in_app q m : answers_in (q ++ [m]) = answers_in q ++ answers_in [m].
Proof. apply omap_app. Qed.
Lemma allowance_after_app limit q m : ∀ a,
  allowance_after limit a (q ++ [m])
  = match allowance_after limit a q with Some a => allowance_after limit a [m] | None => None end.
Proof.
  induction q as [|[ch id pl|ch id pl|ch id|ch id] q IH]; intros a; cbn [app allowance_after]; try done.
  by destruct (0 <? a).
Qed.

(** What the invariant reads of the two channels. *)
Lemma requests_inv_ext cx cy cx' cy' q q' canc :
  outgoing_requests cx' = outgoing_requests cx → incoming_requests cy' = incoming_requests cy →
  cancellation_allowance cy' = cancellation_allowance cy → config cy' = config cy →
  requests_inv cx cy q q' canc → requests_inv cx' cy' q q' canc.
Proof.
  intros Ho Hi Ha Hc [Hp Hr Hans Hap Hall].
  constructor; rewrite ?Ho, ?Hi, ?Ha, ?Hc; done.
Qed.

(** Messages that do not concern the requests of this direction. *)
Definition is_answer (m : Msg) : bool := match m with MResp _ _ _ | MCancelResp _ _ => true | _ => false end.

Lemma inv_sent_answer cx cy q q' canc m : is_answer m = true →
  requests_inv cx cy q q' canc → requests_inv cx cy (q ++ [m]) q' canc.
Proof.
  intros Hm [Hp Hr Hans Hap (a & Ha & Hle)].
  assert (requests_in (q ++ [m]) = requests_in q) as Hrq
    by (rewrite requests_in_app; destruct m; try done; apply app_nil_r).
  constructor; rewrite ?Hrq; try done.
  exists a. rewrite allowance_after_app, Ha. by destruct m.
Qed.
Lemma inv_back_other cx cy q q' canc m : is_answer m = false →
  requests_inv cx cy q q' canc → requests_inv cx cy q (q' ++ [m]) canc.
Proof.
  intros Hm [Hp Hr Hans Hap Hall].
  assert (answers_in (q' ++ [m]) = answers_in q') as Hrq
    by (rewrite answers_in_app; destruct m; try done; apply app_nil_r).
  constructor; rewrite ?Hrq; done.
Qed.
Lemma inv_received_answer cx cy m q q' canc : is_answer m = true →
  requests_inv cx cy (m :: q) q' canc → requests_inv cx cy q q' canc.
Proof. intros Hm [Hp Hr Hans Hap Hall]. by destruct m. Qed.
Lemma inv_back_received_other cx cy m q q' canc : is_answer m = false →
  requests_inv cx cy q (m :: q') canc → requests_inv cx cy q q' canc.
Proof. intros Hm [Hp Hr Hans Hap Hall]. by destruct m. Qed.

(** ** What each operation does to it *)

Lemma NoDup_snoc {A} (l : list A) x : NoDup l → x ∉ l → NoDup (l ++ [x]).
Proof. intros Hl Hx. apply NoDup_app. split_and!; [done|set_solver|apply NoDup_singleton]. Qed.

Lemma inv_request cx cy cx' q q' canc ch id payload :
  requests_inv cx cy q q' canc → id ∉ outgoing_requests cx →
  outgoing_requests cx' = {[id]} ∪ outgoing_requests cx →
  hs_len (outgoing_requests cx') ≤ request_limit (config cy) →
  requests_inv cx' cy (q ++ [MReq ch id payload]) q' (canc ∖ {[id]}).
Proof.
  intros [Hp Hr Hans Hap (a & Ha & Hle)] Hn Ho Hlim.
  assert (requests_in (q ++ [MReq ch id payload]) = requests_in q ++ [id]) as Hrq by apply requests_in_app.
  assert (¬ (id ∈ requests_in q ∨ id ∈ incoming_requests cy ∨ id ∈ answers_in q')) as Hnone
    by (intros H; apply Hn, Hp, H).
  constructor; rewrite ?Hrq; try done.
  - intros x. rewrite Ho, elem_of_union, elem_of_singleton, elem_of_app, list_elem_of_singleton, Hp. tauto.
  - apply NoDup_snoc; [done|tauto].
  - intros x. rewrite elem_of_app, list_elem_of_singleton. specialize (Hap x).
    destruct (decide (x = id)) as [->|]; tauto.
  - exists (Z.min (a + 1) (request_limit (config cy))). rewrite allowance_after_app, Ha.
    split; [done|]. apply Z.min_glb.
    + assert (outgoing_requests cx' ∖ (canc ∖ {[id]}) ⊆ {[id]} ∪ (outgoing_requests cx ∖ canc)) as Hsub
        by (rewrite Ho; set_solver).
      apply subseteq_size in Hsub. pose proof (hs_len_insert (outgoing_requests cx ∖ canc) id) as Hins.
      unfold hs_len in *. specialize (Hins ltac:(set_solver)). lia.
    + pose proof (subseteq_size (outgoing_requests cx' ∖ (canc ∖ {[id]})) (outgoing_requests cx') ltac:(set_solver)).
      unfold hs_len in *. lia.
Qed.

Lemma inv_answer cx cy cy' q q' canc m : is_answer m = true →
  requests_inv cx cy q q' canc → msg_id m ∈ incoming_requests cy →
  incoming_requests cy' = incoming_requests cy ∖ {[msg_id m]} →
  cancellation_allowance cy' = cancellation_allowance cy → config cy' = config cy →
  requests_inv cx cy' q (q' ++ [m]) canc.
Proof.
  intros Hm [Hp Hr Hans Hap Hall] Hin Hi Ha Hc.
  assert (answers_in (q' ++ [m]) = answers_in q' ++ [msg_id m]) as Hrq
    by (rewrite answers_in_app; by destruct m).
  constructor; rewrite ?Hrq, ?Ha, ?Hc; try done.
  - intros x. rewrite Hi, elem_of_difference, elem_of_singleton, elem_of_app, list_elem_of_singleton, Hp.
    destruct (decide (x = msg_id m)) as [->|]; tauto.
  - apply NoDup_snoc; [done|]. specialize (Hap (msg_id m)). tauto.
  - intros x. rewrite Hi, elem_of_difference, elem_of_singleton, elem_of_app, list_elem_of_singleton.
    specialize (Hap x). destruct (decide (x = msg_id m)) as [->|]; tauto.
Qed.

Lemma inv_cancel cx cy q q' canc ch id :
  requests_inv cx cy q q' canc → id ∈ outgoing_requests cx → id ∉ canc →
  requests_inv cx cy (q ++ [MCancelReq ch id]) q' ({[id]} ∪ canc).
Proof.
  intros [Hp Hr Hans Hap (a & Ha & Hle)] Hin Hn.
  assert (requests_in (q ++ [MCancelReq ch id]) = requests_in q) as Hrq
    by (rewrite requests_in_app; apply app_nil_r).
  constructor; rewrite ?Hrq; try done.
  assert (outgoing_requests cx ∖ ({[id]} ∪ canc) = (outgoing_requests cx ∖ canc) ∖ {[id]}) as Heq by set_solver.
  pose proof (hs_len_remove_in (outgoing_requests cx ∖ canc) id ltac:(set_solver)) as Hlen.
  pose proof (hs_len_nonneg ((outgoing_requests cx ∖ canc) ∖ {[id]})).
  exists (a - 1). rewrite allowance_after_app, Ha. cbn [allowance_after].
  rewrite (proj2 (Z.ltb_lt 0 a)) by lia. rewrite Heq. split; [done|lia].
Qed.

Lemma inv_received_request cx cy q q' canc ch id payload :
  requests_inv cx cy (MReq ch id payload :: q) q' canc →
  requests_inv cx (received_request cy id) q q' canc.
Proof.
  intros [Hp Hr Hans Hap Hall]. change (requests_in (MReq ch id payload :: q)) with (id :: requests_in q) in *.
  apply NoDup_cons in Hr as [Hn Hr]. constructor; try done.
  - intros x. cbn [received_request set_allowance set_incoming incoming_requests].
    rewrite Hp, elem_of_cons, elem_of_union, elem_of_singleton. tauto.
  - intros x. cbn [received_request set_allowance set_incoming incoming_requests].
    rewrite elem_of_union, elem_of_singleton. specialize (Hap x). rewrite elem_of_cons in Hap.
    destruct (decide (x = id)) as [->|]; tauto.
Qed.

Lemma inv_received_cancel cx cy q q' canc ch id :
  requests_inv cx cy (MCancelReq ch id :: q) q' canc →
  0 < cancellation_allowance cy ∧
  requests_inv cx (set_allowance cy (cancellation_allowance cy - 1)) q q' canc.
Proof.
  intros [Hp Hr Hans Hap (a & Ha & Hle)]. cbn [allowance_after] in Ha.
  destruct (Z.ltb_spec 0 (cancellation_allowance cy)); [|done]. split; [done|].
  constructor; try done. by exists a.
Qed.

Lemma inv_back_answer cx cy m q q' canc : is_answer m = true →
  requests_inv cx cy q (m :: q') canc →
  msg_id m ∈ outgoing_requests cx ∧
  requests_inv (set_outgoing cx (outgoing_requests cx ∖ {[msg_id m]})) cy q q' canc.
Proof.
  intros Hm [Hp Hr Hans Hap (a & Ha & Hle)].
  assert (answers_in (m :: q') = msg_id m :: answers_in q') as Hrq by by destruct m.
  rewrite Hrq in *. apply NoDup_cons in Hans as [Hn Hans].
  split; [apply Hp; rewrite elem_of_cons; tauto|]. constructor; try done.
  - intros x. cbn [set_outgoing outgoing_requests]. rewrite elem_of_difference, elem_of_singleton, Hp.
    rewrite elem_of_cons. specialize (Hap x). rewrite elem_of_cons in Hap.
    destruct (decide (x = msg_id m)) as [->|]; tauto.
  - intros x. specialize (Hap x). rewrite elem_of_cons in Hap. tauto.
  - exists a. split; [done|]. cbn [set_outgoing outgoing_requests].
    pose proof (subseteq_size ((outgoing_requests cx ∖ {[msg_id m]}) ∖ canc) (outgoing_requests cx ∖ canc) ltac:(set_solver)).
    unfold hs_len in *. lia.
Qed.

(** A request on its way finds room. *)
Lemma inv_request_acceptable cx cy q q' canc ch id payload :
  requests_inv cx cy (MReq ch id payload :: q) q' canc →
  hs_len (outgoing_requests cx) ≤ request_limit (config cy) → request_acceptable cy id.
Proof.
  intros [Hp Hr Hans Hap Hall] Hlim. change (requests_in (MReq ch id payload :: q)) with (id :: requests_in q) in *.
  assert (id ∉ incoming_requests cy) as Hn.
  { specialize (Hap id). rewrite elem_of_cons in Hap. tauto. }
  split; [|done]. apply Z.leb_gt.
  assert ({[id]} ∪ incoming_requests cy ⊆ outgoing_requests cx) as Hsub.
  { intros x. rewrite elem_of_union, elem_of_singleton, Hp, elem_of_cons. tauto. }
  apply subseteq_size in Hsub. pose proof (hs_len_insert (incoming_requests cy) id Hn).
  unfold hs_len in *. lia.
Qed.

(** ** The invariant of the system *)

Definition on (ch : ChannelId) (q : list Msg) : list Msg := filter (λ m, msg_channel m = ch) q.
Lemma on_app ch q m : on ch (q ++ [m]) = if decide (msg_channel m = ch) then on ch q ++ [m] else on ch q.
Proof.
  unfold on. rewrite filter_app, filter_cons, filter_nil. case_decide; [done|apply app_nil_r].
Qed.
Lemma on_cons ch q m : on ch (m :: q) = if decide (msg_channel m = ch) then m :: on ch q else on ch q.
Proof. unfold on. by rewrite filter_cons. Qed.

Definition chan_at (p : JulietProtocol) (ch : ChannelId) : option Channel :=
  channels p !! Z.to_nat (chan_raw ch).
Lemma chan_at_put p ch c c' : chan_at p ch = Some c → chan_at (put_channel p ch c') ch = Some c'.
Proof. apply put_channel_lookup. Qed.
Lemma chan_at_put_ne p ch ch' c' : ChannelId_wf ch → ChannelId_wf ch' → ch ≠ ch' →
  chan_at (put_channel p ch c') ch' = chan_at p ch'.
Proof.
  intros [H1 _] [H2 _] Hne. apply list_lookup_insert_ne. intros Heq. apply Hne.
  destruct ch, ch'. cbn in *. f_equal. lia.
Qed.
Lemma same_config_chan p p' ch c : same_config p p' → chan_at p ch = Some c →
  ∃ c', chan_at p' ch = Some c' ∧ config c' = config c.
Proof.
  intros [_ Hc] Hl. unfold chan_at in *.
  assert (map config (channels p') !! Z.to_nat (chan_raw ch) = Some (config c)) as H
    by (rewrite Hc, list_lookup_fmap, Hl; done).
  rewrite list_lookup_fmap in H. destruct (channels p' !! _) as [c'|]; [|done].
  exists c'. split; [done|]. by injection H.
Qed.
Lemma same_config_sym p p' : same_config p p' → same_config p' p.
Proof. intros [H1 H2]. by split. Qed.

Definition sent_ok (p : JulietProtocol) (m : Msg) : Prop :=
  ∃ c, chan_at p (msg_channel m) = Some c ∧ msg_ok (config c) m.

Definition channel_inv (e f : endpoint) (ch : ChannelId) (cx cy : Channel) : Prop :=
  current_multiframe_receiver cx = Ready ∧ current_multiframe_receiver cy = Ready ∧
  requests_inv cx cy (on ch (sent e)) (on ch (sent f)) (cancelled e ch) ∧
  requests_inv cy cx (on ch (sent f)) (on ch (sent e)) (cancelled f ch).

Record system_inv (s : system) : Prop := {
  si_here : protocol_wf (proto (here s));
  si_there : protocol_wf (proto (there s));
  si_same : same_config (proto (here s)) (proto (there s));
  si_channels ch cx cy : ChannelId_wf ch →
    chan_at (proto (here s)) ch = Some cx → chan_at (proto (there s)) ch = Some cy →
    channel_inv (here s) (there s) ch cx cy;
  si_sent_here : Forall (sent_ok (proto (here s))) (sent (here s));
  si_sent_there : Forall (sent_ok (proto (there s))) (sent (there s));
}.

Lemma system_inv_flip s : system_inv s → system_inv (flip_system s).
Proof.
  intros [Hh Ht Hs Hc Hsh Hst]. constructor; cbn; [done|done| | |done|done]; [by apply same_config_sym|].
  intros ch cx cy Hch Hx Hy. destruct (Hc ch cy cx Hch Hy Hx) as (H1 & H2 & H3 & H4). done.
Qed.

Lemma sent_ok_same_config p p' m : same_config p p' → sent_ok p m → sent_ok p' m.
Proof.
  intros Hs (c & Hc & Hm). destruct (same_config_chan p p' _ c Hs Hc) as (c' & Hc' & Hcfg).
  exists c'. by rewrite Hcfg.
Qed.

Lemma init_inv b : Forall ChannelConfiguration_wf (pb_channel_config b) →
  len (pb_channel_config b) ≤ 256 → MaxFrameSize_wf (pb_max_frame_size b) → system_inv (init b).
Proof.
  intros Hc Hn Hm. pose proof (build_wf b Hc Hn Hm) as Hwf.
  constructor; cbn; [done|done|done| |apply Forall_nil_2|apply Forall_nil_2]. intros ch cx cy Hch Hx Hy.
  assert (cx = cy) as <- by congruence.
  unfold chan_at in Hx. cbn in Hx. rewrite list_lookup_fmap in Hx.
  destruct (pb_channel_config b !! _) as [cfg|]; [|done]. injection Hx as <-.
  assert (requests_inv (Channel_new cfg) (Channel_new cfg) [] [] ∅) as Hri.
  { constructor; try done.
    - intros id. cbn. set_solver.
    - apply NoDup_nil_2.
    - apply NoDup_nil_2.
    - set_solver.
    - exists 0. split; [done|]. cbn. by change (hs_len ((∅ : gset Id) ∖ ∅) ≤ 0). }
  by split_and!.
Qed.

(** ** Local steps *)

Lemma request_message_inj ch id id' payload : Id_wf id → Id_wf id' →
  request_message ch id payload = request_message ch id' payload → id = id'.
Proof.
  intros Hid Hid' H. apply (f_equal (λ m, Header_id (om_header m))) in H.
  etransitivity; [symmetry; by apply Header_id_new|].
  etransitivity; [exact H|by apply Header_id_new].
Qed.

(** What an operation of the caller does, seen from one direction and from the other. *)
Definition local_effect (e e' : endpoint) (ch : ChannelId) (c c' : Channel) (m : Msg) : Prop :=
  ChannelId_wf ch ∧ msg_channel m = ch ∧ chan_at (proto e) ch = Some c ∧
  proto e' = put_channel (proto e) ch c' ∧ sent e' = sent e ++ [m] ∧
  (∀ ch', ch' ≠ ch → cancelled e' ch' = cancelled e ch') ∧
  channel_ok c c' ∧ current_multiframe_receiver c' = current_multiframe_receiver c ∧
  msg_ok (config c) m ∧
  incoming_requests c' = (if is_answer m then incoming_requests c ∖ {[msg_id m]} else incoming_requests c) ∧
  (is_answer m = true → msg_id m ∈ incoming_requests c) ∧
  ∀ cy q q' canc, config cy = config c →
    requests_inv c cy q q' (cancelled e ch) → requests_inv cy c q' q canc →
    requests_inv c' cy (q ++ [m]) q' (cancelled e' ch) ∧ requests_inv cy c' q' (q ++ [m]) canc.

Lemma payload_ok_intro limit payload : payload_bytes payload → exceeds limit payload = false →
  payload_ok limit payload.
Proof. destruct payload as [pl|]; [|done]. intros Hb He%Z.ltb_ge. done. Qed.

Lemma local_request_effect e ch payload id p' : protocol_wf (proto e) →
  ChannelId_wf ch → payload_bytes payload → Id_wf id →
  create_request (proto e) ch payload = Done (Ok (message_of (MReq ch id payload)), p') →
  ∃ c c', local_effect e (mkEndpoint p' (sent e ++ [MReq ch id payload])
      (<[ch := cancelled e ch ∖ {[id]}]> (cancelled e))) ch c c' (MReq ch id payload).
Proof.
  intros Hp Hch Hb Hid Hr. pose proof (create_request_spec (proto e) ch payload Hp Hch) as Hs.
  destruct (channels (proto e) !! Z.to_nat (chan_raw ch)) as [c|] eqn:Hc; [|congruence].
  destruct (exceeds _ payload) eqn:He; [congruence|].
  destruct (Channel_allowed_to_send_request c) eqn:Hallow; [|congruence].
  destruct Hs as (id' & Hs & Hn & Hid'). rewrite Hs in Hr.
  assert (request_message ch id' payload = message_of (MReq ch id payload)) as Hm by congruence.
  assert (p' = put_channel (proto e) ch (with_outgoing c id')) as -> by congruence.
  apply request_message_inj in Hm; [|done..]. subst id'.
  pose proof (channel_wf_lookup _ _ _ Hp Hc) as Hwf.
  pose proof (with_outgoing_wf c id Hwf Hid Hallow) as [Hwf' Hcfg].
  exists c, (with_outgoing c id). split_and!; try done.
  - cbn. intros ch' Hne. by rewrite fn_lookup_insert_ne.
  - split; [done|]. split; [done|]. by apply payload_ok_intro.
  - cbn. intros cy q q' canc Hcy H1 H2. rewrite fn_lookup_insert. split.
    + eapply inv_request; [done..|]. rewrite Hcy, <- Hcfg. apply Hwf'.
    + eapply requests_inv_ext; [..|by apply inv_back_other]; done.
Qed.

Lemma local_answer_effect e ch m p' c : protocol_wf (proto e) → ChannelId_wf ch → is_answer m = true →
  msg_channel m = ch → chan_at (proto e) ch = Some c → msg_id m ∈ incoming_requests c →
  msg_ok (config c) m →
  p' = put_channel (proto e) ch (set_incoming c (incoming_requests c ∖ {[msg_id m]})) →
  local_effect e (mkEndpoint p' (sent e ++ [m]) (cancelled e)) ch c
    (set_incoming c (incoming_requests c ∖ {[msg_id m]})) m.
Proof.
  intros Hp Hch Hm Hmc Hc Hin Hok ->. pose proof (channel_wf_lookup _ _ _ Hp Hc) as Hwf.
  pose proof (set_incoming_remove_wf c (msg_id m) Hwf) as [Hwf' Hcfg].
  split_and!; try done; [cbn; by rewrite Hm|]. cbn. intros cy q q' canc Hcy H1 H2. split.
  - eapply requests_inv_ext; [..|by apply inv_sent_answer]; done.
  - by eapply inv_answer.
Qed.

Lemma local_step_effect e e' : protocol_wf (proto e) → local_step e e' →
  ∃ ch c c' m, local_effect e e' ch c c' m.
Proof.
  intros Hp Hstep. destruct Hstep as [e ch payload id p' Hch Hb Hr Hid|e ch id payload p' Hch Hb Hr
    |e ch id p' Hch Hn Hr|e ch id p' Hch Hr].
  - destruct (local_request_effect e ch payload id p' Hp Hch Hb Hid Hr) as (c & c' & H). eauto.
  - rewrite create_response_spec in Hr by done.
    destruct (channels (proto e) !! Z.to_nat (chan_raw ch)) as [c|] eqn:Hc; [|done].
    cbv zeta in Hr. destruct (negb _) eqn:Hin; [done|]. destruct (exceeds _ payload) eqn:He; [done|].
    injection Hr as <-. apply negb_false_iff, bool_decide_eq_true in Hin.
    exists ch, c, (set_incoming c (incoming_requests c ∖ {[id]})), (MResp ch id payload).
    apply (local_answer_effect e ch (MResp ch id payload)); try done. split; [done|]. split.
    + by eapply cw_incoming_ids; [eapply channel_wf_lookup|].
    + by apply payload_ok_intro.
  - rewrite cancel_request_spec in Hr by done.
    destruct (channels (proto e) !! Z.to_nat (chan_raw ch)) as [c|] eqn:Hc; [|done].
    case_bool_decide as Hin; [|done]. injection Hr as <-.
    pose proof (channel_wf_lookup _ _ _ Hp Hc) as Hwf.
    exists ch, c, c, (MCancelReq ch id). split_and!; try done.
    + cbn. by rewrite put_channel_id.
    + cbn. intros ch' Hne. by rewrite fn_lookup_insert_ne.
    + split; [done|]. split; [by eapply cw_outgoing_ids|done].
    + cbn. intros cy q q' canc Hcy H1 H2. rewrite fn_lookup_insert. split; [by apply inv_cancel|].
      by apply inv_back_other.
  - rewrite cancel_response_spec in Hr by done.
    destruct (channels (proto e) !! Z.to_nat (chan_raw ch)) as [c|] eqn:Hc; [|done].
    case_bool_decide as Hin; [|done]. injection Hr as <-.
    exists ch, c, (set_incoming c (incoming_requests c ∖ {[id]})), (MCancelResp ch id).
    apply (local_answer_effect e ch (MCancelResp ch id)); try done. split; [done|]. split; [|done].
    by eapply cw_incoming_ids; [eapply channel_wf_lookup|].
Qed.

Lemma step_local_inv s e' : system_inv s → local_step (here s) e' → system_inv (mkSystem e' (there s)).
Proof.
  intros [Hh Ht Hsame Hc Hsh Hst] Hstep.
  destruct (local_step_effect _ _ Hh Hstep) as (ch & c & c' & m & Hch & Hmc & Hat & Hp' & Hq & Hcanc & [Hwf Hcfg] & Hrec & Hok & Hinv).
  assert (same_config (proto (here s)) (proto e')) as Hcc
    by (rewrite Hp'; by eapply put_channel_same_config).
  constructor; cbn [here there].
  - rewrite Hp'. by apply put_channel_wf.
  - done.
  - eapply same_config_trans; [by apply same_config_sym|done].
  - intros ch0 cx cy Hch0 Hx Hy. destruct (decide (ch0 = ch)) as [->|Hne].
    + rewrite Hp', (chan_at_put _ _ c) in Hx by done. injection Hx as <-.
      destruct (Hc ch c cy Hch Hat Hy) as (H1 & H2 & H3 & H4).
      destruct (same_config_chan _ _ ch c Hsame Hat) as (cy' & Hy' & Hcy).
      assert (cy' = cy) as -> by congruence.
      unfold channel_inv. rewrite Hrec, Hq, on_app, decide_True by done.
      split; [done|]. split; [done|]. by eapply Hinv.
    + rewrite Hp', chan_at_put_ne in Hx by done.
      destruct (Hc ch0 cx cy Hch0 Hx Hy) as (H1 & H2 & H3 & H4).
      unfold channel_inv. rewrite Hq, on_app, decide_False by congruence. by rewrite Hcanc.
  - rewrite Hq. apply Forall_app. split.
    + eapply Forall_impl; [exact Hsh|]. intros m' Hm'. by eapply sent_ok_same_config.
    + apply Forall_singleton. eapply sent_ok_same_config; [done|]. exists c. by rewrite Hmc.
  - done.
Qed.

(** The oldest message can be processed, and how. *)
Lemma head_acceptable s m q : system_inv s → sent (here s) = m :: q →
  ∃ c cy, chan_at (proto (here s)) (msg_channel m) = Some c ∧
          chan_at (proto (there s)) (msg_channel m) = Some cy ∧
          msg_ok (config cy) m ∧ current_multiframe_receiver cy = Ready ∧ acceptable m cy ∧
          channel_ok cy (effect m cy) ∧
          current_multiframe_receiver (effect m cy) = Ready ∧
          requests_inv c (effect m cy) (on (msg_channel m) q) (on (msg_channel m) (sent (there s)))
            (cancelled (here s) (msg_channel m)) ∧
          requests_inv (effect m cy) c (on (msg_channel m) (sent (there s))) (on (msg_channel m) q)
            (cancelled (there s) (msg_channel m)).
Proof.
  intros [Hh Ht Hsame Hc Hsh Hst] Hq. rewrite Hq in Hsh. apply Forall_cons in Hsh as [(c & Hat & Hok) _].
  destruct (same_config_chan _ _ _ c Hsame Hat) as (cy & Hy & Hcfg).
  pose proof Hok as (Hch & Hid & _).
  destruct (Hc _ c cy Hch Hat Hy) as (H1 & H2 & H3 & H4).
  rewrite Hq, on_cons, decide_True in H3, H4 by done.
  pose proof (channel_wf_lookup _ _ _ Ht Hy) as Hwfy. pose proof (channel_wf_lookup _ _ _ Hh Hat) as Hwfx.
  exists c, cy. rewrite Hcfg. split; [done|]. split; [done|]. split; [done|]. split; [done|].
  destruct m as [ch id pl|ch id pl|ch id|ch id]; cbn [msg_channel msg_id effect acceptable] in *.
  - pose proof (inv_request_acceptable _ _ _ _ _ _ _ _ H3) as Hacc.
    rewrite Hcfg in Hacc. specialize (Hacc (cw_outgoing c Hwfx)). pose proof Hacc as [Hmax _].
    split; [done|]. split; [by apply received_request_ok|]. split; [done|].
    split; [by eapply inv_received_request|].
    eapply requests_inv_ext; [..|exact (inv_back_received_other _ _ (MReq ch id pl) _ _ _ eq_refl H4)]; done.
  - destruct (inv_back_answer _ _ (MResp ch id pl) _ _ _ eq_refl H4) as [Hin H4']. split; [done|].
    split; [by apply set_outgoing_remove_wf|]. split; [done|]. split; [|done].
    eapply requests_inv_ext; [..|exact (inv_received_answer _ _ (MResp ch id pl) _ _ _ eq_refl H3)]; done.
  - destruct (inv_received_cancel _ _ _ _ _ _ _ H3) as [Hpos H3']. split; [done|].
    split; [apply set_allowance_wf; [done|pose proof (cw_allowance cy Hwfy); lia]|].
    split; [done|]. split; [done|].
    eapply requests_inv_ext; [..|exact (inv_back_received_other _ _ (MCancelReq ch id) _ _ _ eq_refl H4)]; done.
  - destruct (inv_back_answer _ _ (MCancelResp ch id) _ _ _ eq_refl H4) as [Hin H4']. split; [done|].
    split; [by apply set_outgoing_remove_wf|]. split; [done|]. split; [|done].
    eapply requests_inv_ext; [..|exact (inv_received_answer _ _ (MCancelResp ch id) _ _ _ eq_refl H3)]; done.
Qed.

Definition Incomplete_header : Outcome CompletedRead OutgoingMessage := Incomplete Header_SIZE.

Lemma receive_head s m q : system_inv s → sent (here s) = m :: q →
  ∃ cy, chan_at (proto (there s)) (msg_channel m) = Some cy ∧
  process_incoming (proto (there s)) (wire (max_frame_size (proto (here s))) (message_of m))
  = Done (match report m cy with Some read => Success read | None => Incomplete_header end,
          (put_channel (proto (there s)) (msg_channel m) (effect m cy), [])).
Proof.
  intros Hinv Hq. destruct (head_acceptable s m q Hinv Hq) as (c & cy & Hat & Hy & Hok & Hr & Hacc & [Hwf Hcfg] & _).
  exists cy. split; [done|]. pose proof (si_there s Hinv) as Ht.
  destruct (si_same s Hinv) as [<- _]. rewrite <- (app_nil_r (wire _ _)).
  rewrite (deliver_message _ m cy []); try done. destruct (report m cy); [done|].
  rewrite process_incoming_unfold; [|by apply put_channel_wf|done].
  by rewrite process_turn_short.
Qed.

Lemma step_receive_inv s m q o p' rest : system_inv s → sent (here s) = m :: q →
  process_incoming (proto (there s)) (wire (max_frame_size (proto (here s))) (message_of m))
    = Done (o, (p', rest)) →
  system_inv (mkSystem (mkEndpoint (proto (here s)) q (cancelled (here s)))
                       (mkEndpoint p' (sent (there s)) (cancelled (there s)))).
Proof.
  intros Hinv Hq Hp. destruct (receive_head s m q Hinv Hq) as (cy & Hy & Hrec).
  destruct (head_acceptable s m q Hinv Hq) as (c & cy' & Hat & Hy' & Hok & Hr & Hacc & [Hwf Hcfg] & Hr' & H3 & H4).
  assert (cy' = cy) as -> by congruence. rewrite Hrec in Hp. injection Hp as _ <- _.
  destruct Hinv as [Hh Ht Hsame Hc Hsh Hst]. rewrite Hq in Hsh. apply Forall_cons in Hsh as [_ Hsh].
  pose proof (proj1 Hok) as Hch.
  assert (same_config (proto (there s)) (put_channel (proto (there s)) (msg_channel m) (effect m cy))) as Hcc
    by by eapply put_channel_same_config.
  constructor; cbn [here there proto sent].
  - done.
  - by apply put_channel_wf.
  - by eapply same_config_trans.
  - intros ch0 cx cy0 Hch0 Hx Hy0. destruct (decide (ch0 = msg_channel m)) as [->|Hne].
    + rewrite (chan_at_put _ _ cy) in Hy0 by done. injection Hy0 as <-. assert (cx = c) as -> by congruence.
      destruct (Hc _ c cy Hch Hat Hy) as (H1 & _). done.
    + rewrite chan_at_put_ne in Hy0 by done. destruct (Hc ch0 cx cy0 Hch0 Hx Hy0) as (H1 & H2 & H5 & H6).
      rewrite Hq, on_cons, decide_False in H5, H6 by done. done.
  - done.
  - eapply Forall_impl; [exact Hst|]. intros m' Hm'. by eapply sent_ok_same_config.
Qed.

Lemma step_inv s s' : step s s' → system_inv s → system_inv s'.
Proof.
  induction 1 as [s e' Hl|s m q o p' rest Hq Hp|s s' Hs IH]; intros Hinv.
  - by apply step_local_inv.
  - by eapply step_receive_inv.
  - apply system_inv_flip, IH. apply system_inv_flip in Hinv. by destruct s.
Qed.
Lemma reachable_inv s s' : rtc step s s' → system_inv s → system_inv s'.
Proof. induction 1; [done|]. eauto using step_inv. Qed.

(** ** Properties *)

(** C17: two endpoints built alike and used through their operations never provoke an error in each
    other. In every state they can reach, by any interleaving of the delivery of messages and of
    successful local calls, in either direction, where a request is cancelled at most once while it
    is outstanding (a second cancellation is a violation): the next message is processed without an
    error, exactly to its end, and is reported as the event it stands for; nothing is dropped except
    a cancellation of a request that has already been answered. Calls that are refused are not steps
    of these runs; a response refused for its length, which releases the id of the request all the
    same, is a finding of its own. *)
Theorem peers_never_fail b s m q : Forall ChannelConfiguration_wf (pb_channel_config b) →
  len (pb_channel_config b) ≤ 256 → MaxFrameSize_wf (pb_max_frame_size b) →
  rtc step (init b) s → sent (here s) = m :: q →
  ∃ c p', chan_at (proto (there s)) (msg_channel m) = Some c ∧
  process_incoming (proto (there s)) (wire (max_frame_size (proto (here s))) (message_of m))
  = Done (match m with
          | MReq ch id pl => Success (NewRequest ch id pl)
          | MResp ch id pl => Success (ReceivedResponse ch id pl)
          | MCancelResp ch id => Success (ResponseCancellation ch id)
          | MCancelReq ch id => if decide (id ∈ incoming_requests c)
                                then Success (RequestCancellation ch id) else Incomplete Header_SIZE
          end, (p', [])).
Proof.
  intros Hc Hn Hm Hs Hq. pose proof (reachable_inv _ _ Hs (init_inv b Hc Hn Hm)) as Hinv.
  destruct (receive_head s m q Hinv Hq) as (c & Hat & Hp). exists c. eexists. split; [done|].
  rewrite Hp. destruct m; try done. cbn [report]. case_bool_decide; case_decide; done.
Qed.

Definition demo_builder : ProtocolBuilder :=
  mkProtocolBuilder (replicate 2 (mkChannelConfiguration 2 100 50)) (mkMaxFrameSize 10).
Definition demo_request : Msg := MReq (ChannelId_new 1) (Id_new 1) (Some (replicate 20 3)).
Definition demo_sent : system :=
  mkSystem
    (mkEndpoint
      (put_channel (proto (init_endpoint demo_builder)) (ChannelId_new 1)
         (with_outgoing (Channel_new (mkChannelConfiguration 2 100 50)) (Id_new 1)))
      [demo_request]
      (<[ChannelId_new 1 := ∅ ∖ {[Id_new 1]}]> (λ _, ∅)))
    (init_endpoint demo_builder).
Lemma demo_reachable : rtc step (init demo_builder) demo_sent.
Proof.
  apply rtc_once. apply (step_local (init demo_builder)).
  apply (local_request (init_endpoint demo_builder) (ChannelId_new 1) (Some (replicate 20 3)) (Id_new 1)).
  - split; vm_compute; discriminate.
  - apply Forall_replicate. split; vm_compute; discriminate.
  - vm_compute. reflexivity.
  - split; vm_compute; discriminate.
Qed.
Lemma demo_builder_ok : Forall ChannelConfiguration_wf (pb_channel_config demo_builder) ∧
  len (pb_channel_config demo_builder) ≤ 256 ∧ MaxFrameSize_wf (pb_max_frame_size demo_builder).
Proof.
  split; [|split; [vm_compute; discriminate|split; vm_compute; discriminate]].
  apply Forall_replicate. split; [|split]; split; vm_compute; discriminate.
Qed.
Lemma peers_never_fail_witness :
  rtc step (init demo_builder) demo_sent ∧ sent (here demo_sent) = [demo_request] ∧
  ∃ c p', chan_at (proto (there demo_sent)) (ChannelId_new 1) = Some c ∧
  process_incoming (proto (there demo_sent))
    (wire (max_frame_size (proto (here demo_sent))) (message_of demo_request))
  = Done (Success (NewRequest (ChannelId_new 1) (Id_new 1) (Some (replicate 20 3))), (p', [])).
Proof.
  destruct demo_builder_ok as (Hc & Hn & Hm).
  split; [apply demo_reachable|]. split; [reflexivity|].
  exact (peers_never_fail demo_builder demo_sent demo_request [] Hc Hn Hm demo_reachable eq_refl).
Defined.

(** C20: take two endpoints built alike, in any interleaving of the delivery of messages and of
    successful local calls, where a request is cancelled at most once while it is outstanding, and
    no call is refused: a response refused for its length would release the id of the request, which
    then is answered by nobody. In every state they reach each endpoint keeps its limits, and every
    outstanding request is accounted for exactly once: on its way, waiting at the other endpoint, or
    answered with the answer on its way. *)
Theorem peers_requests_accounted b s ch cx cy : Forall ChannelConfiguration_wf (pb_channel_config b) →
  len (pb_channel_config b) ≤ 256 → MaxFrameSize_wf (pb_max_frame_size b) →
  rtc step (init b) s → ChannelId_wf ch →
  chan_at (proto (here s)) ch = Some cx → chan_at (proto (there s)) ch = Some cy →
  channel_wf cx ∧ channel_wf cy ∧
  ∀ id, id ∈ outgoing_requests cx ↔
    (id ∈ requests_in (on ch (sent (here s))) ∧ id ∉ incoming_requests cy ∧ id ∉ answers_in (on ch (sent (there s)))) ∨
    (id ∉ requests_in (on ch (sent (here s))) ∧ id ∈ incoming_requests cy ∧ id ∉ answers_in (on ch (sent (there s)))) ∨
    (id ∉ requests_in (on ch (sent (here s))) ∧ id ∉ incoming_requests cy ∧ id ∈ answers_in (on ch (sent (there s)))).
Proof.
  intros Hc Hn Hm Hs Hch Hx Hy. destruct (reachable_inv _ _ Hs (init_inv b Hc Hn Hm)) as [Hh Ht _ Hi _ _].
  split; [exact (channel_wf_lookup _ _ _ Hh Hx)|]. split; [exact (channel_wf_lookup _ _ _ Ht Hy)|].
  destruct (Hi ch cx cy Hch Hx Hy) as (_ & _ & [Hp _ _ Hap _] & _). intros id. rewrite Hp.
  specialize (Hap id). destruct (decide (id ∈ requests_in (on ch (sent (here s)))));
    destruct (decide (id ∈ incoming_requests cy));
    destruct (decide (id ∈ answers_in (on ch (sent (there s))))); tauto.
Qed.
Lemma peers_requests_accounted_witness :
  let ch := ChannelId_new 1 in let cfg := mkChannelConfiguration 2 100 50 in
  let cx := with_outgoing (Channel_new cfg) (Id_new 1) in let cy := Channel_new cfg in
  channel_wf cx ∧ channel_wf cy ∧
  ∀ id, id ∈ outgoing_requests cx ↔
    (id ∈ requests_in (on ch [demo_request]) ∧ id ∉ incoming_requests cy ∧ id ∉ answers_in (on ch [])) ∨
    (id ∉ requests_in (on ch [demo_request]) ∧ id ∈ incoming_requests cy ∧ id ∉ answers_in (on ch [])) ∨
    (id ∉ requests_in (on ch [demo_request]) ∧ id ∉ incoming_requests cy ∧ id ∈ answers_in (on ch [])).
Proof.
  destruct demo_builder_ok as (Hc & Hn & Hm). intros ch cfg cx cy.
  refine (peers_requests_accounted demo_builder demo_sent ch cx cy Hc Hn Hm demo_reachable _ eq_refl eq_refl).
  split; vm_compute; discriminate.
Defined.
