(* ===== verification/Transfer.v ===== *)
(** * Messages in transfer, one frame at a time

    A message that is cut into frames, and how far it has been cut: what its next frame is
    ([piece]), that the frame iterator produces it, and what the protocol does with that frame
    when it arrives between the frames of other messages. *)
From S2P Require Import Prelude Lib Varint Header FrameSize OutgoingMessage WireFormat Multiframe.
From S2P Require Import MultiframeSpec Protocol ProtocolInv ProcessIncoming ProtocolOps Delivery.
From stdpp Require Import options.

(** ** Transfers *)

#[export] Instance Msg_eq_dec : EqDecision Msg.
Proof. solve_decision. Defined.

(** A message, and how many bytes of its payload are in earlier frames. *)
Record Transfer := mkTransfer { t_msg : Msg; t_pos : Z }.
#[export] Instance Transfer_eq_dec : EqDecision Transfer.
Proof. solve_decision. Defined.

Definition begin_transfer (msg : Msg) : Transfer := mkTransfer msg 0.
Definition t_header (t : Transfer) : Header := om_header (message_of (t_msg t)).
Definition t_channel (t : Transfer) : ChannelId := msg_channel (t_msg t).
Definition t_id (t : Transfer) : Id := msg_id (t_msg t).
Definition t_payload (t : Transfer) : bytes := default [] (msg_payload (t_msg t)).
(** The frame iterator in this state. *)
Definition iter (t : Transfer) : FrameIter :=
  {| fi_msg := message_of (t_msg t); bytes_processed := t_pos t |}.

Section frame_size.
Context (m : MaxFrameSize).

(** The payload bytes the next frame has room for. *)
Definition room (t : Transfer) : Z :=
  if t_pos t =? 0 then mfs m - 4 - len (varint_bytes (len (t_payload t))) else mfs m - 4.
Definition next_transfer (t : Transfer) : option Transfer :=
  if t_pos t + room t <? len (t_payload t)
  then Some (mkTransfer (t_msg t) (t_pos t + room t)) else None.
Definition prefix_of_payload (t : Transfer) : bytes :=
  match msg_payload (t_msg t) with
  | Some pl => if t_pos t =? 0 then varint_bytes (len pl) else []
  | None => []
  end.
Definition piece (t : Transfer) : bytes :=
  Header_as_ref (t_header t) ++ prefix_of_payload t ++
  take (Z.to_nat (room t)) (drop (Z.to_nat (t_pos t)) (t_payload t)).

Definition transfer_ok (t : Transfer) : Prop :=
  u32 (len (t_payload t)) ∧ (t_pos t = 0 ∨ 0 < t_pos t < len (t_payload t)).
End frame_size.

Lemma message_of_payload msg : om_payload (message_of msg) = msg_payload msg.
Proof. by destruct msg as [ch id [pl|]|ch id [pl|]|ch id|ch id]. Qed.
Lemma t_header_channel t : Header_channel (t_header t) = t_channel t.
Proof. unfold t_header, t_channel. destruct (t_msg t) as [ch id [pl|]|ch id [pl|]|ch id|ch id]; apply Header_channel_new. Qed.
Lemma t_header_id t : Id_wf (t_id t) → Header_id (t_header t) = t_id t.
Proof.
  unfold t_header, t_id. destruct (t_msg t) as [ch id [pl|]|ch id [pl|]|ch id|ch id]; intros; by apply Header_id_new.
Qed.

Section cutting.
Context (m : MaxFrameSize) (Hm : MaxFrameSize_wf m).

Lemma room_pos t : u32 (len (t_payload t)) → 1 ≤ room m t ≤ mfs m - 4.
Proof using Hm.
  intros Hu. pose proof (MaxFrameSize_wf_bounds m Hm). pose proof (varint_bytes_len (len (t_payload t))).
  unfold room. destruct (_ =? 0); lia.
Qed.
Lemma next_transfer_msg t t' : next_transfer m t = Some t' → t_msg t' = t_msg t ∧ t_pos t' = t_pos t + room m t.
Proof. unfold next_transfer. destruct (_ <? _); [|done]. by intros [= <-]. Qed.
Lemma next_transfer_ok t t' : transfer_ok t → next_transfer m t = Some t' → transfer_ok t' ∧ 0 < t_pos t'.
Proof using Hm.
  intros [Hu Hp] Hn. pose proof (room_pos t Hu). unfold next_transfer in Hn.
  destruct (Z.ltb_spec (t_pos t + room m t) (len (t_payload t))); [|done]. injection Hn as <-.
  unfold transfer_ok. cbn [t_pos]. change (t_payload (mkTransfer (t_msg t) ?x)) with (t_payload t). ulia.
Qed.
(** Only messages with a payload have a second frame. *)
Lemma next_transfer_payload t t' : u32 (len (t_payload t)) → 0 ≤ t_pos t → next_transfer m t = Some t' →
  msg_payload (t_msg t) = Some (t_payload t).
Proof using Hm.
  intros Hu Hp Hn. pose proof (room_pos t Hu). unfold next_transfer, t_payload in *.
  destruct (msg_payload (t_msg t)) as [pl|]; [done|]. change (len (default [] (@None bytes))) with 0 in Hn.
  rewrite (proj2 (Z.ltb_ge _ _)) in Hn by lia. done.
Qed.

(** The frame iterator cuts off the piece. *)
Lemma next_owned_iter t : transfer_ok t →
  ∃ f, next_owned (iter t) m = Done (f, iter <$> next_transfer m t) ∧
    frame_bytes f = piece m t ∧ OutgoingFrame_header f = t_header t.
Proof using Hm.
  intros [Hu Hp]. unfold iter, piece, next_transfer, prefix_of_payload, room, t_header, t_payload in *.
  pose proof (message_of_payload (t_msg t)) as Hpl. destruct (message_of (t_msg t)) as [h pl'] eqn:Hmsg.
  cbn [om_payload om_header] in *. subst pl'. destruct t as [msg b]; cbn [t_msg t_pos] in *.
  pose proof (MaxFrameSize_wf_bounds m Hm).
  destruct (msg_payload msg) as [pl|] eqn:Hpl; cbn [default from_option id] in *.
  - pose proof (varint_bytes_len (len pl)). destruct (Z.eqb_spec b 0) as [->|Hb].
    + pose proof (next_owned_first m Hm h pl Hu) as Hf. cbv zeta in Hf. unfold OutgoingMessage_new in Hf. rewrite Hf.
      eexists. rewrite Z.add_0_l. split; [|split; [apply frame_bytes_first|done]].
      destruct (Z.ltb_spec (mfs m - 4 - len (varint_bytes (len pl))) (len pl)); [|done].
      cbn [fmap option_fmap option_map t_msg t_pos]. by rewrite Hmsg.
    + pose proof (next_owned_next m Hm h pl Hu b ltac:(lia)) as Hf. unfold OutgoingMessage_new in Hf. rewrite Hf.
      eexists. split; [|split; [apply frame_bytes_next|done]].
      destruct (Z.ltb_spec (b + (mfs m - 4)) (len pl)); [|done].
      cbn [fmap option_fmap option_map t_msg t_pos]. by rewrite Hmsg.
  - assert (b = 0) as -> by (change (len (@nil Z)) with 0 in Hp; lia). rewrite drop_nil, take_nil.
    exists (next_frame h []). change (len (@nil Z)) with 0. cbn [Z.eqb].
    pose proof (varint_bytes_len 0). rewrite (proj2 (Z.ltb_ge _ _)) by lia. done.
Qed.
End cutting.

(** ** What the receiving side does with a frame *)

(** The receiver's state in the middle of a transfer. *)
Definition receiving (t : Transfer) : MultiframeReceiver :=
  InProgress (t_header t) (take (Z.to_nat (t_pos t)) (t_payload t)) (len (t_payload t)).

(** The bookkeeping of a channel when a message begins and when it is complete. *)
Definition start_effect (msg : Msg) (c : Channel) : Channel :=
  match msg with
  | MReq _ id _ => received_request c id
  | MCancelReq _ _ => set_allowance c (cancellation_allowance c - 1)
  | _ => c
  end.
Definition finish_effect (msg : Msg) (c : Channel) : Channel :=
  match msg with
  | MResp _ id _ | MCancelResp _ id => set_outgoing c (outgoing_requests c ∖ {[id]})
  | _ => c
  end.

Definition arrival (m : MaxFrameSize) (t : Transfer) (c : Channel) : option CompletedRead * Channel :=
  let started := if t_pos t =? 0 then start_effect (t_msg t) c else c in
  match next_transfer m t with
  | Some t' => (None, set_receiver started (receiving t'))
  | None => (report (t_msg t) c,
             finish_effect (t_msg t) (if t_pos t =? 0 then started else set_receiver started Ready))
  end.

(** When the channel takes the frame without complaint: the first frame of a message when the
    message is acceptable and no transfer in progress is in its way; a later frame when it
    continues the transfer in progress. *)
Definition arrivable (m : MaxFrameSize) (t : Transfer) (c : Channel) : Prop :=
  if t_pos t =? 0 then
    acceptable (t_msg t) c ∧
    (is_Some (next_transfer m t) → current_multiframe_receiver c = Ready) ∧
    ∀ h, in_progress_header (current_multiframe_receiver c) = Some h → h ≠ t_header t ∧
      (∀ ch id, t_msg t = MCancelReq ch id → Header_id h ≠ id)
  else
    current_multiframe_receiver c = receiving t ∧
    match t_msg t with MResp _ id _ => id ∈ outgoing_requests c | _ => True end.

Section arrival.
Context (p : JulietProtocol) (Hp : protocol_wf p).
Context (rest : bytes) (Hrest : Forall u8 rest).
Context (t : Transfer) (Ht : transfer_ok t) (c : Channel).
Context (Hc : channels p !! Z.to_nat (chan_raw (t_channel t)) = Some c).
Context (Hok : msg_ok (config c) (t_msg t)).
#[local] Set Default Proof Using "Type*".
Let m := max_frame_size p.

Lemma t_header_wf : Header_wf (t_header t).
Proof.
  destruct Hok as (Hch & Hid & _). unfold t_header.
  destruct (t_msg t) as [ch id [pl|]|ch id [pl|]|ch id|ch id]; left; by do 3 eexists.
Qed.
Lemma t_payload_u8 : Forall u8 (t_payload t).
Proof.
  destruct Hok as (_ & _ & Hpl). unfold t_payload.
  destruct (t_msg t) as [ch id [pl|]|ch id [pl|]|ch id|ch id]; cbn in *; try apply Forall_nil_2; by destruct Hpl.
Qed.
Lemma piece_u8 : Forall u8 (piece m t).
Proof.
  unfold piece. apply Forall_app. split; [apply Header_as_ref_u8, t_header_wf|]. apply Forall_app. split.
  - destruct Ht as [Hu _]. unfold prefix_of_payload, t_payload in *. destruct (msg_payload (t_msg t)); [|apply Forall_nil_2].
    destruct (_ =? _); [by apply varint_bytes_u8|apply Forall_nil_2].
  - apply Forall_take, Forall_drop, t_payload_u8.
Qed.
Lemma piece_buffer : Forall u8 (piece m t ++ rest) ∧ 4 ≤ len (piece m t ++ rest).
Proof.
  split; [apply Forall_app; split; [apply piece_u8|done]|].
  unfold piece. rewrite !len_app. assert (len (Header_as_ref (t_header t)) = 4) as -> by done.
  pose proof (len_nonneg (prefix_of_payload t)). pose proof (len_nonneg rest).
  pose proof (len_nonneg (take (Z.to_nat (room m t)) (drop (Z.to_nat (t_pos t)) (t_payload t)))). lia.
Qed.
Lemma receiver_wf_c : receiver_wf (current_multiframe_receiver c).
Proof. apply cw_receiver. by eapply channel_wf_lookup. Qed.

(** What [accept] makes of the frame. *)
Definition accepted : CompletedFrame :=
  match next_transfer m t with
  | Some _ => if t_pos t =? 0 then NewMultiFrame else IntermediateMultiFrame
  | None => if t_pos t =? 0 then SingleFrame (t_payload t) else CompletedMultiFrame (t_payload t)
  end.
Definition receiver_after : MultiframeReceiver :=
  match next_transfer m t with
  | Some t' => receiving t'
  | None => if t_pos t =? 0 then current_multiframe_receiver c else Ready
  end.

Lemma accept_piece max kind : arrivable m t c → is_Some (msg_payload (t_msg t)) → len (t_payload t) ≤ max →
  accept (current_multiframe_receiver c) (t_header t) (piece m t ++ rest) m max kind
  = Done (Success accepted, (receiver_after, rest)).
Proof.
  intros Harr [pl Hpl] Hmax. destruct piece_buffer as [Hb Hl]. pose proof (pw_mfs p Hp) as Hm. fold m in Hm.
  rewrite accept_Done by (done || apply receiver_wf_c). f_equal.
  destruct Ht as [Hu Hpos]. unfold accepted, receiver_after, arrivable, piece, next_transfer, prefix_of_payload, room in *.
  assert (t_payload t = pl) as Htp by by (unfold t_payload; rewrite Hpl). rewrite Hpl. rewrite Htp in *.
  destruct (Z.eqb_spec (t_pos t) 0) as [H0|H0].
  - rewrite H0, Z.add_0_l in *. change (drop (Z.to_nat 0) pl) with pl. rewrite <- !app_assoc.
    destruct Harr as (_ & Hready & Hne). rewrite accept_spec_first; [|done..|].
    2:{ intros s l Hr. rewrite Hr in Hne. by destruct (Hne _ eq_refl). }
    destruct (Z.leb_spec (len pl) (mfs m - 4 - len (varint_bytes (len pl)))).
    + by rewrite (proj2 (Z.ltb_ge _ _)) by lia.
    + rewrite (proj2 (Z.ltb_lt _ _)) in * by lia. rewrite Hready by by eexists. unfold receiving. cbn [t_pos t_msg].
      change (t_payload (mkTransfer (t_msg t) ?x)) with (t_payload t). by rewrite Htp.
  - destruct Harr as [-> _]. unfold receiving. rewrite Htp. cbn [app]. rewrite <- app_assoc.
    pose proof (MaxFrameSize_wf_bounds m Hm).
    assert (len (take (Z.to_nat (t_pos t)) pl) = t_pos t) as Hst by (apply len_take; lia).
    assert (len (take (Z.to_nat (mfs m - 4)) (drop (Z.to_nat (t_pos t)) pl)) = Z.min (len pl - t_pos t) (mfs m - 4)) as Hseg.
    { unfold len in *. rewrite length_take, length_drop. lia. }
    rewrite accept_spec_next by (done || (rewrite Hst; done)). rewrite Hst, Hseg.
    destruct (Z.ltb_spec (t_pos t + (mfs m - 4)) (len pl)).
    + rewrite (proj2 (Z.eqb_neq _ _)) by lia. cbn [t_pos t_msg].
      change (t_header (mkTransfer (t_msg t) ?x)) with (t_header t).
      change (t_payload (mkTransfer (t_msg t) ?x)) with (t_payload t). rewrite Htp.
      rewrite Z2Nat.inj_add by lia. by rewrite <- take_take_drop.
    + rewrite (proj2 (Z.eqb_eq _ _)) by lia. rewrite (take_ge_len (drop _ _)) by (rewrite len_drop by lia; lia).
      by rewrite take_drop.
Qed.

(** The turn, given what the arm of the [match] for its kind does. *)
Lemma turn_piece_kind k ch id r c' : t_header t = Header_new k ch id → t_channel t = ch →
  match k with
  | KRequest => process_request (t_header t) c (piece m t ++ rest)
  | KResponse => process_response (t_header t) c (piece m t ++ rest)
  | KRequestPl => process_request_pl m (t_header t) c (piece m t ++ rest)
  | KResponsePl => process_response_pl m (t_header t) c (piece m t ++ rest)
  | KCancelReq => process_cancel_req (t_header t) c (piece m t ++ rest)
  | KCancelResp => process_cancel_resp (t_header t) c (piece m t ++ rest)
  end = Done (r, (c', rest)) →
  process_turn p (piece m t ++ rest) = Done (r, (put_channel p ch c', rest)).
Proof.
  intros Hh Hch Hk. unfold piece in *. rewrite <- app_assoc in *. rewrite Hh in *.
  pose proof (process_turn_header p k ch id c ((prefix_of_payload t ++
    take (Z.to_nat (room m t)) (drop (Z.to_nat (t_pos t)) (t_payload t))) ++ rest)) as Hturn.
  cbv zeta in Hturn. rewrite Hturn by by rewrite <- Hch. fold m. rewrite Hk. done.
Qed.
(** Without a payload the piece is the header. *)
Lemma piece_header : msg_payload (t_msg t) = None → piece m t = Header_as_ref (t_header t) ∧ next_transfer m t = None ∧ t_pos t = 0.
Proof.
  intros Hn. destruct Ht as [_ Hpos]. pose proof (MaxFrameSize_wf_bounds m (pw_mfs p Hp)). pose proof (varint_bytes_len 0).
  unfold piece, prefix_of_payload, next_transfer, room, t_payload in *. rewrite Hn in *.
  change (len (default [] (@None bytes))) with 0 in *.
  assert (t_pos t = 0) as -> by lia.
  split; [by change (default [] (@None bytes)) with (@nil Z); rewrite drop_nil, take_nil|]. split; [|done]. change (0 =? 0) with true. cbn iota.
  by rewrite (proj2 (Z.ltb_ge _ _)) by lia.
Qed.

Lemma receiver_after_wf : is_Some (msg_payload (t_msg t)) → channel_wf (set_receiver c receiver_after).
Proof.
  intros [pl Hpl]. pose proof (channel_wf_lookup _ _ _ Hp Hc) as Hwf. pose proof (pw_mfs p Hp) as Hm.
  apply set_receiver_wf; [done|..]; unfold receiver_after; destruct (next_transfer m t) as [t'|] eqn:Hn;
    try (destruct (_ =? _); [apply Hwf|done]).
  - destruct (next_transfer_ok m Hm t t' Ht Hn) as [[Hu' Hp'] Hpos']. unfold receiving, receiver_wf.
    rewrite len_take by lia. split; [lia|done].
  - apply next_transfer_msg in Hn as [Hmsg _]. unfold receiving, transfer_wf, t_header, t_payload. rewrite Hmsg.
    split; [apply t_header_wf|]. destruct Hok as (_ & _ & Hlen). rewrite Hpl. cbn [default from_option id].
    destruct (t_msg t) as [ch id [pl'|]|ch id [pl'|]|ch id|ch id]; cbn in Hpl; try done; injection Hpl as ->;
      destruct Hlen as [_ Hlen]; [left|right]; cbn [message_of]; unfold request_message, response_message;
      cbn [om_header OutgoingMessage_new]; rewrite kind_new, is_error_new; done.
Qed.

Lemma turn_request_pl ch id pl : t_msg t = MReq ch id (Some pl) → arrivable m t c →
  process_request_pl m (t_header t) c (piece m t ++ rest)
  = Done (Success <$> (arrival m t c).1, ((arrival m t c).2, rest)).
Proof.
  intros Hmsg Harr. pose proof Hok as (_ & Hid & Hlen). rewrite Hmsg in Hid, Hlen. cbn in Hid, Hlen.
  assert (t_payload t = pl) as Hpl by by (unfold t_payload; rewrite Hmsg).
  unfold process_request_pl. rewrite accept_piece; [|done|by rewrite Hmsg; eexists|rewrite Hpl; apply Hlen].
  rewrite bind_Done. unfold record_request_frame.
  assert (channel_wf (set_receiver c receiver_after)) as Hwf by (apply receiver_after_wf; rewrite Hmsg; by eexists).
  assert (Header_id (t_header t) = id) as Hhid by (rewrite t_header_id; unfold t_id; by rewrite Hmsg).
  assert (Header_channel (t_header t) = ch) as Hhch by (rewrite t_header_channel; unfold t_channel; by rewrite Hmsg).
  rewrite Hhid, Hhch. unfold arrivable, arrival, accepted, receiver_after in *. rewrite Hmsg in *. rewrite Hpl in *.
  destruct (t_pos t =? 0); cbn [start_effect finish_effect report acceptable].
  - destruct Harr as ([Hmax Hn] & _). unfold hs_insert.
    assert (∀ r, channel_wf (set_receiver c r) →
      increment_cancellation_allowance (set_incoming (set_receiver c r) ({[id]} ∪ incoming_requests (set_receiver c r)))
      = Done (set_receiver (received_request c id) r)) as Hinc.
    { intros r Hr. rewrite increment_cancellation_allowance_Done by by apply set_incoming_insert_wf. done. }
    destruct (next_transfer m t) as [t'|]; cbn [was_new into_completed_payload];
      (rewrite (Hmax : is_at_max_incoming_requests (set_receiver c _) = false));
      (rewrite (bool_decide_eq_true_2 (id ∉ incoming_requests (set_receiver c _))) by done); cbn [negb];
      (rewrite Hinc by done); rewrite bind_Done; [done|].
    change (set_receiver (received_request c id) (current_multiframe_receiver c))
      with (set_receiver (received_request c id) (current_multiframe_receiver (received_request c id))).
    by rewrite set_receiver_id.
  - by destruct (next_transfer m t) as [t'|].
Qed.

Lemma turn_response_pl ch id pl : t_msg t = MResp ch id (Some pl) → arrivable m t c →
  process_response_pl m (t_header t) c (piece m t ++ rest)
  = Done (Success <$> (arrival m t c).1, ((arrival m t c).2, rest)).
Proof.
  intros Hmsg Harr. pose proof Hok as (_ & Hid & Hlen). rewrite Hmsg in Hid, Hlen. cbn in Hid, Hlen.
  assert (t_payload t = pl) as Hpl by by (unfold t_payload; rewrite Hmsg).
  assert (Header_id (t_header t) = id) as Hhid by (rewrite t_header_id; unfold t_id; by rewrite Hmsg).
  assert (Header_channel (t_header t) = ch) as Hhch by (rewrite t_header_channel; unfold t_channel; by rewrite Hmsg).
  assert (id ∈ outgoing_requests c) as Hin.
  { unfold arrivable in Harr. rewrite Hmsg in Harr. by destruct (_ =? _); destruct Harr. }
  unfold process_response_pl, hs_contains. rewrite Hhid, bool_decide_eq_true_2 by done. cbn [negb].
  rewrite accept_piece; [|done|by rewrite Hmsg; eexists|rewrite Hpl; apply Hlen].
  rewrite bind_Done, Hhch. unfold arrival, accepted, receiver_after in *. rewrite Hmsg in *. rewrite Hpl in *.
  destruct (t_pos t =? 0), (next_transfer m t) as [t'|]; cbn [into_completed_payload]; done.
Qed.

(** One turn of [process_incoming] on the frame. *)
Lemma turn_piece : arrivable m t c →
  process_turn p (piece m t ++ rest)
  = Done (Success <$> (arrival m t c).1, (put_channel p (t_channel t) (arrival m t c).2, rest)).
Proof.
  intros Harr. destruct (msg_payload (t_msg t)) as [pl|] eqn:Hpl.
  - destruct (t_msg t) as [ch id [pl'|]|ch id [pl'|]|ch id|ch id] eqn:Hmsg in |- *; rewrite Hmsg in Hpl; try done;
      injection Hpl as ->; (assert (t_channel t = ch) as -> by by unfold t_channel; rewrite Hmsg).
    + apply (turn_piece_kind KRequestPl ch id); [by unfold t_header; rewrite Hmsg|by unfold t_channel; rewrite Hmsg|].
      by eapply turn_request_pl.
    + apply (turn_piece_kind KResponsePl ch id); [by unfold t_header; rewrite Hmsg|by unfold t_channel; rewrite Hmsg|].
      by eapply turn_response_pl.
  - destruct (piece_header Hpl) as (Hpiece & Hnext & Hpos). pose proof (channel_wf_lookup _ _ _ Hp Hc) as Hwf.
    pose proof Hok as (_ & Hid & _).
    unfold arrival, arrivable in *. rewrite Hnext, Hpos. rewrite Hpos in Harr. change (0 =? 0) with true in *. cbn iota in *.
    destruct Harr as (Hacc & _ & Hfree).
    assert (Header_id (t_header t) = t_id t) as Hhid by by apply t_header_id.
    pose proof (t_header_channel t) as Hhch. pose proof (turn_piece_kind) as Hkind.
    unfold t_id, t_channel in Hhid, Hhch, Hkind |- *. rewrite Hpiece in Hkind |- *. clear Hpiece.
    destruct (t_msg t) as [ch id [pl'|]|ch id [pl'|]|ch id|ch id] eqn:Hmsg in Hpl, Hid, Hacc, Hfree, Hhid, Hhch, Hkind |- *;
      try done; cbn [msg_channel msg_id acceptable] in Hid, Hacc, Hfree, Hhid, Hhch, Hkind |- *;
      cbn [report start_effect finish_effect].
    + apply (Hkind KRequest ch id); [by unfold t_header; rewrite Hmsg|done|].
      destruct Hacc as [Hmax Hn]. unfold process_request. rewrite Hmax, Hhid, Hhch. unfold hs_insert.
      rewrite bool_decide_eq_true_2 by done. cbn [negb].
      rewrite increment_cancellation_allowance_Done by by apply set_incoming_insert_wf.
      rewrite bind_Done, advance_header. done.
    + apply (Hkind KResponse ch id); [by unfold t_header; rewrite Hmsg|done|].
      unfold process_response, hs_remove. rewrite Hhid, Hhch, bool_decide_eq_true_2 by done. cbn [negb].
      by rewrite advance_header.
    + apply (Hkind KCancelReq ch id); [by unfold t_header; rewrite Hmsg|done|].
      unfold process_cancel_req. rewrite (proj2 (Z.eqb_neq _ _)), usub_Done, bind_Done, advance_header, bind_Done by lia.
      unfold cancel_transfer. cbn [set_allowance current_multiframe_receiver].
      assert (match in_progress_header (current_multiframe_receiver c) with
        | Some h => if bool_decide (Header_id h = Header_id (t_header t))
            then set_incoming (set_receiver (set_allowance c (cancellation_allowance c - 1)) MultiframeReceiver_default)
              (hs_remove (incoming_requests (set_receiver (set_allowance c (cancellation_allowance c - 1)) MultiframeReceiver_default)) (Header_id (t_header t))).2
            else set_allowance c (cancellation_allowance c - 1)
        | None => set_allowance c (cancellation_allowance c - 1)
        end = set_allowance c (cancellation_allowance c - 1)) as ->.
      { destruct (in_progress_header _) as [h|]; [|done]. destruct (Hfree h eq_refl) as [_ Hne].
        rewrite bool_decide_eq_false_2; [done|]. rewrite Hhid. by apply (Hne ch id). }
      unfold hs_contains. rewrite Hhid, Hhch. cbn [set_allowance incoming_requests]. by case_bool_decide.
    + apply (Hkind KCancelResp ch id); [by unfold t_header; rewrite Hmsg|done|].
      unfold process_cancel_resp, hs_remove. rewrite Hhid, Hhch, bool_decide_eq_true_2 by done.
      by rewrite advance_header.
Qed.
End arrival.
