(* ===== verification/Flow.v ===== *)
(** * The frames of many messages on one stream

    One direction of a connection: the transfers the receiving side has open, the frames on
    their way, and the transfers the sending side has queued.  Frames of different messages
    interleave; what keeps them apart is that on a channel no two messages of several frames
    are under way together, and that a cancelled request is not among the open ones. *)
From S2P Require Import Prelude Lib Varint Header FrameSize OutgoingMessage WireFormat Multiframe.
From S2P Require Import MultiframeSpec Protocol ProtocolInv ProcessIncoming ProtocolOps Delivery Peers Transfer.
From stdpp Require Import options.

(** ** Flows *)

Record Flow := mkFlow { opened : list Transfer; flying : list Transfer; queued : list Transfer }.

Section flow.
Context (m : MaxFrameSize) (Hm : MaxFrameSize_wf m).

(** A message of several frames. *)
Definition long (msg : Msg) : Prop := is_Some (next_transfer m (begin_transfer msg)).
#[export] Instance long_dec msg : Decision (long msg).
Proof. unfold long. apply _. Defined.

Lemma long_payload msg : long msg → is_Some (msg_payload msg).
Proof using Hm.
  intros [t' Hn]. unfold next_transfer, begin_transfer, room, t_payload in Hn. cbn [t_msg t_pos] in Hn.
  destruct (msg_payload msg) as [pl|]; [by eexists|]. pose proof (MaxFrameSize_wf_bounds m Hm).
  change (len (default [] (@None bytes))) with 0 in Hn. pose proof (varint_bytes_len 0).
  change (0 =? 0) with true in Hn. cbn iota in Hn. by rewrite (proj2 (Z.ltb_ge _ _)) in Hn by lia.
Qed.
Definition started (ts : list Transfer) : list Transfer := filter (λ t, t_pos t ≠ 0) ts.
Definition fresh (ts : list Transfer) : list Msg := map t_msg (filter (λ t, t_pos t = 0) ts).
Definition long_msgs (ts : list Transfer) : list Msg := filter long (map t_msg ts).
Definition more (t : Transfer) : list Transfer := option_list (next_transfer m t).

(** A message may begin while [ms] are open or about to be: no two long messages on a channel,
    and no cancellation of a request while a message with its id is open. *)
Definition may_begin (ms : list Msg) (msg : Msg) : Prop :=
  ∀ o, o ∈ ms → msg_channel o = msg_channel msg →
    ¬ long msg ∧ match msg with MCancelReq _ id => msg_id o ≠ id | _ => True end.

(** What is open before and after a frame. *)
Inductive frame_step : list Transfer → Transfer → list Transfer → Prop :=
  | frame_first O t : t_pos t = 0 → may_begin (map t_msg O) (t_msg t) → frame_step O t (O ++ more t)
  | frame_later O1 t O2 : t_pos t ≠ 0 → frame_step (O1 ++ t :: O2) t (O1 ++ O2 ++ more t).
Inductive frame_steps : list Transfer → list Transfer → list Transfer → Prop :=
  | frames_done O : frame_steps O [] O
  | frames_next O t O1 F O2 : frame_step O t O1 → frame_steps O1 F O2 → frame_steps O (t :: F) O2.

(** No message in the queue will meet one it must not meet: those in front of it that are long,
    and those already begun. *)
Definition queue_ok (Q : list Transfer) : Prop :=
  ∀ Q1 t Q2, Q = Q1 ++ t :: Q2 → t_pos t = 0 → may_begin (long_msgs Q1 ++ map t_msg (started Q)) (t_msg t).

Definition piece_ok (t : Transfer) : Prop := transfer_ok t ∧ (t_pos t ≠ 0 → long (t_msg t)).

Record flow_ok (f : Flow) : Prop := {
  fo_pieces : Forall piece_ok (opened f ++ flying f ++ queued f);
  fo_opened : Forall (λ t, t_pos t ≠ 0) (opened f);
  fo_channels : NoDup (map t_channel (opened f));
  fo_frames : ∃ O, frame_steps (opened f) (flying f) O ∧ O ≡ₚ started (queued f);
  fo_queue : queue_ok (queued f);
}.

(** The messages sent and not yet received completely, and those of them the receiving side has
    not taken account of: it does so for a request when it begins, for an answer when it is
    complete. *)
Definition not_begun (f : Flow) : list Msg := fresh (flying f ++ queued f).
Definition booked (f : Flow) : list Msg :=
  filter (λ msg, is_answer msg = true) (map t_msg (opened f)) ++ not_begun f.

(** ** Lemmas *)

Lemma may_begin_mono ms ms' msg : may_begin ms msg → ms' ⊆ ms → may_begin ms' msg.
Proof. intros H Hsub o Ho. by apply H, Hsub. Qed.
Lemma started_app l k : started (l ++ k) = started l ++ started k.
Proof. apply filter_app. Qed.
Lemma fresh_app l k : fresh (l ++ k) = fresh l ++ fresh k.
Proof. unfold fresh. by rewrite filter_app, map_app. Qed.
Lemma fresh_cons t l : fresh (t :: l) = (if decide (t_pos t = 0) then [t_msg t] else []) ++ fresh l.
Proof. unfold fresh. rewrite filter_cons. by case_decide. Qed.
Lemma started_cons t l : started (t :: l) = (if decide (t_pos t = 0) then [] else [t]) ++ started l.
Proof. unfold started. rewrite filter_cons. destruct (decide (t_pos t = 0)); [by rewrite decide_False by auto|by rewrite decide_True]. Qed.
Lemma long_msgs_app l k : long_msgs (l ++ k) = long_msgs l ++ long_msgs k.
Proof. unfold long_msgs. by rewrite map_app, filter_app. Qed.

Lemma more_started t : piece_ok t → started (more t) = more t ∧ fresh (more t) = [].
Proof using Hm.
  intros [Ht _]. unfold more. destruct (next_transfer m t) as [t'|] eqn:Hn; [|done]. change (option_list (Some t')) with [t'].
  destruct (next_transfer_ok m Hm t t' Ht Hn) as [_ Hp].
  rewrite started_cons, fresh_cons, !decide_False by lia. done.
Qed.
Lemma more_msg t t' : t' ∈ more t → t_msg t' = t_msg t.
Proof. unfold more. destruct (next_transfer m t) as [t''|] eqn:Hn; [|by rewrite elem_of_nil].
  intros ->%list_elem_of_singleton. by apply next_transfer_msg in Hn as [-> _].
Qed.
Lemma more_long t t' : piece_ok t → t' ∈ more t → long (t_msg t).
Proof.
  intros [_ Hl] Ht'. destruct (decide (t_pos t = 0)) as [H0|H0]; [|auto].
  unfold more in Ht'. destruct (next_transfer m t) as [t''|] eqn:Hn; [|by apply elem_of_nil in Ht'].
  exists t''. unfold begin_transfer. rewrite <- H0. by destruct t.
Qed.
Lemma more_ok t : piece_ok t → Forall piece_ok (more t).
Proof using Hm.
  intros Ht. apply Forall_forall. intros t' Ht'. split.
  - unfold more in Ht'. destruct (next_transfer m t) as [t''|] eqn:Hn; [|by apply elem_of_nil in Ht'].
    apply list_elem_of_singleton in Ht' as ->. by eapply next_transfer_ok; [|apply Ht|].
  - rewrite (more_msg _ _ Ht'). intros _. by eapply more_long.
Qed.

Lemma frame_steps_app O F O1 F' O2 : frame_steps O F O1 → frame_steps O1 F' O2 → frame_steps O (F ++ F') O2.
Proof. induction 1; [done|]. intros. cbn [app]. econstructor; eauto. Qed.

(** Everything open came from somewhere. *)
Lemma frame_step_origin O t O1 : frame_step O t O1 → ∀ o, o ∈ O1 →
  t_msg o ∈ map t_msg O ++ fresh [t].
Proof.
  intros Hs o Ho. destruct Hs as [O t H0 _|O1 t O2 H0].
  - rewrite fresh_cons, decide_True by done. apply elem_of_app in Ho as [Ho|Ho].
    + apply elem_of_app. left. by apply list_elem_of_fmap_2.
    + rewrite (more_msg _ _ Ho). apply elem_of_app. right. by apply list_elem_of_singleton.
  - apply elem_of_app. left. rewrite map_app. cbn [map]. rewrite !elem_of_app, elem_of_cons in *.
    destruct Ho as [Ho|[Ho|Ho]]; [left|right; right|right; left].
    + by apply list_elem_of_fmap_2.
    + by apply list_elem_of_fmap_2.
    + by apply more_msg.
Qed.
Lemma frame_steps_origin O F O1 : frame_steps O F O1 → ∀ o, o ∈ O1 → t_msg o ∈ map t_msg O ++ fresh F.
Proof.
  induction 1 as [O|O t O1 F O2 Hs _ IH]; intros o Ho.
  - apply elem_of_app. left. by apply list_elem_of_fmap_2.
  - specialize (IH o Ho). rewrite fresh_cons. apply elem_of_app in IH as [IH|IH].
    + apply list_elem_of_fmap in IH as (o' & -> & Ho'). pose proof (frame_step_origin _ _ _ Hs o' Ho') as Hor.
      rewrite fresh_cons in Hor. change (fresh []) with (@nil Msg) in Hor. rewrite app_nil_r in Hor.
      rewrite app_assoc. apply elem_of_app. by left.
    + rewrite !elem_of_app. tauto.
Qed.

(** ** What happens to a flow *)

Definition flow_send (f : Flow) (msg : Msg) : Flow :=
  mkFlow (opened f) (flying f) (queued f ++ [begin_transfer msg]).
Definition flow_ready (f : Flow) (t : Transfer) (Q : list Transfer) : Flow :=
  mkFlow (opened f) (flying f ++ [t]) (Q ++ more t).

Lemma flow_send_ok f msg : flow_ok f → piece_ok (begin_transfer msg) →
  may_begin (long_msgs (queued f)) msg → flow_ok (flow_send f msg).
Proof using Hm.
  intros [Hp Ho Hc (O & Hs & HO) Hq] Hmsg Hmay. constructor; cbn [flow_send opened flying queued]; try done.
  - rewrite !app_assoc. apply Forall_app. split; [by rewrite <- app_assoc|by apply Forall_singleton].
  - exists O. split; [done|]. rewrite started_app, HO. by rewrite app_nil_r.
  - assert (started (queued f ++ [begin_transfer msg]) = started (queued f)) as Hst
      by (rewrite started_app; apply app_nil_r).
    intros Q1 t Q2 HQ Ht. rewrite Hst. destruct (decide (Q2 = [])) as [->|Hne].
    + apply app_inj_tail in HQ as [<- <-]. eapply may_begin_mono; [exact Hmay|].
      intros o. rewrite elem_of_app. intros [Hin|Hin]; [done|].
      apply list_elem_of_fmap in Hin as (t & -> & Hin). apply list_elem_of_filter in Hin as [Hpos Hin].
      apply list_elem_of_filter. split; [|by apply list_elem_of_fmap_2].
      apply (Forall_app _ _ _) in Hp as [_ Hp]. apply Forall_app in Hp as [_ Hp]. rewrite Forall_forall in Hp.
      by apply (Hp t).
    + destruct (exists_last Hne) as (Q2' & x & ->). rewrite app_comm_cons, app_assoc in HQ.
      apply app_inj_tail in HQ as [HQ _]. by eapply Hq.
Qed.

Lemma queue_ok_rotate t Q : piece_ok t → queue_ok (t :: Q) → queue_ok (Q ++ more t).
Proof using Hm.
  intros Ht Hq Q1 u Q2 HQ Hu. destruct (more_started t Ht) as [Hst _].
  assert (∃ k, Q = Q1 ++ u :: k) as [k ->].
  { destruct (decide (u ∈ more t)) as [Hin|Hin].
    - rewrite <- Hst in Hin. by apply list_elem_of_filter in Hin as [? _].
    - unfold more in HQ, Hin. destruct (next_transfer m t) as [t'|].
      + change (option_list (Some t')) with [t'] in *. destruct (decide (Q2 = [])) as [->|Hne].
        * apply app_inj_tail in HQ as [_ <-]. by destruct Hin; left.
        * destruct (exists_last Hne) as (Q2' & x & ->). rewrite app_comm_cons, app_assoc in HQ.
          apply app_inj_tail in HQ as [-> _]. by eexists.
      + change (option_list (@None Transfer)) with (@nil Transfer) in HQ. rewrite app_nil_r in HQ. by eexists. }
  specialize (Hq (t :: Q1) u k eq_refl Hu). eapply may_begin_mono; [exact Hq|].
  intros o. change (t :: Q1) with ([t] ++ Q1). rewrite long_msgs_app, started_app, started_cons, !map_app, !elem_of_app, Hst.
  intros [Ho|[Ho|Ho]]; [tauto|tauto|].
  apply list_elem_of_fmap in Ho as (t' & -> & Ho). rewrite (more_msg _ _ Ho). left. left.
  apply list_elem_of_filter. split; [by eapply more_long|by left].
Qed.

Lemma flow_ready_ok f t Q : flow_ok f → queued f = t :: Q → flow_ok (flow_ready f t Q).
Proof using Hm.
  intros [Hp Ho Hc (O & Hs & HO) Hq] HQ. rewrite HQ in *.
  assert (piece_ok t) as Ht.
  { rewrite Forall_forall in Hp. apply Hp. rewrite !elem_of_app. right. right. by left. }
  pose proof (more_started t Ht) as [Hst _]. constructor; cbn [flow_ready opened flying queued]; try done.
  - rewrite !Forall_app, Forall_cons in Hp. rewrite !Forall_app, Forall_singleton. pose proof (more_ok t Ht). tauto.
  - rewrite started_cons in HO. destruct (decide (t_pos t = 0)) as [H0|H0].
    + exists (O ++ more t). split; [|by rewrite started_app, Hst, HO].
      eapply frame_steps_app; [exact Hs|]. econstructor; [|constructor]. constructor; [done|].
      pose proof (Hq [] t Q eq_refl H0) as Hmay. eapply may_begin_mono; [exact Hmay|].
      intros o Hin. apply list_elem_of_fmap in Hin as (t' & -> & Hin). rewrite HO in Hin.
      apply elem_of_app. right. rewrite started_cons. apply list_elem_of_fmap_2, elem_of_app. by right.
    + assert (t ∈ O) as Hin by (rewrite HO; by left). apply list_elem_of_split in Hin as (O1 & O2 & ->).
      exists (O1 ++ O2 ++ more t). split.
      * eapply frame_steps_app; [exact Hs|]. econstructor; [|constructor]. by constructor.
      * rewrite <- Permutation_middle in HO. apply Permutation_cons_inv in HO.
        by rewrite started_app, Hst, app_assoc, HO.
  - by apply queue_ok_rotate.
Qed.
Lemma flow_ready_booked f t Q : flow_ok f → queued f = t :: Q → not_begun (flow_ready f t Q) = not_begun f.
Proof using Hm.
  intros Hf HQ. assert (piece_ok t) as Ht.
  { pose proof (fo_pieces _ Hf) as Hp. rewrite HQ, Forall_forall in Hp. apply Hp. rewrite !elem_of_app. right. right. by left. }
  unfold not_begun. cbn [flow_ready flying queued]. rewrite HQ, !fresh_app, fresh_cons.
  destruct (more_started t Ht) as [_ ->]. rewrite (fresh_cons t Q). rewrite app_nil_r.
  change (fresh []) with (@nil Msg). by rewrite app_nil_r, <- app_assoc.
Qed.

(** A frame arrives. *)
Lemma flow_arrive f t F : flow_ok f → flying f = t :: F →
  ∃ O, frame_step (opened f) t O ∧ flow_ok (mkFlow O F (queued f)) ∧ piece_ok t.
Proof using Hm.
  intros [Hp Ho Hc (O & Hs & HO) Hq] HF. rewrite HF in *. inversion Hs as [|? ? O1 ? ? Hstep Hrest]; subst.
  assert (piece_ok t) as Ht by (rewrite Forall_forall in Hp; apply Hp; rewrite !elem_of_app; right; left; by left).
  exists O1. split; [done|]. split; [|done]. constructor; cbn [opened flying queued]; try done; [| | |by exists O].
  - pose proof (more_ok t Ht) as Hmore. rewrite !Forall_app, Forall_cons in Hp. destruct Hp as (Hp1 & [_ Hp2] & Hp3).
    rewrite !Forall_app. split; [|done]. destruct Hstep as [O0 t _ _|Oa t Ob _].
    + by apply Forall_app.
    + rewrite Forall_app, Forall_cons in Hp1. rewrite !Forall_app. tauto.
  - destruct (more_started t Ht) as [Hst _].
    assert (Forall (λ t, t_pos t ≠ 0) (more t)) as Hmore.
    { rewrite <- Hst. apply Forall_forall. intros x Hx. by apply list_elem_of_filter in Hx as [? _]. }
    destruct Hstep as [O0 t _ _|Oa t Ob _]; rewrite ?Forall_app, ?Forall_cons in *; tauto.
  - assert (map t_channel (more t) = match next_transfer m t with Some _ => [t_channel t] | None => [] end) as Hch.
    { pose proof (more_msg t) as Hmm. unfold more in *. destruct (next_transfer m t) as [t'|]; [|done].
      cbn. unfold t_channel. by rewrite Hmm by by left. }
    destruct Hstep as [O0 t H0 Hmay|Oa t Ob _].
    + rewrite map_app, Hch. destruct (next_transfer m t) as [t'|] eqn:Hn; [|by rewrite app_nil_r].
      apply NoDup_snoc; [done|]. intros Hin. apply list_elem_of_fmap in Hin as (o & Heq & Hin).
      destruct (Hmay (t_msg o)) as [Hl _]; [by apply list_elem_of_fmap_2|done|]. apply Hl.
      apply (more_long t t'); [done|]. unfold more. rewrite Hn. by left.
    + rewrite map_app in Hc |- *. rewrite map_app. cbn [map] in Hc. rewrite Hch.
      rewrite <- Permutation_middle in Hc. destruct (next_transfer m t) as [t'|].
      * by rewrite app_assoc, Permutation_app_comm.
      * rewrite app_nil_r. by apply NoDup_cons in Hc as [_ Hc].
Qed.
End flow.
