(* ===== verification/Duplex.v ===== *)
(** * Two parties that send frame by frame

    What [Peers] shows of whole messages, for messages whose frames interleave: two protocols,
    each with the flow of the frames it sends.  A party may begin a message whenever its
    protocol creates one that does not get in the way of those under way; the frames arrive one
    at a time.  Every frame is then accepted by the other side. *)
From stdpp Require Import functions.
From S2P Require Import Prelude Lib Varint Header FrameSize OutgoingMessage WireFormat Multiframe.
From S2P Require Import MultiframeSpec Protocol ProtocolInv ProcessIncoming ProtocolOps Delivery Peers Transfer Flow.
From stdpp Require Import options.

(** ** Reading the queues of a channel *)

Lemma requests_in_app2 q k : requests_in (q ++ k) = requests_in q ++ requests_in k.
Proof. apply omap_app. Qed.
Lemma answers_in_app2 q k : answers_in (q ++ k) = answers_in q ++ answers_in k.
Proof. apply omap_app. Qed.
Lemma on_app2 ch q k : on ch (q ++ k) = on ch q ++ on ch k.
Proof. apply filter_app. Qed.
Lemma answers_in_perm q k : q ≡ₚ k → answers_in q ≡ₚ answers_in k.
Proof. unfold answers_in. by intros ->. Qed.
Lemma on_perm ch q k : q ≡ₚ k → on ch q ≡ₚ on ch k.
Proof. unfold on. by intros ->. Qed.

Definition answers (q : list Msg) : list Msg := filter (λ msg, is_answer msg = true) q.
Lemma answers_requests ch q : requests_in (on ch (answers q)) = [].
Proof.
  induction q as [|msg q IH]; [done|]. unfold answers in *. rewrite filter_cons. case_decide as Ha; [|done].
  rewrite on_cons. case_decide; [|done]. by destruct msg.
Qed.
Lemma answers_allowance ch limit q k : ∀ a,
  allowance_after limit a (on ch (answers q) ++ k) = allowance_after limit a k.
Proof.
  induction q as [|msg q IH]; intros a; [done|]. unfold answers in *. rewrite filter_cons. case_decide as Ha; [|done].
  rewrite on_cons. case_decide; [|done]. destruct msg; try done; cbn [app allowance_after]; apply IH.
Qed.
Lemma answers_in_elem id q : id ∈ answers_in q ↔ ∃ msg, msg ∈ q ∧ is_answer msg = true ∧ msg_id msg = id.
Proof.
  unfold answers_in. rewrite list_elem_of_omap. split.
  - intros (msg & Hin & Heq). exists msg. destruct msg; naive_solver.
  - intros (msg & Hin & Ha & <-). exists msg. by destruct msg.
Qed.
Lemma requests_in_elem id q : id ∈ requests_in q ↔ ∃ ch pl, MReq ch id pl ∈ q.
Proof.
  unfold requests_in. rewrite list_elem_of_omap. split.
  - intros (msg & Hin & Heq). destruct msg; naive_solver.
  - intros (ch & pl & Hin). by exists (MReq ch id pl).
Qed.
Lemma on_elem msg ch q : msg ∈ on ch q ↔ msg_channel msg = ch ∧ msg ∈ q.
Proof. unfold on. by rewrite list_elem_of_filter. Qed.

(** The accounting of requests reads only these of the two queues. *)
Lemma requests_inv_queues cx cy q1 q1' q2 q2' canc : requests_in q1 = requests_in q2 →
  (∀ limit a, allowance_after limit a q1 = allowance_after limit a q2) →
  answers_in q1' ≡ₚ answers_in q2' →
  requests_inv cx cy q1 q1' canc → requests_inv cx cy q2 q2' canc.
Proof.
  intros Hr Ha Hans [Hp Hnr Hna Hap (a & Hall & Hle)]. constructor.
  - intros id. rewrite Hp, Hr. by rewrite Hans.
  - by rewrite <- Hr.
  - by rewrite <- Hans.
  - intros id. specialize (Hap id). by rewrite Hr, Hans in Hap.
  - exists a. by rewrite <- Ha.
Qed.

(** ** The two parties *)

(** A party: its protocol, the flow of what it sends, which of its outstanding requests it has
    cancelled, and the requests of the other side it has been told of and not answered. *)
Record Party := mkParty {
  p_proto : JulietProtocol;
  p_out : Flow;
  p_cancelled : ChannelId → gset Id;
  p_owed : ChannelId → gset Id;
}.

Definition open_request (f : Flow) (ch : ChannelId) (id : Id) : Prop :=
  ∃ t pl, t ∈ opened f ∧ t_msg t = MReq ch id pl.

(** One direction on one channel, from [cx] to [cy], with the queue [q'] back. *)
Record lane (ch : ChannelId) (cx cy : Channel) (f : Flow) (q' : list Msg) (canc owed : gset Id) : Prop := {
  ln_requests : requests_inv cx cy (on ch (booked f)) q' canc;
  ln_open t : t ∈ opened f → t_channel t = ch → current_multiframe_receiver cy = receiving t;
  ln_ready : (∀ t, t ∈ opened f → t_channel t ≠ ch) → current_multiframe_receiver cy = Ready;
  ln_incoming id : id ∈ incoming_requests cy ↔ id ∈ owed ∨ open_request f ch id;
  ln_owed id : id ∈ owed → ¬ open_request f ch id;
}.

Definition pieces (f : Flow) : list Transfer := opened f ++ flying f ++ queued f.
Record duplex (a b : Party) : Prop := {
  dx_a : protocol_wf (p_proto a);
  dx_b : protocol_wf (p_proto b);
  dx_same : same_config (p_proto a) (p_proto b);
  dx_flow_a : flow_ok (max_frame_size (p_proto a)) (p_out a);
  dx_flow_b : flow_ok (max_frame_size (p_proto b)) (p_out b);
  dx_msgs_a : Forall (λ t, sent_ok (p_proto a) (t_msg t)) (pieces (p_out a));
  dx_msgs_b : Forall (λ t, sent_ok (p_proto b) (t_msg t)) (pieces (p_out b));
  dx_lanes ch ca cb : ChannelId_wf ch →
    chan_at (p_proto a) ch = Some ca → chan_at (p_proto b) ch = Some cb →
    lane ch ca cb (p_out a) (on ch (booked (p_out b))) (p_cancelled a ch) (p_owed b ch) ∧
    lane ch cb ca (p_out b) (on ch (booked (p_out a))) (p_cancelled b ch) (p_owed a ch);
}.

Lemma duplex_sym a b : duplex a b → duplex b a.
Proof.
  intros [Ha Hb Hs Hfa Hfb Hma Hmb Hl]. constructor; try done; [by apply same_config_sym|].
  intros ch cb ca Hch Hcb Hca. destruct (Hl ch ca cb Hch Hca Hcb). done.
Qed.

(** ** Sending *)

Definition party_send (a : Party) (e : endpoint) (msg : Msg) : Party :=
  mkParty (proto e) (flow_send (p_out a) msg) (cancelled e)
    (if is_answer msg
     then <[msg_channel msg := p_owed a (msg_channel msg) ∖ {[msg_id msg]}]> (p_owed a) else p_owed a).
Definition party_endpoint (a : Party) : endpoint := mkEndpoint (p_proto a) [] (p_cancelled a).

Lemma booked_send f msg : booked (flow_send f msg) = booked f ++ [msg].
Proof.
  unfold booked, not_begun. cbn [flow_send opened flying queued]. rewrite app_assoc, fresh_app, fresh_cons.
  change (fresh []) with (@nil Msg). by rewrite app_nil_r, app_assoc.
Qed.

Lemma lane_ext ch cx cx' cy f q q' canc owed : outgoing_requests cx' = outgoing_requests cx →
  answers_in q ≡ₚ answers_in q' → lane ch cx cy f q canc owed → lane ch cx' cy f q' canc owed.
Proof.
  intros Ho Hq [H1 H2 H3 H4 H5]. constructor; try done.
  eapply requests_inv_queues; [..|eapply requests_inv_ext; [..|exact H1]]; done.
Qed.

Lemma sent_ok_pieces p p' l : same_config p p' → Forall (λ t, sent_ok p (t_msg t)) l → Forall (λ t, sent_ok p' (t_msg t)) l.
Proof. intros Hs Hl. eapply Forall_impl; [exact Hl|]. intros t. by apply sent_ok_same_config. Qed.

Lemma duplex_send a b e msg : duplex a b → local_step (party_endpoint a) e → sent e = [msg] →
  may_begin (max_frame_size (p_proto a)) (long_msgs (max_frame_size (p_proto a)) (queued (p_out a))) msg →
  (is_answer msg = true → msg_id msg ∈ p_owed a (msg_channel msg)) → duplex (party_send a e msg) b.
Proof.
  intros [Ha Hb Hs Hfa Hfb Hma Hmb Hl] Hstep Hsent Hmay Howed. pose proof (pw_mfs _ Ha) as Hm.
  destruct (local_step_effect (party_endpoint a) e Ha Hstep)
    as (ch & c & c' & msg' & Hch & Hmc & Hat & Hp' & Hq & Hcanc & [Hwf Hcfg] & Hrec & Hok & Hinc & Hans & Hinv).
  cbn [party_endpoint proto sent cancelled app] in *. assert (msg' = msg) as -> by congruence. clear Hq.
  assert (same_config (p_proto a) (proto e)) as Hcc by (rewrite Hp'; by eapply put_channel_same_config).
  assert (max_frame_size (proto e) = max_frame_size (p_proto a)) as Hmfs by apply Hcc.
  assert (transfer_ok (begin_transfer msg)) as Htr.
  { split; [|by left]. destruct Hok as (_ & _ & Hpl). pose proof (cw_config c (channel_wf_lookup _ _ _ Ha Hat)) as (_ & Hr & Hrs).
    unfold t_payload, begin_transfer. cbn [t_msg].
    assert (u32 (len (@nil Z))) as Hnil by (split; vm_compute; discriminate).
    destruct msg as [? ? [pl|]|? ? [pl|]|? ?|? ?]; try exact Hnil;
      destruct Hpl as [_ Hpl]; pose proof (len_nonneg pl); change (u32 (len pl)); ulia. }
  constructor; cbn [party_send p_proto p_out p_cancelled p_owed]; rewrite ?Hmfs; try done.
  - rewrite Hp'. by apply put_channel_wf.
  - eapply same_config_trans; [by apply same_config_sym|done].
  - by apply flow_send_ok.
  - unfold pieces, flow_send. cbn [opened flying queued]. rewrite !app_assoc. apply Forall_app. split.
    + rewrite <- app_assoc. by eapply sent_ok_pieces.
    + apply Forall_singleton. eapply sent_ok_same_config; [exact Hcc|]. exists c. cbn [begin_transfer t_msg]. by rewrite Hmc.
  - intros ch0 cx cy Hch0 Hx Hy. destruct (decide (ch0 = ch)) as [->|Hne].
    + rewrite Hp', (chan_at_put _ _ c) in Hx by done. injection Hx as <-.
      destruct (Hl ch c cy Hch Hat Hy) as [[H1 H2 H3 H4 H5] [G1 G2 G3 G4 G5]].
      destruct (same_config_chan _ _ ch c Hs Hat) as (cy' & Hy' & Hcy). assert (cy' = cy) as -> by congruence.
      rewrite booked_send, on_app, decide_True by done. destruct (Hinv cy _ _ _ Hcy H1 G1) as [Hi1 Hi2].
      split; constructor; try done.
      * by rewrite booked_send, on_app, decide_True.
      * rewrite Hrec. intros t. apply G2.
      * by rewrite Hrec.
      * intros id. rewrite Hinc. rewrite Hmc in *. destruct (is_answer msg); [|done].
        rewrite fn_lookup_insert, !elem_of_difference, elem_of_singleton, G4. pose proof (G5 (msg_id msg) (Howed eq_refl)).
        destruct (decide (id = msg_id msg)) as [->|]; tauto.
      * intros id. rewrite Hmc. destruct (is_answer msg); [|by apply G5]. rewrite fn_lookup_insert.
        intros Hid. apply G5. set_solver.
    + rewrite Hp', chan_at_put_ne in Hx by done. destruct (Hl ch0 cx cy Hch0 Hx Hy) as [[H1 H2 H3 H4 H5] G].
      rewrite booked_send, on_app, decide_False by congruence. rewrite Hcanc by done. split.
      * constructor; try done. by rewrite booked_send, on_app, decide_False by congruence.
      * destruct (is_answer msg); [|done]. by rewrite fn_lookup_insert_ne by congruence.
Qed.

(** ** Cutting off the next frame *)

Definition party_out (a : Party) (f : Flow) : Party := mkParty (p_proto a) f (p_cancelled a) (p_owed a).

Lemma duplex_ready a b t Q : duplex a b → queued (p_out a) = t :: Q →
  duplex (party_out a (flow_ready (max_frame_size (p_proto a)) (p_out a) t Q)) b.
Proof.
  intros [Ha Hb Hs Hfa Hfb Hma Hmb Hl] HQ. pose proof (pw_mfs _ Ha) as Hm.
  set (f := flow_ready _ _ _ _). assert (booked f = booked (p_out a)) as Hbk.
  { unfold booked, f. by rewrite (flow_ready_booked _ Hm) by done. }
  constructor; cbn [party_out p_proto p_out p_cancelled p_owed]; try done.
  - by apply flow_ready_ok.
  - unfold pieces, f, flow_ready in *. cbn [opened flying queued]. rewrite HQ in Hma.
    rewrite !Forall_app, Forall_cons in Hma. rewrite !Forall_app, Forall_singleton.
    assert (Forall (λ t', sent_ok (p_proto a) (t_msg t')) (more (max_frame_size (p_proto a)) t)) as Hmore.
    { apply Forall_forall. intros t' Ht'. rewrite (more_msg _ _ _ Ht'). tauto. }
    tauto.
  - intros ch cx cy Hch Hx Hy. destruct (Hl ch cx cy Hch Hx Hy) as [[H1 H2 H3 H4 H5] G]. rewrite Hbk.
    split; [|done]. constructor; try done. by rewrite Hbk.
Qed.

(** ** A frame arrives *)

Section arrive.
Context (m : MaxFrameSize) (Hm : MaxFrameSize_wf m).

(** The requests and the answers booked before a frame: what the frame takes off, and what is
    booked behind it. *)
Definition begins (t : Transfer) : list Msg := if decide (t_pos t = 0) then [t_msg t] else [].
Definition completes (t : Transfer) : list Msg :=
  match next_transfer m t with None => answers [t_msg t] | Some _ => [] end.

Lemma booked_requests ch O t O' F Q : frame_step m O t O' →
  requests_in (on ch (booked (mkFlow O (t :: F) Q)))
  = requests_in (on ch (begins t)) ++ requests_in (on ch (booked (mkFlow O' F Q))).
Proof.
  intros _. unfold booked, not_begun, begins. cbn [opened flying queued app].
  rewrite fresh_cons, !on_app2, !requests_in_app2. fold (answers (map t_msg O)) (answers (map t_msg O')).
  by rewrite !answers_requests.
Qed.
Lemma booked_allowance ch O t O' F Q limit a : frame_step m O t O' →
  allowance_after limit a (on ch (booked (mkFlow O (t :: F) Q)))
  = allowance_after limit a (on ch (begins t) ++ on ch (not_begun (mkFlow O' F Q))).
Proof.
  intros _. unfold booked, not_begun, begins. cbn [opened flying queued app].
  rewrite fresh_cons, !on_app2. fold (answers (map t_msg O)). by rewrite answers_allowance.
Qed.
Lemma booked_allowance_after ch f limit a :
  allowance_after limit a (on ch (booked f)) = allowance_after limit a (on ch (not_begun f)).
Proof. unfold booked. rewrite on_app2. apply answers_allowance. Qed.

Lemma answers_app q k : answers (q ++ k) = answers q ++ answers k.
Proof. apply filter_app. Qed.
Lemma answers_in_answers q : answers_in (answers q) = answers_in q.
Proof.
  induction q as [|msg q IH]; [done|]. unfold answers in *. rewrite filter_cons. unfold answers_in in *.
  case_decide as Ha; cbn [omap list_omap]; rewrite IH; by destruct msg.
Qed.
Lemma answers_in_on ch q : answers_in (on ch (answers q)) = answers_in (on ch q).
Proof.
  rewrite <- (answers_in_answers (on ch q)). rewrite <- answers_in_answers. f_equal.
  unfold on, answers. rewrite !list_filter_filter. apply list_filter_iff. intros x. tauto.
Qed.
Lemma answers_in_booked ch f :
  answers_in (on ch (booked f)) = answers_in (on ch (map t_msg (opened f) ++ not_begun f)).
Proof.
  unfold booked. rewrite !on_app2, !answers_in_app2. fold (answers (map t_msg (opened f))). by rewrite answers_in_on.
Qed.
Lemma more_msgs t : map t_msg (more m t) = match next_transfer m t with Some _ => [t_msg t] | None => [] end.
Proof.
  pose proof (more_msg m t) as Hmm. unfold more in *. destruct (next_transfer m t) as [t'|]; [|done].
  cbn. by rewrite Hmm by by left.
Qed.

(** The messages not received completely, before and after a frame. *)
Lemma under_way_step O t O' F Q : frame_step m O t O' →
  map t_msg O ++ not_begun (mkFlow O (t :: F) Q)
  ≡ₚ (match next_transfer m t with Some _ => [] | None => [t_msg t] end) ++
     map t_msg O' ++ not_begun (mkFlow O' F Q).
Proof.
  intros Hs. unfold not_begun. cbn [opened flying queued app]. rewrite fresh_cons. destruct Hs as [O t H0 _|O1 t O2 H0].
  - rewrite decide_True by done. rewrite map_app, more_msgs. destruct (next_transfer m t); cbn [app].
    + by rewrite <- app_assoc.
    + rewrite app_nil_r. by rewrite <- Permutation_middle.
  - rewrite decide_False by done. cbn [app]. rewrite !map_app. cbn [map]. rewrite more_msgs.
    rewrite <- Permutation_middle. destruct (next_transfer m t); cbn [app].
    + rewrite !app_assoc, (Permutation_app_comm _ [t_msg t]). by rewrite app_assoc.
    + by rewrite app_nil_r.
Qed.
Lemma booked_answers ch O t O' F Q : frame_step m O t O' →
  answers_in (on ch (booked (mkFlow O (t :: F) Q)))
  ≡ₚ answers_in (on ch (completes t)) ++ answers_in (on ch (booked (mkFlow O' F Q))).
Proof.
  intros Hs. rewrite !answers_in_booked. cbn [opened].
  rewrite (answers_in_perm _ _ (on_perm ch _ _ (under_way_step O t O' F Q Hs))).
  rewrite on_app2, answers_in_app2. unfold completes. destruct (next_transfer m t); [done|]. by rewrite answers_in_on.
Qed.

Lemma arrival_fields t c : let st := if t_pos t =? 0 then start_effect (t_msg t) c else c in
  incoming_requests (arrival m t c).2 = incoming_requests st ∧
  cancellation_allowance (arrival m t c).2 = cancellation_allowance st ∧
  config (arrival m t c).2 = config c ∧
  outgoing_requests (arrival m t c).2
    = match next_transfer m t with None => outgoing_requests (finish_effect (t_msg t) c) | Some _ => outgoing_requests c end.
Proof.
  unfold arrival. destruct (next_transfer m t), (t_pos t =? 0), (t_msg t) as [ch id [pl|]|ch id [pl|]|ch id|ch id]; done.
Qed.

Section step.
Context (ch : ChannelId) (O O' F Q : list Transfer) (t : Transfer).
Context (Hs : frame_step m O t O') (Hch : t_channel t = ch).
Let before := mkFlow O (t :: F) Q.
Let after := mkFlow O' F Q.

Lemma on_begins : on ch (begins t) = begins t.
Proof using Hch. unfold begins. case_decide; [|done]. by rewrite on_cons, decide_True. Qed.
Lemma on_completes : on ch (completes t) = completes t.
Proof using Hch.
  unfold completes, answers. destruct (next_transfer m t); [done|]. rewrite filter_cons, filter_nil.
  case_decide; [|done]. by rewrite on_cons, decide_True.
Qed.

(** The direction of the frame. *)
Lemma forward_before ca cb q' canc : requests_inv ca cb (on ch (booked before)) q' canc →
  requests_inv ca cb (begins t ++ on ch (not_begun after)) q' canc.
Proof using Hs Hch.
  apply requests_inv_queues; [| |done].
  - unfold before. rewrite (booked_requests ch O t O' F Q Hs), on_begins, requests_in_app2. f_equal.
    unfold booked. rewrite on_app2, requests_in_app2. fold (answers (map t_msg (opened after))). by rewrite answers_requests.
  - intros. unfold before. by rewrite (booked_allowance ch O t O' F Q _ _ Hs), on_begins.
Qed.
Lemma forward_after cx cy q' canc : requests_inv cx cy (on ch (not_begun after)) q' canc →
  requests_inv cx cy (on ch (booked after)) q' canc.
Proof using Type.
  apply requests_inv_queues; [| |done].
  - unfold booked. rewrite on_app2, requests_in_app2. fold (answers (map t_msg (opened after))). by rewrite answers_requests.
  - intros. by rewrite booked_allowance_after.
Qed.
Lemma forward_step ca cb q' canc : requests_inv ca cb (on ch (booked before)) q' canc →
  requests_inv ca (arrival m t cb).2 (on ch (booked after)) q' canc.
Proof using Hs Hch.
  intros H%forward_before. apply forward_after. destruct (arrival_fields t cb) as (Hi & Ha & Hc & _).
  unfold begins in H. destruct (Z.eqb_spec (t_pos t) 0) as [H0|H0].
  - rewrite decide_True in H by done. cbn [app] in H.
    eapply (requests_inv_ext ca (start_effect (t_msg t) cb)); [done|done|done|by rewrite Hc; destruct (t_msg t)|].
    destruct (t_msg t) as [ch' id pl|ch' id pl|ch' id|ch' id].
    + by eapply inv_received_request.
    + exact (inv_received_answer _ _ (MResp ch' id pl) _ _ _ eq_refl H).
    + by apply inv_received_cancel in H as [_ H].
    + exact (inv_received_answer _ _ (MCancelResp ch' id) _ _ _ eq_refl H).
  - rewrite decide_False in H by done. eapply requests_inv_ext; [..|exact H]; done.
Qed.

(** The direction back. *)
Lemma back_before cb ca q canc : requests_inv cb ca q (on ch (booked before)) canc →
  requests_inv cb ca q (completes t ++ on ch (booked after)) canc.
Proof using Hs Hch.
  apply requests_inv_queues; [done|done|]. unfold before. rewrite (booked_answers ch O t O' F Q Hs).
  by rewrite on_completes, answers_in_app2.
Qed.
Lemma back_step cb ca q canc : requests_inv cb ca q (on ch (booked before)) canc →
  requests_inv (arrival m t cb).2 ca q (on ch (booked after)) canc.
Proof using Hs Hch.
  intros H%back_before. destruct (arrival_fields t cb) as (_ & _ & _ & Ho).
  unfold completes, answers in H. destruct (next_transfer m t).
  { eapply requests_inv_ext; [..|exact H]; done. }
  rewrite filter_cons in H. destruct (t_msg t) as [ch' id pl|ch' id pl|ch' id|ch' id]; cbn [is_answer] in H.
  - rewrite decide_False in H by done. eapply requests_inv_ext; [..|exact H]; done.
  - rewrite decide_True in H by done. apply inv_back_answer in H as [_ H]; [|done].
    eapply requests_inv_ext; [..|exact H]; done.
  - rewrite decide_False in H by done. eapply requests_inv_ext; [..|exact H]; done.
  - rewrite decide_True in H by done. apply inv_back_answer in H as [_ H]; [|done].
    eapply requests_inv_ext; [..|exact H]; done.
Qed.
End step.

(** Other channels do not notice. *)
Lemma other_channel ch O t O' F Q : frame_step m O t O' → t_channel t ≠ ch →
  (∀ cx cy q' canc, requests_inv cx cy (on ch (booked (mkFlow O (t :: F) Q))) q' canc →
     requests_inv cx cy (on ch (booked (mkFlow O' F Q))) q' canc) ∧
  answers_in (on ch (booked (mkFlow O (t :: F) Q))) ≡ₚ answers_in (on ch (booked (mkFlow O' F Q))).
Proof.
  intros Hs Hne. assert (∀ l, l = [t_msg t] → on ch l = []) as Hnone.
  { intros l ->. by rewrite on_cons, decide_False. }
  assert (on ch (begins t) = []) as Hb by (unfold begins; case_decide; [by apply Hnone|done]).
  assert (on ch (completes t) = []) as Hc.
  { unfold completes, answers. destruct (next_transfer m t); [done|]. rewrite filter_cons, filter_nil.
    case_decide; [by apply Hnone|done]. }
  split.
  - intros cx cy q' canc. apply requests_inv_queues; [| |done].
    + by rewrite (booked_requests ch O t O' F Q Hs), Hb.
    + intros. rewrite (booked_allowance ch O t O' F Q _ _ Hs), Hb. by rewrite booked_allowance_after.
  - rewrite (booked_answers ch O t O' F Q Hs), Hc. done.
Qed.
End arrive.

Lemma Header_new_inj k k' ch ch' id id' : Id_wf id → Id_wf id' →
  Header_new k ch id = Header_new k' ch' id' → k = k' ∧ ch = ch' ∧ id = id'.
Proof.
  intros Hid Hid' Heq. pose proof (f_equal kind Heq) as Hk. rewrite !kind_new in Hk.
  pose proof (f_equal Header_channel Heq) as Hc. rewrite !Header_channel_new in Hc.
  pose proof (f_equal Header_id Heq) as Hi. rewrite !Header_id_new in Hi by done. by injection Hk.
Qed.
(** A header determines whether the message is a request or an answer, its channel and its id. *)
Lemma message_header_inj msg msg' : Id_wf (msg_id msg) → Id_wf (msg_id msg') →
  om_header (message_of msg) = om_header (message_of msg') →
  msg_channel msg = msg_channel msg' ∧ msg_id msg = msg_id msg' ∧
  match msg, msg' with
  | MReq _ _ _, MReq _ _ _ | MResp _ _ _, MResp _ _ _ | MCancelReq _ _, MCancelReq _ _
  | MCancelResp _ _, MCancelResp _ _ => True
  | _, _ => False
  end.
Proof.
  intros Hid Hid'. destruct msg as [ch id [pl|]|ch id [pl|]|ch id|ch id], msg' as [ch' id' [pl'|]|ch' id' [pl'|]|ch' id'|ch' id'];
    intros (Hk & -> & ->)%Header_new_inj; done.
Qed.

(** What a party that is told of a request owes. *)
Definition owe (read : option CompletedRead) (owed : ChannelId → gset Id) : ChannelId → gset Id :=
  match read with Some (NewRequest ch id _) => <[ch := {[id]} ∪ owed ch]> owed | _ => owed end.
Definition party_receive (b : Party) (t : Transfer) (c : Channel) : Party :=
  let '(read, c') := arrival (max_frame_size (p_proto b)) t c in
  mkParty (put_channel (p_proto b) (t_channel t) c') (p_out b) (p_cancelled b) (owe read (p_owed b)).

(** ** Headers of messages under way *)

Lemma NoDup_omap_inj {A B} (g : A → option B) l x y k : NoDup (omap g l) → x ∈ l → y ∈ l →
  g x = Some k → g y = Some k → x = y.
Proof.
  induction l as [|z l IH]; intros Hnd Hx Hy Gx Gy; [by apply elem_of_nil in Hx|].
  assert (∀ w, w ∈ l → g w = Some k → g z = Some k → False) as Hno.
  { intros w Hw Gw Gz. cbn [omap list_omap] in Hnd. rewrite Gz in Hnd. apply NoDup_cons in Hnd as [Hnd _].
    apply Hnd. apply list_elem_of_omap. by exists w. }
  assert (NoDup (omap g l)) as Hnd'.
  { cbn [omap list_omap] in Hnd. destruct (g z); [|done]. by apply NoDup_cons in Hnd as [_ ?]. }
  apply elem_of_cons in Hx as [->|Hx], Hy as [->|Hy]; [done|by destruct (Hno y)|by destruct (Hno x)|by apply IH].
Qed.

Lemma NoDup_map_inj {A B} (g : A → B) l x y : NoDup (map g l) → x ∈ l → y ∈ l → g x = g y → x = y.
Proof.
  intros Hnd Hx Hy Heq. apply (NoDup_omap_inj (λ z, Some (g z)) l x y (g x)); [|done|done|done|by rewrite Heq].
  assert (omap (λ z, Some (g z)) l = map g l) as ->; [|done].
  clear. induction l as [|z l IH]; [done|]. cbn [omap list_omap map]. by f_equal.
Qed.

Lemma booked_opened f t : t ∈ opened f → is_answer (t_msg t) = true → t_msg t ∈ booked f.
Proof. intros Ht Ha. apply elem_of_app. left. apply list_elem_of_filter. split; [done|]. by apply list_elem_of_fmap_2. Qed.
Lemma booked_not_begun f x : x ∈ not_begun f → x ∈ booked f.
Proof. intros Hx. apply elem_of_app. by right. Qed.

(** Two messages sent and not received completely are the same if they have the same header;
    only cancellations of requests are not counted. *)
Definition all_under_way (f : Flow) : list Msg := map t_msg (opened f) ++ not_begun f.
Lemma under_way_unique a b x y ca cb : duplex a b → x ∈ all_under_way (p_out a) → y ∈ all_under_way (p_out a) →
  chan_at (p_proto a) (msg_channel x) = Some ca → chan_at (p_proto b) (msg_channel x) = Some cb →
  ChannelId_wf (msg_channel x) → Id_wf (msg_id x) → Id_wf (msg_id y) →
  (∀ ch id, x ≠ MCancelReq ch id) → om_header (message_of x) = om_header (message_of y) → x = y.
Proof.
  intros Hdx Hx Hy Hca Hcb Hch Hix Hiy Hnc Heq. apply message_header_inj in Heq as (Hc & Hi & Hk); [|done..].
  destruct (dx_lanes _ _ Hdx _ ca cb Hch Hca Hcb) as [L1 L2].
  pose proof (ln_requests _ _ _ _ _ _ _ L1) as R1. pose proof (ln_requests _ _ _ _ _ _ _ L2) as R2.
  destruct (is_answer x) eqn:Ha.
  - assert (is_answer y = true) as Hay by by destruct x, y.
    assert (∀ z, z ∈ all_under_way (p_out a) → is_answer z = true → z ∈ booked (p_out a)) as Hbk.
    { intros z [Hz|Hz]%elem_of_app Haz; [|by apply booked_not_begun].
      apply list_elem_of_fmap in Hz as (t & -> & Ht). by apply booked_opened. }
    eapply (NoDup_omap_inj _ _ x y (msg_id x) (ri_answers _ _ _ _ _ R2)).
    + apply on_elem. auto.
    + apply on_elem. auto.
    + by destruct x.
    + rewrite Hi. by destruct y.
  - assert (∃ ch id pl pl', x = MReq ch id pl ∧ y = MReq ch id pl') as (ch & id & pl & pl' & -> & ->).
    { destruct x as [ch id pl| |ch id|], y as [ch' id' pl'| | |]; try done; [|by destruct (Hnc ch id)].
      cbn in Hc, Hi. subst. by do 4 eexists. }
    cbn [msg_channel msg_id] in *. pose proof (ri_apart _ _ _ _ _ R1 id) as (Hap & _).
    assert (∀ pl, MReq ch id pl ∈ not_begun (p_out a) → id ∈ requests_in (on ch (booked (p_out a)))) as Hreq.
    { intros pl0 Hin. apply requests_in_elem. exists ch, pl0. apply on_elem. split; [done|by apply booked_not_begun]. }
    assert (∀ pl, MReq ch id pl ∈ map t_msg (opened (p_out a)) → id ∈ incoming_requests cb ∧ open_request (p_out a) ch id) as Hopn.
    { intros pl0 (t & Ht & Hin)%list_elem_of_fmap. assert (open_request (p_out a) ch id) by by exists t, pl0.
      split; [|done]. apply (ln_incoming _ _ _ _ _ _ _ L1). by right. }
    apply elem_of_app in Hx as [Hx|Hx], Hy as [Hy|Hy].
    + apply list_elem_of_fmap in Hx as (t & Ht & Hin), Hy as (t' & Ht' & Hin').
      pose proof (fo_channels _ _ (dx_flow_a _ _ Hdx)) as Hnd.
      assert (t = t') as ->; [|congruence]. eapply (NoDup_map_inj t_channel); [done|done|done|].
      unfold t_channel. by rewrite <- Ht, <- Ht'.
    + exfalso. apply Hap. split; [by eapply Hreq|by eapply Hopn].
    + exfalso. apply Hap. split; [by eapply Hreq|by eapply Hopn].
    + eapply (NoDup_omap_inj _ _ _ _ id (ri_requests _ _ _ _ _ R1)); [| |done|done];
        apply on_elem; (split; [done|by apply booked_not_begun]).
Qed.

Section opened.
Context (m : MaxFrameSize) (O F Q : list Transfer) (t : Transfer).

(** Which requests are open behind the frame. *)
Lemma open_request_step O' ch id : frame_step m O t O' → NoDup (map t_channel O) →
  open_request (mkFlow O' F Q) ch id ↔
    (open_request (mkFlow O (t :: F) Q) ch id ∧ (t_pos t ≠ 0 → ∀ pl, t_msg t ≠ MReq ch id pl)) ∨
    (is_Some (next_transfer m t) ∧ ∃ pl, t_msg t = MReq ch id pl).
Proof.
  intros Hs Hnd. assert (∀ x, x ∈ more m t ↔ next_transfer m t = Some x) as Hmore.
  { intros x. unfold more. destruct (next_transfer m t) as [y|]; [|by split; [intros ?%elem_of_nil|]].
    change (option_list (Some y)) with [y]. rewrite list_elem_of_singleton. naive_solver. }
  assert (∀ x, next_transfer m t = Some x → t_msg x = t_msg t) as Hmsg
    by (intros x Hx; by apply next_transfer_msg in Hx as [? _]).
  unfold open_request. cbn [opened]. inversion Hs as [? ? H0 Hmay|O1 ? O2 Hne]; subst.
  - split.
    + intros (x & pl & Hx & Heq). apply elem_of_app in Hx as [Hx|Hx]; [left; split; [by exists x, pl|done]|].
      apply Hmore in Hx. rewrite (Hmsg x Hx) in Heq. right. split; [by eexists|by eexists].
    + intros [[(x & pl & Hx & Heq) _]|[[x Hx] [pl Heq]]]; exists x, pl; rewrite elem_of_app; [by split; [left|]|].
      split; [right; by apply Hmore|by rewrite (Hmsg x Hx)].
  - rewrite map_app in Hnd. cbn [map] in Hnd. rewrite <- Permutation_middle in Hnd. apply NoDup_cons in Hnd as [Hnd _].
    rewrite <- map_app in Hnd. split.
    + intros (x & pl & Hx & Heq). rewrite app_assoc in Hx. apply elem_of_app in Hx as [Hx|Hx].
      * left. split; [exists x, pl; rewrite !elem_of_app in *; rewrite elem_of_cons; naive_solver|].
        intros _ pl' Heq'. apply Hnd. apply list_elem_of_fmap. exists x. split; [|done].
        unfold t_channel. by rewrite Heq, Heq'.
      * apply Hmore in Hx. rewrite (Hmsg x Hx) in Heq. right. split; [by eexists|by eexists].
    + intros [[(x & pl & Hx & Heq) Hno]|[[x Hx] [pl Heq]]].
      * exists x, pl. split; [|done]. rewrite !elem_of_app in *. rewrite elem_of_cons in Hx.
        destruct Hx as [Hx|[->|Hx]]; [by left|by destruct (Hno Hne pl)|by right; left].
      * exists x, pl. split; [rewrite !elem_of_app; right; right; by apply Hmore|by rewrite (Hmsg x Hx)].
Qed.
(** Who is open on the channel of the frame behind it: at most the rest of its message. *)
Lemma opened_step O' x : frame_step m O t O' → NoDup (map t_channel O) → is_Some (next_transfer m t) ∨ t_pos t ≠ 0 →
  piece_ok m t → x ∈ O' → t_channel x = t_channel t → next_transfer m t = Some x.
Proof.
  intros Hs Hnd Hl Ht Hx Hch. assert (x ∈ more m t → next_transfer m t = Some x) as Hmore.
  { unfold more. destruct (next_transfer m t) as [y|]; [|by intros ?%elem_of_nil]. by intros ->%list_elem_of_singleton. }
  inversion Hs as [? ? H0 Hmay|O1 ? O2 Hne]; subst.
  - apply elem_of_app in Hx as [Hx|Hx]; [|auto]. destruct Hl as [[t' Hn]|]; [|done].
    destruct (Hmay (t_msg x)) as [Hl _]; [by apply list_elem_of_fmap_2|done|]. destruct Hl. exists t'.
    unfold begin_transfer. rewrite <- H0. by destruct t.
  - rewrite app_assoc in Hx. apply elem_of_app in Hx as [Hx|Hx]; [|auto].
    rewrite map_app in Hnd. cbn [map] in Hnd. rewrite <- Permutation_middle in Hnd. apply NoDup_cons in Hnd as [Hnd _].
    destruct Hnd. rewrite <- map_app, <- Hch. by apply list_elem_of_fmap_2.
Qed.
Lemma opened_other O' x : frame_step m O t O' → t_channel x ≠ t_channel t → x ∈ O' ↔ x ∈ O.
Proof.
  intros Hs Hch. assert (x ∉ more m t) as Hmore.
  { intros Hx%more_msg. apply Hch. unfold t_channel. by rewrite Hx. }
  inversion Hs as [? ? H0 Hmay|O1 ? O2 Hne]; subst; rewrite !elem_of_app; [tauto|].
  rewrite elem_of_cons. naive_solver.
Qed.
(** A request is owed an answer once it is complete; until then it is open. *)
Lemma owed_step O' cb owed : frame_step m O t O' → NoDup (map t_channel O) → arrivable m t cb →
  (∀ id, id ∈ incoming_requests cb ↔ id ∈ owed (t_channel t) ∨ open_request (mkFlow O (t :: F) Q) (t_channel t) id) →
  (∀ id, id ∈ owed (t_channel t) → ¬ open_request (mkFlow O (t :: F) Q) (t_channel t) id) →
  (∀ id, id ∈ incoming_requests (arrival m t cb).2 ↔
     id ∈ owe (arrival m t cb).1 owed (t_channel t) ∨ open_request (mkFlow O' F Q) (t_channel t) id) ∧
  (∀ id, id ∈ owe (arrival m t cb).1 owed (t_channel t) → ¬ open_request (mkFlow O' F Q) (t_channel t) id).
Proof.
  intros Hs Hnd Harr H4 H5. destruct (arrival_fields m t cb) as (Hi & _ & _ & _).
  assert (∀ id, open_request (mkFlow O' F Q) (t_channel t) id ↔ _) as Hop by (intros id; by apply open_request_step).
  setoid_rewrite Hop. setoid_rewrite Hi. clear Hi Hop.
  assert ((∃ ch i pl, t_msg t = MReq ch i pl) ∨ ∀ ch i pl, t_msg t ≠ MReq ch i pl) as [(ch & i & pl & Hmsg)|Hno].
  { destruct (t_msg t); [left; by do 3 eexists|right; done..]. }
  - assert (t_channel t = ch) as Hch by (unfold t_channel; by rewrite Hmsg). rewrite Hch in *.
    assert (∀ id, (∃ pl', t_msg t = MReq ch id pl') ↔ id = i) as Heq by (intros id; rewrite Hmsg; naive_solver).
    assert (∀ id, (∀ pl', t_msg t ≠ MReq ch id pl') ↔ id ≠ i) as Hneq.
    { intros id. rewrite <- Heq. naive_solver. }
    setoid_rewrite Heq. setoid_rewrite Hneq.
    assert (∀ id, id ∈ owe (arrival m t cb).1 owed ch ↔ id ∈ owed ch ∨ (next_transfer m t = None ∧ id = i)) as Howe.
    { intros id. unfold arrival. destruct (next_transfer m t); cbn [fst owe]; [naive_solver|]. rewrite Hmsg. cbn [report owe].
      rewrite fn_lookup_insert, elem_of_union, elem_of_singleton. naive_solver. }
    setoid_rewrite Howe. assert (is_Some (next_transfer m t) ∨ next_transfer m t = None) as Hcases
      by (destruct (next_transfer m t); [left; by eexists|by right]).
    assert (is_Some (next_transfer m t) → next_transfer m t = None → False) as Hexcl by (intros [? ->]; done).
    unfold arrivable in Harr. destruct (Z.eqb_spec (t_pos t) 0) as [H0|H0].
    + destruct Harr as (Hacc & _). rewrite Hmsg in Hacc. destruct Hacc as [_ Hn]. rewrite Hmsg.
      cbn [start_effect received_request set_allowance set_incoming incoming_requests].
      pose proof (proj1 (not_iff_compat (H4 i)) Hn) as Hi. setoid_rewrite elem_of_union. setoid_rewrite elem_of_singleton.
      split; intros x; [rewrite H4|]; pose proof (H5 x);
        (destruct (decide (x = i)) as [Hx|Hx]; [subst x|]; tauto).
    + assert (open_request (mkFlow O (t :: F) Q) ch i) as Ht.
      { exists t, pl. split; [|done]. cbn [opened]. inversion Hs; subst; [done|]. rewrite elem_of_app. right. by left. }
      split; intros x; [rewrite H4|]; pose proof (H5 x);
        (destruct (decide (x = i)) as [Hx|Hx]; [subst x|]; tauto).
  - assert (owe (arrival m t cb).1 owed = owed) as ->.
    { unfold arrival. destruct (next_transfer m t); [done|]. cbn [fst]. destruct (t_msg t); try done; [naive_solver|].
      cbn [report]. by case_bool_decide. }
    assert (incoming_requests (if t_pos t =? 0 then start_effect (t_msg t) cb else cb) = incoming_requests cb) as ->.
    { destruct (_ =? _); [|done]. destruct (t_msg t); try done. naive_solver. }
    split; intros x; [rewrite H4|]; pose proof (H5 x); naive_solver.
Qed.
End opened.

Section arrives.
Context (a b : Party) (Hdx : duplex a b) (O F Q : list Transfer) (t : Transfer).
Context (Hout : p_out a = mkFlow O (t :: F) Q).
Let m := max_frame_size (p_proto a).

Lemma dx_mfs : MaxFrameSize_wf m.
Proof using Hdx. apply Hdx. Qed.
Lemma dx_mfs_b : max_frame_size (p_proto b) = m.
Proof using Hdx. apply Hdx. Qed.
Lemma dx_sent : ∀ o, o = t ∨ o ∈ O → ∃ ca cb, chan_at (p_proto a) (t_channel o) = Some ca ∧
  chan_at (p_proto b) (t_channel o) = Some cb ∧ config cb = config ca ∧ msg_ok (config cb) (t_msg o).
Proof using Hdx Hout.
  intros o Ho. pose proof (dx_msgs_a _ _ Hdx) as Hall. rewrite Forall_forall in Hall. unfold pieces in Hall. rewrite Hout in Hall.
  destruct (Hall o) as (ca & Hca & Hok).
  { rewrite !elem_of_app. destruct Ho as [->|Ho]; [right; left; by left|by left]. }
  destruct (same_config_chan _ _ _ ca (dx_same _ _ Hdx) Hca) as (cb & Hcb & Hcfg). exists ca, cb. by rewrite Hcfg.
Qed.

(** An answer that is on the way answers an outstanding request. *)
Lemma arrive_answer cb : chan_at (p_proto b) (t_channel t) = Some cb → is_answer (t_msg t) = true →
  t_msg t ∈ booked (p_out a) → msg_id (t_msg t) ∈ outgoing_requests cb.
Proof using Hdx Hout.
  intros Hcb Ha Hin. destruct (dx_sent t) as (ca & cb' & Hca & Hcb' & _ & Hch & _); [by left|].
  assert (cb' = cb) as -> by congruence. destruct (dx_lanes _ _ Hdx _ ca cb Hch Hca Hcb) as [_ H2].
  apply (ri_places _ _ _ _ _ (ln_requests _ _ _ _ _ _ _ H2)). right. right. apply answers_in_elem.
  exists (t_msg t). split; [|done]. by apply on_elem.
Qed.
Lemma arrive_fresh : t_pos t = 0 → t_msg t ∈ not_begun (p_out a).
Proof using Hout.
  intros H0. rewrite Hout. unfold not_begun. cbn [flying queued app]. rewrite fresh_cons, decide_True by done. by left.
Qed.

(** A message that begins is not one that is being received. *)
Lemma arrive_other O' ca cb o : frame_step m O t O' → t_pos t = 0 → chan_at (p_proto a) (t_channel t) = Some ca →
  chan_at (p_proto b) (t_channel t) = Some cb → Id_wf (t_id t) → ChannelId_wf (t_channel t) →
  o ∈ O → t_channel o = t_channel t → long m (t_msg o) → t_header o ≠ t_header t.
Proof using Hdx Hout.
  intros Hs H0 Hca Hcb Hid Hch Ho Heq Hlong Hhd. assert (t_msg t = t_msg o) as Hsame.
  { destruct (dx_sent o) as (_ & _ & _ & _ & _ & _ & Hoid & _); [by right|].
    eapply (under_way_unique a b (t_msg t) (t_msg o) ca cb Hdx); try done; rewrite ?Hout.
    - apply elem_of_app. right. rewrite <- Hout. by apply arrive_fresh.
    - apply elem_of_app. left. by apply list_elem_of_fmap_2.
    - intros ch id Hmsg. unfold t_header in Hhd. apply message_header_inj in Hhd as (_ & _ & Hk); [|done..].
      rewrite Hmsg in Hk. destruct (t_msg o) eqn:Hmo; try done. apply (long_payload m dx_mfs) in Hlong. by destruct Hlong. }
  inversion Hs as [? ? _ Hmay|? ? ? Hne]; subst; [|done].
  destruct (Hmay (t_msg o)) as [Hl _]; [by apply list_elem_of_fmap_2|done|]. by rewrite Hsame in Hl.
Qed.
(** The frame is accepted. *)
Lemma arrive_arrivable O' cb : frame_step m O t O' → chan_at (p_proto b) (t_channel t) = Some cb → arrivable m t cb.
Proof using Hdx Hout.
  intros Hs Hcb. destruct (dx_sent t) as (ca & cb' & Hca & Hcb' & _ & Hok); [by left|].
  assert (cb' = cb) as -> by congruence. pose proof Hok as (Hch & Hid & _).
  destruct (dx_lanes _ _ Hdx _ ca cb Hch Hca Hcb) as [H1 H2].
  pose proof (dx_flow_a _ _ Hdx) as Hf. pose proof (ln_open _ _ _ _ _ _ _ H1) as Hopen.
  pose proof (ln_ready _ _ _ _ _ _ _ H1) as Hready.
  pose proof (ln_requests _ _ _ _ _ _ _ H1) as R1. pose proof (ln_requests _ _ _ _ _ _ _ H2) as R2.
  rewrite Hout in Hf, Hopen, Hready, R1, R2. cbn [opened] in *. unfold arrivable.
  apply (forward_before m (t_channel t) O O' F Q t Hs eq_refl) in R1.
  apply (back_before m (t_channel t) O O' F Q t Hs eq_refl) in R2.
  destruct (Z.eqb_spec (t_pos t) 0) as [H0|H0].
  - unfold begins in R1. rewrite decide_True in R1 by done. cbn [app] in R1. split; [|split].
    + assert (is_answer (t_msg t) = true → msg_id (t_msg t) ∈ outgoing_requests cb) as Hans
        by (intros Ha; apply arrive_answer; [done..|]; apply elem_of_app; right; by apply arrive_fresh).
      destruct (t_msg t) as [ch id pl|ch id pl|ch id|ch id] eqn:Hmsg; cbn [acceptable].
      * eapply inv_request_acceptable; [exact R1|]. destruct (same_config_chan _ _ _ ca (dx_same _ _ Hdx) Hca) as (cb' & ? & Hcfg).
        assert (cb' = cb) as -> by congruence. rewrite Hcfg. apply cw_outgoing. by eapply channel_wf_lookup; [apply Hdx|].
      * by apply Hans.
      * by apply inv_received_cancel in R1 as [? _].
      * by apply Hans.
    + intros [t' Hn]. apply Hready. intros o Ho Heq. inversion Hs as [? ? _ Hmay|? ? ? Hne]; subst; [|done].
      destruct (Hmay (t_msg o)) as [Hl _]; [by apply list_elem_of_fmap_2|done|]. apply Hl. exists t'.
      unfold begin_transfer. rewrite <- H0. by destruct t.
    + destruct (decide (Exists (λ o, t_channel o = t_channel t) O)) as [Hex|Hno].
      2:{ rewrite Hready; [done|]. intros o Ho Heq. apply Hno, Exists_exists. by exists o. }
      apply Exists_exists in Hex as (o & Ho & Heq). rewrite (Hopen o Ho Heq). intros h [= <-].
      assert (long m (t_msg o)) as Hlong.
      { pose proof (fo_pieces _ _ Hf) as Hp. pose proof (fo_opened _ _ Hf) as Hst. rewrite Forall_forall in Hp, Hst.
        apply (Hp o); [rewrite !elem_of_app; by left|by apply Hst]. }
      split.
      * by eapply arrive_other.
      * intros ch id Hmsg. inversion Hs as [? ? _ Hmay|? ? ? Hne]; subst; [|done].
        destruct (Hmay (t_msg o)) as [_ Hc]; [by apply list_elem_of_fmap_2|done|]. rewrite Hmsg in Hc.
        destruct (dx_sent o) as (_ & _ & _ & _ & _ & _ & Hoid & _); [by right|]. by rewrite t_header_id.
  - pose proof (arrive_answer cb Hcb) as Hans. inversion Hs as [? ? H0' _|O1 ? O2 Hne]; subst; [done|].
    assert (t ∈ O1 ++ t :: O2) as Hin by (rewrite elem_of_app; right; by left). split; [by apply Hopen|].
    destruct (t_msg t) as [ch id pl|ch id pl|ch id|ch id] eqn:Hmsg; try done.
    apply Hans; [done|]. rewrite Hout.
    unfold booked. apply elem_of_app. left. cbn [opened]. apply list_elem_of_filter. split; [done|].
    rewrite <- Hmsg. by apply list_elem_of_fmap_2.
Qed.

Lemma chan_raw_inj ch ch' : ChannelId_wf ch → ChannelId_wf ch' → ch ≠ ch' → Z.to_nat (chan_raw ch) ≠ Z.to_nat (chan_raw ch').
Proof using Type. intros [H1 _] [H2 _] Hne Heq. apply Hne. destruct ch, ch'. cbn in *. f_equal. lia. Qed.

(** The direction of the frame, on its channel. *)
Lemma arrive_lane O' ca cb : frame_step m O t O' → piece_ok m t → flow_ok m (mkFlow O' F Q) →
  arrivable m t cb → Id_wf (t_id t) →
  lane (t_channel t) ca cb (p_out a) (on (t_channel t) (booked (p_out b))) (p_cancelled a (t_channel t)) (p_owed b (t_channel t)) →
  lane (t_channel t) ca (arrival m t cb).2 (mkFlow O' F Q) (on (t_channel t) (booked (p_out b))) (p_cancelled a (t_channel t))
    (owe (arrival m t cb).1 (p_owed b) (t_channel t)).
Proof using Hdx Hout.
  intros Hs Ht Hf' Harr Hid [H1 H2 H3 H4 H5]. pose proof (dx_flow_a _ _ Hdx) as Hf. fold m in Hf. rewrite Hout in *.
  pose proof (fo_channels _ _ Hf) as Hnd. cbn [opened] in *.
  destruct (owed_step m O F Q t O' cb (p_owed b) Hs Hnd Harr H4 H5) as [H4' H5'].
  assert (∀ x, next_transfer m t = Some x → t_msg x = t_msg t) as Hnm by (intros x Hx; by apply next_transfer_msg in Hx as [? _]).
  constructor; cbn [opened]; [by apply (forward_step m _ O)| | |done|done].
  - intros x Hx Hch. destruct (decide (is_Some (next_transfer m t) ∨ t_pos t ≠ 0)) as [Hl|Hno].
    + pose proof (opened_step m O t O' x Hs Hnd Hl Ht Hx Hch) as Hn. unfold arrival. by rewrite Hn.
    + destruct (next_transfer m t) as [t'|] eqn:Hn; [by destruct Hno; left; eexists|].
      assert (t_pos t = 0) as H0 by (destruct (decide (t_pos t = 0)); [done|by destruct Hno; right]).
      inversion Hs as [? ? _ _|? ? ? Hne]; subst; [|done]. unfold more in Hx. rewrite Hn in Hx.
      change (option_list (@None Transfer)) with (@nil Transfer) in Hx. rewrite app_nil_r in Hx.
      unfold arrival. rewrite Hn, H0. rewrite <- (H2 x Hx Hch). by destruct (t_msg t).
  - intros Hnone. unfold arrival. destruct (next_transfer m t) as [t'|] eqn:Hn.
    { destruct (Hnone t'); [|unfold t_channel; by rewrite (Hnm t')].
      assert (t' ∈ more m t) as Hin by (unfold more; rewrite Hn; by left).
      inversion Hs; subst; rewrite !elem_of_app; tauto. }
    cbn [snd]. destruct (Z.eqb_spec (t_pos t) 0) as [H0|H0]; [|by destruct (t_msg t)].
    assert (current_multiframe_receiver cb = Ready) as <-; [|by destruct (t_msg t)].
    apply H3. intros x Hx. apply Hnone. inversion Hs as [? ? _ _|? ? ? Hne]; subst; [|done]. apply elem_of_app. by left.
Qed.

(** A frame is taken by the other side, in one turn of its loop. *)
(** An arriving frame leaves the lanes of the other channels alone. *)
Lemma other_lane ch O' cx cy q' canc owed : frame_step m O t O' → ch ≠ t_channel t → NoDup (map t_channel O) →
  lane ch cx cy (mkFlow O (t :: F) Q) q' canc owed → lane ch cx cy (mkFlow O' F Q) q' canc owed.
Proof.
  intros Hs Hne Hnd [H1 H2 H3 H4 H5]. destruct (other_channel m ch O t O' F Q Hs (not_eq_sym Hne)) as [Hoth _].
  assert (∀ id, open_request (mkFlow O' F Q) ch id ↔ open_request (mkFlow O (t :: F) Q) ch id) as Hop.
  { intros id. rewrite (open_request_step m O F Q t O' ch id Hs Hnd).
    assert (∀ pl, t_msg t ≠ MReq ch id pl) by (intros pl Heq; apply Hne; unfold t_channel; by rewrite Heq). naive_solver. }
  cbn [opened] in *. constructor; try (intros id; rewrite Hop; auto); cbn [opened]; [by apply Hoth| |].
  - intros x Hin Hxch. apply H2; [|done]. rewrite <- (opened_other m O t O' x Hs); [done|congruence].
  - intros Hnone. apply H3. intros x Hin Hxch. apply (Hnone x); [|done].
    rewrite (opened_other m O t O' x Hs); [done|congruence].
Qed.
Lemma other_lane_back ch O' cx cy f canc owed : frame_step m O t O' → ch ≠ t_channel t →
  lane ch cx cy f (on ch (booked (mkFlow O (t :: F) Q))) canc owed → lane ch cx cy f (on ch (booked (mkFlow O' F Q))) canc owed.
Proof.
  intros Hs Hne [G1 G2 G3 G4 G5]. destruct (other_channel m ch O t O' F Q Hs (not_eq_sym Hne)) as [_ Hans].
  constructor; try done. eapply requests_inv_queues; [done|done|exact Hans|done].
Qed.
Lemma duplex_arrive rest : Forall u8 rest →
  ∃ cb O', chan_at (p_proto b) (t_channel t) = Some cb ∧ frame_step m O t O' ∧ piece_ok m t ∧ msg_ok (config cb) (t_msg t) ∧
    Forall u8 (piece m t ++ rest) ∧
    process_turn (p_proto b) (piece m t ++ rest)
      = Done (Success <$> (arrival m t cb).1, (p_proto (party_receive b t cb), rest)) ∧
    duplex (party_out a (mkFlow O' F Q)) (party_receive b t cb).
Proof using Hdx Hout.
  intros Hrest. destruct (dx_sent t) as (ca & cb & Hca & Hcb & Hcfg & Hok); [by left|].
  destruct (flow_arrive m dx_mfs (p_out a) t F) as (O' & Hs & Hf' & Ht); [apply Hdx|by rewrite Hout|].
  rewrite Hout in Hs, Hf'. cbn [opened queued] in Hs, Hf'. pose proof dx_mfs_b as Hmb.
  pose proof (arrive_arrivable O' cb Hs Hcb) as Harr. pose proof (dx_b _ _ Hdx) as Hb.
  pose proof (turn_piece (p_proto b) Hb rest Hrest t (proj1 Ht) cb Hcb Hok) as Hturn.
  destruct (piece_buffer (p_proto b) Hb rest Hrest t (proj1 Ht) cb Hcb Hok) as [Hbuf _].
  rewrite Hmb in Hturn, Hbuf. specialize (Hturn Harr).
  assert (p_proto (party_receive b t cb) = put_channel (p_proto b) (t_channel t) (arrival m t cb).2) as Hpb.
  { unfold party_receive. rewrite Hmb. by destruct (arrival m t cb). }
  assert (p_out (party_receive b t cb) = p_out b) as Hob by (unfold party_receive; by destruct (arrival (max_frame_size (p_proto b)) t cb)).
  assert (p_cancelled (party_receive b t cb) = p_cancelled b) as Hcanb by (unfold party_receive; by destruct (arrival (max_frame_size (p_proto b)) t cb)).
  assert (p_owed (party_receive b t cb) = owe (arrival m t cb).1 (p_owed b)) as Howb.
  { unfold party_receive. rewrite Hmb. by destruct (arrival m t cb). }
  destruct (turn_progress _ _ _ _ _ Hb Hbuf Hturn) as (Hwf' & Hcc & _). rewrite <- Hpb in Hturn, Hwf', Hcc.
  exists cb, O'. split_and!; try done. destruct Hdx as [Ha _ Hsame Hfa Hfb Hma Hmsb Hl].
  assert (max_frame_size (p_proto (party_receive b t cb)) = m) as Hmfs by (destruct Hcc as [-> _]; done).
  constructor; cbn [party_out p_proto p_out p_cancelled p_owed]; rewrite ?Hmfs, ?Hob; try done.
  - by eapply same_config_trans.
  - by rewrite <- Hmb.
  - rewrite Hout in Hma. unfold pieces in *. cbn [opened flying queued] in *. rewrite !Forall_app, Forall_cons in Hma.
    rewrite !Forall_app. destruct Hma as (HO & [Htm HF] & HQ). split; [|done].
    assert (Forall (λ t', sent_ok (p_proto a) (t_msg t')) (more m t)) as Hmore.
    { apply Forall_forall. intros t' Ht'. by rewrite (more_msg _ _ _ Ht'). }
    inversion Hs; subst; rewrite !Forall_app in *; [done|]. rewrite Forall_cons in HO. tauto.
  - by eapply sent_ok_pieces.
  - intros ch cx cy Hch Hx Hy. rewrite Hpb in Hy. rewrite Hcanb, Howb. pose proof Hok as (Htch & Htid & _).
    pose proof (fo_channels _ _ Hfa) as Hnd. destruct (decide (ch = t_channel t)) as [->|Hne].
    + rewrite (chan_at_put _ _ cb) in Hy by done. injection Hy as <-. destruct (Hl _ cx cb Hch Hx Hcb) as [H1 H2].
      split; [by apply arrive_lane|]. rewrite Hout in H2. destruct H2 as [G1 G2 G3 G4 G5].
      constructor; try done. by apply (back_step m _ O).
    + rewrite chan_at_put_ne in Hy by done. destruct (Hl ch cx cy Hch Hx Hy) as [Hab Hba]. rewrite Hout in *.
      assert (owe (arrival m t cb).1 (p_owed b) ch = p_owed b ch) as Howe.
      { unfold arrival. destruct (next_transfer m t); [done|]. cbn [fst].
        unfold t_channel in Hne. destruct (t_msg t); try done; cbn [report owe msg_channel] in *;
          [by rewrite fn_lookup_insert_ne by congruence|by case_bool_decide]. }
      rewrite Howe. split; [by apply other_lane|by apply other_lane_back].
Qed.
End arrives.
