(* ===== verification/Stream.v ===== *)
(** * The abstract transport, and reading a stream of frames

    What the two sides of a connection promise each other, as a transition system over the
    messages under way; and that [process_incoming], given any part of the stream of the other
    side's frames, takes steps of it. *)
From S2P Require Import Prelude Lib Varint Header FrameSize OutgoingMessage WireFormat Multiframe.
From S2P Require Import MultiframeSpec Protocol ProtocolInv ProcessIncoming ProtocolOps Delivery Peers Transfer Flow Duplex.
From stdpp Require Import options.

(** ** The specification: one direction

    The messages under way, in the order they were sent.  Every message is delivered, unchanged
    and once; a message may overtake only messages of several frames.  The one message that
    need not be reported is the cancellation of a request, when it comes too late. *)
Inductive Event := Sent (msg : Msg) | Reported (read : CompletedRead).

Definition read_of (msg : Msg) : CompletedRead :=
  match msg with
  | MReq ch id pl => NewRequest ch id pl
  | MResp ch id pl => ReceivedResponse ch id pl
  | MCancelReq ch id => RequestCancellation ch id
  | MCancelResp ch id => ResponseCancellation ch id
  end.

Inductive transport (m : MaxFrameSize) : list Msg → list Event → list Msg → Prop :=
  | transport_done l : transport m l [] l
  | transport_send l msg tr l' : transport m (l ++ [msg]) tr l' → transport m l (Sent msg :: tr) l'
  | transport_report l1 msg l2 tr l' : Forall (long m) l1 → transport m (l1 ++ l2) tr l' →
      transport m (l1 ++ msg :: l2) (Reported (read_of msg) :: tr) l'
  | transport_late l1 ch id l2 tr l' : Forall (long m) l1 → transport m (l1 ++ l2) tr l' →
      transport m (l1 ++ MCancelReq ch id :: l2) tr l'.

Lemma transport_app m l tr l1 tr' l2 : transport m l tr l1 → transport m l1 tr' l2 → transport m l (tr ++ tr') l2.
Proof. induction 1; intros; cbn [app]; eauto using transport. Qed.

(** Nothing is lost, invented or repeated. *)
Definition sent_of (tr : list Event) : list Msg := omap (λ e, match e with Sent msg => Some msg | _ => None end) tr.
Definition reported_of (tr : list Event) : list CompletedRead :=
  omap (λ e, match e with Reported read => Some read | _ => None end) tr.
Lemma transport_conserves m l tr l' : transport m l tr l' →
  ∃ late, Forall (λ msg, ∃ ch id, msg = MCancelReq ch id) late ∧
    map read_of (l ++ sent_of tr) ≡ₚ reported_of tr ++ map read_of (late ++ l').
Proof.
  induction 1 as [l|l msg tr l' _ (late & Hl & IH)|l1 msg l2 tr l' _ _ (late & Hl & IH)|l1 ch id l2 tr l' _ _ (late & Hl & IH)].
  - exists []. split; [constructor|]. by rewrite app_nil_r.
  - exists late. split; [done|]. change (sent_of (Sent msg :: tr)) with ([msg] ++ sent_of tr).
    change (reported_of (Sent msg :: tr)) with (reported_of tr). by rewrite <- IH, <- app_assoc.
  - exists late. split; [done|]. change (sent_of (Reported (read_of msg) :: tr)) with (sent_of tr).
    change (reported_of (Reported (read_of msg) :: tr)) with (read_of msg :: reported_of tr). cbn [app]. rewrite <- IH.
    by rewrite <- !app_assoc, <- app_comm_cons, <- Permutation_middle.
  - exists (MCancelReq ch id :: late). split; [constructor; [by do 2 eexists|done]|]. cbn [app map].
    rewrite <- (Permutation_middle (reported_of tr)), <- IH. by rewrite <- !app_assoc, <- app_comm_cons, <- Permutation_middle.
Qed.

(** ** The messages of a flow *)

(** [l] lists the messages sent and not received completely, as they were sent. *)
Definition under_way (f : Flow) (l : list Msg) : Prop :=
  ∃ l1, l = l1 ++ not_begun f ∧ l1 ≡ₚ map t_msg (opened f).

Section flow.
Context (m : MaxFrameSize) (Hm : MaxFrameSize_wf m).

Lemma opened_long f : flow_ok m f → Forall (long m) (map t_msg (opened f)).
Proof using Type.
  intros Hf. apply Forall_map, Forall_forall. intros t Ht. pose proof (fo_pieces _ _ Hf) as Hp.
  pose proof (fo_opened _ _ Hf) as Ho. rewrite Forall_forall in Hp, Ho.
  destruct (Hp t) as [_ H]; [rewrite !elem_of_app; by left|]. by apply H, Ho.
Qed.

Lemma under_way_send f msg l : under_way f l → under_way (flow_send f msg) (l ++ [msg]).
Proof using Type.
  intros (l1 & -> & Hl). exists l1. split; [|done]. unfold not_begun. cbn [flow_send flying queued].
  rewrite (app_assoc (flying f)), (fresh_app (flying f ++ queued f)), fresh_cons. change (fresh []) with (@nil Msg).
  cbn [begin_transfer t_pos t_msg]. rewrite decide_True by done. by rewrite <- app_assoc.
Qed.
Lemma under_way_ready f t Q l : flow_ok m f → queued f = t :: Q → under_way f l → under_way (flow_ready m f t Q) l.
Proof using Hm. intros Hf HQ (l1 & -> & Hl). exists l1. by rewrite (flow_ready_booked m Hm). Qed.

(** What a frame does to them. *)
Definition frame_events (read : option CompletedRead) : list Event :=
  match read with Some read => [Reported read] | None => [] end.
Lemma under_way_arrive O t O' F Q c l : flow_ok m (mkFlow O (t :: F) Q) → frame_step m O t O' →
  under_way (mkFlow O (t :: F) Q) l →
  ∃ l', transport m l (frame_events (arrival m t c).1) l' ∧ under_way (mkFlow O' F Q) l'.
Proof using Type.
  intros Hf Hs (l1 & -> & Hl). pose proof (opened_long _ Hf) as Hlong. cbn [opened] in *. rewrite <- Hl in Hlong.
  unfold not_begun. cbn [flying queued app]. rewrite fresh_cons. unfold arrival.
  assert (∀ la lb, Forall (long m) la → next_transfer m t = None → transport m (la ++ t_msg t :: lb)
    (frame_events (report (t_msg t) c)) (la ++ lb)) as Hdeliver.
  { intros la lb Hla _. assert (report (t_msg t) c = Some (read_of (t_msg t)) ∨
      report (t_msg t) c = None ∧ ∃ ch id, t_msg t = MCancelReq ch id) as [->|(-> & ch & id & ->)].
    { destruct (t_msg t); cbn [report read_of]; try by left. case_bool_decide; [by left|right; split; [done|by do 2 eexists]]. }
    - apply transport_report; [done|constructor].
    - apply transport_late; [done|constructor]. }
  inversion Hs as [? ? H0 _|O1 ? O2 H0]; subst.
  - rewrite decide_True by done. destruct (next_transfer m t) as [t'|] eqn:Hn; cbn [fst frame_events].
    + eexists. split; [constructor|]. exists (l1 ++ [t_msg t]). unfold not_begun. cbn [flying queued opened].
      split; [by rewrite <- app_assoc|]. rewrite map_app, more_msgs, Hn. by rewrite Hl.
    + eexists. split; [by apply Hdeliver|]. exists l1. unfold more. rewrite Hn.
      change (option_list (@None Transfer)) with (@nil Transfer). by rewrite app_nil_r.
  - rewrite decide_False by done. cbn [app]. rewrite map_app in Hl. cbn [map] in Hl.
    destruct (next_transfer m t) as [t'|] eqn:Hn; cbn [fst frame_events].
    + eexists. split; [constructor|]. exists l1. split; [done|]. cbn [opened]. rewrite !map_app, more_msgs, Hn, Hl.
      rewrite <- Permutation_middle, (app_assoc (map t_msg O1)), (Permutation_app_comm _ [t_msg t]). done.
    + assert (t_msg t ∈ l1) as Hin by (rewrite Hl, elem_of_app; right; by left).
      apply list_elem_of_split in Hin as (la & lb & ->). rewrite <- app_assoc, <- app_comm_cons.
      eexists. split; [apply Hdeliver; [|done]|].
      * by apply Forall_app in Hlong as [? _].
      * exists (la ++ lb). split; [by rewrite <- app_assoc|]. cbn [opened]. rewrite !map_app, more_msgs, Hn, app_nil_r.
        rewrite <- !Permutation_middle in Hl. by apply Permutation_cons_inv in Hl.
Qed.
End flow.

(** ** Reading a part of the stream *)

(** Part of a frame is not enough, and no more than the rest of it is asked for. *)
Lemma turn_partial p buf extra r p' : protocol_wf p → Forall u8 (buf ++ extra) → extra ≠ [] →
  process_turn p (buf ++ extra) = Done (Success <$> r, (p', [])) →
  ∃ n, process_incoming p buf = Done (Incomplete n, (p, buf)) ∧ n ≤ len extra.
Proof.
  intros Hp [Hb He]%Forall_app Hne Hturn. destruct (process_turn_ok p buf Hp Hb) as (r' & s & b & Ht & _ & Hr).
  rewrite process_incoming_unfold, Ht, bind_Done by done.
  assert (∀ r'', process_turn p (buf ++ extra) = Done (r'', (s, b ++ extra)) → False) as Hno.
  { intros r'' Heq. rewrite Heq in Hturn. injection Hturn as _ _ Hnil. by apply app_eq_nil in Hnil as [_ ?]. }
  destruct r' as [[n|e|read]|].
  - destruct Hr as (-> & -> & _ & Hex). exists n. split; [done|]. destruct (decide (n ≤ len extra)) as [|Hlt]; [done|].
    destruct (Hno _ (Hex extra He ltac:(lia))).
  - destruct Hr as (_ & _ & Hex). by destruct (Hno _ (Hex extra He)).
  - destruct Hr as (_ & Hex). by destruct (Hno _ (Hex extra He)).
  - destruct Hr as (_ & Hex). by destruct (Hno _ (Hex extra He)).
Qed.

(** The event read, if any. *)
Definition read_in (o : Outcome CompletedRead OutgoingMessage) : option CompletedRead :=
  match o with Success read => Some read | _ => None end.

(** What the reader waits for: the whole of the next frame, or else the header of one. *)
Definition awaited (m : MaxFrameSize) (f : Flow) : Z :=
  match flying f with t :: _ => len (piece m t) | [] => Header_SIZE end.

(** Both sides behind a call of [process_incoming]. *)
Record read_result (a b : Party) (F Q : list Transfer) (l : list Msg) (later : bytes)
    (o : Outcome CompletedRead OutgoingMessage) (p' : JulietProtocol) (rest : bytes) (f' : Flow) (l' : list Msg) : Prop := {
  rr_duplex : duplex (party_out a f') (mkParty p' (p_out b) (p_cancelled b) (owe (read_in o) (p_owed b)));
  rr_queued : queued f' = Q;
  rr_flying : ∃ F1, F = F1 ++ flying f';
  rr_rest : rest ++ later = concat (map (piece (max_frame_size (p_proto a))) (flying f'));
  rr_transport : transport (max_frame_size (p_proto a)) l (frame_events (read_in o)) l';
  rr_under_way : under_way f' l';
  rr_fine : match o with Fatal _ => False | Success _ => ∃ t F1, F = t :: F1 ++ flying f'
            | Incomplete n => len rest + n ≤ awaited (max_frame_size (p_proto a)) f' end;
}.

Lemma process_incoming_stream F : ∀ a b O Q l buf later, duplex a b → p_out a = mkFlow O F Q →
  Forall u8 buf → buf ++ later = concat (map (piece (max_frame_size (p_proto a))) F) → under_way (p_out a) l →
  ∃ o p' rest f' l', process_incoming (p_proto b) buf = Done (o, (p', rest)) ∧
    read_result a b F Q l later o p' rest f' l'.
Proof.
  induction F as [|t F IH]; intros a b O Q l buf later Hdx Hout Hbuf Hstream Hl.
  - cbn [map concat] in Hstream. apply app_eq_nil in Hstream as [-> ->].
    exists (Incomplete Header_SIZE), (p_proto b), [], (p_out a), l.
    rewrite process_incoming_unfold, process_turn_short by (try apply Hdx; done). split; [done|]. rewrite Hout in *.
    constructor; cbn [queued flying]; try done; [|by exists []|constructor].
    replace (party_out a (mkFlow O [] Q)) with a by (unfold party_out; rewrite <- Hout; by destruct a). by destruct b.
  - set (m := max_frame_size (p_proto a)) in *. cbn [map concat] in Hstream.
    destruct (decide (len (piece m t) ≤ len buf)) as [Hlen|Hlen].
    + assert (∃ buf', buf = piece m t ++ buf') as [buf' ->].
      { exists (drop (length (piece m t)) buf). unfold len in Hlen.
        apply (f_equal (take (length (piece m t)))) in Hstream as Htk. rewrite take_app_le, take_app_length in Htk by lia.
        by rewrite <- Htk at 1; rewrite take_drop. }
      apply Forall_app in Hbuf as [_ Hbuf']. rewrite <- app_assoc in Hstream. apply app_inv_head in Hstream.
      destruct (duplex_arrive a b Hdx O F Q t Hout buf' Hbuf') as (cb & O' & Hcb & Hs & Ht & Hok & Hbf & Hturn & Hdx').
      fold m in Hs, Ht, Hbf, Hturn. rewrite Hout in Hl.
      destruct (under_way_arrive m O t O' F Q cb l) as (l1 & Htr & Hl1); [by rewrite <- Hout; apply Hdx|done|done|].
      assert (party_receive b t cb = mkParty (p_proto (party_receive b t cb)) (p_out b) (p_cancelled b)
                (owe (arrival m t cb).1 (p_owed b))) as Hrecv.
      { assert (max_frame_size (p_proto b) = m) as Hm by apply Hdx. unfold party_receive. rewrite Hm. by destruct (arrival m t cb). }
      rewrite process_incoming_unfold, Hturn, bind_Done by (done || apply Hdx).
      destruct (arrival m t cb).1 as [read|]; cbn [fmap option_fmap option_map frame_events] in *.
      * exists (Success read), (p_proto (party_receive b t cb)), buf', (mkFlow O' F Q), l1. split; [done|].
        constructor; try done; [cbn [read_in]; by rewrite <- Hrecv|by exists [t]|by exists t, []].
      * destruct (IH (party_out a (mkFlow O' F Q)) (party_receive b t cb) O' Q l1 buf' later)
          as (o & p' & rest & f' & l' & Hp & [R1 R2 [F1 R3] R4 R5 R6 R7]); [done..|].
        exists o, p', rest, f', l'. split; [done|]. constructor; try done.
        -- by rewrite Hrecv in R1.
        -- exists (t :: F1). by rewrite R3.
        -- exact (transport_app _ _ [] _ _ _ Htr R5).
        -- destruct o; [done|done|]. destruct R7 as (t' & F2 & ->). by exists t, (t' :: F2).
    + assert (∃ extra, piece m t = buf ++ extra ∧ extra ≠ []) as (extra & Hpiece & Hne).
      { exists (drop (length buf) (piece m t)). unfold len in Hlen.
        apply (f_equal (take (length buf))) in Hstream as Htk. rewrite take_app_length, take_app_le in Htk by lia.
        split; [by rewrite Htk at 1; rewrite take_drop|]. intros Hnil%(f_equal length). rewrite length_drop in Hnil.
        change (length (@nil Z)) with 0%nat in Hnil. lia. }
      destruct (duplex_arrive a b Hdx O F Q t Hout [] ltac:(constructor)) as (cb & O' & Hcb & Hs & Ht & Hok & Hbf & Hturn & _).
      fold m in Hbf, Hturn. rewrite app_nil_r, Hpiece in Hbf, Hturn.
      destruct (turn_partial (p_proto b) buf extra _ _ (dx_b _ _ Hdx) Hbf Hne Hturn) as (n & Hn & Hle).
      exists (Incomplete n), (p_proto b), buf, (p_out a), l. split; [done|]. rewrite Hout in *.
      constructor; cbn [queued flying]; try done; [|by exists []|constructor|].
      2: { unfold awaited. cbn [flying]. fold m. rewrite Hpiece, len_app. lia. }
      replace (party_out a (mkFlow O (t :: F) Q)) with a by (unfold party_out; rewrite <- Hout; by destruct a). by destruct b.
Qed.
