(* ===== verification/Io.v ===== *)
(** * The IO layer (src/src/io.rs)

    The core's state and every operation on it.  What the core gets from the crates below it is
    an argument: results of reading and writing, of the clock and of the incoming queue are the
    inputs of [next_event]; the bidirectional map, the queue's sender and the semaphores are
    classes with the operations used. *)
From stdpp Require Import strings.
From S2P Require Import Prelude Lib Varint Header FrameSize OutgoingMessage Multiframe Protocol.
From stdpp Require Import options.

Definition MAX_ALLOC : Z := 32 * 1024.

(** [std::time::Duration], in nanoseconds. *)
Definition Duration_from_secs (secs : Z) : Z := secs * 1000000000.

Record IoId := mkIoId { ioid_raw : Z }.
#[export] Instance IoId_eq_dec : EqDecision IoId.
Proof. solve_decision. Defined.
#[export, program] Instance IoId_countable : Countable IoId := inj_countable' ioid_raw mkIoId _.
Next Obligation. by intros []. Qed.

(** ** Interfaces of the crates used *)

(** [bimap::BiMap] *)
Class BiMap (L R M : Type) := {
  bm_new : M;
  bm_insert : M → L → R → M;
  bm_get_by_left : M → L → option R;
  bm_remove_by_right : M → R → option (L * R) * M;
  bm_clear : M → M;
}.
(** Its documentation: a one-to-one relation; inserting removes the pairs in the way. *)
Class BiMapLaws (L R M : Type) `{BiMap L R M} := {
  bm_wf : M → Prop;
  bm_rel : M → L → R → Prop;
  bm_rel_left m l r r' : bm_wf m → bm_rel m l r → bm_rel m l r' → r = r';
  bm_rel_right m l l' r : bm_wf m → bm_rel m l r → bm_rel m l' r → l = l';
  bm_new_wf : bm_wf bm_new;
  bm_new_spec l r : ¬ bm_rel bm_new l r;
  bm_insert_wf m l r : bm_wf m → bm_wf (bm_insert m l r);
  bm_insert_spec m l r l' r' : bm_wf m →
    bm_rel (bm_insert m l r) l' r' ↔ (l' = l ∧ r' = r) ∨ (l' ≠ l ∧ r' ≠ r ∧ bm_rel m l' r');
  bm_get_by_left_spec m l r : bm_wf m → bm_get_by_left m l = Some r ↔ bm_rel m l r;
  bm_remove_wf m r : bm_wf m → bm_wf (bm_remove_by_right m r).2;
  bm_remove_spec m r l' r' : bm_wf m →
    bm_rel (bm_remove_by_right m r).2 l' r' ↔ r' ≠ r ∧ bm_rel m l' r';
  bm_remove_Some m r l r' : bm_wf m →
    (bm_remove_by_right m r).1 = Some (l, r') ↔ r' = r ∧ bm_rel m l r;
  bm_clear_wf m : bm_wf m → bm_wf (bm_clear m);
  bm_clear_spec m l r : ¬ bm_rel (bm_clear m) l r;
}.

(** [tokio::sync::Semaphore] behind its [Arc] *)
Inductive TryAcquireError := Closed | NoPermits.
Class Semaphore (S Permit : Type) := {
  sem_new : Z → S;
  try_acquire_owned : S → result Permit TryAcquireError * S;
  (* [None]: no permit yet *)
  acquire_owned : S → option (result Permit ()) * S;
}.

(** [tokio::sync::mpsc::UnboundedSender]: [send] gives the item back when the receiver is closed *)
Class Sender (Snd Item : Type) := { send : Snd → Item → result () Item * Snd }.
(** What its documentation asks: items arrive in order, and a closed queue gives them back. *)
Class SenderLaws (Snd Item : Type) `{Sender Snd Item} := {
  queued : Snd → list Item;
  closed : Snd → bool;
  send_open s i : closed s = false →
    (send s i).1 = Ok () ∧ queued (send s i).2 = queued s ++ [i] ∧ closed (send s i).2 = false;
  send_closed s i : closed s = true → send s i = (Err i, s);
}.

(** ** Data *)

Inductive QueuedItem (Permit : Type) :=
  | QRequest (channel : ChannelId) (io_id : IoId) (payload : option bytes) (permit : Permit)
  | QRequestCancellation (io_id : IoId)
  | QResponse (channel : ChannelId) (id : Id) (payload : option bytes)
  | QResponseCancellation (channel : ChannelId) (id : Id)
  | QError (channel : ChannelId) (id : Id) (payload : bytes).
Arguments QRequest {Permit}.
Arguments QRequestCancellation {Permit}.
Arguments QResponse {Permit}.
Arguments QResponseCancellation {Permit}.
Arguments QError {Permit}.

Definition into_payload {Permit} (self : QueuedItem Permit) : option bytes :=
  match self with
  | QRequest _ _ payload _ => payload
  | QResponse _ _ payload => payload
  | QRequestCancellation _ => None
  | QResponseCancellation _ _ => None
  | QError _ _ payload => Some payload
  end.

Inductive CoreError (IoError : Type) :=
  | ReadFailed (e : IoError)
  | WriteFailed (e : IoError)
  | ErrorWriteTimeout
  | RemoteReportedError (header : Header) (data : option bytes)
  | RemoteProtocolViolation (header : Header) (data : option bytes)
  | LocalProtocolViolationError (e : LocalProtocolViolation)
  | InternalError (what : string).
Arguments ReadFailed {IoError}.
Arguments WriteFailed {IoError}.
Arguments ErrorWriteTimeout {IoError}.
Arguments RemoteReportedError {IoError}.
Arguments RemoteProtocolViolation {IoError}.
Arguments LocalProtocolViolationError {IoError}.
Arguments InternalError {IoError}.

Inductive IoEvent :=
  | EvNewRequest (channel : ChannelId) (id : Id) (payload : option bytes)
  | EvRequestCancelled (channel : ChannelId) (id : Id)
  | EvReceivedResponse (io_id : IoId) (payload : option bytes)
  | EvReceivedCancellationResponse (io_id : IoId).

(** The core.  The reader and the writer are the inputs of [next_event]; of the receiver only
    whether it was closed is state, and [dropped_permits] records the permits given back, with the
    channels of their requests. *)
Record IoCore (Permit BM : Type) := mkIoCore {
  juliet : JulietProtocol;
  buffer : bytes;
  next_parse_at : Z;
  pending_error : option OutgoingFrame;
  error_timeout : Z;
  current_frame : option (OutgoingFrame * bool);
  active_multi_frame : list (option Header);
  ready_queue : list FrameIter;
  wait_queue : list (list (QueuedItem Permit));
  receiver_closed : bool;
  request_map : BM;
  dropped_permits : list (ChannelId * Permit);
}.
Arguments mkIoCore {Permit BM}.
Arguments juliet {Permit BM}.
Arguments buffer {Permit BM}.
Arguments next_parse_at {Permit BM}.
Arguments pending_error {Permit BM}.
Arguments error_timeout {Permit BM}.
Arguments current_frame {Permit BM}.
Arguments active_multi_frame {Permit BM}.
Arguments ready_queue {Permit BM}.
Arguments wait_queue {Permit BM}.
Arguments receiver_closed {Permit BM}.
Arguments request_map {Permit BM}.
Arguments dropped_permits {Permit BM}.

Section setters.
Context {Permit BM : Type}.
Implicit Types self : IoCore Permit BM.
Definition set_juliet self x := mkIoCore x (buffer self) (next_parse_at self) (pending_error self)
  (error_timeout self) (current_frame self) (active_multi_frame self) (ready_queue self)
  (wait_queue self) (receiver_closed self) (request_map self) (dropped_permits self).
Definition set_buffer self x := mkIoCore (juliet self) x (next_parse_at self) (pending_error self)
  (error_timeout self) (current_frame self) (active_multi_frame self) (ready_queue self)
  (wait_queue self) (receiver_closed self) (request_map self) (dropped_permits self).
Definition set_next_parse_at self x := mkIoCore (juliet self) (buffer self) x (pending_error self)
  (error_timeout self) (current_frame self) (active_multi_frame self) (ready_queue self)
  (wait_queue self) (receiver_closed self) (request_map self) (dropped_permits self).
Definition set_pending_error self x := mkIoCore (juliet self) (buffer self) (next_parse_at self) x
  (error_timeout self) (current_frame self) (active_multi_frame self) (ready_queue self)
  (wait_queue self) (receiver_closed self) (request_map self) (dropped_permits self).
Definition set_current_frame self x := mkIoCore (juliet self) (buffer self) (next_parse_at self)
  (pending_error self) (error_timeout self) x (active_multi_frame self) (ready_queue self)
  (wait_queue self) (receiver_closed self) (request_map self) (dropped_permits self).
Definition set_active_multi_frame self x := mkIoCore (juliet self) (buffer self) (next_parse_at self)
  (pending_error self) (error_timeout self) (current_frame self) x (ready_queue self)
  (wait_queue self) (receiver_closed self) (request_map self) (dropped_permits self).
Definition set_ready_queue self x := mkIoCore (juliet self) (buffer self) (next_parse_at self)
  (pending_error self) (error_timeout self) (current_frame self) (active_multi_frame self) x
  (wait_queue self) (receiver_closed self) (request_map self) (dropped_permits self).
Definition set_wait_queue self x := mkIoCore (juliet self) (buffer self) (next_parse_at self)
  (pending_error self) (error_timeout self) (current_frame self) (active_multi_frame self)
  (ready_queue self) x (receiver_closed self) (request_map self) (dropped_permits self).
Definition close_receiver self := mkIoCore (juliet self) (buffer self) (next_parse_at self)
  (pending_error self) (error_timeout self) (current_frame self) (active_multi_frame self)
  (ready_queue self) (wait_queue self) true (request_map self) (dropped_permits self).
Definition set_request_map self (x : BM) := mkIoCore (juliet self) (buffer self) (next_parse_at self)
  (pending_error self) (error_timeout self) (current_frame self) (active_multi_frame self)
  (ready_queue self) (wait_queue self) (receiver_closed self) x (dropped_permits self).
Definition drop_permits self x := mkIoCore (juliet self) (buffer self) (next_parse_at self)
  (pending_error self) (error_timeout self) (current_frame self) (active_multi_frame self)
  (ready_queue self) (wait_queue self) (receiver_closed self) (request_map self)
  (dropped_permits self ++ x).
End setters.

(** The permit an item owns: it is given back when the item is dropped. *)
Definition item_permits {Permit} (item : QueuedItem Permit) : list (ChannelId * Permit) :=
  match item with QRequest channel _ _ permit => [(channel, permit)] | _ => [] end.

(** ** Deciding what may be sent *)

Definition item_should_wait {Permit} (item : QueuedItem Permit) (juliet : JulietProtocol)
    (active_multi_frame : list (option Header))
    : exec (result (option ChannelId) LocalProtocolViolation) :=
  let check_multi_frame (payload : option bytes) (channel : ChannelId) :=
    active ← array_get active_multi_frame (ChannelId_get channel);
    match active, payload with
    | Some _, Some payload =>
        multi ← payload_is_multi_frame (max_frame_size juliet) (len payload);
        mret (Ok (if (multi : bool) then Some channel else None))
    | _, _ => mret (Ok None)
    end in
  match item with
  | QRequest channel _ payload _ =>
      allowed ← allowed_to_send_request juliet channel;
      match allowed with
      | Err e => mret (Err e)
      | Ok allowed =>
          if negb allowed then mret (Ok (Some channel)) else check_multi_frame payload channel
      end
  | QResponse channel _ payload => check_multi_frame payload channel
  | QRequestCancellation _ | QResponseCancellation _ _ | QError _ _ _ => mret (Ok None)
  end.

(** [usize::MAX] as the mark of "never parse again". *)
Section core.
Context {Permit IoError BM : Type} `{BiMap IoId (ChannelId * Id) BM}.
Implicit Types self : IoCore Permit BM.

(** ** Ending the connection with an error *)

Definition inject_error self (err_msg : OutgoingMessage) : exec (IoCore Permit BM) :=
  let self := close_receiver self in
  let self := set_next_parse_at self usize_max in
  let self := set_buffer self [] in
  let self := set_ready_queue self [] in
  let self := set_request_map self (bm_clear (request_map self)) in
  let self := drop_permits self (concat (map (λ queue, concat (map item_permits queue)) (wait_queue self))) in
  let self := set_wait_queue self (map (λ _, []) (wait_queue self)) in
  let m := max_frame_size (juliet self) in
  err_msg ← truncate_to_single_frame err_msg m;
  '(frame, _remainder) ← next_owned (frames err_msg) m;
  assert (match _remainder with None => true | Some _ => false end);;
  mret (set_pending_error self (Some frame)).

(** ** Events *)

Definition handle_completed_read self (completed_read : CompletedRead)
    : result IoEvent (CoreError IoError) * IoCore Permit BM :=
  match completed_read with
  | ErrorReceived header data => (Err (RemoteReportedError header data), self)
  | NewRequest channel id payload => (Ok (EvNewRequest channel id payload), self)
  | RequestCancellation channel id => (Ok (EvRequestCancelled channel id), self)
  | ReceivedResponse channel id payload =>
      let '(removed, map) := bm_remove_by_right (request_map self) (channel, id) in
      let self := set_request_map self map in
      match removed with
      | None => (Err (InternalError "juliet protocol should have dropped response after cancellation"), self)
      | Some (io_id, _) => (Ok (EvReceivedResponse io_id payload), self)
      end
  | ResponseCancellation channel id =>
      let '(removed, map) := bm_remove_by_right (request_map self) (channel, id) in
      let self := set_request_map self map in
      match removed with
      | None => (Err (InternalError "juliet protocol should not have allowed fictitious response through"), self)
      | Some (io_id, _) => (Ok (EvReceivedCancellationResponse io_id), self)
      end
  end.

(** ** Queues *)

Definition push_ready self (msg : OutgoingMessage) : IoCore Permit BM :=
  set_ready_queue self (ready_queue self ++ [frames msg]).
(** Recording a multi-frame message as the active transfer of its channel. *)
Definition note_multi_frame self (channel : ChannelId) (msg : OutgoingMessage)
    : exec (IoCore Permit BM) :=
  multi ← is_multi_frame msg (max_frame_size (juliet self));
  if (multi : bool) then
    a ← array_set (active_multi_frame self) (ChannelId_get channel) (Some (OutgoingMessage_header msg));
    mret (set_active_multi_frame self a)
  else mret self.

Definition send_to_ready_queue self (item : QueuedItem Permit)
    : exec (result () LocalProtocolViolation * IoCore Permit BM) :=
  match item with
  | QRequest channel io_id payload permit =>
      '(msg, j) ← create_request (juliet self) channel payload;
      let self := set_juliet self j in
      match msg with
      | Err e => mret (Err e, drop_permits self [(channel, permit)])
      | Ok msg =>
          let id := Header_id (OutgoingMessage_header msg) in
          let self := set_request_map self (bm_insert (request_map self) io_id (channel, id)) in
          self ← note_multi_frame self channel msg;
          let self := push_ready self msg in
          mret (Ok (), drop_permits self [(channel, permit)])
      end
  | QRequestCancellation io_id =>
      match bm_get_by_left (request_map self) io_id with
      | Some (channel, id) =>
          '(msg, j) ← cancel_request (juliet self) channel id;
          let self := set_juliet self j in
          match msg with
          | Err e => mret (Err e, self)
          | Ok (Some msg) => mret (Ok (), push_ready self msg)
          | Ok None => mret (Ok (), self)
          end
      | None => mret (Ok (), self)
      end
  | QResponse channel id payload =>
      '(msg, j) ← create_response (juliet self) channel id payload;
      let self := set_juliet self j in
      match msg with
      | Err e => mret (Err e, self)
      | Ok (Some msg) =>
          self ← note_multi_frame self channel msg;
          mret (Ok (), push_ready self msg)
      | Ok None => mret (Ok (), self)
      end
  | QResponseCancellation channel id =>
      '(msg, j) ← cancel_response (juliet self) channel id;
      let self := set_juliet self j in
      match msg with
      | Err e => mret (Err e, self)
      | Ok (Some msg) => mret (Ok (), push_ready self msg)
      | Ok None => mret (Ok (), self)
      end
  | QError channel id payload =>
      err_msg ← custom_error (juliet self) channel id payload;
      match err_msg with
      | Err e => mret (Err e, self)
      | Ok err_msg =>
          self ← inject_error self err_msg;
          mret (Ok (), self)
      end
  end.

(** [self.wait_queue[channel].push_back(item)] *)
Definition push_wait self (channel : ChannelId) (item : QueuedItem Permit) : exec (IoCore Permit BM) :=
  q ← array_get (wait_queue self) (ChannelId_get channel);
  w ← array_set (wait_queue self) (ChannelId_get channel) (q ++ [item]);
  mret (set_wait_queue self w).

Definition handle_incoming_item self (item : QueuedItem Permit)
    : exec (result () LocalProtocolViolation * IoCore Permit BM) :=
  waits ← item_should_wait item (juliet self) (active_multi_frame self);
  match waits with
  | Err e => mret (Err e, drop_permits self (item_permits item))
  | Ok (Some channel) =>
      self ← push_wait self channel item;
      mret (Ok (), self)
  | Ok None => send_to_ready_queue self item
  end.

Definition ready_next_frame self : exec (result () LocalProtocolViolation * IoCore Permit BM) :=
  assert (match current_frame self with None => true | Some _ => false end);;
  match ready_queue self with
  | [] => mret (Ok (), self)
  | item :: queue =>
      let self := set_ready_queue self queue in
      '(frame, additional_frames) ← next_owned item (max_frame_size (juliet self));
      let '(self, is_final) :=
        match additional_frames with
        | Some next_frame_iter => (set_ready_queue self (ready_queue self ++ [next_frame_iter]), false)
        | None => (self, true)
        end in
      mret (Ok (), set_current_frame self (Some (frame, is_final)))
  end.

(** The [while] loop; [remaining] goes down by one in every turn that goes on. *)
Fixpoint process_wait_queue_loop (fuel : nat) (remaining : Z) self (channel : ChannelId)
    : exec (result () LocalProtocolViolation * IoCore Permit BM) :=
  match fuel with
  | O => OutOfFuel
  | S fuel =>
      queue ← array_get (wait_queue self) (ChannelId_get channel);
      match queue with
      | [] => mret (Ok (), self)
      | item :: queue =>
          w ← array_set (wait_queue self) (ChannelId_get channel) queue;
          let self := set_wait_queue self w in
          let continue self :=
            remaining ← usub remaining 1;
            if remaining =? 0 then mret (Ok (), self)
            else process_wait_queue_loop fuel remaining self channel in
          waits ← item_should_wait item (juliet self) (active_multi_frame self);
          match waits with
          | Err e => mret (Err e, drop_permits self (item_permits item))
          | Ok (Some _) =>
              self ← push_wait self channel item;
              continue self
          | Ok None =>
              '(sent, self) ← send_to_ready_queue self item;
              match sent with
              | Err e => mret (Err e, self)
              | Ok _ =>
                  allowed ← allowed_to_send_request (juliet self) channel;
                  match allowed with
                  | Err e => mret (Err e, self)
                  | Ok allowed => if negb allowed then mret (Ok (), self) else continue self
                  end
              end
          end
      end
  end.
Definition process_wait_queue self (channel : ChannelId)
    : exec (result () LocalProtocolViolation * IoCore Permit BM) :=
  queue ← array_get (wait_queue self) (ChannelId_get channel);
  process_wait_queue_loop (S (length queue)) (len queue) self channel.
End core.

(** ** Reading *)

(** What one [read_buf] gives: bytes ([Ok(n)]; none mean end of file), or an error. *)
Inductive ReadResult (IoError : Type) :=
  | ReadOk (chunk : bytes)
  | ReadInterrupted
  | ReadErr (e : IoError).
Arguments ReadOk {IoError}.
Arguments ReadInterrupted {IoError}.
Arguments ReadErr {IoError}.

(** The additional capacity reserved before reading. *)
Definition read_reserve (buf : bytes) (target : Z) : Z :=
  let extra_required := Z.max 0 (target - len buf) in
  Z.min extra_required MAX_ALLOC.

(** [None]: still waiting, with what was read so far in the buffer, where it stays when the
    future is dropped. *)
Fixpoint read_until_bytesmut {IoError} (reads : list (ReadResult IoError)) (buf : bytes) (target : Z)
    : option (result bool IoError) * bytes :=
  if len buf <? target then
    match reads with
    | [] => (None, buf)
    | ReadOk [] :: _ => (Some (Ok false), buf)
    | ReadOk chunk :: reads => read_until_bytesmut reads (buf ++ chunk) target
    | ReadInterrupted :: reads => read_until_bytesmut reads buf target
    | ReadErr err :: _ => (Some (Err err), buf)
    end
  else (Some (Ok true), buf).

(** ** The event loop *)

(** How the queue's [recv] ended, and what the [try_recv]s behind it gave. *)
Inductive Received (Permit : Type) :=
  | RecvNone
  | RecvItems (item : QueuedItem Permit) (more : list (QueuedItem Permit)) (disconnected : bool).
Arguments RecvNone {Permit}.
Arguments RecvItems {Permit}.

(** What the environment gives when [select!] is polled: the bytes the writer took of the
    current frame and whether writing is over, what reading gives, and the queue's answer. *)
Record Poll (Permit IoError : Type) := mkPoll {
  written : Z;
  write_result : option (result () IoError);
  reads : list (ReadResult IoError);
  received : option (Received Permit);
}.
Arguments mkPoll {Permit IoError}.
Arguments written {Permit IoError}.
Arguments write_result {Permit IoError}.
Arguments reads {Permit IoError}.
Arguments received {Permit IoError}.

(** How writing the pending error under its timeout ended. *)
Inductive ErrorWrite (IoError : Type) :=
  | ErrorElapsed
  | ErrorWriteFailed (e : IoError)
  | ErrorWritten.
Arguments ErrorElapsed {IoError}.
Arguments ErrorWriteFailed {IoError}.
Arguments ErrorWritten {IoError}.

Inductive Input (Permit IoError : Type) :=
  | InErrorWrite (w : ErrorWrite IoError)
  | InPoll (p : Poll Permit IoError).
Arguments InErrorWrite {Permit IoError}.
Arguments InPoll {Permit IoError}.

(** The branch [select!] takes. *)
Inductive Branch (Permit IoError : Type) :=
  | BranchWrite (r : result () IoError)
  | BranchRead (r : result bool IoError)
  | BranchRecv (r : Received Permit).
Arguments BranchWrite {Permit IoError}.
Arguments BranchRead {Permit IoError}.
Arguments BranchRecv {Permit IoError}.

(** How the part of a turn before its [await]s ends. *)
Inductive Begun (IoError : Type) :=
  | BegunReturn (r : result (option IoEvent) (CoreError IoError))
  | BegunErrorWrite (header : Header) (data : option bytes)
  | BegunSelect.
Arguments BegunReturn {IoError}.
Arguments BegunErrorWrite {IoError}.
Arguments BegunSelect {IoError}.

Section event_loop.
Context {Permit IoError BM : Type} `{BiMap IoId (ChannelId * Id) BM}.
Implicit Types self : IoCore Permit BM.

(** The payload of a pending error goes into the error reported. *)
Definition pending_error_data (frame : OutgoingFrame) : exec (option bytes) :=
  let header := OutgoingFrame_header frame in
  if is_error header then
    k ← error_kind header;
    mret (if decide (k = EOther) then Some (segment frame) else None)
  else mret None.

(** Parsing what has been read: [None] falls through to the [select!]. *)
Definition parse_step self
    : exec (option (result (option IoEvent) (CoreError IoError)) * IoCore Permit BM) :=
  if next_parse_at self <=? len (buffer self) then
    let self := set_next_parse_at self 0 in
    '(outcome, (j, buf)) ← process_incoming (juliet self) (buffer self);
    let self := set_buffer (set_juliet self j) buf in
    match outcome with
    | Incomplete n =>
        next ← uadd usize_max (len (buffer self)) n;
        mret (None, set_next_parse_at self next)
    | Fatal err_msg =>
        self ← inject_error self err_msg;
        mret (None, self)
    | Success successful_read =>
        '(processed, self) ←
          match successful_read with
          | ReceivedResponse channel _ _ => process_wait_queue self channel
          | _ => mret (Ok (), self)
          end;
        match processed with
        | Err e => mret (Some (Err (LocalProtocolViolationError e)), self)
        | Ok _ =>
            let '(r, self) := handle_completed_read self successful_read in
            mret (Some (match r with Ok event => Ok (Some event) | Err e => Err e end), self)
        end
    end
  else mret (None, self).

Definition begin_turn self : exec (Begun IoError * IoCore Permit BM) :=
  match pending_error self with
  | Some frame =>
      data ← pending_error_data frame;
      mret (BegunErrorWrite (OutgoingFrame_header frame) data, self)
  | None =>
      '(parsed, self) ← parse_step self;
      match parsed with
      | Some r => mret (BegunReturn r, self)
      | None =>
          if bool_decide (current_frame self = None) && bool_decide (ready_queue self ≠ []) then
            '(readied, self) ← ready_next_frame self;
            match readied with
            | Err e => mret (BegunReturn (Err (LocalProtocolViolationError e)), self)
            | Ok _ => mret (BegunSelect, self)
            end
          else mret (BegunSelect, self)
      end
  end.

(** Writing, reading and receiving are polled in this order.  [write_all_buf] is over once the
    writer has taken the last byte; as long as it is not, or when it fails, one is left. *)
Definition select_poll self (p : Poll Permit IoError)
    : exec (option (Branch Permit IoError) * IoCore Permit BM) :=
  '(wrote, self) ←
    match current_frame self with
    | Some (frame, is_final) =>
        r ← buf_remaining frame;
        frame ← buf_advance frame
                  (match write_result p with Some (Ok _) => r | _ => Z.max 0 (Z.min (written p) (r - 1)) end);
        mret (write_result p, set_current_frame self (Some (frame, is_final)))
    | None => mret (None, self)
    end;
  match wrote with
  | Some r => mret (Some (BranchWrite r), self)
  | None =>
      let '(read, buf) := read_until_bytesmut (reads p) (buffer self) (next_parse_at self) in
      let self := set_buffer self buf in
      match read with
      | Some r => mret (Some (BranchRead r), self)
      | None => mret (BranchRecv <$> received p, self)
      end
  end.

Definition lift_local {A} (r : result () LocalProtocolViolation)
    : option (result A (CoreError IoError)) :=
  match r with Ok _ => None | Err e => Some (Err (LocalProtocolViolationError e)) end.

(** [if was_final]: the channel's active transfer is over. *)
Definition clear_multi_frame self (header_sent : Header) (was_final : bool)
    : exec (IoCore Permit BM) :=
  if was_final then
    let channel_idx := ChannelId_get (Header_channel header_sent) in
    active ← array_get (active_multi_frame self) channel_idx;
    if bool_decide (active = Some header_sent) then
      a ← array_set (active_multi_frame self) channel_idx None;
      mret (set_active_multi_frame self a)
    else mret self
  else mret self.

Definition write_branch self (r : result () IoError)
    : exec (option (result (option IoEvent) (CoreError IoError)) * IoCore Permit BM) :=
  match r with
  | Err e => mret (Some (Err (WriteFailed e)), self)
  | Ok _ =>
      match current_frame self with
      | Some (frame_sent, was_final) =>
          let self := set_current_frame self None in
          let header_sent := OutgoingFrame_header frame_sent in
          self ← clear_multi_frame self header_sent was_final;
          if is_error header_sent then
            mret (Some (Err (RemoteProtocolViolation header_sent None)), self)
          else
            '(processed, self) ← process_wait_queue self (Header_channel header_sent);
            mret (lift_local processed, self)
      | None => mret (None, self)
      end
  end.

Definition read_branch self (r : result bool IoError)
    : option (result (option IoEvent) (CoreError IoError)) :=
  match r with
  | Err e => Some (Err (ReadFailed e))
  | Ok false => Some (Ok None)
  | Ok true => None
  end.

(** The [try_recv] loop: [disconnected] is how it ends. *)
Fixpoint receive_more self (items : list (QueuedItem Permit)) (disconnected : bool)
    : exec (option (result (option IoEvent) (CoreError IoError)) * IoCore Permit BM) :=
  match items with
  | [] => mret (if disconnected then Some (Ok None) else None, self)
  | item :: items =>
      '(handled, self) ← handle_incoming_item self item;
      match handled with
      | Err e => mret (Some (Err (LocalProtocolViolationError e)), self)
      | Ok _ => receive_more self items disconnected
      end
  end.
Definition recv_branch self (r : Received Permit)
    : exec (option (result (option IoEvent) (CoreError IoError)) * IoCore Permit BM) :=
  match r with
  | RecvNone => mret (Some (Ok None), self)
  | RecvItems item more disconnected => receive_more self (item :: more) disconnected
  end.

Definition finish_turn self (b : Branch Permit IoError)
    : exec (option (result (option IoEvent) (CoreError IoError)) * IoCore Permit BM) :=
  match b with
  | BranchWrite r => write_branch self r
  | BranchRead r => mret (read_branch self r, self)
  | BranchRecv r => recv_branch self r
  end.

(** The end of a turn that had an error to send. *)
Definition finish_error_write self (header : Header) (data : option bytes) (w : ErrorWrite IoError)
    : result (option IoEvent) (CoreError IoError) * IoCore Permit BM :=
  match w with
  | ErrorElapsed => (Err ErrorWriteTimeout, self)
  | ErrorWriteFailed e => (Err (WriteFailed e), self)
  | ErrorWritten => (Err (RemoteProtocolViolation header data), set_pending_error self None)
  end.

(** Polling [next_event] with the given inputs: [None] while it has not returned.  [resume]: it
    is waiting in the [select!] rather than at the head of its loop. *)
Fixpoint next_event_from (inputs : list (Input Permit IoError)) (resume : bool) self
    : exec (option (result (option IoEvent) (CoreError IoError)) * IoCore Permit BM) :=
  '(begun, self) ← (if resume then mret (BegunSelect, self) else begin_turn self);
  match begun with
  | BegunReturn r => mret (Some r, self)
  | BegunErrorWrite header data =>
      match inputs with
      | InErrorWrite w :: _ =>
          let '(r, self) := finish_error_write self header data w in mret (Some r, self)
      | _ => mret (None, self)
      end
  | BegunSelect =>
      match inputs with
      | InPoll p :: inputs =>
          '(branch, self) ← select_poll self p;
          match branch with
          | None => next_event_from inputs true self
          | Some branch =>
              '(r, self) ← finish_turn self branch;
              match r with
              | Some r => mret (Some r, self)
              | None => next_event_from inputs false self
              end
          end
      | _ => mret (None, self)
      end
  end.
Definition next_event (inputs : list (Input Permit IoError)) self
    : exec (option (result (option IoEvent) (CoreError IoError)) * IoCore Permit BM) :=
  next_event_from inputs false self.
End event_loop.

(** [as_remote_other_err] and [as_local_other_err]: the [debug_assert!] and the [?] on the data. *)
Definition as_remote_other_err {IoError} (self : CoreError IoError) : exec (option (Header * bytes)) :=
  match self with
  | RemoteReportedError header data =>
      if is_error header then
        k ← error_kind header;
        if decide (k = EOther) then
          assert (match data with Some _ => true | None => false end);;
          mret (data ← data; Some (header, data))
        else mret None
      else mret None
  | _ => mret None
  end.
Definition as_local_other_err {IoError} (self : CoreError IoError) : exec (option (Header * bytes)) :=
  match self with
  | RemoteProtocolViolation header data =>
      if is_error header then
        k ← error_kind header;
        if decide (k = EOther) then
          assert (match data with Some _ => true | None => false end);;
          mret (data ← data; Some (header, data))
        else mret None
      else mret None
  | _ => mret None
  end.

(** ** Handles

    The semaphores and the id counter are behind [Arc]s: every clone of a handle shares them, so
    they are state passed through the operations. *)

Inductive EnqueueError :=
  | EnqueueClosed (payload : option bytes)
  | BufferLimitHit (payload : option bytes).
Inductive ReservationError := NoBufferSpaceAvailable | ReservationClosed.

Record IoShared (S : Type) := mkIoShared { buffered_requests : list S }.
Arguments mkIoShared {S}.
Arguments buffered_requests {S}.

Record RequestTicket (Permit : Type) := mkRequestTicket {
  rt_channel : ChannelId;
  rt_permit : Permit;
  rt_io_id : IoId;
}.
Arguments mkRequestTicket {Permit}.
Arguments rt_channel {Permit}.
Arguments rt_permit {Permit}.
Arguments rt_io_id {Permit}.

(** What the handle's [Arc]s point to, and its sender. *)
Record RequestHandle (S Snd : Type) := mkRequestHandle {
  shared : IoShared S;
  rh_sender : Snd;
  next_io_id : Z;
}.
Arguments mkRequestHandle {S Snd}.
Arguments shared {S Snd}.
Arguments rh_sender {S Snd}.
Arguments next_io_id {S Snd}.
Record Handle (Snd : Type) := mkHandle { sender : Snd }.
Arguments mkHandle {Snd}.
Arguments sender {Snd}.

Section handles.
Context {Permit S Snd : Type} `{Semaphore S Permit} `{Sender Snd (QueuedItem Permit)}.

(** [AtomicU64::fetch_add(1)]: the id before, and the counter after, modulo 2^64. *)
Definition fetch_add (next : Z) : IoId * Z := (mkIoId next, (next + 1) mod 18446744073709551616).

Definition put_shared (self : RequestHandle S Snd) (sems : list S) (next : Z) : RequestHandle S Snd :=
  mkRequestHandle (mkIoShared sems) (rh_sender self) next.

Definition try_reserve_request (self : RequestHandle S Snd) (channel : ChannelId)
    : exec (result (RequestTicket Permit) ReservationError * RequestHandle S Snd) :=
  sem ← array_get (buffered_requests (shared self)) (ChannelId_get channel);
  let '(acquired, sem) := try_acquire_owned sem in
  sems ← array_set (buffered_requests (shared self)) (ChannelId_get channel) sem;
  match acquired with
  | Ok permit =>
      let '(io_id, next) := fetch_add (next_io_id self) in
      mret (Ok (mkRequestTicket channel permit io_id), put_shared self sems next)
  | Err Closed => mret (Err ReservationClosed, put_shared self sems (next_io_id self))
  | Err NoPermits => mret (Err NoBufferSpaceAvailable, put_shared self sems (next_io_id self))
  end.

(** [None] while it waits. *)
Definition reserve_request (self : RequestHandle S Snd) (channel : ChannelId)
    : exec (option (option (RequestTicket Permit)) * RequestHandle S Snd) :=
  sem ← array_get (buffered_requests (shared self)) (ChannelId_get channel);
  let '(acquired, sem) := acquire_owned sem in
  sems ← array_set (buffered_requests (shared self)) (ChannelId_get channel) sem;
  match acquired with
  | None => mret (None, put_shared self sems (next_io_id self))
  | Some (Ok permit) =>
      let '(io_id, next) := fetch_add (next_io_id self) in
      mret (Some (Some (mkRequestTicket channel permit io_id)), put_shared self sems next)
  | Some (Err _) => mret (Some None, put_shared self sems (next_io_id self))
  end.

Definition downgrade (self : RequestHandle S Snd) : Handle Snd := mkHandle (rh_sender self).

Definition enqueue_request (self : Handle Snd) (ticket : RequestTicket Permit) (payload : option bytes)
    : result IoId (option bytes) * Handle Snd :=
  let '(sent, sender) :=
    send (sender self) (QRequest (rt_channel ticket) (rt_io_id ticket) payload (rt_permit ticket)) in
  (match sent with
   | Ok _ => Ok (rt_io_id ticket)
   | Err item => Err (into_payload item)
   end, mkHandle sender).

Definition enqueue_item (self : Handle Snd) (item : QueuedItem Permit)
    : result () EnqueueError * Handle Snd :=
  let '(sent, sender) := send (sender self) item in
  (match sent with Ok _ => Ok () | Err item => Err (EnqueueClosed (into_payload item)) end,
   mkHandle sender).
Definition enqueue_response (self : Handle Snd) (channel : ChannelId) (id : Id) (payload : option bytes) :=
  enqueue_item self (QResponse channel id payload).
Definition enqueue_request_cancellation (self : Handle Snd) (io_id : IoId) :=
  enqueue_item self (QRequestCancellation io_id).
Definition enqueue_response_cancellation (self : Handle Snd) (channel : ChannelId) (id : Id) :=
  enqueue_item self (QResponseCancellation channel id).
Definition enqueue_error (self : Handle Snd) (channel : ChannelId) (id : Id) (payload : bytes) :=
  enqueue_item self (QError channel id payload).
End handles.

(** ** The builder *)

Record IoCoreBuilder := mkIoCoreBuilder {
  protocol : ProtocolBuilder;
  b_buffer_size : list Z;
  b_error_timeout : Z;
}.
Definition IoCoreBuilder_with_default_buffer_size (protocol : ProtocolBuilder)
    (default_buffer_size : Z) : IoCoreBuilder :=
  {| protocol := protocol;
     b_buffer_size := map (λ _, default_buffer_size) (pb_channel_config protocol);
     b_error_timeout := Duration_from_secs 10 |}.
Definition IoCoreBuilder_new (protocol : ProtocolBuilder) : IoCoreBuilder :=
  IoCoreBuilder_with_default_buffer_size protocol 1.
Definition buffer_size (self : IoCoreBuilder) (channel : ChannelId) (size : Z) : exec IoCoreBuilder :=
  assert (0 <? size);;
  sizes ← array_set (b_buffer_size self) (ChannelId_get channel) size;
  mret {| protocol := protocol self; b_buffer_size := sizes; b_error_timeout := b_error_timeout self |}.
Definition IoCoreBuilder_error_timeout (self : IoCoreBuilder) (error_timeout : Z) : IoCoreBuilder :=
  {| protocol := protocol self; b_buffer_size := b_buffer_size self; b_error_timeout := error_timeout |}.

(** The queue's two ends come from [mpsc::unbounded_channel]. *)
Definition IoCoreBuilder_build {Permit BM S Snd} `{BiMap IoId (ChannelId * Id) BM}
    `{Semaphore S Permit} (self : IoCoreBuilder) (sender : Snd)
    : IoCore Permit BM * RequestHandle S Snd :=
  let j := ProtocolBuilder_build (protocol self) in
  (mkIoCore j [] 0 None (b_error_timeout self) None (map (λ _, None) (channels j)) []
     (map (λ _, []) (channels j)) false bm_new [],
   mkRequestHandle (mkIoShared (map sem_new (b_buffer_size self))) sender 0).
