(* ===== verification/Rpc.v ===== *)
(** * The RPC layer (src/src/rpc.rs)

    Request guards live in a store, since the client and the server share them; the server's
    loop is a function of what its clock, its queue and the core below give it. *)
From stdpp Require Import strings.
From S2P Require Import Prelude Lib Varint Header FrameSize OutgoingMessage Multiframe Protocol Io.
From stdpp Require Import options.

(** ** Interfaces of the crates used *)

(** [once_cell::sync::OnceCell]: [set] gives the value back when the cell is full *)
Class OnceCell (C V : Type) := {
  cell_new : C;
  cell_set : C → V → result () V * C;
  cell_get : C → option V;
}.
Class OnceCellLaws (C V : Type) `{OnceCell C V} := {
  cell_get_new : cell_get cell_new = None;
  cell_set_empty c v : cell_get c = None →
    (cell_set c v).1 = Ok () ∧ cell_get (cell_set c v).2 = Some v;
  cell_set_full c v w : cell_get c = Some w → cell_set c v = (Err v, c);
}.
(** [tokio::sync::Notify]: [notified] is [None] while it waits *)
Class Notify (N : Type) := {
  notify_new : N;
  notify_one : N → N;
  notified : N → option N;
}.
(** No permit at first; [notify_one] leaves one. *)
Class NotifyLaws (N : Type) `{Notify N} := {
  notified_new : notified notify_new = None;
  notified_one n : is_Some (notified (notify_one n));
}.

(** ** Errors *)

Inductive RequestError :=
  | RemoteClosed (payload : option bytes)
  | Shutdown
  | TimedOut
  | TimeoutOverflow (timeout : Z)
  | RemoteCancelled
  | Cancelled
  | ApiError (e : LocalProtocolViolation).
Abbreviation Response := (result (option bytes) RequestError).

Inductive RpcServerError (IoError : Type) :=
  | RpcCoreError (e : CoreError IoError)
  | FatalTimeout (count : Z).
Arguments RpcCoreError {IoError}.
Arguments FatalTimeout {IoError}.

Definition Rpc_as_remote_other_err {IoError} (self : RpcServerError IoError)
    : exec (option (Header * bytes)) :=
  match self with RpcCoreError err => as_remote_other_err err | _ => mret None end.
Definition Rpc_as_local_other_err {IoError} (self : RpcServerError IoError)
    : exec (option (Header * bytes)) :=
  match self with RpcCoreError err => as_local_other_err err | _ => mret None end.

(** ** Request guards *)

Record RequestGuardInner (C N : Type) := mkRequestGuardInner { outcome : C; ready : option N }.
Arguments mkRequestGuardInner {C N}.
Arguments outcome {C N}.
Arguments ready {C N}.

(** The guards alive: a [RequestGuard] and an [Arc<RequestGuardInner>] are references to it. *)
Record GuardStore (C N : Type) := mkGuardStore {
  guards : gmap nat (RequestGuardInner C N);
  next_guard : nat;
}.
Arguments mkGuardStore {C N}.
Arguments guards {C N}.
Arguments next_guard {C N}.
Record RequestGuard := mkRequestGuard { inner : nat }.

Section guards.
Context {C N : Type} `{OnceCell C Response} `{Notify N}.
Implicit Types store : GuardStore C N.

(** [Arc::new] *)
Definition alloc_guard store (g : RequestGuardInner C N) : nat * GuardStore C N :=
  (next_guard store,
   mkGuardStore (<[next_guard store := g]> (guards store)) (S (next_guard store))).
Definition put_guard store (r : nat) (g : RequestGuardInner C N) : GuardStore C N :=
  mkGuardStore (<[r := g]> (guards store)) (next_guard store).

Definition RequestGuardInner_new : RequestGuardInner C N :=
  mkRequestGuardInner cell_new (Some notify_new).

Definition set_and_notify store (self : nat) (value : Response) : exec (GuardStore C N) :=
  g ← unwrap (guards store !! self);
  let '(set, cell) := cell_set (outcome g) value in
  match set with
  | Ok _ => mret (put_guard store self (mkRequestGuardInner cell (notify_one <$> ready g)))
  | Err _ => mret (put_guard store self (mkRequestGuardInner cell (ready g)))
  end.

Definition RequestGuard_new_error store (error : RequestError) : exec (RequestGuard * GuardStore C N) :=
  let '(set, cell) := cell_set cell_new (Err error : Response) in
  assert (match set with Ok _ => true | Err _ => false end);;
  let '(r, store) := alloc_guard store (mkRequestGuardInner cell None) in
  mret (mkRequestGuard r, store).

Definition RequestGuard_do_cancel store (self : RequestGuard) : GuardStore C N := store.
Definition RequestGuard_drop store (self : RequestGuard) : GuardStore C N := RequestGuard_do_cancel store self.
(** [forget] does nothing: the guard is dropped. *)
Definition RequestGuard_forget store (self : RequestGuard) : GuardStore C N := RequestGuard_drop store self.
Definition RequestGuard_cancel store (self : RequestGuard) : GuardStore C N :=
  RequestGuard_forget (RequestGuard_do_cancel store self) self.

Definition take_inner store (self : RequestGuard) : exec Response :=
  g ← unwrap (guards store !! inner self);
  unwrap (cell_get (outcome g)).

(** [None] while it waits. *)
Definition wait_for_response store (self : RequestGuard)
    : exec (option Response * GuardStore C N) :=
  g ← unwrap (guards store !! inner self);
  match ready g with
  | Some n =>
      match notified n with
      | None => mret (None, store)
      | Some n =>
          let store := put_guard store (inner self) (mkRequestGuardInner (outcome g) (Some n)) in
          r ← take_inner store self;
          mret (Some r, store)
      end
  | None =>
      r ← take_inner store self;
      mret (Some r, store)
  end.

Definition try_get_response store (self : RequestGuard) : exec (result Response RequestGuard) :=
  g ← unwrap (guards store !! inner self);
  match cell_get (outcome g) with
  | Some _ => r ← take_inner store self; mret (Ok r)
  | None => mret (Err self)
  end.
End guards.

(** ** Timeouts: the heap, smallest deadline first *)

Abbreviation Timeout := (Z * IoId)%type.
(** [BinaryHeap<Reverse<(Instant, IoId)>>], as its elements in the order of removal. *)
Abbreviation Heap := (list Timeout).

(** The derived order of the pair. *)
Definition timeout_le (a b : Timeout) : bool :=
  (a.1 <? b.1) || (a.1 =? b.1) && (ioid_raw a.2 <=? ioid_raw b.2).
Fixpoint heap_push (heap : Heap) (t : Timeout) : Heap :=
  match heap with
  | [] => [t]
  | x :: heap => if timeout_le t x then t :: x :: heap else x :: heap_push heap t
  end.
Definition heap_peek (heap : Heap) : option Timeout := head heap.
Definition heap_pop (heap : Heap) : option Timeout * Heap := (head heap, tail heap).

(** [DrainConditional::next] *)
Definition drain_next (heap : Heap) (predicate : Timeout → bool) : exec (option Timeout * Heap) :=
  match heap_peek heap with
  | None => mret (None, heap)
  | Some candidate =>
      if predicate candidate then
        let '(top, heap) := heap_pop heap in
        top ← unwrap top;
        mret (Some top, heap)
      else mret (None, heap)
  end.
(** Iterating [drain_heap_while] to its end. *)
Fixpoint drain_heap_while_from (fuel : nat) (heap : Heap) (predicate : Timeout → bool)
    : exec (list Timeout * Heap) :=
  match fuel with
  | O => OutOfFuel
  | S fuel =>
      '(item, heap) ← drain_next heap predicate;
      match item with
      | None => mret ([], heap)
      | Some item =>
          '(items, heap) ← drain_heap_while_from fuel heap predicate;
          mret (item :: items, heap)
      end
  end.
Definition drain_heap_while (heap : Heap) (predicate : Timeout → bool) : exec (list Timeout * Heap) :=
  drain_heap_while_from (S (length heap)) heap predicate.

(** ** Data *)

Record NewOutgoingRequest (Permit : Type) := mkNewOutgoingRequest {
  ticket : RequestTicket Permit;
  guard : nat;
  no_payload : option bytes;
  expires : option Z;
}.
Arguments mkNewOutgoingRequest {Permit}.
Arguments ticket {Permit}.
Arguments guard {Permit}.
Arguments no_payload {Permit}.
Arguments expires {Permit}.

Record RpcBuilder := mkRpcBuilder {
  rpc_core : IoCoreBuilder;
  rb_bubble_timeouts : bool;
  rb_default_timeout : option Z;
}.
Record JulietRpcClient (S Snd RSnd : Type) := mkJulietRpcClient {
  new_request_sender : RSnd;
  request_handle : RequestHandle S Snd;
  default_timeout : option Z;
}.
Arguments mkJulietRpcClient {S Snd RSnd}.
Arguments new_request_sender {S Snd RSnd}.
Arguments request_handle {S Snd RSnd}.
Arguments default_timeout {S Snd RSnd}.

(** The request builder borrows the client: its operations take the client too. *)
Record JulietRpcRequestBuilder := mkJulietRpcRequestBuilder {
  rq_channel : ChannelId;
  rq_payload : option bytes;
  rq_timeout : option Z;
}.

Record JulietRpcServer (Permit BM Snd : Type) := mkJulietRpcServer {
  core : IoCore Permit BM;
  handle : Handle Snd;
  pending : gmap IoId nat;
  timeouts : Heap;
  bubble_timeouts : bool;
  new_requests_closed : bool;
}.
Arguments mkJulietRpcServer {Permit BM Snd}.
Arguments core {Permit BM Snd}.
Arguments handle {Permit BM Snd}.
Arguments pending {Permit BM Snd}.
Arguments timeouts {Permit BM Snd}.
Arguments bubble_timeouts {Permit BM Snd}.
Arguments new_requests_closed {Permit BM Snd}.

(** The handle of an incoming request is a clone of the server's. *)
Record IncomingRequest (Snd : Type) := mkIncomingRequest {
  ir_channel : ChannelId;
  ir_id : Id;
  ir_payload : option bytes;
  ir_handle : option (Handle Snd);
}.
Arguments mkIncomingRequest {Snd}.
Arguments ir_channel {Snd}.
Arguments ir_id {Snd}.
Arguments ir_payload {Snd}.
Arguments ir_handle {Snd}.

(** ** The builder *)

Definition RpcBuilder_new (core : IoCoreBuilder) : RpcBuilder :=
  {| rpc_core := core; rb_bubble_timeouts := false; rb_default_timeout := None |}.
Definition with_bubble_timeouts (self : RpcBuilder) (b : bool) : RpcBuilder :=
  {| rpc_core := rpc_core self; rb_bubble_timeouts := b; rb_default_timeout := rb_default_timeout self |}.
Definition with_default_timeout (self : RpcBuilder) (timeout : Z) : RpcBuilder :=
  {| rpc_core := rpc_core self; rb_bubble_timeouts := rb_bubble_timeouts self;
     rb_default_timeout := Some timeout |}.

(** Both queues come from [mpsc::unbounded_channel]. *)
Definition RpcBuilder_build {Permit BM S Snd RSnd} `{BiMap IoId (ChannelId * Id) BM}
    `{Semaphore S Permit} (self : RpcBuilder) (sender : Snd) (new_request_sender : RSnd)
    : JulietRpcClient S Snd RSnd * JulietRpcServer Permit BM Snd :=
  let '(core, core_handle) := IoCoreBuilder_build (rpc_core self) sender in
  (mkJulietRpcClient new_request_sender core_handle (rb_default_timeout self),
   mkJulietRpcServer core (downgrade core_handle) ∅ [] (rb_bubble_timeouts self) false).

(** ** The client *)

Section client.
Context {Permit S Snd RSnd C N : Type} `{Semaphore S Permit} `{Sender Snd (QueuedItem Permit)}.
Context `{Sender RSnd (NewOutgoingRequest Permit)} `{OnceCell C Response} `{Notify N}.
(** The largest [Instant]. *)
Context (instant_max : Z).

Abbreviation Client := (JulietRpcClient S Snd RSnd).

(** [Instant::checked_add] *)
Definition checked_add (now timeout : Z) : option Z :=
  if decide (now + timeout ≤ instant_max) then Some (now + timeout) else None.

Definition Client_create_request (self : Client) (channel : ChannelId) : JulietRpcRequestBuilder :=
  {| rq_channel := channel; rq_payload := None; rq_timeout := default_timeout self |}.
Definition Client_send_custom_error (self : Client) (channel : ChannelId) (id : Id) (error : bytes) : bool :=
  match (enqueue_error (downgrade (request_handle self)) channel id error).1 with
  | Ok _ => true
  | Err _ => false
  end.

Definition RequestBuilder_into_payload (self : JulietRpcRequestBuilder) : option bytes := rq_payload self.
Definition with_payload (self : JulietRpcRequestBuilder) (payload : bytes) : JulietRpcRequestBuilder :=
  {| rq_channel := rq_channel self; rq_payload := Some payload; rq_timeout := rq_timeout self |}.
Definition with_timeout (self : JulietRpcRequestBuilder) (timeout : Z) : JulietRpcRequestBuilder :=
  {| rq_channel := rq_channel self; rq_payload := rq_payload self; rq_timeout := Some timeout |}.

Definition set_request_handle (self : Client) (h : RequestHandle S Snd) : Client :=
  mkJulietRpcClient (new_request_sender self) h (default_timeout self).

Definition do_enqueue_request (self : JulietRpcRequestBuilder) (now : Z) (client : Client)
    (store : GuardStore C N) (ticket : RequestTicket Permit)
    : exec (RequestGuard * (Client * GuardStore C N)) :=
  let '(inner, store) := alloc_guard store RequestGuardInner_new in
  let enqueue (expires : option Z) :=
    let '(sent, snd) :=
      send (new_request_sender client) (mkNewOutgoingRequest ticket inner (rq_payload self) expires) in
    let client := mkJulietRpcClient snd (request_handle client) (default_timeout client) in
    match sent with
    | Ok _ => mret (mkRequestGuard inner, (client, store))
    | Err request =>
        '(g, store) ← RequestGuard_new_error store (RemoteClosed (no_payload request));
        mret (g, (client, store))
    end in
  match rq_timeout self with
  | Some timeout =>
      match checked_add now timeout with
      | Some expires => enqueue (Some expires)
      | None =>
          '(g, store) ← RequestGuard_new_error store (TimeoutOverflow timeout);
          mret (g, (client, store))
      end
  | None => enqueue None
  end.

(** [None] while it waits for buffer space. *)
Definition queue_for_sending (self : JulietRpcRequestBuilder) (now : Z) (client : Client)
    (store : GuardStore C N) : exec (option RequestGuard * (Client * GuardStore C N)) :=
  '(reserved, h) ← reserve_request (request_handle client) (rq_channel self);
  let client := set_request_handle client h in
  match reserved with
  | None => mret (None, (client, store))
  | Some (Some ticket) =>
      '(g, s) ← do_enqueue_request self now client store ticket;
      mret (Some g, s)
  | Some None =>
      '(g, store) ← RequestGuard_new_error store (RemoteClosed (rq_payload self));
      mret (Some g, (client, store))
  end.

Definition try_queue_for_sending (self : JulietRpcRequestBuilder) (now : Z) (client : Client)
    (store : GuardStore C N)
    : exec (result RequestGuard JulietRpcRequestBuilder * (Client * GuardStore C N)) :=
  '(reserved, h) ← try_reserve_request (request_handle client) (rq_channel self);
  let client := set_request_handle client h in
  match reserved with
  | Ok ticket =>
      '(g, s) ← do_enqueue_request self now client store ticket;
      mret (Ok g, s)
  | Err ReservationClosed =>
      '(g, store) ← RequestGuard_new_error store (RemoteClosed (rq_payload self));
      mret (Ok g, (client, store))
  | Err NoBufferSpaceAvailable => mret (Err self, (client, store))
  end.
End client.

(** ** The server *)

(** The branches of the [select!] of [next_request] other than the core's. *)
Inductive RpcBranch (Permit : Type) :=
  | TimeoutCheck
  | NewOutgoing (request : option (NewOutgoingRequest Permit)).
Arguments TimeoutCheck {Permit}.
Arguments NewOutgoing {Permit}.
(** What one poll of the [select!] finds: whether the deadline has passed, what the queue of new
    requests gives if it is ready, and what the core's [next_event] is polled with if it is. *)
Record SelectPoll (Permit IoError : Type) := mkSelectPoll {
  deadline_passed : bool;
  received_request : option (option (NewOutgoingRequest Permit));
  core_poll : list (Input Permit IoError);
}.
Arguments mkSelectPoll {Permit IoError}.
Arguments deadline_passed {Permit IoError}.
Arguments received_request {Permit IoError}.
Arguments core_poll {Permit IoError}.
(** What a turn gets: the time, and the polls of its [select!]. *)
Record RpcTurn (Permit IoError : Type) := mkRpcTurn {
  now : Z;
  select_polls : list (SelectPoll Permit IoError);
}.
Arguments mkRpcTurn {Permit IoError}.
Arguments now {Permit IoError}.
Arguments select_polls {Permit IoError}.

(** The [select!] is [biased]: each poll looks at the timer first, then at the queue, and polls the
    core only if neither is ready.  So the core is polled - not at all, if one of them is ready
    at once - until it returns or one of them is ready.  A deadline passes some time: it has when
    the polls run out, unless the call is dropped there, which leaves the same server. *)
Fixpoint first_ready {Permit IoError} (polls : list (SelectPoll Permit IoError))
    : list (list (Input Permit IoError)) * RpcBranch Permit :=
  match polls with
  | [] => ([], TimeoutCheck)
  | poll :: polls =>
      if deadline_passed poll then ([], TimeoutCheck)
      else match received_request poll with
           | Some request => ([], NewOutgoing request)
           | None => let '(core_polls, branch) := first_ready polls in (core_poll poll :: core_polls, branch)
           end
  end.
(** The branch that is ready before the core returns, if the core does not return. *)
Definition branch {Permit IoError} (t : RpcTurn Permit IoError) : RpcBranch Permit := (first_ready (select_polls t)).2.
Definition core_polls {Permit IoError} (t : RpcTurn Permit IoError) : list (list (Input Permit IoError)) :=
  (first_ready (select_polls t)).1.
Definition core_inputs {Permit IoError} (t : RpcTurn Permit IoError) : list (Input Permit IoError) := concat (core_polls t).

Section server.
Context {Permit IoError BM Snd C N : Type} `{BiMap IoId (ChannelId * Id) BM}.
Context `{Sender Snd (QueuedItem Permit)} `{OnceCell C Response} `{Notify N}.
Context (instant_max : Z).
Abbreviation Server := (JulietRpcServer Permit BM Snd).
Implicit Types self : Server.

Definition set_core self (x : IoCore Permit BM) : Server :=
  mkJulietRpcServer x (handle self) (pending self) (timeouts self) (bubble_timeouts self) (new_requests_closed self).
Definition set_handle self (x : Handle Snd) : Server :=
  mkJulietRpcServer (core self) x (pending self) (timeouts self) (bubble_timeouts self) (new_requests_closed self).
Definition set_pending self (x : gmap IoId nat) : Server :=
  mkJulietRpcServer (core self) (handle self) x (timeouts self) (bubble_timeouts self) (new_requests_closed self).
Definition set_timeouts self (x : Heap) : Server :=
  mkJulietRpcServer (core self) (handle self) (pending self) x (bubble_timeouts self) (new_requests_closed self).

(** The body of the [for] loop over the expired timeouts. *)
Fixpoint expire_all self (store : GuardStore C N) (timed_out : Z) (items : list Timeout)
    : exec (Z * (Server * GuardStore C N)) :=
  match items with
  | [] => mret (timed_out, (self, store))
  | (_, io_id) :: items =>
      match pending self !! io_id with
      | Some guard_ref =>
          let self := set_pending self (delete io_id (pending self)) in
          store ← set_and_notify store guard_ref (Err TimedOut);
          let '(_, h) := enqueue_request_cancellation (handle self) io_id in
          timed_out ← uadd usize_max timed_out 1;
          expire_all (set_handle self h) store timed_out items
      | None => expire_all self store timed_out items
      end
  end.

Definition process_timeouts self (store : GuardStore C N) (now : Z)
    : exec ((Z * Z) * (Server * GuardStore C N)) :=
  '(items, heap) ← drain_heap_while (timeouts self) (λ t, t.1 <=? now);
  '(timed_out, (self, store)) ← expire_all (set_timeouts self heap) store 0 items;
  deadline ← match heap_peek (timeouts self) with
             | Some (when, _) => mret when
             | None => uadd instant_max now (Duration_from_secs 3600)
             end;
  mret ((deadline, timed_out), (self, store)).

Definition take_new_request self (store : GuardStore C N) (request : NewOutgoingRequest Permit)
    : exec (Server * GuardStore C N) :=
  let '(enqueued, h) := enqueue_request (handle self) (ticket request) (no_payload request) in
  let self := set_handle self h in
  match enqueued with
  | Ok io_id =>
      let self := set_pending self (<[io_id := guard request]> (pending self)) in
      mret (match expires request with
            | Some expires => set_timeouts self (heap_push (timeouts self) (expires, io_id))
            | None => self
            end, store)
  | Err payload =>
      store ← set_and_notify store (guard request) (Err (RemoteClosed payload));
      mret (self, store)
  end.

(** An answer for [io_id]: whoever waits for it gets it. *)
Definition resolve self (store : GuardStore C N) (io_id : IoId) (value : Response)
    : exec (Server * GuardStore C N) :=
  match pending self !! io_id with
  | None => mret (self, store)
  | Some guard =>
      store ← set_and_notify store guard value;
      mret (set_pending self (delete io_id (pending self)), store)
  end.

Definition handle_event self (store : GuardStore C N) (event : IoEvent)
    : exec (option (IncomingRequest Snd) * (Server * GuardStore C N)) :=
  match event with
  | EvNewRequest channel id payload =>
      mret (Some (mkIncomingRequest channel id payload (Some (handle self))), (self, store))
  | EvRequestCancelled _ _ => mret (None, (self, store))
  | EvReceivedResponse io_id payload =>
      s ← resolve self store io_id (Ok payload);
      mret (None, s)
  | EvReceivedCancellationResponse io_id =>
      s ← resolve self store io_id (Err RemoteCancelled);
      mret (None, s)
  end.

(** The core's part in the [select!]: nothing if it is never polled. *)
Definition poll_core (t : RpcTurn Permit IoError) (c : IoCore Permit BM)
    : exec (option (result (option IoEvent) (CoreError IoError)) * IoCore Permit BM) :=
  match core_polls t with
  | [] => mret (None, c)
  | polls => next_event (concat polls) c
  end.

(** One turn of the loop: [None] goes on. *)
Definition next_request_turn self (store : GuardStore C N) (t : RpcTurn Permit IoError)
    : exec (option (result (option (IncomingRequest Snd)) (RpcServerError IoError))
            * (Server * GuardStore C N)) :=
  '((_, timed_out), (self, store)) ← process_timeouts self store (now t);
  if bubble_timeouts self && (0 <? timed_out) then
    mret (Some (Err (FatalTimeout timed_out)), (self, store))
  else
    '(event_result, c) ← poll_core t (core self);
    let self := set_core self c in
    match event_result with
    | Some (Err e) => mret (Some (Err (RpcCoreError e)), (self, store))
    | Some (Ok None) => mret (Some (Ok None), (self, store))
    | Some (Ok (Some event)) =>
        '(request, s) ← handle_event self store event;
        mret (match request with Some r => Some (Ok (Some r)) | None => None end, s)
    | None =>
        match branch t with
        | TimeoutCheck => mret (None, (self, store))
        | NewOutgoing (Some request) =>
            s ← take_new_request self store request;
            mret (None, s)
        | NewOutgoing None => mret (Some (Ok None), (self, store))
        end
    end.

(** [None] while it has not returned. *)
Fixpoint next_request (turns : list (RpcTurn Permit IoError)) self (store : GuardStore C N)
    : exec (option (result (option (IncomingRequest Snd)) (RpcServerError IoError))
            * (Server * GuardStore C N)) :=
  match turns with
  | [] => mret (None, (self, store))
  | t :: turns =>
      '(r, (self, store)) ← next_request_turn self store t;
      match r with
      | Some r => mret (Some r, (self, store))
      | None => next_request turns self store
      end
  end.

Definition Server_send_custom_error self (channel : ChannelId) (id : Id) (error : bytes) : bool * Server :=
  let '(sent, h) := enqueue_error (handle self) channel id error in
  (match sent with Ok _ => true | Err _ => false end, set_handle self h).

(** The loop discards every request; [calls] are the inputs of the successive [next_request]s up
    to the timeout around them. *)
Fixpoint discard_requests (calls : list (list (RpcTurn Permit IoError))) self (store : GuardStore C N)
    : exec (Server * GuardStore C N) :=
  match calls with
  | [] => mret (self, store)
  | turns :: calls =>
      '(r, (self, store)) ← next_request turns self store;
      match r with
      | Some (Ok (Some _incoming_request)) => discard_requests calls self store
      | _ => mret (self, store)
      end
  end.
Definition send_custom_error_and_shutdown self (store : GuardStore C N) (channel : ChannelId) (id : Id)
    (error : bytes) (calls : list (list (RpcTurn Permit IoError))) : exec (Server * GuardStore C N) :=
  let '(sent, self) := Server_send_custom_error self channel id error in
  if (sent : bool) then discard_requests calls self store else mret (self, store).

(** [Drop for JulietRpcServer]: [queued] is what is left in the queue. *)
Fixpoint notify_all (store : GuardStore C N) (values : list (nat * Response)) : exec (GuardStore C N) :=
  match values with
  | [] => mret store
  | (r, v) :: values => store ← set_and_notify store r v; notify_all store values
  end.
Definition Server_drop self (store : GuardStore C N) (queued : list (NewOutgoingRequest Permit))
    : exec (Server * GuardStore C N) :=
  let drained := map (λ kv, (kv.2, Err Shutdown)) (map_to_list (pending self)) in
  let self := mkJulietRpcServer (core self) (handle self) ∅ (timeouts self) (bubble_timeouts self) true in
  store ← notify_all store drained;
  store ← notify_all store (map (λ r, (guard r, Err (RemoteClosed (no_payload r)))) queued);
  mret (self, store).
End server.

(** ** Incoming requests *)

Section incoming.
Context {Permit Snd : Type} `{Sender Snd (QueuedItem Permit)}.
Implicit Types self : IncomingRequest Snd.

Definition IncomingRequest_channel self : ChannelId := ir_channel self.
Definition IncomingRequest_id self : Id := ir_id self.
Definition IncomingRequest_payload self : option bytes := ir_payload self.
(** [payload_mut]: what the caller puts in its place. *)
Definition IncomingRequest_set_payload self (payload : option bytes) : IncomingRequest Snd :=
  mkIncomingRequest (ir_channel self) (ir_id self) payload (ir_handle self).
Definition take_handle self : option (Handle Snd) * IncomingRequest Snd :=
  (ir_handle self, mkIncomingRequest (ir_channel self) (ir_id self) (ir_payload self) None).

(** The [match] on a failed send: a limit cannot be hit when responding. *)
Definition ignore_closed (sent : result () EnqueueError) : exec () :=
  match sent with
  | Ok _ => mret ()
  | Err (EnqueueClosed _) => mret ()
  | Err (BufferLimitHit _) => Panicked
  end.

Definition IncomingRequest_do_cancel self : exec (option (Handle Snd) * IncomingRequest Snd) :=
  let '(h, self) := take_handle self in
  match h with
  | Some handle =>
      let '(sent, handle) := enqueue_response_cancellation handle (ir_channel self) (ir_id self) in
      ignore_closed sent;;
      mret (Some handle, self)
  | None => mret (None, self)
  end.
Definition IncomingRequest_drop self : exec (option (Handle Snd) * IncomingRequest Snd) := IncomingRequest_do_cancel self.
(** [respond] and [cancel] consume the request: it is dropped at the end. *)
Definition IncomingRequest_respond self (payload : option bytes)
    : exec (option (Handle Snd) * IncomingRequest Snd) :=
  let '(h, self) := take_handle self in
  match h with
  | Some handle =>
      let '(sent, handle) := enqueue_response handle (ir_channel self) (ir_id self) payload in
      ignore_closed sent;;
      '(_, self) ← IncomingRequest_drop self;
      mret (Some handle, self)
  | None => IncomingRequest_drop self
  end.
Definition IncomingRequest_cancel self : exec (option (Handle Snd) * IncomingRequest Snd) :=
  '(h, self) ← IncomingRequest_do_cancel self;
  '(_, self) ← IncomingRequest_drop self;
  mret (h, self).
End incoming.
