(* ===== verification/Display.v ===== *)
(** * What is printed (the [Display] and [Debug] implementations)

    The text of identifiers, headers, frames, queued items, events and errors, as it goes into
    logs and error messages.  Formatting into a string never fails, so [fmt] is the text it
    writes; where it calls an accessor that can panic, a computation that gives the text.  The
    messages of the error types are those of their [#[error(...)]] attributes. *)
From Stdlib Require Import Ascii.
From stdpp Require Import strings pretty.
From S2P Require Import Prelude Lib Varint Header FrameSize OutgoingMessage WireFormat ByteIter Multiframe.
From S2P Require Import Protocol Io Rpc.
From stdpp Require Import options.

(** ** Numbers *)

(** [{}] of an unsigned integer. *)
Definition show (x : Z) : string := pretty x.
(** [{:02x}] of a byte. *)
Definition hex_digit (d : Z) : Ascii.ascii :=
  Ascii.ascii_of_nat (Z.to_nat (if d <? 10 then 48 + d else 87 + d)).
Definition hex2 (b : Z) : string := String (hex_digit (b / 16)) (String (hex_digit (b mod 16)) "").

(** ** Identifiers *)

Definition ChannelId_fmt (self : ChannelId) : string := show (ChannelId_get self).
Definition Id_fmt (self : Id) : string := show (Id_get self).
Definition IoId_fmt (self : IoId) : string := show (ioid_raw self).

(** ** Payloads (util.rs) *)

Definition PayloadFormat_fmt (raw : bytes) : string :=
  String.concat "" (map (λ byte, hex2 byte +:+ " ") (take (Z.to_nat (Z.min (len raw) 16)) raw)) +:+
  (if 16 <? len raw then "... " else "") +:+
  "(" +:+ show (len raw) +:+ " bytes)".
(** [, payload: ...] where there is one. *)
Definition fmt_payload (name : string) (payload : option bytes) : string :=
  match payload with Some payload => ", " +:+ name +:+ ": " +:+ PayloadFormat_fmt payload | None => "" end.

(** ** Kinds and headers *)

Definition ErrorKind_debug (self : ErrorKind) : string :=
  match self with
  | EOther => "Other" | EMaxFrameSizeExceeded => "MaxFrameSizeExceeded"
  | EInvalidHeader => "InvalidHeader" | ESegmentViolation => "SegmentViolation"
  | EBadVarInt => "BadVarInt" | EInvalidChannel => "InvalidChannel" | EInProgress => "InProgress"
  | EResponseTooLarge => "ResponseTooLarge" | ERequestTooLarge => "RequestTooLarge"
  | EDuplicateRequest => "DuplicateRequest" | EFictitiousRequest => "FictitiousRequest"
  | ERequestLimitExceeded => "RequestLimitExceeded" | EFictitiousCancel => "FictitiousCancel"
  | ECancellationLimitExceeded => "CancellationLimitExceeded"
  end.
Definition ErrorKind_fmt (self : ErrorKind) : string :=
  match self with
  | EOther => "application defined error"
  | EMaxFrameSizeExceeded => "maximum frame size exceeded"
  | EInvalidHeader => "invalid header"
  | ESegmentViolation => "segment violation"
  | EBadVarInt => "bad varint"
  | EInvalidChannel => "invalid channel"
  | EInProgress => "multi-frame in progress"
  | EResponseTooLarge => "response too large"
  | ERequestTooLarge => "request too large"
  | EDuplicateRequest => "duplicate request"
  | EFictitiousRequest => "response for fictitious request"
  | ERequestLimitExceeded => "request limit exceeded"
  | EFictitiousCancel => "cancellation for fictitious request"
  | ECancellationLimitExceeded => "cancellation limit exceeded"
  end.
Definition Kind_debug (self : Kind) : string :=
  match self with
  | KRequest => "Request" | KResponse => "Response" | KRequestPl => "RequestPl"
  | KResponsePl => "ResponsePl" | KCancelReq => "CancelReq" | KCancelResp => "CancelResp"
  end.

Definition Header_debug (self : Header) : exec string :=
  if is_error self then
    k ← error_kind self;
    mret ("[err:" +:+ ErrorKind_debug k +:+ " c:" +:+ ChannelId_fmt (Header_channel self) +:+
          " id:" +:+ Id_fmt (Header_id self) +:+ "]")
  else
    k ← kind self;
    mret ("[" +:+ Kind_debug k +:+ " c:" +:+ ChannelId_fmt (Header_channel self) +:+
          " id:" +:+ Id_fmt (Header_id self) +:+ "]").
Definition Header_fmt (self : Header) : exec string := Header_debug self.

(** ** Frames *)

(** Of the six bytes, unless it is the sentinel. *)
Definition Varint32_debug (self : Varint32) : string :=
  if is_sentinel self then "Varint32::SENTINEL"
  else "Varint32([" +:+ String.concat ", " (map show (v32 self)) +:+ "])".

Definition Preamble_fmt (self : Preamble) : exec string :=
  header ← Header_fmt (pre_header self);
  if negb (is_sentinel (payload_length self)) then
    n ← Varint32_decode (payload_length self);
    mret (header +:+ " [len=" +:+ show n +:+ "]")
  else mret header.

Definition OutgoingFrame_fmt (self : OutgoingFrame) : exec string :=
  preamble ← Preamble_fmt (fr_preamble self);
  let payload := segment self in
  mret ("<" +:+ preamble +:+
        (if bool_decide (payload ≠ []) then " " +:+ PayloadFormat_fmt payload else "") +:+ ">").

(** ** What the protocol reads *)

Definition CompletedRead_fmt (self : CompletedRead) : exec string :=
  match self with
  | ErrorReceived header data =>
      header ← Header_fmt header;
      mret ("ErrorReceived { header: " +:+ header +:+ fmt_payload "data" data +:+ " }")
  | NewRequest channel id payload =>
      mret ("NewRequest { channel: " +:+ ChannelId_fmt channel +:+ ", id: " +:+ Id_fmt id +:+
            fmt_payload "payload" payload +:+ " }")
  | ReceivedResponse channel id payload =>
      mret ("ReceivedResponse { channel: " +:+ ChannelId_fmt channel +:+ ", id: " +:+ Id_fmt id +:+
            fmt_payload "payload" payload +:+ " }")
  | RequestCancellation channel id =>
      mret ("RequestCancellation { channel: " +:+ ChannelId_fmt channel +:+ ", id: " +:+ Id_fmt id +:+ " }")
  | ResponseCancellation channel id =>
      mret ("ResponseCancellation { channel: " +:+ ChannelId_fmt channel +:+ ", id: " +:+ Id_fmt id +:+ " }")
  end.

Definition LocalProtocolViolation_fmt (self : LocalProtocolViolation) : string :=
  match self with
  | WouldExceedRequestLimit limit => "sending would exceed request limit of " +:+ show limit
  | InvalidChannel channel channel_count =>
      "channel " +:+ ChannelId_fmt channel +:+ " not a member of configured " +:+
      show channel_count +:+ " channels"
  | PayloadExceedsLimit payload_length limit =>
      "payload length of " +:+ show payload_length +:+ " bytes exceeds configured limit of " +:+ show limit
  | ErrorPayloadIsMultiFrame payload_length max_frame_size =>
      "error payload of " +:+ show payload_length +:+
      " bytes exceeds a single frame with configured max size of " +:+ show max_frame_size +:+ ")"
  end.

(** ** The IO layer *)

Definition QueuedItem_fmt {Permit} (self : QueuedItem Permit) : string :=
  match self with
  | QRequest channel io_id payload _ =>
      "Request { channel: " +:+ ChannelId_fmt channel +:+ ", io_id: " +:+ IoId_fmt io_id +:+
      fmt_payload "payload" payload +:+ " }"
  | QRequestCancellation io_id => "RequestCancellation { io_id: " +:+ IoId_fmt io_id +:+ " }"
  | QResponse channel id payload =>
      "Response { channel: " +:+ ChannelId_fmt channel +:+ ", id: " +:+ Id_fmt id +:+
      fmt_payload "payload" payload +:+ " }"
  | QResponseCancellation channel id =>
      "ResponseCancellation { channel: " +:+ ChannelId_fmt channel +:+ ", id: " +:+ Id_fmt id +:+ " }"
  | QError channel id payload =>
      "Error { channel: " +:+ ChannelId_fmt channel +:+ ", id: " +:+ Id_fmt id +:+
      ", payload: " +:+ PayloadFormat_fmt payload +:+ " }"
  end.

(** The two errors with a header, after their own beginning. *)
Definition fmt_error_header (header : Header) (data : option bytes) : exec string :=
  k ← error_kind header;
  mret (" [channel " +:+ ChannelId_fmt (Header_channel header) +:+ "/id " +:+ Id_fmt (Header_id header) +:+
        "]: " +:+ ErrorKind_fmt k +:+ " (payload: " +:+
        show (match data with Some b => len b | None => 0 end) +:+ " bytes)").
Definition CoreError_fmt {IoError} (self : CoreError IoError) : exec string :=
  match self with
  | ReadFailed _ => mret "read failed"
  | WriteFailed _ => mret "write failed"
  | ErrorWriteTimeout => mret "peer did not accept error in timely manner"
  | RemoteReportedError header data =>
      s ← fmt_error_header header data; mret ("remote peer sent error" +:+ s)
  | RemoteProtocolViolation header data =>
      s ← fmt_error_header header data; mret ("error sent to peer" +:+ s)
  | LocalProtocolViolationError _ => mret "local protocol violation"
  | InternalError what => mret ("internal consistency error: " +:+ what)
  end.

Definition IoEvent_fmt (self : IoEvent) : string :=
  match self with
  | EvNewRequest channel id payload =>
      "NewRequest { channel: " +:+ ChannelId_fmt channel +:+ ", id: " +:+ Id_fmt id +:+
      fmt_payload "payload" payload +:+ " }"
  | EvRequestCancelled channel id =>
      "RequestCancelled { channel: " +:+ ChannelId_fmt channel +:+ ", id: " +:+ Id_fmt id +:+ " }"
  | EvReceivedResponse io_id payload =>
      "ReceivedResponse { io_id: " +:+ IoId_fmt io_id +:+ fmt_payload "payload" payload +:+ " }"
  | EvReceivedCancellationResponse io_id =>
      "ReceivedCancellationResponse { io_id: " +:+ IoId_fmt io_id +:+ " }"
  end.

Definition EnqueueError_fmt (self : EnqueueError) : string :=
  match self with EnqueueClosed _ => "IO closed" | BufferLimitHit _ => "request limit hit" end.
Definition RequestTicket_fmt {Permit} (self : RequestTicket Permit) : string :=
  "RequestTicket { channel: " +:+ ChannelId_fmt (rt_channel self) +:+ ", io_id: " +:+
  IoId_fmt (rt_io_id self) +:+ " }".

(** ** The RPC layer *)

(** [{:?}] of a [Duration]: the largest unit that fits, without trailing zeros. *)
Fixpoint fmt_fraction (fuel : nat) (fractional divisor : Z) : string :=
  match fuel with
  | O => ""
  | S fuel =>
      if 0 <? fractional then
        show (fractional / divisor) +:+ fmt_fraction fuel (fractional mod divisor) (divisor / 10)
      else ""
  end.
Definition fmt_decimal (integer fractional divisor : Z) (suffix : string) : string :=
  show integer +:+ (if 0 <? fractional then "." +:+ fmt_fraction 9 fractional divisor else "") +:+ suffix.
Definition Duration_debug (nanos : Z) : string :=
  if 1000000000 <=? nanos then fmt_decimal (nanos / 1000000000) (nanos mod 1000000000) 100000000 "s"
  else if 1000000 <=? nanos then fmt_decimal (nanos / 1000000) (nanos mod 1000000) 100000 "ms"
  else if 1000 <=? nanos then fmt_decimal (nanos / 1000) (nanos mod 1000) 100 "µs"
  else fmt_decimal nanos 0 1 "ns".

Definition RequestError_fmt (self : RequestError) : string :=
  match self with
  | RemoteClosed _ => "remote closed connection before request could be sent"
  | Shutdown => "never received reply before remote closed connection"
  | TimedOut => "request timed out"
  | TimeoutOverflow timeout =>
      "requested timeout (" +:+ Duration_debug timeout +:+ ") would cause clock overflow"
  | RemoteCancelled => "remote cancelled our request"
  | Cancelled => "request cancelled locally"
  | ApiError _ => "API misused or other internal error"
  end.
Definition RpcServerError_fmt {IoError} (self : RpcServerError IoError) : exec string :=
  match self with
  | RpcCoreError e => CoreError_fmt e
  | FatalTimeout count => mret ("connection error after " +:+ show count +:+ " request(s) timed out")
  end.

(** The text of an instant is up to the platform.  The end is written by [write_str], which
    leaves the braces as they are. *)
Definition NewOutgoingRequest_fmt {Permit} (instant_debug : Z → string)
    (self : NewOutgoingRequest Permit) : string :=
  "NewOutgoingRequest { ticket: " +:+ RequestTicket_fmt (ticket self) +:+
  match expires self with Some expires => ", expires: " +:+ instant_debug expires | None => "" end +:+
  fmt_payload "payload" (no_payload self) +:+ " }}".

Definition IncomingRequest_fmt {Snd} (self : IncomingRequest Snd) : string :=
  "IncomingRequest { channel: " +:+ ChannelId_fmt (ir_channel self) +:+ ", id: " +:+
  Id_fmt (ir_id self) +:+ ", payload: " +:+
  match ir_payload self with Some payload => show (len payload) +:+ " bytes }" | None => "none>" end.

(** Some texts. *)
Example header_text : Header_fmt (Header_new KRequestPl (ChannelId_new 3) (Id_new 513)) = Done "[RequestPl c:3 id:513]".
Proof. by vm_compute. Qed.
Example payload_text : PayloadFormat_fmt (seqZ 8 18) =
  "08 09 0a 0b 0c 0d 0e 0f 10 11 12 13 14 15 16 17 ... (18 bytes)".
Proof. by vm_compute. Qed.
Example duration_text : Duration_debug 2050000000 = "2.05s".
Proof. by vm_compute. Qed.

Example payload_texts :
  PayloadFormat_fmt [] = "(0 bytes)" ∧ PayloadFormat_fmt [104; 101; 108; 108; 111] = "68 65 6c 6c 6f (5 bytes)".
Proof. by vm_compute. Qed.

(** Texts with a bracket too many or too few: an incoming request without a payload ends in
    another bracket than one with a payload; the brace of an outgoing request is doubled; and
    a message ends in a parenthesis that is not opened. *)
Example unbalanced_texts :
  IncomingRequest_fmt (mkIncomingRequest (Snd := ()) (ChannelId_new 1) (Id_new 2) None None)
    = "IncomingRequest { channel: 1, id: 2, payload: none>" ∧
  IncomingRequest_fmt (mkIncomingRequest (Snd := ()) (ChannelId_new 1) (Id_new 2) (Some [7]) None)
    = "IncomingRequest { channel: 1, id: 2, payload: 1 bytes }" ∧
  NewOutgoingRequest_fmt (λ _, "") (mkNewOutgoingRequest (mkRequestTicket (ChannelId_new 1) () (mkIoId 3)) 0 None None)
    = "NewOutgoingRequest { ticket: RequestTicket { channel: 1, io_id: 3 } }}".
Proof. by vm_compute. Qed.
Example error_payload_text :
  LocalProtocolViolation_fmt (ErrorPayloadIsMultiFrame 20 10)
  = "error payload of 20 bytes exceeds a single frame with configured max size of 10)".
Proof. by vm_compute. Qed.

(** ** Numbers and separators *)

Fixpoint chars_all (P : Ascii.ascii → bool) (s : string) : bool :=
  match s with EmptyString => true | String a s => P a && chars_all P s end.
Definition not_char (c a : Ascii.ascii) : bool := negb (Ascii.eqb a c).
Definition digit (a : Ascii.ascii) : bool :=
  let n := Ascii.nat_of_ascii a in (48 <=? n)%nat && (n <=? 57)%nat.

Lemma chars_all_app P s t : chars_all P (s +:+ t) = chars_all P s && chars_all P t.
Proof.
  induction s as [|a s IH]; [done|]. change (P a && chars_all P (s +:+ t) = P a && chars_all P s && chars_all P t).
  by rewrite IH, andb_assoc.
Qed.
Lemma chars_all_impl (P Q : Ascii.ascii → bool) s : (∀ a, P a = true → Q a = true) →
  chars_all P s = true → chars_all Q s = true.
Proof.
  intros HPQ. induction s as [|a s IH]; cbn; [done|]. intros [Ha Hs]%andb_prop. by rewrite (HPQ a Ha), IH.
Qed.

(** The text before the first separator is determined, and so is the text behind it. *)
Lemma separated c s s' r r' : chars_all (not_char c) s = true → chars_all (not_char c) s' = true →
  s +:+ String c r = s' +:+ String c r' → s = s' ∧ r = r'.
Proof.
  revert s'. induction s as [|a s IH]; intros [|a' s'] Hs Hs' Heq; cbn in *.
  - injection Heq as ->. done.
  - injection Heq as -> _. unfold not_char in Hs'. by rewrite Ascii.eqb_refl in Hs'.
  - injection Heq as -> _. unfold not_char in Hs. by rewrite Ascii.eqb_refl in Hs.
  - apply andb_prop in Hs as [_ Hs]. apply andb_prop in Hs' as [_ Hs']. injection Heq as -> Heq.
    destruct (IH s' Hs Hs' Heq) as [-> ->]. done.
Qed.

Lemma pretty_N_char_digit d : digit (pretty_N_char d) = true.
Proof. unfold pretty_N_char. by repeat case_match. Qed.
Lemma pretty_N_go_digits x s : chars_all digit s = true → chars_all digit (pretty_N_go x s) = true.
Proof.
  revert s. induction (N.lt_wf_0 x) as [x _ IH]; intros s Hs.
  destruct (decide (0 < x)%N) as [Hx|Hx].
  - rewrite pretty_N_go_step by done. apply IH; [by apply N.div_lt|]. cbn [chars_all]. by rewrite pretty_N_char_digit.
  - assert (x = 0%N) as -> by lia. by rewrite pretty_N_go_0.
Qed.
Lemma pretty_N_go_length n : ∀ x s, (x < 10 ^ N.of_nat n)%N →
  (String.length (pretty_N_go x s) ≤ n + String.length s)%nat.
Proof.
  induction n as [|n IH]; intros x s Hx.
  - assert (x = 0%N) as -> by (cbn in Hx; lia). by rewrite pretty_N_go_0.
  - destruct (decide (0 < x)%N) as [Hp|Hp]; [|assert (x = 0%N) as -> by lia; rewrite pretty_N_go_0; lia].
    rewrite pretty_N_go_step by done.
    etransitivity; [apply IH|cbn [String.length]; lia].
    apply N.Div0.div_lt_upper_bound. rewrite Nat2N.inj_succ, N.pow_succ_r' in Hx. lia.
Qed.

Lemma show_digits x : 0 ≤ x → chars_all digit (show x) = true.
Proof.
  intros Hx. unfold show, pretty, pretty_Z. destruct x as [|x|x]; [done| |lia].
  unfold pretty, pretty_positive, pretty, pretty_N. case_decide; [done|]. by apply pretty_N_go_digits.
Qed.
Lemma show_length n x : 0 ≤ x < 10 ^ Z.of_nat n → (0 < n)%nat → (String.length (show x) ≤ n)%nat.
Proof.
  intros Hx Hn. unfold show, pretty, pretty_Z. destruct x as [|x|x]; [cbn; lia| |lia].
  unfold pretty, pretty_positive, pretty, pretty_N. case_decide; [cbn; lia|].
  pose proof (pretty_N_go_length n (N.pos x) ""%string) as Hl. cbn [String.length] in Hl.
  rewrite Nat.add_0_r in Hl. apply Hl. apply N2Z.inj_lt. rewrite N2Z.inj_pow, nat_N_Z. lia.
Qed.
Lemma show_inj x y : show x = show y → x = y.
Proof. apply pretty_Z_inj. Qed.

Lemma length_append s t : String.length (s +:+ t) = (String.length s + String.length t)%nat.
Proof. induction s as [|a s IH]; [done|]. change (S (String.length (s +:+ t)) = S (String.length s) + String.length t)%nat. lia. Qed.

(** ** Headers *)

(** The first word of a header's text. *)
Definition kind_text (k : Kind + ErrorKind) : string :=
  match k with inl k => Kind_debug k | inr k => "err:" +:+ ErrorKind_debug k end.
Definition header_of (k : Kind + ErrorKind) (ch : ChannelId) (id : Id) : Header :=
  match k with inl k => Header_new k ch id | inr k => Header_new_error k ch id end.

Lemma Header_wf_of h : Header_wf h → ∃ k ch id, h = header_of k ch id ∧ ChannelId_wf ch ∧ Id_wf id.
Proof. intros [(k & ch & id & -> & H)|(k & ch & id & -> & H)]; [by exists (inl k), ch, id|by exists (inr k), ch, id]. Qed.

Lemma Header_fmt_of k ch id : Id_wf id → Header_fmt (header_of k ch id) =
  Done ("[" +:+ kind_text k +:+ " c:" +:+ ChannelId_fmt ch +:+ " id:" +:+ Id_fmt id +:+ "]").
Proof.
  intros Hid. unfold Header_fmt, Header_debug. destruct k as [k|k]; cbn [header_of kind_text].
  - rewrite is_error_new, kind_new, bind_Done, Header_channel_new, Header_id_new by done. done.
  - rewrite is_error_new_error, error_kind_new_error, bind_Done, Header_channel_new_error, Header_id_new_error by done.
    by destruct k.
Qed.
Lemma kind_text_spaceless k : chars_all (not_char " "%char) (kind_text k) = true.
Proof. by destruct k as [[]|[]]. Qed.
Lemma kind_text_inj k k' : kind_text k = kind_text k' → k = k'.
Proof. by destruct k as [[]|[]], k' as [[]|[]]. Qed.
Lemma show_without c x : 0 ≤ x → digit c = false → chars_all (not_char c) (show x) = true.
Proof.
  intros Hx Hc. eapply chars_all_impl; [|by apply show_digits]. intros a Ha. unfold not_char.
  destruct (Ascii.eqb_spec a c) as [->|]; [congruence|done].
Qed.

(** ** Properties *)

(** C40: a header in the log identifies the frame: printing a well-formed header never panics, and two
    well-formed headers with the same text are the same header. *)
Theorem header_text_identifies h h' : Header_wf h → Header_wf h' →
  ∃ s s', Header_fmt h = Done s ∧ Header_fmt h' = Done s' ∧ (s = s' ↔ h = h').
Proof.
  intros (k & ch & id & -> & Hch & Hid)%Header_wf_of (k' & ch' & id' & -> & Hch' & Hid')%Header_wf_of.
  pose proof (Header_fmt_of k ch id Hid) as Hs. pose proof (Header_fmt_of k' ch' id' Hid') as Hs'.
  do 2 eexists. split; [exact Hs|]. split; [exact Hs'|]. split.
  - intros [= Heq]. apply (separated " "%char) in Heq as [Hk Heq]; [|apply kind_text_spaceless..].
    apply kind_text_inj in Hk as ->. injection Heq as Heq. destruct Hch as [Hch _], Hch' as [Hch' _], Hid as [Hid _], Hid' as [Hid' _].
    apply (separated " "%char) in Heq as [Hc Heq]; [|by apply show_without..]. injection Heq as Heq.
    apply (separated "]"%char) in Heq as [Hi _]; [|by apply show_without..].
    apply show_inj in Hc, Hi. destruct ch, ch', id, id'. cbn in *. by subst.
  - intros Heq. rewrite Heq in Hs. congruence.
Qed.
Lemma header_text_identifies_witness :
  ∃ s s', Header_fmt (Header_new KResponse (ChannelId_new 1) (Id_new 12)) = Done s ∧
    Header_fmt (Header_new KResponse (ChannelId_new 11) (Id_new 2)) = Done s' ∧
    (s = s' ↔ Header_new KResponse (ChannelId_new 1) (Id_new 12) = Header_new KResponse (ChannelId_new 11) (Id_new 2)).
Proof.
  apply header_text_identifies; left; do 3 eexists; (split; [reflexivity|]); repeat split; vm_compute; discriminate.
Defined.

(** Two digits for a byte. *)
Lemma payload_bytes_length l : String.length (String.concat "" (map (λ byte, hex2 byte +:+ " ") l)) = (3 * length l)%nat.
Proof.
  induction l as [|b [|b' l] IH]; [done|done|].
  change (String.length ((hex2 b +:+ " ") +:+ "" +:+ String.concat "" (map (λ byte, hex2 byte +:+ " ") (b' :: l))) =
    3 * S (length (b' :: l)))%nat.
  rewrite !length_append, IH. cbn [String.length hex2 length]. lia.
Qed.

(** What is logged of a payload is bounded, however large it is: at most 80 characters, which
    depend only on its first 16 bytes and its length. *)
Lemma payload_text_bounded raw raw' : usize (len raw) →
  (String.length (PayloadFormat_fmt raw) ≤ 80)%nat ∧
  (take 16 raw = take 16 raw' → len raw = len raw' → PayloadFormat_fmt raw = PayloadFormat_fmt raw').
Proof.
  intros Hu. split.
  - unfold PayloadFormat_fmt. rewrite !length_append, payload_bytes_length, length_take.
    pose proof (show_length 20 (len raw) ltac:(ulia) ltac:(lia)). cbn [String.length].
    destruct (16 <? len raw); cbn [String.length]; lia.
  - intros Ht Hl. unfold PayloadFormat_fmt. rewrite <- Hl. do 2 f_equal.
    assert (∀ l : bytes, take (Z.to_nat (Z.min (len l) 16)) l = take 16 l) as Hmin.
    { intros l. destruct (Z.le_ge_cases (len l) 16) as [H|H].
      - rewrite Z.min_l by done. rewrite take_ge_len by done. symmetry. apply take_ge. unfold len in H. lia.
      - by rewrite Z.min_r. }
    rewrite Hmin, Hl, Hmin. by rewrite Ht.
Qed.
