(* ===== verification/Instances.v ===== *)
(** * Concrete instances of the interfaces

    What the crates below provide, in the simplest form that satisfies the laws: the theorems
    stated over the interfaces are evaluated with these. *)
From stdpp Require Import strings.
From S2P Require Import Prelude Lib Varint Header FrameSize OutgoingMessage Multiframe Protocol Io Rpc.
From stdpp Require Import options.

(** ** A bidirectional map: the list of its pairs *)
Section bimap.
Context {L R : Type} `{EqDecision L} `{EqDecision R}.

Definition find_left (m : list (L * R)) (l : L) : option R :=
  snd <$> head (filter (λ p, p.1 = l) m).
Definition find_right (m : list (L * R)) (r : R) : option (L * R) :=
  head (filter (λ p, p.2 = r) m).
#[export] Instance list_bimap : BiMap L R (list (L * R)) := {
  bm_new := [];
  bm_insert m l r := (l, r) :: filter (λ p, p.1 ≠ l ∧ p.2 ≠ r) m;
  bm_get_by_left := find_left;
  bm_remove_by_right m r := (find_right m r, filter (λ p, p.2 ≠ r) m);
  bm_clear _ := [];
}.

Lemma NoDup_fmap_filter {A B} (f : A → B) (P : A → Prop) `{∀ x, Decision (P x)} (m : list A) :
  NoDup (f <$> m) → NoDup (f <$> filter P m).
Proof.
  induction m as [|x m IH]; [done|]. rewrite fmap_cons, NoDup_cons. intros [Hn Hm].
  rewrite filter_cons. case_decide; [|auto]. rewrite fmap_cons. apply NoDup_cons. split; [|auto].
  intros (y & Hy & Hin)%list_elem_of_fmap. apply list_elem_of_filter in Hin as [_ Hin].
  apply Hn, list_elem_of_fmap. by exists y.
Qed.
Lemma list_bimap_wf_filter (m : list (L * R)) (P : L * R → Prop) `{∀ x, Decision (P x)} :
  NoDup m.*1 ∧ NoDup m.*2 → NoDup (filter P m).*1 ∧ NoDup (filter P m).*2.
Proof. intros [H1 H2]. by split; apply NoDup_fmap_filter. Qed.
Lemma NoDup_fst_inj {A B} (m : list (A * B)) a b b' :
  NoDup m.*1 → (a, b) ∈ m → (a, b') ∈ m → b = b'.
Proof.
  induction m as [|[x y] m IH]; [set_solver|]. cbn. rewrite NoDup_cons. intros [Hn Hm] Hb Hb'.
  assert (∀ c, (x, c) ∉ m) as Hx by (intros c Hc; apply Hn, list_elem_of_fmap; by exists (x, c)).
  apply elem_of_cons in Hb as [Hb|Hb], Hb' as [Hb'|Hb']; simplify_eq; try done;
    [by apply Hx in Hb'|by apply Hx in Hb|by apply IH].
Qed.
Lemma NoDup_snd_inj {A B} (m : list (A * B)) a a' b :
  NoDup m.*2 → (a, b) ∈ m → (a', b) ∈ m → a = a'.
Proof.
  induction m as [|[x y] m IH]; [set_solver|]. cbn. rewrite NoDup_cons. intros [Hn Hm] Hb Hb'.
  assert (∀ c, (c, y) ∉ m) as Hx by (intros c Hc; apply Hn, list_elem_of_fmap; by exists (c, y)).
  apply elem_of_cons in Hb as [Hb|Hb], Hb' as [Hb'|Hb']; simplify_eq; try done;
    [by apply Hx in Hb'|by apply Hx in Hb|by apply IH].
Qed.
Lemma head_filter_Some {A} (P : A → Prop) `{∀ x, Decision (P x)} (m : list A) x :
  head (filter P m) = Some x → P x ∧ x ∈ m.
Proof.
  intros Hh. destruct (filter P m) as [|y k] eqn:E; [done|]. injection Hh as ->.
  rewrite <- list_elem_of_filter, E. apply elem_of_cons. by left.
Qed.
Lemma head_filter_None {A} (P : A → Prop) `{∀ x, Decision (P x)} (m : list A) x :
  head (filter P m) = None → x ∈ m → P x → False.
Proof.
  intros Hh Hx HP. destruct (filter P m) as [|y k] eqn:E; [|done].
  assert (x ∈ filter P m) as Hin by by apply list_elem_of_filter. rewrite E in Hin. set_solver.
Qed.
Lemma find_left_spec (m : list (L * R)) l r : NoDup m.*1 → find_left m l = Some r ↔ (l, r) ∈ m.
Proof.
  intros Hm. unfold find_left. destruct (head _) as [[l' r']|] eqn:E; cbn.
  - apply head_filter_Some in E as [Hl Hin]. cbn in Hl. subst l'. split; [by intros [= ->]|].
    intros Hr. f_equal. by eapply NoDup_fst_inj.
  - split; [done|]. intros Hin. exfalso. by eapply (head_filter_None _ _ (l, r)).
Qed.
Lemma find_right_spec (m : list (L * R)) r l r' : NoDup m.*2 →
  find_right m r = Some (l, r') ↔ r' = r ∧ (l, r) ∈ m.
Proof.
  intros Hm. unfold find_right. destruct (head _) as [[l' r'']|] eqn:E; cbn.
  - apply head_filter_Some in E as [Hr Hin]. cbn in Hr. subst r''. split; [by intros [= -> ->]|].
    intros [-> Hl]. f_equal. f_equal. by eapply NoDup_snd_inj.
  - split; [done|]. intros [-> Hin]. exfalso. by eapply (head_filter_None _ _ (l, r)).
Qed.

#[export, program] Instance list_bimap_laws : BiMapLaws L R (list (L * R)) := {
  bm_wf m := NoDup m.*1 ∧ NoDup m.*2;
  bm_rel m l r := (l, r) ∈ m;
}.
Next Obligation. intros m l r r' [H1 _]. by apply NoDup_fst_inj. Qed.
Next Obligation. intros m l l' r [_ H2]. by apply NoDup_snd_inj. Qed.
Next Obligation. split; apply NoDup_nil_2. Qed.
Next Obligation. intros l r. apply not_elem_of_nil. Qed.
Next Obligation.
  intros m l r Hm. cbn. pose proof (list_bimap_wf_filter m (λ p, p.1 ≠ l ∧ p.2 ≠ r) Hm) as [H1 H2].
  split; apply NoDup_cons; (split; [|done]); intros (p & -> & Hp)%list_elem_of_fmap;
    apply list_elem_of_filter in Hp; tauto.
Qed.
Next Obligation.
  intros m l r l' r' _. cbn. rewrite elem_of_cons, list_elem_of_filter. cbn. split.
  - intros [[= -> ->]|[[? ?] ?]]; [by left|by right].
  - intros [[-> ->]|(? & ? & ?)]; [by left|by right].
Qed.
Next Obligation. intros m l r [H1 _]. by apply find_left_spec. Qed.
Next Obligation. intros m r Hm. by apply list_bimap_wf_filter. Qed.
Next Obligation. intros m r l' r' _. cbn. by rewrite list_elem_of_filter. Qed.
Next Obligation. intros m r l r' [_ H2]. by apply find_right_spec. Qed.
Next Obligation. split; apply NoDup_nil_2. Qed.
Next Obligation. intros m l r. apply not_elem_of_nil. Qed.
End bimap.

(** ** An unbounded queue: its items, and whether the receiver closed it *)
Record ListQueue (Item : Type) := mkListQueue { lq_items : list Item; lq_closed : bool }.
Arguments mkListQueue {Item}.
Arguments lq_items {Item}.
Arguments lq_closed {Item}.
Section queue.
Context {Item : Type}.
#[export] Instance list_sender : Sender (ListQueue Item) Item := {
  send s i := if lq_closed s then (Err i, s) else (Ok (), mkListQueue (lq_items s ++ [i]) false);
}.
#[export, program] Instance list_sender_laws : SenderLaws (ListQueue Item) Item := {
  queued := lq_items;
  closed := lq_closed;
}.
Next Obligation. intros s i H. unfold send, list_sender. by rewrite H. Qed.
Next Obligation. intros s i H. unfold send, list_sender. by rewrite H. Qed.
End queue.

(** ** A semaphore: the permits left *)
#[export] Instance counting_semaphore : Semaphore Z () := {
  sem_new n := n;
  try_acquire_owned n := if 0 <? n then (Ok (), n - 1) else (Err NoPermits, n);
  acquire_owned n := if 0 <? n then (Some (Ok ()), n - 1) else (None, n);
}.

(** ** A cell written once, and a notification *)
Section cell.
Context {V : Type}.
#[export] Instance option_cell : OnceCell (option V) V := {
  cell_new := None;
  cell_set c v := match c with None => (Ok (), Some v) | Some _ => (Err v, c) end;
  cell_get c := c;
}.
#[export, program] Instance option_cell_laws : OnceCellLaws (option V) V := {}.
Next Obligation. done. Qed.
Next Obligation. intros c v. cbn. by intros ->. Qed.
Next Obligation. intros c v w. cbn. by intros ->. Qed.
End cell.

#[export] Instance bool_notify : Notify bool := {
  notify_new := false;
  notify_one _ := true;
  notified n := if n then Some false else None;
}.
#[export, program] Instance bool_notify_laws : NotifyLaws bool := {}.
Next Obligation. done. Qed.
Next Obligation. done. Qed.
