(* ===== verification/IoSafe.v ===== *)
(** * The event loop never panics

    What holds of a core between the operations of its loop, that each of them keeps it, and
    that [next_event] therefore runs without a panic whatever the peer sends, the transport does
    and the local callers queue. *)
From stdpp Require Import strings.
From S2P Require Import Prelude Lib Varint Header FrameSize OutgoingMessage WireFormat ByteIter Multiframe.
From S2P Require Import MultiframeSpec Protocol ProtocolInv ProcessIncoming ProtocolOps Answers Io Instances.
From stdpp Require Import options.

(** ** Channels *)

Lemma same_config_len p p' : same_config p p' → len (channels p') = len (channels p).
Proof. intros [_ Hc%(f_equal length)]. rewrite !length_map in Hc. unfold len. lia. Qed.
Lemma array_get_lt {A} (l : list A) i : 0 ≤ i < len l → ∃ x, array_get l i = Done x ∧ l !! Z.to_nat i = Some x.
Proof.
  intros Hi. destruct (lookup_lt_is_Some_2 l (Z.to_nat i)) as [x Hx]; [unfold len in Hi; lia|].
  exists x. split; [apply array_get_Done; [lia|done]|done].
Qed.
Lemma len_insert {A} (l : list A) i x : len (<[i:=x]> l) = len l.
Proof. unfold len. by rewrite length_insert. Qed.

(** What the protocol's operations leave behind: the invariant and the configuration. *)
Definition protocol_step (p p' : JulietProtocol) : Prop := protocol_wf p' ∧ same_config p p'.
Lemma protocol_step_refl p : protocol_wf p → protocol_step p p.
Proof. by split. Qed.
Lemma protocol_step_put p ch c c' : protocol_wf p → channels p !! Z.to_nat (chan_raw ch) = Some c →
  channel_wf c' → config c' = config c → protocol_step p (put_channel p ch c').
Proof. intros. split; [by apply put_channel_wf|by eapply put_channel_same_config]. Qed.

Lemma create_request_step p ch payload : protocol_wf p → ChannelId_wf ch →
  ∃ r p', create_request p ch payload = Done (r, p') ∧ protocol_step p p' ∧
    ∀ msg, r = Ok msg → chan_raw ch < len (channels p) ∧ ∃ id, msg = request_message ch id payload.
Proof.
  intros Hp Hch. pose proof (create_request_spec p ch payload Hp Hch) as Hs.
  destruct (channels p !! Z.to_nat (chan_raw ch)) as [c|] eqn:Hc.
  2:{ rewrite Hs. do 2 eexists. split; [done|]. split; [by apply protocol_step_refl|done]. }
  destruct (exceeds _ payload).
  { rewrite Hs. do 2 eexists. split; [done|]. split; [by apply protocol_step_refl|done]. }
  destruct (Channel_allowed_to_send_request c) eqn:Hallow.
  - destruct Hs as (id & Hs & Hn & Hid). rewrite Hs. do 2 eexists. split; [done|].
    pose proof (channel_wf_lookup _ _ _ Hp Hc) as Hwf.
    destruct (with_outgoing_wf c id Hwf Hid Hallow) as [Hwf' Hcfg].
    split; [by eapply protocol_step_put|]. intros msg [= <-]. split; [|by exists id].
    apply lookup_lt_Some in Hc. unfold len. destruct Hch. lia.
  - rewrite Hs. do 2 eexists. split; [done|]. split; [by apply protocol_step_refl|done].
Qed.
Lemma create_response_step p ch id payload : protocol_wf p → ChannelId_wf ch →
  ∃ r p', create_response p ch id payload = Done (r, p') ∧ protocol_step p p' ∧
    ∀ msg, r = Ok (Some msg) → chan_raw ch < len (channels p) ∧ msg = response_message ch id payload.
Proof.
  intros Hp Hch. rewrite create_response_spec by done.
  destruct (channels p !! Z.to_nat (chan_raw ch)) as [c|] eqn:Hc.
  2:{ do 2 eexists. split; [done|]. split; [by apply protocol_step_refl|done]. }
  pose proof (channel_wf_lookup _ _ _ Hp Hc) as Hwf.
  destruct (set_incoming_remove_wf c id Hwf) as [Hwf' Hcfg].
  do 2 eexists. split; [reflexivity|]. split; [by eapply protocol_step_put|].
  intros msg Hm. destruct (negb _); [done|]. destruct (exceeds _ _); [done|]. injection Hm as <-.
  split; [|done]. apply lookup_lt_Some in Hc. unfold len. destruct Hch. lia.
Qed.
Lemma cancel_request_step p ch id : ChannelId_wf ch → ∃ r, cancel_request p ch id = Done (r, p) ∧
  ∀ msg, r = Ok (Some msg) → chan_raw ch < len (channels p) ∧ msg = create_unchecked_request_cancellation ch id.
Proof.
  intros Hch. rewrite cancel_request_spec by done.
  destruct (channels p !! Z.to_nat (chan_raw ch)) as [c|] eqn:Hc; eexists; (split; [reflexivity|]); [|done].
  intros msg Hm. case_bool_decide; [|done]. injection Hm as <-.
  split; [|done]. apply lookup_lt_Some in Hc. unfold len. destruct Hch. lia.
Qed.
Lemma cancel_response_step p ch id : protocol_wf p → ChannelId_wf ch →
  ∃ r p', cancel_response p ch id = Done (r, p') ∧ protocol_step p p' ∧
  ∀ msg, r = Ok (Some msg) → chan_raw ch < len (channels p) ∧ msg = create_unchecked_response_cancellation ch id.
Proof.
  intros Hp Hch. rewrite cancel_response_spec by done.
  destruct (channels p !! Z.to_nat (chan_raw ch)) as [c|] eqn:Hc.
  2:{ do 2 eexists. split; [done|]. split; [by apply protocol_step_refl|done]. }
  pose proof (channel_wf_lookup _ _ _ Hp Hc) as Hwf.
  destruct (set_incoming_remove_wf c id Hwf) as [Hwf' Hcfg].
  do 2 eexists. split; [reflexivity|]. split; [by eapply protocol_step_put|].
  intros msg Hm. case_bool_decide; [|done]. injection Hm as <-.
  split; [|done]. apply lookup_lt_Some in Hc. unfold len. destruct Hch. lia.
Qed.
Lemma process_incoming_step p buffer : protocol_wf p → Forall u8 buffer →
  ∃ o p' rest, process_incoming p buffer = Done (o, (p', rest)) ∧ protocol_step p p' ∧ Forall u8 rest ∧
    len rest ≤ len buffer ∧
    match o with
    | Incomplete n => 0 < n ≤ u32_max
    | Fatal e => error_message e
    | Success _ => True
    end.
Proof.
  intros Hp Hb. destruct (process_incoming_ok p buffer Hp Hb) as (o & p' & rest & consumed & Ho & Hp' & Hc & -> & Hm).
  exists o, p', rest. split; [done|]. split; [done|]. apply Forall_app in Hb as [_ Hb]. split; [done|].
  rewrite len_app. pose proof (len_nonneg consumed). split; [lia|].
  pose proof (pw_mfs p Hp) as [_ ?]. destruct o as [n|e|c]; [destruct Hm; lia|by destruct Hm|done].
Qed.

(** ** What is to be sent *)

(** The header of a message to a channel there is. *)
Definition header_ok (n : Z) (h : Header) : Prop := 0 ≤ chan_raw (Header_channel h) < n.
Definition iter_ok (n : Z) (it : FrameIter) : Prop :=
  header_ok n (om_header (fi_msg it)) ∧
  match om_payload (fi_msg it) with
  | Some pl => u32 (len pl) ∧ 0 ≤ bytes_processed it ≤ len pl
  | None => True
  end.

Lemma header_ok_new n k ch id : ChannelId_wf ch → chan_raw ch < n → header_ok n (Header_new k ch id).
Proof. intros [H _] Hlt. unfold header_ok. rewrite Header_channel_new. done. Qed.

Lemma frames_ok n msg : header_ok n (om_header msg) → payload_wf (om_payload msg) → iter_ok n (frames msg).
Proof.
  intros Hh Hp. split; [done|]. unfold frames. cbn [fi_msg bytes_processed].
  destruct (om_payload msg) as [pl|]; [|done]. split; [done|]. pose proof (len_nonneg pl). lia.
Qed.

Lemma next_owned_ok m n it : MaxFrameSize_wf m → iter_ok n it →
  ∃ f more, next_owned it m = Done (f, more) ∧ OutgoingFrame_wf f ∧
    OutgoingFrame_header f = om_header (fi_msg it) ∧
    match more with Some it' => iter_ok n it' ∧ fi_msg it' = fi_msg it | None => True end.
Proof.
  intros Hm [Hh Hp]. destruct it as [[h [pl|]] b]; cbn [fi_msg om_header om_payload bytes_processed] in *.
  - destruct Hp as [Hu Hb]. pose proof (MaxFrameSize_wf_bounds m Hm). pose proof (varint_bytes_len (len pl)).
    destruct (decide (b = 0)) as [->|Hne].
    + pose proof (next_owned_first m Hm h pl Hu) as Hf. cbv zeta in Hf. unfold OutgoingMessage_new in Hf.
      rewrite Hf. do 2 eexists. split; [reflexivity|]. split; [by apply frame_wf_first|]. split; [done|].
      destruct (Z.ltb_spec (mfs m - 4 - len (varint_bytes (len pl))) (len pl)); [|done].
      split; [|done]. split; [done|]. cbn [fi_msg om_payload bytes_processed]. split; [done|lia].
    + pose proof (next_owned_next m Hm h pl Hu b ltac:(lia)) as Hf. unfold OutgoingMessage_new in Hf.
      rewrite Hf. do 2 eexists. split; [reflexivity|]. split.
      * apply frame_wf_next. unfold len. rewrite length_take, length_drop. unfold len in Hu. ulia.
      * split; [done|]. destruct (Z.ltb_spec (b + (mfs m - 4)) (len pl)); [|done].
        split; [|done]. split; [done|]. cbn [fi_msg om_payload bytes_processed]. split; [done|lia].
  - exists (next_frame h []), None. split; [done|]. split; [|done]. apply frame_wf_next. split; vm_compute; discriminate.
Qed.

(** Items the callers may queue: for a channel that exists - only requests are checked by the
    core itself - and no longer than a length prefix can say. *)
Definition item_ok {Permit} (n : Z) (item : QueuedItem Permit) : Prop :=
  match item with
  | QRequest ch _ payload _ => ChannelId_wf ch ∧ payload_wf payload
  | QRequestCancellation _ => True
  | QResponse ch _ payload => ChannelId_wf ch ∧ chan_raw ch < n ∧ payload_wf payload
  | QResponseCancellation ch _ => ChannelId_wf ch
  | QError ch _ payload => u32 (len payload)
  end.
(** An error frame about to be sent. *)
Definition error_frame (f : OutgoingFrame) : Prop :=
  is_error (OutgoingFrame_header f) = true ∧ ∃ k, error_kind (OutgoingFrame_header f) = Done k.

Lemma custom_error_step p ch id payload : protocol_wf p → u32 (len payload) →
  ∃ r, custom_error p ch id payload = Done r ∧
    ∀ msg, r = Ok msg → msg = OutgoingMessage_new (Header_new_error EOther ch id) (Some payload).
Proof.
  intros Hp Hl. unfold custom_error. rewrite is_multi_frame_Done by (done || apply Hp). rewrite bind_Done.
  destruct (1 <? _); eexists; (split; [reflexivity|]); [done|]. by intros msg [= <-].
Qed.

Lemma OutgoingFrame_advance_preamble f n f' : OutgoingFrame_advance f n = Done f' → fr_preamble f' = fr_preamble f.
Proof. unfold OutgoingFrame_advance. intros Ha. inv_exec. destruct (_ <=? _); inv_exec; by simplify_eq. Qed.

(** ** The invariant of a core *)

Section core.
Context {Permit IoError BM : Type} `{BiMapLaws IoId (ChannelId * Id) BM}.
#[local] Set Default Proof Using "Type*".
Implicit Types (self : IoCore Permit BM) (item : QueuedItem Permit).

Definition channel_count self : Z := len (channels (juliet self)).

Record io_wf self : Prop := {
  iw_juliet : protocol_wf (juliet self);
  iw_buffer : Forall u8 (buffer self);
  iw_pending f : pending_error self = Some f → error_frame f;
  iw_current f is_final : current_frame self = Some (f, is_final) →
    OutgoingFrame_wf f ∧ header_ok (channel_count self) (OutgoingFrame_header f);
  iw_active : len (active_multi_frame self) = channel_count self;
  iw_ready : Forall (iter_ok (channel_count self)) (ready_queue self);
  iw_wait_len : len (wait_queue self) = channel_count self;
  iw_wait : Forall (Forall (item_ok (channel_count self))) (wait_queue self);
  iw_map : bm_wf (request_map self);
  iw_map_ids io ch id : bm_rel (request_map self) io (ch, id) → ChannelId_wf ch;
}.

(** [safe p b m]: run on a core with the configuration of [p] and at most [b] bytes in the
    buffer, [m] does not panic and keeps all that. *)
Definition good (p : JulietProtocol) (b : Z) self : Prop :=
  io_wf self ∧ same_config p (juliet self) ∧ len (buffer self) ≤ b.
Definition safe {R} (p : JulietProtocol) (b : Z) (m : exec (R * IoCore Permit BM)) : Prop :=
  ∃ r self', m = Done (r, self') ∧ good p b self'.

Lemma safe_ret {R} p b (r : R) self : good p b self → safe p b (mret (r, self)).
Proof. intros Hg. by exists r, self. Qed.
Lemma safe_bind {R R'} p b (m : exec (R * IoCore Permit BM)) (f : R * IoCore Permit BM → exec (R' * IoCore Permit BM)) :
  safe p b m → (∀ r self, good p b self → safe p b (f (r, self))) → safe p b (m ≫= f).
Proof. intros (r & self & -> & Hg) Hf. rewrite bind_Done. auto. Qed.
Lemma safe_bind_le {R R'} p b b' (m : exec (R * IoCore Permit BM)) (f : R * IoCore Permit BM → exec (R' * IoCore Permit BM)) :
  safe p b m → (∀ r self, good p b self → safe p b' (f (r, self))) → safe p b' (m ≫= f).
Proof. intros (r & self & -> & Hg) Hf. rewrite bind_Done. auto. Qed.
Lemma good_step p b self p' : good p b self → protocol_step (juliet self) p' → good p b (set_juliet self p').
Proof.
  intros (Hi & Hs & Hb) [Hp' Hs']. pose proof (same_config_len _ _ Hs') as Hn.
  split; [|split; [by eapply same_config_trans|done]].
  destruct Hi as [H1' H2' H3' H4' H5' H6' H7' H8' H9' H10']. unfold channel_count in *.
  constructor; unfold channel_count; cbn [set_juliet juliet buffer pending_error current_frame active_multi_frame ready_queue
    wait_queue request_map]; rewrite ?Hn; done.
Qed.
Lemma good_drop p b self x : good p b self → good p b (drop_permits self x).
Proof. by intros ([] & Hs & Hb). Qed.
Lemma good_ready p b self queue : good p b self → Forall (iter_ok (channel_count self)) queue →
  good p b (set_ready_queue self queue).
Proof. intros ([] & Hs & Hb) Hq. by split. Qed.
Lemma good_push p b self msg : good p b self → header_ok (channel_count self) (om_header msg) →
  payload_wf (om_payload msg) → good p b (push_ready self msg).
Proof.
  intros Hg Hh Hp. apply good_ready; [done|]. apply Forall_app. split; [apply Hg|].
  apply Forall_singleton. by apply frames_ok.
Qed.
Lemma good_map p b self map : good p b self → bm_wf map →
  (∀ io ch id, bm_rel map io (ch, id) → ChannelId_wf ch) → good p b (set_request_map self map).
Proof. intros ([] & Hs & Hb) Hw Hm. by split. Qed.
Lemma good_active p b self a : good p b self → len a = channel_count self → good p b (set_active_multi_frame self a).
Proof. intros ([] & Hs & Hb) Ha. by split. Qed.
Lemma good_wait p b self w : good p b self → len w = channel_count self →
  Forall (Forall (item_ok (channel_count self))) w → good p b (set_wait_queue self w).
Proof. intros ([] & Hs & Hb) Hl Hw. by split. Qed.
Lemma good_current p b self cur : good p b self →
  (∀ f is_final, cur = Some (f, is_final) → OutgoingFrame_wf f ∧ header_ok (channel_count self) (OutgoingFrame_header f)) →
  good p b (set_current_frame self cur).
Proof. intros ([] & Hs & Hb) Hc. by split. Qed.
Lemma good_parse_at p b self n : good p b self → good p b (set_next_parse_at self n).
Proof. by intros ([] & Hs & Hb). Qed.
Lemma good_buffer p b b' self buf : good p b self → Forall u8 buf → len buf ≤ b' → good p b' (set_buffer self buf).
Proof. intros ([] & Hs & Hb) Hu Hl. by split. Qed.
Lemma good_mfs p b self : good p b self → MaxFrameSize_wf (max_frame_size (juliet self)).
Proof. intros [Hi _]. apply Hi. Qed.

(** ** Injecting an error *)

(** The core after an error was injected, with the frame that will be sent. *)
Definition injected self (f : OutgoingFrame) : IoCore Permit BM :=
  mkIoCore (juliet self) [] usize_max (Some f) (error_timeout self) (current_frame self)
    (active_multi_frame self) [] (map (λ _, []) (wait_queue self)) true (bm_clear (request_map self))
    (dropped_permits self ++ concat (map (λ queue, concat (map item_permits queue)) (wait_queue self))).

Lemma inject_error_Done self h payload : MaxFrameSize_wf (max_frame_size (juliet self)) → payload_wf payload →
  ∃ f, inject_error self (OutgoingMessage_new h payload) = Done (injected self f) ∧ OutgoingFrame_header f = h ∧
    frame_bytes f = Header_as_ref h ++ message_body (cut_payload (max_frame_size (juliet self)) payload).
Proof.
  intros Hm Hp. destruct (truncate_single_frame _ h payload Hm Hp) as (Ht & _ & _ & f & Hf & Hh & Hb).
  exists f. split; [|done]. unfold inject_error.
  cbn [close_receiver set_next_parse_at set_buffer set_ready_queue set_request_map drop_permits set_wait_queue
       juliet request_map wait_queue].
  rewrite Ht, bind_Done, Hf, bind_Done. done.
Qed.

Lemma injected_good p b self f : 0 ≤ b → good p b self → error_frame f → good p b (injected self f).
Proof.
  intros Hb0 (Hi & Hs & Hb) Hf. split; [|done].
  destruct Hi as [H1' H2' H3' H4' H5' H6' H7' H8' H9' H10'].
  constructor; unfold channel_count in *; cbn [injected juliet buffer pending_error current_frame active_multi_frame
    ready_queue wait_queue request_map]; try done; try apply Forall_nil_2.
  - by intros f' [= <-].
  - unfold len in *. by rewrite length_map.
  - apply Forall_map, Forall_true. intros; apply Forall_nil_2.
  - by apply bm_clear_wf.
  - intros io ch id Hr. by apply bm_clear_spec in Hr.
Qed.

(** ** The queues *)

Lemma same_count p b self : good p b self → channel_count self = len (channels p).
Proof. intros (_ & Hs & _). by apply same_config_len. Qed.

(** Whether an item may be sent now. *)
Lemma item_should_wait_step p b self item : good p b self → item_ok (channel_count self) item →
  ∃ r, item_should_wait item (juliet self) (active_multi_frame self) = Done r ∧
    ∀ ch, r = Ok (Some ch) → ChannelId_wf ch ∧ chan_raw ch < channel_count self.
Proof.
  intros Hg Hi. pose proof (good_mfs _ _ _ Hg) as Hm. destruct Hg as (Hw & _ & _).
  assert (∀ ch payload, ChannelId_wf ch → chan_raw ch < channel_count self → payload_wf payload →
    ∃ r, (active ← array_get (active_multi_frame self) (ChannelId_get ch);
      match active, payload with
      | Some _, Some payload =>
          multi ← payload_is_multi_frame (max_frame_size (juliet self)) (len payload);
          mret (Ok (if (multi : bool) then Some ch else None))
      | _, _ => mret (Ok None)
      end : exec (result (option ChannelId) LocalProtocolViolation)) = Done r ∧
    ∀ ch', r = Ok (Some ch') → ChannelId_wf ch' ∧ chan_raw ch' < channel_count self) as Hcheck.
  { intros ch payload Hch Hlt Hp. destruct (array_get_lt (active_multi_frame self) (ChannelId_get ch)) as (a & -> & _).
    { rewrite (iw_active _ Hw). destruct Hch. unfold ChannelId_get. lia. }
    rewrite bind_Done. destruct a as [a|], payload as [pl|]; try (eexists; split; [reflexivity|done]).
    cbn in Hp. rewrite payload_is_multi_frame_Done, bind_Done by done. eexists. split; [reflexivity|].
    intros ch' [= Hch']. case_match; [|done]. by injection Hch' as <-. }
  destruct item as [ch io payload permit|io|ch id payload|ch id|ch id payload]; cbn [item_should_wait item_ok] in *;
    try (eexists; split; [reflexivity|done]).
  - destruct Hi as [Hch Hp]. unfold allowed_to_send_request.
    rewrite lookup_channel_Done, lookup_channel_mut_Done by apply Hch. rewrite !bind_Done.
    destruct (channels (juliet self) !! Z.to_nat (chan_raw ch)) as [c|] eqn:Hc; cbn [mret exec_ret mbind exec_bind];
      [|eexists; split; [reflexivity|done]].
    assert (chan_raw ch < channel_count self) as Hlt.
    { apply lookup_lt_Some in Hc. unfold channel_count, len. destruct Hch. lia. }
    destruct (negb _); [|by apply Hcheck]. eexists. split; [reflexivity|]. by intros ch' [= <-].
  - destruct Hi as (Hch & Hlt & Hp). by apply Hcheck.
Qed.

Lemma note_multi_frame_step p b self ch h payload : good p b self → ChannelId_wf ch → chan_raw ch < channel_count self →
  payload_wf payload →
  ∃ self', note_multi_frame self ch (OutgoingMessage_new h payload) = Done self' ∧ good p b self' ∧
    channel_count self' = channel_count self.
Proof.
  intros Hg Hch Hlt Hp. unfold note_multi_frame. rewrite is_multi_frame_Done, bind_Done by (done || by eapply good_mfs).
  destruct (1 <? _); [|by exists self]. assert (len (active_multi_frame self) = channel_count self) as Ha by apply Hg.
  rewrite array_set_Done, bind_Done by (destruct Hch; unfold ChannelId_get; lia).
  eexists. split; [reflexivity|]. split; [|done]. apply good_active; [done|]. by rewrite len_insert.
Qed.

(** Readying a message with a payload that may need several frames. *)
Lemma ready_message_step p b self k ch id payload : good p b self → ChannelId_wf ch → chan_raw ch < len (channels p) →
  payload_wf payload →
  let msg := OutgoingMessage_new (Header_new k ch id) payload in
  ∃ self', note_multi_frame self ch msg = Done self' ∧ good p b (push_ready self' msg).
Proof.
  intros Hg Hch Hlt Hp msg. rewrite <- (same_count _ _ _ Hg) in Hlt.
  destruct (note_multi_frame_step p b self ch (Header_new k ch id) payload) as (s & Hs & Hg' & Hn); [done..|].
  exists s. split; [done|]. apply good_push; [done| |done]. apply header_ok_new; [done|]. by rewrite Hn.
Qed.

Lemma send_to_ready_queue_safe p b self item : 0 ≤ b → good p b self → item_ok (channel_count self) item →
  safe p b (send_to_ready_queue self item).
Proof.
  intros Hb0 Hg Hi. pose proof Hg as (Hw & _ & _). pose proof (iw_juliet _ Hw) as Hp.
  destruct item as [ch io payload permit|io|ch id payload|ch id|ch id payload]; cbn [send_to_ready_queue item_ok] in *.
  - destruct Hi as [Hch Hpl]. destruct (create_request_step (juliet self) ch payload Hp Hch) as (r & p' & -> & Hstep & Hr).
    rewrite bind_Done. pose proof (good_step _ _ _ _ Hg Hstep) as Hg'. destruct r as [e|msg].
    { apply safe_ret. by apply good_drop. }
    destruct (Hr msg eq_refl) as [Hlt [id ->]]. cbv zeta.
    set (s1 := set_request_map _ _).
    assert (good p b s1) as Hg1.
    { apply good_map; [done| |]; pose proof (iw_map _ Hw) as Hbm; cbn [set_juliet request_map].
      - by apply bm_insert_wf.
      - intros io' ch' id' Hrel. apply bm_insert_spec in Hrel; [|done].
        destruct Hrel as [[_ [= -> _]]|(_ & _ & Hrel)]; [done|]. by eapply (iw_map_ids _ Hw). }
    unfold request_message.
    destruct (ready_message_step p b s1 (match payload with Some _ => KRequestPl | None => KRequest end) ch id payload)
      as (s2 & -> & Hg2); [done|done| |done|]. { rewrite <- (same_count _ _ _ Hg). done. }
    rewrite bind_Done. by apply safe_ret, good_drop.
  - destruct (bm_get_by_left (request_map self) io) as [[ch id]|] eqn:Hbm; [|by apply safe_ret].
    apply bm_get_by_left_spec in Hbm; [|apply Hw]. pose proof (iw_map_ids _ Hw _ _ _ Hbm) as Hch.
    destruct (cancel_request_step (juliet self) ch id Hch) as (r & -> & Hr). rewrite bind_Done.
    assert (good p b (set_juliet self (juliet self))) as Hg' by by apply good_step, protocol_step_refl.
    destruct r as [e|[msg|]]; [by apply safe_ret| |by apply safe_ret].
    destruct (Hr msg eq_refl) as [Hlt ->]. apply safe_ret, good_push; [done| |done].
    by apply header_ok_new.
  - destruct Hi as (Hch & Hlt & Hpl).
    destruct (create_response_step (juliet self) ch id payload Hp Hch) as (r & p' & -> & Hstep & Hr).
    rewrite bind_Done. pose proof (good_step _ _ _ _ Hg Hstep) as Hg'.
    destruct r as [e|[msg|]]; [by apply safe_ret| |by apply safe_ret].
    destruct (Hr msg eq_refl) as [_ ->].
    unfold response_message.
    destruct (ready_message_step p b (set_juliet self p') (match payload with Some _ => KResponsePl | None => KResponse end)
      ch id payload) as (s2 & -> & Hg2); [done|done| |done|]. { rewrite <- (same_count _ _ _ Hg). done. }
    rewrite bind_Done. by apply safe_ret.
  - destruct (cancel_response_step (juliet self) ch id Hp Hi) as (r & p' & -> & Hstep & Hr).
    rewrite bind_Done. pose proof (good_step _ _ _ _ Hg Hstep) as Hg'.
    destruct r as [e|[msg|]]; [by apply safe_ret| |by apply safe_ret].
    destruct (Hr msg eq_refl) as [Hlt ->]. apply safe_ret, good_push; [done| |done].
    assert (channel_count (set_juliet self p') = channel_count self) as Hn by (rewrite !(same_count p b); done).
    apply header_ok_new; [done|]. by rewrite Hn.
  - destruct (custom_error_step (juliet self) ch id payload Hp Hi) as (r & -> & Hr). rewrite bind_Done.
    destruct r as [e|msg]; [by apply safe_ret|]. rewrite (Hr msg eq_refl).
    destruct (inject_error_Done self (Header_new_error EOther ch id) (Some payload)) as (f & -> & Hh & _);
      [by eapply good_mfs|done|]. rewrite bind_Done. apply safe_ret, injected_good; [done|done|].
    split; rewrite Hh; [apply is_error_new_error|]. exists EOther. apply error_kind_new_error.
Qed.

Lemma push_wait_step p b self ch item : good p b self → item_ok (channel_count self) item →
  ChannelId_wf ch → chan_raw ch < channel_count self →
  ∃ self', push_wait self ch item = Done self' ∧ good p b self' ∧ juliet self' = juliet self ∧
    active_multi_frame self' = active_multi_frame self.
Proof.
  intros Hg Hi Hch Hlt. pose proof Hg as (Hw & _ & _). unfold push_wait.
  assert (0 ≤ ChannelId_get ch < len (wait_queue self)) as Hb.
  { rewrite (iw_wait_len _ Hw). destruct Hch. unfold ChannelId_get. lia. }
  destruct (array_get_lt _ _ Hb) as (q & -> & Hq). rewrite bind_Done, array_set_Done, bind_Done by done.
  eexists. split; [reflexivity|]. split; [|done]. apply good_wait; [done|rewrite len_insert; apply Hw|].
  apply Forall_insert; [apply Hw|]. apply Forall_app. split; [|by apply Forall_singleton].
  eapply Forall_lookup_1; [apply (iw_wait _ Hw)|done].
Qed.

Lemma handle_incoming_item_safe p b self item : 0 ≤ b → good p b self → item_ok (channel_count self) item →
  safe p b (handle_incoming_item self item).
Proof.
  intros Hb0 Hg Hi. unfold handle_incoming_item.
  destruct (item_should_wait_step p b self item Hg Hi) as (r & -> & Hr). rewrite bind_Done.
  destruct r as [e|[ch|]]; [by apply safe_ret, good_drop| |by apply send_to_ready_queue_safe].
  destruct (Hr ch eq_refl) as [Hch Hlt].
  destruct (push_wait_step p b self ch item Hg Hi Hch Hlt) as (s' & -> & Hg' & _). rewrite bind_Done. by apply safe_ret.
Qed.

Lemma ready_next_frame_safe p b self : good p b self → current_frame self = None → safe p b (ready_next_frame self).
Proof.
  intros Hg Hc. pose proof Hg as (Hw & _ & _). unfold ready_next_frame. rewrite Hc. cbn [assert]. rewrite bind_Done.
  pose proof (iw_ready _ Hw) as Hr. destruct (ready_queue self) as [|it queue]; [by apply safe_ret|].
  apply Forall_cons in Hr as [Hit Hr]. pose proof (good_ready _ _ _ _ Hg Hr) as Hg'.
  destruct (next_owned_ok _ _ it (good_mfs _ _ _ Hg) Hit) as (f & more & Hn & Hf & Hh & Hmore).
  cbn [set_ready_queue juliet]. rewrite Hn, bind_Done. destruct more as [it'|].
  - destruct Hmore as [Hit' _]. apply safe_ret, good_current.
    + apply good_ready; [done|]. apply Forall_app. split; [done|by apply Forall_singleton].
    + intros f' fin [= <- _]. split; [done|]. rewrite Hh. apply Hit.
  - apply safe_ret, good_current; [done|]. intros f' fin [= <- _]. split; [done|]. rewrite Hh. apply Hit.
Qed.

(** The wait queue: every item is looked at once, so the fuel is the number of items. *)
Lemma process_wait_queue_loop_safe p b ch fuel : ∀ remaining self, 0 ≤ b → good p b self →
  ChannelId_wf ch → chan_raw ch < len (channels p) → 0 ≤ remaining < Z.of_nat fuel →
  (remaining = 0 → wait_queue self !! Z.to_nat (chan_raw ch) = Some []) →
  safe p b (process_wait_queue_loop fuel remaining self ch).
Proof.
  induction fuel as [|fuel IH]; intros remaining self Hb0 Hg Hch Hlt Hf Hempty; [lia|].
  cbn [process_wait_queue_loop]. pose proof Hg as (Hw & _ & _). pose proof (same_count _ _ _ Hg) as Hn.
  assert (0 ≤ ChannelId_get ch < len (wait_queue self)) as Hb.
  { rewrite (iw_wait_len _ Hw), Hn. destruct Hch. unfold ChannelId_get. lia. }
  destruct (array_get_lt _ _ Hb) as (q & -> & Hq). rewrite bind_Done.
  destruct q as [|item q]; [by apply safe_ret|].
  assert (Forall (item_ok (channel_count self)) (item :: q)) as Hitems
    by (eapply Forall_lookup_1; [apply (iw_wait _ Hw)|done]).
  apply Forall_cons in Hitems as [Hitem Hitems]. rewrite array_set_Done, bind_Done by done.
  set (s1 := set_wait_queue self _). assert (good p b s1) as Hg1.
  { apply good_wait; [done|rewrite len_insert; apply Hw|]. apply Forall_insert; [apply Hw|done]. }
  assert (1 ≤ remaining) as Hrem.
  { destruct (decide (remaining = 0)) as [H0'|]; [|lia]. apply Hempty in H0'. unfold ChannelId_get in Hq. congruence. }
  assert (∀ s2, good p b s2 → safe p b
    (remaining ← usub remaining 1;
     if remaining =? 0 then mret (Ok (), s2) else process_wait_queue_loop fuel remaining s2 ch)) as Hcont.
  { intros s2 Hg2. rewrite usub_Done, bind_Done by done. destruct (Z.eqb_spec (remaining - 1) 0); [by apply safe_ret|].
    apply IH; [done..|lia|lia]. }
  destruct (item_should_wait_step p b s1 item Hg1 Hitem) as (r & -> & Hr). rewrite bind_Done.
  destruct r as [e|[ch'|]].
  - by apply safe_ret, good_drop.
  - destruct (push_wait_step p b s1 ch item Hg1 Hitem Hch) as (s2 & -> & Hg2 & _).
    { by rewrite (same_count p b). }
    rewrite bind_Done. by apply Hcont.
  - apply safe_bind; [by apply send_to_ready_queue_safe|]. intros [e|[]] s2 Hg2; [by apply safe_ret|].
    unfold allowed_to_send_request. rewrite lookup_channel_Done, lookup_channel_mut_Done by apply Hch.
    rewrite !bind_Done. destruct (channels (juliet s2) !! _); cbn [mret exec_ret mbind exec_bind]; [|by apply safe_ret].
    destruct (negb _); [by apply safe_ret|by apply Hcont].
Qed.

Lemma process_wait_queue_safe p b self ch : 0 ≤ b → good p b self → ChannelId_wf ch → chan_raw ch < len (channels p) →
  safe p b (process_wait_queue self ch).
Proof.
  intros Hb0 Hg Hch Hlt. pose proof Hg as (Hw & _ & _). unfold process_wait_queue.
  assert (0 ≤ ChannelId_get ch < len (wait_queue self)) as Hb.
  { rewrite (iw_wait_len _ Hw), (same_count _ _ _ Hg). destruct Hch. unfold ChannelId_get. lia. }
  destruct (array_get_lt _ _ Hb) as (q & -> & Hq). rewrite bind_Done.
  apply process_wait_queue_loop_safe; [done..|unfold len; lia|].
  intros Hz. apply len_zero in Hz. by subst q.
Qed.

(** ** Events *)

Lemma handle_completed_read_good p b self read : good p b self →
  good p b (handle_completed_read (IoError := IoError) self read).2.
Proof.
  intros Hg. pose proof Hg as (Hw & _ & _). pose proof (iw_map _ Hw) as Hm.
  assert (∀ r, good p b (set_request_map self (bm_remove_by_right (request_map self) r).2)) as Hset.
  { intros r. apply good_map; [done|by apply bm_remove_wf|]. intros io ch id Hrel.
    apply bm_remove_spec in Hrel as [_ Hrel]; [|done]. by eapply (iw_map_ids _ Hw). }
  destruct read as [h d|ch id pl|ch id pl|ch id|ch id]; cbn [handle_completed_read]; try done.
  all: specialize (Hset (ch, id)); destruct (bm_remove_by_right (request_map self) (ch, id)) as [[[io r]|] map]; done.
Qed.

Lemma parse_step_safe p b self : b + u32_max ≤ usize_max → 0 ≤ b → good p b self →
  safe p b (parse_step (IoError := IoError) self).
Proof.
  intros Hmax Hb0 Hg. unfold parse_step. destruct (_ <=? _); [|by apply safe_ret].
  pose proof Hg as (Hw & Hs & Hb). cbn [set_next_parse_at juliet buffer].
  destruct (process_incoming_step (juliet self) (buffer self) (iw_juliet _ Hw) (iw_buffer _ Hw))
    as (o & p' & rest & Ho & Hstep & Hrest & Hlen & Hcase).
  rewrite Ho, bind_Done. set (s1 := set_buffer _ rest).
  assert (good p b s1) as Hg1.
  { eapply good_buffer; [|done|lia]. by apply good_step; [apply good_parse_at|]. }
  destruct o as [n|e|read].
  - cbn [s1 set_buffer buffer]. rewrite uadd_Done by lia. rewrite bind_Done. by apply safe_ret, good_parse_at.
  - destruct e as [h payload]. destruct Hcase as (Hpl & Herr & k & _ & Hk). cbn in Hpl, Herr, Hk. subst payload.
    destruct (inject_error_Done s1 h None) as (f & Hin & Hh & _); [by eapply good_mfs|done|].
    unfold OutgoingMessage_new in Hin. rewrite Hin, bind_Done. apply safe_ret, injected_good; [done|done|].
    rewrite <- Hh in Herr, Hk. split; [done|by exists k].
  - apply safe_bind with (m := match read with ReceivedResponse channel _ _ => process_wait_queue s1 channel | _ => mret (Ok (), s1) end).
    + destruct read as [h d|ch id pl|ch id pl|ch id|ch id]; try by apply safe_ret.
      apply process_incoming_answers_at in Ho; [|apply Hw|apply Hw]. cbn [answers_at] in Ho.
      destruct Ho as (Hch & Hlt & _). apply process_wait_queue_safe; [done|done|done|].
      by rewrite <- (same_config_len _ _ Hs).
    + intros [e|[]] s2 Hg2; [by apply safe_ret|].
      pose proof (handle_completed_read_good p b s2 read Hg2) as Hr.
      destruct (handle_completed_read s2 read) as [r s3]. by apply safe_ret.
Qed.

Lemma begin_turn_safe p b self : b + u32_max ≤ usize_max → 0 ≤ b → good p b self →
  safe p b (begin_turn (IoError := IoError) self).
Proof.
  intros Hmax Hb0 Hg. unfold begin_turn. destruct (pending_error self) as [f|] eqn:Hf.
  - pose proof Hg as (Hw & _ & _). destruct (iw_pending _ Hw f Hf) as [He [k Hk]].
    unfold pending_error_data. rewrite He, Hk, !bind_Done. by apply safe_ret.
  - apply safe_bind; [by apply parse_step_safe|]. intros [r|] s1 Hg1; [by apply safe_ret|].
    destruct (bool_decide _) eqn:Hc; cbn [andb]; [|by apply safe_ret].
    apply bool_decide_eq_true in Hc. destruct (bool_decide _); [|by apply safe_ret].
    apply safe_bind; [by apply ready_next_frame_safe|]. intros [e|[]] s2 Hg2; by apply safe_ret.
Qed.

(** ** Reading, writing and receiving *)

Definition read_bytes (reads : list (ReadResult IoError)) : bytes :=
  concat (map (λ r, match r with ReadOk chunk => chunk | _ => [] end) reads).

(** What is read is appended to the buffer, as much of it as was taken. *)
Lemma read_until_bytesmut_appends reads : ∀ buf target,
  ∃ got, (read_until_bytesmut reads buf target).2 = buf ++ got ∧ got `prefix_of` read_bytes reads.
Proof.
  induction reads as [|r reads IH]; intros buf target; cbn [read_until_bytesmut].
  { exists []. rewrite app_nil_r. split; [by destruct (_ <? _)|apply prefix_nil]. }
  destruct (_ <? _); [|exists []; rewrite app_nil_r; split; [done|apply prefix_nil]].
  destruct r as [[|x chunk]| |e].
  - exists []. rewrite app_nil_r. split; [done|apply prefix_nil].
  - destruct (IH (buf ++ x :: chunk) target) as (got & -> & Hp). exists ((x :: chunk) ++ got).
    split; [by rewrite <- app_assoc|]. by apply prefix_app.
  - apply (IH buf target).
  - exists []. rewrite app_nil_r. split; [done|apply prefix_nil].
Qed.

(** What the environment and the callers may give. *)
Definition received_ok (n : Z) (r : Received Permit) : Prop :=
  match r with RecvNone => True | RecvItems item more _ => Forall (item_ok n) (item :: more) end.
Definition poll_ok (n : Z) (q : Poll Permit IoError) : Prop :=
  0 ≤ written q ∧ Forall u8 (read_bytes (reads q)) ∧
  match received q with Some r => received_ok n r | None => True end.
Definition input_ok (n : Z) (i : Input Permit IoError) : Prop :=
  match i with InErrorWrite _ => True | InPoll q => poll_ok n q end.
Definition input_bytes (inputs : list (Input Permit IoError)) : Z :=
  len (concat (map (λ i, match i with InPoll q => read_bytes (reads q) | _ => [] end) inputs)).

Lemma good_mono p b b' self : b ≤ b' → good p b self → good p b' self.
Proof. intros Hle (Hw & Hs & Hb). split; [done|]. split; [done|lia]. Qed.
Lemma safe_mono {R} p b b' (m : exec (R * IoCore Permit BM)) : b ≤ b' → safe p b m → safe p b' m.
Proof. intros Hle (r & s & Hm & Hg). exists r, s. split; [done|]. by eapply good_mono. Qed.

Definition branch_ok (n : Z) (r : option (Branch Permit IoError)) : Prop :=
  match r with Some (BranchRecv r) => received_ok n r | _ => True end.

Lemma select_poll_safe p b self q : good p b self → poll_ok (len (channels p)) q →
  ∃ r self', select_poll self q = Done (r, self') ∧ good p (b + len (read_bytes (reads q))) self' ∧
    branch_ok (len (channels p)) r.
Proof.
  intros Hg (Hwr & Hrd & Hrc). unfold select_poll. pose proof (len_nonneg (read_bytes (reads q))) as Hrn.
  assert (∃ w s1, match current_frame self with
    | Some (frame, is_final) =>
        r ← buf_remaining frame;
        frame ← buf_advance frame (match write_result q with Some (Ok _) => r | _ => Z.max 0 (Z.min (written q) (r - 1)) end);
        mret (write_result q, set_current_frame self (Some (frame, is_final)))
    | None => mret (None, self)
    end = Done (w, s1) ∧ good p b s1) as (w & s1 & -> & Hg1).
  { destruct (current_frame self) as [[f fin]|] eqn:Hc; [|by exists None, self].
    pose proof Hg as (Hw & _ & _). destruct (iw_current _ Hw f fin Hc) as [Hf Hh].
    change (buf_remaining f) with (OutgoingFrame_remaining f). rewrite OutgoingFrame_remaining_Done, bind_Done by done.
    set (cnt := match write_result q with Some (Ok _) => _ | _ => _ end).
    assert (0 ≤ cnt ≤ len (frame_bytes f)) as Hcnt.
    { pose proof (len_nonneg (frame_bytes f)). subst cnt. destruct (write_result q) as [[e|[]]|]; lia. }
    destruct (OutgoingFrame_advance_spec f cnt Hf Hcnt) as (f' & Hadv & Hf' & _).
    pose proof (OutgoingFrame_advance_preamble _ _ _ Hadv) as Hpre.
    change (buf_advance f cnt) with (OutgoingFrame_advance f cnt). rewrite Hadv, bind_Done.
    do 2 eexists. split; [reflexivity|]. apply good_current; [done|]. intros f2 fin2 [= <- _]. split; [done|].
    unfold OutgoingFrame_header in *. by rewrite Hpre. }
  rewrite bind_Done. assert (good p (b + len (read_bytes (reads q))) s1) as Hg2 by (eapply good_mono; [|done]; lia).
  destruct w as [w|]; [by exists (Some (BranchWrite w)), s1|].
  destruct (read_until_bytesmut_appends (reads q) (buffer s1) (next_parse_at s1)) as (got & Hgot & Hpre).
  destruct (read_until_bytesmut (reads q) (buffer s1) (next_parse_at s1)) as [read buf]. cbn in Hgot. subst buf.
  assert (good p (b + len (read_bytes (reads q))) (set_buffer s1 (buffer s1 ++ got))) as Hg3.
  { destruct Hg1 as (Hw1 & Hs1 & Hb1). destruct Hpre as [rest Hrest]. rewrite Hrest in Hrd |- *.
    apply Forall_app in Hrd as [Hgu _]. eapply good_buffer; [done|apply Forall_app; split; [apply Hw1|done]|].
    rewrite !len_app. pose proof (len_nonneg rest). lia. }
  destruct read as [r|]; [by exists (Some (BranchRead r)), (set_buffer s1 (buffer s1 ++ got))|].
  exists (BranchRecv <$> received q), (set_buffer s1 (buffer s1 ++ got)). split; [done|]. split; [done|].
  by destruct (received q).
Qed.

Lemma clear_multi_frame_step p b self h fin : good p b self → header_ok (channel_count self) h →
  ∃ self', clear_multi_frame self h fin = Done self' ∧ good p b self'.
Proof.
  intros Hg Hh. unfold clear_multi_frame. destruct fin; [|by exists self]. pose proof Hg as (Hw & _ & _).
  assert (0 ≤ ChannelId_get (Header_channel h) < len (active_multi_frame self)) as Hb by by rewrite (iw_active _ Hw).
  destruct (array_get_lt _ _ Hb) as (a & -> & _). rewrite bind_Done. case_bool_decide; [|by exists self].
  rewrite array_set_Done, bind_Done by done. eexists. split; [reflexivity|]. apply good_active; [done|].
  rewrite len_insert. apply Hw.
Qed.

Lemma write_branch_safe p b self r : 0 ≤ b → good p b self → safe p b (write_branch (IoError := IoError) self r).
Proof.
  intros Hb0 Hg. unfold write_branch. destruct r as [e|[]]; [by apply safe_ret|].
  destruct (current_frame self) as [[f fin]|] eqn:Hc; [|by apply safe_ret].
  pose proof Hg as (Hw & _ & _). destruct (iw_current _ Hw f fin Hc) as [Hf Hh].
  assert (good p b (set_current_frame self None)) as Hg0 by by apply good_current.
  destruct (clear_multi_frame_step p b (set_current_frame self None) (OutgoingFrame_header f) fin)
    as (s1 & -> & Hg1); [done|done|]. rewrite bind_Done.
  destruct (is_error _); [by apply safe_ret|]. apply safe_bind; [|by intros; apply safe_ret].
  rewrite (same_count _ _ _ Hg) in Hh. destruct Hh as [Hh1 Hh2].
  apply process_wait_queue_safe; [done|done| |done]. split; [done|].
  pose proof (pw_count _ (iw_juliet _ Hw)) as H256. pose proof (same_count _ _ _ Hg) as Hn. unfold channel_count in Hn. ulia.
Qed.

Lemma receive_more_safe p b items d : ∀ self, 0 ≤ b → good p b self → Forall (item_ok (len (channels p))) items →
  safe p b (receive_more (IoError := IoError) self items d).
Proof.
  induction items as [|item items IH]; intros self Hb0 Hg Hi; cbn [receive_more]; [by apply safe_ret|].
  apply Forall_cons in Hi as [Hitem Hi]. apply safe_bind.
  - apply handle_incoming_item_safe; [done|done|]. by rewrite (same_count _ _ _ Hg).
  - intros [e|[]] s1 Hg1; [by apply safe_ret|by apply IH].
Qed.

Lemma finish_turn_safe p b self br : 0 ≤ b → good p b self → branch_ok (len (channels p)) (Some br) →
  safe p b (finish_turn self br).
Proof.
  intros Hb0 Hg Hbr. destruct br as [r|r|[|item more d]]; cbn [finish_turn recv_branch].
  - by apply write_branch_safe.
  - by apply safe_ret.
  - by apply safe_ret.
  - by apply receive_more_safe.
Qed.

Lemma input_bytes_cons q inputs :
  input_bytes (InPoll q :: inputs) = len (read_bytes (reads q)) + input_bytes inputs.
Proof. unfold input_bytes. cbn [map concat]. apply len_app. Qed.

Lemma next_event_from_safe p inputs : ∀ resume b self, 0 ≤ b → good p b self →
  Forall (input_ok (len (channels p))) inputs → b + input_bytes inputs + u32_max ≤ usize_max →
  safe p (b + input_bytes inputs) (next_event_from inputs resume self).
Proof.
  induction inputs as [|i inputs IH]; intros resume b self Hb0 Hg Hi Hmax.
  - change (input_bytes []) with 0 in *. rewrite Z.add_0_r in *. cbn [next_event_from]. apply safe_bind.
    + destruct resume; [by apply safe_ret|]. by apply begin_turn_safe.
    + intros [r|h d|] s1 Hg1; by apply safe_ret.
  - assert (0 ≤ input_bytes (i :: inputs)) as Hn by apply len_nonneg. cbn [next_event_from].
    apply (safe_bind_le p b); [|intros [r|h d|] s1 Hg1].
    + destruct resume; [by apply safe_ret|]. apply begin_turn_safe; [lia|done|done].
    + apply safe_ret. eapply good_mono; [|done]. lia.
    + assert (good p (b + input_bytes (i :: inputs)) s1) as Hg2 by (eapply good_mono; [|done]; lia).
      destruct i as [w|q]; [|by apply safe_ret]. destruct w; cbn [finish_error_write]; try by apply safe_ret.
      apply safe_ret. by destruct Hg2 as ([] & ? & ?).
    + apply Forall_cons in Hi as [Hi Hi']. destruct i as [w|q].
      { apply safe_ret. eapply good_mono; [|done]. lia. }
      rewrite input_bytes_cons in *. pose proof (len_nonneg (read_bytes (reads q))).
      destruct (select_poll_safe p b s1 q Hg1 Hi) as (br & s2 & -> & Hg2 & Hbr). rewrite bind_Done, Z.add_assoc.
      destruct br as [br|]; [|apply IH; [lia|done|done|lia]].
      apply (safe_bind_le p (b + len (read_bytes (reads q)))); [by apply finish_turn_safe; [lia|..]|].
      intros [r|] s3 Hg3; [|apply IH; [lia|done|done|lia]].
      apply safe_ret. eapply good_mono; [|done].
      assert (0 ≤ input_bytes inputs) by apply len_nonneg. lia.
Qed.
End core.

(** ** The built core *)

Lemma IoCoreBuilder_build_wf {Permit BM S Snd} `{BiMapLaws IoId (ChannelId * Id) BM} `{Semaphore S Permit}
    (b : IoCoreBuilder) (sender : Snd) : protocol_wf (ProtocolBuilder_build (protocol b)) →
  io_wf (IoCoreBuilder_build (Permit := Permit) (BM := BM) b sender).1.
Proof.
  intros Hp. constructor; cbn; try done; try apply Forall_nil_2.
  - unfold channel_count, len. cbn. by rewrite length_map.
  - unfold channel_count, len. cbn. by rewrite length_map.
  - apply Forall_map, Forall_true. intros; apply Forall_nil_2.
  - apply bm_new_wf.
  - intros io ch id Hr. by apply bm_new_spec in Hr.
Qed.

Abbreviation SampleCore := (IoCore () (list (IoId * (ChannelId * Id)))).
Definition sample_io_builder : IoCoreBuilder :=
  IoCoreBuilder_new (mkProtocolBuilder (replicate 2 demo_config) (mkMaxFrameSize 10)).
Definition sample_core : SampleCore := (IoCoreBuilder_build (S := Z) sample_io_builder ()).1.
Lemma sample_core_wf : io_wf sample_core.
Proof. apply IoCoreBuilder_build_wf, demo_wf. Qed.

(** C8: the event loop never panics and always does something. For a core with its invariant,
    whatever bytes and errors reading gives, however writing goes, and whatever items for existing
    channels the handles queue, polling [next_event] neither panics nor runs out of fuel, and leaves
    a core with the invariant and the same configuration - as long as what is read fits the address
    space. *)
Theorem next_event_safe {Permit IoError BM} `{BiMapLaws IoId (ChannelId * Id) BM}
    (self : IoCore Permit BM) (inputs : list (Input Permit IoError)) : io_wf self →
  Forall (input_ok (len (channels (juliet self)))) inputs →
  len (buffer self) + input_bytes inputs + u32_max ≤ usize_max →
  ∃ r self', next_event inputs self = Done (r, self') ∧ io_wf self' ∧ same_config (juliet self) (juliet self').
Proof.
  intros Hw Hi Hb. pose proof (len_nonneg (buffer self)).
  destruct (next_event_from_safe (juliet self) inputs false (len (buffer self)) self) as (r & s & Hr & Hw' & Hs & _).
  - done.
  - split; [done|]. split; [done|lia].
  - done.
  - done.
  - by exists r, s.
Qed.
(** The peer sends a request; the application answers another one that does not exist. *)
Lemma next_event_safe_witness :
  let inputs : list (Input () ()) :=
    [InPoll (mkPoll 0 None [] (Some (RecvItems (QResponse (ChannelId_new 1) (Id_new 3) (Some [1; 2])) [] false)));
     InPoll (mkPoll 0 None [ReadOk [0; 1]; ReadOk [7; 0]] None)] in
  ∃ r self', next_event inputs sample_core = Done (r, self') ∧ io_wf self' ∧
    same_config (juliet sample_core) (juliet self').
Proof.
  intros inputs. apply (next_event_safe sample_core inputs sample_core_wf); [|vm_compute; discriminate].
  repeat constructor; try (vm_compute; discriminate).
Defined.
