(* ===== verification/IoSpec.v ===== *)
(** * What the operations of the event loop do

    Closed forms of the single operations: when an item has to wait, what reading leaves in the
    buffer, what injecting an error leaves of a core, and which request an answer is reported
    for. *)
From stdpp Require Import strings.
From S2P Require Import Prelude Lib Varint Header FrameSize OutgoingMessage WireFormat ByteIter Multiframe.
From S2P Require Import MultiframeSpec Protocol ProtocolInv ProcessIncoming ProtocolOps Answers Io Instances IoSafe.
From stdpp Require Import options.

(** ** Reading *)

(** [read_until_bytesmut] with a target: it returns [Ok(true)] only with at least the target
    in the buffer and as soon as it has that much, reading nothing if it had it before;
    [Ok(false)] or an error only with less; nothing read is ever lost or reordered, also while
    it is still waiting and when it fails; and it never reserves more than the allocation
    limit at once. *)
Lemma read_until_bytesmut_correct {IoError} (reads : list (ReadResult IoError)) buf target :
  let '(r, buf') := read_until_bytesmut reads buf target in
  (∃ got, buf' = buf ++ got ∧ got `prefix_of` read_bytes reads) ∧
  match r with
  | Some (Ok true) => target ≤ len buf' ∧
      (target ≤ len buf → buf' = buf) ∧
      (len buf < target → ∃ k chunk, buf' = buf ++ k ++ chunk ∧ len (buf ++ k) < target ∧ chunk ≠ [] ∧
                           ReadOk chunk ∈ reads)
  | Some (Ok false) => len buf' < target ∧ ReadOk [] ∈ reads
  | Some (Err e) => len buf' < target ∧ ReadErr e ∈ reads
  | None => len buf' < target ∧ buf' = buf ++ read_bytes reads
  end ∧
  0 ≤ read_reserve buf target ≤ MAX_ALLOC.
Proof.
  pose proof (read_until_bytesmut_appends reads buf target) as Happ.
  destruct (read_until_bytesmut reads buf target) as [r buf'] eqn:E. split; [exact Happ|].
  split; [|unfold read_reserve, MAX_ALLOC; lia]. clear Happ. revert buf E.
  induction reads as [|x reads IH]; intros buf E; cbn [read_until_bytesmut] in E;
    destruct (Z.ltb_spec (len buf) target) as [Hlt|Hge].
  1: { injection E as <- <-. split; [done|by rewrite app_nil_r]. }
  1, 3: injection E as <- <-; split; [done|split; [done|lia]].
  assert (∀ e, e ∈ reads → e ∈ x :: reads) as Hin by (intros; apply elem_of_cons; by right).
  destruct x as [[|y chunk]| |e].
  - injection E as <- <-. split; [done|]. apply elem_of_cons. by left.
  - specialize (IH _ E). destruct r as [[e|[]]|].
    + destruct IH as [? ?]. auto.
    + destruct IH as (Hl & Hsame & Hmore). split; [done|]. split; [lia|]. intros _.
      destruct (Z.ltb_spec (len (buf ++ y :: chunk)) target) as [Hlt'|Hge'].
      * destruct (Hmore Hlt') as (k & c & -> & Hk & Hne & Hc). exists ((y :: chunk) ++ k), c.
        rewrite <- !app_assoc in *. auto.
      * rewrite Hsame by done. exists [], (y :: chunk). rewrite app_nil_r. split; [done|]. split; [done|].
        split; [done|]. apply elem_of_cons. by left.
    + destruct IH as [? ?]. auto.
    + destruct IH as [? ->]. split; [done|]. unfold read_bytes. cbn [map concat]. by rewrite app_assoc.
  - specialize (IH _ E). destruct r as [[e|[]]|].
    + destruct IH as [? ?]. auto.
    + destruct IH as (Hl & Hsame & Hmore). split; [done|]. split; [done|]. intros _.
      destruct (Hmore Hlt) as (k & c & ? & ? & ? & ?). exists k, c. auto.
    + destruct IH as [? ?]. auto.
    + exact IH.
  - injection E as <- <-. split; [done|]. apply elem_of_cons. by left.
Qed.

(** ** Waiting *)

(** A payload that does not fit a frame together with its length. *)
Definition needs_frames (m : MaxFrameSize) (payload : option bytes) : bool := 1 <? frame_count m payload.

Section core.
Context {Permit IoError BM : Type} `{BiMapLaws IoId (ChannelId * Id) BM}.
#[local] Set Default Proof Using "Type*".
Implicit Types (self : IoCore Permit BM) (item : QueuedItem Permit).

(** An item waits exactly if sending it now would break a rule of its channel: a request
    when the channel's request limit is used up, and a request or response that needs several
    frames while another such transfer is under way on the channel.  Cancellations and errors
    never wait; a request for a channel there is not is refused. *)
Lemma item_should_wait_Done self item : io_wf self → item_ok (channel_count self) item →
  item_should_wait item (juliet self) (active_multi_frame self)
  = Done
      (let blocked ch payload :=
         if needs_frames (max_frame_size (juliet self)) payload &&
            bool_decide (is_Some (mjoin (active_multi_frame self !! Z.to_nat (chan_raw ch))))
         then Ok (Some ch) else Ok None in
       match item with
       | QRequest ch _ payload _ =>
           match channels (juliet self) !! Z.to_nat (chan_raw ch) with
           | None => Err (InvalidChannel ch (channel_count self))
           | Some c => if hs_len (outgoing_requests c) <? request_limit (config c)
                       then blocked ch payload else Ok (Some ch)
           end
       | QResponse ch _ payload => blocked ch payload
       | _ => Ok None
       end).
Proof.
  intros Hw Hi. pose proof (pw_mfs _ (iw_juliet _ Hw)) as Hm.
  assert (∀ ch payload, ChannelId_wf ch → chan_raw ch < channel_count self → payload_wf payload →
    (active ← array_get (active_multi_frame self) (ChannelId_get ch);
      match active, payload with
      | Some _, Some payload =>
          multi ← payload_is_multi_frame (max_frame_size (juliet self)) (len payload);
          mret (Ok (if (multi : bool) then Some ch else None))
      | _, _ => mret (Ok None)
      end : exec (result (option ChannelId) LocalProtocolViolation))
    = Done (if needs_frames (max_frame_size (juliet self)) payload &&
               bool_decide (is_Some (mjoin (active_multi_frame self !! Z.to_nat (chan_raw ch))))
            then Ok (Some ch) else Ok None)) as Hcheck.
  { intros ch payload Hch Hlt Hp. destruct (array_get_lt (active_multi_frame self) (ChannelId_get ch)) as (a & -> & Ha).
    { rewrite (iw_active _ Hw). destruct Hch. unfold ChannelId_get. lia. }
    unfold ChannelId_get in Ha. rewrite bind_Done, Ha. unfold needs_frames. destruct a as [a|]; cbn [mjoin option_join].
    - destruct payload as [pl|].
      + cbn in Hp. pose proof (is_multi_frame_Done _ (mkHeader 0 0 0 0) (Some pl) Hm Hp) as Hmf. unfold is_multi_frame in Hmf.
        cbn [om_payload OutgoingMessage_new] in Hmf. rewrite Hmf, bind_Done, bool_decide_eq_true_2, andb_true_r by by eexists.
        by destruct (_ <? _).
      + unfold frame_count. cbn [message_body]. change (len (@nil Z)) with 0. pose proof (MaxFrameSize_wf_bounds _ Hm).
        rewrite div_up_nonpos, Z.max_l by lia. done.
    - rewrite bool_decide_eq_false_2, andb_false_r by (by intros [? ?]). by destruct payload. }
  destruct item as [ch io payload permit|io|ch id payload|ch id|ch id payload]; cbn [item_should_wait item_ok] in *; try done.
  - destruct Hi as [Hch Hp]. unfold allowed_to_send_request.
    rewrite lookup_channel_Done, lookup_channel_mut_Done by apply Hch. rewrite !bind_Done.
    destruct (channels (juliet self) !! Z.to_nat (chan_raw ch)) as [c|] eqn:Hc; cbn [mret exec_ret mbind exec_bind]; [|done].
    assert (chan_raw ch < channel_count self) as Hlt.
    { apply lookup_lt_Some in Hc. unfold channel_count, len. destruct Hch. lia. }
    unfold Channel_allowed_to_send_request, Channel_request_limit. destruct (_ <? _); cbn [negb]; [|done]. by apply Hcheck.
  - destruct Hi as (Hch & Hlt & Hp). by apply Hcheck.
Qed.

(** ** Errors *)


(** ** Answers *)

(** The ids of the core's requests and those of the protocol agree: every outstanding request
    has an [IoId], and only those. *)
Definition mapped self : Prop :=
  ∀ ch id, ChannelId_wf ch → id ∈ outgoing_at (juliet self) ch ↔ ∃ io, bm_rel (request_map self) io (ch, id).

Lemma process_wait_queue_empty self ch : 0 ≤ chan_raw ch → wait_queue self !! Z.to_nat (chan_raw ch) = Some [] →
  process_wait_queue self ch = Done (Ok (), self).
Proof.
  intros Hch Hq. unfold process_wait_queue. rewrite (array_get_Done _ _ []) by done. rewrite bind_Done.
  cbn [process_wait_queue_loop length]. rewrite (array_get_Done _ _ []) by done. done.
Qed.

(** The answer to a request is reported under the id the request was made with.  When the
    peer's response, or its cancellation of one, is parsed while no request waits for the
    channel, the event carries the payload as received and the [IoId] that stood for the
    request, which is released: afterwards the ids agree again and the request has none. *)
Lemma event_reports_requester self ch id payload read p' rest : io_wf self → mapped self →
  next_parse_at self ≤ len (buffer self) → wait_queue self !! Z.to_nat (chan_raw ch) = Some [] →
  process_incoming (juliet self) (buffer self) = Done (Success read, (p', rest)) →
  read = ReceivedResponse ch id payload ∨ read = ResponseCancellation ch id →
  ∃ io self', bm_rel (request_map self) io (ch, id) ∧
    parse_step (IoError := IoError) self
    = Done (Some (Ok (Some (match read with
                            | ReceivedResponse _ _ _ => EvReceivedResponse io payload
                            | _ => EvReceivedCancellationResponse io
                            end))), self') ∧
    mapped self' ∧ juliet self' = p' ∧ buffer self' = rest ∧
    ∀ io', ¬ bm_rel (request_map self') io' (ch, id).
Proof.
  intros Hw Hmap Hparse Hq Hinc Hread. pose proof (iw_map _ Hw) as Hbm.
  pose proof (process_incoming_answers_at _ _ _ _ _ (iw_juliet _ Hw) (iw_buffer _ Hw) Hinc) as Ha.
  assert (ChannelId_wf ch ∧ id ∈ outgoing_at (juliet self) ch ∧ outgoing_at p' ch = outgoing_at (juliet self) ch ∖ {[id]} ∧
    ∀ ch', ChannelId_wf ch' → ch' ≠ ch → outgoing_at p' ch' = outgoing_at (juliet self) ch') as (Hch & Hin & Hout & Hoth).
  { destruct Hread as [-> | ->]; destruct Ha as (? & _ & ? & ? & ?); done. }
  apply Hmap in Hin as [io Hio]; [|done].
  set (s1 := set_buffer (set_juliet (set_next_parse_at self 0) p') rest).
  set (s2 := set_request_map s1 (bm_remove_by_right (request_map self) (ch, id)).2).
  assert ((bm_remove_by_right (request_map self) (ch, id)).1 = Some (io, (ch, id))) as Hrem
    by by apply bm_remove_Some.
  exists io, s2. split; [done|]. split; [|split; [|split; [done|split; [done|]]]].
  - unfold parse_step. rewrite (proj2 (Z.leb_le _ _)) by done. cbn [set_next_parse_at juliet buffer].
    rewrite Hinc, bind_Done. fold s1.
    destruct Hread as [-> | ->].
    + rewrite process_wait_queue_empty by (apply Hch || done). rewrite bind_Done. cbn [handle_completed_read].
      cbn [s1 set_buffer set_juliet set_next_parse_at request_map].
      destruct (bm_remove_by_right (request_map self) (ch, id)) as [removed map] eqn:E. cbn in Hrem. subst removed. done.
    + change (mret (Ok (), s1) ≫= ?f) with (f (Ok () : result () LocalProtocolViolation, s1)). cbn [handle_completed_read].
      cbn [s1 set_buffer set_juliet set_next_parse_at request_map].
      destruct (bm_remove_by_right (request_map self) (ch, id)) as [removed map] eqn:E. cbn in Hrem. subst removed. done.
  - intros ch' id' Hch'. cbn [s2 set_request_map juliet request_map s1 set_buffer set_juliet].
    setoid_rewrite bm_remove_spec; [|done]. destruct (decide (ch' = ch)) as [->|Hne].
    + rewrite Hout, elem_of_difference, elem_of_singleton, (Hmap ch id') by done. split.
      * intros [[io' Hr] Hne]. exists io'. split; [congruence|done].
      * intros [io' [Hne Hr]]. split; [by exists io'|congruence].
    + rewrite Hoth, (Hmap ch' id') by done. split.
      * intros [io' Hr]. exists io'. split; [congruence|done].
      * intros [io' [_ Hr]]. by exists io'.
  - intros io' Hr. cbn [s2 set_request_map request_map] in Hr. apply bm_remove_spec in Hr as [Hne _]; done.
Qed.
End core.


(** ** Cores with one channel, to evaluate *)

Abbreviation SampleMap := (list (IoId * (ChannelId * Id))).
Definition one_channel (limit : Z) (incoming outgoing : gset Id) (prev : Z) : Channel :=
  {| incoming_requests := incoming; outgoing_requests := outgoing;
     current_multiframe_receiver := Ready; cancellation_allowance := 0;
     config := mkChannelConfiguration limit 100 50; prev_request_id := prev |}.
Definition one_core (c : Channel) (buffer : bytes) (wait : list (QueuedItem ())) (map : SampleMap) : IoCore () SampleMap :=
  mkIoCore (mkJulietProtocol [c] (mkMaxFrameSize 10)) buffer 0 None 0 None [None] [] [wait] false map [].

Lemma one_core_wf c buffer wait map : channel_wf c → Forall u8 buffer → Forall (item_ok 1) wait →
  bm_wf map → Forall (λ x, x.2.1 = ChannelId_new 0) map → io_wf (one_core c buffer wait map).
Proof.
  intros Hc Hb Hwait Hm Hch. constructor; cbn; try done.
  - constructor; cbn; [by constructor|vm_compute; discriminate|split; vm_compute; discriminate].
  - by apply Forall_singleton.
  - intros io ch id Hr. assert (ch = ChannelId_new 0) as -> by by eapply (proj1 (Forall_forall _ _) Hch (io, (ch, id))).
    split; vm_compute; discriminate.
Qed.
Lemma one_core_mapped c buffer wait map : Forall (λ x, x.2.1 = ChannelId_new 0) map →
  (∀ id, id ∈ outgoing_requests c ↔ id ∈ (λ x, x.2.2) <$> map) → mapped (one_core c buffer wait map).
Proof.
  intros Hch Hid ch id Hwf. destruct (decide (ch = ChannelId_new 0)) as [->|Hne].
  - change (outgoing_at _ _) with (outgoing_requests c). rewrite Hid, list_elem_of_fmap. split.
    + intros ([io [ch id']] & -> & Hin). exists io.
      assert (ch = ChannelId_new 0) as -> by by eapply (proj1 (Forall_forall _ _) Hch (io, (ch, id'))). exact Hin.
    + intros [io Hr]. by exists (io, (ChannelId_new 0, id)).
  - unfold outgoing_at. cbn. rewrite lookup_ge_None_2.
    + split; [set_solver|]. intros [io Hr]. exfalso. apply Hne.
      exact (proj1 (Forall_forall _ _) Hch (io, (ch, id)) Hr).
    + destruct Hwf as [Hwf _]. cbn. destruct ch as [n]. cbn in *. destruct (decide (n = 0)) as [->|]; [done|lia].
Qed.
Lemma one_channel_wf limit incoming outgoing prev : 0 < limit ≤ u16_max → hs_len incoming ≤ limit → hs_len outgoing ≤ limit →
  set_Forall Id_wf outgoing → set_Forall Id_wf incoming → u16 prev → channel_wf (one_channel limit incoming outgoing prev).
Proof.
  intros Hl Hi Ho Hoids Hiids Hp. constructor; cbn; try done; [|lia].
  split; [split; cbn; lia|]. split; split; vm_compute; discriminate.
Qed.
