(* ===== verification/ReadyQueue.v ===== *)
(** * How the ready queue is written out

    The event loop writes one frame of a message, and puts the message back at the end of the
    queue while frames are left.  Every message is therefore written completely and in order,
    and no message holds up the others. *)
From stdpp Require Import strings.
From S2P Require Import Prelude Lib Varint Header FrameSize OutgoingMessage WireFormat ByteIter Multiframe.
From S2P Require Import MultiframeSpec Protocol ProtocolInv ProcessIncoming ProtocolOps Io Instances IoSafe.
From stdpp Require Import options.

(** ** Taking turns *)

(** [fs] merges the lists [qs], each in its order. *)
Inductive interleaving {A} : list (list A) → list A → Prop :=
  | interleaving_done qs : Forall (λ q, q = []) qs → interleaving qs []
  | interleaving_next l1 x xs l2 fs :
      interleaving (l1 ++ xs :: l2) fs → interleaving (l1 ++ (x :: xs) :: l2) (x :: fs).

Lemma interleaving_perm {A} (qs : list (list A)) fs : interleaving qs fs →
  ∀ qs', qs ≡ₚ qs' → interleaving qs' fs.
Proof.
  induction 1 as [qs Hqs|l1 x xs l2 fs _ IH]; intros qs' Hp.
  - constructor. by rewrite <- Hp.
  - assert ((x :: xs) ∈ qs') as Hin by (rewrite <- Hp; apply elem_of_app; right; apply elem_of_cons; by left).
    apply list_elem_of_split in Hin as (k1 & k2 & ->). constructor. apply IH.
    rewrite <- !Permutation_middle in Hp. apply Permutation_cons_inv in Hp.
    by rewrite <- !Permutation_middle, Hp.
Qed.
Lemma interleaving_nil {A} (qs : list (list A)) fs : interleaving qs fs → interleaving ([] :: qs) fs.
Proof.
  induction 1 as [qs Hqs|l1 x xs l2 fs _ IH]; [constructor; by apply Forall_cons|].
  by apply (interleaving_next ([] :: l1)).
Qed.
Lemma interleaving_length {A} (qs : list (list A)) fs : interleaving qs fs → length fs = length (concat qs).
Proof.
  induction 1 as [qs Hqs|l1 x xs l2 fs _ IH]; cbn [length].
  - induction Hqs as [|q qs -> Hqs IH]; done.
  - rewrite IH, !concat_app, !length_app. cbn [concat]. rewrite !length_app. cbn [length]. lia.
Qed.
(** Everything is there. *)
Lemma interleaving_all {A} (qs : list (list A)) fs : interleaving qs fs → fs ≡ₚ concat qs.
Proof.
  induction 1 as [qs Hqs|l1 x xs l2 fs _ IH].
  - induction Hqs as [|q qs -> Hqs IH]; done.
  - rewrite IH, !concat_app. cbn [concat app]. by rewrite <- Permutation_middle.
Qed.

(** ** The frames an iterator has left *)

Section iter.
Context (m : MaxFrameSize) (Hm : MaxFrameSize_wf m).

Definition bytes_left (it : FrameIter) : nat :=
  match om_payload (fi_msg it) with Some pl => Z.to_nat (len pl - bytes_processed it) | None => 0 end.
Definition frames_left (it : FrameIter) : list OutgoingFrame :=
  match frame_iter_from (S (bytes_left it)) (Some it) m with Done fs => fs | _ => [] end.

Lemma next_owned_progress n it f it' : iter_ok n it → next_owned it m = Done (f, Some it') →
  (bytes_left it' < bytes_left it)%nat.
Proof using Hm.
  intros [Hh Hp] Hn. destruct it as [[h [pl|]] b]; cbn [fi_msg om_header om_payload bytes_processed] in *; [|done].
  destruct Hp as [Hu Hb]. pose proof (MaxFrameSize_wf_bounds m Hm). pose proof (varint_bytes_len (len pl)).
  destruct (decide (b = 0)) as [->|Hne].
  - pose proof (next_owned_first m Hm h pl Hu) as Hf. cbv zeta in Hf. unfold OutgoingMessage_new in Hf.
    rewrite Hf in Hn. destruct (Z.ltb_spec (mfs m - 4 - len (varint_bytes (len pl))) (len pl)); [|done].
    injection Hn as _ <-. unfold bytes_left. cbn [fi_msg om_payload bytes_processed]. lia.
  - pose proof (next_owned_next m Hm h pl Hu b ltac:(lia)) as Hf. unfold OutgoingMessage_new in Hf.
    rewrite Hf in Hn. destruct (Z.ltb_spec (b + (mfs m - 4)) (len pl)); [|done].
    injection Hn as _ <-. unfold bytes_left. cbn [fi_msg om_payload bytes_processed]. lia.
Qed.

Lemma frame_iter_from_fuel n f1 : ∀ f2 it, iter_ok n it → (bytes_left it < f1)%nat → (bytes_left it < f2)%nat →
  ∃ fs, frame_iter_from f1 (Some it) m = Done fs ∧ frame_iter_from f2 (Some it) m = Done fs.
Proof using Hm.
  induction f1 as [|f1 IH]; intros f2 it Hi H1 H2; [lia|]. destruct f2 as [|f2]; [lia|]. cbn [frame_iter_from].
  destruct (next_owned_ok m n it Hm Hi) as (f & more & Hn & _ & _ & Hmore). rewrite Hn, !bind_Done.
  destruct more as [it'|].
  - destruct Hmore as [Hi' _]. pose proof (next_owned_progress _ _ _ _ Hi Hn).
    destruct (IH f2 it' Hi') as (fs & -> & ->); [lia..|]. rewrite !bind_Done. by eexists.
  - destruct f1, f2; by eexists.
Qed.

(** The first of them is the next frame. *)
Lemma frames_left_step n it f more : iter_ok n it → next_owned it m = Done (f, more) →
  frames_left it = f :: match more with Some it' => frames_left it' | None => [] end.
Proof using Hm.
  intros Hi Hn. unfold frames_left at 1. cbn [frame_iter_from]. rewrite Hn, bind_Done. destruct more as [it'|].
  - pose proof (next_owned_progress _ _ _ _ Hi Hn) as Hlt.
    destruct (next_owned_ok m n it Hm Hi) as (f' & more' & Hn' & _ & _ & Hmore). rewrite Hn in Hn'.
    injection Hn' as <- <-. destruct Hmore as [Hi' _]. unfold frames_left.
    destruct (frame_iter_from_fuel n (bytes_left it) (S (bytes_left it')) it' Hi') as (fs & -> & ->); [lia..|].
    by rewrite bind_Done.
  - by destruct (bytes_left it).
Qed.

(** Every message has a frame left. *)
Lemma heads_length n queue : Forall (iter_ok n) queue → length (omap head (map frames_left queue)) = length queue.
Proof using Hm.
  induction 1 as [|it queue Hit Hr IH]; [done|]. cbn [map omap list_omap].
  destruct (next_owned_ok m n it Hm Hit) as (f & more & Hn & _).
  rewrite (frames_left_step _ _ _ _ Hit Hn). cbn [head length]. f_equal. apply IH.
Qed.

(** From the start these are the frames of the message. *)
Lemma frames_left_message n msg : header_ok n (om_header msg) → payload_wf (om_payload msg) →
  frame_iter msg m = Done (frames_left (frames msg)).
Proof using Hm.
  intros Hh Hp. unfold frame_iter, frames_left.
  destruct (frame_iter_from_fuel n (S (length (default [] (om_payload msg)))) (S (bytes_left (frames msg))) (frames msg))
    as (fs & -> & ->); [by apply frames_ok| |lia|done].
  unfold bytes_left, frames. cbn. destruct (om_payload msg) as [pl|]; cbn; [|lia]. unfold len. lia.
Qed.
End iter.

(** ** Writing out *)

Section core.
Context {Permit BM : Type} `{BiMapLaws IoId (ChannelId * Id) BM}.
#[local] Set Default Proof Using "Type*".
Implicit Types self : IoCore Permit BM.

(** The frames written until the ready queue is empty, with nothing else going on: each turn
    readies the next frame, writing it empties [current_frame]. *)
Fixpoint write_ready (fuel : nat) self : exec (list OutgoingFrame * IoCore Permit BM) :=
  match fuel with
  | O => OutOfFuel
  | S fuel =>
      match ready_queue self with
      | [] => mret ([], self)
      | _ =>
          '(_, self) ← ready_next_frame self;
          '(frame, _) ← unwrap (current_frame self);
          '(fs, self) ← write_ready fuel (set_current_frame self None);
          mret (frame :: fs, self)
      end
  end.

Definition queue_frames self : list (list OutgoingFrame) :=
  map (frames_left (max_frame_size (juliet self))) (ready_queue self).

(** One turn: the first message gives a frame and goes to the end of the queue. *)
Lemma ready_next_frame_step self it queue : io_wf self → current_frame self = None → ready_queue self = it :: queue →
  ∃ f more s, ready_next_frame self = Done (Ok (), s) ∧
    current_frame s = Some (f, bool_decide (more = [])) ∧ io_wf (set_current_frame s None) ∧ juliet s = juliet self ∧
    frames_left (max_frame_size (juliet self)) it = f :: concat (map (frames_left (max_frame_size (juliet self))) more) ∧
    ready_queue s = queue ++ more ∧ (length more ≤ 1)%nat.
Proof.
  intros Hw Hc Hq. pose proof (iw_ready _ Hw) as Hr. rewrite Hq in Hr. apply Forall_cons in Hr as [Hit Hr].
  pose proof (pw_mfs _ (iw_juliet _ Hw)) as Hm.
  destruct (next_owned_ok _ _ it Hm Hit) as (f & more & Hn & Hf & Hh & Hmore).
  assert (good (juliet self) (len (buffer self)) self) as Hg by (split; [done|split; [done|lia]]).
  destruct (ready_next_frame_safe _ _ _ Hg Hc) as (r & s & Hs & Hgs).
  pose proof Hs as Hs'. unfold ready_next_frame in Hs'. rewrite Hc in Hs'. cbn [assert] in Hs'. rewrite bind_Done, Hq in Hs'.
  cbn [set_ready_queue juliet] in Hs'. rewrite Hn, bind_Done in Hs'.
  assert (io_wf (set_current_frame s None)) as Hws by by apply (good_current (juliet self) (len (buffer self))).
  rewrite (frames_left_step _ Hm _ _ _ _ Hit Hn).
  destruct more as [it'|]; injection Hs' as <- <-.
  - exists f, [it']. eexists. split; [exact Hs|]. cbn. rewrite app_nil_r. by split_and!.
  - exists f, []. eexists. split; [exact Hs|]. cbn. rewrite app_nil_r. split_and!; try done. lia.
Qed.

Lemma write_ready_spec fuel : ∀ self, io_wf self → current_frame self = None →
  (length (concat (queue_frames self)) < fuel)%nat →
  ∃ fs self', write_ready fuel self = Done (fs, self') ∧ ready_queue self' = [] ∧ io_wf self' ∧
    juliet self' = juliet self ∧ interleaving (queue_frames self) fs ∧
    take (length (ready_queue self)) fs = omap head (queue_frames self).
Proof.
  induction fuel as [|fuel IH]; intros self Hw Hc Hf; [lia|]. cbn [write_ready]. unfold queue_frames in *.
  set (fl := frames_left (max_frame_size (juliet self))) in *.
  destruct (ready_queue self) as [|it queue] eqn:Hq.
  { exists [], self. split; [done|]. split; [done|]. split; [done|]. split; [done|]. split; [|done]. by constructor. }
  destruct (ready_next_frame_step self it queue Hw Hc Hq) as (f & more & s & Hs & Hcur & Hws & Hj & Hfl & Hqs & Hlen).
  fold fl in Hfl. rewrite Hs, bind_Done, Hcur. cbn [unwrap]. rewrite bind_Done.
  destruct (IH (set_current_frame s None)) as (fs & s' & Hd & Hrq & Hws' & Hj' & Hin & Htake); [done|done| |].
  { cbn [set_current_frame juliet ready_queue]. rewrite Hj, Hqs, map_app, concat_app. fold fl. rewrite length_app.
    cbn [map concat] in Hf. rewrite length_app, Hfl in Hf. cbn [length] in Hf. lia. }
  cbn [set_current_frame juliet ready_queue] in Hd, Hj', Hin, Htake. rewrite Hj in Hin, Htake, Hj'. rewrite Hqs in Hin, Htake.
  fold fl in Hin, Htake. rewrite Hd, bind_Done. exists (f :: fs), s'. split; [done|]. split; [done|]. split; [done|].
  split; [done|]. cbn [map]. rewrite Hfl. split.
  - apply (interleaving_next []). cbn [app]. rewrite map_app in Hin.
    destruct more as [|it' [|? more]]; cbn [map concat] in *; [| |cbn in Hlen; lia].
    + rewrite app_nil_r in Hin. by apply interleaving_nil.
    + rewrite app_nil_r. eapply interleaving_perm; [exact Hin|]. rewrite Permutation_app_comm. done.
  - cbn [length omap list_omap head take]. f_equal. rewrite length_app, map_app, omap_app in Htake.
    apply (f_equal (take (length queue))) in Htake. rewrite take_take in Htake.
    rewrite Nat.min_l in Htake by lia. rewrite Htake. apply take_app_length'.
    pose proof (iw_ready _ Hw) as Hr. rewrite Hq in Hr. apply Forall_cons in Hr as [_ Hr].
    symmetry. exact (heads_length _ (pw_mfs _ (iw_juliet _ Hw)) _ _ Hr).
Qed.

(** The ready queue is written out completely, in order and fairly.  Writing until nothing
    is ready ends without a panic; what is written merges the frames every queued message has
    left - for a message not begun, those of the frame iterator -, each message's in their
    order and none lost or repeated; and before any message gets a second turn each message in
    the queue has written one frame. *)
Lemma ready_queue_written self : io_wf self → current_frame self = None →
  ∃ fs self', write_ready (S (length (concat (queue_frames self)))) self = Done (fs, self') ∧
    ready_queue self' = [] ∧ io_wf self' ∧
    interleaving (queue_frames self) fs ∧ fs ≡ₚ concat (queue_frames self) ∧
    take (length (ready_queue self)) fs = omap head (queue_frames self) ∧
    ∀ i msg, ready_queue self !! i = Some (frames msg) →
      ∃ l, queue_frames self !! i = Some l ∧ frame_iter msg (max_frame_size (juliet self)) = Done l.
Proof.
  intros Hw Hc. destruct (write_ready_spec (S (length (concat (queue_frames self)))) self Hw Hc)
    as (fs & s & Hd & Hr & Hws & _ & Hin & Ht); [lia|].
  exists fs, s. split; [done|]. split; [done|]. split; [done|]. split; [done|].
  split; [by apply interleaving_all|]. split; [done|].
  intros i msg Hi. exists (frames_left (max_frame_size (juliet self)) (frames msg)). split.
  - unfold queue_frames. by rewrite list_lookup_fmap, Hi.
  - pose proof (Forall_lookup_1 _ _ _ _ (iw_ready _ Hw) Hi) as [Hh Hp]. cbn in Hh, Hp.
    eapply frames_left_message; [apply Hw|done|]. destruct (om_payload msg) as [pl|]; [|done]. by destruct Hp.
Qed.
End core.

(** Two messages: a response of three frames and a request of one. *)
Definition two_messages : SampleCore :=
  set_ready_queue sample_core
    [frames (response_message (ChannelId_new 0) (Id_new 4) (Some (replicate 14 7)));
     frames (request_message (ChannelId_new 1) (Id_new 9) None)].
Lemma two_messages_wf : io_wf two_messages.
Proof.
  destruct sample_core_wf. constructor; try done.
  repeat constructor; vm_compute; discriminate.
Qed.
