(* ===== verification/CoreOps.v ===== *)
(** * The event loop as a transition system

    What a core can do, one operation at a time: parse what it has read, make a frame ready,
    write some of its bytes, go on when it is written, read some bytes, take an item from its
    queue, and give up a pending error.  [next_event] does nothing else, whatever its
    environment does. *)
From stdpp Require Import strings.
From S2P Require Import Prelude Lib Varint Header FrameSize OutgoingMessage WireFormat ByteIter Multiframe.
From S2P Require Import MultiframeSpec Protocol ProtocolInv ProcessIncoming ProtocolOps Io Instances IoSafe.
From stdpp Require Import options.

Lemma prefix_sublist {A} (l k : list A) : l `prefix_of` k → l `sublist_of` k.
Proof. intros [rest ->]. by apply sublist_inserts_r. Qed.

(** How [next_event] returns, if it does. *)
Abbreviation Returned IoError := (option (result (option IoEvent) (CoreError IoError))).

Inductive CoreOp (Permit IoError : Type) :=
  | OpParse (r : Returned IoError)
  | OpReady
  | OpWrite (bs : bytes)
  | OpWritten (bs : bytes) (r : Returned IoError)
  | OpRead (bs : bytes)
  | OpItem (item : QueuedItem Permit) (r : result () LocalProtocolViolation)
  | OpErrorWrite (w : ErrorWrite IoError).
Arguments OpParse {Permit IoError}.
Arguments OpReady {Permit IoError}.
Arguments OpWrite {Permit IoError}.
Arguments OpWritten {Permit IoError}.
Arguments OpRead {Permit IoError}.
Arguments OpItem {Permit IoError}.
Arguments OpErrorWrite {Permit IoError}.

Section ops.
Context {Permit IoError BM : Type} `{BiMapLaws IoId (ChannelId * Id) BM}.
#[local] Set Default Proof Using "Type*".
Implicit Types (self : IoCore Permit BM) (op : CoreOp Permit IoError) (ops : list (CoreOp Permit IoError)).

Inductive core_step : IoCore Permit BM → CoreOp Permit IoError → IoCore Permit BM → Prop :=
  | step_parse self r self' : pending_error self = None → parse_step self = Done (r, self') →
      core_step self (OpParse r) self'
  | step_ready self self' : current_frame self = None → ready_queue self ≠ [] →
      ready_next_frame self = Done (Ok (), self') → core_step self OpReady self'
  | step_write self frame is_final n frame' : current_frame self = Some (frame, is_final) →
      0 ≤ n ≤ Z.max 0 (len (frame_bytes frame) - 1) → OutgoingFrame_advance frame n = Done frame' →
      core_step self (OpWrite (take (Z.to_nat n) (frame_bytes frame)))
        (set_current_frame self (Some (frame', is_final)))
  | step_written self frame is_final frame' r self' : current_frame self = Some (frame, is_final) →
      OutgoingFrame_advance frame (len (frame_bytes frame)) = Done frame' →
      write_branch (set_current_frame self (Some (frame', is_final))) (Ok ()) = Done (r, self') →
      core_step self (OpWritten (frame_bytes frame) r) self'
  | step_read self bs : core_step self (OpRead bs) (set_buffer self (buffer self ++ bs))
  | step_item self item r self' : handle_incoming_item self item = Done (r, self') →
      core_step self (OpItem item r) self'
  | step_error_write self frame w : pending_error self = Some frame →
      core_step self (OpErrorWrite w) (finish_error_write self (OutgoingFrame_header frame) None w).2.

Inductive core_run : IoCore Permit BM → list (CoreOp Permit IoError) → IoCore Permit BM → Prop :=
  | run_done self : core_run self [] self
  | run_step self op self' ops self'' : core_step self op self' → core_run self' ops self'' →
      core_run self (op :: ops) self''.
Lemma core_run_app self ops self' ops' self'' : core_run self ops self' → core_run self' ops' self'' →
  core_run self (ops ++ ops') self''.
Proof. induction 1; [done|]. cbn [app]. eauto using core_run. Qed.
Lemma core_run_one self op self' : core_step self op self' → core_run self [op] self'.
Proof. eauto using core_run. Qed.

(** What a run reads and takes from its queue. *)
Definition ops_read ops : bytes := concat (map (λ op, match op with OpRead bs => bs | _ => [] end) ops).
Definition ops_items ops : list (QueuedItem Permit) := omap (λ op, match op with OpItem item _ => Some item | _ => None end) ops.
Lemma ops_read_app ops ops' : ops_read (ops ++ ops') = ops_read ops ++ ops_read ops'.
Proof. unfold ops_read. by rewrite map_app, concat_app. Qed.
Lemma ops_items_app ops ops' : ops_items (ops ++ ops') = ops_items ops ++ ops_items ops'.
Proof. apply omap_app. Qed.

(** What an environment offers to read, and in its queue. *)
Definition input_items (inputs : list (Input Permit IoError)) : list (QueuedItem Permit) :=
  concat (map (λ i, match i with
    | InPoll q => match received q with Some (RecvItems item more _) => item :: more | _ => [] end
    | _ => [] end) inputs).
Definition input_reads (inputs : list (Input Permit IoError)) : bytes :=
  concat (map (λ i, match i with InPoll q => read_bytes (reads q) | _ => [] end) inputs).

(** What an operation makes [next_event] return. *)
Definition op_returns op : Returned IoError :=
  match op with
  | OpParse r | OpWritten _ r => r
  | OpItem _ r => lift_local r
  | _ => None
  end.
Definition silent op : Prop := ∀ event, op ≠ OpParse (Some (Ok (Some event))).
(** An event is reported by the operation that parsed it, the last one; and none is passed over. *)
Definition explains ops (r : Returned IoError) : Prop :=
  match r with
  | Some (Ok (Some event)) => ∃ ops', ops = ops' ++ [OpParse r] ∧ Forall silent ops'
  | _ => Forall silent ops
  end.
Lemma explains_silent ops (r : Returned IoError) : Forall silent ops → (∀ event, r ≠ Some (Ok (Some event))) → explains ops r.
Proof. intros Hs Hr. destruct r as [[?|[event|]]|]; try done. by destruct (Hr event). Qed.
Lemma explains_parse (r : Returned IoError) : explains [OpParse r] r.
Proof. destruct r as [[?|[event|]]|]; cbn; [..|by exists []| |]; by repeat constructor. Qed.
Lemma explains_app ops ops' (r : Returned IoError) : Forall silent ops → explains ops' r → explains (ops ++ ops') r.
Proof.
  intros Hs. destruct r as [[?|[event|]]|]; cbn; [by apply Forall_app_2| |by apply Forall_app_2..].
  intros (ops0 & -> & Hs0). exists (ops ++ ops0). rewrite app_assoc. split; [done|]. by apply Forall_app_2.
Qed.

Lemma readied_safe p b self : good p b self → current_frame self = None → ready_queue self ≠ [] →
  ∃ self', ready_next_frame self = Done (Ok (), self') ∧ good p b self'.
Proof.
  intros Hg Hc Hq. destruct (ready_next_frame_safe p b self Hg Hc) as (r & s & Hr & Hg'). exists s. split; [|done].
  rewrite Hr. unfold ready_next_frame in Hr. rewrite Hc in Hr. destruct (ready_queue self); [done|]. inv_exec.
  destruct a0 as [f' [more|]]; by injection Hr as <- _.
Qed.

(** ** Types

    What the environment may give to an operation; [good] says what a core is made of, and every
    operation keeps it. *)
Definition op_fits (n : Z) op : Prop :=
  match op with OpRead bs => Forall u8 bs | OpItem item _ => item_ok n item | _ => True end.

Lemma written_safe p b self frame is_final n : good p b self → current_frame self = Some (frame, is_final) →
  0 ≤ n ≤ len (frame_bytes frame) →
  ∃ frame', OutgoingFrame_advance frame n = Done frame' ∧ good p b (set_current_frame self (Some (frame', is_final))).
Proof.
  intros Hg Hc Hn. pose proof Hg as (Hw & _ & _). destruct (iw_current _ Hw frame is_final Hc) as [Hf Hh].
  destruct (OutgoingFrame_advance_spec frame n Hf Hn) as (frame' & Ha & Hf' & _). exists frame'. split; [done|].
  apply good_current; [done|]. intros f fin [= <- _]. split; [done|].
  unfold OutgoingFrame_header in *. by rewrite (OutgoingFrame_advance_preamble _ _ _ Ha).
Qed.
Lemma core_step_good p b self op self' : 0 ≤ b → b + u32_max ≤ usize_max → good p b self →
  op_fits (len (channels p)) op → core_step self op self' → good p (b + len (ops_read [op])) self'.
Proof.
  intros Hb0 Hmax Hg Hop Hs.
  destruct Hs as [self r self' Hp Hd|self self' Hc Hq Hd|self frame fin n frame' Hc Hn Hd|self frame fin frame' r self' Hc Ha Hd|
    self bs|self item r self' Hd|self frame w Hp];
    unfold ops_read; cbn [map concat]; rewrite ?app_nil_r; try (change (len []) with 0; rewrite Z.add_0_r).
  - destruct (parse_step_safe (IoError := IoError) p b self Hmax Hb0 Hg) as (? & ? & Hd' & Hg'). rewrite Hd in Hd'. by injection Hd' as <- <-.
  - destruct (readied_safe p b self Hg Hc Hq) as (? & Hd' & Hg'). rewrite Hd in Hd'. by injection Hd' as <-.
  - pose proof (len_nonneg (frame_bytes frame)). destruct (written_safe p b self frame fin n Hg Hc) as (? & Hd' & Hg'); [lia|].
    rewrite Hd in Hd'. by injection Hd' as <-.
  - pose proof (len_nonneg (frame_bytes frame)).
    destruct (written_safe p b self frame fin (len (frame_bytes frame)) Hg Hc) as (? & Ha' & Hg'); [lia|].
    rewrite Ha in Ha'. injection Ha' as <-.
    destruct (write_branch_safe (IoError := IoError) p b _ (Ok ()) Hb0 Hg') as (? & ? & Hd' & Hg''). rewrite Hd in Hd'. by injection Hd' as <- <-.
  - pose proof Hg as (Hw & _ & Hl).
    eapply good_buffer; [done| |rewrite len_app; lia]. apply Forall_app. split; [apply Hw|done].
  - destruct (handle_incoming_item_safe p b self item Hb0 Hg) as (? & ? & Hd' & Hg');
      [by rewrite (same_count _ _ _ Hg)|]. rewrite Hd in Hd'. by injection Hd' as <- <-.
  - destruct w; cbn [finish_error_write snd]; try done. by destruct Hg as ([] & ? & ?).
Qed.
Lemma core_run_good p self ops self' : core_run self ops self' → ∀ b, 0 ≤ b → good p b self →
  Forall (op_fits (len (channels p))) ops → b + len (ops_read ops) + u32_max ≤ usize_max → good p (b + len (ops_read ops)) self'.
Proof.
  induction 1 as [self|self op self1 ops self' Hs _ IH]; intros b Hb0 Hg Hops Hmax.
  { change (len (ops_read [])) with 0. by rewrite Z.add_0_r. }
  apply Forall_cons in Hops as [Hop Hops]. change (op :: ops) with ([op] ++ ops) in *. rewrite ops_read_app, len_app in *.
  pose proof (len_nonneg (ops_read [op])). pose proof (len_nonneg (ops_read ops)). rewrite Z.add_assoc.
  apply IH; [lia| |done|lia]. eapply core_step_good; [lia|lia|done|done|done].
Qed.

Lemma begin_turn_run p b self begun self' : good p b self → b + u32_max ≤ usize_max → 0 ≤ b →
  begin_turn self = Done (begun, self') → ∃ ops, core_run self ops self' ∧ ops_read ops = [] ∧ ops_items ops = [] ∧
    match begun with
    | BegunReturn r => explains ops (Some r)
    | BegunErrorWrite header _ => Forall silent ops ∧ ∃ frame, pending_error self' = Some frame ∧ header = OutgoingFrame_header frame
    | BegunSelect => Forall silent ops
    end.
Proof.
  intros Hg Hmax Hb0. unfold begin_turn. destruct (pending_error self) as [f|] eqn:Hf.
  { intros Hd. inv_exec. simplify_eq. exists []. split; [constructor|]. split; [done|]. split; [done|]. split; [constructor|by exists f]. }
  destruct (parse_step_safe (IoError := IoError) p b self Hmax Hb0 Hg) as (r & s & Hp & Hg').
  rewrite Hp, bind_Done. pose proof (step_parse self r s Hf Hp) as Hstep. destruct r as [r|].
  { intros Hd. injection Hd as <- <-. exists [OpParse (Some r)]. split; [by apply core_run_one|]. split_and!; [done..|apply explains_parse]. }
  destruct (bool_decide_reflect (current_frame s = None)) as [Hc|]; cbn [andb];
    [destruct (bool_decide_reflect (ready_queue s ≠ [])) as [Hq|]|].
  2,3: intros Hd; injection Hd as <- <-; exists [OpParse None]; split; [by apply core_run_one|]; by repeat constructor.
  destruct (readied_safe p b s Hg' Hc Hq) as (s2 & Hr & _).
  rewrite Hr, bind_Done. intros Hd. injection Hd as <- <-. exists [OpParse None; OpReady].
  split; [econstructor; [exact Hstep|]; by apply core_run_one; constructor|by repeat constructor].
Qed.

(** What a poll that did not end with a frame written comes to. *)
Definition polled self (q : Poll Permit IoError) (branch : option (Branch Permit IoError)) self' : Prop :=
  ∃ ops, core_run self ops self' ∧ ops_read ops `prefix_of` read_bytes (reads q) ∧ ops_items ops = [] ∧ Forall silent ops ∧
    match branch with
    | Some (BranchWrite r) => ∃ e, r = Err e
    | Some (BranchRecv r) => received q = Some r
    | _ => True
    end.
(** The writer has had its part of the turn. *)
Lemma reading_run self (q : Poll Permit IoError) w s ops branch self' : w ≠ Some (Ok ()) →
  core_run self ops s → ops_read ops = [] → ops_items ops = [] → Forall silent ops →
  match w with
  | Some r => mret (Some (BranchWrite r), s)
  | None =>
      let '(read, buf) := read_until_bytesmut (reads q) (buffer s) (next_parse_at s) in
      match read with
      | Some r => mret (Some (BranchRead r), set_buffer s buf)
      | None => mret (BranchRecv <$> received q, set_buffer s buf)
      end
  end = Done (branch, self') → polled self q branch self'.
Proof.
  intros Hw Hrun Hr0 Hi0 Hs0. destruct w as [[e|[]]|]; [|done|].
  { intros Hd. injection Hd as <- <-. exists ops. rewrite Hr0. split; [done|]. split; [apply prefix_nil|].
    split; [done|]. split; [done|]. by exists e. }
  destruct (read_until_bytesmut_appends (reads q) (buffer s) (next_parse_at s)) as (got & Hgot & Hpre).
  destruct (read_until_bytesmut (reads q) (buffer s) (next_parse_at s)) as [read buf]. cbn in Hgot. subst buf.
  assert (core_run self (ops ++ [OpRead got]) (set_buffer s (buffer s ++ got))) as Hrun'
    by (eapply core_run_app; [done|]; apply core_run_one, step_read).
  intros Hd. exists (ops ++ [OpRead got]). rewrite ops_read_app, ops_items_app, Hr0, Hi0.
  change (ops_read [OpRead got]) with (got ++ []). rewrite app_nil_r. cbn [app].
  assert (Forall silent (ops ++ [OpRead got])) by (apply Forall_app_2; [done|by repeat constructor]).
  destruct read as [r|]; injection Hd as <- <-; (split; [done|]; split; [done|]; split; [done|]; split; [done|]); [done|].
  by destruct (received q).
Qed.
Lemma select_poll_run p b self (q : Poll Permit IoError) branch self' : good p b self → poll_ok (len (channels p)) q →
  select_poll self q = Done (branch, self') →
  (∃ frame is_final frame', branch = Some (BranchWrite (Ok ())) ∧ current_frame self = Some (frame, is_final) ∧
     OutgoingFrame_advance frame (len (frame_bytes frame)) = Done frame' ∧
     self' = set_current_frame self (Some (frame', is_final))) ∨ polled self q branch self'.
Proof.
  intros Hg (Hwr & Hrd & Hrc). unfold select_poll.
  destruct (current_frame self) as [[f fin]|] eqn:Hc.
  2: { cbn. intros Hd. right. by apply (reading_run self q None self []); [|constructor| | |constructor|]. }
  pose proof Hg as (Hwf & _ & _). destruct (iw_current _ Hwf f fin Hc) as [Hf Hh].
  change (buf_remaining f) with (OutgoingFrame_remaining f). rewrite OutgoingFrame_remaining_Done, bind_Done by done.
  assert (write_result q = Some (Ok ()) ∨ write_result q ≠ Some (Ok ())) as [->|Hno]
    by (destruct (write_result q) as [[e|[]]|]; [right|left|right]; done).
  - pose proof (len_nonneg (frame_bytes f)). destruct (OutgoingFrame_advance_spec f (len (frame_bytes f)) Hf) as (f' & Hadv & _); [lia|].
    change (buf_advance f (len (frame_bytes f))) with (OutgoingFrame_advance f (len (frame_bytes f))).
    rewrite Hadv. cbn. intros Hd. injection Hd as <- <-. left. by exists f, fin, f'.
  - set (cnt := match write_result q with Some (Ok _) => _ | _ => _ end).
    assert (0 ≤ cnt ≤ Z.max 0 (len (frame_bytes f) - 1)) as Hcnt.
    { subst cnt. destruct (write_result q) as [[e|[]]|]; [lia|done|lia]. }
    destruct (OutgoingFrame_advance_spec f cnt Hf) as (f' & Hadv & _); [pose proof (len_nonneg (frame_bytes f)); lia|].
    change (buf_advance f cnt) with (OutgoingFrame_advance f cnt). rewrite Hadv. cbn. intros Hd. right.
    by eapply (reading_run self q (write_result q) _ [OpWrite (take (Z.to_nat cnt) (frame_bytes f))]);
      [|apply core_run_one, step_write| | |repeat constructor|..].
Qed.

Lemma receive_more_run items d : ∀ self r self', receive_more self items d = Done (r, self') →
  ∃ ops, core_run self ops self' ∧ ops_read ops = [] ∧ ops_items ops `prefix_of` items ∧ explains ops r.
Proof.
  induction items as [|item items IH]; intros self r self' Hd; cbn [receive_more] in Hd.
  - injection Hd as <- <-. exists []. split; [constructor|]. split; [done|]. split; [done|]. by destruct d; constructor.
  - apply bind_Done_inv in Hd as ([h s] & Hh & Hd). pose proof (step_item self item h s Hh) as Hstep. destruct h as [e|[]].
    + injection Hd as <- <-. exists [OpItem item (Err e)]. split; [by apply core_run_one|]. split; [done|].
      split; [by exists items|]. by repeat constructor.
    + destruct (IH s r self' Hd) as (ops & Hrun & Hr & Hi & Hex). exists (OpItem item (Ok ()) :: ops).
      split; [by econstructor|]. split; [done|]. split; [by apply prefix_cons|].
      apply (explains_app [_] ops); [by repeat constructor|done].
Qed.

(** The rest of a turn. *)
Lemma turn_run p b self (q : Poll Permit IoError) br s r self' : good p b self → poll_ok (len (channels p)) q →
  select_poll self q = Done (Some br, s) → finish_turn s br = Done (r, self') → ∃ ops, core_run self ops self' ∧
    ops_read ops `prefix_of` read_bytes (reads q) ∧
    ops_items ops `prefix_of` match received q with Some (RecvItems item more _) => item :: more | _ => [] end ∧ explains ops r.
Proof.
  intros Hg Hq Hsel Hd. destruct (select_poll_run p b self q _ s Hg Hq Hsel) as
    [(f & fin & f' & Hbr & Hc & Hadv & ->)|(ops & Hrun & Hr & Hi & Hs & Hbr)].
  - injection Hbr as ->. exists [OpWritten (frame_bytes f) r]. split; [by apply core_run_one; econstructor|].
    split; [apply prefix_nil|]. split; [apply prefix_nil|]. apply explains_silent; [by repeat constructor|].
    intros event ->. cbn [finish_turn] in Hd.
    unfold write_branch in Hd. cbn [set_current_frame current_frame] in Hd. apply bind_Done_inv in Hd as (s & _ & Hd).
    destruct (is_error _); [by injection Hd|]. apply bind_Done_inv in Hd as ([pr s2] & _ & Hd). by destruct pr as [e|[]].
  - destruct br as [w|w|[|item more d]]; cbn [finish_turn recv_branch] in Hd.
    4: { apply receive_more_run in Hd as (ops2 & Hrun2 & Hr2 & Hi2 & Hex). exists (ops ++ ops2).
      rewrite ops_read_app, ops_items_app, Hr2, Hi, app_nil_r, Hbr. split; [by eapply core_run_app|]. split; [done|].
      split; [done|]. by apply explains_app. }
    { destruct Hbr as [e ->]. injection Hd as <- <-. exists ops. rewrite Hi. split_and!; try done. apply prefix_nil. }
    { destruct w as [e|[]]; injection Hd as <- <-; exists ops; rewrite Hi; (split_and!; try done; apply prefix_nil). }
    injection Hd as <- <-. exists ops. rewrite Hi. split_and!; try done. apply prefix_nil.
Qed.

Lemma resumed_run p (resume : bool) b self begun self' : 0 ≤ b → b + u32_max ≤ usize_max → good p b self →
  (if resume then mret (BegunSelect, self) else begin_turn self) = Done (begun, self') →
  good p b self' ∧ ∃ ops, core_run self ops self' ∧ ops_read ops = [] ∧ ops_items ops = [] ∧
    match begun with
    | BegunReturn r => explains ops (Some r)
    | BegunErrorWrite header _ => Forall silent ops ∧ ∃ frame, pending_error self' = Some frame ∧ header = OutgoingFrame_header frame
    | BegunSelect => Forall silent ops
    end.
Proof.
  intros Hb0 Hmax Hg Hd. destruct resume.
  { injection Hd as <- <-. split; [done|]. exists []. split; [constructor|]. by repeat constructor. }
  destruct (begin_turn_safe (IoError := IoError) p b self Hmax Hb0 Hg) as (r' & s' & Hd' & Hg').
  rewrite Hd in Hd'. injection Hd' as <- <-. split; [done|]. by eapply begin_turn_run.
Qed.
(** [inputs] lead from [self] to [self'] and the result [r]. *)
Definition follows (inputs : list (Input Permit IoError)) self (r : Returned IoError) self' : Prop :=
  ∃ ops, core_run self ops self' ∧ ops_read ops `sublist_of` input_reads inputs ∧
    ops_items ops `sublist_of` input_items inputs ∧ explains ops r.
Definition poll_items (q : Poll Permit IoError) : list (QueuedItem Permit) :=
  match received q with Some (RecvItems item more _) => item :: more | _ => [] end.
Lemma follows_stop inputs self ops r self' : core_run self ops self' → ops_read ops = [] → ops_items ops = [] →
  explains ops r → follows inputs self r self'.
Proof. intros Hrun Hr Hi Hex. exists ops. rewrite Hr, Hi. by split_and!; try apply sublist_nil_l. Qed.
Lemma follows_wait inputs self : follows inputs self None self.
Proof. by apply (follows_stop inputs self []); [constructor|..|repeat constructor]. Qed.
Lemma follows_begin inputs self ops s r self' : core_run self ops s → ops_read ops = [] → ops_items ops = [] →
  Forall silent ops → follows inputs s r self' → follows inputs self r self'.
Proof.
  intros Hrun Hr Hi Hs (ops' & Hrun' & Hr' & Hi' & Hex). exists (ops ++ ops'). rewrite ops_read_app, ops_items_app, Hr, Hi. cbn [app].
  split; [by eapply core_run_app|]. split; [done|]. split; [done|]. by apply explains_app.
Qed.
Lemma follows_return q inputs self ops r self' : core_run self ops self' → ops_read ops `prefix_of` read_bytes (reads q) →
  ops_items ops `prefix_of` poll_items q → explains ops r → follows (InPoll q :: inputs) self r self'.
Proof.
  intros Hrun Hr Hi Hex. exists ops. split; [done|]. split; [by apply sublist_inserts_r, prefix_sublist|].
  split; [by apply sublist_inserts_r, prefix_sublist|done].
Qed.
Lemma follows_poll q inputs self ops s r self' : core_run self ops s → ops_read ops `prefix_of` read_bytes (reads q) →
  ops_items ops `prefix_of` poll_items q → Forall silent ops → follows inputs s r self' → follows (InPoll q :: inputs) self r self'.
Proof.
  intros Hrun Hr Hi Hs (ops' & Hrun' & Hr' & Hi' & Hex). exists (ops ++ ops'). rewrite ops_read_app, ops_items_app.
  split; [by eapply core_run_app|]. split; [by apply sublist_app; [apply prefix_sublist|]|].
  split; [by apply sublist_app; [apply prefix_sublist|]|]. by apply explains_app.
Qed.

Lemma next_event_from_run p inputs : ∀ resume b self r self', 0 ≤ b → good p b self →
  Forall (input_ok (len (channels p))) inputs → b + input_bytes inputs + u32_max ≤ usize_max →
  next_event_from inputs resume self = Done (r, self') → follows inputs self r self'.
Proof.
  induction inputs as [|i inputs IH]; intros resume b self r self' Hb0 Hg Hi Hmax Hd; cbn [next_event_from] in Hd;
    apply bind_Done_inv in Hd as ([begun s1] & Hbd & Hd).
  - change (input_bytes []) with 0 in *. destruct (resumed_run p resume b self begun s1) as (_ & ops & Hrun & Hr & Hit & Hex);
      [lia..|done|done|]. destruct begun; injection Hd as <- <-; (eapply follows_stop; [exact Hrun|done..|]); try exact Hex; apply Hex.
  - assert (0 ≤ input_bytes (i :: inputs)) as Hn by apply len_nonneg.
    destruct (resumed_run p resume b self begun s1) as (Hg1 & ops & Hrun & Hr & Hit & Hex); [lia..|done|done|].
    apply Forall_cons in Hi as [Hi Hi'].
    destruct begun as [r'|h d|]; [by injection Hd as <- <-; eapply follows_stop| |].
    + destruct Hex as (Hs & f & Hf & ->). eapply follows_begin; [exact Hrun|done..|].
      destruct i as [w|q]; [|injection Hd as <- <-; apply follows_wait].
      pose proof (step_error_write s1 f w Hf) as Hstep.
      destruct w; cbn [finish_error_write] in Hd, Hstep; injection Hd as <- <-;
        (by eapply follows_stop; [apply core_run_one; exact Hstep|..|repeat constructor]).
    + eapply follows_begin; [exact Hrun|done..|].
      destruct i as [w|q]; [injection Hd as <- <-; apply follows_wait|].
      rewrite input_bytes_cons in *. pose proof (len_nonneg (read_bytes (reads q))).
      destruct (select_poll_safe p b s1 q Hg1 Hi) as (br & s2 & Hsp & Hg2 & Hbr). rewrite Hsp, bind_Done in Hd.
      destruct br as [br|].
      2: { destruct (select_poll_run p b s1 q None s2 Hg1 Hi Hsp) as [(? & ? & ? & ? & _)|(ops2 & Hrun2 & Hr2 & Hi2 & Hs2 & _)]; [done|].
           eapply follows_poll; [exact Hrun2|done|rewrite Hi2; apply prefix_nil|done|].
           by eapply (IH true (b + len (read_bytes (reads q)))); [lia|..|lia|]. }
      apply bind_Done_inv in Hd as ([r' s3] & Hft & Hd).
      destruct (turn_run p b s1 q br s2 r' s3 Hg1 Hi Hsp Hft) as (ops2 & Hrun2 & Hr2 & Hi2 & Hex2).
      destruct r' as [r'|]; [injection Hd as <- <-; by eapply follows_return|].
      destruct (finish_turn_safe p (b + len (read_bytes (reads q))) s2 br) as (r3 & s3' & Hd3 & Hg3); [lia|done|done|].
      rewrite Hft in Hd3. injection Hd3 as <- <-. eapply follows_poll; [exact Hrun2|done..|].
      by eapply (IH false (b + len (read_bytes (reads q)))); [lia|..|lia|].
Qed.
End ops.

(** C13: the event loop is a run of the core's operations. Take a core with its invariant, items for
    channels that exist - a response for one that does not makes the core panic - and bytes that fit
    the address space. Then polling [next_event] to the end of its inputs - however much of each
    frame the writer takes, whatever is read, whatever of these items the queue gives, and wherever
    the future is left waiting - changes the core by a sequence of the operations above; the bytes
    and the items it used are among those offered, in order; and an event is returned by the
    operation that parsed it, the last one, and no event is passed over. *)
Theorem next_event_runs {Permit IoError BM} `{BiMapLaws IoId (ChannelId * Id) BM}
    (self : IoCore Permit BM) (inputs : list (Input Permit IoError)) : io_wf self →
  Forall (input_ok (len (channels (juliet self)))) inputs →
  len (buffer self) + input_bytes inputs + u32_max ≤ usize_max →
  ∃ r self' ops, next_event inputs self = Done (r, self') ∧ core_run self ops self' ∧
    ops_read ops `sublist_of` input_reads inputs ∧ ops_items ops `sublist_of` input_items inputs ∧ explains ops r.
Proof.
  intros Hw Hi Hb. pose proof (len_nonneg (buffer self)).
  assert (good (juliet self) (len (buffer self)) self) as Hg by (split; [done|]; split; [done|lia]).
  destruct (next_event_from_safe (juliet self) inputs false (len (buffer self)) self) as (r & s & Hr & _); [done..|].
  destruct (next_event_from_run (juliet self) inputs false (len (buffer self)) self r s) as (ops & Hops); [done..|].
  by exists r, s, ops.
Qed.
(** A response is queued, which the protocol drops, and then a request comes in. *)
Lemma next_event_runs_witness :
  let inputs : list (Input () ()) :=
    [InPoll (mkPoll 0 None [] (Some (RecvItems (QResponse (ChannelId_new 1) (Id_new 3) (Some [1; 2])) [] false)));
     InPoll (mkPoll 0 None [ReadOk [0; 1]; ReadOk [7; 0]] None)] in
  ∃ r self' ops, next_event inputs sample_core = Done (r, self') ∧ core_run sample_core ops self' ∧
    ops_read ops `sublist_of` input_reads inputs ∧ ops_items ops `sublist_of` input_items inputs ∧ explains ops r.
Proof.
  intros inputs. apply (next_event_runs sample_core inputs sample_core_wf); [|vm_compute; discriminate].
  repeat constructor; try (vm_compute; discriminate).
Defined.

(** C16: a core is well-typed in every state it can reach, and no operation goes wrong there.  Take
    a built core and any operations, with bytes that fit the address space and with items for channels there are: what the
    core has in its fields stays what the code takes it for - every channel with its
    invariant and configuration, frames and messages that can be encoded, for channels that
    exist, one place per channel in each array, a one-to-one request map, an error frame if an
    error is pending - and whichever operation is due next, parsing, readying or
    writing a frame, in part or to its end, or taking an item, does not panic. *)
Theorem core_types_kept {Permit IoError BM S Snd} `{BiMapLaws IoId (ChannelId * Id) BM} `{Semaphore S Permit}
    (builder : IoCoreBuilder) (sender : Snd) (ops : list (CoreOp Permit IoError)) (self : IoCore Permit BM) :
  let p := ProtocolBuilder_build (protocol builder) in
  Forall ChannelConfiguration_wf (pb_channel_config (protocol builder)) → len (pb_channel_config (protocol builder)) ≤ 256 →
  MaxFrameSize_wf (pb_max_frame_size (protocol builder)) →
  core_run (IoCoreBuilder_build builder sender).1 ops self → Forall (op_fits (len (channels p))) ops →
  len (ops_read ops) + u32_max ≤ usize_max →
  io_wf self ∧ same_config p (juliet self) ∧ len (buffer self) ≤ len (ops_read ops) ∧
  (pending_error self = None → ∃ r self', core_step (IoError := IoError) self (OpParse r) self') ∧
  (current_frame self = None → ready_queue self ≠ [] → ∃ self', core_step (IoError := IoError) self OpReady self') ∧
  (∀ frame is_final, current_frame self = Some (frame, is_final) →
    (∀ n, 0 ≤ n < len (frame_bytes frame) → ∃ self', core_step (IoError := IoError) self (OpWrite (take (Z.to_nat n) (frame_bytes frame))) self') ∧
    ∃ r self', core_step (IoError := IoError) self (OpWritten (frame_bytes frame) r) self') ∧
  (∀ item, item_ok (len (channels p)) item → ∃ r self', core_step (IoError := IoError) self (OpItem item r) self').
Proof.
  intros p Hc Hn Hm Hrun Hops Hmax. pose proof (build_wf _ Hc Hn Hm) as Hp.
  pose proof (len_nonneg (ops_read ops)) as Hr0. set (b := len (ops_read ops)) in *.
  assert (good p b self) as Hg.
  { apply (core_run_good p _ _ _ Hrun 0); [done| |done|done]. split; [by apply IoCoreBuilder_build_wf|]. split; [|done].
    apply same_config_refl. }
  split; [apply Hg|]. split; [apply Hg|]. split; [apply Hg|]. split_and!.
  - intros Hpe. destruct (parse_step_safe (IoError := IoError) p b self Hmax Hr0 Hg) as (r & s & Hd & _). exists r, s. by constructor.
  - intros Hcur Hq. destruct (readied_safe p b self Hg Hcur Hq) as (s & Hd & _). exists s. by constructor.
  - intros frame fin Hcur. split.
    + intros n Hlt. destruct (written_safe p b self frame fin n Hg Hcur) as (frame' & Hd & _); [lia|].
      eexists. econstructor; [done|lia|done].
    + pose proof (len_nonneg (frame_bytes frame)).
      destruct (written_safe p b self frame fin (len (frame_bytes frame)) Hg Hcur) as (frame' & Ha & Hg'); [lia|].
      destruct (write_branch_safe (IoError := IoError) p b _ (Ok ()) Hr0 Hg') as (r & s & Hd & _). exists r, s. by econstructor.
  - intros item Hi. destruct (handle_incoming_item_safe p b self item Hr0 Hg) as (r & s & Hd & _);
      [by rewrite (same_count _ _ _ Hg)|]. exists r, s. by constructor.
Qed.
(** A request of the peer is read, one of the application is queued and its frame made ready. *)
Definition typed_item : QueuedItem () := QRequest (ChannelId_new 0) (mkIoId 1) (Some [1; 2]) ().
Definition typed_ops : list (CoreOp () ()) := [OpRead [0; 1; 7; 0]; OpItem typed_item (Ok ()); OpReady].
Definition typed_run : exec SampleCore :=
  '(_, self) ← handle_incoming_item (set_buffer sample_core (buffer sample_core ++ [0; 1; 7; 0])) typed_item;
  '(_, self) ← ready_next_frame self; mret self.
Lemma typed_run_run : match typed_run with Done self => core_run sample_core typed_ops self | _ => False end.
Proof.
  unfold typed_run.
  destruct (handle_incoming_item (set_buffer sample_core (buffer sample_core ++ [0; 1; 7; 0])) typed_item) as [[r s1]| |] eqn:H1;
    [|by vm_compute in H1..]. rewrite bind_Done.
  assert (r = Ok () ∧ current_frame s1 = None ∧ ready_queue s1 ≠ []) as (-> & Hc & Hq)
    by (vm_compute in H1; injection H1 as <- <-; done).
  destruct (ready_next_frame s1) as [[r s2]| |] eqn:H2; [|vm_compute in H1; injection H1 as <-; by vm_compute in H2..].
  assert (r = Ok ()) as -> by (vm_compute in H1; injection H1 as <-; vm_compute in H2; by injection H2 as <- _).
  eapply run_step; [apply step_read|]. eapply run_step; [by apply step_item|]. eapply run_step; [by apply step_ready|]. constructor.
Qed.
Lemma core_types_kept_witness :
  match typed_run with
  | Done self => io_wf self ∧ (∃ r self', core_step (IoError := ()) self (OpParse r) self') ∧
      ∃ r self', core_step (IoError := ()) self (OpWritten [2; 0; 1; 0; 2; 1; 2] r) self'
  | _ => False
  end.
Proof.
  pose proof typed_run_run as Hrun.
  assert (match typed_run with Done self => pending_error self = None ∧
    option_map (λ c, frame_bytes c.1) (current_frame self) = Some [2; 0; 1; 0; 2; 1; 2] | _ => False end) as Hok
    by (vm_compute; split; reflexivity).
  destruct typed_run as [self| |]; [|done..]. destruct Hok as [Hp Hf].
  destruct (core_types_kept (S := Z) sample_io_builder () typed_ops self) as (Hw & _ & _ & Hparse & _ & Hwrite & _).
  - by repeat constructor.
  - done.
  - done.
  - exact Hrun.
  - by repeat constructor.
  - done.
  - split; [done|]. split; [by apply Hparse|]. destruct (current_frame self) as [[f fin]|]; [|done].
    injection Hf as <-. by apply (Hwrite f fin).
Defined.
