(* ===== verification/Corners.v ===== *)
(** * Where the code does not do what it means to

    Situations in which the code's behaviour differs from what its comments promise.  Each theorem
    states what the code does there, for every core or channel that is in such a situation. *)
From stdpp Require Import strings.
From S2P Require Import Prelude Lib Varint Header FrameSize OutgoingMessage WireFormat ByteIter Multiframe.
From S2P Require Import MultiframeSpec Protocol ProtocolInv ProcessIncoming ProtocolOps Answers Delivery Io Instances IoSafe IoSpec ReadyQueue CoreOps.
From stdpp Require Import options.

Section core.
Context {Permit IoError BM : Type} `{BiMapLaws IoId (ChannelId * Id) BM}.
#[local] Set Default Proof Using "Type*".
Implicit Types (self : IoCore Permit BM) (item : QueuedItem Permit).

(** C35: after a violation by the peer its error is not sent.  When [process_incoming] answers
    [Fatal] while no frame is being written, the error is made pending and the queue to the
    handles is closed, but the loop goes on to [select!] before it looks at the pending error;
    there the closed queue, once it is empty, gives [None] at once, and [next_event] returns [Ok(None)], "the
    connection has been closed", with the error still pending. *)
Theorem fatal_error_not_sent self err p' rest : io_wf self →
  pending_error self = None → current_frame self = None →
  next_parse_at self ≤ len (buffer self) →
  process_incoming (juliet self) (buffer self) = Done (Fatal err, (p', rest)) →
  ∃ f self', next_event (IoError := IoError) [InPoll (mkPoll 0 None [] (Some RecvNone))] self = Done (Some (Ok None), self') ∧
    receiver_closed self' = true ∧ pending_error self' = Some f ∧ OutgoingFrame_header f = om_header err.
Proof.
  intros Hw Hpe Hcur Hparse Hinc.
  destruct (process_incoming_step _ _ (iw_juliet _ Hw) (iw_buffer _ Hw)) as (o & p2 & r2 & Ho & [Hp' Hs'] & _ & _ & He).
  rewrite Hinc in Ho. injection Ho as <- <- <-. destruct err as [h payload]. destruct He as (Hpl & _ & _). cbn in Hpl. subst payload.
  set (s1 := set_buffer (set_juliet (set_next_parse_at self 0) p') rest).
  destruct (inject_error_Done s1 h None) as (f & Hin & Hh & _); [apply Hp'|done|].
  unfold OutgoingMessage_new in Hin. exists f, (injected s1 f).
  assert (begin_turn (IoError := IoError) self = Done (BegunSelect, injected s1 f)) as Hbegin.
  { unfold begin_turn. rewrite Hpe. unfold parse_step. rewrite (proj2 (Z.leb_le _ _)) by done.
    cbn [set_next_parse_at juliet buffer]. rewrite Hinc, !bind_Done. fold s1. rewrite Hin, !bind_Done.
    change (mret (None, injected s1 f) ≫= ?g) with (g (None : option (result (option IoEvent) (CoreError IoError)), injected s1 f)).
    cbn [injected current_frame ready_queue s1 set_buffer set_juliet set_next_parse_at]. rewrite Hcur. done. }
  split; [|done]. unfold next_event. cbn [next_event_from]. rewrite Hbegin, bind_Done.
  unfold select_poll. cbn [injected current_frame s1 set_buffer set_juliet set_next_parse_at]. rewrite Hcur. done.
Qed.

(** A response for a channel that does not exist panics the core, where a request for one
    is refused with an error: [item_should_wait] indexes the active transfers with the channel
    of the response before anything has checked it. *)
Lemma response_to_unknown_channel_panics self ch id payload : io_wf self → channel_count self ≤ chan_raw ch →
  handle_incoming_item self (QResponse ch id payload) = Panicked.
Proof.
  intros Hw Hch. unfold handle_incoming_item, item_should_wait, array_get, ChannelId_get.
  destruct (decide (0 ≤ chan_raw ch)); [|done]. rewrite lookup_ge_None_2; [done|].
  pose proof (iw_active _ Hw) as Ha. unfold len in Ha. lia.
Qed.

(** Cancelling a request that is still waiting does nothing.  The request has no id yet,
    so the cancellation of its [IoId] is taken for one that came too late: the core is left as
    it is, the request stays in the wait queue and is sent later all the same. *)
Lemma cancelling_waiting_request_ignored self io : io_wf self →
  (∀ r, ¬ bm_rel (request_map self) io r) →
  handle_incoming_item self (QRequestCancellation io) = Done (Ok (), self).
Proof.
  intros Hw Hno. unfold handle_incoming_item. cbn [item_should_wait send_to_ready_queue].
  change (mret (Ok None) ≫= ?f) with (f (Ok None : result (option ChannelId) LocalProtocolViolation)). cbn beta iota.
  destruct (bm_get_by_left (request_map self) io) as [r|] eqn:Hr; [|done].
  apply bm_get_by_left_spec in Hr; [|apply Hw]. by apply Hno in Hr.
Qed.
(** ** A request that waits for the request limit *)

(** The only item that waits for a channel is a request, which fits and does not have to wait for another
    message: [process_wait_queue] sends it as soon as a request may be sent. *)
Definition waits_for_limit self ch io payload permit : Prop :=
  wait_queue self !! Z.to_nat (chan_raw ch) = Some [QRequest ch io payload permit] ∧
  (needs_frames (max_frame_size (juliet self)) payload = true → mjoin (active_multi_frame self !! Z.to_nat (chan_raw ch)) = None).
Lemma request_sent self ch io payload permit c : protocol_wf (juliet self) → len (active_multi_frame self) = channel_count self →
  ChannelId_wf ch → payload_wf payload →
  channels (juliet self) !! Z.to_nat (chan_raw ch) = Some c → Channel_allowed_to_send_request c = true →
  exceeds (max_request_payload_size (config c)) payload = false →
  ∃ id s, send_to_ready_queue self (QRequest ch io payload permit) = Done (Ok (), s) ∧
    (Id_new (candidate (prev_request_id c) 1) ∉ outgoing_requests c → id = Id_new (candidate (prev_request_id c) 1)) ∧
    juliet s = put_channel (juliet self) ch (with_outgoing c id) ∧
    request_map s = bm_insert (request_map self) io (ch, id) ∧
    ready_queue s = ready_queue self ++ [frames (request_message ch id payload)] ∧ wait_queue s = wait_queue self.
Proof.
  intros Hp Ha Hch Hpl Hc Hallow Hfits. pose proof (pw_mfs _ Hp) as Hm.
  assert (0 ≤ chan_raw ch < channel_count self) as Hlt.
  { apply lookup_lt_Some in Hc. destruct Hch. unfold channel_count, len. lia. }
  pose proof (create_request_spec (juliet self) ch payload Hp Hch) as Hcreate. rewrite Hc, Hfits, Hallow in Hcreate.
  destruct Hcreate as (id & Hcreate & Hfresh & Hid). exists id. cbn [send_to_ready_queue]. rewrite Hcreate, bind_Done.
  unfold OutgoingMessage_header. change (om_header (request_message ch id payload))
    with (Header_new (match payload with Some _ => KRequestPl | None => KRequest end) ch id).
  rewrite Header_id_new by done. unfold note_multi_frame. cbn [set_request_map set_juliet juliet put_channel max_frame_size].
  unfold request_message. rewrite is_multi_frame_Done, bind_Done by done.
  assert (Id_new (candidate (prev_request_id c) 1) ∉ outgoing_requests c → id = Id_new (candidate (prev_request_id c) 1)) as Hnext
    by (intros Hno; by eapply create_request_next).
  destruct (1 <? frame_count (max_frame_size (juliet self)) payload); [|by eexists].
  cbn [set_request_map set_juliet active_multi_frame]. change (ChannelId_get ch) with (chan_raw ch).
  rewrite array_set_Done, bind_Done by (rewrite Ha; done). by eexists.
Qed.
Lemma waiting_request_sent self ch io payload permit c : io_wf self → ChannelId_wf ch → waits_for_limit self ch io payload permit →
  channels (juliet self) !! Z.to_nat (chan_raw ch) = Some c → Channel_allowed_to_send_request c = true →
  exceeds (max_request_payload_size (config c)) payload = false →
  ∃ id s, process_wait_queue self ch = Done (Ok (), s) ∧
    (Id_new (candidate (prev_request_id c) 1) ∉ outgoing_requests c → id = Id_new (candidate (prev_request_id c) 1)) ∧
    juliet s = put_channel (juliet self) ch (with_outgoing c id) ∧
    request_map s = bm_insert (request_map self) io (ch, id) ∧
    ready_queue s = ready_queue self ++ [frames (request_message ch id payload)] ∧
    wait_queue s = <[Z.to_nat (chan_raw ch) := []]> (wait_queue self).
Proof.
  intros Hw Hch [Hq Hactive] Hc Hallow Hfits.
  assert (item_ok (channel_count self) (QRequest ch io payload permit)) as Hi.
  { apply Forall_singleton. exact (Forall_lookup_1 _ _ _ _ (iw_wait _ Hw) Hq). }
  assert (0 ≤ chan_raw ch < channel_count self) as Hlt.
  { apply lookup_lt_Some in Hc. destruct Hch. unfold channel_count, len. lia. }
  unfold process_wait_queue. change (ChannelId_get ch) with (chan_raw ch).
  rewrite (array_get_Done _ _ _ (proj1 Hlt) Hq), bind_Done. cbn [length process_wait_queue_loop]. change (ChannelId_get ch) with (chan_raw ch).
  rewrite (array_get_Done _ _ _ (proj1 Hlt) Hq), bind_Done. rewrite array_set_Done, bind_Done by (rewrite (iw_wait_len _ Hw); done).
  set (s1 := set_wait_queue self _). change (juliet s1) with (juliet self). change (active_multi_frame s1) with (active_multi_frame self).
  rewrite item_should_wait_Done, bind_Done by done. cbv zeta. rewrite Hc. pose proof Hallow as Hroom. unfold Channel_allowed_to_send_request in Hroom.
  rewrite Hroom. assert (needs_frames (max_frame_size (juliet self)) payload &&
    bool_decide (is_Some (mjoin (active_multi_frame self !! Z.to_nat (chan_raw ch)))) = false) as ->.
  { destruct (needs_frames _ _); [|done]. rewrite Hactive by done. by apply bool_decide_eq_false_2; intros [? ?]. }
  destruct (request_sent s1 ch io payload permit c) as (id & s & Hs & Hnext & Hj & Hrest); [apply Hw|apply Hw|done|apply Hi|done..|].
  rewrite Hs, bind_Done. exists id, s. split; [|done].
  unfold allowed_to_send_request. rewrite lookup_channel_Done, lookup_channel_mut_Done, Hj, bind_Done by apply Hlt.
  rewrite (put_channel_lookup _ ch c) by done. rewrite bind_Done. by destruct (negb _).
Qed.
(** What [process_incoming] leaves of a core, before the event is made. *)
Definition after_reading self (p : JulietProtocol) (rest : bytes) : IoCore Permit BM :=
  set_buffer (set_juliet (set_next_parse_at self 0) p) rest.
Lemma after_reading_wf self o p rest : io_wf self → process_incoming (juliet self) (buffer self) = Done (o, (p, rest)) →
  io_wf (after_reading self p rest).
Proof.
  intros Hw Hinc. destruct (process_incoming_step (juliet self) (buffer self) (iw_juliet _ Hw) (iw_buffer _ Hw))
    as (o2 & p2 & rest2 & Ho & Hstep & Hrest & _). rewrite Hinc in Ho. injection Ho as <- <- <-.
  assert (good (juliet self) (len (buffer self)) self) as Hg by (split; [done|]; split; [apply same_config_refl|done]).
  by apply (good_buffer _ _ (len rest) _ rest (good_step _ _ _ _ (good_parse_at _ _ _ 0 Hg) Hstep)).
Qed.
(** An answer makes room for a request. *)
Lemma answer_makes_room self read ch id p rest c : io_wf self → process_incoming (juliet self) (buffer self) = Done (Success read, (p, rest)) →
  (∃ payload, read = ReceivedResponse ch id payload) ∨ read = ResponseCancellation ch id →
  channels p !! Z.to_nat (chan_raw ch) = Some c →
  ChannelId_wf ch ∧ id ∉ outgoing_requests c ∧ Channel_allowed_to_send_request c = true.
Proof.
  intros Hw Hinc Hread Hc. pose proof (process_incoming_answers_at _ _ _ _ _ (iw_juliet _ Hw) (iw_buffer _ Hw) Hinc) as Ha.
  assert (ChannelId_wf ch ∧ chan_raw ch < len (channels (juliet self)) ∧ id ∈ outgoing_at (juliet self) ch ∧
    outgoing_at p ch = outgoing_at (juliet self) ch ∖ {[id]}) as (Hch & Hlt & Hin & Hout).
  { destruct Hread as [[payload ->]| ->]; cbn [answers_at] in Ha; tauto. }
  destruct (process_incoming_step (juliet self) (buffer self) (iw_juliet _ Hw) (iw_buffer _ Hw))
    as (o2 & p2 & rest2 & Ho & [_ [_ Hcfg]] & _). rewrite Hinc in Ho. injection Ho as <- <- <-.
  split; [done|]. unfold outgoing_at in Hin, Hout. rewrite Hc in Hout.
  destruct (channels (juliet self) !! Z.to_nat (chan_raw ch)) as [c0|] eqn:Hc0; [|set_solver].
  assert (config c = config c0) as Hsame.
  { apply (f_equal (λ l, l !! Z.to_nat (chan_raw ch))) in Hcfg. rewrite !list_lookup_fmap, Hc, Hc0 in Hcfg. by injection Hcfg. }
  split; [set_solver|]. pose proof (cw_outgoing c0 (channel_wf_lookup _ _ _ (iw_juliet _ Hw) Hc0)) as Hle.
  unfold Channel_allowed_to_send_request, Channel_request_limit. rewrite Hout, hs_len_remove_in, Hsame by done. apply Z.ltb_lt. lia.
Qed.

(** Operations that take nothing from the queue, finish no frame, and parse neither a response nor an error. *)
Definition quiet (op : CoreOp Permit IoError) : Prop :=
  match op with
  | OpItem _ _ | OpWritten _ _ | OpErrorWrite _ | OpParse (Some (Err _)) | OpParse (Some (Ok (Some (EvReceivedResponse _ _)))) => False
  | _ => True
  end.
Lemma quiet_parse self r self' : parse_step (IoError := IoError) self = Done (r, self') → quiet (OpParse r) →
  wait_queue self' = wait_queue self ∨ is_Some (pending_error self').
Proof.
  unfold parse_step. intros Hd Hq. destruct (_ <=? _); [|left; by injection Hd as _ <-].
  apply bind_Done_inv in Hd as ([o [p rest]] & Hinc & Hd). cbn [set_next_parse_at juliet buffer] in Hinc. destruct o as [n|e|read].
  - apply bind_Done_inv in Hd as (n' & _ & Hd). left. by injection Hd as _ <-.
  - apply bind_Done_inv in Hd as (s & Hi & Hd). injection Hd as _ <-. right. unfold inject_error in Hi. inv_exec. destruct a0 as [f k]. inv_exec. subst. by eexists.
  - apply bind_Done_inv in Hd as ([processed s] & Hp & Hd). destruct processed as [e|[]]; [by injection Hd as <- <-|].
    destruct (handle_completed_read s read) as [r0 s'] eqn:Hh. injection Hd as <- <-.
    destruct read as [h d|ch id pl|ch id pl|ch id|ch id]; cbn [handle_completed_read] in Hh.
    3: { destruct (bm_remove_by_right _ _) as [[[io k]|] map]; by injection Hh as <- <-. }
    all: injection Hp as <-; try (injection Hh as <- <-; by left).
    destruct (bm_remove_by_right _ _) as [[[io k]|] map]; injection Hh as <- <-; by left.
Qed.
Lemma quiet_step self op self' : core_step self op self' → quiet op →
  (wait_queue self' = wait_queue self ∨ is_Some (pending_error self')) ∧ (is_Some (pending_error self) → is_Some (pending_error self')).
Proof.
  intros Hs Hq. destruct Hs as [self r self' Hpe Hd|self self' Hc Hr Hd| | | | | ]; try done; try (split; [by left|done]).
  - split; [by eapply quiet_parse|]. rewrite Hpe. by intros [].
  - unfold ready_next_frame in Hd. rewrite Hc in Hd. destruct (ready_queue self) as [|it q]; [done|].
    apply bind_Done_inv in Hd as (? & _ & Hd). apply bind_Done_inv in Hd as ([f [more|]] & _ & Hd); injection Hd as <-; (split; [by left|done]).
Qed.
Lemma quiet_run self ops self' : core_run self ops self' → Forall quiet ops →
  (wait_queue self' = wait_queue self ∨ is_Some (pending_error self')) ∧ (is_Some (pending_error self) → is_Some (pending_error self')).
Proof.
  induction 1 as [|self op s1 ops s2 Hs _ IH]; intros Hq; [split; [by left|done]|].
  apply Forall_cons in Hq as [Hq Hqs]. destruct (quiet_step _ _ _ Hs Hq) as [H1 H2]. destruct (IH Hqs) as [H3 H4].
  split; [|auto]. destruct H1 as [H1|H1]; [|right; auto]. destruct H3 as [H3|H3]; [left; congruence|by right].
Qed.

(** C37: a request that waits for the request limit is stranded when the peer cancels instead
    of responding.  Take any core in which a request is all that waits for its channel, and let the
    next thing it parses be a cancelled response on that channel.  That makes room for the
    request: what the loop does after a response - [process_wait_queue] - would send it.
    But only responses process the wait queue: the cancellation is reported and the request stays,
    with nothing new to be sent; and however the loop then runs on, as long as it takes no item
    from the handles, finishes writing no other frame and reads no response and no error, the wait
    queue stays as it is, unless a violation of the peer ends the connection. *)
Theorem cancelled_response_strands_waiting_request self ch id p rest io waiting payload permit c : io_wf self →
  next_parse_at self ≤ len (buffer self) →
  process_incoming (juliet self) (buffer self) = Done (Success (ResponseCancellation ch id), (p, rest)) →
  bm_rel (request_map self) io (ch, id) → channels p !! Z.to_nat (chan_raw ch) = Some c →
  waits_for_limit (after_reading self p rest) ch waiting payload permit → exceeds (max_request_payload_size (config c)) payload = false →
  ∃ self', parse_step (IoError := IoError) self = Done (Some (Ok (Some (EvReceivedCancellationResponse io))), self') ∧
    wait_queue self' = wait_queue self ∧ ready_queue self' = ready_queue self ∧
    (∃ id' s, process_wait_queue self' ch = Done (Ok (), s) ∧ wait_queue s = <[Z.to_nat (chan_raw ch) := []]> (wait_queue self) ∧
       ready_queue s = ready_queue self ++ [frames (request_message ch id' payload)]) ∧
    ∀ ops s, core_run self' ops s → Forall quiet ops → wait_queue s = wait_queue self ∨ is_Some (pending_error s).
Proof.
  intros Hw Hparse Hinc Hrel Hc Hwait Hfits. pose proof (after_reading_wf _ _ _ _ Hw Hinc) as Hw1.
  destruct (answer_makes_room self _ ch id p rest c Hw Hinc) as (Hch & Hno & Hroom); [by right|done|].
  set (s1 := after_reading self p rest) in *.
  assert ((bm_remove_by_right (request_map s1) (ch, id)).1 = Some (io, (ch, id))) as Hrem
    by (apply bm_remove_Some; [apply Hw|done]).
  exists (set_request_map s1 (bm_remove_by_right (request_map s1) (ch, id)).2). split.
  { unfold parse_step. rewrite (proj2 (Z.leb_le _ _)) by done. cbn [set_next_parse_at juliet buffer]. rewrite Hinc, bind_Done.
    change (mret (Ok (), ?x) ≫= ?f) with (f (Ok () : result () LocalProtocolViolation, x)). cbv beta iota.
    unfold handle_completed_read. change (set_buffer _ _) with s1. destruct (bm_remove_by_right (request_map s1) (ch, id)) as [removed map]. cbn in Hrem. by subst removed. }
  split; [done|]. split; [done|]. split.
  - destruct (waiting_request_sent (set_request_map s1 (bm_remove_by_right (request_map s1) (ch, id)).2) ch waiting payload permit c)
      as (id' & s & Hs & _ & _ & _ & Hready & Hq); try done; [|by exists id', s].
    eapply (good_map (juliet s1) (len (buffer s1))); [by split; [done|]; split; [apply same_config_refl|done]|by apply bm_remove_wf, Hw1|].
    intros io' ch' id' Hr%bm_remove_spec; [|apply Hw1]. destruct Hr as [_ Hr]. by eapply (iw_map_ids _ Hw1).
  - intros ops s Hrun Hops. by apply quiet_run in Hrun as [Hrun _].
Qed.

End core.

Lemma fatal_error_not_sent_witness :
  let self : SampleCore := set_buffer sample_core [77; 1; 2; 3] in
  ∃ f self', next_event (IoError := ()) [InPoll (mkPoll 0 None [] (Some RecvNone))] self = Done (Some (Ok None), self') ∧
    pending_error self' = Some f ∧ OutgoingFrame_header f = Header_new_error EInvalidHeader UNKNOWN_CHANNEL UNKNOWN_ID.
Proof.
  intros self. assert (io_wf self) as Hw.
  { destruct sample_core_wf. constructor; try done. repeat constructor; vm_compute; discriminate. }
  destruct (fatal_error_not_sent (IoError := ()) self invalid_header_msg (juliet self) [77; 1; 2; 3] Hw)
    as (f & s & H1 & _ & H2 & H3); [done|done|vm_compute; discriminate|by vm_compute|].
  by exists f, s.
Defined.

(** The limit of one request is used up by request 1; another one waits. *)
Definition waiting_core (buffer : bytes) : IoCore () SampleMap :=
  one_core (one_channel 1 ∅ {[Id_new 1]} 1) buffer [QRequest (ChannelId_new 0) (mkIoId 12) None ()]
    [(mkIoId 10, (ChannelId_new 0, Id_new 1))].
Lemma waiting_core_wf buffer : Forall u8 buffer → io_wf (waiting_core buffer).
Proof.
  intros Hb. apply one_core_wf; [|done| | |by repeat constructor].
  - apply one_channel_wf; [split; [done|vm_compute; discriminate]|vm_compute; discriminate|vm_compute; discriminate| |apply set_Forall_empty|].
    + intros x Hx. assert (x = Id_new 1) as -> by set_solver. split; vm_compute; discriminate.
    + split; vm_compute; discriminate.
  - apply Forall_singleton. split; [split; vm_compute; discriminate|done].
  - split; apply NoDup_singleton.
Qed.
(** The peer cancels its response to request 1. *)
Lemma cancelled_response_strands_waiting_request_witness :
  ∃ self', parse_step (IoError := ()) (waiting_core [5; 0; 1; 0])
     = Done (Some (Ok (Some (EvReceivedCancellationResponse (mkIoId 10)))), self') ∧
   wait_queue self' = [[QRequest (ChannelId_new 0) (mkIoId 12) None ()]] ∧ ready_queue self' = [] ∧
   ∀ ops s, core_run (IoError := ()) self' ops s → Forall quiet ops → wait_queue s = wait_queue self' ∨ is_Some (pending_error s).
Proof.
  assert (io_wf (waiting_core [5; 0; 1; 0])) as Hw by (apply waiting_core_wf; repeat constructor; vm_compute; discriminate).
  assert (process_incoming (juliet (waiting_core [5; 0; 1; 0])) [5; 0; 1; 0] = Done (Success (ResponseCancellation (ChannelId_new 0) (Id_new 1)),
    (mkJulietProtocol [one_channel 1 ∅ ∅ 1] (mkMaxFrameSize 10), []))) as Hinc by (vm_compute; reflexivity).
  destruct (cancelled_response_strands_waiting_request (IoError := ()) (waiting_core [5; 0; 1; 0]) (ChannelId_new 0) (Id_new 1) _ []
    (mkIoId 10) (mkIoId 12) None () (one_channel 1 ∅ ∅ 1) Hw ltac:(vm_compute; discriminate) Hinc ltac:(by left) eq_refl)
    as (self' & Hp & Hq & Hr & _ & Hrun); [by split|done|].
  exists self'. split; [exact Hp|]. split; [exact Hq|]. split; [exact Hr|]. rewrite Hq. exact Hrun.
Defined.

(** All ids but 1 were used since request 1 was made; the next id in order is 1. *)
Definition wrapped_core : IoCore () SampleMap :=
  one_core (one_channel 2 ∅ {[Id_new 0; Id_new 1]} 0) [1; 0; 1; 0] [QRequest (ChannelId_new 0) (mkIoId 12) None ()]
    [(mkIoId 11, (ChannelId_new 0, Id_new 0)); (mkIoId 10, (ChannelId_new 0, Id_new 1))].

Lemma wrapped_core_wf : io_wf wrapped_core.
Proof.
  apply one_core_wf; [|repeat constructor; vm_compute; discriminate| | |by repeat constructor].
  - apply one_channel_wf; [split; [done|vm_compute; discriminate]|vm_compute; discriminate|vm_compute; discriminate| |apply set_Forall_empty|].
    + intros x Hx. assert (x = Id_new 0 ∨ x = Id_new 1) as [-> | ->] by set_solver; split; vm_compute; discriminate.
    + split; vm_compute; discriminate.
  - apply Forall_singleton. split; [split; vm_compute; discriminate|done].
  - split; (apply NoDup_cons; split; [cbn; set_solver|apply NoDup_singleton]).
Qed.

(** ** Cancelling a request while something is in transfer *)

(** A channel whose transfer was dropped by the cancellation of request [id]. *)
Definition without_transfer (c : Channel) (id : Id) : Channel :=
  set_incoming (set_receiver (set_allowance c (cancellation_allowance c - 1)) Ready) (incoming_requests c ∖ {[id]}).

Section mid_transfer.
Context (p : JulietProtocol) (Hp : protocol_wf p) (ch : ChannelId) (Hch : ChannelId_wf ch) (id : Id) (Hid : Id_wf id).
Context (c : Channel) (Hc : channels p !! Z.to_nat (chan_raw ch) = Some c) (k : Kind) (Hk : k = KRequestPl ∨ k = KResponsePl).
Context (stored : bytes) (missing : Z).
Context (Hr : current_multiframe_receiver c = InProgress (Header_new k ch id) stored (len stored + missing)).
#[local] Set Default Proof Using "Type*".

Lemma without_transfer_wf : 0 < cancellation_allowance c → channel_wf (without_transfer c id).
Proof using Hp Hc.
  intros Ha. pose proof (channel_wf_lookup _ _ _ Hp Hc) as Hw. pose proof (cw_allowance c Hw).
  destruct (set_allowance_wf c (cancellation_allowance c - 1) Hw) as [H1 _]; [lia|].
  destruct (set_receiver_wf _ Ready H1) as [H2 _]; [done..|].
  exact (proj1 (set_incoming_remove_wf _ id H2)).
Qed.
(** A cancellation under the id of the transfer drops it, whatever kind of message it is, and reports nothing. *)
Lemma cancel_drops_transfer rest : 0 < cancellation_allowance c → Forall u8 rest →
  process_incoming p (Header_as_ref (Header_new KCancelReq ch id) ++ rest)
  = process_incoming (put_channel p ch (without_transfer c id)) rest.
Proof.
  intros Ha Hrest. rewrite process_incoming_unfold by (done || by apply deliver_header_u8).
  rewrite (process_turn_header p KCancelReq ch id c) by done. unfold process_cancel_req.
  rewrite (proj2 (Z.eqb_neq _ _)), usub_Done by lia. rewrite bind_Done, advance_header, bind_Done.
  unfold cancel_transfer. cbn [set_allowance current_multiframe_receiver]. rewrite Hr. cbn [in_progress_header].
  rewrite !Header_id_new, bool_decide_eq_true_2 by done. unfold hs_contains, hs_remove.
  cbn [set_incoming set_receiver set_allowance incoming_requests snd].
  rewrite bool_decide_eq_false_2 by set_solver. done.
Qed.
(** The last frame of the transfer, if it is not cancelled. *)
Lemma last_frame_completes seg rest : missing = len seg → 0 < len seg ≤ mfs (max_frame_size p) - 4 → Forall u8 seg → Forall u8 rest →
  u32 (len stored + len seg) → transfer_acceptable k c id →
  ∃ p', process_incoming p ((Header_as_ref (Header_new k ch id) ++ seg) ++ rest)
    = Done (Success (completed_message k ch id (stored ++ seg) c).1, (p', rest)).
Proof.
  intros Hm Hl Hseg Hrest Hu Hacc. pose proof (turn_later k p ch id c stored seg 0 rest Hk Hp Hch Hid Hseg Hrest Hc Hacc Hu) as Ht.
  cbv zeta in Ht. rewrite Hr, Hm in Ht. unfold segment_frames in Ht. cbn [segments map concat] in Ht.
  rewrite take_ge_len, app_nil_r in Ht by lia. specialize (Ht ltac:(lia) eq_refl).
  rewrite process_incoming_unfold; [|done|].
  - destruct (completed_message k ch id (stored ++ seg) (set_receiver c Ready)) as [read c'] eqn:Hcm. rewrite Ht, bind_Done. exists (put_channel p ch c').
    destruct Hk as [-> | ->]; by injection Hcm as <- _.
  - rewrite <- app_assoc. apply deliver_header_u8; try done. by apply Forall_app.
Qed.
(** After a cancellation the next frame is taken for a message, and what does not belong to that stays in the buffer. *)
Lemma later_frame_taken_for_message pl more rest : 0 < cancellation_allowance c →
  len (varint_bytes (len pl)) + len pl ≤ mfs (max_frame_size p) - 4 → Forall u8 pl → Forall u8 more → Forall u8 rest →
  message_acceptable k (without_transfer c id) id pl →
  ∃ p', process_incoming p (Header_as_ref (Header_new KCancelReq ch id) ++
      (Header_as_ref (Header_new k ch id) ++ varint_bytes (len pl) ++ pl ++ more) ++ rest)
    = Done (Success (completed_message k ch id pl c).1, (p', more ++ rest)).
Proof.
  intros Ha Hfit Hpl Hmore Hrest Hacc. pose proof (pw_mfs p Hp) as Hm. pose proof (MaxFrameSize_wf_bounds _ Hm).
  pose proof (varint_bytes_len (len pl)). pose proof (len_nonneg pl). pose proof (without_transfer_wf Ha) as Hw.
  assert (u32 (len pl)) as Hu by ulia.
  assert (frame_count (max_frame_size p) (Some pl) = 1) as Hone.
  { pose proof (frame_count_bounds (max_frame_size p) pl Hm) as Hn. cbv zeta in Hn. pose proof (frame_count_pos (max_frame_size p) (Some pl)). nia. }
  assert (wire (max_frame_size p) (OutgoingMessage_new (Header_new k ch id) (Some pl))
    = Header_as_ref (Header_new k ch id) ++ varint_bytes (len pl) ++ pl) as Hwire.
  { rewrite wire_Some by done. cbv zeta. unfold later_frames. rewrite Hone. change (segments (Z.to_nat (1 - 1))) with (segments 0).
    cbn [segments map concat]. by rewrite take_ge_len, app_nil_r by lia. }
  assert (Header_wf (Header_new k ch id)) as Hh by (left; by exists k, ch, id).
  assert (Forall u8 (more ++ rest)) as Hmr by by apply Forall_app.
  assert ((Header_as_ref (Header_new k ch id) ++ varint_bytes (len pl) ++ pl ++ more) ++ rest
    = wire (max_frame_size p) (OutgoingMessage_new (Header_new k ch id) (Some pl)) ++ more ++ rest) as -> by by rewrite Hwire, <- !app_assoc.
  rewrite cancel_drops_transfer; [|done|apply Forall_app; split; [by apply wire_u8|done]].
  pose proof (deliver_payload k (put_channel p ch (without_transfer c id)) ch id (without_transfer c id) pl (more ++ rest) Hk) as Hd.
  cbn [put_channel max_frame_size] in Hd. cbn [put_channel] in Hd |- *.
  rewrite Hd; try done; [..|by apply (put_channel_lookup p ch c)].
  - destruct Hk as [-> | ->]; by eexists.
  - by apply put_channel_wf.
Qed.
End mid_transfer.

(** C38: cancelling a request destroys a response.  Requests of the two sides have ids of their
    own, so a peer may be sending the response to our request [id] in several frames while it
    cancels its own request [id] between two of them.  On any channel where a part of that
    response has come in, the cancellation, which is meant to drop a request in transfer, drops
    it, as the kind of the transfer is not looked at: the channel is ready for a new message, the
    peer's request [id], if it was waiting to be answered, is forgotten without an event, and our
    own stays outstanding.  Without the cancellation the last frame completes the response; after
    it a frame of the response is taken for the first of a message, so that, if it begins with
    the length of a payload that fits, that payload is reported as the response and the
    bytes behind it are left to be parsed as messages. *)
Theorem cancellation_drops_response_transfer (p : JulietProtocol) ch id c stored missing : protocol_wf p → ChannelId_wf ch → Id_wf id →
  channels p !! Z.to_nat (chan_raw ch) = Some c → 0 < cancellation_allowance c → id ∈ outgoing_requests c →
  current_multiframe_receiver c = InProgress (Header_new KResponsePl ch id) stored (len stored + missing) →
  let cancel := Header_as_ref (Header_new KCancelReq ch id) in
  let frame seg := Header_as_ref (Header_new KResponsePl ch id) ++ seg in
  (∃ c', current_multiframe_receiver c' = Ready ∧ incoming_requests c' = incoming_requests c ∖ {[id]} ∧
     outgoing_requests c' = outgoing_requests c ∧
     ∀ rest, Forall u8 rest → process_incoming p (cancel ++ rest) = process_incoming (put_channel p ch c') rest) ∧
  (∀ seg rest, missing = len seg → 0 < len seg ≤ mfs (max_frame_size p) - 4 → u32 (len stored + len seg) → Forall u8 seg → Forall u8 rest →
     ∃ p', process_incoming p (frame seg ++ rest) = Done (Success (ReceivedResponse ch id (Some (stored ++ seg))), (p', rest))) ∧
  ∀ pl more rest, len (varint_bytes (len pl)) + len pl ≤ mfs (max_frame_size p) - 4 → len pl ≤ max_response_payload_size (config c) →
     Forall u8 pl → Forall u8 more → Forall u8 rest →
     ∃ p', process_incoming p (cancel ++ frame (varint_bytes (len pl) ++ pl ++ more) ++ rest)
       = Done (Success (ReceivedResponse ch id (Some pl)), (p', more ++ rest)).
Proof.
  intros Hp Hch Hid Hc Ha Hout Hr cancel frame. assert (KResponsePl = KRequestPl ∨ KResponsePl = KResponsePl) as Hk by by right.
  split; [|split].
  - exists (without_transfer c id). split_and!; try done. intros rest Hrest.
    by apply (cancel_drops_transfer p Hp ch Hch id Hid c Hc KResponsePl Hk stored missing Hr).
  - intros seg rest Hm Hl Hu Hseg Hrest.
    by apply (last_frame_completes p Hp ch Hch id Hid c Hc KResponsePl Hk stored missing Hr).
  - intros pl more rest Hfit Hmax Hpl Hmore Hrest.
    by apply (later_frame_taken_for_message p Hp ch Hch id Hid c Hc KResponsePl Hk stored missing Hr).
Qed.

(** The first of two frames of a response to request 7 has arrived; the peer has a request 7 of
    its own.  The rest of the response begins with a length. *)
Definition crossing : Channel :=
  {| incoming_requests := {[Id_new 7]}; outgoing_requests := {[Id_new 7]};
     current_multiframe_receiver := InProgress (Header_new KResponsePl (ChannelId_new 0) (Id_new 7)) [1; 2; 3; 4; 5] 11;
     cancellation_allowance := 1; config := mkChannelConfiguration 2 100 50; prev_request_id := 7 |}.
Definition crossing_protocol : JulietProtocol := mkJulietProtocol [crossing] (mkMaxFrameSize 10).
Lemma crossing_wf : protocol_wf crossing_protocol.
Proof.
  constructor; [|vm_compute; discriminate|split; vm_compute; discriminate]. apply Forall_singleton.
  constructor.
  - split; [|split]; split; vm_compute; discriminate.
  - vm_compute; discriminate.
  - vm_compute; discriminate.
  - intros x Hx. assert (x = Id_new 7) as -> by (cbn in Hx; set_solver). split; vm_compute; discriminate.
  - intros x Hx. assert (x = Id_new 7) as -> by (cbn in Hx; set_solver). split; vm_compute; discriminate.
  - split; vm_compute; discriminate.
  - split; [by vm_compute|split; vm_compute; discriminate].
  - split; [left; by exists KResponsePl, (ChannelId_new 0), (Id_new 7)|]. right. split; [done|]. split; [done|]. vm_compute; discriminate.
  - split; vm_compute; discriminate.
Qed.
Lemma cancellation_drops_response_transfer_witness :
  (∃ p', process_incoming crossing_protocol [3; 0; 7; 0; 2; 7; 8; 0; 0; 9]
     = Done (Success (ReceivedResponse (ChannelId_new 0) (Id_new 7) (Some [1; 2; 3; 4; 5; 2; 7; 8; 0; 0; 9])), (p', []))) ∧
  ∃ p', process_incoming crossing_protocol ([4; 0; 7; 0] ++ [3; 0; 7; 0; 2; 7; 8; 0; 0; 9])
     = Done (Success (ReceivedResponse (ChannelId_new 0) (Id_new 7) (Some [7; 8])), (p', [0; 0; 9])).
Proof.
  destruct (cancellation_drops_response_transfer crossing_protocol (ChannelId_new 0) (Id_new 7) crossing [1; 2; 3; 4; 5] 6 crossing_wf)
    as (_ & Hlast & Hlater); try done; split.
  - apply (Hlast [2; 7; 8; 0; 0; 9] []); try done; repeat constructor; vm_compute; discriminate.
  - apply (Hlater [7; 8] [0; 0; 9] []); try done; try (vm_compute; discriminate); repeat constructor; vm_compute; discriminate.
Defined.

(** ** Cancelling a request while it is sent *)

(** A request of four frames.  The second half of its payload looks like messages. *)
Definition long_request (payload : bytes) : QueuedItem () :=
  QRequest (ChannelId_new 0) (mkIoId 7) (Some payload) ().
Definition hostile_payload : bytes := replicate 11 0 ++ [1; 42] ++ [0; 0; 77; 0] ++ [1; 5; 5].
(** The core queues the request, writes its first frame, is given [items], and writes the rest. *)
Definition write_request_then (items : list (QueuedItem ())) : exec (list OutgoingFrame) :=
  '(_, self) ← handle_incoming_item sample_core (long_request hostile_payload);
  '(_, self) ← ready_next_frame self;
  '(frame, _) ← unwrap (current_frame self);
  '(_, self) ← receive_more (IoError := ()) (set_current_frame self None) items false;
  '(fs, _) ← write_ready 10 self;
  mret (frame :: fs).

(** A core that cancels a request it has sent one of four frames of, and its peer: the two cores have done
    nothing else.  Bytes of the payload are read as lengths and headers, requests that were never
    made are reported, and then the limit for requests is violated, which ends the
    connection. *)
Lemma cancelling_request_example :
  io_wf sample_core ∧
  (∃ fs p', write_request_then [] = Done fs ∧
     process_incoming (juliet sample_core) (concat (map frame_bytes fs))
       = Done (Success (NewRequest (ChannelId_new 0) (Id_new 1) (Some hostile_payload)), (p', []))) ∧
  ∃ fs p1 b1 p2 b2 p3 b3, write_request_then [QRequestCancellation (mkIoId 7)] = Done fs ∧
    process_incoming (juliet sample_core) (concat (map frame_bytes fs))
      = Done (Success (NewRequest (ChannelId_new 0) (Id_new 1) (Some [42])), (p1, b1)) ∧
    process_incoming p1 b1 = Done (Success (NewRequest (ChannelId_new 0) (Id_new 77) None), (p2, b2)) ∧
    process_incoming p2 b2
      = Done (Fatal (OutgoingMessage_new (Header_new_error ERequestLimitExceeded (ChannelId_new 0) (Id_new 1)) None), (p3, b3)).
Proof.
  split; [apply sample_core_wf|]. split.
  - do 2 eexists. split; [vm_compute; reflexivity|]. vm_compute. reflexivity.
  - do 7 eexists. split; [vm_compute; reflexivity|]. split; [vm_compute; reflexivity|].
    split; [vm_compute; reflexivity|]. vm_compute. reflexivity.
Qed.

(** C34: cancelling a request while it is being sent makes the peer take its payload for messages.
    A core that takes the cancellation of an outstanding request queues the cancellation and leaves
    the ready queue as it is, the frames left of that very request included.  A peer that has
    a part of the request drops it when the cancellation arrives, without an event, and is ready
    for a new message.  Without the cancellation the last frame completes the request; after it a
    frame of the request is taken for the first of a message: if it begins with the length
    of a payload that fits, a request with this payload, which nobody made, is reported under
    the cancelled id, and the bytes behind it are left in the buffer, to be parsed as messages. *)
Theorem cancelling_request_mid_transfer_corrupts {Permit BM} `{BiMapLaws IoId (ChannelId * Id) BM}
    (self : IoCore Permit BM) (io : IoId) (own : Channel) (peer : JulietProtocol) ch id c stored missing :
  io_wf self → bm_rel (request_map self) io (ch, id) → channels (juliet self) !! Z.to_nat (chan_raw ch) = Some own →
  id ∈ outgoing_requests own →
  protocol_wf peer → Id_wf id → channels peer !! Z.to_nat (chan_raw ch) = Some c → 0 < cancellation_allowance c → id ∈ incoming_requests c →
  current_multiframe_receiver c = InProgress (Header_new KRequestPl ch id) stored (len stored + missing) →
  let cancel := Header_new KCancelReq ch id in
  let frame seg := Header_as_ref (Header_new KRequestPl ch id) ++ seg in
  handle_incoming_item self (QRequestCancellation io)
    = Done (Ok (), set_ready_queue self (ready_queue self ++ [frames (OutgoingMessage_new cancel None)])) ∧
  (∃ c', current_multiframe_receiver c' = Ready ∧ incoming_requests c' = incoming_requests c ∖ {[id]} ∧
     ∀ rest, Forall u8 rest → process_incoming peer (Header_as_ref cancel ++ rest) = process_incoming (put_channel peer ch c') rest) ∧
  (∀ seg rest, missing = len seg → 0 < len seg ≤ mfs (max_frame_size peer) - 4 → u32 (len stored + len seg) → Forall u8 seg → Forall u8 rest →
     ∃ p', process_incoming peer (frame seg ++ rest) = Done (Success (NewRequest ch id (Some (stored ++ seg))), (p', rest))) ∧
  ∀ pl more rest, len (varint_bytes (len pl)) + len pl ≤ mfs (max_frame_size peer) - 4 → len pl ≤ max_request_payload_size (config c) →
     Forall u8 pl → Forall u8 more → Forall u8 rest →
     ∃ p', process_incoming peer (Header_as_ref cancel ++ frame (varint_bytes (len pl) ++ pl ++ more) ++ rest)
       = Done (Success (NewRequest ch id (Some pl)), (p', more ++ rest)).
Proof.
  intros Hw Hrel Hown Hout Hp Hid Hc Ha Hin Hr cancel frame. assert (KRequestPl = KRequestPl ∨ KRequestPl = KResponsePl) as Hk by by left.
  pose proof (iw_map_ids _ Hw _ _ _ Hrel) as Hch. split; [|split; [|split]].
  - unfold handle_incoming_item. cbn [item_should_wait send_to_ready_queue].
    change (mret (Ok None) ≫= ?f) with (f (Ok None : result (option ChannelId) LocalProtocolViolation)). cbn beta iota.
    rewrite (proj2 (bm_get_by_left_spec _ _ _ (iw_map _ Hw)) Hrel). rewrite cancel_request_spec, bind_Done, Hown by done.
    rewrite bool_decide_eq_true_2 by done. by destruct self.
  - exists (without_transfer c id). split_and!; try done. intros rest Hrest.
    by apply (cancel_drops_transfer peer Hp ch Hch id Hid c Hc KRequestPl Hk stored missing Hr).
  - intros seg rest Hm Hl Hu Hseg Hrest.
    by apply (last_frame_completes peer Hp ch Hch id Hid c Hc KRequestPl Hk stored missing Hr).
  - intros pl more rest Hfit Hmax Hpl Hmore Hrest.
    apply (later_frame_taken_for_message peer Hp ch Hch id Hid c Hc KRequestPl Hk stored missing Hr); try done.
    split; [|done]. pose proof (cw_incoming c (channel_wf_lookup _ _ _ Hp Hc)). unfold request_acceptable, is_at_max_incoming_requests.
    cbn [without_transfer set_incoming incoming_requests set_receiver set_allowance config]. split; [|set_solver].
    rewrite hs_len_remove_in by done. apply Z.leb_gt. lia.
Qed.
(** Request 1 is outstanding in a core; its peer has five bytes of the payload.  The next frame is
    taken for a request of one byte, and what follows will be taken for request 77. *)
Definition half_received : Channel :=
  {| incoming_requests := {[Id_new 1]}; outgoing_requests := ∅;
     current_multiframe_receiver := InProgress (Header_new KRequestPl (ChannelId_new 0) (Id_new 1)) [1; 2; 3; 4; 5] 17;
     cancellation_allowance := 1; config := mkChannelConfiguration 2 100 50; prev_request_id := 0 |}.
Lemma half_received_wf : protocol_wf (mkJulietProtocol [half_received] (mkMaxFrameSize 10)).
Proof.
  constructor; [|vm_compute; discriminate|split; vm_compute; discriminate]. apply Forall_singleton.
  constructor; [split; [|split]; split; vm_compute; discriminate|vm_compute; discriminate|vm_compute; discriminate|apply set_Forall_empty| |
    split; vm_compute; discriminate|split; [by vm_compute|split; vm_compute; discriminate]| |split; vm_compute; discriminate].
  - intros x Hx. assert (x = Id_new 1) as -> by (cbn in Hx; set_solver). split; vm_compute; discriminate.
  - split; [left; by exists KRequestPl, (ChannelId_new 0), (Id_new 1)|]. left. split; [done|]. split; [done|]. vm_compute; discriminate.
Qed.
Lemma cancelling_request_mid_transfer_corrupts_witness :
  (∃ self, handle_incoming_item (waiting_core []) (QRequestCancellation (mkIoId 10)) = Done (Ok (), self) ∧
     ready_queue self = [frames (OutgoingMessage_new (Header_new KCancelReq (ChannelId_new 0) (Id_new 1)) None)]) ∧
  ∃ p', process_incoming (mkJulietProtocol [half_received] (mkMaxFrameSize 10)) ([4; 0; 1; 0] ++ [2; 0; 1; 0; 1; 42; 0; 0; 77; 0])
     = Done (Success (NewRequest (ChannelId_new 0) (Id_new 1) (Some [42])), (p', [0; 0; 77; 0])).
Proof.
  assert (bm_rel [(mkIoId 10, (ChannelId_new 0, Id_new 1))] (mkIoId 10) (ChannelId_new 0, Id_new 1)) as Hrel by by left.
  assert (Id_new 1 ∈ ({[Id_new 1]} : gset Id)) as Hin by set_solver.
  assert (io_wf (waiting_core [])) as Hw by by apply waiting_core_wf.
  destruct (cancelling_request_mid_transfer_corrupts (waiting_core []) (mkIoId 10) (one_channel 1 ∅ {[Id_new 1]} 1)
    (mkJulietProtocol [half_received] (mkMaxFrameSize 10)) (ChannelId_new 0) (Id_new 1) half_received [1; 2; 3; 4; 5] 12
    Hw Hrel eq_refl Hin half_received_wf ltac:(done) eq_refl ltac:(done) Hin eq_refl) as (Hqueued & _ & _ & Hlater). split.
  - eexists. split; [exact Hqueued|done].
  - apply (Hlater [42] [0; 0; 77; 0] []); try done; try (vm_compute; discriminate); repeat constructor; vm_compute; discriminate.
Defined.

(** Cancelling a request a second time is not without effect, as the documentation of
    [enqueue_request_cancellation] has it: the request stays in the request map until it is
    answered, so a second cancellation is sent, and the peer, which allows one for each request,
    takes it for a violation and ends the connection. *)
Lemma second_cancellation_ends_connection :
  io_wf sample_core ∧
  ∃ self fs p1 b1 p2 b2 p3 b3,
    receive_more (IoError := ()) sample_core
      [QRequest (ChannelId_new 0) (mkIoId 7) None (); QRequestCancellation (mkIoId 7); QRequestCancellation (mkIoId 7)] false
      = Done (None, self) ∧
    write_ready 5 self = Done fs ∧
    process_incoming (juliet sample_core) (concat (map frame_bytes fs.1))
      = Done (Success (NewRequest (ChannelId_new 0) (Id_new 1) None), (p1, b1)) ∧
    process_incoming p1 b1 = Done (Success (RequestCancellation (ChannelId_new 0) (Id_new 1)), (p2, b2)) ∧
    process_incoming p2 b2
      = Done (Fatal (OutgoingMessage_new (Header_new_error ECancellationLimitExceeded (ChannelId_new 0) (Id_new 1)) None), (p3, b3)).
Proof.
  split; [apply sample_core_wf|]. do 8 eexists. split; [vm_compute; reflexivity|]. split; [vm_compute; reflexivity|].
  split; [vm_compute; reflexivity|]. split; [vm_compute; reflexivity|]. vm_compute. reflexivity.
Qed.
