(* ===== verification/Permits.v ===== *)
(** * Permits

    A request may be queued only with a permit of the semaphore of its channel, which goes back
    when the core has turned the request into a message.  So, whatever happens to the connection, the
    permits left, those the application holds in tickets, and the requests queued and waiting
    add up to the buffer size of the channel: the buffers of a core are bounded. *)
From stdpp Require Import strings.
From S2P Require Import Prelude Lib Varint Header FrameSize OutgoingMessage WireFormat ByteIter Multiframe.
From S2P Require Import MultiframeSpec Protocol ProtocolInv ProcessIncoming ProtocolOps Io Instances IoSafe CoreOps.
From stdpp Require Import options.

(** What the documentation of [tokio::sync::Semaphore] says, for one that nobody closes:
    [add_permit] is the dropping of a permit. *)
Class SemaphoreLaws (S Permit : Type) `{Semaphore S Permit} := {
  available : S → Z;
  add_permit : S → S;
  sem_new_available n : available (sem_new n) = n;
  add_permit_available s : available (add_permit s) = available s + 1;
  try_acquire_available s :
    match try_acquire_owned s with
    | (Ok _, s') => 0 < available s ∧ available s' = available s - 1
    | (Err e, s') => available s ≤ 0 ∧ available s' = available s ∧ e = NoPermits
    end;
  acquire_available s :
    match acquire_owned s with
    | (Some (Ok _), s') => 0 < available s ∧ available s' = available s - 1
    | (Some (Err _), s') => False
    | (None, s') => available s' = available s
    end;
}.
#[export, program] Instance counting_semaphore_laws : SemaphoreLaws Z () := {
  available n := n;
  add_permit n := n + 1;
}.
Next Obligation. done. Qed.
Next Obligation. done. Qed.
Next Obligation. intros s. cbn. destruct (Z.ltb_spec 0 s); [done|]. split; [lia|done]. Qed.
Next Obligation. intros s. cbn. by destruct (Z.ltb_spec 0 s). Qed.

(** ** The core *)

Section permits.
Context {Permit IoError BM : Type} `{BiMap IoId (ChannelId * Id) BM}.
#[local] Set Default Proof Using "Type*".
Implicit Types (c : IoCore Permit BM) (item : QueuedItem Permit) (op : CoreOp Permit IoError).

Definition items_permits (items : list (QueuedItem Permit)) : list (ChannelId * Permit) := concat (map item_permits items).
(** The permits a core holds: those of the requests that wait. *)
Definition held_permits c : list (ChannelId * Permit) := items_permits (concat (wait_queue c)).

Lemma items_permits_app l k : items_permits (l ++ k) = items_permits l ++ items_permits k.
Proof. unfold items_permits. by rewrite map_app, concat_app. Qed.
Lemma items_permits_perm l k : l ≡ₚ k → items_permits l ≡ₚ items_permits k.
Proof.
  induction 1 as [|item l k _ IH|x y l|l k k' _ IH1 _ IH2]; [done|by apply Permutation_app_head| |by etransitivity].
  unfold items_permits. cbn [map concat]. by rewrite Permutation_app_swap_app.
Qed.

(** An operation given [items] keeps their permits or drops them, and drops some that it held; it
    closes the receiver only together with an error. *)
Definition stays_open c c' : Prop :=
  pending_error c' = None → pending_error c = None ∧ receiver_closed c' = receiver_closed c.
Definition accounts c (items : list (QueuedItem Permit)) c' : Prop :=
  ∃ gone, dropped_permits c' = dropped_permits c ++ gone ∧ held_permits c' ++ gone ≡ₚ items_permits items ++ held_permits c.
Definition conserves c (items : list (QueuedItem Permit)) c' : Prop := accounts c items c' ∧ stays_open c c'.
Lemma accounts_same c c' : wait_queue c' = wait_queue c → dropped_permits c' = dropped_permits c → accounts c [] c'.
Proof. intros Hw Hd. exists []. unfold held_permits. by rewrite Hw, Hd, !app_nil_r. Qed.
Lemma conserves_same c c' : wait_queue c' = wait_queue c → dropped_permits c' = dropped_permits c →
  pending_error c' = pending_error c → receiver_closed c' = receiver_closed c → conserves c [] c'.
Proof. intros Hw Hd Hp Hr. split; [by apply accounts_same|]. intros Hn. by rewrite <- Hp. Qed.
Lemma conserves_trans c items c1 items' c2 : conserves c items c1 → conserves c1 items' c2 → conserves c (items ++ items') c2.
Proof.
  intros [(g1 & Hd1 & Hp1) Ho1] [(g2 & Hd2 & Hp2) Ho2].
  split; [|intros [Hn ->]%Ho2; by apply Ho1]. exists (g1 ++ g2). split; [by rewrite Hd2, Hd1, app_assoc|].
  rewrite (Permutation_app_comm g1), app_assoc, Hp2, <- app_assoc, Hp1, items_permits_app, <- app_assoc.
  by rewrite Permutation_app_swap_app.
Qed.
Lemma conserves_item_dropped c item : conserves c [item] (drop_permits c (item_permits item)).
Proof.
  split; [|by intros]. exists (item_permits item). split; [done|]. unfold items_permits. cbn [map concat]. rewrite app_nil_r.
  by rewrite Permutation_app_comm.
Qed.

Lemma inject_error_conserves c msg c' : inject_error c msg = Done c' → conserves c [] c'.
Proof.
  unfold inject_error. intros Hd. inv_exec. destruct a0 as [frame rest]. inv_exec. subst c'.
  split; [|done]. eexists. split; [reflexivity|]. unfold held_permits. cbn [set_pending_error set_wait_queue wait_queue].
  assert (∀ l : list (list (QueuedItem Permit)), concat (map (λ _, []) l) = @nil (QueuedItem Permit)) as -> by (induction l; done).
  cbn [close_receiver set_next_parse_at set_buffer set_ready_queue set_request_map wait_queue drop_permits].
  assert (∀ l, concat (map (λ queue, concat (map item_permits queue)) l) = items_permits (concat l)) as ->; [|done].
  induction l as [|q l IH]; [done|]. cbn [map concat]. by rewrite IH, items_permits_app.
Qed.

Lemma note_multi_frame_fields c ch msg c' : note_multi_frame c ch msg = Done c' →
  wait_queue c' = wait_queue c ∧ dropped_permits c' = dropped_permits c ∧ pending_error c' = pending_error c ∧
  receiver_closed c' = receiver_closed c.
Proof. unfold note_multi_frame. intros Hd. inv_exec. destruct a; inv_exec; by subst c'. Qed.

Lemma send_conserves c item r c' : send_to_ready_queue c item = Done (r, c') → conserves c [item] c'.
Proof.
  assert (∀ c1, wait_queue c1 = wait_queue c → dropped_permits c1 = dropped_permits c → pending_error c1 = pending_error c →
    receiver_closed c1 = receiver_closed c → item_permits item = [] → conserves c [item] c1) as Hnone.
  { intros c1 Hw Hd Hp Hr Hi. split; [|intros Hn; by rewrite <- Hp]. exists []. unfold held_permits, items_permits. cbn [map concat]. by rewrite Hw, Hd, Hi, !app_nil_r. }
  destruct item as [ch io pl permit|io|ch id pl|ch id|ch id pl]; cbn [send_to_ready_queue]; intros Hd.
  - inv_exec. destruct a as [[e|msg] j]; inv_exec; simplify_eq.
    + apply (conserves_item_dropped (set_juliet c j) (QRequest ch io pl permit)).
    + apply note_multi_frame_fields in E0 as (Hw & Hdr & Hp & Hrc).
      change (conserves c [QRequest ch io pl permit] (drop_permits (push_ready a msg) (item_permits (QRequest ch io pl permit)))).
      eapply (conserves_trans c [] (push_ready a msg)); [by apply conserves_same|apply conserves_item_dropped].
  - destruct (bm_get_by_left (request_map c) io) as [[ch id]|]; inv_exec; simplify_eq; [|by apply Hnone].
    destruct a as [[e|[msg|]] j]; inv_exec; simplify_eq; by apply Hnone.
  - inv_exec. destruct a as [[e|[msg|]] j]; inv_exec; simplify_eq; try by apply Hnone.
    apply note_multi_frame_fields in E0 as (Hw & Hdr & Hp & Hrc). by apply Hnone.
  - inv_exec. destruct a as [[e|[msg|]] j]; inv_exec; simplify_eq; by apply Hnone.
  - inv_exec. destruct a as [e|msg]; inv_exec; simplify_eq; [by apply Hnone|]. by apply inject_error_conserves in E0.
Qed.

Lemma push_wait_conserves c ch item c' : push_wait c ch item = Done c' → conserves c [item] c'.
Proof.
  unfold push_wait. intros Hd. inv_exec. subst c'. apply array_get_inv in E. apply array_set_inv in E0 as ->.
  split; [|by intros]. exists []. unfold held_permits. cbn [set_wait_queue wait_queue dropped_permits]. rewrite !app_nil_r. split; [done|].
  rewrite (items_permits_perm _ _ (concat_push _ _ _ item E)). unfold items_permits. cbn [map concat]. by rewrite app_nil_r.
Qed.
Lemma handle_item_conserves c item r c' : handle_incoming_item c item = Done (r, c') → conserves c [item] c'.
Proof.
  unfold handle_incoming_item. intros Hd. inv_exec. destruct a as [e|[ch|]]; inv_exec; simplify_eq.
  - apply conserves_item_dropped.
  - by eapply push_wait_conserves.
  - by eapply send_conserves.
Qed.
Lemma pop_conserves c ch item q w : array_get (wait_queue c) ch = Done (item :: q) → array_set (wait_queue c) ch q = Done w →
  ∀ c', conserves (set_wait_queue c w) [item] c' → conserves c [] c'.
Proof.
  intros Hg Hs c' [(gone & Hd & Hp) Ho]. apply array_get_inv in Hg. apply array_set_inv in Hs as ->. split; [|exact Ho]. exists gone. split; [done|]. rewrite Hp.
  unfold held_permits. cbn [set_wait_queue wait_queue dropped_permits app].
  rewrite <- items_permits_app. cbn [app]. by rewrite (items_permits_perm _ _ (concat_pop _ _ _ _ Hg)).
Qed.
Lemma wait_queue_conserves fuel : ∀ remaining c ch r c', process_wait_queue_loop fuel remaining c ch = Done (r, c') → conserves c [] c'.
Proof.
  induction fuel as [|fuel IH]; intros remaining c ch r c'; cbn [process_wait_queue_loop]; intros Hd; [done|]. inv_exec.
  destruct a as [|item q]; inv_exec; simplify_eq; [by apply conserves_same|]. eapply pop_conserves; [exact E|exact E0|].
  assert (∀ c1 n, (if n =? 0 then mret (Ok (), c1) else process_wait_queue_loop fuel n c1 ch) = Done (r, c') → conserves c1 [] c') as Hgo.
  { intros c1 n Hd1. destruct (n =? 0); inv_exec; simplify_eq; [by apply conserves_same|by eapply IH]. }
  destruct a0 as [e|[ch'|]]; inv_exec; simplify_eq.
  - apply conserves_item_dropped.
  - eapply (conserves_trans _ [item] _ []); [by eapply push_wait_conserves|]. by eapply Hgo.
  - destruct a0 as [[e|[]] c1]; inv_exec; simplify_eq; [by eapply send_conserves|].
    eapply (conserves_trans _ [item] c1 []); [by eapply send_conserves|]. destruct a0 as [e|[]]; cbn [negb] in *; inv_exec; simplify_eq.
    all: try by apply conserves_same. by eapply Hgo.
Qed.
Lemma process_wait_queue_conserves c ch r c' : process_wait_queue c ch = Done (r, c') → conserves c [] c'.
Proof. unfold process_wait_queue. intros Hd. inv_exec. by eapply wait_queue_conserves. Qed.

Lemma handle_completed_read_conserves c read r c' : handle_completed_read (IoError := IoError) c read = (r, c') → conserves c [] c'.
Proof.
  intros Hd. destruct read as [h d|ch id pl|ch id pl|ch id|ch id]; cbn [handle_completed_read] in Hd; simplify_eq; try by apply conserves_same.
  all: destruct (bm_remove_by_right (request_map c) (ch, id)) as [[[io ?]|] map]; simplify_eq; by apply conserves_same.
Qed.
Lemma parse_conserves c r c' : parse_step (IoError := IoError) c = Done (r, c') → conserves c [] c'.
Proof.
  unfold parse_step. intros Hd. destruct (_ <=? _); inv_exec; simplify_eq; [|by apply conserves_same]. destruct a as [outcome [j buf]].
  set (c1 := set_buffer _ buf) in *. assert (conserves c [] c1) as Hc1 by by apply conserves_same.
  destruct outcome as [n|msg|read]; inv_exec; simplify_eq.
  - by apply conserves_same.
  - eapply (conserves_trans c [] c1); [done|]. by eapply inject_error_conserves.
  - destruct a as [processed c2]. assert (conserves c1 [] c2) as Hc2.
    { destruct read; inv_exec; simplify_eq; try by apply conserves_same. by eapply process_wait_queue_conserves. }
    pose proof (conserves_trans c [] c1 [] c2 Hc1 Hc2) as Hc12. destruct processed as [e|[]]; inv_exec; simplify_eq; [done|].
    destruct (handle_completed_read c2 read) as [r2 c3] eqn:Hh. inv_exec; simplify_eq.
    eapply (conserves_trans c [] c2); [done|]. by eapply handle_completed_read_conserves.
Qed.
Lemma write_conserves c r0 r c' : write_branch (IoError := IoError) c r0 = Done (r, c') → conserves c [] c'.
Proof.
  unfold write_branch. intros Hd. destruct r0 as [e|[]]; inv_exec; simplify_eq; [by apply conserves_same|].
  destruct (current_frame c) as [[f fin]|]; inv_exec; simplify_eq; [|by apply conserves_same].
  assert (conserves c [] a) as Hc1.
  { apply conserves_same; revert E; unfold clear_multi_frame; destruct fin; intros E; inv_exec; simplify_eq; try done;
      case_bool_decide; inv_exec; by simplify_eq. }
  destruct (is_error _); inv_exec; simplify_eq; [done|]. destruct a0 as [processed c2]. inv_exec; simplify_eq.
  eapply (conserves_trans c [] a []); [done|]. by eapply process_wait_queue_conserves.
Qed.

Lemma core_step_conserves c op c' : core_step c op c' → conserves c (ops_items [op]) c' ∨
  pending_error c ≠ None ∧ ops_items [op] = [] ∧ wait_queue c' = wait_queue c ∧ dropped_permits c' = dropped_permits c.
Proof.
  intros Hs. inversion Hs as [? r ? Hpe Hd|? ? Hc Hne Hd|? f fin n f' Hc Hn Hadv|? f fin f' r ? Hc Hadv Hd|? bs|? item r ? Hd|? f w Hpe]; subst;
    [left..|].
  - by eapply parse_conserves.
  - unfold ready_next_frame in Hd. inv_exec. destruct (ready_queue c) as [|it q]; [done|]. inv_exec.
    destruct a0 as [f [more|]]; inv_exec; simplify_eq; by apply conserves_same.
  - by apply conserves_same.
  - eapply (conserves_trans c [] (set_current_frame c (Some (f', fin))) []); [by apply conserves_same|]. by eapply write_conserves.
  - by apply conserves_same.
  - by eapply handle_item_conserves.
  - right. split; [congruence|]. by destruct w.
Qed.
(** Every permit taken from the queue is with a request that waits, or dropped. *)
Lemma core_step_accounts c op c' : core_step c op c' → accounts c (ops_items [op]) c'.
Proof. intros [[Ha _]|(_ & -> & Hw & Hd)]%core_step_conserves; [done|by apply accounts_same]. Qed.
(** The receiver is closed by errors only. *)
Lemma core_step_open c op c' : core_step c op c' → pending_error c = None → pending_error c' = None →
  receiver_closed c' = receiver_closed c.
Proof. intros [[_ Ho]|[? _]]%core_step_conserves ??; [by apply Ho|done]. Qed.
End permits.

(** ** The handles, the queue and the core *)

Section system.
Context {Permit IoError BM S : Type} `{BiMap IoId (ChannelId * Id) BM} `{SemaphoreLaws S Permit}.
#[local] Set Default Proof Using "Type*".

(** The shared state of the handles with the queue to the core, the tickets not used yet, and the
    core. *)
Abbreviation Handles := (RequestHandle S (ListQueue (QueuedItem Permit))).
Record Queues := mkQueues {
  handles : Handles;
  tickets : list (RequestTicket Permit);
  queue_core : IoCore Permit BM;
}.
Implicit Types (h : Handles) (ts : list (RequestTicket Permit)) (t : RequestTicket Permit) (c : IoCore Permit BM)
  (q : Queues) (item : QueuedItem Permit) (op : CoreOp Permit IoError).

(** Permits of these channels are dropped. *)
Definition add_permits (sems : list S) (chs : list ChannelId) : list S :=
  fold_left (λ sems ch, alter add_permit (Z.to_nat (chan_raw ch)) sems) chs sems.
Definition give_back h (chs : list ChannelId) : Handles :=
  mkRequestHandle (mkIoShared (add_permits (buffered_requests (shared h)) chs)) (rh_sender h) (next_io_id h).
Definition put_sender h (snd : ListQueue (QueuedItem Permit)) : Handles := mkRequestHandle (shared h) snd (next_io_id h).
Definition newly_dropped c c' : list ChannelId := (drop (length (dropped_permits c)) (dropped_permits c')).*1.

(** [given]: the items the core takes from the queue. *)
Inductive queue_step : Queues → list (CoreOp Permit IoError) → Queues → Prop :=
  | queue_reserve h ts c ch r h' : ChannelId_wf ch → try_reserve_request h ch = Done (r, h') →
      queue_step (mkQueues h ts c) [] (mkQueues h' (match r with Ok t => t :: ts | Err _ => ts end) c)
  | queue_reserve_wait h ts c ch r h' : ChannelId_wf ch → reserve_request h ch = Done (r, h') →
      queue_step (mkQueues h ts c) [] (mkQueues h' (match r with Some (Some t) => t :: ts | _ => ts end) c)
  | queue_ticket_dropped h ts1 t ts2 c :
      queue_step (mkQueues h (ts1 ++ t :: ts2) c) [] (mkQueues (give_back h [rt_channel t]) (ts1 ++ ts2) c)
  | queue_request h ts1 t ts2 c payload r hd : enqueue_request (downgrade h) t payload = (r, hd) →
      queue_step (mkQueues h (ts1 ++ t :: ts2) c) []
        (mkQueues (give_back (put_sender h (sender hd)) (match r with Ok _ => [] | Err _ => [rt_channel t] end)) (ts1 ++ ts2) c)
  | queue_other h ts c item r hd : item_permits item = [] → enqueue_item (downgrade h) item = (r, hd) →
      queue_step (mkQueues h ts c) [] (mkQueues (put_sender h (sender hd)) ts c)
  | queue_take h ts c item rest r c' : lq_items (rh_sender h) = item :: rest → core_step (IoError := IoError) c (OpItem item r) c' →
      queue_step (mkQueues h ts c) [OpItem item r]
        (mkQueues (give_back (put_sender h (mkListQueue rest (receiver_closed c'))) (newly_dropped c c')) ts c')
  | queue_core_step h ts c op c' : ops_items [op] = [] → core_step c op c' →
      queue_step (mkQueues h ts c) [op]
        (mkQueues (give_back (put_sender h (mkListQueue (lq_items (rh_sender h)) (receiver_closed c'))) (newly_dropped c c')) ts c').
Inductive queue_run : nat → Queues → list (CoreOp Permit IoError) → Queues → Prop :=
  | queue_run_none q : queue_run 0 q [] q
  | queue_run_step n q ops q1 ops' q' : queue_run n q ops q1 → queue_step q1 ops' q' → queue_run (1 + n) q (ops ++ ops') q'.
Definition initial_queues (builder : IoCoreBuilder) : Queues :=
  let '(c, h) := IoCoreBuilder_build builder (mkListQueue [] false) in mkQueues h [] c.

(** ** Permits *)

(** How many are of the channel with index [i]. *)
Definition on_index (i : nat) (chs : list ChannelId) : Z := len (filter (λ ch, Z.to_nat (chan_raw ch) = i) chs).
Definition queue_permits q : list ChannelId :=
  map rt_channel (tickets q) ++ (items_permits (lq_items (rh_sender (handles q)))).*1 ++ (held_permits (queue_core q)).*1.
Definition balanced (sizes : list Z) q : Prop := ∀ i size, sizes !! i = Some size →
  ∃ sem, buffered_requests (shared (handles q)) !! i = Some sem ∧ available sem + on_index i (queue_permits q) = size ∧
    (0 ≤ size → 0 ≤ available sem).

Lemma on_index_app i l k : on_index i (l ++ k) = on_index i l + on_index i k.
Proof. unfold on_index. by rewrite filter_app, len_app. Qed.
Lemma on_index_perm i l k : l ≡ₚ k → on_index i l = on_index i k.
Proof. intros Hp. unfold on_index, len. f_equal. apply Permutation_length. by rewrite Hp. Qed.
Lemma on_index_cons i ch l : on_index i (ch :: l) = (if decide (Z.to_nat (chan_raw ch) = i) then 1 else 0) + on_index i l.
Proof. unfold on_index. rewrite filter_cons. case_decide; [|done]. rewrite len_cons. lia. Qed.
Lemma on_index_nonneg i l : 0 ≤ on_index i l.
Proof. apply len_nonneg. Qed.

Lemma add_permits_available chs : ∀ sems i sem, sems !! i = Some sem →
  ∃ sem', add_permits sems chs !! i = Some sem' ∧ available sem' = available sem + on_index i chs.
Proof.
  induction chs as [|ch chs IH]; intros sems i sem Hi; [exists sem; split; [done|]; change (on_index i []) with 0; lia|].
  cbn [add_permits fold_left]. rewrite on_index_cons. destruct (decide (Z.to_nat (chan_raw ch) = i)) as [<-|Hne].
  - destruct (IH (alter add_permit (Z.to_nat (chan_raw ch)) sems) (Z.to_nat (chan_raw ch)) (add_permit sem)) as (sem' & Hs & Ha);
      [by rewrite list_lookup_alter_eq, Hi|]. exists sem'. split; [done|]. rewrite Ha, add_permit_available. lia.
  - destruct (IH (alter add_permit (Z.to_nat (chan_raw ch)) sems) i sem) as (sem' & Hs & Ha);
      [by rewrite list_lookup_alter_ne|]. exists sem'. split; [done|]. lia.
Qed.
(** Permits that are dropped are given back. *)
Lemma balanced_give_back sizes q h ts c chs : balanced sizes q →
  shared h = shared (handles q) → queue_permits q ≡ₚ chs ++ queue_permits (mkQueues h ts c) →
  balanced sizes (mkQueues (give_back h chs) ts c).
Proof.
  intros Hb Hsh Hp i size Hi. destruct (Hb i size Hi) as (sem & Hs & Ha & Hpos). rewrite (on_index_perm _ _ _ Hp), on_index_app in Ha.
  destruct (add_permits_available chs _ _ _ Hs) as (sem' & Hs' & Ha'). exists sem'.
  cbn [handles give_back shared buffered_requests]. rewrite Hsh. split; [done|].
  change (queue_permits (mkQueues (give_back h chs) ts c)) with (queue_permits (mkQueues h ts c)).
  pose proof (on_index_nonneg i chs). split; [lia|]. intros Hsz. specialize (Hpos Hsz). lia.
Qed.
(** A permit is taken, or not. *)
Lemma balanced_acquire sizes h ts c ch sem sem' next (got : option (RequestTicket Permit)) : balanced sizes (mkQueues h ts c) →
  buffered_requests (shared h) !! Z.to_nat (chan_raw ch) = Some sem →
  match got with
  | Some t => rt_channel t = ch ∧ 0 < available sem ∧ available sem' = available sem - 1
  | None => available sem' = available sem
  end →
  balanced sizes (mkQueues (put_shared h (<[Z.to_nat (chan_raw ch) := sem']> (buffered_requests (shared h))) next)
    (match got with Some t => t :: ts | None => ts end) c).
Proof.
  intros Hb Hsem Hgot i size Hi. destruct (Hb i size Hi) as (sem0 & Hs & Ha & Hpos).
  cbn [handles put_shared shared buffered_requests] in *.
  assert (queue_permits (mkQueues (put_shared h (<[Z.to_nat (chan_raw ch) := sem']> (buffered_requests (shared h))) next)
    (match got with Some t => t :: ts | None => ts end) c) = match got with Some t => [rt_channel t] | None => [] end ++ queue_permits (mkQueues h ts c)) as ->
    by by destruct got.
  rewrite on_index_app. destruct (decide (Z.to_nat (chan_raw ch) = i)) as [<-|Hne].
  - rewrite list_lookup_insert_eq by (by eapply lookup_lt_Some). exists sem'. split; [done|]. assert (sem0 = sem) as -> by congruence.
    destruct got as [t|].
    + destruct Hgot as (Ht & Hg & Hg'). subst ch. rewrite on_index_cons, decide_True by done. change (on_index _ []) with 0. lia.
    + change (on_index _ []) with 0. rewrite Hgot. split; [lia|done].
  - rewrite list_lookup_insert_ne by done. exists sem0. split; [done|]. destruct got as [t|]; [|change (on_index i []) with 0; split; [lia|done]].
    destruct Hgot as (Ht & _). subst ch. rewrite on_index_cons, decide_False by done. change (on_index i []) with 0. split; [lia|done].
Qed.

Lemma permutation_moved {A} (x : A) l1 l2 l3 l4 : (l1 ++ x :: l2) ++ l3 ++ l4 ≡ₚ (l1 ++ l2) ++ (l3 ++ [x]) ++ l4.
Proof.
  rewrite <- Permutation_middle, <- (app_assoc l3). cbn [app]. rewrite (app_assoc (l1 ++ l2) l3 (x :: l4)).
  rewrite <- Permutation_middle. cbn [app]. by rewrite <- !app_assoc.
Qed.
Lemma core_permits c op c' : core_step c op c' → ∀ h ts rest,
  items_permits (lq_items (rh_sender h)) = items_permits (ops_items [op]) ++ items_permits (lq_items rest) →
  queue_permits (mkQueues h ts c) ≡ₚ newly_dropped c c' ++ queue_permits (mkQueues (put_sender h rest) ts c').
Proof.
  intros Hs h ts rest Hq. destruct (core_step_accounts c op c' Hs) as (gone & Hd & Hp). unfold queue_permits, newly_dropped.
  cbn [tickets handles queue_core put_sender rh_sender]. rewrite Hd, drop_app_length, Hq, fmap_app, <- (app_assoc (items_permits (ops_items [op])).*1).
  pose proof (Permutation_map fst Hp) as Hpf. change (@map) with (@fmap list list_fmap) in Hpf || idtac.
  rewrite !map_app in Hpf.
  rewrite (Permutation_app_swap_app (gone.*1)). apply Permutation_app_head.
  rewrite (Permutation_app_swap_app (gone.*1)), (Permutation_app_swap_app (items_permits (ops_items [op])).*1). apply Permutation_app_head.
  symmetry. etransitivity; [apply Permutation_app_comm|]. exact Hpf.
Qed.

Lemma queue_step_balanced sizes q ops q' : balanced sizes q → queue_step q ops q' → balanced sizes q'.
Proof.
  intros Hb Hs. destruct Hs as [h ts c ch r h' Hch Hd|h ts c ch r h' Hch Hd|h ts1 t ts2 c|h ts1 t ts2 c payload r hd Hd|h ts c item r hd Hi Hd
    |h ts c item rest r c' Hq Hs|h ts c op c' Hi Hs].
  - unfold try_reserve_request, fetch_add in Hd. inv_exec. apply array_get_inv in E. unfold ChannelId_get in *. pose proof (try_acquire_available a) as Ha.
    destruct (try_acquire_owned a) as [acquired sem]. inv_exec. apply array_set_inv in E0 as ->.
    destruct acquired as [[]|permit]; inv_exec; simplify_eq.
    + by destruct Ha as (_ & _ & ?).
    + destruct Ha as (_ & Ha & _). by eapply (balanced_acquire sizes h ts c ch a sem _ None).
    + by eapply (balanced_acquire sizes h ts c ch a sem _ (Some _)).
  - unfold reserve_request, fetch_add in Hd. inv_exec. apply array_get_inv in E. unfold ChannelId_get in *. pose proof (acquire_available a) as Ha.
    destruct (acquire_owned a) as [acquired sem]. inv_exec. apply array_set_inv in E0 as ->.
    destruct acquired as [[[]|permit]|]; inv_exec; simplify_eq; [done| |].
    + by eapply (balanced_acquire sizes h ts c ch a sem _ (Some _)).
    + by eapply (balanced_acquire sizes h ts c ch a sem _ None).
  - apply (balanced_give_back sizes _ h (ts1 ++ ts2) c _ Hb); [done|]. unfold queue_permits. cbn [tickets handles queue_core].
    rewrite !map_app. cbn [map]. rewrite <- Permutation_middle. done.
  - apply (balanced_give_back sizes _ (put_sender h (sender hd)) (ts1 ++ ts2) c _ Hb); [done|].
    unfold enqueue_request in Hd. cbn [downgrade sender send list_sender] in Hd. unfold queue_permits. cbn [tickets handles queue_core put_sender rh_sender].
    rewrite !map_app. cbn [map]. destruct (lq_closed (rh_sender h)); injection Hd as <- <-; cbn [sender lq_items app].
    + by rewrite <- Permutation_middle.
    + rewrite items_permits_app, fmap_app. apply permutation_moved.
  - assert (queue_permits (mkQueues (put_sender h (sender hd)) ts c) = queue_permits (mkQueues h ts c)) as Heq.
    { unfold enqueue_item in Hd. cbn [downgrade sender send list_sender] in Hd. unfold queue_permits. cbn [tickets handles queue_core put_sender rh_sender].
      destruct (lq_closed (rh_sender h)); injection Hd as <- <-; cbn [sender lq_items]; [done|].
      rewrite items_permits_app. unfold items_permits at 2. cbn [map concat]. by rewrite Hi, !app_nil_r. }
    intros i size Hsz. rewrite Heq. by apply Hb.
  - apply (balanced_give_back sizes _ _ ts c' _ Hb); [done|]. eapply core_permits; [exact Hs|]. by rewrite Hq, <- items_permits_app.
  - apply (balanced_give_back sizes _ _ ts c' _ Hb); [done|]. eapply core_permits; [exact Hs|]. by rewrite Hi.
Qed.

Lemma initial_balanced builder : balanced (b_buffer_size builder) (initial_queues builder).
Proof.
  intros i size Hi. exists (sem_new size). unfold initial_queues. cbn [IoCoreBuilder_build handles shared buffered_requests].
  rewrite list_lookup_fmap, Hi, sem_new_available. split; [done|].
  assert (queue_permits (initial_queues builder) = []) as Hp.
  { unfold queue_permits, held_permits. cbn [initial_queues IoCoreBuilder_build tickets handles queue_core rh_sender lq_items wait_queue].
    assert (∀ l : list Channel, concat (map (λ _, @nil (QueuedItem Permit)) l) = []) as -> by (induction l; done). done. }
  unfold initial_queues, IoCoreBuilder_build in Hp. rewrite Hp. change (on_index i []) with 0. split; [lia|done].
Qed.
Lemma queue_run_balanced sizes n q ops q' : balanced sizes q → queue_run n q ops q' → balanced sizes q'.
Proof. intros Hb Hr. induction Hr as [|n q ops q1 ops' q' Hr IH Hs]; [done|]. eapply queue_step_balanced; [by apply IH|done]. Qed.

(** A ticket is given out exactly if a permit is left. *)
Lemma try_reserve_outcome h ch sem : ChannelId_wf ch → buffered_requests (shared h) !! Z.to_nat (chan_raw ch) = Some sem →
  ∃ r h', try_reserve_request h ch = Done (r, h') ∧
    if 0 <? available sem then ∃ permit, r = Ok (mkRequestTicket ch permit (mkIoId (next_io_id h))) else r = Err NoBufferSpaceAvailable.
Proof.
  intros Hch Hs. assert (0 ≤ chan_raw ch < len (buffered_requests (shared h))) as Hb.
  { apply lookup_lt_Some in Hs. destruct Hch. unfold len. lia. }
  unfold try_reserve_request, ChannelId_get. destruct (array_get_lt _ _ Hb) as (sem' & -> & Hs'). rewrite bind_Done.
  assert (sem' = sem) as -> by congruence. pose proof (try_acquire_available sem) as Ha.
  destruct (try_acquire_owned sem) as [[e|permit] sem'] eqn:Hacq; rewrite array_set_Done, bind_Done by done.
  - destruct Ha as (Ha & _ & ->). do 2 eexists. split; [reflexivity|]. by rewrite (proj2 (Z.ltb_ge _ _)).
  - destruct Ha as [Ha _]. do 2 eexists. split; [reflexivity|]. rewrite (proj2 (Z.ltb_lt _ _)) by done. by eexists.
Qed.

(** ** Ids *)

Definition request_ids (items : list (QueuedItem Permit)) : list IoId :=
  omap (λ item, match item with QRequest _ io _ _ => Some io | _ => None end) items.
Lemma request_ids_app l k : request_ids (l ++ k) = request_ids l ++ request_ids k.
Proof. apply omap_app. Qed.
Definition queue_ids q : list IoId := map rt_io_id (tickets q) ++ request_ids (lq_items (rh_sender (handles q))).
Definition issued (n : nat) (taken : list IoId) q : Prop :=
  0 ≤ next_io_id (handles q) ≤ Z.of_nat n ∧ NoDup (taken ++ queue_ids q) ∧
  Forall (λ io, 0 ≤ ioid_raw io < next_io_id (handles q)) (taken ++ queue_ids q).

Lemma issued_fewer n taken taken' q q' : issued n taken q → next_io_id (handles q') = next_io_id (handles q) →
  taken' ++ queue_ids q' ⊆+ taken ++ queue_ids q → issued (1 + n) taken' q'.
Proof.
  intros ([Hlo Hhi] & Hnd & Hf) Hn Hsub. unfold issued. rewrite Hn. split; [lia|]. split.
  { apply submseteq_Permutation in Hsub as [k Hk]. rewrite Hk in Hnd. by apply NoDup_app in Hnd as [? _]. }
  rewrite Forall_forall in Hf |- *. intros io Hin. apply Hf. by eapply elem_of_submseteq.
Qed.
Lemma issued_reserve n taken h h' ts c t : issued n taken (mkQueues h ts c) → Z.of_nat n + 1 < 18446744073709551616 →
  rh_sender h' = rh_sender h → rt_io_id t = (fetch_add (next_io_id h)).1 → next_io_id h' = (fetch_add (next_io_id h)).2 →
  issued (1 + n) taken (mkQueues h' (t :: ts) c).
Proof.
  unfold issued, queue_ids. cbn [handles tickets fetch_add fst snd map]. intros ([Hlo Hhi] & Hnd & Hf) Hn Hs Ht Hnext.
  rewrite Hnext, Z.mod_small, Hs, Ht by lia. split; [lia|]. cbn [app]. rewrite Forall_forall in Hf. split.
  - rewrite <- Permutation_middle. apply NoDup_cons. split; [|done]. intros Hin%Hf. cbn in Hin. lia.
  - rewrite <- Permutation_middle. apply Forall_cons. split; [cbn; lia|]. apply Forall_forall. intros io Hin%Hf. lia.
Qed.

Lemma queue_step_issued n taken q ops q' : issued n taken q → Z.of_nat n + 1 < 18446744073709551616 → queue_step q ops q' →
  issued (1 + n) (taken ++ request_ids (ops_items ops)) q'.
Proof.
  intros Hi Hn Hs. destruct Hs as [h ts c ch r h' Hch Hd|h ts c ch r h' Hch Hd|h ts1 t ts2 c|h ts1 t ts2 c payload r hd Hd|h ts c item r hd Hit Hd
    |h ts c item rest r c' Hq Hs|h ts c op c' Hit Hs].
  - change (request_ids (ops_items [])) with (@nil IoId). rewrite app_nil_r. unfold try_reserve_request in Hd. inv_exec.
    destruct (try_acquire_owned a) as [acquired sem]. inv_exec. destruct acquired as [[]|permit]; cbn [fetch_add] in Hd; inv_exec; simplify_eq;
      [by eapply issued_fewer..|by eapply issued_reserve].
  - change (request_ids (ops_items [])) with (@nil IoId). rewrite app_nil_r. unfold reserve_request in Hd. inv_exec.
    destruct (acquire_owned a) as [acquired sem]. inv_exec. destruct acquired as [[[]|permit]|]; cbn [fetch_add] in Hd; inv_exec; simplify_eq;
      [by eapply issued_fewer|by eapply issued_reserve|by eapply issued_fewer].
  - change (request_ids (ops_items [])) with (@nil IoId). rewrite app_nil_r. eapply issued_fewer; [exact Hi|done|].
    apply submseteq_app; [done|]. unfold queue_ids. cbn [tickets handles give_back rh_sender]. apply submseteq_app; [|done].
    rewrite !map_app. apply submseteq_app; [done|]. by apply submseteq_cons.
  - change (request_ids (ops_items [])) with (@nil IoId). rewrite app_nil_r. eapply issued_fewer; [exact Hi|done|].
    apply submseteq_app; [done|]. unfold enqueue_request in Hd. cbn [downgrade sender send list_sender] in Hd.
    unfold queue_ids. cbn [tickets handles give_back put_sender rh_sender]. rewrite !map_app. cbn [map].
    destruct (lq_closed (rh_sender h)); injection Hd as <- <-; cbn [sender lq_items].
    + apply submseteq_app; [|done]. apply submseteq_app; [done|]. by apply submseteq_cons.
    + rewrite request_ids_app. change (request_ids [QRequest (rt_channel t) (rt_io_id t) payload (rt_permit t)]) with [rt_io_id t].
      apply Permutation_submseteq. pose proof (permutation_moved (rt_io_id t) (map rt_io_id ts1) (map rt_io_id ts2) (request_ids (lq_items (rh_sender h))) []) as Hp.
      rewrite !app_nil_r in Hp. by rewrite Hp.
  - change (request_ids (ops_items [])) with (@nil IoId). rewrite app_nil_r. eapply issued_fewer; [exact Hi|done|].
    apply submseteq_app; [done|]. unfold enqueue_item in Hd. cbn [downgrade sender send list_sender] in Hd.
    unfold queue_ids. cbn [tickets handles put_sender rh_sender]. destruct (lq_closed (rh_sender h)); injection Hd as <- <-; cbn [sender lq_items]; [done|].
    rewrite request_ids_app. assert (request_ids [item] = []) as -> by by destruct item. by rewrite app_nil_r.
  - eapply issued_fewer; [exact Hi|done|]. unfold queue_ids. cbn [tickets handles give_back put_sender rh_sender lq_items]. rewrite Hq.
    change (item :: rest) with ([item] ++ rest). rewrite request_ids_app.
    change (ops_items [OpItem item r]) with [item]. apply Permutation_submseteq. rewrite <- app_assoc. apply Permutation_app_head.
    by rewrite Permutation_app_swap_app.
  - rewrite Hit. change (request_ids []) with (@nil IoId). rewrite app_nil_r. by eapply issued_fewer.
Qed.
Lemma queue_run_issued builder n ops q : queue_run n (initial_queues builder) ops q → Z.of_nat n < 18446744073709551616 →
  issued n (request_ids (ops_items ops)) q.
Proof.
  intros Hr. remember (initial_queues builder) as q0 eqn:Hq0. induction Hr as [q|n q ops q1 ops' q' Hr IH Hs]; intros Hn.
  - subst q. split; [done|]. split; [constructor|constructor].
  - rewrite ops_items_app, request_ids_app. eapply queue_step_issued; [apply IH; [done|lia]|lia|done].
Qed.
End system.

(** ** Properties *)

(** C15: the buffer of requests is bounded.  Whatever the application and the connection do - tickets
    reserved, dropped and used, items queued, the core taking them, parsing, writing, ending the
    connection - on every channel the permits left, the tickets not used, the requests in the
    queue to the core and the requests in the wait queue add up to the buffer size of the
    channel.  So no more requests than this are ever held before they are sent; none of the permits
    is lost; and [try_reserve_request] gives a ticket exactly while they are fewer. *)
Theorem requests_bounded {Permit IoError BM S} `{BiMap IoId (ChannelId * Id) BM} `{SemaphoreLaws S Permit}
    (builder : IoCoreBuilder) (n : nat) (ops : list (CoreOp Permit IoError)) (q : Queues (Permit := Permit) (BM := BM) (S := S))
    (ch : ChannelId) (size : Z) :
  queue_run n (initial_queues builder) ops q →
  ChannelId_wf ch → b_buffer_size builder !! Z.to_nat (chan_raw ch) = Some size → 0 ≤ size →
  let i := Z.to_nat (chan_raw ch) in
  let in_use := on_index i (map rt_channel (tickets q)) + on_index i (items_permits (lq_items (rh_sender (handles q)))).*1 +
    on_index i (held_permits (queue_core q)).*1 in
  (∃ sem, buffered_requests (shared (handles q)) !! i = Some sem ∧ 0 ≤ available sem ∧ available sem + in_use = size) ∧
  ∃ r h', try_reserve_request (handles q) ch = Done (r, h') ∧
    if in_use <? size then ∃ permit, r = Ok (mkRequestTicket ch permit (mkIoId (next_io_id (handles q)))) else r = Err NoBufferSpaceAvailable.
Proof.
  intros Hr Hch Hsize Hpos i in_use. pose proof (queue_run_balanced _ _ _ _ _ (initial_balanced builder) Hr) as Hb.
  destruct (Hb i size Hsize) as (sem & Hs & Ha & Hp). specialize (Hp Hpos).
  assert (on_index i (queue_permits q) = in_use) as Hu by (unfold queue_permits; rewrite !on_index_app; subst in_use; lia). rewrite Hu in Ha.
  split; [by exists sem|]. destruct (try_reserve_outcome (handles q) ch sem Hch Hs) as (r & h' & Hd & Hout). exists r, h'. split; [done|].
  assert ((in_use <? size) = (0 <? available sem)) as ->; [|done].
  destruct (Z.ltb_spec in_use size), (Z.ltb_spec 0 (available sem)); lia.
Qed.

(** The one ticket of a channel is reserved and used. *)
Abbreviation sample_queues := (initial_queues (Permit := ()) (BM := list (IoId * (ChannelId * Id))) (S := Z) sample_io_builder).
Definition demo_queues : option (Queues (Permit := ()) (BM := list (IoId * (ChannelId * Id))) (S := Z)) :=
  match try_reserve_request (handles sample_queues) (ChannelId_new 0) with
  | Done (Ok t, h) =>
      let '(r, hd) := enqueue_request (downgrade h) t (Some [1]) in
      Some (mkQueues (give_back (put_sender h (sender hd)) (match r with Ok _ => [] | Err _ => [rt_channel t] end)) [] (queue_core sample_queues))
  | _ => None
  end.
Lemma demo_queues_run : match demo_queues with
  | Some q => queue_run (IoError := ()) 2 sample_queues [] q ∧ (items_permits (lq_items (rh_sender (handles q)))).*1 = [ChannelId_new 0]
  | None => False
  end.
Proof.
  assert (match demo_queues with Some q => (items_permits (lq_items (rh_sender (handles q)))).*1 = [ChannelId_new 0] | None => False end) as Hok
    by (vm_compute; reflexivity).
  unfold demo_queues in *. destruct (try_reserve_request (handles sample_queues) (ChannelId_new 0)) as [[[e|t] h]| |] eqn:Ht; [done| |done..].
  destruct (enqueue_request (downgrade h) t (Some [1])) as [r hd] eqn:He. split; [|exact Hok].
  apply (queue_run_step 1 _ [] (mkQueues h [t] (queue_core sample_queues)) []).
  - apply (queue_run_step 0 _ [] sample_queues []); [constructor|].
    exact (queue_reserve (IoError := ()) (handles sample_queues) [] (queue_core sample_queues) (ChannelId_new 0) (Ok t) h ltac:(done) Ht).
  - exact (queue_request (IoError := ()) h [] t [] (queue_core sample_queues) (Some [1]) r hd He).
Qed.
Lemma requests_bounded_witness :
  match demo_queues with
  | Some q => (∃ sem, buffered_requests (shared (handles q)) !! 0%nat = Some sem ∧ available sem = 0) ∧
      ∃ h', try_reserve_request (handles q) (ChannelId_new 0) = Done (Err NoBufferSpaceAvailable, h')
  | None => False
  end.
Proof.
  pose proof demo_queues_run as Hrun.
  assert (match demo_queues with
    | Some q => map rt_channel (tickets q) = [] ∧ (held_permits (queue_core q)).*1 = []
    | None => False end) as Hrest by (vm_compute; done).
  destruct demo_queues as [q|]; [|done]. destruct Hrun as [Hrun Hq], Hrest as [Ht Hh].
  destruct (requests_bounded (IoError := ()) sample_io_builder 2 [] q (ChannelId_new 0) 1 Hrun) as [(sem & Hs & Hav & Hsum) (r & h' & Hd & Hr)];
    [done..|]. rewrite Ht, Hq, Hh in Hsum, Hr. change (on_index _ [ChannelId_new 0]) with 1 in Hsum, Hr. change (on_index _ []) with 0 in Hsum, Hr.
  split; [exists sem; split; [done|lia]|]. exists h'. by rewrite Hd, Hr.
Defined.

(** The ids requests come under are all different, for the first 2^64 steps: this is what
    [Dialogue] asks of them. *)
Lemma io_ids_distinct {Permit IoError BM S} `{BiMap IoId (ChannelId * Id) BM} `{SemaphoreLaws S Permit}
    (builder : IoCoreBuilder) (n : nat) (ops : list (CoreOp Permit IoError)) (q : Queues (Permit := Permit) (BM := BM) (S := S)) :
  queue_run n (initial_queues builder) ops q → Z.of_nat n < 18446744073709551616 → NoDup (request_ids (ops_items ops)).
Proof. intros Hr Hn. destruct (queue_run_issued _ _ _ _ Hr Hn) as (_ & Hnd & _). by apply NoDup_app in Hnd as [? _]. Qed.
