(* ===== verification/Link.v ===== *)
(** * A core as one of two parties

    What ties a core to the parties of [Duplex]: its ready queue holds the transfers the party
    has queued, its active transfers are the long messages among them, and every request the
    application answers, or has an answer waiting for, is one the party owes.  Every operation
    of the core is then a move of the party. *)
From stdpp Require Import functions strings.
From S2P Require Import Prelude Lib Varint Header FrameSize OutgoingMessage WireFormat ByteIter Multiframe.
From S2P Require Import MultiframeSpec Protocol ProtocolInv ProcessIncoming ProtocolOps Answers Io Instances IoSafe IoSpec CoreOps.
From S2P Require Import Delivery Peers Transfer Flow Duplex Stream.
From stdpp Require Import options.

(** ** Long messages *)

Lemma long_frames m msg : MaxFrameSize_wf m → payload_wf (msg_payload msg) →
  needs_frames m (msg_payload msg) = bool_decide (long m msg).
Proof.
  intros Hm Hp. apply eq_true_iff_eq. rewrite bool_decide_eq_true.
  unfold needs_frames, long, next_transfer, begin_transfer, room, t_payload. cbn [t_msg t_pos].
  change (0 =? 0) with true. cbn iota. rewrite Z.ltb_lt. pose proof (MaxFrameSize_wf_bounds m Hm).
  destruct (msg_payload msg) as [pl|]; cbn [default from_option id].
  - pose proof (frame_count_bounds m pl Hm) as Hb. cbv zeta in Hb. pose proof (frame_count_pos m (Some pl)).
    pose proof (varint_bytes_len (len pl)).
    destruct (Z.ltb_spec (0 + (mfs m - 4 - len (varint_bytes (len pl)))) (len pl)).
    + split; [by eexists|]. intros _. destruct (decide (frame_count m (Some pl) = 1)) as [Heq|]; [rewrite Heq in Hb|]; nia.
    + split; [|by intros []]. intros Hn. nia.
  - pose proof (varint_bytes_len 0). unfold frame_count. cbn [message_body]. change (len (default [] (@None bytes))) with 0.
    change (len (@nil Z)) with 0. rewrite div_up_nonpos, Z.max_l by lia. rewrite (proj2 (Z.ltb_ge _ _)) by lia.
    split; [lia|by intros []].
Qed.

(** The message of the frame being written, when that is its last and not its only frame: it
    still counts as the active transfer of its channel. *)
Definition last_long (m : MaxFrameSize) (cur : option Transfer) : list Msg :=
  match cur with
  | Some t => if decide (next_transfer m t = None ∧ t_pos t ≠ 0) then [t_msg t] else []
  | None => []
  end.
Lemma long_msgs_cons m t Q : long_msgs m (t :: Q) = (if decide (long m (t_msg t)) then [t_msg t] else []) ++ long_msgs m Q.
Proof. unfold long_msgs. cbn [map]. rewrite filter_cons. by case_decide. Qed.
Lemma long_ready m t : MaxFrameSize_wf m → piece_ok m t →
  long_msgs m [t] = long_msgs m (more m t) ++ last_long m (Some t).
Proof.
  intros Hm Ht. rewrite long_msgs_cons. unfold last_long, more. change (long_msgs m []) with (@nil Msg).
  destruct (next_transfer m t) as [t'|] eqn:Hn.
  - change (option_list (Some t')) with [t']. rewrite long_msgs_cons. change (long_msgs m []) with (@nil Msg).
    assert (t' ∈ more m t) as Hin by (unfold more; rewrite Hn; by left). rewrite (more_msg m t t' Hin).
    rewrite !(decide_True (P := long m (t_msg t))) by (by eapply more_long). rewrite decide_False by naive_solver. done.
  - change (option_list (@None Transfer)) with (@nil Transfer). change (long_msgs m []) with (@nil Msg). rewrite app_nil_r. cbn [app].
    assert (t_pos t = 0 → ¬ long m (t_msg t)) as Hno.
    { intros H0 [t' Hl]. unfold begin_transfer in Hl. rewrite <- H0 in Hl. destruct t; cbn in *; congruence. }
    destruct (decide (t_pos t = 0)) as [H0|H0].
    + rewrite decide_False by auto. by rewrite decide_False by naive_solver.
    + rewrite decide_True by by apply Ht. by rewrite decide_True.
Qed.

(** ** Items *)

(** What an item may hold for its channel: an existing channel and a payload within its limit.
    Cancellations of requests do not wait, and errors end the connection. *)
Definition item_fits {Permit} (p : JulietProtocol) (item : QueuedItem Permit) : Prop :=
  match item with
  | QRequest ch _ payload _ =>
      ChannelId_wf ch ∧ ∃ c, chan_at p ch = Some c ∧ payload_ok (max_request_payload_size (config c)) payload
  | QResponse ch _ payload =>
      ChannelId_wf ch ∧ ∃ c, chan_at p ch = Some c ∧ payload_ok (max_response_payload_size (config c)) payload
  | QResponseCancellation ch _ => ChannelId_wf ch ∧ ∃ c, chan_at p ch = Some c
  | QRequestCancellation _ | QError _ _ _ => False
  end.
(** The request an item answers. *)
Definition answer_of {Permit} (item : QueuedItem Permit) : option (ChannelId * Id) :=
  match item with
  | QResponse ch id _ | QResponseCancellation ch id => Some (ch, id)
  | _ => None
  end.
(** The channel an item may have to wait for. *)
Definition item_channel {Permit} (item : QueuedItem Permit) : option ChannelId :=
  match item with
  | QRequest ch _ _ _ | QResponse ch _ _ | QResponseCancellation ch _ => Some ch
  | QRequestCancellation _ | QError _ _ _ => None
  end.
Definition answers_held {Permit} (items : list (QueuedItem Permit)) : list (ChannelId * Id) := omap answer_of items.

Lemma item_fits_same_config {Permit} p p' (item : QueuedItem Permit) : same_config p p' → item_fits p item → item_fits p' item.
Proof.
  intros Hs. destruct item as [ch io pl permit|io|ch id pl|ch id|ch id pl]; cbn; try done.
  all: intros (Hch & c & Hc & ?) || intros (Hch & c & Hc); destruct (same_config_chan _ _ _ _ Hs Hc) as (c' & Hc' & Hcfg);
    split; [done|]; exists c'; by rewrite ?Hcfg.
Qed.
Lemma payload_ok_wf limit pl : u32 limit → payload_ok limit pl → payload_wf pl.
Proof. destruct pl as [pl|]; [|done]. cbn. intros ? [_ ?]. pose proof (len_nonneg pl). ulia. Qed.
Lemma item_fits_ok {Permit} p (item : QueuedItem Permit) : protocol_wf p → item_fits p item → item_ok (len (channels p)) item.
Proof.
  intros Hp. assert (∀ ch c, ChannelId_wf ch → chan_at p ch = Some c → chan_raw ch < len (channels p) ∧ channel_wf c) as Hin.
  { intros ch c [Hch _] Hc. split; [|by eapply channel_wf_lookup]. apply lookup_lt_Some in Hc. unfold len. lia. }
  destruct item as [ch io pl permit|io|ch id pl|ch id|ch id pl]; cbn; try done.
  - intros (Hch & c & Hc & Hpl). destruct (Hin ch c Hch Hc) as [? Hwf]. split; [done|].
    eapply payload_ok_wf; [exact (proj1 (proj2 (cw_config c Hwf)))|done].
  - intros (Hch & c & Hc & Hpl). destruct (Hin ch c Hch Hc) as [? Hwf]. split; [done|]. split; [done|].
    eapply payload_ok_wf; [exact (proj2 (proj2 (cw_config c Hwf)))|done].
  - by intros [? _].
Qed.

(** ** The link *)

Section link.
Context {Permit IoError BM : Type} `{BiMapLaws IoId (ChannelId * Id) BM}.
#[local] Set Default Proof Using "Type*".
Implicit Types (self : IoCore Permit BM) (item : QueuedItem Permit) (hand : list (QueuedItem Permit)).

Definition msg_header (msg : Msg) : Header := om_header (message_of msg).
Definition active_at self (ch : ChannelId) : option Header := mjoin (active_multi_frame self !! Z.to_nat (chan_raw ch)).
Definition core_mfs self : MaxFrameSize := max_frame_size (juliet self).
Definition wait_of self (ch : ChannelId) : list (QueuedItem Permit) := default [] (wait_queue self !! Z.to_nat (chan_raw ch)).
(** The long messages that are not written out. *)
Definition pending_long self (cur : option Transfer) (a : Party) : list Msg :=
  long_msgs (core_mfs self) (queued (p_out a)) ++ last_long (core_mfs self) cur.

(** [hand]: items taken from a queue and not yet dealt with; [answerable]: the requests the
    application may still answer; [cur]: whose frame is being written. *)
Record linked self hand (answerable : ChannelId → gset Id) (cur : option Transfer) (a b : Party) : Prop := {
  lk_wf : io_wf self;
  lk_pending : pending_error self = None;
  lk_duplex : duplex a b;
  lk_proto : p_proto a = juliet self;
  lk_ready : ready_queue self = map iter (queued (p_out a));
  lk_map io ch id : bm_rel (request_map self) io (ch, id) → ∃ c, chan_at (juliet self) ch = Some c;
  lk_items : Forall (item_fits (juliet self)) (concat (wait_queue self) ++ hand);
  lk_owed ch id : id ∈ p_owed a ch ↔ id ∈ answerable ch ∨ (ch, id) ∈ answers_held (concat (wait_queue self) ++ hand);
  lk_once : NoDup (answers_held (concat (wait_queue self) ++ hand));
  lk_apart ch id : (ch, id) ∈ answers_held (concat (wait_queue self) ++ hand) → id ∉ answerable ch;
  lk_active ch : ChannelId_wf ch → chan_raw ch < channel_count self →
    map msg_header (on ch (pending_long self cur a)) ≡ₚ option_list (active_at self ch);
  lk_current :
    match current_frame self, cur with
    | Some (f, is_final), Some t => OutgoingFrame_header f = t_header t ∧ is_final = bool_decide (next_transfer (core_mfs self) t = None) ∧
        frame_bytes f ≠ [] ∧ ∃ F, flying (p_out a) = F ++ [t]
    | None, None => True
    | _, _ => False
    end;
  lk_waiting ch : ChannelId_wf ch → Forall (λ item, item_channel item = Some ch) (wait_of self ch);
}.

Lemma answers_held_app (l k : list (QueuedItem Permit)) : answers_held (l ++ k) = answers_held l ++ answers_held k.
Proof. apply omap_app. Qed.
#[export] Instance answers_held_perm : Proper ((≡ₚ) ==> (≡ₚ)) (@answers_held Permit).
Proof. unfold answers_held. by intros l k ->. Qed.

Lemma wait_of_insert self ch ch' q : ChannelId_wf ch → ChannelId_wf ch' → 0 ≤ chan_raw ch < len (wait_queue self) →
  wait_of (set_wait_queue self (<[Z.to_nat (chan_raw ch) := q]> (wait_queue self))) ch' = if decide (ch' = ch) then q else wait_of self ch'.
Proof.
  intros [H1 _] [H2 _] Hlt. unfold wait_of. cbn [set_wait_queue wait_queue]. case_decide as Heq.
  - subst. unfold len in Hlt. by rewrite list_lookup_insert_eq by lia.
  - rewrite list_lookup_insert_ne; [done|]. intros Hr. apply Heq. destruct ch, ch'. cbn in *. f_equal. lia.
Qed.

(** Items move between the hand and the wait queue. *)
Lemma linked_move self hand answerable cur a b w hand' :
  linked self hand answerable cur a b → io_wf (set_wait_queue self w) →
  concat w ++ hand' ≡ₚ concat (wait_queue self) ++ hand →
  (∀ ch, ChannelId_wf ch → Forall (λ item, item_channel item = Some ch) (wait_of (set_wait_queue self w) ch)) →
  linked (set_wait_queue self w) hand' answerable cur a b.
Proof.
  intros [H1 H2 H3 H4 H5 Hmap H6 H7 H8 H9 H10 H11 H12] Hwf Hperm Hwait.
  assert (answers_held (concat w ++ hand') ≡ₚ answers_held (concat (wait_queue self) ++ hand)) as Hans by by rewrite Hperm.
  constructor; cbn [set_wait_queue juliet pending_error ready_queue wait_queue current_frame]; try done.
  - by rewrite Hperm.
  - intros ch id. by rewrite Hans.
  - by rewrite Hans.
  - intros ch id. rewrite Hans. apply H9.
Qed.

(** ** Sending *)

Lemma linked_mfs self hand answerable cur a b : linked self hand answerable cur a b →
  max_frame_size (p_proto a) = core_mfs self ∧ MaxFrameSize_wf (core_mfs self).
Proof. intros Hl. rewrite (lk_proto _ _ _ _ _ _ Hl). split; [done|]. apply pw_mfs, Hl. Qed.

(** With no active transfer on its channel a long message is in nobody's way. *)
Lemma linked_may_begin self hand answerable cur a b msg : linked self hand answerable cur a b →
  ChannelId_wf (msg_channel msg) → chan_raw (msg_channel msg) < channel_count self →
  (long (core_mfs self) msg → active_at self (msg_channel msg) = None) →
  (∀ ch id, msg = MCancelReq ch id → ∀ o, o ∈ long_msgs (core_mfs self) (queued (p_out a)) → msg_channel o = ch → msg_id o ≠ id) →
  may_begin (core_mfs self) (long_msgs (core_mfs self) (queued (p_out a))) msg.
Proof.
  intros Hl Hch Hlt Hactive Hcancel o Ho Hoc. split.
  - intros Hlong. pose proof (lk_active _ _ _ _ _ _ Hl _ Hch Hlt) as Ha. rewrite (Hactive Hlong) in Ha.
    apply Permutation_nil_r, map_eq_nil in Ha. assert (o ∈ on (msg_channel msg) (pending_long self cur a)) as Hin.
    { apply on_elem. split; [done|]. apply elem_of_app. by left. }
    rewrite Ha in Hin. by apply elem_of_nil in Hin.
  - destruct msg; try done. by eapply Hcancel.
Qed.

(** A held answer that is sent is owed and held no longer. *)
Lemma owed_sent (owed answerable : ChannelId → gset Id) (l l' : list (ChannelId * Id)) msg ch id : l ≡ₚ (if is_answer msg then [(msg_channel msg, msg_id msg)] else []) ++ l' → NoDup l →
  (∀ ch id, id ∈ owed ch ↔ id ∈ answerable ch ∨ (ch, id) ∈ l) → (∀ ch id, (ch, id) ∈ l → id ∉ answerable ch) →
  id ∈ (if is_answer msg then <[msg_channel msg := owed (msg_channel msg) ∖ {[msg_id msg]}]> owed else owed) ch ↔ id ∈ answerable ch ∨ (ch, id) ∈ l'.
Proof.
  intros Hl Hnd Howed Hap. specialize (Howed ch id). destruct (is_answer msg); [|by rewrite Howed, Hl].
  specialize (Hap (msg_channel msg) (msg_id msg)). rewrite Hl in Hap, Hnd, Howed. cbn [app] in *.
  apply NoDup_cons in Hnd as [Hnd _]. rewrite elem_of_cons in Howed.
  destruct (decide (ch = msg_channel msg)) as [->|Hne]; [|rewrite fn_lookup_insert_ne by done; rewrite Howed; naive_solver].
  rewrite fn_lookup_insert, elem_of_difference, elem_of_singleton, Howed.
  destruct (decide (id = msg_id msg)) as [->|]; [|naive_solver].
  split; [naive_solver|]. intros [Hin'|Hin']; [|done]. exfalso. apply Hap; [by left|done].
Qed.
Lemma linked_send self hand answerable cur a b e msg self' hand' : linked self hand answerable cur a b →
  local_step (party_endpoint a) e → sent e = [msg] →
  ChannelId_wf (msg_channel msg) → chan_raw (msg_channel msg) < channel_count self →
  (long (core_mfs self) msg → active_at self (msg_channel msg) = None) →
  (∀ ch id, msg = MCancelReq ch id → ∀ o, o ∈ long_msgs (core_mfs self) (queued (p_out a)) → msg_channel o = ch → msg_id o ≠ id) →
  io_wf self' → pending_error self' = None → juliet self' = proto e →
  ready_queue self' = ready_queue self ++ [frames (message_of msg)] → wait_queue self' = wait_queue self →
  current_frame self' = current_frame self →
  (∀ io ch id, bm_rel (request_map self') io (ch, id) → ∃ c, chan_at (juliet self) ch = Some c) →
  (∀ ch, ChannelId_wf ch → chan_raw ch < channel_count self →
     active_at self' ch = if decide (msg_channel msg = ch ∧ long (core_mfs self) msg) then Some (msg_header msg) else active_at self ch) →
  answers_held hand ≡ₚ (if is_answer msg then [(msg_channel msg, msg_id msg)] else []) ++ answers_held hand' →
  Forall (item_fits (juliet self)) hand' →
  linked self' hand' answerable cur (party_send a e msg) b.
Proof.
  intros Hl Hstep Hsent Hch Hlt Hactive Hcancel Hwf Hpend Hj Hready Hwait Hcur Hmap Hact Hheld Hfits.
  pose proof (linked_may_begin _ _ _ _ _ _ msg Hl Hch Hlt Hactive Hcancel) as Hmay.
  destruct (linked_mfs _ _ _ _ _ _ Hl) as [Hmfs Hm]. destruct Hl as [L1 L2 L3 L4 L5 Lmap L6 L7 L8 L9 L10 L11 L12].
  assert (is_answer msg = true → (msg_channel msg, msg_id msg) ∈ answers_held hand) as Hin.
  { intros Ha. rewrite Hheld, Ha. by left. }
  assert (answers_held (concat (wait_queue self) ++ hand)
    ≡ₚ (if is_answer msg then [(msg_channel msg, msg_id msg)] else []) ++ answers_held (concat (wait_queue self) ++ hand')) as Hh.
  { rewrite !answers_held_app, Hheld. by rewrite Permutation_app_swap_app. }
  assert (duplex (party_send a e msg) b) as Hdx.
  { eapply duplex_send; [done..|by rewrite Hmfs|]. intros Ha. apply L7. right.
    rewrite answers_held_app, elem_of_app. right. auto. }
  destruct (local_step_effect (party_endpoint a) e (dx_a _ _ L3) Hstep)
    as (ch' & c & c' & msg' & _ & _ & Hat & Hp' & _ & _ & [_ Hcfg] & _).
  assert (same_config (juliet self) (juliet self')) as Hsame.
  { rewrite Hj, Hp'. cbn [party_endpoint proto]. rewrite L4. eapply put_channel_same_config; [|done].
    cbn [party_endpoint proto] in Hat. by rewrite L4 in Hat. }
  assert (core_mfs self' = core_mfs self) as Hmfs' by (unfold core_mfs; by destruct Hsame as [-> _]).
  assert (channel_count self' = channel_count self) as Hcnt by (unfold channel_count; by apply same_config_len).
  constructor; cbn [party_send p_proto p_out p_cancelled p_owed flow_send queued flying]; try done.
  - rewrite Hready, L5, map_app. done.
  - intros io ch id Hrel. destruct (Hmap io ch id Hrel) as [c0 Hc0].
    destruct (same_config_chan _ _ _ _ Hsame Hc0) as (c1 & Hc1 & _). by exists c1.
  - rewrite Hwait. apply (Forall_impl (item_fits (juliet self))); [|intros; by eapply item_fits_same_config].
    apply Forall_app in L6 as [L6 _]. by apply Forall_app.
  - intros ch id. rewrite Hwait. by eapply owed_sent.
  - rewrite Hwait. rewrite Hh in L8. by apply NoDup_app in L8 as (_ & _ & ?).
  - intros ch id. rewrite Hwait. intros Hi. apply L9. rewrite Hh. apply elem_of_app. by right.
  - intros ch Hch' Hlt'. rewrite Hcnt in Hlt'. rewrite Hact by done. unfold pending_long. rewrite Hmfs'.
    cbn [party_send p_out flow_send queued]. rewrite long_msgs_app, long_msgs_cons. change (long_msgs _ []) with (@nil Msg).
    rewrite app_nil_r. cbn [begin_transfer t_msg]. specialize (L10 ch Hch' Hlt'). unfold pending_long in L10.
    rewrite !on_app2, !map_app in *. destruct (decide (long (core_mfs self) msg)) as [Hlong|Hlong].
    + rewrite on_cons. change (on ch []) with (@nil Msg). destruct (decide (msg_channel msg = ch)) as [<-|Hne].
      * rewrite decide_True by done. rewrite (Hactive Hlong) in L10. apply Permutation_nil_r in L10.
        apply app_eq_nil in L10 as [-> ->]. done.
      * rewrite decide_False by naive_solver. by rewrite app_nil_r.
    + rewrite decide_False by naive_solver. change (on ch []) with (@nil Msg). by rewrite app_nil_r.
  - rewrite Hcur. by rewrite Hmfs'.
  - intros ch0 Hch0. unfold wait_of. rewrite Hwait. by apply L12.
Qed.

(** The requests cancelled and not answered, once these messages are sent. *)
Definition withdraw_one (canc : ChannelId → gset Id) (msg : Msg) : ChannelId → gset Id :=
  match msg with
  | MReq ch id _ => <[ch := canc ch ∖ {[id]}]> canc
  | MCancelReq ch id => <[ch := {[id]} ∪ canc ch]> canc
  | _ => canc
  end.
Definition withdraw (msgs : list Msg) (canc : ChannelId → gset Id) : ChannelId → gset Id := fold_left withdraw_one msgs canc.
Definition flow_sends (f : Flow) (msgs : list Msg) : Flow := fold_left flow_send msgs f.

(** The work an operation may leave: what is to be sent, weighed by its bytes. *)
Definition item_weight (item : QueuedItem Permit) : Z := 64 * (len (default [] (into_payload item)) + 1).
Definition iter_weight (it : FrameIter) : Z := 64 * (len (default [] (om_payload (fi_msg it))) - bytes_processed it + 1).
Definition total {A} (w : A → Z) (l : list A) : Z := foldr (λ x n, w x + n) 0 l.
Definition backlog self : Z := total iter_weight (ready_queue self) + total item_weight (concat (wait_queue self)).
Lemma total_cons {A} (w : A → Z) x l : total w (x :: l) = w x + total w l.
Proof. done. Qed.
Lemma total_app {A} (w : A → Z) l k : total w (l ++ k) = total w l + total w k.
Proof. induction l as [|x l IH]; [done|]. unfold total in *. cbn [app foldr]. lia. Qed.
Lemma total_perm {A} (w : A → Z) l k : l ≡ₚ k → total w l = total w k.
Proof. unfold total. induction 1; cbn [foldr]; lia. Qed.
Lemma total_nonneg {A} (w : A → Z) l : Forall (λ x, 0 ≤ w x) l → 0 ≤ total w l.
Proof. unfold total. induction 1; cbn [foldr]; lia. Qed.
Lemma iter_weight_frames msg : iter_weight (frames (message_of msg)) = 64 * (len (default [] (msg_payload msg)) + 1).
Proof. unfold iter_weight. change (fi_msg (frames (message_of msg))) with (message_of msg). rewrite message_of_payload.
  change (bytes_processed (frames (message_of msg))) with 0. lia. Qed.

(** An item has to wait.  Whether it does depends on the outstanding requests and the active
    transfer of its channel. *)
Definition waits self item : Prop := ∃ ch, item_should_wait item (juliet self) (active_multi_frame self) = Done (Ok (Some ch)).
Definition same_room self self' (ch : ChannelId) : Prop :=
  outgoing_at (juliet self') ch = outgoing_at (juliet self) ch ∧ active_at self' ch = active_at self ch.
Lemma waits_room self self' item ch : io_wf self → io_wf self' → same_config (juliet self) (juliet self') →
  item_fits (juliet self) item → item_channel item = Some ch → same_room self self' ch → waits self item → waits self' item.
Proof.
  intros Hw Hw' Hs Hfit Hic [Hout Hact] [ch0 Hr]. exists ch0. pose proof (item_fits_same_config _ _ _ Hs Hfit) as Hfit'.
  rewrite item_should_wait_Done in Hr by (try apply item_fits_ok; by try apply Hw).
  rewrite item_should_wait_Done by (try apply item_fits_ok; by try apply Hw'). f_equal. cbv zeta in *.
  assert (max_frame_size (juliet self') = max_frame_size (juliet self)) as Hm by (by destruct Hs as [-> _]).
  destruct item as [ch1 io pl permit|io|ch1 id pl|ch1 id|ch1 id pl]; try done; injection Hic as ->;
    fold (active_at self ch) in Hr; fold (active_at self' ch); rewrite Hm, Hact; [|by injection Hr].
  destruct Hfit as (Hch & c & Hc & _). destruct (same_config_chan _ _ _ _ Hs Hc) as (c' & Hc' & Hcfg).
  unfold outgoing_at in Hout. unfold chan_at in *. rewrite Hc, Hc' in *. rewrite Hout, Hcfg. by injection Hr.
Qed.

(** On every channel a message is sent, or everything in the wait queue has to wait, or nothing
    changes but for items that have to wait. *)
Definition kept_on self self' (msgs : list Msg) (ch : ChannelId) : Prop :=
  on ch msgs ≠ [] ∨ Forall (waits self') (wait_of self' ch) ∨
  same_room self self' ch ∧ Forall (λ item, item ∈ wait_of self ch ∨ waits self' item) (wait_of self' ch).
Definition kept self self' (msgs : list Msg) : Prop :=
  ∀ ch, ChannelId_wf ch → chan_raw ch < channel_count self → kept_on self self' msgs ch.
Lemma kept_same self self' : (∀ ch, ChannelId_wf ch → same_room self self' ch) →
  (∀ ch, ChannelId_wf ch → Forall (λ item, item ∈ wait_of self ch ∨ waits self' item) (wait_of self' ch)) → kept self self' [].
Proof. intros Hr Hw ch Hch _. right. right. split; auto. Qed.
Lemma kept_refl self : kept self self [].
Proof. apply kept_same; [done|]. intros ch _. apply Forall_forall. auto. Qed.

Lemma linked_same_config self self' hand hand' ans ans' cur cur' a a' b b' : linked self hand ans cur a b →
  linked self' hand' ans' cur' a' b' → p_proto b' = p_proto b → same_config (juliet self) (juliet self').
Proof.
  intros Hl Hl' Hb. pose proof (dx_same _ _ (lk_duplex _ _ _ _ _ _ Hl)) as Hs. pose proof (dx_same _ _ (lk_duplex _ _ _ _ _ _ Hl')) as Hs'.
  rewrite (lk_proto _ _ _ _ _ _ Hl) in Hs. rewrite (lk_proto _ _ _ _ _ _ Hl'), Hb in Hs'.
  eapply same_config_trans; [exact Hs|]. by apply same_config_sym.
Qed.
Lemma linked_wait_fits self hand ans cur a b ch item : linked self hand ans cur a b → item ∈ wait_of self ch →
  item_fits (juliet self) item.
Proof.
  intros Hl Hin. pose proof (lk_items _ _ _ _ _ _ Hl) as Hi. apply Forall_app in Hi as [Hi _]. rewrite Forall_forall in Hi. apply Hi.
  unfold wait_of in Hin. destruct (wait_queue self !! _) as [q|] eqn:Hq; [|by apply elem_of_nil in Hin].
  apply list_elem_of_lookup_2 in Hq. apply list_elem_of_In, in_concat. exists q. by rewrite <- !list_elem_of_In.
Qed.
Lemma linked_waits self self' hand ans cur a b ch item : linked self hand ans cur a b →
  io_wf self' → same_config (juliet self) (juliet self') → ChannelId_wf ch → same_room self self' ch → item ∈ wait_of self ch →
  waits self item → waits self' item.
Proof.
  intros Hl Hwf' Hcfg Hch Hroom Hin. pose proof (lk_waiting _ _ _ _ _ _ Hl ch Hch) as Hw. rewrite Forall_forall in Hw.
  eapply waits_room; [apply Hl|done|done|by eapply linked_wait_fits|by apply Hw|done].
Qed.
Lemma kept_trans self s1 s2 h0 h1 h2 ans cur a a1 a2 b msgs msgs' : linked self h0 ans cur a b → linked s1 h1 ans cur a1 b →
  linked s2 h2 ans cur a2 b → kept self s1 msgs → kept s1 s2 msgs' → kept self s2 (msgs ++ msgs').
Proof.
  intros Hl Hl1 Hl2 Hk Hk' ch Hch Hlt. pose proof (linked_same_config _ _ _ _ _ _ _ _ _ _ _ _ Hl Hl1 eq_refl) as Hcfg1.
  pose proof (linked_same_config _ _ _ _ _ _ _ _ _ _ _ _ Hl1 Hl2 eq_refl) as Hcfg2.
  assert (chan_raw ch < channel_count s1) as Hlt1 by (unfold channel_count; by rewrite (same_config_len _ _ Hcfg1)).
  unfold kept_on. rewrite on_app2. destruct (Hk ch Hch Hlt) as [Hm|[Hw|[Hr Hw]]].
  { left. intros Hnil. by apply app_eq_nil in Hnil as [? _]. }
  - destruct (Hk' ch Hch Hlt1) as [Hm|[Hw'|[Hr' Hw']]]; [left; by intros [_ ?]%app_eq_nil|right; by left|].
    right. left. rewrite Forall_forall in Hw, Hw' |- *. intros item Hin. destruct (Hw' item Hin) as [Hin'|]; [|done].
    eapply (linked_waits s1 s2); eauto. apply Hl2.
  - destruct (Hk' ch Hch Hlt1) as [Hm|[Hw'|[Hr' Hw']]]; [left; by intros [_ ?]%app_eq_nil|right; by left|].
    right. right. split; [destruct Hr, Hr'; split; etransitivity; done|]. rewrite Forall_forall in Hw, Hw' |- *.
    intros item Hin. destruct (Hw' item Hin) as [Hin'|]; [|by right]. destruct (Hw item Hin') as [|Hwait]; [by left|right].
    eapply (linked_waits s1 s2); eauto. apply Hl2.
Qed.

(** ** What becomes of the items

    An item that is sent becomes one message; a request is entered in the request map under the
    id it is given.  A cancellation of a request that is not in the map, or no longer
    outstanding, becomes none. *)
Definition carried item (msg : Msg) (map map' : BM) : Prop :=
  match item, msg with
  | QRequest ch io payload _, MReq ch' id payload' => ch' = ch ∧ payload' = payload ∧ map' = bm_insert map io (ch, id)
  | QResponse ch id payload, MResp ch' id' payload' => ch' = ch ∧ id' = id ∧ payload' = payload ∧ map' = map
  | QResponseCancellation ch id, MCancelResp ch' id' => ch' = ch ∧ id' = id ∧ map' = map
  | QRequestCancellation io, MCancelReq ch id => bm_get_by_left map io = Some (ch, id) ∧ map' = map
  | _, _ => False
  end.
(** The items held become [msgs], one after the other, and those still held. *)
Inductive conveyed : BM → list (QueuedItem Permit) → list Msg → BM → list (QueuedItem Permit) → Prop :=
  | conveyed_none map items items' : items ≡ₚ items' → conveyed map items [] map items'
  | conveyed_one map items item rest msg map1 msgs map' items' : items ≡ₚ item :: rest → carried item msg map map1 →
      conveyed map1 rest msgs map' items' → conveyed map items (msg :: msgs) map' items'
  | conveyed_void map items io rest msgs map' items' : items ≡ₚ QRequestCancellation io :: rest →
      conveyed map rest msgs map' items' → conveyed map items msgs map' items'.
Lemma conveyed_perm map k items msgs map' items' : k ≡ₚ items → conveyed map items msgs map' items' → conveyed map k msgs map' items'.
Proof.
  intros Hp Hc. destruct Hc; [constructor; by etransitivity|econstructor; [by etransitivity|done..]|eapply conveyed_void; [by etransitivity|done]].
Qed.
Lemma conveyed_app map items msgs map1 items1 msgs' map' items' : conveyed map items msgs map1 items1 →
  conveyed map1 items1 msgs' map' items' → conveyed map items (msgs ++ msgs') map' items'.
Proof. induction 1; intros Hc; cbn [app]; [by eapply conveyed_perm|econstructor; eauto|eapply conveyed_void; eauto]. Qed.
Lemma conveyed_send map items item rest msg map' : items ≡ₚ item :: rest → carried item msg map map' →
  conveyed map items [msg] map' rest.
Proof. intros. econstructor; [done..|]. by constructor. Qed.

Definition held self hand : list (QueuedItem Permit) := concat (wait_queue self) ++ hand.

(** An operation that sends [msgs], and leaves the streams alone; it was handed [hand]. *)
Definition same_streams self self' : Prop :=
  buffer self' = buffer self ∧ next_parse_at self' = next_parse_at self ∧ current_frame self' = current_frame self.
Definition sends hand (Φ : list Msg → IoCore Permit BM → Prop) self answerable cur a b (r : exec (result () LocalProtocolViolation * IoCore Permit BM)) hand' : Prop :=
  ∃ self' a' msgs, r = Done (Ok (), self') ∧ linked self' hand' answerable cur a' b ∧ same_streams self self' ∧
    ready_queue self' = ready_queue self ++ map (λ msg, frames (message_of msg)) msgs ∧
    p_out a' = flow_sends (p_out a) msgs ∧ p_cancelled a' = withdraw msgs (p_cancelled a) ∧
    backlog self' + total item_weight hand' ≤ backlog self + total item_weight hand ∧ kept self self' msgs ∧
    conveyed (request_map self) (held self hand) msgs (request_map self') (held self' hand') ∧ Φ msgs self'.
(** What is said of the messages sent: anything; that an item is sent on its channel at once; that
    on a channel there is one, or else nothing that could be sent is left waiting. *)
Definition anything (msgs : list Msg) self : Prop := True.
Definition sent_now item self (msgs : list Msg) self' : Prop :=
  wait_queue self' = wait_queue self ∧ ∀ ch, item_channel item = Some ch → on ch msgs ≠ [].
Definition settled_on (ch : ChannelId) (msgs : list Msg) self : Prop := on ch msgs ≠ [] ∨ Forall (waits self) (wait_of self ch).

Lemma sent_now_one item self msg self' : wait_queue self' = wait_queue self → item_channel item = Some (msg_channel msg) →
  sent_now item self [msg] self'.
Proof. intros Hw Hic. split; [done|]. intros ch Hch. rewrite on_cons, decide_True; [done|]. congruence. Qed.

Lemma set_active_id self : set_active_multi_frame self (active_multi_frame self) = self.
Proof. by destruct self. Qed.
Lemma note_multi_frame_Done self msg : MaxFrameSize_wf (core_mfs self) → payload_wf (msg_payload msg) →
  ChannelId_wf (msg_channel msg) → chan_raw (msg_channel msg) < len (active_multi_frame self) →
  note_multi_frame self (msg_channel msg) (message_of msg)
  = Done (set_active_multi_frame self
      (if decide (long (core_mfs self) msg)
       then <[Z.to_nat (chan_raw (msg_channel msg)) := Some (msg_header msg)]> (active_multi_frame self)
       else active_multi_frame self)).
Proof.
  intros Hm Hp [Hch _] Hlt. pose proof (long_frames _ _ Hm Hp) as Hl. unfold needs_frames in Hl. unfold note_multi_frame.
  pose proof (message_of_payload msg) as Hpl. pose proof (is_multi_frame_Done (core_mfs self) (msg_header msg) (msg_payload msg) Hm Hp) as Hd.
  assert (OutgoingMessage_new (msg_header msg) (msg_payload msg) = message_of msg) as Hmsg
    by (unfold msg_header; rewrite <- Hpl; by destruct (message_of msg)).
  rewrite Hmsg in Hd. fold (core_mfs self). rewrite Hd, bind_Done, Hl. case_decide as Hlong.
  - rewrite bool_decide_eq_true_2 by done. rewrite array_set_Done, bind_Done by (unfold ChannelId_get; lia). done.
  - rewrite bool_decide_eq_false_2 by done. by rewrite set_active_id.
Qed.
Lemma active_at_noted self self' msg ch : ChannelId_wf (msg_channel msg) → ChannelId_wf ch →
  chan_raw (msg_channel msg) < len (active_multi_frame self) →
  active_multi_frame self' = (if decide (long (core_mfs self) msg)
       then <[Z.to_nat (chan_raw (msg_channel msg)) := Some (msg_header msg)]> (active_multi_frame self)
       else active_multi_frame self) →
  active_at self' ch = if decide (msg_channel msg = ch ∧ long (core_mfs self) msg) then Some (msg_header msg) else active_at self ch.
Proof.
  intros Hch Hch' Hlt Heq. unfold active_at. rewrite Heq. destruct (decide (long _ msg)); [|by rewrite decide_False by naive_solver].
  destruct (decide (msg_channel msg = ch)) as [<-|Hne].
  - rewrite decide_True by done. rewrite list_lookup_insert_eq; [done|]. destruct Hch. unfold len in Hlt. lia.
  - rewrite decide_False by naive_solver. rewrite list_lookup_insert_ne; [done|]. by apply chan_raw_inj.
Qed.

Definition noted self (msg : Msg) : list (option Header) :=
  if decide (long (core_mfs self) msg)
  then <[Z.to_nat (chan_raw (msg_channel msg)) := Some (msg_header msg)]> (active_multi_frame self)
  else active_multi_frame self.
Lemma noted_short self msg : MaxFrameSize_wf (core_mfs self) → msg_payload msg = None → noted self msg = active_multi_frame self.
Proof. intros Hm Hp. apply decide_False. intros Hl. apply (long_payload _ Hm) in Hl. rewrite Hp in Hl. by destruct Hl. Qed.

Lemma sends_message hand0 Φ self hand answerable cur a b e msg self' hand' : linked self hand answerable cur a b →
  local_step (party_endpoint a) e → sent e = [msg] → cancelled e = withdraw_one (p_cancelled a) msg →
  ChannelId_wf (msg_channel msg) → chan_raw (msg_channel msg) < channel_count self →
  (long (core_mfs self) msg → active_at self (msg_channel msg) = None) →
  (∀ ch id, msg = MCancelReq ch id → ∀ o, o ∈ long_msgs (core_mfs self) (queued (p_out a)) → msg_channel o = ch → msg_id o ≠ id) →
  io_wf self' → pending_error self' = None → juliet self' = proto e →
  ready_queue self' = ready_queue self ++ [frames (message_of msg)] → wait_queue self' = wait_queue self →
  same_streams self self' → active_multi_frame self' = noted self msg →
  (∀ io ch id, bm_rel (request_map self') io (ch, id) → ∃ c, chan_at (juliet self) ch = Some c) →
  answers_held hand ≡ₚ (if is_answer msg then [(msg_channel msg, msg_id msg)] else []) ++ answers_held hand' →
  Forall (item_fits (juliet self)) hand' →
  64 * (len (default [] (msg_payload msg)) + 1) + total item_weight hand' ≤ total item_weight hand0 →
  (∃ item, hand0 = item :: hand' ∧ carried item msg (request_map self) (request_map self')) → Φ [msg] self' →
  sends hand0 Φ self answerable cur a b (Done (Ok (), self')) hand'.
Proof.
  intros Hl Hstep Hsent Hcanc Hch Hlt Hactive Hcancel Hwf Hpend Hj Hready Hwait Hsame Hact Hmap Hheld Hfits Hw (item & Hitem & Hcar) HΦ.
  exists self', (party_send a e msg), [msg]. split; [done|].
  split; [|split; [done|split; [done|split; [done|split; [done|split; [|split; [|split; [|done]]]]]]]].
  4: { eapply conveyed_send; [|exact Hcar]. unfold held. by rewrite Hwait, Hitem, <- Permutation_middle. }
  3: { destruct (local_step_effect (party_endpoint a) e (dx_a _ _ (lk_duplex _ _ _ _ _ _ Hl)) Hstep)
      as (ch0 & c & c' & msg' & Hch0 & Hm0 & Hat & Hp' & Hs' & _). rewrite Hsent in Hs'. injection Hs' as <-.
    intros ch Hch' _. unfold kept_on. rewrite on_cons. destruct (decide (msg_channel msg = ch)) as [|Hne]; [by left|right; right].
    split; [|unfold wait_of; rewrite Hwait; apply Forall_forall; auto]. split.
    - rewrite Hj, Hp'. cbn [party_endpoint proto] in *. rewrite (lk_proto _ _ _ _ _ _ Hl) in *.
      rewrite (outgoing_at_put _ _ _ _ _ Hch0 Hch' Hat). by rewrite decide_False by congruence.
    - rewrite (active_at_noted self self' msg ch); [by rewrite decide_False by naive_solver|done|done| |done].
      by rewrite (iw_active _ (lk_wf _ _ _ _ _ _ Hl)). }
  2: { unfold backlog. rewrite Hready, Hwait, total_app. pose proof (iter_weight_frames msg) as Hiw.
    unfold total at 2. cbn [foldr]. lia. }
  eapply (linked_send self hand); try done; [by destruct Hsame as (_ & _ & ?)|].
  intros ch Hch' _. apply active_at_noted; [done..| |done]. by rewrite (iw_active _ (lk_wf _ _ _ _ _ _ Hl)).
Qed.

Lemma chan_at_count self ch c : ChannelId_wf ch → chan_at (juliet self) ch = Some c → chan_raw ch < channel_count self.
Proof. intros [Hch _] Hc. apply lookup_lt_Some in Hc. unfold channel_count, len. lia. Qed.

Lemma good_refl self : io_wf self → good (juliet self) (len (buffer self)) self.
Proof. intros Hwf. split; [done|]. by split. Qed.
(** The wellformedness the safety theorem gives. *)
Lemma send_wf self item self' r : io_wf self → item_ok (channel_count self) item →
  send_to_ready_queue self item = Done (r, self') → io_wf self'.
Proof.
  intros Hwf Hi Hd. destruct (send_to_ready_queue_safe (juliet self) (len (buffer self)) self item) as (r' & s & Hs & Hg & _);
    [apply len_nonneg|done|done|]. rewrite Hd in Hs. by injection Hs as -> ->.
Qed.
Lemma payload_ok_not_exceeds limit pl : payload_ok limit pl → exceeds limit pl = false ∧ payload_bytes pl.
Proof. destruct pl as [pl|]; [|by split; [|apply Forall_nil_2]]. intros [Hu Hle]. split; [|done]. by apply Z.ltb_ge. Qed.

(** An item that does not have to wait is sent. *)
Lemma send_request self ch io pl permit hand answerable cur a b :
  linked self (QRequest ch io pl permit :: hand) answerable cur a b →
  item_should_wait (QRequest ch io pl permit) (juliet self) (active_multi_frame self) = Done (Ok None) →
  sends (QRequest ch io pl permit :: hand) (sent_now (QRequest ch io pl permit) self) self answerable cur a b (send_to_ready_queue self (QRequest ch io pl permit)) hand.
Proof.
  intros Hl Hnow. pose proof (lk_wf _ _ _ _ _ _ Hl) as Hwf. pose proof (iw_juliet _ Hwf) as Hp.
  pose proof (lk_items _ _ _ _ _ _ Hl) as Hi. apply Forall_app in Hi as [_ Hi]. apply Forall_cons in Hi as [Hfit Hrest].
  pose proof (item_fits_ok _ _ Hp Hfit) as Hok. destruct Hfit as (Hch & c & Hc & Hpl).
  rewrite item_should_wait_Done in Hnow by done. injection Hnow as Hnow. fold (active_at self ch) in Hnow.
  unfold chan_at in Hc. rewrite Hc in Hnow. destruct (Z.ltb_spec (hs_len (outgoing_requests c)) (request_limit (config c))) as [Hlim|]; [|done].
  destruct (payload_ok_not_exceeds _ _ Hpl) as [Hex Hb]. pose proof Hok as [_ Hplwf].
  pose proof (create_request_spec (juliet self) ch pl Hp Hch) as Hcr. rewrite Hc, Hex in Hcr. unfold Channel_allowed_to_send_request in Hcr.
  change (Channel_request_limit c) with (request_limit (config c)) in Hcr.
  rewrite (proj2 (Z.ltb_lt _ _)) in Hcr by done. destruct Hcr as (id & Hcr & Hn & Hid).
  set (msg := MReq ch id pl). change (request_message ch id pl) with (message_of msg) in Hcr.
  set (p' := put_channel (juliet self) ch (with_outgoing c id)) in Hcr.
  assert (∃ self', send_to_ready_queue self (QRequest ch io pl permit) = Done (Ok (), self') ∧ pending_error self' = pending_error self ∧
    juliet self' = p' ∧ ready_queue self' = ready_queue self ++ [frames (message_of msg)] ∧ wait_queue self' = wait_queue self ∧
    same_streams self self' ∧ active_multi_frame self' = noted self msg ∧ request_map self' = bm_insert (request_map self) io (ch, Header_id (msg_header msg))) as (self' & Hd & F1 & F2 & F3 & F4 & F5 & F6 & F7).
  { cbn [send_to_ready_queue]. rewrite Hcr, bind_Done. cbv zeta. set (s1 := set_request_map _ _).
    change ch with (msg_channel msg) at 2. pose proof (linked_mfs _ _ _ _ _ _ Hl) as [_ Hm].
    assert (core_mfs s1 = core_mfs self) as Hmfs by done.
    rewrite (note_multi_frame_Done s1 msg); [|by rewrite Hmfs|done|done|].
    - rewrite bind_Done. eexists. split; [reflexivity|]. done.
    - change (active_multi_frame s1) with (active_multi_frame self). rewrite (iw_active _ Hwf). by eapply chan_at_count. }
  rewrite Hd. eapply (sends_message _ _ self (QRequest ch io pl permit :: hand) answerable cur a b
    (mkEndpoint p' [msg] (<[ch := p_cancelled a ch ∖ {[id]}]> (p_cancelled a))) msg); try done.
  - apply (local_request (party_endpoint a) ch pl id p'); [done|done| |done]. cbn [party_endpoint proto].
    by rewrite (lk_proto _ _ _ _ _ _ Hl).
  - by eapply chan_at_count.
  - intros Hlong. pose proof (linked_mfs _ _ _ _ _ _ Hl) as [_ Hm]. pose proof (long_frames _ msg Hm Hplwf) as Hnf.
    rewrite bool_decide_eq_true_2 in Hnf by done. cbn [msg msg_payload msg_channel] in *. unfold core_mfs in Hnf. rewrite Hnf in Hnow.
    destruct (active_at self ch) as [h|]; [|done]. by rewrite bool_decide_eq_true_2 in Hnow by by eexists.
  - by eapply send_wf.
  - rewrite F1. apply Hl.
  - intros io' ch' id'. rewrite F7. intros Hrel. apply bm_insert_spec in Hrel; [|apply Hwf].
    destruct Hrel as [[_ [= -> _]]|(_ & _ & Hrel)]; [by exists c|]. by eapply (lk_map _ _ _ _ _ _ Hl).
  - eexists. split; [done|]. rewrite F7. split; [done|split; [done|]]. do 2 f_equal. exact (t_header_id (begin_transfer msg) Hid).
  - by apply sent_now_one.
Qed.

(** An answer the party owes is to a request the protocol knows. *)
Lemma linked_incoming self hand answerable cur a b ch c id : linked self hand answerable cur a b →
  ChannelId_wf ch → chan_at (juliet self) ch = Some c → id ∈ p_owed a ch → id ∈ incoming_requests c.
Proof.
  intros Hl Hch Hc Hid. pose proof (lk_duplex _ _ _ _ _ _ Hl) as Hdx. rewrite <- (lk_proto _ _ _ _ _ _ Hl) in Hc.
  destruct (same_config_chan _ _ ch c (dx_same _ _ Hdx) Hc) as (cb & Hcb & _).
  destruct (dx_lanes _ _ Hdx ch c cb Hch Hc Hcb) as [_ L]. apply (ln_incoming _ _ _ _ _ _ _ L). by left.
Qed.

Lemma send_response self ch id pl hand answerable cur a b :
  linked self (QResponse ch id pl :: hand) answerable cur a b →
  item_should_wait (QResponse (Permit := Permit) ch id pl) (juliet self) (active_multi_frame self) = Done (Ok None) →
  sends (QResponse ch id pl :: hand) (sent_now (QResponse ch id pl) self) self answerable cur a b (send_to_ready_queue self (QResponse ch id pl)) hand.
Proof.
  intros Hl Hnow. pose proof (lk_wf _ _ _ _ _ _ Hl) as Hwf. pose proof (iw_juliet _ Hwf) as Hp.
  pose proof (lk_items _ _ _ _ _ _ Hl) as Hi. apply Forall_app in Hi as [_ Hi]. apply Forall_cons in Hi as [Hfit Hrest].
  pose proof (item_fits_ok _ _ Hp Hfit) as Hok. destruct Hfit as (Hch & c & Hc & Hpl).
  rewrite item_should_wait_Done in Hnow by done. injection Hnow as Hnow. fold (active_at self ch) in Hnow.
  destruct (payload_ok_not_exceeds _ _ Hpl) as [Hex Hb]. pose proof Hok as (_ & Hlt & Hplwf).
  assert (id ∈ incoming_requests c) as Hin.
  { eapply linked_incoming; [done..|]. apply (lk_owed _ _ _ _ _ _ Hl). right. rewrite answers_held_app, elem_of_app. right. by left. }
  pose proof (create_response_spec (juliet self) ch id pl Hch) as Hcr. unfold chan_at in Hc. rewrite Hc, Hex in Hcr. cbv zeta in Hcr.
  rewrite bool_decide_eq_true_2 in Hcr by done. cbn [negb] in Hcr.
  set (msg := MResp ch id pl). change (response_message ch id pl) with (message_of msg) in Hcr.
  set (p' := put_channel (juliet self) ch _) in Hcr.
  assert (∃ self', send_to_ready_queue self (QResponse ch id pl) = Done (Ok (), self') ∧ pending_error self' = pending_error self ∧
    juliet self' = p' ∧ ready_queue self' = ready_queue self ++ [frames (message_of msg)] ∧ wait_queue self' = wait_queue self ∧
    same_streams self self' ∧ active_multi_frame self' = noted self msg ∧ request_map self' = request_map self) as (self' & Hd & F1 & F2 & F3 & F4 & F5 & F6 & F7).
  { cbn [send_to_ready_queue]. rewrite Hcr, bind_Done. cbv zeta. set (s1 := set_juliet self p').
    change ch with (msg_channel msg) at 1. pose proof (linked_mfs _ _ _ _ _ _ Hl) as [_ Hm].
    assert (core_mfs s1 = core_mfs self) as Hmfs by done.
    rewrite (note_multi_frame_Done s1 msg); [|by rewrite Hmfs|done|done|].
    - rewrite bind_Done. eexists. split; [reflexivity|]. done.
    - change (active_multi_frame s1) with (active_multi_frame self). by rewrite (iw_active _ Hwf). }
  rewrite Hd. eapply (sends_message _ _ self (QResponse ch id pl :: hand) answerable cur a b
    (mkEndpoint p' [msg] (p_cancelled a)) msg); try done.
  - apply (local_response (party_endpoint a) ch id pl p'); [done|done|]. cbn [party_endpoint proto].
    by rewrite (lk_proto _ _ _ _ _ _ Hl).
  - intros Hlong. pose proof (linked_mfs _ _ _ _ _ _ Hl) as [_ Hm]. pose proof (long_frames _ msg Hm Hplwf) as Hnf.
    rewrite bool_decide_eq_true_2 in Hnf by done. cbn [msg msg_payload msg_channel] in *. unfold core_mfs in Hnf. rewrite Hnf in Hnow.
    destruct (active_at self ch) as [h|]; [|done]. by rewrite bool_decide_eq_true_2 in Hnow by by eexists.
  - by eapply send_wf.
  - rewrite F1. apply Hl.
  - rewrite F7. apply Hl.
  - eexists. split; [done|]. by rewrite F7.
  - by apply sent_now_one.
Qed.

Lemma send_response_cancellation self ch id hand answerable cur a b :
  linked self (QResponseCancellation ch id :: hand) answerable cur a b →
  sends (QResponseCancellation ch id :: hand) (sent_now (QResponseCancellation ch id) self) self answerable cur a b (send_to_ready_queue self (QResponseCancellation ch id)) hand.
Proof.
  intros Hl. pose proof (lk_wf _ _ _ _ _ _ Hl) as Hwf. pose proof (iw_juliet _ Hwf) as Hp.
  pose proof (lk_items _ _ _ _ _ _ Hl) as Hi. apply Forall_app in Hi as [_ Hi]. apply Forall_cons in Hi as [Hfit Hrest].
  pose proof (item_fits_ok _ _ Hp Hfit) as Hok. destruct Hfit as (Hch & c & Hc).
  assert (id ∈ incoming_requests c) as Hin.
  { eapply linked_incoming; [done..|]. apply (lk_owed _ _ _ _ _ _ Hl). right. rewrite answers_held_app, elem_of_app. right. by left. }
  pose proof (cancel_response_spec (juliet self) ch id Hch) as Hcr. unfold chan_at in Hc. rewrite Hc in Hcr.
  rewrite bool_decide_eq_true_2 in Hcr by done. pose proof (linked_mfs _ _ _ _ _ _ Hl) as [_ Hm].
  set (msg := MCancelResp ch id). change (create_unchecked_response_cancellation ch id) with (message_of msg) in Hcr.
  set (p' := put_channel (juliet self) ch _) in Hcr.
  assert (∃ self', send_to_ready_queue self (QResponseCancellation ch id) = Done (Ok (), self') ∧ pending_error self' = pending_error self ∧
    juliet self' = p' ∧ ready_queue self' = ready_queue self ++ [frames (message_of msg)] ∧ wait_queue self' = wait_queue self ∧
    same_streams self self' ∧ active_multi_frame self' = active_multi_frame self ∧ request_map self' = request_map self) as (self' & Hd & F1 & F2 & F3 & F4 & F5 & F6 & F7).
  { cbn [send_to_ready_queue]. rewrite Hcr, bind_Done. eexists. split; [reflexivity|]. done. }
  rewrite Hd. eapply (sends_message _ _ self (QResponseCancellation ch id :: hand) answerable cur a b
    (mkEndpoint p' [msg] (p_cancelled a)) msg); try done.
  - apply (local_cancel_response (party_endpoint a) ch id p'); [done|]. cbn [party_endpoint proto].
    by rewrite (lk_proto _ _ _ _ _ _ Hl).
  - by eapply chan_at_count.
  - intros Hlong. apply (long_payload _ Hm) in Hlong. by destruct Hlong.
  - by eapply send_wf.
  - rewrite F1. apply Hl.
  - by rewrite noted_short.
  - rewrite F7. apply Hl.
  - eexists. split; [done|]. by rewrite F7.
  - by apply sent_now_one.
Qed.

(** The cancellation of a request: not a second one, and not while the ready queue holds a long
    message with the id of the request. *)
Lemma send_request_cancellation self io answerable cur a b : linked self [] answerable cur a b →
  (∀ ch id, bm_get_by_left (request_map self) io = Some (ch, id) → id ∉ p_cancelled a ch ∧
     ∀ o, o ∈ long_msgs (core_mfs self) (queued (p_out a)) → msg_channel o = ch → msg_id o ≠ id) →
  sends [QRequestCancellation io] anything self answerable cur a b (send_to_ready_queue self (QRequestCancellation io)) [].
Proof.
  intros Hl Hfine. pose proof (lk_wf _ _ _ _ _ _ Hl) as Hwf. pose proof (linked_mfs _ _ _ _ _ _ Hl) as [_ Hm].
  assert (sends [QRequestCancellation io] anything self answerable cur a b (Done (Ok (), self)) []) as Hnone.
  { exists self, a, []. rewrite app_nil_r. do 6 (split; [done|]). change (total item_weight []) with 0.
    change (total item_weight [_]) with 64. split; [lia|]. split; [apply kept_refl|]. split; [|done]. eapply conveyed_void; [|by constructor].
    unfold held. by rewrite <- Permutation_middle. }
  cbn [send_to_ready_queue]. destruct (bm_get_by_left (request_map self) io) as [[ch id]|] eqn:Hg; [|done].
  pose proof (proj1 (bm_get_by_left_spec _ _ _ (iw_map _ Hwf)) Hg) as Hrel. pose proof (iw_map_ids _ Hwf _ _ _ Hrel) as Hch.
  destruct (lk_map _ _ _ _ _ _ Hl _ _ _ Hrel) as [c Hc]. pose proof (cancel_request_spec (juliet self) ch id Hch) as Hcr.
  unfold chan_at in Hc. rewrite Hc in Hcr. destruct (Hfine ch id eq_refl) as [Hnc Hclear].
  assert (set_juliet self (juliet self) = self) as Hself by by destruct self.
  rewrite Hcr, bind_Done. cbv zeta. rewrite Hself. destruct (bool_decide_reflect (id ∈ outgoing_requests c)) as [Hin|]; [|done].
  set (msg := MCancelReq ch id). change (create_unchecked_request_cancellation ch id) with (message_of msg) in *.
  assert (send_to_ready_queue self (QRequestCancellation io) = Done (Ok (), push_ready self (message_of msg))) as Hsend.
  { cbn [send_to_ready_queue]. by rewrite Hg, Hcr, bind_Done, Hself. }
  eapply (sends_message _ _ self [] answerable cur a b
    (mkEndpoint (juliet self) [msg] (<[ch := {[id]} ∪ p_cancelled a ch]> (p_cancelled a))) msg); try done.
  - pose proof (local_cancel_request (party_endpoint a) ch id (juliet self) Hch Hnc) as Hs. cbn [party_endpoint proto] in Hs.
    rewrite (lk_proto _ _ _ _ _ _ Hl) in Hs. by apply Hs.
  - by eapply chan_at_count.
  - intros Hlong. apply (long_payload _ Hm) in Hlong. by destruct Hlong.
  - intros ch' id' [= <- <-]. done.
  - by eapply (send_wf self (QRequestCancellation io)).
  - apply Hl.
  - by rewrite noted_short.
  - apply Hl.
  - by eexists.
Qed.

(** ** Items that wait *)

Lemma should_wait_fits self item hand answerable cur a b : linked self (item :: hand) answerable cur a b →
  ∃ w, item_should_wait item (juliet self) (active_multi_frame self) = Done (Ok w) ∧
    ∀ ch, w = Some ch → ChannelId_wf ch ∧ chan_raw ch < channel_count self ∧ item_channel item = Some ch.
Proof.
  intros Hl. pose proof (lk_wf _ _ _ _ _ _ Hl) as Hwf. pose proof (iw_juliet _ Hwf) as Hp.
  pose proof (lk_items _ _ _ _ _ _ Hl) as Hi. apply Forall_app in Hi as [_ Hi]. apply Forall_cons in Hi as [Hfit _].
  pose proof (item_fits_ok _ _ Hp Hfit) as Hok.
  destruct (item_should_wait_step (juliet self) (len (buffer self)) self item) as (r & Hr & Hch); [by apply good_refl|done|].
  rewrite Hr. destruct r as [e|w].
  2: { exists w. split; [done|]. intros ch ->. split; [by apply Hch|]. split; [by apply Hch|].
    rewrite item_should_wait_Done in Hr by done. cbv zeta in Hr. injection Hr as Hr.
    destruct item as [ch' io pl permit|io|ch' id pl|ch' id|ch' id pl]; repeat case_match; by simplify_eq. }
  rewrite item_should_wait_Done in Hr by done. injection Hr as Hr. exfalso.
  assert (∀ ch (pl : option bytes), (if needs_frames (max_frame_size (juliet self)) pl &&
    bool_decide (is_Some (mjoin (active_multi_frame self !! Z.to_nat (chan_raw ch))))
    then Ok (Some ch) else Ok None) ≠ (Err e : result (option ChannelId) LocalProtocolViolation)) as Hno by (intros; by destruct (_ && _)).
  destruct item as [ch io pl permit|io|ch id pl|ch id|ch id pl]; try done; [|by eapply Hno].
  destruct Hfit as (_ & c & Hc & _). unfold chan_at in Hc. rewrite Hc in Hr. destruct (_ <? _); [|done]. by eapply Hno.
Qed.

Lemma send_item self item hand answerable cur a b : linked self (item :: hand) answerable cur a b →
  item_should_wait item (juliet self) (active_multi_frame self) = Done (Ok None) →
  sends (item :: hand) (sent_now item self) self answerable cur a b (send_to_ready_queue self item) hand.
Proof.
  intros Hl Hnow. pose proof (lk_items _ _ _ _ _ _ Hl) as Hi. apply Forall_app in Hi as [_ Hi]. apply Forall_cons in Hi as [Hfit _].
  destruct item as [ch io pl permit|io|ch id pl|ch id|ch id pl]; try done;
    [by apply send_request|by apply send_response|by apply send_response_cancellation].
Qed.

Lemma linked_push_wait self item hand answerable cur a b ch : linked self (item :: hand) answerable cur a b →
  ChannelId_wf ch → chan_raw ch < channel_count self → item_channel item = Some ch →
  ∃ w, push_wait self ch item = Done (set_wait_queue self w) ∧ linked (set_wait_queue self w) hand answerable cur a b ∧
    concat w ≡ₚ item :: concat (wait_queue self) ∧
    ∀ ch', ChannelId_wf ch' → wait_of (set_wait_queue self w) ch' = if decide (ch' = ch) then wait_of self ch ++ [item] else wait_of self ch'.
Proof.
  intros Hl Hch Hlt Hic. pose proof (lk_wf _ _ _ _ _ _ Hl) as Hwf. pose proof (iw_juliet _ Hwf) as Hp.
  pose proof (lk_items _ _ _ _ _ _ Hl) as Hi. apply Forall_app in Hi as [_ Hi]. apply Forall_cons in Hi as [Hfit _].
  pose proof (item_fits_ok _ _ Hp Hfit) as Hok.
  destruct (push_wait_step (juliet self) (len (buffer self)) self ch item) as (s & Hs & Hg & _); [by apply good_refl|done..|].
  assert (0 ≤ ChannelId_get ch < len (wait_queue self)) as Hb.
  { rewrite (iw_wait_len _ Hwf). destruct Hch. unfold ChannelId_get. lia. }
  destruct (array_get_lt _ _ Hb) as (q & Hget & Hq). unfold push_wait in *.
  rewrite Hget, bind_Done, array_set_Done, bind_Done in * by done. eexists. split; [reflexivity|].
  pose proof (concat_push _ _ _ item Hq) as Hperm. split; [|split; [done|]].
  2: { intros ch' Hch'. unfold ChannelId_get in *. rewrite wait_of_insert by done. unfold wait_of at 2. by rewrite Hq. }
  eapply linked_move; [done|by injection Hs as <-; apply Hg|by rewrite Hperm, <- Permutation_middle|].
  intros ch' Hch'. unfold ChannelId_get in *. rewrite wait_of_insert by done. pose proof (lk_waiting _ _ _ _ _ _ Hl ch' Hch') as Hw.
  case_decide; [|done]. subst ch'. unfold wait_of in Hw. rewrite Hq in Hw. apply Forall_app. split; [done|by apply Forall_singleton].
Qed.

Lemma sends_after hand0 hand1 (Φ Φ1 : list Msg → IoCore Permit BM → Prop) self s1 h0 h1 answerable cur a a1 b msgs r hand :
  linked self h0 answerable cur a b → linked s1 h1 answerable cur a1 b → kept self s1 msgs →
  (∀ msgs' s, Φ1 msgs' s → Φ (msgs ++ msgs') s) → same_streams self s1 →
  conveyed (request_map self) (held self hand0) msgs (request_map s1) (held s1 hand1) →
  backlog s1 + total item_weight hand1 ≤ backlog self + total item_weight hand0 →
  ready_queue s1 = ready_queue self ++ map (λ msg, frames (message_of msg)) msgs →
  p_out a1 = flow_sends (p_out a) msgs → p_cancelled a1 = withdraw msgs (p_cancelled a) →
  sends hand1 Φ1 s1 answerable cur a1 b r hand → sends hand0 Φ self answerable cur a b r hand.
Proof.
  intros Hl0 Hl1 Hk HΦ (H1 & H2 & H3) Hcv Hle Hr Ho Hc (s2 & a2 & msgs' & -> & Hl & (G1 & G2 & G3) & Hr' & Ho' & Hc' & Hw' & Hk' & Hcv' & HΦ1).
  exists s2, a2, (msgs ++ msgs'). split; [done|]. split; [done|]. split; [by split_and!; etransitivity|].
  split; [by rewrite Hr', Hr, map_app, app_assoc|]. unfold flow_sends, withdraw in *. rewrite !fold_left_app.
  rewrite <- Ho, <- Hc. split; [done|]. split; [done|]. split; [lia|]. split; [eapply kept_trans; [exact Hl0|exact Hl1|exact Hl|done|done]|].
  split; [by eapply conveyed_app|by apply HΦ].
Qed.

Lemma sends_nothing hand0 (Φ : list Msg → IoCore Permit BM → Prop) self self' hand answerable cur a b : linked self' hand answerable cur a b →
  same_streams self self' → ready_queue self' = ready_queue self →
  request_map self' = request_map self → held self' hand ≡ₚ held self hand0 →
  kept self self' [] → Φ [] self' →
  sends hand0 Φ self answerable cur a b (Done (Ok (), self')) hand.
Proof.
  intros Hl Hs Hr Hm Hh Hk HΦ. exists self', a, []. rewrite Hr, app_nil_r. do 6 (split; [done|]). unfold backlog. rewrite Hr.
  pose proof (total_perm item_weight _ _ Hh) as Hw. unfold held in Hw. rewrite !total_app in Hw. split; [lia|]. split; [done|].
  split; [|done]. rewrite Hm. by constructor.
Qed.

Lemma sends_weaken hand0 (Φ Φ' : list Msg → IoCore Permit BM → Prop) self answerable cur a b r hand :
  (∀ msgs s, Φ msgs s → Φ' msgs s) → sends hand0 Φ self answerable cur a b r hand → sends hand0 Φ' self answerable cur a b r hand.
Proof.
  intros HΦ (s & a' & msgs & Hr & Hl & Hs & Hq & Ho & Hc & Hw & Hk & Hcv & H'). exists s, a', msgs. do 9 (split; [done|]). by apply HΦ.
Qed.

Lemma handle_item_sends self item hand answerable cur a b : linked self (item :: hand) answerable cur a b →
  sends (item :: hand) anything self answerable cur a b (handle_incoming_item self item) hand.
Proof.
  intros Hl. unfold handle_incoming_item. destruct (should_wait_fits _ _ _ _ _ _ _ Hl) as (w & Hw & Hch).
  rewrite Hw, bind_Done. destruct w as [ch|]; [|eapply sends_weaken; [|by apply send_item]; done].
  destruct (Hch ch eq_refl) as (Hch' & Hlt & Hic).
  destruct (linked_push_wait self item hand answerable cur a b ch) as (q & -> & Hl' & Hperm & Hof); [done..|].
  rewrite bind_Done. apply sends_nothing; [done..| | |done].
  - unfold held. cbn [set_wait_queue wait_queue]. by rewrite Hperm, <- Permutation_middle.
  - apply kept_same; [done|]. intros ch' Hch2. rewrite Hof by done. case_decide; [subst ch'|by apply Forall_forall; auto].
    apply Forall_app. split; [by apply Forall_forall; auto|]. apply Forall_singleton. right. by exists ch.
Qed.

(** An item is taken out of a wait queue. *)
Lemma linked_pop self item q answerable cur a b ch : linked self [] answerable cur a b → ChannelId_wf ch →
  0 ≤ ChannelId_get ch < len (wait_queue self) → wait_queue self !! Z.to_nat (ChannelId_get ch) = Some (item :: q) →
  let s1 := set_wait_queue self (<[Z.to_nat (ChannelId_get ch) := q]> (wait_queue self)) in
  linked s1 [item] answerable cur a b ∧ held s1 [item] ≡ₚ held self [] ∧ item_channel item = Some ch ∧
  ∀ ch', ChannelId_wf ch' → wait_of s1 ch' = if decide (ch' = ch) then q else wait_of self ch'.
Proof.
  intros Hl Hch Hb Hq s1. pose proof (lk_wf _ _ _ _ _ _ Hl) as Hwf.
  assert (∀ ch', ChannelId_wf ch' → wait_of s1 ch' = if decide (ch' = ch) then q else wait_of self ch') as Hof
    by (intros ch' Hch'; by apply wait_of_insert).
  pose proof (lk_waiting _ _ _ _ _ _ Hl ch Hch) as Hw. unfold wait_of in Hw. unfold ChannelId_get in Hq. rewrite Hq in Hw.
  apply Forall_cons in Hw as [Hic Hw]. split; [|split; [|done]].
  - apply (linked_move self []); [done| | |].
    + pose proof (iw_wait _ Hwf) as Hws. pose proof (Forall_lookup_1 _ _ _ _ Hws Hq) as Hitems.
      apply Forall_cons in Hitems as [_ Hitems]. apply (good_wait (juliet self) (len (buffer self))); [by apply good_refl|..].
      * rewrite len_insert. apply Hwf.
      * by apply Forall_insert.
    + rewrite app_nil_r, <- (concat_pop _ _ _ _ Hq). by rewrite <- Permutation_cons_append.
    + intros ch' Hch'. fold s1. rewrite Hof by done. case_decide; [by subst ch'|]. by apply (lk_waiting _ _ _ _ _ _ Hl).
  - unfold held. rewrite app_nil_r, <- (concat_pop _ _ _ _ Hq). by rewrite <- Permutation_cons_append.
Qed.

Lemma kept_on_from self s1 s2 msgs ch : same_room self s1 ch → wait_of s1 ch ⊆ wait_of self ch →
  kept_on s1 s2 msgs ch → kept_on self s2 msgs ch.
Proof.
  intros [Ho Ha] Hw [|[|[[Ho' Ha'] Hr]]]; [by left|by right; left|right; right]. split; [split; congruence|].
  eapply Forall_impl; [exact Hr|]. intros item [Hin|]; [left; by apply Hw|by right].
Qed.
Lemma kept_from self s1 s2 msgs : juliet s1 = juliet self → active_multi_frame s1 = active_multi_frame self →
  (∀ ch, ChannelId_wf ch → wait_of s1 ch ⊆ wait_of self ch) → kept s1 s2 msgs → kept self s2 msgs.
Proof.
  intros Hj Ha Hw Hk ch Hch Hlt. unfold channel_count in Hlt. rewrite <- Hj in Hlt.
  apply (kept_on_from self s1); [split; [by rewrite Hj|unfold active_at; by rewrite Ha]|by apply Hw|by apply Hk].
Qed.

(** One turn of the loop: the first item of the wait queue is put back at the end, or sent. *)
Lemma held_backlog self self' hand hand' : ready_queue self' = ready_queue self → held self' hand' ≡ₚ held self hand →
  backlog self' + total item_weight hand' = backlog self + total item_weight hand.
Proof.
  intros Hr Hh. unfold backlog. rewrite Hr. pose proof (total_perm item_weight _ _ Hh) as Hw. unfold held in Hw.
  rewrite !total_app in Hw. lia.
Qed.
Lemma turn_waits self item q answerable cur a b ch : linked self [] answerable cur a b → ChannelId_wf ch →
  chan_raw ch < channel_count self → wait_queue self !! Z.to_nat (ChannelId_get ch) = Some (item :: q) →
  let s1 := set_wait_queue self (<[Z.to_nat (ChannelId_get ch) := q]> (wait_queue self)) in
  ∃ w, push_wait s1 ch item = Done (set_wait_queue s1 w) ∧
    sends [] (λ msgs s, wait_of s ch = q ++ [item]) self answerable cur a b (Done (Ok (), set_wait_queue s1 w)) [].
Proof.
  intros Hl Hch Hlt Hq s1. assert (0 ≤ ChannelId_get ch < len (wait_queue self)) as Hb.
  { rewrite (iw_wait_len _ (lk_wf _ _ _ _ _ _ Hl)). destruct Hch. unfold ChannelId_get. lia. }
  assert (wait_of self ch = item :: q) as Hqo by (unfold wait_of, ChannelId_get in *; by rewrite Hq).
  destruct (linked_pop self item q answerable cur a b ch Hl Hch Hb Hq) as (Hl1 & Hpop & Hic & Hof). fold s1 in Hl1, Hpop, Hof.
  destruct (linked_push_wait s1 item [] answerable cur a b ch) as (w & Hd & Hl' & Hperm & Hof'); [done..|].
  exists w. split; [done|]. apply sends_nothing; [done..| | |].
  - rewrite <- Hpop. unfold held. cbn [set_wait_queue wait_queue]. rewrite Hperm, app_nil_r. by rewrite <- Permutation_cons_append.
  - apply kept_same; [done|]. intros ch2 Hch2. rewrite Hof' by done. apply Forall_forall. intros x Hx. left.
    case_decide; [subst ch2|by rewrite Hof, decide_False in Hx by done]. rewrite Hof, decide_True in Hx by done.
    rewrite elem_of_app, list_elem_of_singleton in Hx. rewrite Hqo, elem_of_cons. tauto.
  - by rewrite Hof', Hof, !decide_True by done.
Qed.
Lemma turn_sent self item q answerable cur a b ch : linked self [] answerable cur a b → ChannelId_wf ch →
  chan_raw ch < channel_count self → wait_queue self !! Z.to_nat (ChannelId_get ch) = Some (item :: q) →
  let s1 := set_wait_queue self (<[Z.to_nat (ChannelId_get ch) := q]> (wait_queue self)) in
  item_should_wait item (juliet s1) (active_multi_frame s1) = Done (Ok None) →
  ∃ s2, send_to_ready_queue s1 item = Done (Ok (), s2) ∧
    sends [] (λ msgs s, on ch msgs ≠ [] ∧ wait_of s ch = q) self answerable cur a b (Done (Ok (), s2)) [].
Proof.
  intros Hl Hch Hlt Hq s1 Hnow. assert (0 ≤ ChannelId_get ch < len (wait_queue self)) as Hb.
  { rewrite (iw_wait_len _ (lk_wf _ _ _ _ _ _ Hl)). destruct Hch. unfold ChannelId_get. lia. }
  assert (wait_of self ch = item :: q) as Hqo by (unfold wait_of, ChannelId_get in *; by rewrite Hq).
  destruct (linked_pop self item q answerable cur a b ch Hl Hch Hb Hq) as (Hl1 & Hpop & Hic & Hof). fold s1 in Hl1, Hpop, Hof.
  destruct (send_item _ _ _ _ _ _ _ Hl1 Hnow) as (s2 & a2 & msgs & -> & Hl2 & Hst & Hr & Ho & Hc & Hle & Hk & Hcv & Hwq & Hon).
  exists s2. split; [done|]. exists s2, a2, msgs. do 6 (split; [done|]).
  rewrite (held_backlog self s1 [] [item]) in Hle by done. split; [done|]. split; [|split; [|split; [by apply Hon|]]].
  - apply (kept_from self s1 s2 msgs); [done|done| |done]. intros ch2 Hch2 x. rewrite Hof by done. case_decide; [subst ch2|done].
    rewrite Hqo. by right.
  - eapply conveyed_perm; [by symmetry|exact Hcv].
  - unfold wait_of. rewrite Hwq. fold (wait_of s1 ch). by rewrite Hof, decide_True by done.
Qed.
Lemma sends_bind h hand0 (Φ0 Φ : list Msg → IoCore Permit BM → Prop) self s1 answerable cur a b r hand :
  linked self h answerable cur a b → sends hand0 Φ0 self answerable cur a b (Done (Ok (), s1)) [] →
  (∀ a1 msgs, linked s1 [] answerable cur a1 b → Φ0 msgs s1 →
     sends [] (λ msgs' s, Φ (msgs ++ msgs') s) s1 answerable cur a1 b r hand) → sends hand0 Φ self answerable cur a b r hand.
Proof.
  intros Hl (s & a1 & msgs & Hd & Hl1 & Hs & Hr & Ho & Hc & Hw & Hk & Hcv & H0') Hnext. injection Hd as <-.
  eapply sends_after; [exact Hl|exact Hl1|exact Hk| |done|exact Hcv|done..|by apply (Hnext a1 msgs)]. done.
Qed.

(** [q1] is what the loop has not looked at, [q2] what it has put back; [P]: something was sent. *)
Lemma process_wait_queue_loop_sends answerable cur b ch fuel : ∀ remaining self a q1 q2 (P : Prop), linked self [] answerable cur a b →
  ChannelId_wf ch → chan_raw ch < channel_count self → 0 ≤ remaining < Z.of_nat fuel →
  wait_of self ch = q1 ++ q2 → len q1 = remaining → (q1 = [] → q2 = []) → P ∨ Forall (waits self) q2 →
  sends [] (λ msgs s, P ∨ settled_on ch msgs s) self answerable cur a b (process_wait_queue_loop fuel remaining self ch) [].
Proof.
  induction fuel as [|fuel IH]; intros remaining self a q1 q2 P Hl Hch Hlt Hf Hq12 Hlen Hempty HP; [lia|]. cbn [process_wait_queue_loop].
  assert (0 ≤ ChannelId_get ch < len (wait_queue self)) as Hb.
  { rewrite (iw_wait_len _ (lk_wf _ _ _ _ _ _ Hl)). destruct Hch. unfold ChannelId_get. lia. }
  destruct (array_get_lt _ _ Hb) as (q & -> & Hq). rewrite bind_Done.
  assert (wait_of self ch = q) as Hqo by (unfold wait_of, ChannelId_get in *; by rewrite Hq). rewrite Hqo in Hq12. subst q.
  destruct q1 as [|item q1]; cbn [app] in *.
  { rewrite Hempty in * by done. apply sends_nothing; [done..|apply kept_refl|]. right. right. rewrite Hqo. constructor. }
  rewrite array_set_Done, bind_Done by done. set (s1 := set_wait_queue self _).
  assert (len q1 = remaining - 1) as Hlen1 by (unfold len in *; cbn [length] in Hlen; lia).
  assert (∀ s2 a2 (Q : Prop) q2', linked s2 [] answerable cur a2 b → wait_of s2 ch = q1 ++ q2' → Q ∨ Forall (waits s2) q2' →
    sends [] (λ msgs s, Q ∨ settled_on ch msgs s) s2 answerable cur a2 b
      (remaining ← usub remaining 1;
       if remaining =? 0 then mret (Ok (), s2) else process_wait_queue_loop fuel remaining s2 ch) []) as Hcont.
  { intros s2 a2 Q q2' Hl2 Hq2 Hset. rewrite usub_Done, bind_Done by (pose proof (len_nonneg q1); lia).
    assert (channel_count s2 = channel_count self) as Hn by (apply same_config_len; eapply linked_same_config; [exact Hl|exact Hl2|done]).
    destruct (Z.eqb_spec (remaining - 1) 0) as [Hrem|Hrem].
    - apply sends_nothing; [done..|apply kept_refl|]. destruct Hset as [|Hset]; [by left|right; right].
      rewrite Hrem in Hlen1. apply len_zero in Hlen1 as ->. by rewrite Hq2.
    - eapply IH; [done|done|by rewrite Hn|pose proof (len_nonneg q1); lia|done|done| |done]. intros ->. change (len []) with 0 in Hlen1. lia. }
  destruct (linked_pop self item (q1 ++ q2) answerable cur a b ch Hl Hch Hb Hq) as (Hl1 & _). fold s1 in Hl1.
  destruct (should_wait_fits _ _ _ _ _ _ _ Hl1) as (w & Hw & _). rewrite Hw, bind_Done. destruct w as [ch'|].
  - destruct (turn_waits self item (q1 ++ q2) answerable cur a b ch Hl Hch Hlt Hq) as (w & Hd & Hs). fold s1 in Hd, Hs.
    rewrite Hd, bind_Done. eapply sends_bind; [exact Hl|exact Hs|]. intros a2 msgs Hl2 Hq2. cbv beta in Hq2. rewrite <- app_assoc in Hq2.
    eapply sends_weaken; [|apply (Hcont _ a2 P (q2 ++ [item]) Hl2 Hq2)].
    + intros msgs' s [|[Hm|]]; [by left| |by right; right]. right. left. rewrite on_app2. by intros [_ ?]%app_eq_nil.
    + destruct HP as [|HP]; [by left|right]. apply Forall_app. split; [done|]. apply Forall_singleton. by exists ch'.
  - destruct (turn_sent self item (q1 ++ q2) answerable cur a b ch Hl Hch Hlt Hq Hw) as (s2 & Hd & Hs). fold s1 in Hd.
    rewrite Hd, bind_Done. eapply sends_bind; [exact Hl|exact Hs|]. intros a2 msgs Hl2 [Hon Hq2].
    assert (channel_count s2 = channel_count self) as Hn by (apply same_config_len; eapply linked_same_config; [exact Hl|exact Hl2|done]).
    assert (∀ msgs', on ch (msgs ++ msgs') ≠ []) as Hon' by (intros msgs'; rewrite on_app2; by intros [? _]%app_eq_nil).
    unfold allowed_to_send_request. rewrite lookup_channel_Done, lookup_channel_mut_Done by apply Hch. rewrite !bind_Done.
    destruct (channels (juliet s2) !! Z.to_nat (chan_raw ch)) as [c|] eqn:Hc2.
    2: { apply lookup_ge_None in Hc2. destruct Hch. unfold channel_count, len in *. lia. }
    cbn [mret exec_ret mbind exec_bind]. destruct (negb _).
    + apply sends_nothing; [done..|apply kept_refl|]. right. by left.
    + eapply sends_weaken; [|apply (Hcont s2 a2 True q2 Hl2 Hq2); by left]. intros msgs' s _. right. by left.
Qed.

Lemma process_wait_queue_sends self answerable cur a b ch : linked self [] answerable cur a b →
  ChannelId_wf ch → chan_raw ch < channel_count self →
  sends [] (settled_on ch) self answerable cur a b (process_wait_queue self ch) [].
Proof.
  intros Hl Hch Hlt. pose proof (lk_wf _ _ _ _ _ _ Hl) as Hwf. unfold process_wait_queue.
  assert (0 ≤ ChannelId_get ch < len (wait_queue self)) as Hb.
  { rewrite (iw_wait_len _ Hwf). destruct Hch. unfold ChannelId_get. lia. }
  destruct (array_get_lt _ _ Hb) as (q & -> & Hq). rewrite bind_Done.
  assert (wait_of self ch = q) as Hqo by (unfold wait_of, ChannelId_get in *; by rewrite Hq).
  eapply (sends_weaken _ (λ msgs s, False ∨ settled_on ch msgs s)); [by intros ? ? [?|?]|].
  apply (process_wait_queue_loop_sends _ _ _ _ _ _ _ _ q []); [done..|unfold len; lia|by rewrite app_nil_r|done|done|by right].
Qed.

(** ** Taking an item *)

(** What the application may put into the queue. *)
Definition may_queue self (answerable canc : ChannelId → gset Id) (item : QueuedItem Permit) : Prop :=
  match item with
  | QRequestCancellation io => ∀ ch id, bm_get_by_left (request_map self) io = Some (ch, id) → id ∉ canc ch ∧
      Forall (λ it, is_multi_frame (fi_msg it) (core_mfs self) = Done true →
        Header_channel (om_header (fi_msg it)) = ch → Header_id (om_header (fi_msg it)) ≠ id) (ready_queue self)
  | QResponse ch id _ | QResponseCancellation ch id => id ∈ answerable ch ∧ item_fits (juliet self) item
  | _ => item_fits (juliet self) item
  end.
Definition answered (answerable : ChannelId → gset Id) (item : QueuedItem Permit) : ChannelId → gset Id :=
  match answer_of item with Some (ch, id) => <[ch := answerable ch ∖ {[id]}]> answerable | None => answerable end.

Lemma linked_take self item answerable cur a b : linked self [] answerable cur a b →
  item_fits (juliet self) item → (∀ ch id, answer_of item = Some (ch, id) → id ∈ answerable ch) →
  linked self [item] (answered answerable item) cur a b.
Proof.
  intros [H1 H2 H3 H4 H5 Hmap H6 H7 H8 H9 H10 H11 H12] Hfit Hans. rewrite app_nil_r in *.
  assert (∀ ch id, id ∈ answered answerable item ch ↔ id ∈ answerable ch ∧ answer_of item ≠ Some (ch, id)) as Hin.
  { intros ch id. unfold answered. destruct (answer_of item) as [[ch' id']|]; [|naive_solver].
    destruct (decide (ch = ch')) as [->|Hne].
    - rewrite fn_lookup_insert, elem_of_difference, elem_of_singleton. naive_solver.
    - rewrite fn_lookup_insert_ne by done. naive_solver. }
  assert (answers_held [item] = option_list (answer_of item)) as Hone by by destruct item.
  constructor; try done.
  - apply Forall_app. split; [done|by apply Forall_singleton].
  - intros ch id. rewrite H7, Hin, answers_held_app, elem_of_app, Hone.
    destruct (answer_of item) as [[ch' id']|]; cbn; [rewrite list_elem_of_singleton|rewrite elem_of_nil; naive_solver].
    specialize (Hans ch' id' eq_refl). destruct (decide ((ch, id) = (ch', id'))) as [[= -> ->]|]; naive_solver.
  - rewrite answers_held_app, Hone. destruct (answer_of item) as [[ch' id']|]; [|by rewrite app_nil_r].
    apply NoDup_snoc; [done|]. intros Hi. apply (H9 _ _ Hi). by apply Hans.
  - intros ch id. rewrite Hin, answers_held_app, elem_of_app, Hone. intros [Hi|Hi] [Ha Hne]; [by eapply H9|].
    destruct (answer_of item) as [p|]; [|by apply elem_of_nil in Hi]. apply list_elem_of_singleton in Hi. by rewrite Hi in Hne.
Qed.

Lemma queued_sent self hand answerable cur a b t : linked self hand answerable cur a b → t ∈ queued (p_out a) →
  piece_ok (core_mfs self) t ∧ ∃ c, chan_at (juliet self) (t_channel t) = Some c ∧ msg_ok (config c) (t_msg t).
Proof.
  intros Hl Ht. pose proof (lk_duplex _ _ _ _ _ _ Hl) as Hdx. destruct (linked_mfs _ _ _ _ _ _ Hl) as [Hmfs _].
  pose proof (fo_pieces _ _ (dx_flow_a _ _ Hdx)) as Hp. pose proof (dx_msgs_a _ _ Hdx) as Hs. rewrite Hmfs in Hp.
  rewrite (lk_proto _ _ _ _ _ _ Hl) in Hs. rewrite Forall_forall in Hp, Hs.
  split; [apply Hp|apply Hs]; unfold pieces; rewrite !elem_of_app; auto.
Qed.
Lemma msg_ok_payload c msg : channel_wf c → msg_ok (config c) msg → payload_wf (msg_payload msg).
Proof.
  intros Hc (_ & _ & Hp). destruct (cw_config c Hc) as (_ & Hq & Hs).
  destruct msg as [? ? pl|? ? pl|? ?|? ?]; [exact (payload_ok_wf _ pl Hq Hp)|exact (payload_ok_wf _ pl Hs Hp)|done|done].
Qed.

Lemma take_item_sends self answerable cur a b item : linked self [] answerable cur a b →
  may_queue self answerable (p_cancelled a) item →
  sends [item] anything self (answered answerable item) cur a b (handle_incoming_item self item) [].
Proof.
  intros Hl Hmay. destruct item as [ch io pl permit|io|ch id pl|ch id|ch id pl]; cbn [may_queue] in Hmay.
  1: apply handle_item_sends, linked_take; done.
  2, 3: destruct Hmay as [Hid Hfit]; apply handle_item_sends, linked_take; [done|done|]; by intros ? ? [= <- <-].
  2: done.
  unfold handle_incoming_item. cbn [item_should_wait]. change (mret (Ok None)) with (@Done (result (option ChannelId) LocalProtocolViolation) (Ok None)).
  rewrite bind_Done. apply send_request_cancellation; [done|]. intros ch id Hg. destruct (Hmay ch id Hg) as [Hnc Hclear].
  split; [done|]. intros o Ho Hoc Hoi. apply list_elem_of_filter in Ho as [Hlong Ho].
  apply list_elem_of_fmap in Ho as (t & -> & Ht). destruct (queued_sent _ _ _ _ _ _ t Hl Ht) as (_ & c & Hc & Hok).
  destruct (linked_mfs _ _ _ _ _ _ Hl) as [_ Hm]. pose proof (channel_wf_lookup _ _ _ (iw_juliet _ (lk_wf _ _ _ _ _ _ Hl)) Hc) as Hwf.
  pose proof (msg_ok_payload c _ Hwf Hok) as Hpl. rewrite (lk_ready _ _ _ _ _ _ Hl), Forall_map, Forall_forall in Hclear.
  apply (Hclear t Ht); cbn [iter fi_msg]; fold (t_header t).
  - pose proof (is_multi_frame_Done (core_mfs self) (msg_header (t_msg t)) (msg_payload (t_msg t)) Hm Hpl) as Hd.
    pose proof (long_frames _ _ Hm Hpl) as Hl'. unfold needs_frames in Hl'. rewrite bool_decide_eq_true_2 in Hl' by done.
    pose proof (message_of_payload (t_msg t)) as Hmp. rewrite Hl' in Hd.
    assert (OutgoingMessage_new (msg_header (t_msg t)) (msg_payload (t_msg t)) = message_of (t_msg t)) as Hmsg
      by (unfold msg_header; rewrite <- Hmp; by destruct (message_of (t_msg t))).
    by rewrite Hmsg in Hd.
  - by rewrite t_header_channel.
  - rewrite t_header_id; [done|]. apply Hok.
Qed.

(** ** Cutting and writing frames *)

(** A byte of a frame weighs less than a byte still to be cut into one. *)
Lemma piece_len m t : len (piece m t) = 4 + len (prefix_of_payload t) +
  len (take (Z.to_nat (room m t)) (drop (Z.to_nat (t_pos t)) (t_payload t))).
Proof. unfold piece. rewrite !len_app. change (len (Header_as_ref (t_header t))) with 4. lia. Qed.
Lemma iter_weight_piece m t : MaxFrameSize_wf m → transfer_ok t →
  total iter_weight (map iter (more m t)) + 6 * len (piece m t) + 1 ≤ iter_weight (iter t).
Proof.
  intros Hm [Hu Hp]. rewrite piece_len. pose proof (room_pos m Hm t Hu) as Hr. set (pl := len (t_payload t)) in *.
  assert (∀ x, iter_weight (iter (mkTransfer (t_msg t) x)) = 64 * (pl - x + 1)) as Hw.
  { intros x. unfold iter_weight. cbn [iter fi_msg bytes_processed t_msg t_pos]. by rewrite message_of_payload. }
  assert (iter_weight (iter t) = 64 * (pl - t_pos t + 1)) as -> by (rewrite <- Hw; by destruct t).
  assert (0 ≤ t_pos t ≤ pl) as Hpos by (pose proof (len_nonneg (t_payload t)); lia).
  assert (0 ≤ len (prefix_of_payload t) ≤ 5) as Hpre.
  { unfold prefix_of_payload. destruct (msg_payload (t_msg t)) as [p|]; [destruct (_ =? 0)|]; try (change (len []) with 0; lia).
    pose proof (varint_bytes_len (len p)). lia. }
  set (chunk := len (take _ _)). assert (0 ≤ chunk ≤ room m t ∧ chunk ≤ pl - t_pos t) as Hchunk.
  { subst chunk pl. unfold len in *. rewrite length_take, length_drop. lia. }
  unfold more, next_transfer. fold pl. destruct (Z.ltb_spec (t_pos t + room m t) pl).
  - change (option_list (Some ?x)) with [x]. cbn [map]. unfold total. cbn [foldr]. rewrite Hw. lia.
  - change (option_list (@None Transfer)) with (@nil Transfer). unfold total. cbn [map foldr]. lia.
Qed.

Lemma linked_ready self answerable a b : linked self [] answerable None a b → ready_queue self ≠ [] →
  ∃ self' t Q f, ready_next_frame self = Done (Ok (), self') ∧ queued (p_out a) = t :: Q ∧
    linked self' [] answerable (Some t) (party_out a (flow_ready (core_mfs self) (p_out a) t Q)) b ∧
    buffer self' = buffer self ∧ next_parse_at self' = next_parse_at self ∧
    current_frame self' = Some (f, bool_decide (next_transfer (core_mfs self) t = None)) ∧
    frame_bytes f = piece (core_mfs self) t ∧ backlog self' + 6 * len (piece (core_mfs self) t) + 1 ≤ backlog self ∧
    juliet self' = juliet self ∧ active_multi_frame self' = active_multi_frame self ∧ wait_queue self' = wait_queue self.
Proof.
  intros Hl Hne. pose proof (lk_wf _ _ _ _ _ _ Hl) as Hwf. destruct (linked_mfs _ _ _ _ _ _ Hl) as [Hmfs Hm].
  assert (current_frame self = None) as Hcur.
  { pose proof (lk_current _ _ _ _ _ _ Hl) as Hc. by destruct (current_frame self) as [[]|]. }
  destruct (queued (p_out a)) as [|t Q] eqn:HQ; [by rewrite (lk_ready _ _ _ _ _ _ Hl), HQ in Hne|].
  destruct (queued_sent _ _ _ _ _ _ t Hl) as [Ht _]; [rewrite HQ; by left|].
  destruct (next_owned_iter (core_mfs self) Hm t (proj1 Ht)) as (f & Hno & Hfb & Hfh).
  assert (∃ self', ready_next_frame self = Done (Ok (), self') ∧ juliet self' = juliet self ∧ pending_error self' = pending_error self ∧
    ready_queue self' = map iter (Q ++ more (core_mfs self) t) ∧ wait_queue self' = wait_queue self ∧
    request_map self' = request_map self ∧ active_multi_frame self' = active_multi_frame self ∧
    buffer self' = buffer self ∧ next_parse_at self' = next_parse_at self ∧
    current_frame self' = Some (f, bool_decide (next_transfer (core_mfs self) t = None)))
    as (self' & Hd & F1 & F2 & F3 & F4 & F5 & F6 & F7 & F8 & F9).
  { unfold ready_next_frame. rewrite Hcur. cbn [assert]. rewrite bind_Done, (lk_ready _ _ _ _ _ _ Hl), HQ. cbn [map].
    cbn [set_ready_queue juliet]. fold (core_mfs self). rewrite Hno, bind_Done. unfold more.
    destruct (next_transfer (core_mfs self) t) as [t'|]; eexists; (split; [reflexivity|]); split_and!; try done.
    - cbn [set_current_frame set_ready_queue ready_queue]. by rewrite map_app.
    - cbn [set_current_frame set_ready_queue ready_queue]. by rewrite app_nil_r. }
  exists self', t, Q, f. split; [done|]. split; [done|]. split; [|do 4 (split; [done|])].
  2: { split; [|done]. unfold backlog. rewrite F3, F4, (lk_ready _ _ _ _ _ _ Hl), HQ, map_app, total_app.
    cbn [map]. rewrite total_cons. pose proof (iter_weight_piece _ t Hm (proj1 Ht)). lia. }
  destruct (ready_next_frame_safe (juliet self) (len (buffer self)) self (good_refl self Hwf) Hcur) as (r & s & Hs & Hg).
  rewrite Hd in Hs. injection Hs as <- <-.
  assert (core_mfs self' = core_mfs self) as Hmfs' by (unfold core_mfs; by rewrite F1).
  destruct Hl as [L1 L2 L3 L4 L5 Lmap L6 L7 L8 L9 L10 L11 L12].
  constructor; cbn [party_out p_proto p_out p_cancelled p_owed flow_ready queued flying]; rewrite ?F1, ?F2, ?F3, ?F4, ?F5, ?Hmfs'; try done.
  - apply Hg.
  - pose proof (duplex_ready a b t Q L3 HQ) as Hdx. by rewrite Hmfs in Hdx.
  - intros ch Hch Hlt. unfold active_at, channel_count in *. rewrite F6, F1 in *. fold (active_at self ch). rewrite <- (L10 ch Hch Hlt).
    apply Permutation_map, on_perm. unfold pending_long. rewrite Hmfs'. cbn [party_out p_out flow_ready queued last_long].
    rewrite HQ, app_nil_r. change (t :: Q) with ([t] ++ Q). rewrite !long_msgs_app, (long_ready _ t Hm Ht).
    rewrite (Permutation_app_comm _ (long_msgs _ Q)). by rewrite app_assoc.
  - rewrite F9. split; [done|]. split; [done|]. split; [|by eexists]. rewrite Hfb. unfold piece. intros Hnil.
    apply (f_equal length) in Hnil. by rewrite length_app in Hnil.
  - intros ch Hch. unfold wait_of. rewrite F4. by apply L12.
Qed.

Lemma linked_write self answerable t a b f is_final n f' : linked self [] answerable (Some t) a b →
  current_frame self = Some (f, is_final) → 0 ≤ n ≤ Z.max 0 (len (frame_bytes f) - 1) → OutgoingFrame_advance f n = Done f' →
  linked (set_current_frame self (Some (f', is_final))) [] answerable (Some t) a b ∧
  frame_bytes f = take (Z.to_nat n) (frame_bytes f) ++ frame_bytes f'.
Proof.
  intros Hl Hc Hn Hadv. pose proof (lk_wf _ _ _ _ _ _ Hl) as Hwf. destruct (iw_current _ Hwf f is_final Hc) as [Hf Hh].
  pose proof (len_nonneg (frame_bytes f)). destruct (OutgoingFrame_advance_spec f n Hf) as (f2 & Hadv2 & Hf2 & Hb2); [lia|].
  assert (f2 = f') as -> by congruence. pose proof (OutgoingFrame_advance_preamble _ _ _ Hadv) as Hpre.
  assert (OutgoingFrame_header f' = OutgoingFrame_header f) as Hhd by (unfold OutgoingFrame_header in *; by rewrite Hpre).
  split; [|by rewrite Hb2, take_drop].
  assert (good (juliet self) (len (buffer self)) (set_current_frame self (Some (f', is_final)))) as [Hwf' _].
  { apply good_current; [by apply good_refl|]. intros f3 fin3 [= <- <-]. by rewrite Hhd. }
  destruct Hl as [L1 L2 L3 L4 L5 Lmap L6 L7 L8 L9 L10 L11 L12]. constructor; try done.
  rewrite Hc in L11. destruct L11 as (L & Hfin & Hne & HF). cbn [set_current_frame current_frame]. rewrite Hhd.
  split; [done|]. split; [done|]. split; [|done]. rewrite Hb2. intros Hnil. apply (f_equal len) in Hnil. rewrite len_drop in Hnil by lia.
  change (len (@nil Z)) with 0 in Hnil. assert (0 < len (frame_bytes f)); [|lia].
  destruct (frame_bytes f); [done|]. unfold len. cbn. lia.
Qed.

Lemma queued_under_way self hand answerable cur a b t : linked self hand answerable cur a b → t ∈ queued (p_out a) →
  t_msg t ∈ all_under_way (p_out a).
Proof.
  intros Hl Ht. pose proof (dx_flow_a _ _ (lk_duplex _ _ _ _ _ _ Hl)) as Hf. destruct (fo_frames _ _ Hf) as (O & Hs & HO).
  unfold all_under_way, not_begun. rewrite fresh_app. destruct (decide (t_pos t = 0)) as [Hz|Hz].
  - rewrite !elem_of_app. right. right. apply list_elem_of_fmap. exists t. split; [done|]. by apply list_elem_of_filter.
  - assert (t ∈ O) as Hin by (rewrite HO; by apply list_elem_of_filter).
    pose proof (frame_steps_origin _ _ _ _ Hs t Hin) as Hor. rewrite !elem_of_app in *. tauto.
Qed.

Lemma on_single ch msg : on ch [msg] = if decide (msg_channel msg = ch) then [msg] else [].
Proof. rewrite on_cons. by case_decide. Qed.
Lemma msg_header_inj_channel msg : Header_channel (msg_header msg) = msg_channel msg.
Proof. exact (t_header_channel (begin_transfer msg)). Qed.

(** When the frame is written, the active transfer of its channel is cleared exactly if that was
    the last frame of it. *)
Lemma active_written self answerable t a b : linked self [] answerable (Some t) a b → next_transfer (core_mfs self) t = None →
  (∃ F, flying (p_out a) = F ++ [t]) → ChannelId_wf (t_channel t) → chan_raw (t_channel t) < channel_count self →
  let cleared ch := if decide (ch = t_channel t ∧ active_at self (t_channel t) = Some (t_header t)) then None else active_at self ch in
  ∀ ch, ChannelId_wf ch → chan_raw ch < channel_count self →
    map msg_header (on ch (long_msgs (core_mfs self) (queued (p_out a)))) ≡ₚ option_list (cleared ch).
Proof.
  intros Hl Hn [F HF] Htch Htlt cleared ch Hch Hlt. unfold cleared. destruct (linked_mfs _ _ _ _ _ _ Hl) as [Hmfs Hm].
  pose proof (lk_active _ _ _ _ _ _ Hl ch Hch Hlt) as Ha. unfold pending_long, last_long in Ha. rewrite on_app2, map_app in Ha.
  destruct (decide (t_pos t = 0)) as [Hz|Hz].
  - rewrite decide_False in Ha by naive_solver. change (on ch []) with (@nil Msg) in Ha. cbn [map] in Ha. rewrite app_nil_r in Ha.
    rewrite decide_False; [done|]. intros [-> Hact]. rewrite Hact in Ha. change (option_list (Some (t_header t))) with [t_header t] in Ha.
    apply Permutation_sym, Permutation_singleton_l in Ha.
    assert (t_header t ∈ map msg_header (on (t_channel t) (long_msgs (core_mfs self) (queued (p_out a))))) as Hin by (rewrite <- Ha; by left).
    apply list_elem_of_fmap in Hin as (o & Ho & Hin). apply on_elem in Hin as [Hoc Hin]. apply list_elem_of_filter in Hin as [Hlong Hin].
    apply list_elem_of_fmap in Hin as (u & -> & Hu). pose proof (lk_duplex _ _ _ _ _ _ Hl) as Hdx.
    destruct (queued_sent _ _ _ _ _ _ u Hl Hu) as (_ & c & Hc & Hok).
    assert (sent_ok (p_proto a) (t_msg t)) as (c' & Hc' & Hok').
    { pose proof (dx_msgs_a _ _ Hdx) as Hs. rewrite Forall_forall in Hs. apply (Hs t). unfold pieces. rewrite HF, !elem_of_app.
      right. left. right. by left. }
    pose proof Hc as Hca. rewrite <- (lk_proto _ _ _ _ _ _ Hl) in Hca.
    destruct (same_config_chan _ _ _ _ (dx_same _ _ Hdx) Hca) as (cb & Hcb & _).
    assert (t_msg u = t_msg t) as Heq.
    { apply (under_way_unique a b _ _ c cb Hdx); try done; try apply Hok; try apply Hok'.
      - by eapply queued_under_way.
      - unfold all_under_way, not_begun. rewrite elem_of_app. right. rewrite HF, fresh_app, fresh_app, !elem_of_app. left. right.
        rewrite fresh_cons, decide_True by done. by left.
      - intros ch' id' Hu'. apply (long_payload _ Hm) in Hlong. rewrite Hu' in Hlong. by destruct Hlong. }
    rewrite Heq in Hlong. destruct Hlong as [t' Ht']. unfold begin_transfer in Ht'. rewrite <- Hz in Ht'. destruct t; cbn in *; congruence.
  - rewrite decide_True in Ha by done. rewrite on_single in Ha. change (msg_channel (t_msg t)) with (t_channel t) in Ha.
    destruct (decide (t_channel t = ch)) as [<-|Hne].
    + change (map msg_header [t_msg t]) with [t_header t] in Ha. destruct (active_at self (t_channel t)) as [h|].
      * change (option_list (Some h)) with [h] in Ha. rewrite <- Permutation_cons_append in Ha.
        pose proof (Permutation_length Ha) as Hlen. cbn in Hlen.
        destruct (map msg_header (on (t_channel t) (long_msgs (core_mfs self) (queued (p_out a))))); [|done].
        apply Permutation_singleton_r in Ha. injection Ha as ->. by rewrite decide_True.
      * exfalso. apply Permutation_nil_r in Ha. by apply app_eq_nil in Ha as [_ ?].
    + cbn [map] in Ha. rewrite app_nil_r in Ha. by rewrite decide_False by naive_solver.
Qed.

Lemma clear_multi_frame_Done self h is_final : 0 ≤ chan_raw (Header_channel h) < len (active_multi_frame self) →
  clear_multi_frame self h is_final
  = Done (set_active_multi_frame self
      (if decide (is_final = true ∧ active_at self (Header_channel h) = Some h)
       then <[Z.to_nat (chan_raw (Header_channel h)) := None]> (active_multi_frame self)
       else active_multi_frame self)).
Proof.
  intros Hlt. unfold clear_multi_frame. destruct is_final; [|by rewrite decide_False, set_active_id by naive_solver].
  destruct (array_get_lt (active_multi_frame self) (ChannelId_get (Header_channel h)) Hlt) as (x & -> & Hx).
  rewrite bind_Done. unfold active_at. change (Z.to_nat (chan_raw (Header_channel h))) with (Z.to_nat (ChannelId_get (Header_channel h))).
  rewrite Hx. cbn [mjoin option_join]. case_bool_decide as Heq.
  - rewrite decide_True, array_set_Done, bind_Done by done. done.
  - by rewrite decide_False, set_active_id by naive_solver.
Qed.

(** A frame is written: the slot of its channel is freed if it was the last one of the message there. *)
Lemma linked_freed self answerable t a b f is_final : linked self [] answerable (Some t) a b →
  current_frame self = Some (f, is_final) → ChannelId_wf (t_channel t) → chan_raw (t_channel t) < channel_count self →
  let act := if decide (is_final = true ∧ active_at self (t_channel t) = Some (t_header t)) then
      <[Z.to_nat (chan_raw (t_channel t)) := None]> (active_multi_frame self) else active_multi_frame self in
  let s1 := set_active_multi_frame (set_current_frame self None) act in
  io_wf s1 ∧ linked s1 [] answerable None a b ∧
  ∀ ch, ChannelId_wf ch → active_at s1 ch =
    if decide (ch = t_channel t ∧ is_final = true ∧ active_at self (t_channel t) = Some (t_header t)) then None else active_at self ch.
Proof.
  intros Hl Hc Hch Hlt act s1. pose proof (lk_wf _ _ _ _ _ _ Hl) as Hwf.
  pose proof (lk_current _ _ _ _ _ _ Hl) as Hcur. rewrite Hc in Hcur. destruct Hcur as (_ & Hfin & _ & HF).
  assert (io_wf s1) as Hwf1.
  { apply (good_active (juliet self) (len (buffer self))).
    - apply (good_current (juliet self) (len (buffer self)) self None); [by apply good_refl|done].
    - subst act. destruct (decide _); [rewrite len_insert|]; apply Hwf. }
  assert (∀ ch, ChannelId_wf ch → active_at s1 ch =
    if decide (ch = t_channel t ∧ is_final = true ∧ active_at self (t_channel t) = Some (t_header t)) then None else active_at self ch) as Hact.
  { intros ch Hch'. change (active_at s1 ch) with (mjoin (act !! Z.to_nat (chan_raw ch))). subst act.
    destruct (decide (is_final = true ∧ _)) as [Hd|Hd]; [|by rewrite decide_False by naive_solver].
    destruct (decide (ch = t_channel t)) as [->|Hne].
    - rewrite decide_True by done. rewrite list_lookup_insert_eq; [done|]. pose proof (iw_active _ Hwf) as Ha. destruct Hch as [Hch0 _]. unfold channel_count, len in Ha, Hlt. lia.
    - rewrite decide_False by naive_solver. rewrite list_lookup_insert_ne; [done|]. by apply chan_raw_inj. }
  split; [done|]. split; [|done].
  pose proof (active_written self answerable t a b Hl) as Haw. destruct Hl as [L1 L2 L3 L4 L5 Lmap L6 L7 L8 L9 L10 L11 L12].
  constructor; try done. intros ch Hch' Hlt'. change (pending_long s1 None a) with (long_msgs (core_mfs self) (queued (p_out a)) ++ []).
  rewrite app_nil_r, Hact by done. destruct is_final.
  - symmetry in Hfin. apply bool_decide_eq_true in Hfin. rewrite (Haw Hfin HF Hch Hlt ch Hch' Hlt').
    destruct (decide (ch = t_channel t ∧ active_at self (t_channel t) = _)); [by rewrite decide_True by naive_solver|].
    by rewrite decide_False by naive_solver.
  - symmetry in Hfin. apply bool_decide_eq_false in Hfin. rewrite decide_False by naive_solver.
    rewrite <- (L10 ch Hch' Hlt'). unfold pending_long, last_long. rewrite decide_False by naive_solver. by rewrite app_nil_r.
Qed.
Lemma linked_written self answerable t a b f is_final f' : linked self [] answerable (Some t) a b →
  current_frame self = Some (f, is_final) → OutgoingFrame_advance f (len (frame_bytes f)) = Done f' →
  ∃ self' a' msgs, write_branch (IoError := IoError) (set_current_frame self (Some (f', is_final))) (Ok ()) = Done (None, self') ∧
    linked self' [] answerable None a' b ∧ buffer self' = buffer self ∧ next_parse_at self' = next_parse_at self ∧
    current_frame self' = None ∧ ready_queue self' = ready_queue self ++ map (λ msg, frames (message_of msg)) msgs ∧
    p_out a' = flow_sends (p_out a) msgs ∧ p_cancelled a' = withdraw msgs (p_cancelled a) ∧ backlog self' ≤ backlog self ∧
    kept self self' msgs ∧ settled_on (t_channel t) msgs self' ∧
    conveyed (request_map self) (held self []) msgs (request_map self') (held self' []).
Proof.
  intros Hl Hc Hadv. pose proof (lk_wf _ _ _ _ _ _ Hl) as Hwf. destruct (iw_current _ Hwf f is_final Hc) as [Hf Hh].
  pose proof (OutgoingFrame_advance_preamble _ _ _ Hadv) as Hpre.
  assert (OutgoingFrame_header f' = OutgoingFrame_header f) as Hhd by (unfold OutgoingFrame_header in *; by rewrite Hpre).
  pose proof (lk_current _ _ _ _ _ _ Hl) as Hcur. rewrite Hc in Hcur. destruct Hcur as (Hft & Hfin & _ & HF).
  rewrite Hft in Hh. assert (sent_ok (p_proto a) (t_msg t)) as (c & Hcc & Hok).
  { pose proof (dx_msgs_a _ _ (lk_duplex _ _ _ _ _ _ Hl)) as Hs. rewrite Forall_forall in Hs. destruct HF as [F HF].
    apply (Hs t). unfold pieces. rewrite HF, !elem_of_app. right. left. right. by left. }
  destruct Hok as (Hch & Hid & _). rewrite (lk_proto _ _ _ _ _ _ Hl) in Hcc.
  pose proof (chan_at_count self _ c Hch Hcc) as Hlt. change (msg_channel (t_msg t)) with (t_channel t) in *.
  unfold header_ok in Hh. rewrite t_header_channel in Hh.
  unfold write_branch. change (current_frame (set_current_frame self (Some (f', is_final)))) with (Some (f', is_final)).
  cbv iota beta zeta. set (s0 := set_current_frame (set_current_frame self _) None). rewrite Hhd, Hft.
  rewrite clear_multi_frame_Done, bind_Done, t_header_channel.
  2: { rewrite t_header_channel. change (active_multi_frame s0) with (active_multi_frame self). by rewrite (iw_active _ Hwf). }
  assert (is_error (t_header t) = false) as ->.
  { unfold t_header. destruct (t_msg t) as [? ? [pl|]|? ? [pl|]|? ?|? ?]; apply is_error_new. }
  set (act := if decide _ then _ else _). set (s1 := set_active_multi_frame s0 act).
  destruct (linked_freed self answerable t a b f is_final Hl Hc Hch Hlt) as (Hwf1 & Hl1 & Hact).
  change (linked s1 [] answerable None a b) in Hl1.
  destruct (process_wait_queue_sends s1 answerable None a b (t_channel t) Hl1 Hch Hlt) as (s2 & a2 & msgs & -> & Hl2 & (S1 & S2 & S3) & Hr & Ho & Hcn & Hle & Hk & Hcv & Hset).
  change (total item_weight []) with 0 in Hle. change (backlog s1) with (backlog self) in Hle.
  rewrite bind_Done. exists s2, a2, msgs. do 8 (split; [done|]). split; [lia|]. split; [|done].
  intros ch Hch' Hlt'. destruct (decide (ch = t_channel t)) as [->|Hne].
  { destruct Hset; [by left|by right; left]. }
  apply (kept_on_from self s1); [|done|by apply Hk]. split; [done|]. rewrite Hact by done. by rewrite decide_False by naive_solver.
Qed.

(** ** Reading *)

Lemma linked_peer self hand answerable cur a b b' : linked self hand answerable cur a b → duplex a b' →
  linked self hand answerable cur a b'.
Proof. intros [L1 L2 L3 L4 L5 Lmap L6 L7 L8 L9 L10 L11 L12] Hdx. by constructor. Qed.

(** The other side has read some of the frames. *)
Lemma linked_arrived self hand answerable cur a b f b' : linked self hand answerable cur a b → duplex (party_out a f) b' →
  queued f = queued (p_out a) → (∀ t F, cur = Some t → flying (p_out a) = F ++ [t] → ∃ F', flying f = F' ++ [t]) →
  linked self hand answerable cur (party_out a f) b'.
Proof.
  intros [L1 L2 L3 L4 L5 Lmap L6 L7 L8 L9 L10 L11 L12] Hdx Hq Hf. constructor; cbn [party_out p_proto p_out p_owed]; try done.
  - by rewrite Hq.
  - unfold pending_long. cbn [party_out p_out]. by rewrite Hq.
  - destruct (current_frame self) as [[f0 fin]|], cur as [t|]; try done. destruct L11 as (? & ? & ? & F & HF).
    split; [done|]. split; [done|]. split; [done|]. by eapply Hf.
Qed.

(** Where a message that is reported was. *)
Lemma transport_reports m l read l' : transport m l [Reported read] l' → ∃ msg, msg ∈ l ∧ read = read_of msg.
Proof.
  intros Ht. remember [Reported read] as tr eqn:Htr. induction Ht as [l|l msg tr l' Ht IH|l1 msg l2 tr l' Hl Ht IH|l1 ch id l2 tr l' Hl Ht IH];
    try done.
  - injection Htr as <- ->. exists msg. split; [|done]. rewrite elem_of_app. right. by left.
  - destruct (IH Htr) as (msg & Hin & ->). exists msg. split; [|done]. rewrite elem_of_app, elem_of_cons in *. tauto.
Qed.
Lemma under_way_all f l msg : under_way f l → msg ∈ l → msg ∈ all_under_way f.
Proof. intros (l1 & -> & Hl) Hin. unfold all_under_way. rewrite elem_of_app in *. by rewrite <- Hl. Qed.
Lemma all_under_way_sent a b msg : duplex a b → msg ∈ all_under_way (p_out a) → sent_ok (p_proto a) msg.
Proof.
  intros Hdx Hin. pose proof (dx_msgs_a _ _ Hdx) as Hs. rewrite Forall_forall in Hs. unfold all_under_way, not_begun, fresh in Hin.
  rewrite elem_of_app in Hin. destruct Hin as [Hin|Hin]; apply list_elem_of_fmap in Hin as (t & -> & Hin).
  - apply Hs. unfold pieces. rewrite elem_of_app. by left.
  - apply list_elem_of_filter in Hin as [_ Hin]. apply Hs. unfold pieces. rewrite elem_of_app. by right.
Qed.
(** A request under way is not owed an answer yet. *)
Lemma request_not_owed a b ch id pl : duplex a b → MReq ch id pl ∈ all_under_way (p_out a) → id ∉ p_owed b ch.
Proof.
  intros Hdx Hin Ho. destruct (all_under_way_sent _ _ _ Hdx Hin) as (ca & Hca & Hch & _). cbn [msg_channel] in *.
  destruct (same_config_chan _ _ _ _ (dx_same _ _ Hdx) Hca) as (cb & Hcb & _).
  destruct (dx_lanes _ _ Hdx ch ca cb Hch Hca Hcb) as [L _]. apply elem_of_app in Hin as [Hin|Hin].
  - apply list_elem_of_fmap in Hin as (t & Ht & Hin). apply (ln_owed _ _ _ _ _ _ _ L id Ho). by exists t, pl.
  - apply (proj1 (ri_apart _ _ _ _ _ (ln_requests _ _ _ _ _ _ _ L) id)). split.
    + apply requests_in_elem. exists ch, pl. apply on_elem. split; [done|by apply booked_not_begun].
    + apply (ln_incoming _ _ _ _ _ _ _ L). by left.
Qed.

(** What the core has read and the application is told. *)
Definition parsed self : option CompletedRead :=
  if next_parse_at self <=? len (buffer self) then
    match process_incoming (juliet self) (buffer self) with
    | Done (Success read, _) => Some read
    | _ => None
    end
  else None.

(** The core behind [process_incoming]. *)
Lemma linked_received self answerable cur a b p' rest f msg read n : linked self [] answerable cur b a →
  duplex (party_out a f) (mkParty p' (p_out b) (p_cancelled b) (owe read (p_owed b))) →
  (∀ r, read = Some r → msg ∈ all_under_way (p_out a) ∧ r = read_of msg) →
  same_config (juliet self) p' → io_wf (set_next_parse_at (set_buffer (set_juliet (set_next_parse_at self 0) p') rest) n) →
  linked (set_next_parse_at (set_buffer (set_juliet (set_next_parse_at self 0) p') rest) n) [] (owe read answerable) cur
    (mkParty p' (p_out b) (p_cancelled b) (owe read (p_owed b))) (party_out a f).
Proof.
  intros [L1 L2 L3 L4 L5 Lmap L6 L7 L8 L9 L10 L11 L12] Hdx Hread Hsame Hwf.
  set (s := set_next_parse_at _ n) in *.
  assert (core_mfs s = core_mfs self) as Hmfs by (change (core_mfs s) with (max_frame_size p'); by destruct Hsame as [-> _]).
  assert (channel_count s = channel_count self) as Hcnt by (unfold channel_count; by apply same_config_len).
  assert (∀ (o : ChannelId → gset Id) ch id, id ∈ owe read o ch ↔ id ∈ o ch ∨ ∃ pl, read = Some (NewRequest ch id pl)) as Howe.
  { intros o ch id. destruct read as [[h d|ch' id' pl'|ch' id' pl'|ch' id'|ch' id']|]; cbn [owe];
      try (split; [by left|by intros [?|[? [=]]]]).
    destruct (decide (ch = ch')) as [->|Hne].
    - rewrite fn_lookup_insert, elem_of_union, elem_of_singleton. split; [|intros [?|[? [= <- _]]]; auto].
      intros [->|?]; [right; by eexists|by left].
    - rewrite fn_lookup_insert_ne by done. split; [by left|]. intros [?|[? [= <- _ _]]]; done. }
  constructor; cbn [p_proto p_out p_cancelled p_owed]; try done.
  - by apply duplex_sym.
  - intros io ch id Hrel. destruct (Lmap io ch id Hrel) as [c Hc]. destruct (same_config_chan _ _ _ _ Hsame Hc) as (c' & Hc' & _). by exists c'.
  - eapply Forall_impl; [exact L6|]. intros item. by apply item_fits_same_config.
  - intros ch id. rewrite !Howe, L7. naive_solver.
  - intros ch id Hin. rewrite Howe. intros [Ha|[pl ->]]; [by eapply L9|].
    destruct (Hread _ eq_refl) as [Hmsg Heq]. destruct msg as [ch' id' pl'| | |]; try done. injection Heq as <- <- <-.
    apply (request_not_owed a b ch id pl); [by apply duplex_sym|done|]. apply L7. by right.
  - intros ch Hch Hlt. rewrite Hcnt in Hlt. unfold pending_long. rewrite Hmfs. by apply L10.
  - by rewrite Hmfs.
Qed.

Lemma linked_handle_read self hand answerable cur a b msg : linked self hand answerable cur a b →
  let '(r, self') := handle_completed_read (IoError := IoError) self (read_of msg) in
  linked self' hand answerable cur a b ∧ (∃ m, self' = set_request_map self m) ∧ match r with Ok _ | Err (InternalError _) => True | _ => False end.
Proof.
  intros Hl. pose proof (lk_wf _ _ _ _ _ _ Hl) as Hwf. pose proof (iw_map _ Hwf) as Hm.
  assert (∀ r, linked (set_request_map self (bm_remove_by_right (request_map self) r).2) hand answerable cur a b) as Hset.
  { intros r. assert (∀ io r', bm_rel (bm_remove_by_right (request_map self) r).2 io r' → bm_rel (request_map self) io r') as Hsub.
    { intros io r' Hrel. by apply bm_remove_spec in Hrel as [_ ?]. }
    destruct Hl as [L1 L2 L3 L4 L5 Lmap L6 L7 L8 L9 L10 L11 L12]. constructor; try done.
    - apply (good_map (juliet self) (len (buffer self))); [by apply good_refl|by apply bm_remove_wf|].
      intros io ch id Hrel%Hsub. by eapply (iw_map_ids _ Hwf).
    - intros io ch id Hrel%Hsub. by eapply Lmap. }
  assert (self = set_request_map self (request_map self)) as Hself by by destruct self.
  destruct msg as [ch id pl|ch id pl|ch id|ch id]; cbn [read_of handle_completed_read]; try (split; [done|]; split; [by eexists|done]).
  all: specialize (Hset (ch, id)); destruct (bm_remove_by_right (request_map self) (ch, id)) as [[[io r]|] map];
    split; [done|split; [by eexists|done]|done|split; [by eexists|done]].
Qed.

Lemma party_out_id a : party_out a (p_out a) = a.
Proof. by destruct a. Qed.

Record parse_result self answerable cur a b l later (r : Returned IoError) self' b' f l' msgs : Prop := {
  pr_linked : linked self' [] (owe (parsed self) answerable) cur b' (party_out a f);
  pr_queued : queued f = queued (p_out a);
  pr_flying : ∃ F, flying (p_out a) = F ++ flying f;
  pr_rest : buffer self' ++ later = concat (map (piece (core_mfs self)) (flying f));
  pr_transport : transport (core_mfs self) l (frame_events (parsed self)) l';
  pr_under_way : under_way f l';
  pr_current : current_frame self' = current_frame self;
  pr_ready : ready_queue self' = ready_queue self ++ map (λ msg, frames (message_of msg)) msgs;
  pr_out : p_out b' = flow_sends (p_out b) msgs;
  pr_cancelled : p_cancelled b' = withdraw msgs (p_cancelled b);
  pr_fine : match r with None | Some (Ok _) | Some (Err (InternalError _)) => True | _ => False end;
  pr_backlog : backlog self' ≤ backlog self;
  pr_next : next_parse_at self ≤ awaited (core_mfs self) (p_out a) → next_parse_at self' ≤ awaited (core_mfs self) f;
  pr_progress : if next_parse_at self <=? len (buffer self)
    then len (buffer self') < len (buffer self) ∨ len (buffer self') ≤ len (buffer self) ∧ len (buffer self') < next_parse_at self'
    else self' = self;
  pr_done : ∃ map, conveyed (request_map self) (held self []) msgs map (held self' []) ∧
    match parsed self with
    | None => r = None ∧ request_map self' = map
    | Some read => ∃ s, request_map s = map ∧
        (r, self') = let '(r', s') := handle_completed_read s read in (Some (match r' with Ok event => Ok (Some event) | Err e => Err e end), s')
    end;
  pr_kept ch : ChannelId_wf ch → chan_raw ch < channel_count self → (∀ id, parsed self ≠ Some (ResponseCancellation ch id)) →
    kept_on self self' msgs ch;
}.

Lemma piece_len_le m t : MaxFrameSize_wf m → transfer_ok t → 4 ≤ len (piece m t) ≤ mfs m.
Proof.
  intros Hm [Hu Hp]. rewrite piece_len. pose proof (room_pos m Hm t Hu) as Hr. pose proof (len_nonneg (prefix_of_payload t)).
  set (chunk := take _ _). pose proof (len_nonneg chunk).
  assert (len chunk ≤ room m t) by (subst chunk; unfold len in *; rewrite length_take; lia).
  assert (len (prefix_of_payload t) + len chunk ≤ mfs m - 4); [|lia]. unfold prefix_of_payload, room in *.
  subst chunk. unfold t_payload in *. destruct (msg_payload (t_msg t)) as [pl|]; cbn [default from_option id] in *.
  - destruct (t_pos t =? 0); [lia|]. change (len (@nil Z)) with 0. lia.
  - rewrite drop_nil, take_nil in *. pose proof (MaxFrameSize_wf_bounds m Hm). change (len (@nil Z)) with 0. lia.
Qed.
Lemma awaited_bounds m f : MaxFrameSize_wf m → flow_ok m f → 4 ≤ awaited m f ≤ mfs m.
Proof.
  intros Hm Hf. pose proof (MaxFrameSize_wf_bounds m Hm). unfold awaited. pose proof (fo_pieces _ _ Hf) as Hp.
  destruct (flying f) as [|t F]; [unfold Header_SIZE; lia|]. apply piece_len_le; [done|]. rewrite Forall_forall in Hp.
  apply (Hp t). rewrite !elem_of_app. right. left. by left.
Qed.
Lemma awaited_nonneg m f : 0 ≤ awaited m f.
Proof. unfold awaited. destruct (flying f); [done|apply len_nonneg]. Qed.
Lemma len_concat_cons {A} (l : list A) (ls : list (list A)) : len (concat (l :: ls)) = len l + len (concat ls).
Proof. cbn [concat]. apply len_app. Qed.

(** What [process_incoming] finds in the buffer. *)
Lemma linked_receives self answerable cur a b l later : linked self [] answerable cur b a →
  buffer self ++ later = concat (map (piece (core_mfs self)) (flying (p_out a))) → under_way (p_out a) l →
  max_frame_size (p_proto a) = core_mfs self ∧
  ∃ o p' rest f l', process_incoming (juliet self) (buffer self) = Done (o, (p', rest)) ∧
    read_result a b (flying (p_out a)) (queued (p_out a)) l later o p' rest f l' ∧
    len rest ≤ len (buffer self) ∧ same_config (juliet self) p' ∧
    match o with Incomplete n => 0 < n | Fatal _ => False | Success r => ∃ msg, r = read_of msg end ∧
    ∀ n, linked (set_next_parse_at (set_buffer (set_juliet (set_next_parse_at self 0) p') rest) n) [] (owe (read_in o) answerable) cur
      (mkParty p' (p_out b) (p_cancelled b) (owe (read_in o) (p_owed b))) (party_out a f).
Proof.
  intros Hl Hstream Huw. pose proof (lk_wf _ _ _ _ _ _ Hl) as Hwf. pose proof (lk_duplex _ _ _ _ _ _ Hl) as Hdx.
  apply duplex_sym in Hdx. assert (max_frame_size (p_proto a) = core_mfs self) as Hmfs.
  { pose proof (dx_same _ _ Hdx) as [Hs _]. rewrite (lk_proto _ _ _ _ _ _ Hl) in Hs. done. }
  split; [done|].
  destruct (process_incoming_stream (flying (p_out a)) a b (opened (p_out a)) (queued (p_out a)) l (buffer self) later Hdx)
    as (o & p' & rest & f & l' & Hp & R); [by destruct (p_out a)|apply Hwf|by rewrite Hmfs|done|].
  pose proof R as [R1 R2 R3 R4 R5 R6 R7]. rewrite (lk_proto _ _ _ _ _ _ Hl) in Hp.
  destruct (process_incoming_step (juliet self) (buffer self) (iw_juliet _ Hwf) (iw_buffer _ Hwf))
    as (o2 & p2 & rest2 & Hp2 & Hstep & Hrest & Hlen & Hneed).
  rewrite Hp in Hp2. injection Hp2 as <- <- <-.
  assert (∀ r, read_in o = Some r → ∃ msg, msg ∈ all_under_way (p_out a) ∧ r = read_of msg) as Hrd.
  { intros r0 Hr0. rewrite Hr0 in R5. destruct (transport_reports _ _ _ _ R5) as (msg & Hin & ->). exists msg.
    split; [by eapply under_way_all|done]. }
  assert (∃ msg, ∀ r, read_in o = Some r → msg ∈ all_under_way (p_out a) ∧ r = read_of msg) as [msg Hmsg].
  { destruct (read_in o) as [r0|] eqn:Hr0; [|by exists (MCancelReq (ChannelId_new 0) (Id_new 0))].
    destruct (Hrd r0 eq_refl) as (msg & Hin & ->). exists msg. by intros ? [= <-]. }
  pose proof (len_nonneg (buffer self)) as Hnn.
  assert (good (juliet self) (len (buffer self)) (set_buffer (set_juliet (set_next_parse_at self 0) p') rest)) as Hg1.
  { eapply good_buffer; [|done|done]. apply good_step; [by apply good_parse_at, good_refl|done]. }
  exists o, p', rest, f, l'. split; [done|]. split; [done|]. split; [done|]. split; [apply Hstep|]. split.
  { destruct o as [n|e|read]; [lia|done|]. destruct (Hrd read eq_refl) as (msg' & _ & ->). by exists msg'. }
  intros n. apply (linked_received self answerable cur a b p' rest f msg); [done|done|done|apply Hstep|].
  apply (good_parse_at (juliet self) (len (buffer self))), Hg1.
Qed.

Lemma read_result_less a b F Q l later buf o p' rest f l' : read_result a b F Q l later o p' rest f l' →
  buf ++ later = concat (map (piece (max_frame_size (p_proto a))) F) →
  match o with Success _ => len rest < len buf | _ => True end.
Proof.
  intros [R1 R2 R3 R4 R5 R6 R7] Hstream. destruct o as [n|e|read]; [done|done|]. destruct R7 as (t & F1 & ->).
  apply (f_equal len) in Hstream, R4. cbn [map] in Hstream. rewrite map_app, len_concat_cons, piece_len, concat_app in Hstream.
  rewrite !len_app in *. set (m := max_frame_size (p_proto a)) in *. pose proof (len_nonneg (prefix_of_payload t)).
  pose proof (len_nonneg (concat (map (piece m) F1))).
  pose proof (len_nonneg (take (Z.to_nat (room m t)) (drop (Z.to_nat (t_pos t)) (t_payload t)))). lia.
Qed.

Lemma linked_parse self answerable cur a b l later : linked self [] answerable cur b a →
  buffer self ++ later = concat (map (piece (core_mfs self)) (flying (p_out a))) → under_way (p_out a) l →
  ∃ r self' b' f l' msgs, parse_step (IoError := IoError) self = Done (r, self') ∧
    parse_result self answerable cur a b l later r self' b' f l' msgs.
Proof.
  intros Hl Hstream Huw. pose proof (lk_wf _ _ _ _ _ _ Hl) as Hwf. pose proof (linked_mfs _ _ _ _ _ _ Hl) as [_ Hm].
  unfold parse_step. destruct (next_parse_at self <=? len (buffer self)) eqn:Hat.
  2: { exists None, self, b, (p_out a), l, []. split; [done|]. assert (parsed self = None) as Hpn by (unfold parsed; by rewrite Hat).
    constructor; rewrite ?Hpn, ?party_out_id, ?app_nil_r, ?Hat; try done; [by exists []|constructor|eexists; split; [by constructor|done]|by intros; apply kept_refl]. }
  destruct (linked_receives _ _ _ _ _ _ _ Hl Hstream Huw) as (Hmfs & o & p' & rest & f & l' & Hp & R & Hlen & Hcfg & Ho & Hl1).
  pose proof (read_result_less _ _ _ _ _ _ (buffer self) _ _ _ _ _ R) as Hless. rewrite Hmfs in Hless. specialize (Hless Hstream).
  destruct R as [R1 R2 R3 R4 R5 R6 R7]. rewrite Hmfs in R4, R5, R7.
  assert (parsed self = read_in o) as Hpo by (unfold parsed; rewrite Hat, Hp; by destruct o).
  cbn [set_next_parse_at juliet buffer]. rewrite Hp, bind_Done. set (s1 := set_buffer _ rest) in *.
  assert (backlog s1 = backlog self) as Hsame by done.
  assert (∀ ch, ChannelId_wf ch → (∀ id, parsed self ≠ Some (ResponseCancellation ch id)) →
    (∀ id pl, parsed self ≠ Some (ReceivedResponse ch id pl)) → same_room self s1 ch) as Hroom.
  { intros ch Hch Hnc Hnr. split; [|done]. change (juliet s1) with p'. rewrite Hpo in Hnc, Hnr.
    pose proof (process_incoming_answers_at _ _ _ _ _ (iw_juliet _ Hwf) (iw_buffer _ Hwf) Hp) as Ha.
    destruct o as [n|e|[h d|ch' id pl|ch' id pl|ch' id|ch' id]]; cbn [answers_at] in Ha; try (by apply Ha).
    all: apply Ha; [done|]; intros ->; (by eapply Hnr) || by eapply Hnc. }
  destruct o as [n|e|read]; [|done|].
  - pose proof (dx_flow_a _ _ R1) as Hf. cbn [party_out p_proto p_out] in Hf. rewrite Hmfs in Hf.
    pose proof (awaited_bounds _ f Hm Hf). pose proof Hm as [_ Hmax]. change (buffer s1) with rest.
    rewrite uadd_Done by ulia. rewrite bind_Done. eexists None, _, _, f, l', []. split; [reflexivity|].
    constructor; rewrite ?Hpo, ?app_nil_r, ?Hat; try done; [right; cbn; lia|eexists; split; [by constructor|done]|].
    intros ch Hch Hlt Hnc. right. right. change (same_room self s1 ch ∧ Forall (λ item, item ∈ wait_of self ch ∨ waits s1 item) (wait_of s1 ch)).
    split; [by apply Hroom; rewrite ?Hpo|]. apply Forall_forall. auto.
  - destruct Ho as [msg Hread]. specialize (Hl1 0). change (set_next_parse_at s1 0) with s1 in Hl1.
    assert (sends [] (match read with ReceivedResponse ch _ _ => settled_on ch | _ => anything end) s1 (owe (Some read) answerable) cur (mkParty p' (p_out b) (p_cancelled b) (owe (Some read) (p_owed b)))
      (party_out a f) (match read with ReceivedResponse channel _ _ => process_wait_queue s1 channel | _ => mret (Ok (), s1) end) []) as Hsends.
    { destruct read as [h d|ch id pl|ch id pl|ch id|ch id]; try by apply sends_nothing; [..|apply kept_refl|].
      apply process_incoming_answers_at in Hp; [|apply Hwf|apply Hwf]. cbn [answers_at] in Hp. destruct Hp as (Hch & Hlt & _).
      apply process_wait_queue_sends; [done|done|]. change (channel_count s1) with (len (channels p')).
      rewrite (same_config_len _ _ Hcfg). done. }
    destruct Hsends as (s3 & b2 & msgs & -> & Hl2 & (S1 & S2 & S3) & Hr & Hout & Hc & Hle & Hk & Hcv & Hset). change (total item_weight []) with 0 in Hle.
    rewrite bind_Done, Hread. pose proof (linked_handle_read s3 [] _ cur b2 (party_out a f) msg Hl2) as Hh. rewrite <- Hread in Hh |- *.
    destruct (handle_completed_read s3 read) as [r3 s4] eqn:Hh4. destruct Hh as (Hl4 & [map ->] & H4).
    exists (Some (match r3 with Ok event => Ok (Some event) | Err e => Err e end)), (set_request_map s3 map), b2, f, l', msgs. split; [done|].
    constructor; cbn [set_request_map buffer current_frame ready_queue next_parse_at]; rewrite ?Hpo, ?S1, ?S2, ?S3, ?Hat; try done.
    + by destruct r3 as [[]|].
    + change (backlog (set_request_map s3 map)) with (backlog s3). lia.
    + intros _. apply awaited_nonneg.
    + by left.
    + exists (request_map s3). split; [done|]. exists s3. split; [done|]. by rewrite Hh4.
    + intros ch Hch Hlt Hnc. change (kept_on self s3 msgs ch).
      assert ((∃ id pl, read = ReceivedResponse ch id pl) ∨ ∀ id pl, read ≠ ReceivedResponse ch id pl) as [(id & pl & ->)|Hno].
      { destruct read as [| |ch' id pl| |]; try by right. destruct (decide (ch' = ch)) as [->|]; [left; by exists id, pl|right; congruence]. }
      { destruct Hset; [by left|by right; left]. }
      apply (kept_on_from self s1); [|done|].
      * apply Hroom; [done|by rewrite Hpo|]. rewrite Hpo. intros id pl [= Heq]. by eapply Hno.
      * apply Hk; [done|]. change (channel_count s1) with (len (channels p')). by rewrite (same_config_len _ _ Hcfg).
Qed.
End link.
