(* ===== verification/Cores.v ===== *)
(** * Two cores

    Two cores with the same configuration, each writing to a stream the other reads.  A core may
    take any step the event loop can take, at any time; what it reads is what the other has
    written, in pieces of any size; and the application behind it queues what it may.  The
    system then is the abstract transport of [Stream], in both directions at once. *)
From stdpp Require Import functions strings.
From S2P Require Import Prelude Lib Varint Header FrameSize OutgoingMessage WireFormat ByteIter Multiframe.
From S2P Require Import MultiframeSpec Protocol ProtocolInv ProcessIncoming ProtocolOps Answers Io Instances IoSafe IoSpec CoreOps.
From S2P Require Import Delivery Peers Transfer Flow Duplex Stream Link.
From stdpp Require Import options.

(** ** The system *)

(** The message in an iterator. *)
Definition msg_of (msg : OutgoingMessage) : option Msg :=
  let h := OutgoingMessage_header msg in
  let payload := om_payload msg in
  match kind h with
  | Done KRequest | Done KRequestPl => Some (MReq (Header_channel h) (Header_id h) payload)
  | Done KResponse | Done KResponsePl => Some (MResp (Header_channel h) (Header_id h) payload)
  | Done KCancelReq => Some (MCancelReq (Header_channel h) (Header_id h))
  | Done KCancelResp => Some (MCancelResp (Header_channel h) (Header_id h))
  | _ => None
  end.
Lemma msg_of_message msg : Id_wf (msg_id msg) → msg_of (message_of msg) = Some msg.
Proof.
  intros Hid. destruct msg as [ch id [pl|]|ch id [pl|]|ch id|ch id]; cbn [msg_id] in Hid;
    cbn [message_of]; unfold request_message, response_message, create_unchecked_request_cancellation, create_unchecked_response_cancellation, msg_of, OutgoingMessage_header;
    cbn [om_header om_payload OutgoingMessage_new]; rewrite kind_new, Header_channel_new, Header_id_new by done; done.
Qed.

Section cores.
Context {Permit IoError BM : Type} `{BiMapLaws IoId (ChannelId * Id) BM}.
#[local] Set Default Proof Using "Type*".
Implicit Types (op : CoreOp Permit IoError).

(** A core, the bytes it has written that the other has not read, the requests its application
    has been told of and not answered, and those of its own it has cancelled. *)
Record Side := mkSide {
  core : IoCore Permit BM;
  in_transit : bytes;
  answerable : ChannelId → gset Id;
  withdrawn : ChannelId → gset Id;
}.

(** What an operation does to the streams. *)
Definition op_written op : bytes := match op with OpWrite bs | OpWritten bs _ => bs | _ => [] end.
Definition op_taken op : bytes := match op with OpRead bs => bs | _ => [] end.
(** The messages it sends: those added to the ready queue. *)
Definition sent_by op (c c' : IoCore Permit BM) : list Msg :=
  match op with
  | OpReady => []
  | _ => omap (λ it, msg_of (fi_msg it)) (drop (length (ready_queue c)) (ready_queue c'))
  end.
Definition reported_by op (c : IoCore Permit BM) : list Event :=
  match op with OpParse _ => frame_events (parsed c) | _ => [] end.

Definition allowed (a b : Side) op : Prop :=
  match op with
  | OpItem item _ => may_queue (core a) (answerable a) (withdrawn a) item
  | OpRead bs => bs `prefix_of` in_transit b
  | _ => True
  end.
Definition acting (a : Side) op (c' : IoCore Permit BM) : Side :=
  mkSide c' (in_transit a ++ op_written op)
    (match op with
     | OpItem item _ => answered (answerable a) item
     | OpParse _ => owe (parsed (core a)) (answerable a)
     | _ => answerable a
     end)
    (withdraw (sent_by op (core a) c') (withdrawn a)).
Definition beside (b : Side) op : Side :=
  mkSide (core b) (drop (length (op_taken op)) (in_transit b)) (answerable b) (withdrawn b).

(** A run, with what is sent and reported from the first to the second, and back. *)
Inductive cores_run : Side → Side → list Event → list Event → Side → Side → Prop :=
  | cores_start a b : cores_run a b [] [] a b
  | cores_here a0 b0 tr tr' a b op c' : cores_run a0 b0 tr tr' a b →
      core_step (core a) op c' → allowed a b op →
      cores_run a0 b0 (tr ++ map Sent (sent_by op (core a) c')) (tr' ++ reported_by op (core a)) (acting a op c') (beside b op)
  | cores_there a0 b0 tr tr' a b op c' : cores_run a0 b0 tr tr' a b →
      core_step (core b) op c' → allowed b a op →
      cores_run a0 b0 (tr ++ reported_by op (core b)) (tr' ++ map Sent (sent_by op (core b) c')) (beside a op) (acting b op c').

(** ** The invariant *)

Definition unwritten (c : IoCore Permit BM) : bytes :=
  match current_frame c with Some (f, _) => frame_bytes f | None => [] end.

Record joined (m : MaxFrameSize) (a b : Side) (pa pb : Party) (la lb : list Msg) : Prop := {
  jn_mfs : core_mfs (core a) = m ∧ core_mfs (core b) = m;
  jn_here : ∃ cur, linked (core a) [] (answerable a) cur pa pb;
  jn_there : ∃ cur, linked (core b) [] (answerable b) cur pb pa;
  jn_withdrawn : p_cancelled pa = withdrawn a ∧ p_cancelled pb = withdrawn b;
  jn_forth : buffer (core b) ++ in_transit a ++ unwritten (core a) = concat (map (piece m) (flying (p_out pa)));
  jn_back : buffer (core a) ++ in_transit b ++ unwritten (core b) = concat (map (piece m) (flying (p_out pb)));
  jn_way_forth : under_way (p_out pa) la;
  jn_way_back : under_way (p_out pb) lb;
  jn_awaits : next_parse_at (core b) ≤ awaited m (p_out pa) ∧ next_parse_at (core a) ≤ awaited m (p_out pb);
}.
Lemma joined_sym m a b pa pb la lb : joined m a b pa pb la lb → joined m b a pb pa lb la.
Proof. intros [[] J2 J3 [] J5 J6 J7 J8 []]. by constructor. Qed.

Lemma flow_sends_rest f msgs : opened (flow_sends f msgs) = opened f ∧ flying (flow_sends f msgs) = flying f ∧
  queued (flow_sends f msgs) = queued f ++ map begin_transfer msgs.
Proof.
  revert f. induction msgs as [|msg msgs IH]; intros f; [by rewrite app_nil_r|]. unfold flow_sends in *. cbn [fold_left map].
  destruct (IH (flow_send f msg)) as (-> & -> & ->). cbn [flow_send opened flying queued]. by rewrite <- app_assoc.
Qed.
Lemma under_way_sends f msgs : ∀ l, under_way f l → under_way (flow_sends f msgs) (l ++ msgs).
Proof.
  revert f. induction msgs as [|msg msgs IH]; intros f l Hl; [by rewrite app_nil_r|]. unfold flow_sends in *. cbn [fold_left].
  change (msg :: msgs) with ([msg] ++ msgs). rewrite app_assoc. by apply IH, under_way_send.
Qed.
Lemma transport_sends m msgs : ∀ l, transport m l (map Sent msgs) (l ++ msgs).
Proof.
  induction msgs as [|msg msgs IH]; intros l; [rewrite app_nil_r; constructor|]. cbn [map]. constructor.
  change (msg :: msgs) with ([msg] ++ msgs). rewrite app_assoc. apply IH.
Qed.

(** The messages sent are those the party sent. *)
Lemma sent_by_sends (c c' : IoCore Permit BM) hand ans cur a' b' f msgs op : op ≠ OpReady →
  ready_queue c' = ready_queue c ++ map (λ msg, frames (message_of msg)) msgs →
  linked c' hand ans cur a' b' → p_out a' = flow_sends f msgs → sent_by op c c' = msgs.
Proof.
  intros Hop Hr Hl Ho. assert (sent_by op c c' = omap (λ it, msg_of (fi_msg it)) (map (λ msg, frames (message_of msg)) msgs)) as ->.
  { unfold sent_by. rewrite Hr, drop_app_length. by destruct op. }
  assert (Forall (λ msg, Id_wf (msg_id msg)) msgs) as Hids.
  { apply Forall_forall. intros msg Hin. destruct (flow_sends_rest f msgs) as (_ & _ & Hq).
    destruct (queued_sent c' hand ans cur a' b' (begin_transfer msg) Hl) as (_ & c0 & _ & _ & Hid & _); [|done].
    rewrite Ho, Hq, elem_of_app. right. by apply list_elem_of_fmap_2. }
  clear -Hids. induction Hids as [|msg msgs Hid _ IH]; [done|]. cbn [map omap list_omap].
  change (fi_msg (frames (message_of msg))) with (message_of msg). by rewrite msg_of_message, IH by done.
Qed.
Lemma linked_mfs_peer (self : IoCore Permit BM) hand ans cur a b : linked self hand ans cur a b → max_frame_size (p_proto b) = core_mfs self.
Proof.
  intros Hl. pose proof (dx_same _ _ (lk_duplex _ _ _ _ _ _ Hl)) as [Hs _]. rewrite Hs. by apply (linked_mfs _ _ _ _ _ _ Hl).
Qed.

(** ** Every operation keeps it *)

(** An operation that does not fail; what [OpParse] may report as an internal error is explained
    with the request map. *)
Definition op_fine op : Prop :=
  match op with
  | OpItem _ r => r = Ok ()
  | OpWritten _ r => r = None
  | OpParse r => match r with None | Some (Ok _) | Some (Err (InternalError _)) => True | _ => False end
  | OpErrorWrite _ => False
  | _ => True
  end.

Definition stays_joined m a b op c' la lb : Prop :=
  ∃ pa pb la' lb', joined m (acting a op c') (beside b op) pa pb la' lb' ∧
    la' = la ++ sent_by op (core a) c' ∧ transport m lb (reported_by op (core a)) lb' ∧ op_fine op.

(** What sending alone changes. *)
Lemma joined_sends m a b pa pb la lb op c' ans cur pa' msgs : joined m a b pa pb la lb →
  op ≠ OpReady → op_taken op = [] → reported_by op (core a) = [] → op_fine op →
  answerable (acting a op c') = ans → linked c' [] ans cur pa' pb →
  buffer c' = buffer (core a) → next_parse_at c' = next_parse_at (core a) → op_written op ++ unwritten c' = unwritten (core a) →
  ready_queue c' = ready_queue (core a) ++ map (λ msg, frames (message_of msg)) msgs →
  p_out pa' = flow_sends (p_out pa) msgs → p_cancelled pa' = withdraw msgs (p_cancelled pa) →
  stays_joined m a b op c' la lb.
Proof.
  intros [[Hma Hmb] Ha [curb Hb] [Hwa Hwb] Hforth Hback Hla Hlb [Hna Hnb]] Hop Htaken Hrep Hfine Hans Hl Hbuf Hnx Hun Hr Ho Hc.
  pose proof (sent_by_sends (core a) c' [] ans cur pa' pb (p_out pa) msgs op Hop Hr Hl Ho) as Hsent.
  exists pa', pb, (la ++ msgs), lb. rewrite Hsent, Hrep. split; [|split; [done|by split; [constructor|]]].
  destruct (flow_sends_rest (p_out pa) msgs) as (_ & Hfl & _).
  constructor; cbn [acting beside core in_transit withdrawn]; rewrite ?Hbuf, ?Htaken, ?drop_0; try done.
  - split; [|done]. rewrite <- Hmb, <- (linked_mfs_peer _ _ _ _ _ _ Hl). apply (linked_mfs _ _ _ _ _ _ Hb).
  - exists cur. by rewrite <- Hans in Hl.
  - exists curb. eapply linked_peer; [exact Hb|]. apply duplex_sym, Hl.
  - by rewrite Hsent, Hc, Hwa.
  - rewrite <- !app_assoc, Hun, Ho, Hfl. done.
  - rewrite Ho. by apply under_way_sends.
  - unfold awaited in *. by rewrite Hnx, Ho, Hfl.
Qed.

Lemma joined_item m a b pa pb la lb item r c' : joined m a b pa pb la lb →
  may_queue (core a) (answerable a) (withdrawn a) item → handle_incoming_item (core a) item = Done (r, c') →
  stays_joined m a b (OpItem item r) c' la lb.
Proof.
  intros Hj Hmay Hd. destruct (jn_here _ _ _ _ _ _ _ Hj) as [cur Hl]. destruct (jn_withdrawn _ _ _ _ _ _ _ Hj) as [Hw _].
  rewrite <- Hw in Hmay. destruct (take_item_sends _ _ _ _ _ item Hl Hmay) as (s & pa' & msgs & Hs & Hl' & (S1 & S2 & S3) & Hr & Ho & Hc & _).
  rewrite Hd in Hs. injection Hs as -> ->. eapply (joined_sends m a b pa pb la lb _ s); try done.
  unfold unwritten. cbn [op_written]. by rewrite S3.
Qed.

Lemma joined_written m a b pa pb la lb f is_final f' r c' : joined m a b pa pb la lb →
  current_frame (core a) = Some (f, is_final) → OutgoingFrame_advance f (len (frame_bytes f)) = Done f' →
  write_branch (set_current_frame (core a) (Some (f', is_final))) (Ok ()) = Done (r, c') →
  stays_joined m a b (OpWritten (frame_bytes f) r) c' la lb.
Proof.
  intros Hj Hc Hadv Hd. destruct (jn_here _ _ _ _ _ _ _ Hj) as [cur Hl].
  assert (∃ t, cur = Some t) as [t ->].
  { pose proof (lk_current _ _ _ _ _ _ Hl) as Hcur. rewrite Hc in Hcur. destruct cur as [t|]; [by exists t|done]. }
  destruct (linked_written (IoError := IoError) (core a) (answerable a) t pa pb f is_final f' Hl Hc Hadv)
    as (s & pa' & msgs & Hs & Hl' & S1 & S2 & S3 & Hr & Ho & Hcn & _).
  rewrite Hd in Hs. injection Hs as -> ->. eapply (joined_sends m a b pa pb la lb _ s); try done.
  unfold unwritten. cbn [op_written]. rewrite S3, Hc. by rewrite app_nil_r.
Qed.

Lemma sent_by_same op (c c' : IoCore Permit BM) : ready_queue c' = ready_queue c → sent_by op c c' = [].
Proof. intros Hr. unfold sent_by. rewrite Hr, drop_all. by destruct op. Qed.

Lemma joined_write m a b pa pb la lb f is_final n f' : joined m a b pa pb la lb →
  current_frame (core a) = Some (f, is_final) → 0 ≤ n ≤ Z.max 0 (len (frame_bytes f) - 1) → OutgoingFrame_advance f n = Done f' →
  stays_joined m a b (OpWrite (take (Z.to_nat n) (frame_bytes f))) (set_current_frame (core a) (Some (f', is_final))) la lb.
Proof.
  intros Hj Hc Hn Hadv. destruct (jn_here _ _ _ _ _ _ _ Hj) as [cur Hl].
  assert (∃ t, cur = Some t) as [t ->].
  { pose proof (lk_current _ _ _ _ _ _ Hl) as Hcur. rewrite Hc in Hcur. destruct cur as [t|]; [by exists t|done]. }
  destruct (linked_write (core a) (answerable a) t pa pb f is_final n f' Hl Hc Hn Hadv) as [Hl' Hbytes].
  eapply (joined_sends m a b pa pb la lb _ _ _ _ pa []); try done; [|by rewrite app_nil_r].
  unfold unwritten. cbn [op_written set_current_frame current_frame]. by rewrite Hc.
Qed.

Lemma joined_ready m a b pa pb la lb c' : joined m a b pa pb la lb → current_frame (core a) = None → ready_queue (core a) ≠ [] →
  ready_next_frame (core a) = Done (Ok (), c') → stays_joined m a b OpReady c' la lb.
Proof.
  intros [[Hma Hmb] [cur Hl] [curb Hb] [Hwa Hwb] Hforth Hback Hla Hlb [Hna Hnb]] Hc Hne Hd.
  assert (cur = None) as ->.
  { pose proof (lk_current _ _ _ _ _ _ Hl) as Hcur. rewrite Hc in Hcur. by destruct cur. }
  destruct (linked_ready (core a) (answerable a) pa pb Hl Hne) as (s & t & Q & f & Hs & HQ & Hl' & S1 & S2 & S3 & S4 & _).
  rewrite Hd in Hs. injection Hs as <-. rewrite Hma in *. destruct (linked_mfs _ _ _ _ _ _ Hl) as [Hmp Hm]. rewrite Hma in Hmp, Hm.
  pose proof (dx_flow_a _ _ (lk_duplex _ _ _ _ _ _ Hl)) as Hflow. rewrite Hmp in Hflow.
  exists (party_out pa (flow_ready m (p_out pa) t Q)), pb, la, lb. split; [|split; [by rewrite app_nil_r|by split; [constructor|]]].
  constructor; cbn [acting beside core in_transit answerable withdrawn op_written op_taken party_out p_out p_cancelled];
    rewrite ?S1, ?S2, ?app_nil_r, ?drop_0; try done.
  - split; [|done]. rewrite <- Hmb, <- (linked_mfs_peer _ _ _ _ _ _ Hl'). apply (linked_mfs _ _ _ _ _ _ Hb).
  - by exists (Some t).
  - exists curb. eapply linked_peer; [exact Hb|]. apply duplex_sym, Hl'.
  - unfold unwritten in *. rewrite S3, S4. rewrite Hc, app_nil_r in Hforth. cbn [flow_ready flying].
    rewrite map_app, concat_app, <- Hforth. cbn [map concat]. by rewrite app_nil_r, <- app_assoc.
  - by apply under_way_ready.
  - split; [|done]. etransitivity; [exact Hna|]. unfold awaited. cbn [flow_ready flying].
    destruct (flying (p_out pa)); [|done]. cbn [app]. rewrite piece_len. unfold Header_SIZE. pose proof (len_nonneg (prefix_of_payload t)).
    pose proof (len_nonneg (take (Z.to_nat (room m t)) (drop (Z.to_nat (t_pos t)) (t_payload t)))). lia.
Qed.

Lemma stream_u8 m a b pa pb la lb : joined m a b pa pb la lb → Forall u8 (in_transit a).
Proof.
  intros [[Hma Hmb] [cur Hl] _ _ Hforth _ _ _ _].
  assert (Forall u8 (concat (map (piece m) (flying (p_out pa))))) as Hu.
  { apply Forall_concat, Forall_map, Forall_forall. intros t Ht. destruct (linked_mfs _ _ _ _ _ _ Hl) as [Hmp _].
    pose proof (lk_duplex _ _ _ _ _ _ Hl) as Hdx. pose proof (dx_msgs_a _ _ Hdx) as Hs. rewrite Forall_forall in Hs.
    pose proof (fo_pieces _ _ (dx_flow_a _ _ Hdx)) as Hp. rewrite Forall_forall in Hp.
    assert (t ∈ opened (p_out pa) ++ flying (p_out pa) ++ queued (p_out pa)) as Hin by (rewrite !elem_of_app; auto).
    destruct (Hs t Hin) as (c & Hc & Hok). destruct (Hp t Hin) as [Ht' _].
    pose proof (piece_u8 (p_proto pa) (dx_a _ _ Hdx) t Ht' c Hc Hok) as Hpu. by rewrite Hmp, Hma in Hpu. }
  rewrite <- Hforth in Hu. apply Forall_app in Hu as [_ Hu]. by apply Forall_app in Hu as [Hu _].
Qed.

Lemma joined_read m a b pa pb la lb bs : joined m a b pa pb la lb → bs `prefix_of` in_transit b →
  stays_joined m a b (OpRead bs) (set_buffer (core a) (buffer (core a) ++ bs)) la lb.
Proof.
  intros Hj [rest Hbs]. pose proof (stream_u8 _ _ _ _ _ _ _ (joined_sym _ _ _ _ _ _ _ Hj)) as Hu. rewrite Hbs in Hu.
  apply Forall_app in Hu as [Hu _]. destruct Hj as [[Hma Hmb] [cur Hl] [curb Hb] [Hwa Hwb] Hforth Hback Hla Hlb Haw].
  pose proof (lk_wf _ _ _ _ _ _ Hl) as Hwf. set (s := set_buffer _ _).
  assert (io_wf s) as Hwf'.
  { eapply (good_buffer (juliet (core a)) (len (buffer (core a))) _); [by apply good_refl| |done]. apply Forall_app.
    split; [apply Hwf|done]. }
  assert (sent_by (OpRead bs) (core a) s = []) as Hsent by by apply sent_by_same.
  exists pa, pb, la, lb. rewrite Hsent. split; [|split; [by rewrite app_nil_r|by split; [constructor|]]].
  constructor; cbn [acting beside core in_transit answerable withdrawn op_written op_taken]; rewrite ?Hsent, ?app_nil_r; try done.
  - exists cur. by destruct Hl.
  - by exists curb.
  - rewrite Hbs, drop_app_length. change (buffer s) with (buffer (core a) ++ bs). rewrite Hbs in Hback.
    by rewrite <- Hback, <- !app_assoc.
Qed.

Lemma joined_parse m a b pa pb la lb r c' : joined m a b pa pb la lb → parse_step (core a) = Done (r, c') →
  stays_joined m a b (OpParse r) c' la lb.
Proof.
  intros [[Hma Hmb] [cur Hl] [curb Hb] [Hwa Hwb] Hforth Hback Hla Hlb [Hna Hnb]] Hd.
  destruct (linked_parse (IoError := IoError) (core a) (answerable a) cur pb pa lb (in_transit b ++ unwritten (core b)) Hl)
    as (r0 & c0 & pa' & f & lb' & msgs & Hd0 & [P1 P2 P3 P4 P5 P6 P7 P8 P9 P10 P11 _ P13 _ _]); [by rewrite Hma|done|].
  rewrite Hd in Hd0. injection Hd0 as <- <-. rewrite Hma in *.
  assert (sent_by (OpParse r) (core a) c' = msgs) as Hsent by by eapply sent_by_sends.
  exists pa', (party_out pb f), (la ++ msgs), lb'. rewrite Hsent.
  split; [|done].
  destruct (flow_sends_rest (p_out pa) msgs) as (_ & Hfl & _).
  assert (unwritten c' = unwritten (core a)) as Hun by (unfold unwritten; by rewrite P7).
  assert (linked (core b) [] (answerable b) curb (party_out pb f) pa') as Hb'.
  { eapply linked_arrived; [exact Hb|apply duplex_sym, P1|done|]. intros t F -> Hf. destruct P3 as [F1 HF1].
    assert (flying f ≠ []) as Hne.
    { intros Hnil. rewrite Hnil in P4. apply app_eq_nil in P4 as [_ P4]. apply app_eq_nil in P4 as [_ P4].
      pose proof (lk_current _ _ _ _ _ _ Hb) as Hcur. unfold unwritten in P4.
      destruct (current_frame (core b)) as [[f0 fin]|]; [|done]. by destruct Hcur as (_ & _ & ? & _). }
    destruct (exists_last Hne) as (F' & t' & HF'). exists F'. rewrite HF1, HF', app_assoc in Hf.
    apply app_inj_tail in Hf as [_ ->]. done. }
  constructor; cbn [acting beside core in_transit answerable withdrawn op_written op_taken party_out p_out p_cancelled];
    rewrite ?app_nil_r, ?drop_0, ?Hun, ?Hsent, ?P10, ?P9, ?Hwa, ?Hfl; try done.
  - split; [|done]. rewrite <- Hmb, <- (linked_mfs_peer _ _ _ _ _ _ P1). by apply (linked_mfs _ _ _ _ _ _ Hb).
  - by exists cur.
  - by exists curb.
  - by apply under_way_sends.
  - split; [|by apply P13]. unfold awaited in *. by rewrite Hfl.
Qed.

Lemma joined_step m a b pa pb la lb op c' : joined m a b pa pb la lb → core_step (core a) op c' → allowed a b op →
  stays_joined m a b op c' la lb.
Proof.
  intros Hj Hstep Hal. destruct (jn_here _ _ _ _ _ _ _ Hj) as [cur Hl]. pose proof (lk_pending _ _ _ _ _ _ Hl) as Hpend.
  inversion Hstep; subst; [by eapply joined_parse|by eapply joined_ready|by eapply joined_write|by eapply joined_written
    |by eapply joined_read|by eapply joined_item|congruence].
Qed.

Lemma joined_run m a0 b0 pa0 pb0 tr tr' a b : joined m a0 b0 pa0 pb0 [] [] → cores_run a0 b0 tr tr' a b →
  ∃ pa pb la lb, joined m a b pa pb la lb ∧ transport m [] tr la ∧ transport m [] tr' lb.
Proof.
  intros Hj Hrun. induction Hrun as [a b|a0 b0 tr tr' a b op c' _ IH Hstep Hal|a0 b0 tr tr' a b op c' _ IH Hstep Hal].
  - exists pa0, pb0, [], []. split; [done|]. split; constructor.
  - destruct (IH Hj) as (pa & pb & la & lb & Hj1 & Ht & Ht').
    destruct (joined_step m a b pa pb la lb op c' Hj1 Hstep Hal) as (pa' & pb' & ? & lb' & Hj2 & -> & Hr & _).
    exists pa', pb', (la ++ sent_by op (core a) c'), lb'. split; [done|]. split; eapply transport_app; [done|apply transport_sends|done..].
  - destruct (IH Hj) as (pa & pb & la & lb & Hj1 & Ht & Ht').
    destruct (joined_step m b a pb pa lb la op c' (joined_sym _ _ _ _ _ _ _ Hj1) Hstep Hal) as (pb' & pa' & ? & la' & Hj2 & -> & Hr & _).
    exists pa', pb', la', (lb ++ sent_by op (core b) c'). split; [by apply joined_sym|]. split; eapply transport_app; [done..|done|apply transport_sends].
Qed.

(** ** The start *)

Definition initial_side {S Snd} `{Semaphore S Permit} (builder : IoCoreBuilder) (sender : Snd) : Side :=
  mkSide (IoCoreBuilder_build (S := S) builder sender).1 [] (λ _, ∅) (λ _, ∅).
Definition initial_party (p : ProtocolBuilder) : Party :=
  mkParty (ProtocolBuilder_build p) (mkFlow [] [] []) (λ _, ∅) (λ _, ∅).

Lemma flow_ok_empty m : flow_ok m (mkFlow [] [] []).
Proof.
  constructor; cbn [opened flying queued].
  - constructor.
  - constructor.
  - constructor.
  - exists []. split; [constructor|done].
  - intros Q1 t Q2 HQ. by destruct Q1.
Qed.
Lemma initial_duplex p : Forall ChannelConfiguration_wf (pb_channel_config p) → len (pb_channel_config p) ≤ 256 →
  MaxFrameSize_wf (pb_max_frame_size p) → duplex (initial_party p) (initial_party p).
Proof.
  intros Hc Hn Hm. pose proof (build_wf p Hc Hn Hm) as Hwf. pose proof (init_inv p Hc Hn Hm) as Hinv.
  constructor; cbn [initial_party p_proto p_out p_cancelled p_owed]; try done; try apply flow_ok_empty; try apply Forall_nil_2.
  intros ch ca cb Hch Ha Hb. destruct (si_channels _ Hinv ch ca cb Hch Ha Hb) as (R1 & R2 & R3 & R4).
  assert (∀ c, chan_at (ProtocolBuilder_build p) ch = Some c → incoming_requests c = ∅) as Hinc.
  { intros c Hc'. unfold chan_at in Hc'. cbn in Hc'. rewrite list_lookup_fmap in Hc'.
    destruct (pb_channel_config p !! _); [|done]. by injection Hc' as <-. }
  assert (∀ id, ¬ open_request (mkFlow [] [] []) ch id) as Hno.
  { intros id (t & pl & Ht & _). by apply elem_of_nil in Ht. }
  split; constructor; try done; try (by intros t Ht; apply elem_of_nil in Ht).
  - intros id. rewrite (Hinc cb Hb). split; [set_solver|]. intros [?|Ho]; [set_solver|by apply Hno in Ho].
  - intros id. rewrite (Hinc ca Ha). split; [set_solver|]. intros [?|Ho]; [set_solver|by apply Hno in Ho].
Qed.
Lemma initial_linked {S Snd} `{Semaphore S Permit} (builder : IoCoreBuilder) (sender : Snd) :
  let p := protocol builder in
  Forall ChannelConfiguration_wf (pb_channel_config p) → len (pb_channel_config p) ≤ 256 → MaxFrameSize_wf (pb_max_frame_size p) →
  linked (core (initial_side (S := S) builder sender)) [] (λ _, ∅) None (initial_party p) (initial_party p).
Proof.
  intros p Hc Hn Hm. pose proof (build_wf p Hc Hn Hm) as Hwf.
  assert (∀ l : list Channel, concat (map (λ _, @nil (QueuedItem Permit)) l) = []) as Hnil by (induction l; done).
  constructor; cbn [initial_side core IoCoreBuilder_build fst pending_error juliet ready_queue request_map wait_queue
    active_multi_frame current_frame initial_party p_proto p_out p_owed queued flying]; rewrite ?Hnil; try done.
  - by apply (IoCoreBuilder_build_wf builder sender).
  - by apply initial_duplex.
  - intros io ch id Hrel. by apply bm_new_spec in Hrel.
  - intros ch id. change (answers_held ([] ++ [])) with (@nil (ChannelId * Id)). rewrite elem_of_nil. tauto.
  - constructor.
  - intros ch _ _. unfold active_at. cbn [active_multi_frame]. rewrite list_lookup_fmap. by destruct (_ !! _).
  - intros ch _. unfold wait_of. cbn [wait_queue]. rewrite list_lookup_fmap. destruct (_ !! _); constructor.
Qed.
Lemma initial_joined {S Snd} `{Semaphore S Permit} (ba bb : IoCoreBuilder) (qa qb : Snd) :
  let p := protocol ba in protocol bb = p →
  Forall ChannelConfiguration_wf (pb_channel_config p) → len (pb_channel_config p) ≤ 256 → MaxFrameSize_wf (pb_max_frame_size p) →
  joined (pb_max_frame_size p) (initial_side (S := S) ba qa) (initial_side (S := S) bb qb) (initial_party p) (initial_party p) [] [].
Proof.
  intros p Hp Hc Hn Hm. constructor; try done.
  - split; [done|]. unfold core_mfs. cbn. by rewrite Hp.
  - exists None. by apply initial_linked.
  - exists None. cbn [initial_side answerable]. pose proof (initial_linked (S := S) bb qb) as Hl. cbv zeta in Hl. rewrite Hp in Hl. by apply Hl.
  - by exists [].
  - by exists [].
Qed.

(** Nothing is left of what [a] had to send. *)
Definition drained (a b : Side) : Prop :=
  ready_queue (core a) = [] ∧ current_frame (core a) = None ∧ in_transit a = [] ∧ buffer (core b) = [].
Lemma drained_flow m a b pa pb la lb : joined m a b pa pb la lb → drained a b → p_out pa = mkFlow [] [] [].
Proof.
  intros [[Hma _] [cur Hl] _ _ Hforth _ _ _ _] (Hr & Hc & Ht & Hb). unfold unwritten in Hforth.
  rewrite Hc, Ht, Hb in Hforth. destruct (linked_mfs _ _ _ _ _ _ Hl) as [Hmp _].
  assert (flying (p_out pa) = []) as Hf.
  { destruct (flying (p_out pa)) as [|t F]; [done|]. cbn [map concat app] in Hforth. symmetry in Hforth.
    by apply app_eq_nil in Hforth as [Hforth _]. }
  assert (ready_queue (core a) = [] → queued (p_out pa) = []) as Hq.
  { rewrite (lk_ready _ _ _ _ _ _ Hl). by intros ?%map_eq_nil. }
  specialize (Hq Hr).
  pose proof (dx_flow_a _ _ (lk_duplex _ _ _ _ _ _ Hl)) as Hfl. destruct (fo_frames _ _ Hfl) as (O & Hs & HO).
  rewrite Hf in Hs. rewrite Hq in HO. change (started []) with (@nil Transfer) in HO. apply Permutation_nil_r in HO as ->.
  assert (opened (p_out pa) = []) as Heq by by inversion Hs. destruct (p_out pa). cbn in *. by subst.
Qed.

Lemma joined_drained m a b pa pb la lb : joined m a b pa pb la lb → drained a b → la = [].
Proof.
  intros Hj Hd. pose proof (drained_flow _ _ _ _ _ _ _ Hj Hd) as Hf. destruct (jn_way_forth _ _ _ _ _ _ _ Hj) as (l1 & -> & Hl1).
  rewrite Hf in *. by apply Permutation_nil_r in Hl1 as ->.
Qed.

(** ** Running the system *)

(** A turn to take: its operation is computed. *)
Inductive Turn := TParse | TReady | TWritten | TRead (n : nat)
  | TRequest (ch : ChannelId) (io : IoId) (payload : bytes) (permit : Permit)
  | TRespond (ch : ChannelId) (id : Id) (payload : bytes).
Definition payload_fits (limit : ChannelConfiguration → Z) (p : JulietProtocol) (ch : ChannelId) (payload : bytes) : bool :=
  (0 <=? chan_raw ch) && (chan_raw ch <=? 255) &&
  match channels p !! Z.to_nat (chan_raw ch) with
  | Some c => forallb (λ x, (0 <=? x) && (x <=? 255)) payload && (len payload <=? limit (config c))
  | None => false
  end.
Lemma payload_fits_ok limit p ch payload : payload_fits limit p ch payload = true →
  ChannelId_wf ch ∧ ∃ c, chan_at p ch = Some c ∧ payload_ok (limit (config c)) (Some payload).
Proof.
  unfold payload_fits. intros Hf. apply andb_true_iff in Hf as [Hch Hf]. apply andb_true_iff in Hch as [H1 H2].
  apply Z.leb_le in H1, H2. split; [by split|]. unfold chan_at.
  destruct (channels p !! Z.to_nat (chan_raw ch)) as [c0|] eqn:Hc; [|done]. exists c0. split; [done|].
  apply andb_true_iff in Hf as [Hb Hl]. apply Z.leb_le in Hl. split; [|done]. apply Forall_forall. intros x Hx.
  rewrite forallb_forall in Hb. apply list_elem_of_In in Hx. specialize (Hb x Hx). apply andb_true_iff in Hb as [H3 H4].
  apply Z.leb_le in H3, H4. by split.
Qed.
Definition perform_item (a : Side) (item : QueuedItem Permit) : option (CoreOp Permit IoError * IoCore Permit BM) :=
  match handle_incoming_item (core a) item with Done (r, c') => Some (OpItem item r, c') | _ => None end.
Definition perform (a : Side) (t : Turn) (available : bytes) : option (CoreOp Permit IoError * IoCore Permit BM) :=
  match t with
  | TParse => match pending_error (core a), parse_step (core a) with
              | None, Done (r, c') => Some (OpParse r, c') | _, _ => None end
  | TReady => match current_frame (core a), ready_queue (core a), ready_next_frame (core a) with
              | None, _ :: _, Done (Ok (), c') => Some (OpReady, c') | _, _, _ => None end
  | TWritten =>
      match current_frame (core a) with
      | Some (frame, is_final) =>
          match OutgoingFrame_advance frame (len (frame_bytes frame)) with
          | Done frame' => match write_branch (set_current_frame (core a) (Some (frame', is_final))) (Ok ()) with
                           | Done (r, c') => Some (OpWritten (frame_bytes frame) r, c') | _ => None end
          | _ => None
          end
      | None => None
      end
  | TRead n => Some (OpRead (take n available), set_buffer (core a) (buffer (core a) ++ take n available))
  | TRequest ch io payload permit =>
      if payload_fits max_request_payload_size (juliet (core a)) ch payload
      then perform_item a (QRequest ch io (Some payload) permit) else None
  | TRespond ch id payload =>
      if bool_decide (id ∈ answerable a ch) && payload_fits max_response_payload_size (juliet (core a)) ch payload
      then perform_item a (QResponse ch id (Some payload)) else None
  end.
Lemma perform_step a b t op c' : perform a t (in_transit b) = Some (op, c') → core_step (core a) op c' ∧ allowed a b op.
Proof.
  assert (∀ item, may_queue (core a) (answerable a) (withdrawn a) item → perform_item a item = Some (op, c') →
    core_step (core a) op c' ∧ allowed a b op) as Hitem.
  { intros item Hmay. unfold perform_item. destruct (handle_incoming_item (core a) item) as [[r c]| |] eqn:Hd; intros [= <- <-].
    split; [by constructor|done]. }
  destruct t as [| | |n|ch io payload permit|ch id payload]; cbn [perform].
  - destruct (pending_error (core a)) eqn:Hpe; [done|]. destruct (parse_step (core a)) as [[r c]| |] eqn:Hps; intros [= <- <-]. split; [by constructor|done].
  - destruct (current_frame (core a)) eqn:Hc; [done|]. destruct (ready_queue (core a)) eqn:Hr; [done|].
    destruct (ready_next_frame (core a)) as [[[e|[]] c]| |] eqn:Hd; intros [= <- <-]. split; [|done]. constructor; [done|by rewrite Hr|done].
  - destruct (current_frame (core a)) as [[f fin]|] eqn:Hc; [|done]. destruct (OutgoingFrame_advance _ _) as [f'| |] eqn:Hadv; [|done..].
    destruct (write_branch _ _) as [[r c]| |] eqn:Hw; intros [= <- <-]. split; [|done]. by econstructor.
  - intros [= <- <-]. split; [constructor|]. cbn [allowed]. exists (drop n (in_transit b)). by rewrite take_drop.
  - destruct (payload_fits _ _ _ _) eqn:Hf; [|done]. apply Hitem. by apply payload_fits_ok.
  - destruct (bool_decide_reflect (id ∈ answerable a ch)) as [Hid|]; [|done]. destruct (payload_fits _ _ _ _) eqn:Hf; [|done].
    apply Hitem. split; [done|]. by apply payload_fits_ok.
Qed.
(** [true]: it is the first side's turn. *)
Fixpoint perform_all (turns : list (bool * Turn)) (tr tr' : list Event) (a b : Side) : option (list Event * list Event * Side * Side) :=
  match turns with
  | [] => Some (tr, tr', a, b)
  | (true, t) :: turns =>
      '(op, c') ← perform a t (in_transit b);
      perform_all turns (tr ++ map Sent (sent_by op (core a) c')) (tr' ++ reported_by op (core a)) (acting a op c') (beside b op)
  | (false, t) :: turns =>
      '(op, c') ← perform b t (in_transit a);
      perform_all turns (tr ++ reported_by op (core b)) (tr' ++ map Sent (sent_by op (core b) c')) (beside a op) (acting b op c')
  end.
Lemma perform_all_run a0 b0 turns : ∀ tr tr' a b r, cores_run a0 b0 tr tr' a b → perform_all turns tr tr' a b = Some r →
  cores_run a0 b0 r.1.1.1 r.1.1.2 r.1.2 r.2.
Proof.
  induction turns as [|[[] t] turns IH]; intros tr tr' a b r Hrun Hp; cbn [perform_all] in Hp.
  - by injection Hp as <-.
  - destruct (perform a t (in_transit b)) as [[op c']|] eqn:Ht; [|done]. apply perform_step in Ht as [Hs Hal].
    eapply IH; [|exact Hp]. by apply cores_here.
  - destruct (perform b t (in_transit a)) as [[op c']|] eqn:Ht; [|done]. apply perform_step in Ht as [Hs Hal].
    eapply IH; [|exact Hp]. by apply cores_there.
Qed.

(** No operation fails, and what may be queued is taken. *)
Definition healthy (a b : Side) : Prop :=
  pending_error (core a) = None ∧
  (∀ op c', core_step (core a) op c' → allowed a b op → op_fine op) ∧
  (∀ item, may_queue (core a) (answerable a) (withdrawn a) item →
     ∃ c', core_step (core a) (OpItem (IoError := IoError) item (Ok ())) c').
Lemma joined_healthy m a b pa pb la lb : joined m a b pa pb la lb → healthy a b.
Proof.
  intros Hj. destruct (jn_here _ _ _ _ _ _ _ Hj) as [cur Hl]. split; [apply Hl|]. split.
  - intros op c' Hs Hal. by destruct (joined_step m a b pa pb la lb op c' Hj Hs Hal) as (? & ? & ? & ? & _ & _ & _ & ?).
  - intros item Hmay. destruct (jn_withdrawn _ _ _ _ _ _ _ Hj) as [Hw _]. rewrite <- Hw in Hmay.
    destruct (take_item_sends _ _ _ _ _ item Hl Hmay) as (s & _ & _ & Hs & _). exists s. by constructor.
Qed.
End cores.

(** ** Properties *)

(** A request of three frames and one of a single frame, which overtakes it. *)
Definition demo_turns : list (bool * Turn (Permit := ())) :=
  [(true, TRequest (ChannelId_new 0) (mkIoId 1) [1; 2; 3; 4; 5; 6; 7; 8; 9; 10; 11; 12] ());
   (true, TRequest (ChannelId_new 1) (mkIoId 2) [5; 5] ());
   (true, TReady); (true, TWritten); (false, TRead 7); (false, TParse); (true, TReady); (true, TWritten);
   (false, TRead 20); (false, TParse); (true, TReady); (true, TWritten); (true, TReady); (true, TWritten);
   (false, TParse); (false, TRead 30); (false, TParse)].
Abbreviation sample_side := (initial_side (Permit := ()) (BM := list (IoId * (ChannelId * Id))) (S := Z) sample_io_builder ()).
Definition demo_run := perform_all (IoError := ()) demo_turns [] [] sample_side sample_side.
Lemma demo_run_ok : match demo_run with
  | Some (tr, _, _, _) =>
      reported_of tr = [NewRequest (ChannelId_new 1) (Id_new 1) (Some [5; 5]);
                        NewRequest (ChannelId_new 0) (Id_new 1) (Some [1; 2; 3; 4; 5; 6; 7; 8; 9; 10; 11; 12])]
  | None => False
  end.
Proof. vm_compute. reflexivity. Qed.
Lemma demo_configured : Forall ChannelConfiguration_wf (pb_channel_config (protocol sample_io_builder)).
Proof. apply Forall_replicate. split; [|split]; split; vm_compute; discriminate. Qed.


