(* ===== verification/Waiting.v ===== *)
(** * What waits in the wait queues

    An item waits only while it has to: whenever something in the wait queue of a channel could
    be sent, a frame of that channel is on its way to the writer, and writing it makes the core
    look at the queue.  What is left waiting when two cores are at rest are requests, for
    answers the other application has not given. *)
From stdpp Require Import functions strings.
From S2P Require Import Prelude Lib Varint Header FrameSize OutgoingMessage WireFormat ByteIter Multiframe.
From S2P Require Import MultiframeSpec Protocol ProtocolInv ProcessIncoming ProtocolOps Answers Io Instances IoSafe IoSpec CoreOps.
From S2P Require Import Delivery Peers Transfer Flow Duplex Stream Link Cores.
From stdpp Require Import options.

Section waiting.
Context {Permit IoError BM : Type} `{BiMapLaws IoId (ChannelId * Id) BM}.
#[local] Set Default Proof Using "Type*".
Implicit Types (op : CoreOp Permit IoError) (a b : Side (Permit := Permit) (BM := BM)) (c : IoCore Permit BM).

(** ** The invariant of a channel *)

(** A frame of the channel is ready or being written. *)
Definition busy c (ch : ChannelId) : Prop :=
  (∃ it, it ∈ ready_queue c ∧ Header_channel (om_header (fi_msg it)) = ch) ∨
  (∃ f is_final, current_frame c = Some (f, is_final) ∧ Header_channel (OutgoingFrame_header f) = ch).
Definition calm c (ch : ChannelId) : Prop := busy c ch ∨ Forall (waits c) (wait_of c ch).

Lemma busy_sent c' rest msgs ch : ready_queue c' = rest ++ map (λ msg, frames (message_of msg)) msgs → on ch msgs ≠ [] → busy c' ch.
Proof.
  intros Hr Hne. destruct (on ch msgs) as [|msg l] eqn:Hon; [done|]. assert (msg ∈ on ch msgs) as Hin by (rewrite Hon; by left).
  apply on_elem in Hin as [Hch Hin]. left. exists (frames (message_of msg)). split.
  - rewrite Hr, elem_of_app. right. apply list_elem_of_fmap. by exists msg.
  - change (om_header (fi_msg (frames (message_of msg)))) with (msg_header msg). by rewrite msg_header_inj_channel.
Qed.

(** What a sending operation does to it. *)
Lemma calm_kept c c' ans cur pa pb msgs ch : linked c [] ans cur pa pb → io_wf c' → same_config (juliet c) (juliet c') →
  ChannelId_wf ch → ready_queue c' = ready_queue c ++ map (λ msg, frames (message_of msg)) msgs →
  kept_on c c' msgs ch → (busy c ch → busy c' ch) → calm c ch → calm c' ch.
Proof.
  intros Hl Hwf Hcfg Hch Hr [Hm|[Hw|[Hroom Hw]]] Hbusy Hcalm; [left; by eapply busy_sent|by right|].
  destruct Hcalm as [|Hwaits]; [left; by apply Hbusy|right]. rewrite Forall_forall in Hw, Hwaits |- *. intros item Hin.
  destruct (Hw item Hin) as [Hin'|]; [|done]. eapply linked_waits; eauto.
Qed.
Lemma busy_grows c c' extra ch : ready_queue c' = ready_queue c ++ extra → current_frame c' = current_frame c → busy c ch → busy c' ch.
Proof.
  intros Hr Hc [(it & Hin & Hit)|(f & fin & Hf & Hh)]; [left; exists it|right; exists f, fin].
  - split; [|done]. rewrite Hr, elem_of_app. by left.
  - by rewrite Hc.
Qed.

(** [calm] with the same items and the same channels. *)
Lemma calm_same c c' ch : juliet c' = juliet c → active_multi_frame c' = active_multi_frame c → wait_queue c' = wait_queue c →
  (busy c ch → busy c' ch) → calm c ch → calm c' ch.
Proof.
  intros Hj Ha Hw Hbusy [|Hwaits]; [left; by apply Hbusy|right]. unfold wait_of, waits in *. by rewrite Hj, Ha, Hw.
Qed.

Lemma step_calm m a b pa pb la lb op c' ch chn : joined m a b pa pb la lb → core_step (core a) op c' → allowed a b op →
  ChannelId_wf ch → chan_at (juliet (core a)) ch = Some chn →
  (∀ id, Reported (ResponseCancellation ch id) ∉ reported_by op (core a)) → calm (core a) ch → calm c' ch.
Proof.
  intros Hj Hstep Hal Hch Hchn Hrep Hcalm. pose proof Hj as [[Hma Hmb] [cur Hl] _ [Hw _] _ Hback _ Hlb _].
  pose proof (chan_at_count _ _ _ Hch Hchn) as Hlt.
  inversion Hstep as [? r ? Hpe Hd|? ? Hc Hne Hd|? f fin n f' Hc Hn Hadv|? f fin f' r ? Hc Hadv Hd|? bs|? item r ? Hd|? f w Hpe]; subst.
  - destruct (linked_parse (IoError := IoError) (core a) (answerable a) cur pb pa lb (in_transit b ++ unwritten (core b)) Hl)
      as (r0 & c0' & pa' & f & lb' & msgs & Hd0 & P); [done|done|]. rewrite Hd in Hd0. injection Hd0 as <- <-.
    pose proof (pr_linked _ _ _ _ _ _ _ _ _ _ _ _ _ P) as Hl'. pose proof (pr_ready _ _ _ _ _ _ _ _ _ _ _ _ _ P) as Hr.
    eapply (calm_kept (core a)); [exact Hl|apply Hl'|by eapply linked_same_config; [exact Hl|exact Hl'|]|done|exact Hr| |by eapply busy_grows; [|apply P]|done].
    apply (pr_kept _ _ _ _ _ _ _ _ _ _ _ _ _ P); [done|done|]. intros id Heq. apply (Hrep id). cbn [reported_by]. rewrite Heq. by left.
  - assert (cur = None) as ->.
    { pose proof (lk_current _ _ _ _ _ _ Hl) as Hcur. rewrite Hc in Hcur. by destruct cur. }
    destruct (linked_ready (core a) (answerable a) pa pb Hl Hne) as (s & t & Q & f & Hs & HQ & Hl' & _ & _ & S3 & _ & _ & S5 & S6 & S7).
    rewrite Hd in Hs. injection Hs as <-. apply (calm_same (core a)); [done..| |done].
    intros [(it & Hin & Hit)|(? & ? & Hf & _)]; [|congruence]. rewrite (lk_ready _ _ _ _ _ _ Hl), HQ in Hin. cbn [map] in Hin.
    apply elem_of_cons in Hin as [->|Hin].
    + right. do 2 eexists. split; [exact S3|]. pose proof (lk_current _ _ _ _ _ _ Hl') as Hcur. rewrite S3 in Hcur.
      destruct Hcur as (-> & _). exact Hit.
    + left. exists it. split; [|done]. rewrite (lk_ready _ _ _ _ _ _ Hl'). cbn [party_out p_out flow_ready queued].
      rewrite map_app, elem_of_app. by left.
  - destruct cur as [t|]; [|pose proof (lk_current _ _ _ _ _ _ Hl) as Hcur; by rewrite Hc in Hcur].
    destruct (linked_write (core a) (answerable a) t pa pb f fin n f' Hl Hc Hn Hadv) as [Hl' _].
    apply (calm_same (core a)); [done..| |done]. pose proof (lk_current _ _ _ _ _ _ Hl) as Hcur. rewrite Hc in Hcur.
    pose proof (lk_current _ _ _ _ _ _ Hl') as Hcur'. cbn [set_current_frame current_frame] in Hcur'.
    destruct Hcur as (Hh & _), Hcur' as (Hh' & _). intros [?|(f0 & fin0 & Hf0 & Hch0)]; [by left|right]. exists f', fin.
    split; [done|]. rewrite Hc in Hf0. injection Hf0 as <- <-. by rewrite Hh', <- Hh.
  - destruct cur as [t|]; [|pose proof (lk_current _ _ _ _ _ _ Hl) as Hcur; by rewrite Hc in Hcur].
    destruct (linked_written (IoError := IoError) (core a) (answerable a) t pa pb f fin f' Hl Hc Hadv)
      as (s & pa' & msgs & Hs & Hl' & _ & _ & _ & Hr & _ & _ & _ & Hk & Hset & _). rewrite Hd in Hs. injection Hs as -> <-.
    pose proof (lk_current _ _ _ _ _ _ Hl) as Hcur. rewrite Hc in Hcur. destruct Hcur as (Hh & _).
    destruct (decide (ch = t_channel t)) as [->|Hne].
    { destruct Hset as [Hm|]; [left; by eapply busy_sent|by right]. }
    eapply (calm_kept (core a)); [exact Hl|apply Hl'|by eapply linked_same_config; [exact Hl|exact Hl'|]|done|exact Hr|by apply Hk| |done].
    intros [(it & Hin & Hit)|(f0 & fin0 & Hf0 & Hch0)].
    + left. exists it. split; [|done]. rewrite Hr, elem_of_app. by left.
    + rewrite Hc in Hf0. injection Hf0 as <- <-. by rewrite Hh, t_header_channel in Hch0.
  - by apply (calm_same (core a)).
  - cbn [allowed] in Hal. rewrite <- Hw in Hal.
    destruct (take_item_sends _ _ _ _ _ item Hl Hal) as (s & pa' & msgs & Hs & Hl' & (S1 & S2 & S3) & Hr & _ & _ & _ & Hk & _).
    rewrite Hd in Hs. injection Hs as -> ->.
    eapply (calm_kept (core a)); [exact Hl|apply Hl'|by eapply linked_same_config; [exact Hl|exact Hl'|]|done|exact Hr|by apply Hk|by eapply busy_grows|done].
  - pose proof (lk_pending _ _ _ _ _ _ Hl). congruence.
Qed.

(** ** Runs *)

Lemma cores_run_sym a0 b0 tr tr' a b : cores_run (IoError := IoError) a0 b0 tr tr' a b → cores_run (IoError := IoError) b0 a0 tr' tr b a.
Proof. induction 1; [constructor|by apply cores_there|by apply cores_here]. Qed.

Lemma step_same_config m a b pa pb la lb op c' : joined m a b pa pb la lb → core_step (core a) op c' → allowed a b op →
  same_config (juliet (core a)) (juliet c').
Proof.
  intros Hj Hstep Hal. destruct (joined_step m a b pa pb la lb op c' Hj Hstep Hal) as (pa' & pb' & la' & lb' & Hj' & _).
  destruct (jn_here _ _ _ _ _ _ _ Hj) as [? Ha]. destruct (jn_here _ _ _ _ _ _ _ Hj') as [? Ha'].
  destruct (jn_there _ _ _ _ _ _ _ Hj) as [? Hb]. destruct (jn_there _ _ _ _ _ _ _ Hj') as [? Hb'].
  eapply linked_same_config; [exact Ha|exact Ha'|]. rewrite (lk_proto _ _ _ _ _ _ Hb). apply (lk_proto _ _ _ _ _ _ Hb').
Qed.
Lemma run_calm m a0 b0 pa0 pb0 tr tr' a b ch : joined m a0 b0 pa0 pb0 [] [] → ChannelId_wf ch →
  calm (core a0) ch → cores_run (IoError := IoError) a0 b0 tr tr' a b →
  (∀ id, Reported (ResponseCancellation ch id) ∉ tr') → is_Some (chan_at (juliet (core a)) ch) → calm (core a) ch.
Proof.
  intros Hj Hch Hcalm Hrun. induction Hrun as [a b|a0 b0 tr tr' a b op c' Hrun IH Hstep Hal|a0 b0 tr tr' a b op c' Hrun IH Hstep Hal];
    intros Hrep Hc; [done| |].
  - destruct (joined_run _ _ _ _ _ _ _ _ _ Hj Hrun) as (pa & pb & la & lb & Hj1 & _). destruct Hc as [chn Hchn].
    destruct (same_config_chan _ _ _ _ (same_config_sym _ _ (step_same_config _ _ _ _ _ _ _ _ _ Hj1 Hstep Hal)) Hchn) as (chn' & Hchn' & _).
    eapply (step_calm m a b); [done..| |apply IH; [done..| |by exists chn']].
    + intros id Hin. apply (Hrep id). apply elem_of_app. by right.
    + intros id Hin. apply (Hrep id). apply elem_of_app. by left.
  - apply IH; [done..| |done]. intros id Hin. apply (Hrep id). apply elem_of_app. by left.
Qed.
Lemma initial_calm {S Snd} `{Semaphore S Permit} (builder : IoCoreBuilder) (sender : Snd) ch :
  calm (core (initial_side (S := S) (BM := BM) builder sender)) ch.
Proof.
  right. unfold wait_of. cbn [initial_side core IoCoreBuilder_build fst wait_queue]. rewrite list_lookup_fmap.
  destruct (_ !! _); constructor.
Qed.

(** ** At rest *)

(** Nothing is being sent: only requests over the limit have to wait. *)
Lemma waiting_request m a b pa pb la lb ch chn item : joined m a b pa pb la lb → drained a b → calm (core a) ch →
  ChannelId_wf ch → chan_at (juliet (core a)) ch = Some chn → item ∈ wait_of (core a) ch →
  (∃ io payload permit, item = QRequest ch io payload permit) ∧ request_limit (config chn) ≤ hs_len (outgoing_requests chn).
Proof.
  intros Hj Hd Hcalm Hch Hchn Hin. pose proof (drained_flow _ _ _ _ _ _ _ Hj Hd) as Hflow. destruct Hd as (Hr & Hc & _).
  pose proof Hj as [_ [cur Hl] _ _ _ _ _ _ _]. pose proof (chan_at_count _ _ _ Hch Hchn) as Hlt.
  assert (cur = None) as ->.
  { pose proof (lk_current _ _ _ _ _ _ Hl) as Hcur. rewrite Hc in Hcur. by destruct cur. }
  assert (active_at (core a) ch = None) as Hact.
  { pose proof (lk_active _ _ _ _ _ _ Hl ch Hch Hlt) as Ha. unfold pending_long in Ha. rewrite Hflow in Ha.
    change (map msg_header (on ch (long_msgs (core_mfs (core a)) [] ++ []))) with (@nil Header) in Ha.
    apply Permutation_nil_l in Ha. by destruct (active_at (core a) ch). }
  destruct Hcalm as [[(it & Hit & _)|(f & fin & Hf & _)]|Hwaits]; [rewrite Hr in Hit; by apply elem_of_nil in Hit|congruence|].
  rewrite Forall_forall in Hwaits. destruct (Hwaits item Hin) as [ch0 Hw].
  pose proof (lk_waiting _ _ _ _ _ _ Hl ch Hch) as Hic. rewrite Forall_forall in Hic. specialize (Hic item Hin).
  assert (item_ok (channel_count (core a)) item) as Hok.
  { apply item_fits_ok; [apply Hl|]. eapply linked_wait_fits; [exact Hl|exact Hin]. }
  rewrite item_should_wait_Done in Hw by (done || apply Hl). injection Hw as Hw.
  destruct item as [ch1 io pl permit|io|ch1 id pl|ch1 id|ch1 id pl]; try done; injection Hic as ->; fold (active_at (core a) ch) in Hw;
    rewrite Hact in Hw; rewrite (bool_decide_eq_false_2 (is_Some None)), andb_false_r in Hw by (by intros []).
  - split; [by exists io, pl, permit|]. unfold chan_at in Hchn. rewrite Hchn in Hw.
    destruct (Z.ltb_spec (hs_len (outgoing_requests chn)) (request_limit (config chn))); [done|lia].
  - done.
Qed.

(** An item is in the wait queue of its channel. *)
Lemma in_wait_of c hand ans cur pa pb ch item : linked c hand ans cur pa pb → item ∈ concat (wait_queue c) →
  item_channel item = Some ch → ChannelId_wf ch → item ∈ wait_of c ch.
Proof.
  intros Hl Hin Hch Hcw. apply list_elem_of_In, in_concat in Hin as (q & Hq & Hin).
  apply list_elem_of_In in Hin, Hq. apply list_elem_of_lookup in Hq as [i Hi].
  assert (0 ≤ Z.of_nat i ≤ 255) as Hi255.
  { pose proof (lookup_lt_Some _ _ _ Hi). pose proof (lk_wf _ _ _ _ _ _ Hl) as Hwf. pose proof (iw_wait_len _ Hwf) as Hlen.
    pose proof (pw_count _ (iw_juliet _ Hwf)). unfold channel_count, len in *. lia. }
  assert (ChannelId_wf (ChannelId_new (Z.of_nat i))) as Hchi by (unfold ChannelId_wf, u8; cbn; ulia).
  assert (item ∈ wait_of c (ChannelId_new (Z.of_nat i))) as Hw.
  { unfold wait_of. cbn [ChannelId_new chan_raw]. by rewrite Nat2Z.id, Hi. }
  pose proof (lk_waiting _ _ _ _ _ _ Hl _ Hchi) as Hic. rewrite Forall_forall in Hic. specialize (Hic item Hw).
  assert (ChannelId_new (Z.of_nat i) = ch) as <- by congruence. done.
Qed.
(** Where the outstanding requests are, when nothing is under way. *)
Lemma outstanding_at_rest m a b pa pb la lb ch ca : joined m a b pa pb la lb → drained a b → drained b a →
  ChannelId_wf ch → chan_at (juliet (core a)) ch = Some ca → calm (core b) ch → outgoing_requests ca = answerable b ch.
Proof.
  intros Hj Hd Hd' Hch Hca Hcalm. pose proof (joined_sym _ _ _ _ _ _ _ Hj) as Hj'.
  pose proof (drained_flow _ _ _ _ _ _ _ Hj Hd) as Hf. pose proof (drained_flow _ _ _ _ _ _ _ Hj' Hd') as Hf'.
  pose proof Hj as [_ [cur Hl] [curb Hlb] _ _ _ _ _ _]. pose proof (lk_duplex _ _ _ _ _ _ Hl) as Hdx.
  pose proof Hca as Hpa. rewrite <- (lk_proto _ _ _ _ _ _ Hl) in Hpa.
  destruct (same_config_chan _ _ _ _ (dx_same _ _ Hdx) Hpa) as (cb & Hcb & _).
  destruct (dx_lanes _ _ Hdx ch ca cb Hch Hpa Hcb) as [[Lr _ _ Li _] _]. rewrite Hf, Hf' in Lr. rewrite Hf in Li.
  rewrite (lk_proto _ _ _ _ _ _ Hlb) in Hcb. apply set_eq. intros id. rewrite (ri_places _ _ _ _ _ Lr id).
  change (requests_in (on ch (booked (mkFlow [] [] [])))) with (@nil Id). change (answers_in (on ch (booked (mkFlow [] [] [])))) with (@nil Id).
  rewrite !elem_of_nil, Li, (lk_owed _ _ _ _ _ _ Hlb ch id), app_nil_r. split; [|tauto].
  intros [[]|[[[Ha|Hheld]|(t & pl & Ht & _)]|[]]]; [done| |by apply elem_of_nil in Ht].
  exfalso. apply list_elem_of_omap in Hheld as (item & Hin & Hans).
  assert (item_channel item = Some ch) as Hic by (destruct item; try done; cbn in *; congruence).
  pose proof (in_wait_of _ _ _ _ _ _ _ _ Hlb Hin Hic Hch) as Hw.
  destruct (waiting_request m b a pb pa lb la ch cb item) as [(io & pl & permit & ->) _]; done.
Qed.

Lemma both_calm {S Snd} `{Semaphore S Permit} (ba bb : IoCoreBuilder) (qa qb : Snd) tr tr' a b ch chn :
  let p := protocol ba in
  protocol bb = p → Forall ChannelConfiguration_wf (pb_channel_config p) → len (pb_channel_config p) ≤ 256 →
  MaxFrameSize_wf (pb_max_frame_size p) →
  cores_run (IoError := IoError) (initial_side (S := S) ba qa) (initial_side (S := S) bb qb) tr tr' a b →
  ChannelId_wf ch → chan_at (juliet (core a)) ch = Some chn →
  (∀ id, Reported (ResponseCancellation ch id) ∉ tr ∧ Reported (ResponseCancellation ch id) ∉ tr') →
  calm (core a) ch ∧ calm (core b) ch.
Proof.
  intros p Hp Hc Hn Hm Hrun Hch Hchn Hrep.
  pose proof (initial_joined (S := S) ba bb qa qb Hp Hc Hn Hm) as Hj0.
  destruct (joined_run _ _ _ _ _ _ _ _ _ Hj0 Hrun) as (pa & pb & la & lb & Hj & _ & _). split.
  - eapply run_calm; [exact Hj0|done|apply initial_calm|exact Hrun|by apply Hrep|by exists chn].
  - eapply run_calm; [apply joined_sym, Hj0|done|apply initial_calm|by apply cores_run_sym|by apply Hrep|].
    destruct (jn_here _ _ _ _ _ _ _ Hj) as [cura Hla]. destruct (jn_there _ _ _ _ _ _ _ Hj) as [curb Hlb].
    pose proof (dx_same _ _ (lk_duplex _ _ _ _ _ _ Hla)) as Hs.
    rewrite (lk_proto _ _ _ _ _ _ Hla), (lk_proto _ _ _ _ _ _ Hlb) in Hs.
    destruct (same_config_chan _ _ _ _ Hs Hchn) as (cb & Hcb & _). by exists cb.
Qed.
End waiting.

(** C12: nothing waits in vain. Take two connected cores with the same protocol configuration, in
    any interleaving of their operations. The applications queue only items for channels there are,
    with payloads within the limits, and no errors; they answer only requests they were told of,
    each once; and they cancel a request of theirs at most once while it is outstanding, and not
    while a message with its channel and id is being sent in several frames. When both are at rest -
    nothing ready, being written, under way or unread in either direction - and no cancellation of a
    response was reported on a channel, to either side, then whatever is left in the wait queue of
    that channel is a request, the channel's request limit is used up, and the outstanding requests
    are exactly those that the other application was told of and has not answered. In particular no
    response ever stays behind, and if the limit is positive, once the other application has
    answered every request nothing does. (A cancelled response does leave requests stranded: the
    core does not look at the wait queue then.) *)
Theorem nothing_waits_in_vain {Permit IoError BM S Snd} `{BiMapLaws IoId (ChannelId * Id) BM} `{Semaphore S Permit}
    (ba bb : IoCoreBuilder) (qa qb : Snd) (tr tr' : list Event) (a b : Side (Permit := Permit) (BM := BM))
    (ch : ChannelId) (chn : Channel) (item : QueuedItem Permit) :
  let p := protocol ba in
  protocol bb = p → Forall ChannelConfiguration_wf (pb_channel_config p) → len (pb_channel_config p) ≤ 256 →
  MaxFrameSize_wf (pb_max_frame_size p) →
  cores_run (IoError := IoError) (initial_side (S := S) ba qa) (initial_side (S := S) bb qb) tr tr' a b →
  drained a b → drained b a → ChannelId_wf ch → chan_at (juliet (core a)) ch = Some chn →
  (∀ id, Reported (ResponseCancellation ch id) ∉ tr ∧ Reported (ResponseCancellation ch id) ∉ tr') →
  item ∈ wait_of (core a) ch →
  (∃ io payload permit, item = QRequest ch io payload permit) ∧
  outgoing_requests chn = answerable b ch ∧ hs_len (answerable b ch) = request_limit (config chn).
Proof.
  intros p Hp Hc Hn Hm Hrun Hd Hd' Hch Hchn Hrep Hin.
  pose proof (initial_joined (S := S) ba bb qa qb Hp Hc Hn Hm) as Hj0.
  destruct (joined_run _ _ _ _ _ _ _ _ _ Hj0 Hrun) as (pa & pb & la & lb & Hj & _ & _).
  destruct (both_calm (S := S) ba bb qa qb tr tr' a b ch chn Hp Hc Hn Hm Hrun Hch Hchn Hrep) as [Hca Hcb].
  destruct (waiting_request _ _ _ _ _ _ _ _ _ _ Hj Hd Hca Hch Hchn Hin) as [Hreq Hlim].
  pose proof (outstanding_at_rest _ _ _ _ _ _ _ _ _ Hj Hd Hd' Hch Hchn Hcb) as Hout.
  split; [done|]. split; [done|]. rewrite Hout in Hlim.
  destruct (jn_here _ _ _ _ _ _ _ Hj) as [cura Hla].
  pose proof (cw_outgoing _ (channel_wf_lookup _ _ _ (iw_juliet _ (lk_wf _ _ _ _ _ _ Hla)) Hchn)) as Hle. rewrite Hout in Hle. lia.
Qed.
(** Three requests on a channel that allows two; the two that are sent arrive. *)
Definition waiting_turns : list (bool * Turn (Permit := ())) :=
  [(true, TRequest (ChannelId_new 0) (mkIoId 1) [1] ()); (true, TRequest (ChannelId_new 0) (mkIoId 2) [2] ());
   (true, TRequest (ChannelId_new 0) (mkIoId 3) [3] ()); (true, TReady); (true, TWritten); (true, TReady); (true, TWritten);
   (false, TRead 100); (false, TParse); (false, TParse); (false, TParse)].
Definition waiting_run := perform_all (IoError := ()) waiting_turns [] [] sample_side sample_side.
Definition third_request : QueuedItem () := QRequest (ChannelId_new 0) (mkIoId 3) (Some [3]) ().
Lemma nothing_waits_in_vain_witness :
  match waiting_run with
  | Some (tr, tr', a, b) =>
      match channels (juliet (core a)) !! 0%nat with
      | Some chn => third_request ∈ wait_of (core a) (ChannelId_new 0) ∧
          (∃ io payload permit, third_request = QRequest (ChannelId_new 0) io payload permit) ∧
          outgoing_requests chn = answerable b (ChannelId_new 0) ∧ hs_len (answerable b (ChannelId_new 0)) = request_limit (config chn)
      | None => False
      end
  | None => False
  end.
Proof.
  assert (match waiting_run with
    | Some (tr, tr', a, b) => drained a b ∧ drained b a ∧ wait_of (core a) (ChannelId_new 0) = [third_request] ∧
        tr = [Sent (MReq (ChannelId_new 0) (Id_new 1) (Some [1])); Sent (MReq (ChannelId_new 0) (Id_new 2) (Some [2]));
              Reported (NewRequest (ChannelId_new 0) (Id_new 1) (Some [1])); Reported (NewRequest (ChannelId_new 0) (Id_new 2) (Some [2]))] ∧
        tr' = [] ∧ is_Some (channels (juliet (core a)) !! 0%nat)
    | None => False end) as Hok by (vm_compute; split_and!; (reflexivity || by eexists)).
  destruct waiting_run as [[[[tr tr'] a] b]|] eqn:Hrun; [|done]. destruct Hok as (Hd & Hd' & Hw & Htr & Htr' & [chn Hchn]). rewrite Hchn.
  apply (perform_all_run sample_side sample_side) in Hrun; [|constructor]. cbn [fst snd] in Hrun.
  assert (third_request ∈ wait_of (core a) (ChannelId_new 0)) as Hin by (rewrite Hw; by left). split; [exact Hin|].
  apply (nothing_waits_in_vain (IoError := ()) (S := Z) sample_io_builder sample_io_builder () () tr tr' a b (ChannelId_new 0) chn third_request);
    [done|exact demo_configured|done|done|exact Hrun|exact Hd|exact Hd'|done|exact Hchn| |exact Hin].
  intros id. rewrite Htr, Htr'. split; rewrite ?elem_of_cons, elem_of_nil; naive_solver.
Defined.
