(* ===== verification/Settle.v ===== *)
(** * Two cores come to rest

    What two cores do on their own, once their applications queue nothing more: every operation
    that gets some work done brings them nearer to an end, and as long as there is something
    to send or to read one of them is possible. *)
From stdpp Require Import functions strings relations.
From S2P Require Import Prelude Lib Varint Header FrameSize OutgoingMessage WireFormat ByteIter Multiframe.
From S2P Require Import MultiframeSpec Protocol ProtocolInv ProcessIncoming ProtocolOps Answers Io Instances IoSafe IoSpec CoreOps.
From S2P Require Import Delivery Peers Transfer Flow Duplex Stream Link Cores.
From stdpp Require Import options.

Section settle.
Context {Permit IoError BM : Type} `{BiMapLaws IoId (ChannelId * Id) BM}.
#[local] Set Default Proof Using "Type*".
Implicit Types (op : CoreOp Permit IoError) (a b : Side (Permit := Permit) (BM := BM)).

(** ** Steps that get work done *)

(** The event loop parses only what it waited for, and its reads and writes of nothing are
    waiting; new items come from the application. *)
Definition effective a op : Prop :=
  match op with
  | OpParse _ => next_parse_at (core a) ≤ len (buffer (core a))
  | OpWrite bs | OpRead bs => bs ≠ []
  | OpItem _ _ => False
  | OpReady | OpWritten _ _ | OpErrorWrite _ => True
  end.
Inductive settles : relation (Side * Side) :=
  | settles_here a b op c' : core_step (core a) op c' → allowed a b op → effective a op →
      settles (a, b) (acting a op c', beside b op)
  | settles_there a b op c' : core_step (core b) op c' → allowed b a op → effective b op →
      settles (a, b) (beside a op, acting b op c').

(** ** The work left *)

(** A byte has to be cut into a frame, written, read and parsed. *)
Definition work_of a : Z :=
  backlog (core a) + 6 * len (unwritten (core a)) + 4 * len (in_transit a) + 2 * len (buffer (core a)) +
  (if next_parse_at (core a) <=? len (buffer (core a)) then 1 else 0).
Definition work (ab : Side * Side) : Z := work_of ab.1 + work_of ab.2.

Definition toils a b op c' : Prop := work (acting a op c', beside b op) < work (a, b).

Lemma beside_same b op : op_taken op = [] → beside b op = b.
Proof. intros Ht. unfold beside. rewrite Ht. by destruct b. Qed.
Lemma work_of_acting a op c' : work_of (acting a op c') =
  backlog c' + 6 * len (unwritten c') + 4 * (len (in_transit a) + len (op_written op)) + 2 * len (buffer c') +
  (if next_parse_at c' <=? len (buffer c') then 1 else 0).
Proof. unfold work_of. cbn [acting core in_transit]. by rewrite len_app. Qed.

(** Steps that do not read. *)
Lemma toils_alone a b op c' : op_taken op = [] → work_of (acting a op c') < work_of a → toils a b op c'.
Proof. intros Ht Hlt. unfold toils, work. cbn [fst snd]. rewrite beside_same by done. lia. Qed.
Lemma toils_sending a b op c' : op_taken op = [] → buffer c' = buffer (core a) → next_parse_at c' = next_parse_at (core a) →
  backlog c' + 6 * len (unwritten c') + 4 * len (op_written op) < backlog (core a) + 6 * len (unwritten (core a)) → toils a b op c'.
Proof.
  intros Ht Hbuf Hnext Hlt. apply toils_alone; [done|]. rewrite work_of_acting, Hbuf, Hnext. unfold work_of. lia.
Qed.

Lemma unwritten_current (c : IoCore Permit BM) f fin : current_frame c = Some (f, fin) → unwritten c = frame_bytes f.
Proof. intros Hc. unfold unwritten. by rewrite Hc. Qed.
Lemma len_pos {A} (l : list A) : l ≠ [] → 0 < len l.
Proof. destruct l; [done|]. intros _. unfold len. cbn. lia. Qed.

Lemma effective_toils m a b pa pb la lb op c' : joined m a b pa pb la lb →
  core_step (core a) op c' → allowed a b op → effective a op → toils a b op c'.
Proof.
  intros Hj Hstep Hal Heff. pose proof Hj as [[Hma Hmb] [cur Hl] _ _ _ Hback _ Hlb _].
  inversion Hstep as [? r ? Hpe Hd|? ? Hc Hne Hd|? f fin n f' Hc Hn Hadv|? f fin f' r ? Hc Hadv Hd|? bs|? item r ? Hd|? f w Hpe]; subst;
    cbn [effective] in Heff.
  - destruct (linked_parse (IoError := IoError) (core a) (answerable a) cur pb pa lb (in_transit b ++ unwritten (core b)) Hl)
      as (r0 & c0 & pa' & f & lb' & msgs & Hd0 & P); [done|done|].
    rewrite Hd in Hd0. injection Hd0 as <- <-. pose proof (pr_backlog _ _ _ _ _ _ _ _ _ _ _ _ _ P) as Hle.
    pose proof (pr_progress _ _ _ _ _ _ _ _ _ _ _ _ _ P) as Hpr. rewrite (proj2 (Z.leb_le _ _)) in Hpr by done.
    assert (unwritten c' = unwritten (core a)) as Hun
      by (unfold unwritten; by rewrite (pr_current _ _ _ _ _ _ _ _ _ _ _ _ _ P)).
    apply toils_alone; [done|]. rewrite work_of_acting, Hun. unfold work_of. change (len (op_written (OpParse r))) with 0.
    rewrite (proj2 (Z.leb_le (next_parse_at (core a)) _)) by done.
    destruct Hpr as [Hlt|[Hle2 Hlt]]; [destruct (_ <=? _); lia|]. rewrite (proj2 (Z.leb_gt _ _)) by done. lia.
  - assert (cur = None) as ->.
    { pose proof (lk_current _ _ _ _ _ _ Hl) as Hcur. rewrite Hc in Hcur. by destruct cur. }
    destruct (linked_ready (core a) (answerable a) pa pb Hl Hne) as (s & t & Q & f & Hs & HQ & _ & S1 & S2 & S3 & S4 & S5 & _).
    rewrite Hd in Hs. injection Hs as <-. apply toils_sending; [done|done|done|].
    rewrite (unwritten_current _ _ _ S3), S4. unfold unwritten. rewrite Hc. cbn [op_written]. change (len (@nil Z)) with 0. lia.
  - destruct cur as [t|]; [|pose proof (lk_current _ _ _ _ _ _ Hl) as Hcur; by rewrite Hc in Hcur].
    destruct (linked_write (core a) (answerable a) t pa pb f fin n f' Hl Hc Hn Hadv) as [_ Hbytes].
    apply toils_sending; [done|done|done|]. apply len_pos in Heff. rewrite (unwritten_current _ _ _ Hc).
    unfold unwritten. cbn [set_current_frame current_frame op_written]. apply (f_equal len) in Hbytes. rewrite len_app in Hbytes.
    change (backlog (set_current_frame (core a) (Some (f', fin)))) with (backlog (core a)). lia.
  - destruct cur as [t|]; [|pose proof (lk_current _ _ _ _ _ _ Hl) as Hcur; by rewrite Hc in Hcur].
    destruct (linked_written (IoError := IoError) (core a) (answerable a) t pa pb f fin f' Hl Hc Hadv)
      as (s & pa' & msgs & Hs & _ & S1 & S2 & S3 & _ & _ & _ & Hle & _). rewrite Hd in Hs. injection Hs as -> <-.
    pose proof (lk_current _ _ _ _ _ _ Hl) as Hcur. rewrite Hc in Hcur. destruct Hcur as (_ & _ & Hne%len_pos & _).
    apply toils_sending; [done|done|done|]. rewrite (unwritten_current _ _ _ Hc). unfold unwritten. rewrite S3. cbn [op_written].
    change (len (@nil Z)) with 0. lia.
  - apply len_pos in Heff. cbn [allowed] in Hal. destruct Hal as [rest Hrest]. unfold toils, work. cbn [fst snd].
    rewrite work_of_acting. unfold work_of. cbn [beside core in_transit op_taken op_written]. rewrite Hrest, drop_app_length, len_app.
    cbn [set_buffer]. change (unwritten (set_buffer (core a) ?x)) with (unwritten (core a)).
    change (backlog (set_buffer (core a) ?x)) with (backlog (core a)). cbn [set_buffer buffer next_parse_at]. rewrite len_app.
    change (len (@nil Z)) with 0. destruct (_ <=? len (buffer (core a)) + _), (_ <=? len (buffer (core a))); lia.
  - done.
  - pose proof (lk_pending _ _ _ _ _ _ Hl). congruence.
Qed.

(** ** The work is bounded *)

Lemma backlog_nonneg m a b pa pb la lb : joined m a b pa pb la lb → 0 ≤ backlog (core a).
Proof.
  intros [_ [cur Hl] _ _ _ _ _ _ _]. unfold backlog. apply Z.add_nonneg_nonneg; apply total_nonneg.
  - rewrite (lk_ready _ _ _ _ _ _ Hl). apply Forall_map, Forall_forall. intros t Ht.
    destruct (queued_sent _ _ _ _ _ _ t Hl Ht) as [[[_ Hp] _] _]. unfold iter_weight. cbn [iter fi_msg bytes_processed].
    rewrite message_of_payload. fold (t_payload t). pose proof (len_nonneg (t_payload t)). lia.
  - apply Forall_forall. intros item _. unfold item_weight. pose proof (len_nonneg (default [] (into_payload item))). lia.
Qed.
Lemma work_of_nonneg m a b pa pb la lb : joined m a b pa pb la lb → 0 ≤ work_of a.
Proof.
  intros Hj. pose proof (backlog_nonneg _ _ _ _ _ _ _ Hj). unfold work_of.
  pose proof (len_nonneg (unwritten (core a))). pose proof (len_nonneg (in_transit a)). pose proof (len_nonneg (buffer (core a))).
  destruct (_ <=? _); lia.
Qed.

Definition paired m (ab : Side (Permit := Permit) (BM := BM) * Side (Permit := Permit) (BM := BM)) : Prop := ∃ pa pb la lb, joined m ab.1 ab.2 pa pb la lb.
Lemma settles_paired m x y : paired m x → settles x y → paired m y ∧ 0 ≤ work y < work x.
Proof.
  intros (pa & pb & la & lb & Hj) Hs. assert (paired m y ∧ work y < work x) as [Hy Hlt].
  { destruct Hs as [a b op c' Hstep Hal Heff|a b op c' Hstep Hal Heff]; cbn [fst snd] in Hj.
    - split; [|by eapply effective_toils].
      destruct (joined_step m a b pa pb la lb op c' Hj Hstep Hal) as (pa' & pb' & la' & lb' & Hj' & _). by exists pa', pb', la', lb'.
    - apply joined_sym in Hj. split.
      + destruct (joined_step m b a pb pa lb la op c' Hj Hstep Hal) as (pa' & pb' & la' & lb' & Hj' & _).
        exists pb', pa', lb', la'. by apply joined_sym.
      + pose proof (effective_toils m b a pb pa lb la op c' Hj Hstep Hal Heff) as Hlt. unfold toils, work in *. cbn [fst snd] in *. lia. }
  split; [done|]. split; [|done]. destruct Hy as (pa' & pb' & la' & lb' & Hj'). unfold work.
  pose proof (work_of_nonneg _ _ _ _ _ _ _ Hj'). pose proof (work_of_nonneg _ _ _ _ _ _ _ (joined_sym _ _ _ _ _ _ _ Hj')). lia.
Qed.
Lemma settles_steps m n x y : paired m x → nsteps settles n x y → Z.of_nat n ≤ work x.
Proof.
  intros Hp Hn. assert (0 ≤ work x) as Hx.
  { destruct Hp as (pa & pb & la & lb & Hj). pose proof (work_of_nonneg _ _ _ _ _ _ _ Hj).
    pose proof (work_of_nonneg _ _ _ _ _ _ _ (joined_sym _ _ _ _ _ _ _ Hj)). unfold work. lia. }
  induction Hn as [x|n x y z Hs _ IH]; [lia|]. destruct (settles_paired m x y Hp Hs) as [Hy [H1 H2]]. specialize (IH Hy H1). lia.
Qed.

(** ** Nothing gets stuck *)

Lemma writer_goes_on m a b pa pb la lb : joined m a b pa pb la lb →
  current_frame (core a) ≠ None ∨ ready_queue (core a) ≠ [] → red settles (a, b).
Proof.
  intros [_ [cur Hl] _ _ _ _ _ _ _] Hne. destruct (current_frame (core a)) as [[f fin]|] eqn:Hc.
  - destruct cur as [t|]; [|pose proof (lk_current _ _ _ _ _ _ Hl) as Hcur; by rewrite Hc in Hcur].
    destruct (iw_current _ (lk_wf _ _ _ _ _ _ Hl) f fin Hc) as [Hf _]. pose proof (len_nonneg (frame_bytes f)).
    destruct (OutgoingFrame_advance_spec f (len (frame_bytes f)) Hf) as (f' & Hadv & _); [lia|].
    destruct (linked_written (IoError := IoError) (core a) (answerable a) t pa pb f fin f' Hl Hc Hadv) as (s & _ & _ & Hs & _).
    eexists. eapply (settles_here a b (OpWritten (frame_bytes f) None)); [by econstructor|done|done].
  - destruct Hne as [|Hne]; [done|]. assert (cur = None) as ->.
    { pose proof (lk_current _ _ _ _ _ _ Hl) as Hcur. rewrite Hc in Hcur. by destruct cur. }
    destruct (linked_ready (core a) (answerable a) pa pb Hl Hne) as (s & _ & _ & _ & Hs & _).
    eexists. by apply (settles_here a b OpReady s); [constructor|..].
Qed.
Lemma reader_goes_on m a b pa pb la lb : joined m a b pa pb la lb → current_frame (core a) = None →
  in_transit a ≠ [] ∨ buffer (core b) ≠ [] → red settles (a, b).
Proof.
  intros [[Hma Hmb] _ [cur Hl] _ Hforth _ Hla _ [Hnext _]] Hc Hne. destruct (decide (in_transit a = [])) as [Ht|Ht].
  - destruct Hne as [|Hne]; [done|]. unfold unwritten in Hforth. rewrite Ht, Hc, app_nil_r in Hforth.
    destruct (linked_parse (IoError := IoError) (core b) (answerable b) cur pa pb la [] Hl)
      as (r & s & _ & _ & _ & _ & Hd & _); [by rewrite app_nil_r, Hmb|done|].
    eexists. apply (settles_there a b (OpParse r) s); [constructor; [apply Hl|done]|done|]. cbn [effective].
    etransitivity; [exact Hnext|]. unfold awaited. destruct (flying (p_out pa)) as [|t F]; [done|]. rewrite Hforth.
    cbn [map]. rewrite len_concat_cons. pose proof (len_nonneg (concat (map (piece m) F))). lia.
  - eexists. apply (settles_there a b (OpRead (in_transit a)) (set_buffer (core b) (buffer (core b) ++ in_transit a))); [apply step_read|cbn [allowed]; reflexivity|done].
Qed.
Lemma stuck_drained m a b pa pb la lb : joined m a b pa pb la lb → nf settles (a, b) → drained a b.
Proof.
  intros Hj Hnf. assert (current_frame (core a) = None ∧ ready_queue (core a) = []) as [Hc Hr].
  { split.
    - destruct (current_frame (core a)) eqn:Hc; [|done]. destruct Hnf. eapply writer_goes_on; [exact Hj|]. left. by rewrite Hc.
    - destruct (ready_queue (core a)) eqn:Hr; [done|]. destruct Hnf. eapply writer_goes_on; [exact Hj|]. right. by rewrite Hr. }
  split; [done|]. split; [done|]. split.
  - destruct (in_transit a) eqn:Ht; [done|]. destruct Hnf. eapply reader_goes_on; [exact Hj|done|]. left. by rewrite Ht.
  - destruct (buffer (core b)) eqn:Hb; [done|]. destruct Hnf. eapply reader_goes_on; [exact Hj|done|]. right. by rewrite Hb.
Qed.
Lemma settles_sym a b x : settles (b, a) x → settles (a, b) (x.2, x.1).
Proof. inversion 1; subst; by constructor. Qed.

(** Settling is part of a run. *)
Lemma settles_run a0 b0 x y : rtc settles x y → ∀ tr tr', cores_run (IoError := IoError) a0 b0 tr tr' x.1 x.2 →
  ∃ tr1 tr1', cores_run (IoError := IoError) a0 b0 (tr ++ tr1) (tr' ++ tr1') y.1 y.2.
Proof.
  induction 1 as [x|x y z Hs _ IH]; intros tr tr' Hrun; [by exists [], []; rewrite !app_nil_r|].
  assert (∃ tr1 tr1', cores_run (IoError := IoError) a0 b0 (tr ++ tr1) (tr' ++ tr1') y.1 y.2) as (tr1 & tr1' & Hrun1).
  { destruct Hs as [a b op c' Hstep Hal _|a b op c' Hstep Hal _]; do 2 eexists; [by apply cores_here|by apply cores_there]. }
  destruct (IH _ _ Hrun1) as (tr2 & tr2' & Hrun2). exists (tr1 ++ tr2), (tr1' ++ tr2'). by rewrite !app_assoc.
Qed.
End settle.

(** C11: two cores come to rest, with everything delivered. Take any state that two connected cores
    with the same protocol configuration reach by any interleaving of their operations, where the
    applications have kept to what they may queue: items for channels there are, with payloads
    within the limits, and no errors; answers only to requests they were told of, one each; and the
    cancellation of a request at most once while it is outstanding, and not while a message with its
    channel and id is being sent in several frames. From there on let the applications queue nothing
    more. Then the event loops can take only so many steps that get any work done - writing or
    reading at least a byte, cutting or finishing a frame, parsing what was waited for - namely
    [work], a count of the bytes left; and when no such step is possible, in whatever order they
    were taken, nothing is left to send or to read, and every message ever sent has been reported,
    save the cancellations that came too late. Items still in a wait queue are not messages sent. *)
Theorem cores_settle {Permit IoError BM S Snd} `{BiMapLaws IoId (ChannelId * Id) BM} `{Semaphore S Permit}
    (ba bb : IoCoreBuilder) (qa qb : Snd) (tr tr' : list Event) (a b : Side (Permit := Permit) (BM := BM)) :
  let p := protocol ba in let m := pb_max_frame_size p in
  let run := cores_run (IoError := IoError) (initial_side (S := S) ba qa) (initial_side (S := S) bb qb) in
  protocol bb = p → Forall ChannelConfiguration_wf (pb_channel_config p) → len (pb_channel_config p) ≤ 256 → MaxFrameSize_wf m →
  run tr tr' a b →
  (∀ n x, nsteps (settles (IoError := IoError)) n (a, b) x → Z.of_nat n ≤ work (a, b)) ∧
  (∀ a' b', rtc (settles (IoError := IoError)) (a, b) (a', b') → nf (settles (IoError := IoError)) (a', b') →
     drained a' b' ∧ drained b' a' ∧
     ∃ tr1 tr1', run (tr ++ tr1) (tr' ++ tr1') a' b' ∧ transport m [] (tr ++ tr1) [] ∧ transport m [] (tr' ++ tr1') []).
Proof.
  intros p m run Hp Hc Hn Hm Hrun. pose proof (initial_joined (S := S) ba bb qa qb Hp Hc Hn Hm) as Hj0.
  destruct (joined_run _ _ _ _ _ _ _ _ _ Hj0 Hrun) as (pa & pb & la & lb & Hj & _ & _). split.
  - intros n x. eapply (settles_steps m). by exists pa, pb, la, lb.
  - intros a' b' Hs Hnf. destruct (settles_run _ _ _ _ Hs tr tr' Hrun) as (tr1 & tr1' & Hrun1).
    destruct (joined_run _ _ _ _ _ _ _ _ _ Hj0 Hrun1) as (pa' & pb' & la' & lb' & Hj' & Ht & Ht'). cbn [fst snd] in *.
    pose proof (joined_sym _ _ _ _ _ _ _ Hj') as Hj''. pose proof (stuck_drained _ _ _ _ _ _ _ Hj' Hnf) as Hd.
    assert (drained b' a') as Hd'.
    { eapply stuck_drained; [exact Hj''|]. intros [x Hx]. apply Hnf. eexists. by apply settles_sym. }
    pose proof (joined_drained _ _ _ _ _ _ _ Hj' Hd) as ->. pose proof (joined_drained _ _ _ _ _ _ _ Hj'' Hd') as ->.
    split; [done|]. split; [done|]. by exists tr1, tr1'.
Qed.
(** The requests of the demonstration are queued, and nothing is sent yet. *)
Definition demo_queued := perform_all (IoError := ()) (take 3 demo_turns) [] [] sample_side sample_side.
Lemma cores_settle_witness :
  match demo_queued with
  | Some (tr, tr', a, b) =>
      reported_of tr = [] ∧ length (sent_of tr) = 2%nat ∧
      (∀ n x, nsteps (settles (IoError := ())) n (a, b) x → Z.of_nat n ≤ work (a, b)) ∧
      (∀ a' b', rtc (settles (IoError := ())) (a, b) (a', b') → nf (settles (IoError := ())) (a', b') →
         drained a' b' ∧ drained b' a' ∧
         ∃ tr1 tr1', cores_run (IoError := ()) sample_side sample_side (tr ++ tr1) (tr' ++ tr1') a' b' ∧
           transport (mkMaxFrameSize 10) [] (tr ++ tr1) [] ∧ transport (mkMaxFrameSize 10) [] (tr' ++ tr1') [])
  | None => False
  end.
Proof.
  assert (match demo_queued with Some (tr, _, _, _) => reported_of tr = [] ∧ length (sent_of tr) = 2%nat | None => False end) as Htr
    by (vm_compute; by split).
  destruct demo_queued as [[[[tr tr'] a] b]|] eqn:Hrun; [|done]. destruct Htr as [Hrep Hsent]. split; [done|]. split; [done|].
  apply (perform_all_run sample_side sample_side) in Hrun; [|constructor].
  by apply (cores_settle (IoError := ()) (S := Z) sample_io_builder sample_io_builder () () tr tr' a b eq_refl demo_configured).
Defined.
