(* ===== verification/Calls.v ===== *)
(** * Calls

    What an application sees of its requests, as a specification of its own: a call is made,
    sent under an id, told to the other application, answered there, and returned with that
    answer.  Nothing here mentions frames, queues or the protocol; [Dialogue] shows that two
    cores do this. *)
From S2P Require Import Prelude Lib Varint Header FrameSize OutgoingMessage WireFormat Multiframe Io.
From S2P Require Import Peers.
From stdpp Require Import options.

(** ** The specification *)

(** An answer: a response, or the refusal to give one. *)
Definition Answer := option (option bytes).

(** How far a call has come. *)
Inductive Stage :=
  | Called (ch : ChannelId) (payload : option bytes)
  | Numbered (ch : ChannelId) (id : Id) (payload : option bytes)
  | Told (ch : ChannelId) (id : Id)
  | Answered (ch : ChannelId) (id : Id) (answer : Answer)
  | Finished (answer : Answer).
(** The id a call holds. *)
Definition stage_key (st : Stage) : option (ChannelId * Id) :=
  match st with
  | Numbered ch id _ | Told ch id | Answered ch id _ => Some (ch, id)
  | Called _ _ | Finished _ => None
  end.

(** [CeLost]: an answer comes in for which there is no call. *)
Inductive CallEvent :=
  | CeCall (io : IoId) (ch : ChannelId) (payload : option bytes)
  | CeSend (ch : ChannelId) (id : Id) (payload : option bytes)
  | CeTell (ch : ChannelId) (id : Id) (payload : option bytes)
  | CeAnswer (ch : ChannelId) (id : Id) (answer : Answer)
  | CeReturn (io : IoId) (answer : Answer)
  | CeLost.

Implicit Types (s : gmap IoId Stage) (io : IoId) (log : list CallEvent) (k : ChannelId * Id).

Inductive call_step : gmap IoId Stage → CallEvent → gmap IoId Stage → Prop :=
  | call_made s io ch pl : s !! io = None → call_step s (CeCall io ch pl) (<[io := Called ch pl]> s)
  | call_sent s io ch id pl : s !! io = Some (Called ch pl) →
      (∀ io' st, s !! io' = Some st → stage_key st ≠ Some (ch, id)) →
      call_step s (CeSend ch id pl) (<[io := Numbered ch id pl]> s)
  | call_told s io ch id pl : s !! io = Some (Numbered ch id pl) →
      call_step s (CeTell ch id pl) (<[io := Told ch id]> s)
  | call_answered s io ch id answer : s !! io = Some (Told ch id) →
      call_step s (CeAnswer ch id answer) (<[io := Answered ch id answer]> s)
  | call_returned s io ch id answer : s !! io = Some (Answered ch id answer) →
      call_step s (CeReturn io answer) (<[io := Finished answer]> s).
Inductive call_run : gmap IoId Stage → list CallEvent → gmap IoId Stage → Prop :=
  | call_run_none s : call_run s [] s
  | call_run_step s e s1 log s' : call_step s e s1 → call_run s1 log s' → call_run s (e :: log) s'.

Lemma call_run_app s log s1 log' s' : call_run s log s1 → call_run s1 log' s' → call_run s (log ++ log') s'.
Proof. induction 1; [done|]. intros. econstructor; eauto. Qed.
Lemma call_run_one s e s' : call_step s e s' → call_run s [e] s'.
Proof. intros. econstructor; [done|constructor]. Qed.
Lemma call_run_snoc s log s1 e s' : call_run s log s1 → call_step s1 e s' → call_run s (log ++ [e]) s'.
Proof. intros Hr Hs. eapply call_run_app; [exact Hr|]. by apply call_run_one. Qed.
Lemma call_run_snoc_inv s log e s' : call_run s (log ++ [e]) s' → ∃ s1, call_run s log s1 ∧ call_step s1 e s'.
Proof.
  revert s. induction log as [|e0 log IH]; intros s Hr; cbn [app] in Hr; inversion Hr as [|? ? s1 ? ? Hs Hr1]; subst.
  - inversion Hr1; subst. exists s. split; [constructor|done].
  - destruct (IH _ Hr1) as (s2 & Hr2 & He). exists s2. split; [by econstructor|done].
Qed.

(** ** What a log then says *)

(** How a call got where it is: the events of its own, in this order. *)
Definition history (io : IoId) (st : Stage) (l : list CallEvent) : Prop :=
  match st with
  | Called ch pl => l = [CeCall io ch pl]
  | Numbered ch id pl => l = [CeCall io ch pl; CeSend ch id pl]
  | Told ch id => ∃ pl, l = [CeCall io ch pl; CeSend ch id pl; CeTell ch id pl]
  | Answered ch id answer => ∃ pl, l = [CeCall io ch pl; CeSend ch id pl; CeTell ch id pl; CeAnswer ch id answer]
  | Finished answer => ∃ ch id pl,
      l = [CeCall io ch pl; CeSend ch id pl; CeTell ch id pl; CeAnswer ch id answer; CeReturn io answer]
  end.
Lemma call_step_lookup s e s' io : call_step s e s' → s' !! io = s !! io ∨
  ∃ st, s' !! io = Some st ∧ ∀ l, (∀ st0, s !! io = Some st0 → history io st0 l) → (s !! io = None → l = []) → history io st (l ++ [e]).
Proof.
  intros Hs. inversion Hs as [? io0 ch pl Hn|? io0 ch id pl Hn _|? io0 ch id pl Hn|? io0 ch id an Hn|? io0 ch id an Hn]; subst;
    destruct (decide (io = io0)) as [->|Hne]; try (left; by rewrite lookup_insert_ne by done); right; rewrite lookup_insert_eq;
    eexists; (split; [reflexivity|]); intros l Hl Hnone.
  - by rewrite Hnone.
  - rewrite (Hl _ Hn). done.
  - rewrite (Hl _ Hn). by eexists.
  - destruct (Hl _ Hn) as [pl ->]. by eexists.
  - destruct (Hl _ Hn) as [pl ->]. by do 3 eexists.
Qed.
Lemma call_run_history log s io st : call_run ∅ log s → s !! io = Some st → ∃ l, history io st l ∧ l `sublist_of` log.
Proof.
  revert s st. induction log as [|e log IH] using rev_ind; intros s st Hr Hst.
  - inversion Hr; subst. by rewrite lookup_empty in Hst.
  - apply call_run_snoc_inv in Hr as (s1 & Hr & Hs). destruct (call_step_lookup _ _ _ io Hs) as [Heq|(st' & Hst' & Hh)].
    + rewrite Heq in Hst. destruct (IH _ _ Hr Hst) as (l & Hl & Hsub). exists l. split; [done|]. by apply sublist_inserts_r.
    + assert (st' = st) as -> by congruence. destruct (s1 !! io) as [st0|] eqn:H0.
      * destruct (IH _ _ Hr H0) as (l & Hl & Hsub). exists (l ++ [e]). split; [apply Hh; [by intros ? [= <-]|done]|by apply sublist_app].
      * exists [e]. split; [apply (Hh []); done|]. by apply sublist_inserts_l.
Qed.

(** A call that is in the log has a stage, and a finished call stays as it is. *)
Lemma call_step_grows s e s' io st : call_step s e s' → s !! io = Some st → is_Some (s' !! io).
Proof.
  intros Hs Hst. inversion Hs as [? io0|? io0|? io0|? io0|? io0]; subst;
    (destruct (decide (io = io0)) as [->|Hne]; [rewrite lookup_insert_eq|rewrite lookup_insert_ne by done]); by eexists.
Qed.
Lemma call_step_finished s e s' io an : call_step s e s' → s !! io = Some (Finished an) →
  s' !! io = Some (Finished an) ∧ ∀ an', e ≠ CeReturn io an'.
Proof.
  intros Hs Hst. inversion Hs as [? io0|? io0|? io0|? io0|? io0]; subst;
    (destruct (decide (io = io0)) as [->|Hne]; [congruence|rewrite lookup_insert_ne by done]); split; congruence.
Qed.
Lemma call_run_called log s io ch pl : call_run ∅ log s → CeCall io ch pl ∈ log → is_Some (s !! io).
Proof.
  revert s. induction log as [|e log IH] using rev_ind; intros s Hr Hin; [by apply elem_of_nil in Hin|].
  apply call_run_snoc_inv in Hr as (s1 & Hr & Hs). apply elem_of_app in Hin as [Hin|Hin].
  - destruct (IH _ Hr Hin) as [st Hst]. by eapply call_step_grows.
  - apply list_elem_of_singleton in Hin as <-. inversion Hs; subst. rewrite lookup_insert_eq. by eexists.
Qed.
Lemma call_run_fresh log s io : call_run ∅ log s → (∀ ch pl, CeCall io ch pl ∉ log) → s !! io = None.
Proof.
  intros Hr Hno. destruct (s !! io) as [st|] eqn:Hst; [|done]. destruct (call_run_history _ _ _ _ Hr Hst) as (l & Hl & Hsub).
  assert (∃ ch pl, CeCall io ch pl ∈ l) as (ch & pl & Hin).
  { destruct st; cbn [history] in Hl; naive_solver (eauto using list_elem_of_here). }
  destruct (Hno ch pl). by eapply elem_of_sublist.
Qed.
Lemma call_run_returned log s io an : call_run ∅ log s → CeReturn io an ∈ log → s !! io = Some (Finished an).
Proof.
  revert s. induction log as [|e log IH] using rev_ind; intros s Hr Hin; [by apply elem_of_nil in Hin|].
  apply call_run_snoc_inv in Hr as (s1 & Hr & Hs). apply elem_of_app in Hin as [Hin|Hin].
  - eapply call_step_finished; [exact Hs|]. by apply IH.
  - apply list_elem_of_singleton in Hin as <-. inversion Hs; subst. by rewrite lookup_insert_eq.
Qed.
Lemma call_run_finished s log s' io an : call_run s log s' → s !! io = Some (Finished an) → ∀ an', CeReturn io an' ∉ log.
Proof.
  induction 1 as [|s e s1 log s' Hs _ IH]; intros Hst an' Hin; [by apply elem_of_nil in Hin|].
  destruct (call_step_finished _ _ _ _ _ Hs Hst) as [Hst' Hne]. apply elem_of_cons in Hin as [<-|Hin]; [by eapply Hne|by eapply IH].
Qed.
Lemma call_run_app_inv s log log' s' : call_run s (log ++ log') s' → ∃ s1, call_run s log s1 ∧ call_run s1 log' s'.
Proof.
  revert s. induction log as [|e log IH]; intros s Hr; cbn [app] in Hr; [exists s; split; [constructor|done]|].
  inversion Hr as [|? ? s1 ? ? Hs Hr1]; subst. destruct (IH _ Hr1) as (s2 & H1 & H2). exists s2. split; [by econstructor|done].
Qed.

(** No two calls hold the same id. *)
Definition keyed s : Prop := ∀ io io' st st' k, s !! io = Some st → s !! io' = Some st' →
  stage_key st = Some k → stage_key st' = Some k → io = io'.
Lemma keyed_insert s io0 new : keyed s →
  (∀ io st k, io ≠ io0 → s !! io = Some st → stage_key st = Some k → stage_key new ≠ Some k) → keyed (<[io0 := new]> s).
Proof.
  intros Hs Hnew io io' st st' k Hst Hst' Hk Hk'.
  destruct (decide (io = io0)) as [->|Hne], (decide (io' = io0)) as [->|Hne']; [done|..];
    rewrite ?lookup_insert_eq, ?lookup_insert_ne in * by done.
  - injection Hst as <-. by destruct (Hnew io' st' k).
  - injection Hst' as <-. by destruct (Hnew io st k).
  - by eapply Hs.
Qed.
Lemma call_step_keyed s e s' : call_step s e s' → keyed s → keyed s'.
Proof.
  intros Hs Hk. inversion Hs as [? io0 ch pl Hn|? io0 ch id pl Hn Hfree|? io0 ch id pl Hn|? io0 ch id an Hn|? io0 ch id an Hn]; subst;
    (apply keyed_insert; [done|]); intros io st k Hne Hst Hkey; try done; cbn [stage_key]; intros [= <-];
    [by destruct (Hfree _ _ Hst)|by destruct Hne; eapply Hk..].
Qed.
Lemma call_run_keyed log s : call_run ∅ log s → keyed s.
Proof.
  revert s. induction log as [|e log IH] using rev_ind; intros s Hr.
  - inversion Hr; subst. intros io io' st st' k Hst. by rewrite lookup_empty in Hst.
  - apply call_run_snoc_inv in Hr as (s1 & Hr & Hs). by eapply call_step_keyed, IH.
Qed.
(** A call that was sent was made so. *)
Lemma call_run_numbered log s io ch id pl : call_run ∅ log s → s !! io = Some (Numbered ch id pl) → CeCall io ch pl ∈ log.
Proof.
  intros Hr Hst. destruct (call_run_history _ _ _ _ Hr Hst) as (l & -> & Hsub). eapply elem_of_sublist; [|exact Hsub]. by left.
Qed.

(** A return is the only one of its call, which was made, sent, told and given this answer before. *)
Lemma return_accounted log s io an l1 l2 : call_run ∅ log s → log = l1 ++ CeReturn io an :: l2 →
  (∃ ch id pl, [CeCall io ch pl; CeSend ch id pl; CeTell ch id pl; CeAnswer ch id an] `sublist_of` l1) ∧
  ∀ an', CeReturn io an' ∉ l1 ++ l2.
Proof.
  intros Hr ->. apply call_run_app_inv in Hr as (s1 & Hr1 & Hr2). inversion Hr2 as [|? ? s2 ? ? Hs Hr3]; subst.
  inversion Hs as [| | | |? ? ch id ? Hst]; subst. split.
  - destruct (call_run_history _ _ _ _ Hr1 Hst) as (l & [pl ->] & Hsub). by exists ch, id, pl.
  - intros an' [Hin|Hin]%elem_of_app.
    + pose proof (call_run_returned _ _ _ _ Hr1 Hin). congruence.
    + eapply (call_run_finished _ _ _ io an Hr3); [by rewrite lookup_insert_eq|exact Hin].
Qed.
(** A call is made once. *)
Lemma call_run_once log s io ch pl ch' pl' : call_run ∅ log s → CeCall io ch pl ∈ log → CeCall io ch' pl' ∈ log → ch' = ch ∧ pl' = pl.
Proof.
  revert s. induction log as [|e log IH] using rev_ind; intros s Hr Hin Hin'; [by apply elem_of_nil in Hin|].
  apply call_run_snoc_inv in Hr as (s1 & Hr & Hs).
  assert (∀ ch0 pl0, e = CeCall io ch0 pl0 → ∀ ch1 pl1, CeCall io ch1 pl1 ∉ log) as Hno.
  { intros ch0 pl0 -> ch1 pl1 Hin1. destruct (call_run_called _ _ _ _ _ Hr Hin1) as [st Hst]. inversion Hs; congruence. }
  rewrite !elem_of_app, !list_elem_of_singleton in Hin, Hin'. destruct Hin as [Hin|Hin], Hin' as [Hin'|Hin']; [by eapply IH|..].
  - by apply (Hno ch' pl' (eq_sym Hin')) in Hin.
  - by apply (Hno ch pl (eq_sym Hin)) in Hin'.
  - split; congruence.
Qed.
(** The channel of a call not finished. *)
Definition stage_channel (st : Stage) : option ChannelId :=
  match st with
  | Called ch _ | Numbered ch _ _ | Told ch _ | Answered ch _ _ => Some ch
  | Finished _ => None
  end.
Lemma call_run_channel log s io st ch pl : call_run ∅ log s → s !! io = Some st → CeCall io ch pl ∈ log →
  (∃ answer, st = Finished answer ∧ CeReturn io answer ∈ log) ∨ stage_channel st = Some ch.
Proof.
  intros Hr Hst Hin. destruct (call_run_history _ _ _ _ Hr Hst) as (l & Hl & Hsub).
  assert (∀ e, e ∈ l → e ∈ log) as Hel by (intros e He; by eapply elem_of_sublist).
  destruct st as [ch' pl'|ch' id' pl'|ch' id'|ch' id' an|an]; cbn [history stage_channel] in *.
  - right. subst l. destruct (call_run_once _ _ _ _ _ _ _ Hr Hin (Hel (CeCall io ch' pl') ltac:(by left))) as [-> _]. done.
  - right. subst l. destruct (call_run_once _ _ _ _ _ _ _ Hr Hin (Hel (CeCall io ch' pl') ltac:(by left))) as [-> _]. done.
  - right. destruct Hl as [pl' ->]. destruct (call_run_once _ _ _ _ _ _ _ Hr Hin (Hel (CeCall io ch' pl') ltac:(by left))) as [-> _]. done.
  - right. destruct Hl as [pl' ->]. destruct (call_run_once _ _ _ _ _ _ _ Hr Hin (Hel (CeCall io ch' pl') ltac:(by left))) as [-> _]. done.
  - left. destruct Hl as (ch' & id' & pl' & ->). exists an. split; [done|]. apply Hel. do 4 right. by left.
Qed.
Lemma call_run_not_lost log s s' : call_run s log s' → CeLost ∉ log.
Proof. induction 1 as [|s e s1 log s' Hs _ IH]; [apply not_elem_of_nil|]. apply not_elem_of_cons. split; [|done]. by inversion Hs. Qed.
