(* ===== verification/Dialogue.v ===== *)
(** * Two cores and the calls of their applications

    In every run of two cores, in each direction, the calls the applications make, are told of,
    answer and get returned are a run of the specification of [Calls].  The stage of a call is
    where it is: in the wait queue of its core, on the way, with the other application, in the
    other core's wait queue, on the way back. *)
From stdpp Require Import functions strings.
From S2P Require Import Prelude Lib Varint Header FrameSize OutgoingMessage WireFormat ByteIter Multiframe.
From S2P Require Import MultiframeSpec Protocol ProtocolInv ProcessIncoming ProtocolOps Answers Io Instances IoSafe IoSpec CoreOps.
From S2P Require Import Delivery Peers Transfer Flow Duplex Stream Link Cores Waiting Calls.
From stdpp Require Import options.

Lemma omap_perm {A B} (g : A → option B) l k : l ≡ₚ k → omap g l ≡ₚ omap g k.
Proof. by intros ->. Qed.

(** ** What messages and items hold *)

Definition request_key (msg : Msg) : option (ChannelId * Id) := match msg with MReq ch id _ => Some (ch, id) | _ => None end.
Definition answer_in (msg : Msg) : option (ChannelId * Id * Answer) :=
  match msg with
  | MResp ch id payload => Some (ch, id, Some payload)
  | MCancelResp ch id => Some (ch, id, None)
  | _ => None
  end.
Definition request_of {Permit} (item : QueuedItem Permit) : option (IoId * (ChannelId * option bytes)) :=
  match item with QRequest ch io payload _ => Some (io, (ch, payload)) | _ => None end.
Definition answer_given {Permit} (item : QueuedItem Permit) : option (ChannelId * Id * Answer) :=
  match item with
  | QResponse ch id payload => Some (ch, id, Some payload)
  | QResponseCancellation ch id => Some (ch, id, None)
  | _ => None
  end.
Definition send_event (msg : Msg) : option CallEvent := match msg with MReq ch id payload => Some (CeSend ch id payload) | _ => None end.

Lemma request_key_elem (l : list Msg) ch id : (ch, id) ∈ omap request_key l ↔ ∃ pl, MReq ch id pl ∈ l.
Proof.
  rewrite list_elem_of_omap. split.
  - intros (msg & Hin & Hk). destruct msg; try done. injection Hk as -> ->. by eexists.
  - intros [pl Hin]. by eexists.
Qed.

(** ** Two parties: the messages on the way hold no id twice *)

Lemma nodup_keys (l : list Msg) : (∀ ch, NoDup (requests_in (on ch l))) → NoDup (omap request_key l).
Proof.
  induction l as [|msg l IH]; intros Hl; [constructor|].
  assert (NoDup (omap request_key l)) as Hl'.
  { apply IH. intros ch. specialize (Hl ch). rewrite on_cons in Hl. case_decide; [|done].
    unfold requests_in in *. cbn [omap list_omap] in Hl. destruct msg; try done. by apply NoDup_cons in Hl as [_ ?]. }
  cbn [omap list_omap]. destruct msg as [ch id pl| | |]; try done. cbn [request_key]. constructor; [|done].
  rewrite request_key_elem. intros [pl' Hin]. specialize (Hl ch). rewrite on_cons, decide_True in Hl by done.
  apply NoDup_cons in Hl as [Hl _]. apply Hl. apply requests_in_elem. exists ch, pl'. by apply on_elem.
Qed.
Lemma nodup_answers (l : list Msg) : (∀ ch, NoDup (answers_in (on ch l))) → NoDup (omap answer_in l).*1.
Proof.
  induction l as [|msg l IH]; intros Hl; [constructor|].
  assert (NoDup (omap answer_in l).*1) as Hl'.
  { apply IH. intros ch. specialize (Hl ch). rewrite on_cons in Hl. case_decide; [|done].
    unfold answers_in in *. cbn [omap list_omap] in Hl. destruct msg; try done; by apply NoDup_cons in Hl as [_ ?]. }
  assert (∀ ch id x, is_answer x = true → msg_channel x = ch → msg_id x = id → msg = x → (ch, id) ∉ (omap answer_in l).*1) as Hno.
  { intros ch id x Hx Hc Hid -> Hin. apply list_elem_of_fmap in Hin as ([[ch' id'] an] & [= <- <-] & Hin).
    apply list_elem_of_omap in Hin as (y & Hy & Hk). specialize (Hl ch). rewrite on_cons, decide_True in Hl by done.
    assert (id ∈ answers_in (on ch l)) as Hin'.
    { apply answers_in_elem. exists y. rewrite on_elem. destruct y; naive_solver. }
    unfold answers_in in *. cbn [omap list_omap] in Hl. destruct x; try done; cbn in Hid; subst; apply NoDup_cons in Hl as [Hl _]; done. }
  cbn [omap list_omap]. destruct msg as [ch id pl|ch id pl|ch id|ch id]; try done; cbn [answer_in fmap list_fmap fst]; (constructor; [|done]).
  - by eapply (Hno ch id (MResp ch id pl)).
  - by eapply (Hno ch id (MCancelResp ch id)).
Qed.

Lemma booked_requests_in ch f : requests_in (on ch (booked f)) = requests_in (on ch (not_begun f)).
Proof. unfold booked. rewrite on_app2, requests_in_app2. fold (answers (map t_msg (opened f))). by rewrite answers_requests. Qed.
Lemma under_way_answers f l ch : under_way f l → answers_in (on ch l) ≡ₚ answers_in (on ch (booked f)).
Proof.
  intros (l1 & -> & Hl). rewrite answers_in_booked. apply answers_in_perm, on_perm. by rewrite Hl.
Qed.
Lemma opened_single m f ch : flow_ok m f → (length (on ch (map t_msg (opened f))) ≤ 1)%nat.
Proof.
  intros Hf. pose proof (fo_channels _ _ Hf) as Hnd. induction (opened f) as [|t O IH]; [cbn; lia|]. cbn [map] in *.
  apply NoDup_cons in Hnd as [Hno Hnd]. specialize (IH Hnd). rewrite on_cons. case_decide as Hc; [|done].
  assert (on ch (map t_msg O) = []) as ->; [|cbn; lia]. destruct (on ch (map t_msg O)) as [|x l] eqn:Hon; [done|].
  assert (x ∈ on ch (map t_msg O)) as Hin by (rewrite Hon; by left). apply on_elem in Hin as [Hx Hin].
  apply list_elem_of_fmap in Hin as (t' & -> & Hin). destruct Hno. apply list_elem_of_fmap. exists t'. split; [|done].
  unfold t_channel. congruence.
Qed.

Section parties.
Context (pa pb : Party) (la lb : list Msg) (Hdx : duplex pa pb).
Context (Hla : under_way (p_out pa) la) (Hlb : under_way (p_out pb) lb).

Lemma party_lane ch ca : ChannelId_wf ch → chan_at (p_proto pa) ch = Some ca →
  ∃ cb, lane ch ca cb (p_out pa) (on ch (booked (p_out pb))) (p_cancelled pa ch) (p_owed pb ch).
Proof using Hdx.
  intros Hch Hca. destruct (same_config_chan _ _ _ _ (dx_same _ _ Hdx) Hca) as (cb & Hcb & _). exists cb.
  by destruct (dx_lanes _ _ Hdx ch ca cb Hch Hca Hcb).
Qed.
Lemma request_place ch id pl : MReq ch id pl ∈ la →
  ∃ ca, ChannelId_wf ch ∧ chan_at (p_proto pa) ch = Some ca ∧
    (id ∈ requests_in (on ch (booked (p_out pa))) ∨ open_request (p_out pa) ch id).
Proof using Hdx Hla.
  intros Hin. pose proof (under_way_all _ _ _ Hla Hin) as Hall. destruct (all_under_way_sent _ _ _ Hdx Hall) as (ca & Hca & Hch & _).
  exists ca. split; [done|]. split; [done|]. apply elem_of_app in Hall as [Hall|Hall].
  - right. apply list_elem_of_fmap in Hall as (t & Ht & Hall). by exists t, pl.
  - left. rewrite booked_requests_in. apply requests_in_elem. exists ch, pl. by apply on_elem.
Qed.
Lemma answer_place ch id : (ch, id) ∈ (omap answer_in lb).*1 →
  ∃ ca, ChannelId_wf ch ∧ chan_at (p_proto pa) ch = Some ca ∧ id ∈ answers_in (on ch (booked (p_out pb))).
Proof using Hdx Hlb.
  intros Hin. apply list_elem_of_fmap in Hin as ([[ch' id'] an] & [= <- <-] & Hin). apply list_elem_of_omap in Hin as (x & Hin & Hx).
  pose proof (under_way_all _ _ _ Hlb Hin) as Hall.
  destruct (all_under_way_sent _ _ _ (duplex_sym _ _ Hdx) Hall) as (cb & Hcb & Hch & _).
  assert (msg_channel x = ch ∧ msg_id x = id ∧ is_answer x = true) as (Hxc & Hxi & Hxa) by (destruct x; naive_solver). rewrite Hxc in *.
  destruct (same_config_chan _ _ _ _ (dx_same _ _ (duplex_sym _ _ Hdx)) Hcb) as (ca & Hca & _).
  exists ca. split; [done|]. split; [done|]. rewrite <- (under_way_answers _ _ ch Hlb). apply answers_in_elem.
  exists x. by rewrite on_elem.
Qed.

Lemma requests_nodup : NoDup (omap request_key la).
Proof using Hdx Hla.
  clear Hlb lb. apply nodup_keys. intros ch. destruct (requests_in (on ch la)) as [|id0 l0] eqn:Hne; [constructor|].
  assert (id0 ∈ requests_in (on ch la)) as Hin by (rewrite Hne; by left). rewrite <- Hne. clear Hne l0.
  apply requests_in_elem in Hin as (ch' & pl & Hin). apply on_elem in Hin as [Hc Hin]. cbn in Hc. subst ch'.
  destruct (request_place _ _ _ Hin) as (ca & Hch & Hca & _). destruct (party_lane ch ca Hch Hca) as [cb L].
  destruct Hla as (l1 & -> & Hl1). rewrite on_app2, requests_in_app2. rewrite <- booked_requests_in. apply NoDup_app.
  assert (∀ id, id ∈ requests_in (on ch l1) → open_request (p_out pa) ch id) as Hopen.
  { intros id Hid. apply requests_in_elem in Hid as (ch' & pl' & Hid). apply on_elem in Hid as [Hc Hid]. cbn in Hc. subst ch'.
    rewrite Hl1 in Hid. apply list_elem_of_fmap in Hid as (t & Ht & Hid). by exists t, pl'. }
  split; [|split; [|apply (ln_requests _ _ _ _ _ _ _ L)]].
  - pose proof (opened_single _ _ ch (dx_flow_a _ _ Hdx)) as Hlen. rewrite <- (on_perm ch _ _ Hl1) in Hlen.
    destruct (on ch l1) as [|x [|y l]]; [constructor|destruct x; repeat constructor; set_solver|cbn in Hlen; lia].
  - intros id Hid Hb. apply (proj1 (ri_apart _ _ _ _ _ (ln_requests _ _ _ _ _ _ _ L) id)). split; [done|].
    apply (ln_incoming _ _ _ _ _ _ _ L). right. by apply Hopen.
Qed.
Lemma answers_nodup : NoDup (omap answer_in lb).*1.
Proof using Hdx Hlb.
  apply nodup_answers. intros ch. destruct (answers_in (on ch lb)) as [|id0 l0] eqn:Hne; [constructor|].
  assert (id0 ∈ answers_in (on ch lb)) as Hin by (rewrite Hne; by left). rewrite <- Hne. clear Hne l0.
  apply answers_in_elem in Hin as (x & Hin & Ha & Hid). apply on_elem in Hin as [Hc Hin].
  destruct (answer_place ch id0) as (ca & Hch & Hca & _).
  { apply list_elem_of_fmap. destruct x as [|? ? pl| |]; try done; cbn in *; subst; eexists (_, _, _); (split; [reflexivity|]);
      apply list_elem_of_omap; by eexists. }
  destruct (party_lane ch ca Hch Hca) as [cb L]. rewrite (under_way_answers _ _ ch Hlb). apply (ln_requests _ _ _ _ _ _ _ L).
Qed.

Lemma owed_apart ch id : id ∈ p_owed pb ch → (ch, id) ∉ omap request_key la ∧ (ch, id) ∉ (omap answer_in lb).*1.
Proof using Hdx Hla Hlb.
  intros Ho. split.
  - rewrite request_key_elem. intros [pl Hin]. by apply (request_not_owed pa pb ch id pl Hdx (under_way_all _ _ _ Hla Hin)).
  - intros Hin. destruct (answer_place _ _ Hin) as (ca & Hch & Hca & Ha). destruct (party_lane ch ca Hch Hca) as [cb L].
    apply (proj2 (proj2 (ri_apart _ _ _ _ _ (ln_requests _ _ _ _ _ _ _ L) id))). split; [|done].
    apply (ln_incoming _ _ _ _ _ _ _ L). by left.
Qed.
Lemma ways_apart k : k ∈ omap request_key la → k ∉ (omap answer_in lb).*1.
Proof using Hdx Hla Hlb.
  destruct k as [ch id]. rewrite request_key_elem. intros [pl Hin] Ha.
  destruct (request_place _ _ _ Hin) as (ca & Hch & Hca & Hr). destruct (answer_place _ _ Ha) as (_ & _ & _ & Hai).
  destruct (party_lane ch ca Hch Hca) as [cb L]. pose proof (ri_apart _ _ _ _ _ (ln_requests _ _ _ _ _ _ _ L) id) as (_ & R2 & R3).
  destruct Hr as [Hr|Hr]; [by apply R2|apply R3]. split; [|done]. apply (ln_incoming _ _ _ _ _ _ _ L). by right.
Qed.
End parties.

Section dialogue.
Context {Permit IoError BM : Type} `{BiMapLaws IoId (ChannelId * Id) BM}.
#[local] Set Default Proof Using "Type*".
Implicit Types (op : CoreOp Permit IoError) (item : QueuedItem Permit) (items : list (QueuedItem Permit)) (s : gmap IoId Stage)
  (map : BM) (told : ChannelId → gset Id) (ans : list (ChannelId * Id * Answer)) (la lb : list Msg).

(** ** Where the calls are

    [map] and [items]: the request map and the items of the core that made them; [la]: the
    messages on the way from it; [told]: the requests the other application can answer; [ans]:
    the answers in the other core or on the way back. *)
Record tracked map items la told ans s : Prop := {
  tr_wf : bm_wf map;
  tr_called io ch pl : s !! io = Some (Called ch pl) ↔ (io, (ch, pl)) ∈ omap request_of items;
  tr_once : NoDup (omap request_of items).*1;
  tr_map io k : bm_rel map io k ↔ ∃ st, s !! io = Some st ∧ stage_key st = Some k;
  tr_sent ch id pl : MReq ch id pl ∈ la ↔ ∃ io, s !! io = Some (Numbered ch id pl);
  tr_told ch id : id ∈ told ch ↔ ∃ io, s !! io = Some (Told ch id);
  tr_answered ch id answer : (ch, id, answer) ∈ ans ↔ ∃ io, s !! io = Some (Answered ch id answer);
}.
(** No id is in two of these places. *)
Record apart la told ans : Prop := {
  ap_requests : NoDup (omap request_key la);
  ap_answers : NoDup ans.*1;
  ap_told ch id : (ch, id) ∈ omap request_key la → id ∉ told ch;
  ap_sent k : k ∈ omap request_key la → k ∉ ans.*1;
  ap_open ch id : id ∈ told ch → (ch, id) ∉ ans.*1;
}.

Lemma tracked_items map items items' la told ans s : items ≡ₚ items' → tracked map items la told ans s → tracked map items' la told ans s.
Proof.
  intros Hp [T1 T2 T3 T4 T5 T6 T7]. constructor; try done.
  - intros io ch pl. rewrite T2. by rewrite Hp.
  - by rewrite <- Hp.
Qed.
Lemma tracked_ext map items la la' told told' ans ans' s : (∀ ch id pl, MReq ch id pl ∈ la ↔ MReq ch id pl ∈ la') →
  (∀ ch, told ch = told' ch) → (∀ x, x ∈ ans ↔ x ∈ ans') → tracked map items la told ans s → tracked map items la' told' ans' s.
Proof.
  intros Hl Ht Ha [T1 T2 T3 T4 T5 T6 T7]. constructor; try done.
  - intros. by rewrite <- Hl.
  - intros. by rewrite <- Ht.
  - intros. by rewrite <- Ha.
Qed.
Lemma tracked_other map item items la told ans s : request_of item = None →
  tracked map (item :: items) la told ans s ↔ tracked map items la told ans s.
Proof.
  intros Hi. assert (omap request_of (item :: items) = omap request_of items) as Heq by (cbn [omap list_omap]; by rewrite Hi).
  split; intros [T1 T2 T3 T4 T5 T6 T7]; constructor; by rewrite ?Heq in *.
Qed.

Lemma tracked_unique map items la told ans s io io' st st' k : tracked map items la told ans s →
  s !! io = Some st → s !! io' = Some st' → stage_key st = Some k → stage_key st' = Some k → io = io'.
Proof.
  intros Ht Hst Hst' Hk Hk'. eapply (bm_rel_right map); [apply Ht|..]; apply Ht; by eexists.
Qed.
Lemma stage_elsewhere s io st new : (∃ io', <[io := new]> s !! io' = Some st) ↔ new = st ∨ ∃ io', io' ≠ io ∧ s !! io' = Some st.
Proof.
  split.
  - intros [io' Hio]. destruct (decide (io' = io)) as [->|Hne].
    + rewrite lookup_insert_eq in Hio. left. congruence.
    + rewrite lookup_insert_ne in Hio by done. right. by exists io'.
  - intros [->|(io' & Hne & Hio)]; [exists io; by rewrite lookup_insert_eq|exists io'; by rewrite lookup_insert_ne].
Qed.
(** A stage no other call has, and the stage of a call that moves on. *)
Lemma stage_moves s io old new st : s !! io = old → old ≠ Some st → new ≠ st →
  (∃ io', <[io := new]> s !! io' = Some st) ↔ ∃ io', s !! io' = Some st.
Proof.
  intros Hold Ho Hn. rewrite stage_elsewhere. split; [intros [|(io' & _ & ?)]; [done|by exists io']|].
  intros [io' Hio]. right. exists io'. split; [congruence|done].
Qed.
Lemma stage_gone map items la told ans s io st new k : tracked map items la told ans s → s !! io = Some st → stage_key st = Some k →
  ∀ st', stage_key st' = Some k → new ≠ st' → ¬ ∃ io', <[io := new]> s !! io' = Some st'.
Proof.
  intros Ht Hst Hk st' Hk' Hn [?|(io' & Hne & Hio)]%stage_elsewhere; [done|].
  apply Hne. symmetry. by eapply tracked_unique.
Qed.

(** The map when a call keeps its id, or has none before and after. *)
Lemma map_moves map items la told ans s io old new : tracked map items la told ans s → s !! io = old →
  (old ≫= stage_key) = stage_key new → ∀ io' k, bm_rel map io' k ↔ ∃ st, <[io := new]> s !! io' = Some st ∧ stage_key st = Some k.
Proof.
  intros Ht Hold Hk io' k. rewrite (tr_map _ _ _ _ _ _ Ht). destruct (decide (io' = io)) as [->|Hne].
  - rewrite lookup_insert_eq, Hold. split.
    + intros (st & -> & Hst). exists new. cbn in Hk. split; congruence.
    + intros (st & [= <-] & Hst). destruct old as [st|]; cbn in Hk; [exists st; split; congruence|congruence].
  - by rewrite lookup_insert_ne.
Qed.

(** ** The steps of a call *)

Lemma tracked_call map items la told ans s ch io pl permit : tracked map items la told ans s → s !! io = None →
  tracked map (QRequest ch io pl permit :: items) la told ans (<[io := Called ch pl]> s).
Proof.
  intros Ht Hn. pose proof (map_moves _ _ _ _ _ _ io None (Called ch pl) Ht Hn eq_refl) as Hm. destruct Ht as [T1 T2 T3 T4 T5 T6 T7].
  assert (∀ p, (io, p) ∉ omap request_of items) as Hno by (intros [ch' pl']; rewrite <- T2; congruence).
  constructor; try done; cbn [omap list_omap request_of].
  - intros io' ch' pl'. rewrite elem_of_cons. destruct (decide (io' = io)) as [->|Hne].
    + rewrite lookup_insert_eq. split; [intros [= -> ->]; by left|]. intros [[= -> ->]|Hin]; [done|by apply Hno in Hin].
    + rewrite lookup_insert_ne, T2 by done. naive_solver.
  - cbn [fmap list_fmap fst]. apply NoDup_cons. split; [|done]. intros Hin. apply list_elem_of_fmap in Hin as ([io' p] & -> & Hin). by eapply Hno.
  - intros. by rewrite (stage_moves s io None), T5.
  - intros. by rewrite (stage_moves s io None), T6.
  - intros. by rewrite (stage_moves s io None), T7.
Qed.

Lemma tracked_send map items la told ans s ch io id pl permit :
  tracked map (QRequest ch io pl permit :: items) la told ans s → apart (la ++ [MReq ch id pl]) told ans →
  ∃ s', call_step s (CeSend ch id pl) s' ∧ tracked (bm_insert map io (ch, id)) items (la ++ [MReq ch id pl]) told ans s'.
Proof.
  intros Ht [A1 A2 A3 A4 A5]. rewrite omap_app in *. cbn [omap list_omap request_key] in *. exists (<[io := Numbered ch id pl]> s).
  assert (s !! io = Some (Called ch pl)) as Hst by (apply Ht; by left).
  assert (∀ io' st, s !! io' = Some st → stage_key st ≠ Some (ch, id)) as Hfree.
  { intros io' st Hio Hk. apply NoDup_app in A1 as (_ & A1 & _). assert ((ch, id) ∈ omap request_key la ++ [(ch, id)]) as Hin.
    { apply elem_of_app. right. by left. }
    destruct st as [?|ch' id' pl'|ch' id'|ch' id' r|?]; try done; injection Hk as -> ->.
    - apply (A1 (ch, id)); [|by left]. apply request_key_elem. exists pl'. apply Ht. by exists io'.
    - apply (A3 _ _ Hin). apply Ht. by exists io'.
    - apply (A4 _ Hin). apply list_elem_of_fmap. exists (ch, id, r). split; [done|]. apply Ht. by exists io'. }
  split; [by constructor|]. destruct Ht as [T1 T2 T3 T4 T5 T6 T7]. cbn [omap list_omap request_of] in *.
  cbn [fmap list_fmap fst] in T3. apply NoDup_cons in T3 as [T3 T3']. constructor; try done.
  - by apply bm_insert_wf.
  - intros io' ch' pl'. destruct (decide (io' = io)) as [->|Hne].
    + rewrite lookup_insert_eq. split; [done|]. intros Hin. destruct T3. apply list_elem_of_fmap. by exists (io, (ch', pl')).
    + rewrite lookup_insert_ne, T2, elem_of_cons by done. naive_solver.
  - intros io' k. rewrite bm_insert_spec, T4 by done. destruct (decide (io' = io)) as [->|Hne].
    + rewrite lookup_insert_eq. split; [intros [[_ ->]|[? _]]; [by eexists|done]|]. intros (st & [= <-] & [= <-]). by left.
    + rewrite lookup_insert_ne by done. split; [intros [[? _]|(_ & _ & ?)]; done|]. intros (st & Hio & Hk). right.
      split; [done|]. split; [intros ->; by eapply Hfree|by exists st].
  - intros ch' id' pl'. rewrite elem_of_app, list_elem_of_singleton, T5, stage_elsewhere. split.
    + intros [[io' Hio]|[= -> -> ->]]; [right; exists io'; split; [congruence|done]|by left].
    + intros [[= -> -> ->]|(io' & _ & Hio)]; [by right|left; by exists io'].
  - intros. by rewrite (stage_moves s io (Some (Called ch pl))), T6.
  - intros. by rewrite (stage_moves s io (Some (Called ch pl))), T7.
Qed.

Lemma tracked_tell map items la la' told told' ans s ch id pl : tracked map items la told ans s →
  (∀ msg, msg ∈ la → request_key msg ≠ None → msg = MReq ch id pl ∨ msg ∈ la') → MReq ch id pl ∈ la → la' ⊆ la →
  (ch, id) ∉ omap request_key la' → (∀ ch' id', id' ∈ told' ch' ↔ id' ∈ told ch' ∨ (ch', id') = (ch, id)) →
  ∃ s', call_step s (CeTell ch id pl) s' ∧ tracked map items la' told' ans s'.
Proof.
  intros Ht Hsplit Hin Hsub Hno Htold. apply (tr_sent _ _ _ _ _ _ Ht) in Hin as [io Hst].
  exists (<[io := Told ch id]> s). split; [by econstructor|].
  pose proof (map_moves _ _ _ _ _ _ io _ (Told ch id) Ht Hst eq_refl) as Hm.
  pose proof (stage_gone _ _ _ _ _ _ io _ (Told ch id) (ch, id) Ht Hst eq_refl) as Hgone.
  destruct Ht as [T1 T2 T3 T4 T5 T6 T7]. constructor; try done.
  - intros io' ch' pl'. rewrite <- T2. destruct (decide (io' = io)) as [->|Hne]; [rewrite lookup_insert_eq, Hst|rewrite lookup_insert_ne by done]; done.
  - intros ch' id' pl'. destruct (decide ((ch', id') = (ch, id))) as [[= -> ->]|Hne].
    + split; [intros Hin; destruct Hno; apply request_key_elem; by exists pl'|]. intros Hex. by apply Hgone in Hex.
    + rewrite (stage_moves s io _), <- T5 by (done || congruence). split; [apply Hsub|]. intros Hin.
      destruct (Hsplit _ Hin) as [[= -> -> ->]|]; done.
  - intros ch' id'. rewrite Htold, T6, stage_elsewhere. split.
    + intros [[io' Hio]|[= -> ->]]; [right; exists io'; split; [congruence|done]|by left].
    + intros [[= -> ->]|(io' & _ & Hio)]; [by right|left; by exists io'].
  - intros. by rewrite (stage_moves s io _), T7 by (done || congruence).
Qed.

Lemma tracked_answer map items la told told' ans s ch id answer : tracked map items la told ans s → id ∈ told ch →
  (∀ ch' id', id' ∈ told' ch' ↔ id' ∈ told ch' ∧ (ch', id') ≠ (ch, id)) →
  ∃ s', call_step s (CeAnswer ch id answer) s' ∧ tracked map items la told' ((ch, id, answer) :: ans) s'.
Proof.
  intros Ht Hin Htold. apply (tr_told _ _ _ _ _ _ Ht) in Hin as [io Hst].
  exists (<[io := Answered ch id answer]> s). split; [by constructor|].
  pose proof (map_moves _ _ _ _ _ _ io _ (Answered ch id answer) Ht Hst eq_refl) as Hm.
  pose proof (stage_gone _ _ _ _ _ _ io _ (Answered ch id answer) (ch, id) Ht Hst eq_refl) as Hgone.
  destruct Ht as [T1 T2 T3 T4 T5 T6 T7]. constructor; try done.
  - intros io' ch' pl'. rewrite <- T2. destruct (decide (io' = io)) as [->|Hne]; [rewrite lookup_insert_eq, Hst|rewrite lookup_insert_ne by done]; done.
  - intros. by rewrite (stage_moves s io _), T5 by (done || congruence).
  - intros ch' id'. rewrite Htold, T6. destruct (decide ((ch', id') = (ch, id))) as [[= -> ->]|Hne].
    + split; [by intros [_ []]|]. intros Hex. by apply Hgone in Hex.
    + rewrite (stage_moves s io _) by (done || congruence). naive_solver.
  - intros ch' id' answer'. rewrite elem_of_cons, T7, stage_elsewhere. split.
    + intros [[= -> -> ->]|[io' Hio]]; [by left|right; exists io'; split; [congruence|done]].
    + intros [[= -> -> ->]|(io' & _ & Hio)]; [by left|right; by exists io'].
Qed.

Lemma tracked_return map items la told ans ans' s ch id answer : tracked map items la told ans s →
  ans ≡ₚ (ch, id, answer) :: ans' → (ch, id) ∉ ans'.*1 →
  ∃ io s', (bm_remove_by_right map (ch, id)).1 = Some (io, (ch, id)) ∧ call_step s (CeReturn io answer) s' ∧
    tracked (bm_remove_by_right map (ch, id)).2 items la told ans' s'.
Proof.
  intros Ht Hp Hno. assert ((ch, id, answer) ∈ ans) as Hin by (rewrite Hp; by left).
  apply (tr_answered _ _ _ _ _ _ Ht) in Hin as [io Hst]. exists io, (<[io := Finished answer]> s).
  assert (bm_rel map io (ch, id)) as Hrel by (apply Ht; by eexists).
  pose proof (stage_gone _ _ _ _ _ _ io _ (Finished answer) (ch, id) Ht Hst eq_refl) as Hgone.
  assert (∀ io' st', s !! io' = Some st' → stage_key st' = Some (ch, id) → io = io') as Huniq.
  { intros io' st' Hio Hk. eapply tracked_unique; [exact Ht|exact Hst|exact Hio|done|done]. }
  destruct Ht as [T1 T2 T3 T4 T5 T6 T7]. split; [by apply bm_remove_Some|]. split; [by econstructor|]. constructor; try done.
  - by apply bm_remove_wf.
  - intros io' ch' pl'. rewrite <- T2. destruct (decide (io' = io)) as [->|Hne]; [rewrite lookup_insert_eq, Hst|rewrite lookup_insert_ne by done]; done.
  - intros io' k. rewrite bm_remove_spec, T4 by done. destruct (decide (io' = io)) as [->|Hne].
    + rewrite lookup_insert_eq, Hst. split; [intros (Hk & st & [= <-] & [= <-])|intros (st & [= <-] & [=])]. by destruct Hk.
    + rewrite lookup_insert_ne by done. split; [by intros [_ ?]|]. intros (st & Hio & Hk). split; [|by exists st].
      intros ->. destruct Hne. symmetry. by eapply Huniq.
  - intros. by rewrite (stage_moves s io _), T5 by (done || congruence).
  - intros. by rewrite (stage_moves s io _), T6 by (done || congruence).
  - intros ch' id' answer'. specialize (T7 ch' id' answer'). rewrite Hp, elem_of_cons in T7.
    destruct (decide ((ch', id') = (ch, id))) as [[= -> ->]|Hne].
    + split; [intros Hin; destruct Hno; apply list_elem_of_fmap; by exists (ch, id, answer')|]. intros Hex. by apply Hgone in Hex.
    + rewrite (stage_moves s io _) by (done || congruence). naive_solver.
Qed.

(** ** Items that are sent *)

Lemma apart_app la msgs told ans : apart (la ++ msgs) told ans → apart la told ans.
Proof.
  intros [A1 A2 A3 A4 A5]. rewrite omap_app in *. constructor; try done.
  - by apply NoDup_app in A1 as [? _].
  - intros. apply A3. apply elem_of_app. by left.
  - intros. apply A4. apply elem_of_app. by left.
Qed.
Lemma tracked_conveys map items msgs map' items' : conveyed map items msgs map' items' → ∀ la told ans s,
  tracked map items la told ans s → apart (la ++ msgs) told ans →
  ∃ s', call_run s (omap send_event msgs) s' ∧ tracked map' items' (la ++ msgs) told ans s'.
Proof.
  induction 1 as [map items items' Hp|map items item rest msg map1 msgs map' items' Hp Hcar _ IH|map items io rest msgs map' items' Hp _ IH];
    intros la told ans s Ht Ha.
  - exists s. rewrite app_nil_r. split; [constructor|]. by eapply tracked_items.
  - apply (tracked_items _ _ _ _ _ _ _ Hp) in Ht. change (msg :: msgs) with ([msg] ++ msgs) in *. rewrite app_assoc in *.
    pose proof (apart_app _ _ _ _ Ha) as Ha1. destruct item as [ch io pl permit|io|ch id pl|ch id|ch id pl], msg as [ch' id' pl'|ch' id' pl'|ch' id'|ch' id']; try done.
    + destruct Hcar as (-> & -> & ->). destruct (tracked_send _ _ _ _ _ _ _ _ _ _ _ Ht Ha1) as (s1 & Hs & Ht1).
      destruct (IH _ _ _ _ Ht1 Ha) as (s2 & Hr & Ht2). exists s2. split; [|done]. by econstructor.
    + destruct Hcar as (_ & ->). apply (IH (la ++ [MCancelReq ch' id'])); [|done]. apply tracked_other in Ht; [|done].
      eapply tracked_ext; [|done|done|exact Ht]. intros. rewrite elem_of_app, list_elem_of_singleton. naive_solver.
    + destruct Hcar as (_ & _ & _ & ->). apply (IH (la ++ [MResp ch' id' pl'])); [|done]. apply tracked_other in Ht; [|done].
      eapply tracked_ext; [|done|done|exact Ht]. intros. rewrite elem_of_app, list_elem_of_singleton. naive_solver.
    + destruct Hcar as (_ & _ & ->). apply (IH (la ++ [MCancelResp ch' id'])); [|done]. apply tracked_other in Ht; [|done].
      eapply tracked_ext; [|done|done|exact Ht]. intros. rewrite elem_of_app, list_elem_of_singleton. naive_solver.
  - apply IH; [|done]. apply (tracked_items _ _ _ _ _ _ _ Hp) in Ht. by apply tracked_other in Ht.
Qed.
Lemma conveyed_answers map items msgs map' items' : conveyed map items msgs map' items' →
  omap answer_given items ≡ₚ omap answer_in msgs ++ omap answer_given items'.
Proof.
  induction 1 as [map items items' Hp|map items item rest msg map1 msgs map' items' Hp Hcar _ IH|map items io rest msgs map' items' Hp _ IH].
  - by rewrite Hp.
  - rewrite Hp. destruct item as [ch io pl permit|io|ch id pl|ch id|ch id pl], msg as [ch' id' pl'|ch' id' pl'|ch' id'|ch' id']; try done;
      cbn [omap list_omap answer_given answer_in app]; rewrite IH; naive_solver.
  - rewrite Hp. cbn [omap list_omap answer_given]. by rewrite IH.
Qed.

(** ** A core, and what is on the way to the other *)

Implicit Types (a b : Side (Permit := Permit) (BM := BM)) (c : IoCore Permit BM).

Definition pending_answers c lb : list (ChannelId * Id * Answer) := omap answer_given (concat (wait_queue c)) ++ omap answer_in lb.
Lemma answer_given_keys items : (omap answer_given items).*1 = answers_held items.
Proof.
  unfold answers_held. induction items as [|item items IH]; [done|]. cbn [omap list_omap].
  destruct item; cbn [answer_given answer_of fmap list_fmap fst]; by rewrite <- IH.
Qed.
Lemma joined_apart m a b pa pb la lb : joined m a b pa pb la lb → apart la (answerable b) (pending_answers (core b) lb).
Proof.
  intros [_ [cur Hl] [curb Hlb] _ _ _ Hla Hwb _]. pose proof (lk_duplex _ _ _ _ _ _ Hl) as Hdx.
  pose proof (lk_owed _ _ _ _ _ _ Hlb) as Ho. pose proof (lk_once _ _ _ _ _ _ Hlb) as Hn. pose proof (lk_apart _ _ _ _ _ _ Hlb) as Hap.
  pose proof (owed_apart pa pb la lb Hdx Hla Hwb) as Hoa. rewrite app_nil_r in *. constructor; unfold pending_answers; rewrite ?fmap_app, ?answer_given_keys.
  - by eapply requests_nodup.
  - apply NoDup_app. split; [done|]. split; [|by eapply answers_nodup]. intros [ch id] Hh. apply Hoa, Ho. by right.
  - intros ch id Hin Ht. destruct (Hoa ch id) as [Hno _]; [apply Ho; by left|done].
  - intros [ch id] Hin. rewrite elem_of_app. intros [Hh|Hh]; [destruct (Hoa ch id) as [Hno _]; [apply Ho; by right|done]|].
    by eapply (ways_apart pa pb la lb).
  - intros ch id Ht. rewrite elem_of_app. intros [Hh|Hh]; [by eapply Hap|]. destruct (Hoa ch id) as [_ Hno]; [apply Ho; by left|done].
Qed.

(** What a read takes off the messages on the way. *)
Definition msg_read (read : CompletedRead) : option Msg :=
  match read with
  | ErrorReceived _ _ => None
  | NewRequest ch id pl => Some (MReq ch id pl)
  | RequestCancellation ch id => Some (MCancelReq ch id)
  | ReceivedResponse ch id pl => Some (MResp ch id pl)
  | ResponseCancellation ch id => Some (MCancelResp ch id)
  end.
Definition read_answer (read : CompletedRead) : option (ChannelId * Id * Answer) := msg_read read ≫= answer_in.
Lemma reads_of (l : list Msg) : omap msg_read (fmap read_of l) = l.
Proof. induction l as [|msg l IH]; [done|]. cbn [fmap list_fmap omap list_omap]. rewrite IH. by destruct msg. Qed.
Lemma transport_takes m l read l' : transport m l (frame_events read) l' →
  ∃ late, Forall (λ msg, ∃ ch id, msg = MCancelReq ch id) late ∧ l ≡ₚ option_list (read ≫= msg_read) ++ late ++ l'.
Proof.
  intros Ht. destruct (transport_conserves _ _ _ _ Ht) as (late & Hl & Hp). exists late. split; [done|].
  assert (sent_of (frame_events read) = []) as Hs by by destruct read. rewrite Hs, app_nil_r in Hp.
  apply (omap_perm msg_read) in Hp. rewrite omap_app in Hp. rewrite !reads_of in Hp. rewrite Hp. by destruct read as [[]|].
Qed.
Lemma late_nothing (late : list Msg) : Forall (λ msg, ∃ ch id, msg = MCancelReq ch id) late →
  omap request_key late = [] ∧ omap answer_in late = [] ∧ ∀ ch id pl, MReq ch id pl ∉ late.
Proof.
  induction 1 as [|msg late (ch & id & ->) _ (IH1 & IH2 & IH3)]; [split; [done|split; [done|intros; apply not_elem_of_nil]]|].
  split; [done|]. split; [done|]. intros ch' id' pl [?|Hin]%elem_of_cons; [done|by eapply IH3].
Qed.

(** ** What an operation does with the items and the request map *)

(** [map]: the request map when a read that is complete is looked up in it. *)
Definition completes (read : option CompletedRead) map (r : Returned IoError) map' : Prop :=
  match read with
  | None => r = None ∧ map' = map
  | Some read => ∃ c c' r', request_map c = map ∧ handle_completed_read c read = (r', c') ∧ map' = request_map c' ∧
      r = Some (match r' with Ok event => Ok (Some event) | Err e => Err e end)
  end.
Definition moves op c c' map : Prop :=
  conveyed (request_map c) (concat (wait_queue c) ++ ops_items [op]) (sent_by op c c') map (concat (wait_queue c')) ∧
  match op with OpParse r => completes (parsed c) map r (request_map c') | _ => request_map c' = map end.

Lemma ready_next_frame_map c r c' : ready_next_frame c = Done (r, c') → request_map c' = request_map c ∧ wait_queue c' = wait_queue c.
Proof.
  unfold ready_next_frame. intros Hd. inv_exec. destruct (ready_queue c) as [|it q]; [by injection Hd as _ <-|].
  inv_exec. destruct a0 as [f [more|]]; by injection Hd as _ <-.
Qed.
Lemma moves_still op c c' : wait_queue c' = wait_queue c → request_map c' = request_map c → sent_by op c c' = [] → ops_items [op] = [] →
  conveyed (request_map c) (concat (wait_queue c) ++ ops_items [op]) (sent_by op c c') (request_map c') (concat (wait_queue c')).
Proof. intros Hw Hm Hs Hi. rewrite Hw, Hm, Hs, Hi, app_nil_r. by constructor. Qed.

Lemma step_moves m a b pa pb la lb op c' : joined m a b pa pb la lb → core_step (core a) op c' → allowed a b op →
  ∃ map, moves op (core a) c' map.
Proof.
  intros Hj Hstep Hal. pose proof Hj as [[Hma Hmb] [cur Hl] _ [Hw _] _ Hback _ Hlb _]. unfold moves.
  inversion Hstep as [? r ? Hpe Hd|? ? Hc Hne Hd|? f fin n f' Hc Hn Hadv|? f fin f' r ? Hc Hadv Hd|? bs|? item r ? Hd|? f w Hpe]; subst.
  - destruct (linked_parse (IoError := IoError) (core a) (answerable a) cur pb pa lb (in_transit b ++ unwritten (core b)) Hl)
      as (r0 & c0' & pa' & f & lb' & msgs & Hd0 & P); [done|done|]. rewrite Hd in Hd0. injection Hd0 as <- <-.
    destruct (pr_done _ _ _ _ _ _ _ _ _ _ _ _ _ P) as (map & Hcv & Hread). exists map.
    pose proof (pr_linked _ _ _ _ _ _ _ _ _ _ _ _ _ P) as Hl'. pose proof (pr_ready _ _ _ _ _ _ _ _ _ _ _ _ _ P) as Hr.
    pose proof (pr_out _ _ _ _ _ _ _ _ _ _ _ _ _ P) as Ho.
    assert (sent_by (OpParse r) (core a) c' = msgs) as -> by by eapply sent_by_sends.
    unfold held in Hcv. rewrite !app_nil_r in *. split; [done|]. unfold completes. destruct (parsed (core a)) as [read|]; [|done].
    destruct Hread as (c & Hm & Heq). destruct (handle_completed_read c read) as [r' c1] eqn:Hh. injection Heq as -> ->. by exists c, c1, r'.
  - destruct (ready_next_frame_map _ _ _ Hd) as [Hm Hwq]. exists (request_map c'). split; [|done]. by apply moves_still.
  - eexists. split; [|reflexivity]. apply moves_still; [done..| |done]. by apply sent_by_same.
  - destruct cur as [t|]; [|pose proof (lk_current _ _ _ _ _ _ Hl) as Hcur; by rewrite Hc in Hcur].
    destruct (linked_written (IoError := IoError) (core a) (answerable a) t pa pb f fin f' Hl Hc Hadv)
      as (c & pa' & msgs & Hs & Hl' & _ & _ & _ & Hr & Ho & _ & _ & _ & _ & Hcv). rewrite Hd in Hs. injection Hs as -> <-.
    eexists. split; [|reflexivity]. rewrite (sent_by_sends (core a) c' [] (answerable a) None pa' pb (p_out pa) msgs) by done.
    unfold held in Hcv. by rewrite !app_nil_r in *.
  - eexists. split; [|reflexivity]. apply moves_still; [done..| |done]. by apply sent_by_same.
  - cbn [allowed] in Hal. rewrite <- Hw in Hal.
    destruct (take_item_sends _ _ _ _ _ item Hl Hal) as (c & pa' & msgs & Hs & Hl' & _ & Hr & Ho & _ & _ & _ & Hcv & _).
    rewrite Hd in Hs. injection Hs as -> ->. eexists. split; [|reflexivity].
    rewrite (sent_by_sends (core a) c [] (answered (answerable a) item) cur pa' pb (p_out pa) msgs) by done.
    unfold held in Hcv. by rewrite !app_nil_r in *.
  - pose proof (lk_pending _ _ _ _ _ _ Hl). congruence.
Qed.

(** ** The events of the calls *)

(** The application is told. *)
Definition returned (r : Returned IoError) : list CallEvent :=
  match r with
  | Some (Ok (Some (EvReceivedResponse io payload))) => [CeReturn io (Some payload)]
  | Some (Ok (Some (EvReceivedCancellationResponse io))) => [CeReturn io None]
  | Some (Err (InternalError _)) => [CeLost]
  | _ => []
  end.
(** What an operation does for the calls its own application makes. *)
Definition asking op c c' : list CallEvent :=
  match op with OpItem (QRequest ch io payload _) _ => [CeCall io ch payload] | _ => [] end ++
  omap send_event (sent_by op c c') ++
  match op with OpParse r => returned r | _ => [] end.
(** What it does for those of the other. *)
Definition serving op : list CallEvent :=
  match op with
  | OpParse (Some (Ok (Some (EvNewRequest ch id payload)))) => [CeTell ch id payload]
  | OpItem (QResponse ch id payload) _ => [CeAnswer ch id (Some payload)]
  | OpItem (QResponseCancellation ch id) _ => [CeAnswer ch id None]
  | _ => []
  end.
(** What keeps the calls apart: a request comes under an [IoId] that was not used before, and
    no request is sent under the id whose answer has just been read, for which the core still
    has its last request. *)
Definition distinct op c c' (log : list CallEvent) : Prop :=
  (∀ ch io payload permit r, op = OpItem (QRequest ch io payload permit) r → ∀ ch' pl, CeCall io ch' pl ∉ log) ∧
  (∀ r read ch id answer, op = OpParse r → parsed c = Some read → read_answer read = Some (ch, id, answer) →
     (ch, id) ∉ omap request_key (sent_by op c c')).

Definition tracks a b la lb s : Prop :=
  tracked (request_map (core a)) (concat (wait_queue (core a))) la (answerable b) (pending_answers (core b) lb) s.

Lemma answered_elem told item ch id : id ∈ answered told item ch ↔ id ∈ told ch ∧ answer_of item ≠ Some (ch, id).
Proof.
  unfold answered. destruct (answer_of item) as [[ch' id']|]; [|naive_solver]. destruct (decide (ch = ch')) as [->|Hne].
  - rewrite fn_lookup_insert, elem_of_difference, elem_of_singleton. naive_solver.
  - rewrite fn_lookup_insert_ne by done. naive_solver.
Qed.
Lemma owe_elem told read ch id : id ∈ owe read told ch ↔ id ∈ told ch ∨ ∃ pl, read = Some (NewRequest ch id pl).
Proof.
  destruct read as [[h d|ch' id' pl'|ch' id' pl'|ch' id'|ch' id']|]; cbn [owe]; try (split; [by left|by intros [?|[? [=]]]]).
  destruct (decide (ch = ch')) as [->|Hne].
  - rewrite fn_lookup_insert, elem_of_union, elem_of_singleton. split; [|intros [?|[? [= <- _]]]; auto].
    intros [->|?]; [right; by eexists|by left].
  - rewrite fn_lookup_insert_ne by done. split; [by left|]. intros [?|[? [= <- _ _]]]; done.
Qed.

(** ** Every operation is a step of the calls *)

Lemma apart_before la msgs told ans ans' x : apart la told ans → apart (la ++ msgs) told ans' → ans ≡ₚ option_list x ++ ans' →
  (∀ k answer, x = Some (k, answer) → k ∉ omap request_key msgs) → apart (la ++ msgs) told ans.
Proof.
  intros [A1 A2 A3 A4 A5] [B1 B2 B3 B4 B5] Hp Hx. constructor; try done.
  intros k Hin Hans. rewrite Hp, fmap_app, elem_of_app in Hans. destruct Hans as [Hans|Hans]; [|by eapply B4].
  destruct x as [[k' an]|]; [|by apply elem_of_nil in Hans]. apply list_elem_of_singleton in Hans as ->.
  rewrite omap_app, elem_of_app in Hin. destruct Hin as [Hin|Hin]; [|by eapply Hx].
  apply (A4 _ Hin). rewrite Hp. by left.
Qed.
Lemma tracked_answers map items la told ans ans' s : ans ≡ₚ ans' → tracked map items la told ans s → tracked map items la told ans' s.
Proof. intros Hp. apply tracked_ext; [done|done|]. intros x. by rewrite Hp. Qed.

Lemma pending_takes c m lb read lb' : transport m lb (frame_events read) lb' →
  pending_answers c lb ≡ₚ option_list (read ≫= read_answer) ++ pending_answers c lb'.
Proof.
  intros Ht. destruct (transport_takes _ _ _ _ Ht) as (late & Hlate & Hp). destruct (late_nothing _ Hlate) as (_ & Ha & _).
  unfold pending_answers. apply (omap_perm answer_in) in Hp. rewrite !omap_app, Ha in Hp. rewrite Hp, app_nil_l.
  rewrite Permutation_app_swap_app. by destruct read as [[]|].
Qed.

(** A read is looked up in the request map. *)
Lemma tracked_completes map items la told ans ans' s read r map' : tracked map items la told ans s → completes read map r map' →
  ans ≡ₚ option_list (read ≫= read_answer) ++ ans' → NoDup ans.*1 →
  ∃ s', call_run s (returned r) s' ∧ tracked map' items la told ans' s'.
Proof.
  intros Ht Hc Hp Hnd. rewrite Hp, fmap_app in Hnd. destruct read as [read|]; [|destruct Hc as [-> ->]; exists s; split; [constructor|by eapply tracked_answers]].
  destruct Hc as (c & c' & r' & <- & Hh & -> & ->).
  assert (∀ ch id answer, read_answer read = Some (ch, id, answer) → ∃ io s',
    (bm_remove_by_right (request_map c) (ch, id)).1 = Some (io, (ch, id)) ∧ call_step s (CeReturn io answer) s' ∧
    tracked (bm_remove_by_right (request_map c) (ch, id)).2 items la told ans' s') as Hret.
  { intros ch id answer Heq. cbn [mbind option_bind] in *. rewrite Heq in Hp, Hnd. apply NoDup_app in Hnd as (_ & Hno & _).
    eapply tracked_return; [exact Ht|exact Hp|]. apply Hno. by left. }
  destruct read as [h d|ch id pl|ch id pl|ch id|ch id]; cbn [handle_completed_read] in Hh;
    [injection Hh as <- <-; exists s; split; [constructor|by eapply tracked_answers]..| |injection Hh as <- <-; exists s; split; [constructor|by eapply tracked_answers]|].
  - destruct (Hret ch id (Some pl) eq_refl) as (io & s' & Hb & Hs & Ht'). destruct (bm_remove_by_right (request_map c) (ch, id)) as [removed map].
    cbn [fst snd] in *. subst removed. injection Hh as <- <-. exists s'. split; [by apply call_run_one|done].
  - destruct (Hret ch id None eq_refl) as (io & s' & Hb & Hs & Ht'). destruct (bm_remove_by_right (request_map c) (ch, id)) as [removed map].
    cbn [fst snd] in *. subst removed. injection Hh as <- <-. exists s'. split; [by apply call_run_one|done].
Qed.

Lemma reported_events op c : reported_by op c = frame_events (match op with OpParse _ => parsed c | _ => None end).
Proof. by destruct op. Qed.

Lemma asking_step m a b pa pb la lb pa' pb' lb' op c' map log s : joined m a b pa pb la lb →
  joined m (acting a op c') (beside b op) pa' pb' (la ++ sent_by op (core a) c') lb' →
  transport m lb (reported_by op (core a)) lb' → moves op (core a) c' map → distinct op (core a) c' log → call_run ∅ log s →
  tracks a b la lb s → ∃ s', call_run s (asking op (core a) c') s' ∧
    tracks (acting a op c') (beside b op) (la ++ sent_by op (core a) c') lb' s'.
Proof.
  intros Hj Hj' Htr [Hcv Hread] [Hfresh Hreuse] Hlog Ht. pose proof (joined_apart _ _ _ _ _ _ _ Hj) as Ha.
  pose proof (joined_apart _ _ _ _ _ _ _ Hj') as Ha'. rewrite reported_events in Htr. pose proof (pending_takes (core b) m _ _ _ Htr) as Hp.
  unfold asking, tracks in *. cbn [acting beside core answerable] in *. set (msgs := sent_by op (core a) c') in *.
  assert (∃ s1, call_run s (match op with OpItem (QRequest ch io payload _) _ => [CeCall io ch payload] | _ => [] end) s1 ∧
    tracked (request_map (core a)) (concat (wait_queue (core a)) ++ ops_items [op]) la (answerable b) (pending_answers (core b) lb) s1) as (s1 & Hr1 & Ht1).
  { destruct op as [| | | | |item r|]; try (exists s; split; [constructor|]; by rewrite app_nil_r).
    assert (∀ s1, tracked (request_map (core a)) (item :: concat (wait_queue (core a))) la (answerable b) (pending_answers (core b) lb) s1 →
      tracked (request_map (core a)) (concat (wait_queue (core a)) ++ [item]) la (answerable b) (pending_answers (core b) lb) s1) as Hsnoc.
    { intros s1. apply tracked_items. by rewrite <- Permutation_cons_append. }
    destruct item as [ch io pl permit|io|ch id pl|ch id|ch id pl];
      try (exists s; split; [constructor|]; apply Hsnoc; by apply tracked_other).
    assert (s !! io = None) as Hn by (eapply call_run_fresh; [exact Hlog|]; by eapply Hfresh).
    eexists. split; [apply call_run_one; by constructor|]. apply Hsnoc. by apply tracked_call. }
  assert (apart (la ++ msgs) (answerable b) (pending_answers (core b) lb)) as Hap.
  { eapply apart_before; [exact Ha|exact Ha'|exact Hp|]. intros [ch id] answer Hx.
    destruct op as [r| | | | | |]; try done. destruct (parsed (core a)) as [read|] eqn:Hpa; [|done].
    by eapply Hreuse. }
  destruct (tracked_conveys _ _ _ _ _ Hcv _ _ _ _ Ht1 Hap) as (s2 & Hr2 & Ht2).
  assert (∃ s3, call_run s2 (match op with OpParse r => returned r | _ => [] end) s3 ∧
    tracked (request_map c') (concat (wait_queue c')) (la ++ msgs) (answerable b) (pending_answers (core b) lb') s3) as (s3 & Hr3 & Ht3).
  { destruct op as [r| | | | | |]; try (rewrite Hread; exists s2; split; [constructor|]; by eapply tracked_answers).
    eapply tracked_completes; [exact Ht2|exact Hread|exact Hp|apply Ha]. }
  exists s3. split; [|done]. eapply call_run_app; [done|]. by eapply call_run_app.
Qed.

Lemma takes_requests m lb read lb' ch id pl : transport m lb (frame_events read) lb' →
  MReq ch id pl ∈ lb ↔ read = Some (NewRequest ch id pl) ∨ MReq ch id pl ∈ lb'.
Proof.
  intros Ht. destruct (transport_takes _ _ _ _ Ht) as (late & Hlate & Hp). destruct (late_nothing _ Hlate) as (_ & _ & Hno).
  rewrite Hp, !elem_of_app. specialize (Hno ch id pl).
  assert (MReq ch id pl ∈ option_list (read ≫= msg_read) ↔ read = Some (NewRequest ch id pl)) as ->; [|tauto].
  destruct read as [[]|]; cbn; rewrite ?list_elem_of_singleton, ?elem_of_nil; naive_solver.
Qed.

(** What the core serves: the answers it holds or has sent. *)
Lemma pending_conveyed c c' op map la : moves op c c' map →
  pending_answers c' (la ++ sent_by op c c') ≡ₚ omap answer_given (ops_items [op]) ++ pending_answers c la.
Proof.
  intros [Hcv _]. apply conveyed_answers in Hcv. unfold pending_answers. rewrite !omap_app in *.
  rewrite (Permutation_app_comm (omap answer_in la)), app_assoc, (Permutation_app_comm (omap answer_given (concat (wait_queue c')))), <- Hcv.
  rewrite (Permutation_app_comm (omap answer_given (concat (wait_queue c)))). by rewrite <- app_assoc.
Qed.

Lemma serving_item map items lb told ans s item : tracked map items lb told ans s →
  (∀ ch id, answer_of item = Some (ch, id) → id ∈ told ch) →
  ∃ s', call_run s (match item with
    | QResponse ch id payload => [CeAnswer ch id (Some payload)]
    | QResponseCancellation ch id => [CeAnswer ch id None]
    | _ => []
    end) s' ∧ tracked map items lb (answered told item) (omap answer_given [item] ++ ans) s'.
Proof.
  intros Ht Hin. pose proof (answered_elem told item) as Hae.
  destruct item as [ch io pl permit|io|ch id pl|ch id|ch id pl]; cbn [answer_of] in *;
    try (exists s; split; [constructor|done]).
  - destruct (tracked_answer _ _ _ _ (answered (Permit := Permit) told (QResponse ch id pl)) _ _ ch id (Some pl) Ht) as (s' & Hs & Ht'); [by apply Hin| |].
    + intros ch' id'. rewrite Hae. naive_solver.
    + exists s'. split; [by apply call_run_one|done].
  - destruct (tracked_answer _ _ _ _ (answered (Permit := Permit) told (QResponseCancellation ch id)) _ _ ch id None Ht) as (s' & Hs & Ht'); [by apply Hin| |].
    + intros ch' id'. rewrite Hae. naive_solver.
    + exists s'. split; [by apply call_run_one|done].
Qed.
Lemma serving_parse m map items lb lb' told ans s read r map1 map2 : tracked map items lb told ans s →
  transport m lb (frame_events read) lb' → completes read map1 r map2 → apart lb' (owe read told) ans →
  ∃ s', call_run s (match r with Some (Ok (Some (EvNewRequest ch id payload))) => [CeTell ch id payload] | _ => [] end) s' ∧
    tracked map items lb' (owe read told) ans s'.
Proof.
  intros Ht Htr Hc Ha. pose proof (λ ch id pl, takes_requests _ _ _ _ ch id pl Htr) as Hreq.
  assert ((∀ ch id pl, read ≠ Some (NewRequest ch id pl)) → owe read told = told ∧ tracked map items lb' told ans s) as Hother.
  { intros Hno. split; [by destruct read as [[]|]; try done; edestruct Hno|]. eapply tracked_ext; [|done|done|exact Ht].
    intros ch id pl. rewrite Hreq. specialize (Hno ch id pl). naive_solver. }
  destruct read as [read|].
  2: { destruct Hc as [-> ->]. exists s. split; [constructor|]. by apply Hother. }
  destruct Hc as (c & c' & r' & _ & Hh & _ & ->).
  destruct read as [h d|ch id pl|ch id pl|ch id|ch id]; cbn [handle_completed_read] in Hh.
  2: { injection Hh as <- <-. destruct (tracked_tell map items lb lb' told (owe (Some (NewRequest ch id pl)) told) ans s ch id pl Ht) as (s' & Hs & Ht').
    - intros msg Hin Hk. destruct msg as [ch' id' pl'| | |]; try done. apply Hreq in Hin as [[= -> -> ->]|]; auto.
    - apply Hreq. by left.
    - intros msg Hin. destruct (transport_takes _ _ _ _ Htr) as (late & _ & Hp). rewrite Hp, !elem_of_app. auto.
    - intros Hin. apply (ap_told _ _ _ Ha) in Hin. apply Hin, owe_elem. right. by eexists.
    - intros ch' id'. rewrite owe_elem. naive_solver.
    - exists s'. split; [by apply call_run_one|done]. }
  all: destruct Hother as [-> Ht']; [done|]; exists s; (split; [|done]).
  all: try (destruct (bm_remove_by_right (request_map c) (ch, id)) as [[[io ?]|] ?]); injection Hh as <- <-; constructor.
Qed.

Lemma serving_step m a b pa pb la lb pa' pb' lb' op c' map s : joined m a b pa pb la lb → allowed a b op →
  joined m (acting a op c') (beside b op) pa' pb' (la ++ sent_by op (core a) c') lb' →
  transport m lb (reported_by op (core a)) lb' → moves op (core a) c' map → tracks b a lb la s →
  ∃ s', call_run s (serving op) s' ∧ tracks (beside b op) (acting a op c') lb' (la ++ sent_by op (core a) c') s'.
Proof.
  intros Hj Hal Hj' Htr Hm Ht. pose proof (joined_apart _ _ _ _ _ _ _ (joined_sym _ _ _ _ _ _ _ Hj')) as Ha'.
  pose proof (pending_conveyed _ _ _ _ la Hm) as Hp. destruct Hm as [_ Hread].
  rewrite reported_events in Htr. unfold tracks in *. cbn [acting beside core answerable] in *. set (msgs := sent_by op (core a) c') in *.
  assert (∀ s', tracked (request_map (core b)) (concat (wait_queue (core b))) lb' (answerable (acting a op c'))
      (omap answer_given (ops_items [op]) ++ pending_answers (core a) la) s' →
    tracked (request_map (core b)) (concat (wait_queue (core b))) lb' (answerable (acting a op c'))
      (pending_answers c' (la ++ msgs)) s') as Hfin by (intros s'; by apply tracked_answers; rewrite Hp).
  cbn [acting answerable] in Hfin. pose proof (λ ch id pl, takes_requests _ _ _ _ ch id pl Htr) as Hreq.
  destruct op as [r| | | | |item r|];
    try (exists s; split; [constructor|]; apply Hfin; eapply tracked_ext; [|done|done|exact Ht]; intros; rewrite Hreq; naive_solver).
  - destruct (serving_parse m _ _ _ lb' _ _ _ _ _ _ _ Ht Htr Hread) as (s' & Hr & Ht'); [|exists s'; split; [done|by apply Hfin]].
    destruct Ha' as [A1 A2 A3 A4 A5]. constructor; try done; cbn [ops_items omap list_omap app] in Hp.
    + by rewrite <- Hp.
    + intros k. rewrite <- Hp. apply A4.
    + intros ch id. rewrite <- Hp. apply A5.
  - assert (tracked (request_map (core b)) (concat (wait_queue (core b))) lb' (answerable a) (pending_answers (core a) la) s) as Ht1.
    { eapply tracked_ext; [|done|done|exact Ht]. intros. rewrite Hreq. naive_solver. }
    destruct (serving_item _ _ _ _ _ _ item Ht1) as (s' & Hr & Ht'); [|exists s'; split; [done|by apply Hfin]].
    intros ch id Hans. cbn [allowed] in Hal. destruct item; try done; cbn [may_queue answer_of] in *; injection Hans as -> ->; apply Hal.
Qed.

(** ** Runs *)

(** A run with the events of the calls the first makes, and of those the second makes. *)
Inductive calls_run : Side → Side → list Event → list Event → list CallEvent → list CallEvent → Side → Side → Prop :=
  | calls_start a b : calls_run a b [] [] [] [] a b
  | calls_here a0 b0 tr tr' log log' a b op c' : calls_run a0 b0 tr tr' log log' a b →
      core_step (core a) op c' → allowed a b op → distinct op (core a) c' log →
      calls_run a0 b0 (tr ++ fmap Sent (sent_by op (core a) c')) (tr' ++ reported_by op (core a))
        (log ++ asking op (core a) c') (log' ++ serving op) (acting a op c') (beside b op)
  | calls_there a0 b0 tr tr' log log' a b op c' : calls_run a0 b0 tr tr' log log' a b →
      core_step (core b) op c' → allowed b a op → distinct op (core b) c' log' →
      calls_run a0 b0 (tr ++ reported_by op (core b)) (tr' ++ fmap Sent (sent_by op (core b) c'))
        (log ++ serving op) (log' ++ asking op (core b) c') (beside a op) (acting b op c').
Lemma calls_run_cores a0 b0 tr tr' log log' a b : calls_run a0 b0 tr tr' log log' a b → cores_run (IoError := IoError) a0 b0 tr tr' a b.
Proof. induction 1; [constructor|by apply cores_here|by apply cores_there]. Qed.

(** Both directions of the calls. *)
Record accounted m a b log log' : Prop := {
  ac_here : ∃ pa pb la lb s s', joined m a b pa pb la lb ∧ call_run ∅ log s ∧ call_run ∅ log' s' ∧
    tracks a b la lb s ∧ tracks b a lb la s';
}.
Lemma accounted_sym m a b log log' : accounted m a b log log' → accounted m b a log' log.
Proof. intros [(pa & pb & la & lb & s & s' & Hj & ? & ? & ? & ?)]. constructor. exists pb, pa, lb, la, s', s. by split_and!; [apply joined_sym|..]. Qed.
Lemma accounted_step m a b log log' op c' : accounted m a b log log' → core_step (core a) op c' → allowed a b op →
  distinct op (core a) c' log → accounted m (acting a op c') (beside b op) (log ++ asking op (core a) c') (log' ++ serving op).
Proof.
  intros [(pa & pb & la & lb & s & s' & Hj & Hlog & Hlog' & Ht & Ht')] Hstep Hal Hd.
  destruct (joined_step m a b pa pb la lb op c' Hj Hstep Hal) as (pa' & pb' & la' & lb' & Hj' & -> & Htr & _).
  destruct (step_moves m a b pa pb la lb op c' Hj Hstep Hal) as [map Hm].
  destruct (asking_step m a b pa pb la lb pa' pb' lb' op c' map log s) as (s1 & Hr & Ht1); [done..|].
  destruct (serving_step m a b pa pb la lb pa' pb' lb' op c' map s') as (s1' & Hr' & Ht1'); [done..|].
  constructor. exists pa', pb', (la ++ sent_by op (core a) c'), lb', s1, s1'. split; [done|]. split; [by eapply call_run_app|].
  split; [by eapply call_run_app|]. done.
Qed.
Lemma accounted_run m a0 b0 tr tr' log log' a b : accounted m a0 b0 [] [] → calls_run a0 b0 tr tr' log log' a b →
  accounted m a b log log'.
Proof.
  intros Ha Hrun. induction Hrun as [|? ? ? ? ? ? ? ? ? ? ? IH Hs Hal Hd|? ? ? ? ? ? ? ? ? ? ? IH Hs Hal Hd]; [done| |].
  - apply accounted_step; [by apply IH|done..].
  - apply accounted_sym, accounted_step; [apply accounted_sym; by apply IH|done..].
Qed.

Lemma initial_tracks {S Snd} `{Semaphore S Permit} (ba bb : IoCoreBuilder) (qa qb : Snd) :
  tracks (initial_side (S := S) ba qa) (initial_side (S := S) bb qb) [] [] ∅.
Proof.
  assert (∀ l : list Channel, concat (fmap (λ _, @nil (QueuedItem Permit)) l) = []) as Hnil by (induction l; done).
  unfold tracks, pending_answers. cbn [initial_side core answerable IoCoreBuilder_build fst wait_queue request_map].
  rewrite !Hnil. cbn [omap list_omap app].
  constructor; intros; cbn [omap list_omap fmap list_fmap]; rewrite ?lookup_empty, ?elem_of_nil;
    try (split; [done|intros [? Hf]; by rewrite ?lookup_empty in Hf]).
  - apply bm_new_wf.
  - done.
  - constructor.
  - split; [by intros ?%bm_new_spec|]. by intros (st & Hst & _).
Qed.
Lemma initial_accounted {S Snd} `{Semaphore S Permit} (ba bb : IoCoreBuilder) (qa qb : Snd) :
  let p := protocol ba in protocol bb = p →
  Forall ChannelConfiguration_wf (pb_channel_config p) → len (pb_channel_config p) ≤ 256 → MaxFrameSize_wf (pb_max_frame_size p) →
  accounted (pb_max_frame_size p) (initial_side (S := S) ba qa) (initial_side (S := S) bb qb) [] [].
Proof.
  intros p Hp Hc Hn Hm. constructor. pose proof (initial_joined (S := S) ba bb qa qb Hp Hc Hn Hm) as Hj.
  do 2 eexists. exists [], [], ∅, ∅. split; [exact Hj|]. split; [constructor|]. split; [constructor|]. split; apply initial_tracks.
Qed.

(** Where the calls of [a] are. *)
Record standing a b s : Prop := {
  sd_called io ch pl : s !! io = Some (Called ch pl) ↔ ∃ permit, QRequest ch io pl permit ∈ concat (wait_queue (core a));
  sd_map io k : bm_rel (request_map (core a)) io k ↔ ∃ st, s !! io = Some st ∧ stage_key st = Some k;
  sd_sent io ch id pl : s !! io = Some (Numbered ch id pl) → ¬ drained a b;
  sd_told ch id : id ∈ answerable b ch ↔ ∃ io, s !! io = Some (Told ch id);
  sd_answered io ch id answer : s !! io = Some (Answered ch id answer) → drained b a →
    ∃ item, item ∈ concat (wait_queue (core b)) ∧ answer_given item = Some (ch, id, answer);
}.
Lemma tracks_standing m a b pa pb la lb s : joined m a b pa pb la lb → tracks a b la lb s → standing a b s.
Proof.
  intros Hj [T1 T2 T3 T4 T5 T6 T7]. constructor; try done.
  - intros io ch pl. rewrite T2, list_elem_of_omap. split.
    + intros (item & Hin & Heq). destruct item as [ch' io' pl' permit| | | |]; try done. injection Heq as -> -> ->. by exists permit.
    + intros [permit Hin]. by exists (QRequest ch io pl permit).
  - intros io ch id pl Hst Hd. assert (MReq ch id pl ∈ la) as Hin by (apply T5; by exists io).
    rewrite (joined_drained _ _ _ _ _ _ _ Hj Hd) in Hin. by apply elem_of_nil in Hin.
  - intros io ch id answer Hst Hd. assert ((ch, id, answer) ∈ pending_answers (core b) lb) as Hin by (apply T7; by exists io).
    rewrite (joined_drained _ _ _ _ _ _ _ (joined_sym _ _ _ _ _ _ _ Hj) Hd) in Hin. unfold pending_answers in Hin.
    rewrite app_nil_r in Hin. by apply list_elem_of_omap in Hin.
Qed.

(** ** Running them *)

Definition distinctb op c c' (log : list CallEvent) : bool :=
  match op with
  | OpItem (QRequest _ io _ _) _ => forallb (λ e, match e with CeCall io' _ _ => negb (bool_decide (io' = io)) | _ => true end) log
  | OpParse _ =>
      match parsed c ≫= read_answer with
      | Some (k, _) => bool_decide (k ∉ omap request_key (sent_by op c c'))
      | None => true
      end
  | _ => true
  end.
Lemma distinctb_distinct op c c' log : distinctb op c c' log = true → distinct op c c' log.
Proof.
  intros Hd. split.
  - intros ch io payload permit r -> ch' pl Hin. cbn [distinctb] in Hd. rewrite forallb_forall in Hd.
    apply list_elem_of_In in Hin. specialize (Hd _ Hin). cbn in Hd. by rewrite bool_decide_eq_true_2 in Hd.
  - intros r read ch id answer -> Hp Ha. cbn [distinctb] in Hd. rewrite Hp in Hd. cbn [mbind option_bind] in Hd. rewrite Ha in Hd.
    by apply bool_decide_eq_true in Hd.
Qed.
Fixpoint converse (turns : list (bool * Turn (Permit := Permit))) (tr tr' : list Event) (log log' : list CallEvent) a b
    : option (list Event * list Event * list CallEvent * list CallEvent * Side * Side) :=
  match turns with
  | [] => Some (tr, tr', log, log', a, b)
  | (true, t) :: turns =>
      '(op, c') ← perform (IoError := IoError) a t (in_transit b);
      if distinctb op (core a) c' log then
        converse turns (tr ++ fmap Sent (sent_by op (core a) c')) (tr' ++ reported_by op (core a))
          (log ++ asking op (core a) c') (log' ++ serving op) (acting a op c') (beside b op)
      else None
  | (false, t) :: turns =>
      '(op, c') ← perform (IoError := IoError) b t (in_transit a);
      if distinctb op (core b) c' log' then
        converse turns (tr ++ reported_by op (core b)) (tr' ++ fmap Sent (sent_by op (core b) c'))
          (log ++ serving op) (log' ++ asking op (core b) c') (beside a op) (acting b op c')
      else None
  end.
Lemma converse_run a0 b0 turns : ∀ tr tr' log log' a b tr1 tr1' log1 log1' a1 b1, calls_run a0 b0 tr tr' log log' a b →
  converse turns tr tr' log log' a b = Some (tr1, tr1', log1, log1', a1, b1) → calls_run a0 b0 tr1 tr1' log1 log1' a1 b1.
Proof.
  induction turns as [|[[] t] turns IH]; intros tr tr' log log' a b tr1 tr1' log1 log1' a1 b1 Hrun Hc; cbn [converse] in Hc.
  - by injection Hc as <- <- <- <- <- <-.
  - destruct (perform a t (in_transit b)) as [[op c']|] eqn:Ht; [|done]. apply perform_step in Ht as [Hs Hal].
    cbn [mbind option_bind] in Hc. destruct (distinctb op (core a) c' log) eqn:Hd; [|done]. apply distinctb_distinct in Hd.
    eapply IH; [|exact Hc]. by apply calls_here.
  - destruct (perform b t (in_transit a)) as [[op c']|] eqn:Ht; [|done]. apply perform_step in Ht as [Hs Hal].
    cbn [mbind option_bind] in Hc. destruct (distinctb op (core b) c' log') eqn:Hd; [|done]. apply distinctb_distinct in Hd.
    eapply IH; [|exact Hc]. by apply calls_there.
Qed.
End dialogue.

(** ** Properties *)

(** Two calls on different channels; the second is short, told and answered first. *)
Definition call_turns : list (bool * Turn (Permit := ())) :=
  [(true, TRequest (ChannelId_new 0) (mkIoId 1) [1; 2; 3; 4; 5; 6; 7; 8; 9; 10; 11; 12] ());
   (true, TRequest (ChannelId_new 1) (mkIoId 2) [5; 5] ());
   (true, TReady); (true, TWritten); (true, TReady); (true, TWritten); (false, TRead 100); (false, TParse); (false, TParse);
   (false, TRespond (ChannelId_new 1) (Id_new 1) [7]); (false, TReady); (false, TWritten);
   (true, TRead 100); (true, TParse); (true, TReady); (true, TWritten); (true, TReady); (true, TWritten);
   (false, TRead 100); (false, TParse); (false, TParse); (false, TParse);
   (false, TRespond (ChannelId_new 0) (Id_new 1) [8; 8]); (false, TReady); (false, TWritten);
   (true, TRead 100); (true, TParse); (true, TParse)].
Definition call_demo := converse (IoError := ()) call_turns [] [] [] [] sample_side sample_side.
Definition call_demo_log : list CallEvent :=
  [CeCall (mkIoId 1) (ChannelId_new 0) (Some [1; 2; 3; 4; 5; 6; 7; 8; 9; 10; 11; 12]);
   CeSend (ChannelId_new 0) (Id_new 1) (Some [1; 2; 3; 4; 5; 6; 7; 8; 9; 10; 11; 12]);
   CeCall (mkIoId 2) (ChannelId_new 1) (Some [5; 5]); CeSend (ChannelId_new 1) (Id_new 1) (Some [5; 5]);
   CeTell (ChannelId_new 1) (Id_new 1) (Some [5; 5]); CeAnswer (ChannelId_new 1) (Id_new 1) (Some (Some [7]));
   CeReturn (mkIoId 2) (Some (Some [7]));
   CeTell (ChannelId_new 0) (Id_new 1) (Some [1; 2; 3; 4; 5; 6; 7; 8; 9; 10; 11; 12]);
   CeAnswer (ChannelId_new 0) (Id_new 1) (Some (Some [8; 8])); CeReturn (mkIoId 1) (Some (Some [8; 8]))].
Lemma call_demo_ok : match call_demo with
  | Some (tr, tr', log, log', a, b) =>
      log = call_demo_log ∧ log' = [] ∧ drained a b ∧ drained b a ∧ answerable b (ChannelId_new 0) = ∅ ∧
      (λ c, request_limit (config c)) <$> channels (juliet (core a)) !! 0%nat = Some 2 ∧
      omap msg_read (reported_of tr) = [MReq (ChannelId_new 1) (Id_new 1) (Some [5; 5]); MReq (ChannelId_new 0) (Id_new 1) (Some [1; 2; 3; 4; 5; 6; 7; 8; 9; 10; 11; 12])] ∧
      omap msg_read (reported_of tr') = [MResp (ChannelId_new 1) (Id_new 1) (Some [7]); MResp (ChannelId_new 0) (Id_new 1) (Some [8; 8])]
  | None => False
  end.
Proof. vm_compute. split_and!; reflexivity. Qed.
Lemma call_demo_run : match call_demo with
  | Some (tr, tr', log, log', a, b) => calls_run (IoError := ()) sample_side sample_side tr tr' log log' a b
  | None => True
  end.
Proof.
  destruct call_demo as [[[[[[tr tr'] log] log'] a] b]|] eqn:Hc; [|done]. eapply converse_run; [constructor|exact Hc].
Qed.

(** C6: two cores carry calls as the specification says. Take two cores built with the same protocol
    configuration, connected by two streams of bytes, in any interleaving of their operations, with
    any partial read and write. The applications queue only items for channels there are, with
    payloads within the limits, and no errors; they answer only requests they were told of, each
    once; and they cancel a request of theirs at most once while it is outstanding, and not while a
    message with its channel and id is being sent in several frames. Moreover each request comes
    under an [IoId] not used before, and a parse does not send a request under the id whose answer
    it has just read. Then in each direction the requests taken from the queue, sent, reported to
    the other application, answered by it and returned are a run of the specification, and the stage
    of each call tells where it is: a call not sent yet is in the wait queue, a call told is one the
    other application can answer, the request map holds exactly the calls sent and not returned, and
    when nothing is on the way no call is either. *)
Theorem cores_carry_calls {Permit IoError BM S Snd} `{BiMapLaws IoId (ChannelId * Id) BM} `{Semaphore S Permit}
    (ba bb : IoCoreBuilder) (qa qb : Snd) (tr tr' : list Event) (log log' : list CallEvent) (a b : Side (Permit := Permit) (BM := BM)) :
  let p := protocol ba in
  protocol bb = p → Forall ChannelConfiguration_wf (pb_channel_config p) → len (pb_channel_config p) ≤ 256 →
  MaxFrameSize_wf (pb_max_frame_size p) →
  calls_run (IoError := IoError) (initial_side (S := S) ba qa) (initial_side (S := S) bb qb) tr tr' log log' a b →
  ∃ s s', call_run ∅ log s ∧ call_run ∅ log' s' ∧ standing a b s ∧ standing b a s'.
Proof.
  intros p Hp Hc Hn Hm Hrun. pose proof (initial_accounted (S := S) ba bb qa qb Hp Hc Hn Hm) as Ha.
  destruct (accounted_run _ _ _ _ _ _ _ _ _ Ha Hrun) as [(pa & pb & la & lb & s & s' & Hj & Hl & Hl' & Ht & Ht')].
  exists s, s'. split; [done|]. split; [done|]. split; eapply tracks_standing; [exact Hj|done|by apply joined_sym|done].
Qed.
Lemma cores_carry_calls_witness :
  match call_demo with
  | Some (tr, tr', log, log', a, b) => log = call_demo_log ∧
      ∃ s s', call_run ∅ log s ∧ call_run ∅ log' s' ∧ standing a b s ∧ standing b a s'
  | None => False
  end.
Proof.
  pose proof call_demo_ok as Hok. pose proof call_demo_run as Hrun.
  destruct call_demo as [[[[[[tr tr'] log] log'] a] b]|]; [|done]. split; [apply Hok|].
  by apply (cores_carry_calls (IoError := ()) (S := Z) sample_io_builder sample_io_builder () () tr tr' log log' a b eq_refl demo_configured).
Defined.

(** C7: a response goes to the request it answers, once. Take two cores with the same protocol
    configuration, connected by two streams of bytes, in any interleaving of their operations. The
    applications queue only items for channels there are, with payloads within the limits, and no
    errors; they answer only requests they were told of, each once; and they cancel a request of
    theirs at most once while it is outstanding, and not while a message with its channel and id is
    being sent in several frames. Each request comes under an [IoId] not used before, and a parse
    does not send a request under the id whose answer it has just read. Then, when a core returns a
    response - or a cancelled response - under an [IoId], the application requested under that
    [IoId], the request was sent and reported to the other application, and this is what the other
    application answered it with, in this order; the [IoId] comes back only this once; and the core
    never finds an answer without a request. *)
Theorem answers_find_their_calls {Permit IoError BM S Snd} `{BiMapLaws IoId (ChannelId * Id) BM} `{Semaphore S Permit}
    (ba bb : IoCoreBuilder) (qa qb : Snd) (tr tr' : list Event) (log log' : list CallEvent) (a b : Side (Permit := Permit) (BM := BM)) :
  let p := protocol ba in
  protocol bb = p → Forall ChannelConfiguration_wf (pb_channel_config p) → len (pb_channel_config p) ≤ 256 →
  MaxFrameSize_wf (pb_max_frame_size p) →
  calls_run (IoError := IoError) (initial_side (S := S) ba qa) (initial_side (S := S) bb qb) tr tr' log log' a b →
  CeLost ∉ log ∧ ∀ l1 io answer l2, log = l1 ++ CeReturn io answer :: l2 →
    (∃ ch id payload, [CeCall io ch payload; CeSend ch id payload; CeTell ch id payload; CeAnswer ch id answer] `sublist_of` l1) ∧
    ∀ answer', CeReturn io answer' ∉ l1 ++ l2.
Proof.
  intros p Hp Hc Hn Hm Hrun. pose proof (initial_accounted (S := S) ba bb qa qb Hp Hc Hn Hm) as Ha.
  destruct (accounted_run _ _ _ _ _ _ _ _ _ Ha Hrun) as [(pa & pb & la & lb & s & s' & _ & Hl & _)].
  split; [by eapply call_run_not_lost|]. intros l1 io answer l2. by apply (return_accounted log s).
Qed.
Lemma answers_find_their_calls_witness :
  match call_demo with
  | Some (tr, tr', log, log', a, b) => log = take 6 log ++ CeReturn (mkIoId 2) (Some (Some [7])) :: drop 7 log ∧
      ∃ ch id payload, [CeCall (mkIoId 2) ch payload; CeSend ch id payload; CeTell ch id payload; CeAnswer ch id (Some (Some [7]))]
        `sublist_of` take 6 log
  | None => False
  end.
Proof.
  pose proof call_demo_ok as Hok. pose proof call_demo_run as Hrun.
  destruct call_demo as [[[[[[tr tr'] log] log'] a] b]|]; [|done]. destruct Hok as [Hlog _].
  assert (log = take 6 log ++ CeReturn (mkIoId 2) (Some (Some [7])) :: drop 7 log) as Hsplit by by rewrite Hlog.
  split; [exact Hsplit|].
  destruct (answers_find_their_calls (IoError := ()) (S := Z) sample_io_builder sample_io_builder () () tr tr' log log' a b eq_refl demo_configured)
    as [_ Hreturn]; [done..|]. by destruct (Hreturn _ _ _ _ Hsplit).
Defined.

(** Every call comes back.  When in such a run both cores are at rest - nothing ready, being
    written, on the way or unread - and on a channel that allows requests no response was
    cancelled and the other application has answered every request it was told of, then every
    request the application made on that channel has been returned. *)
Lemma call_returned {Permit IoError BM S Snd} `{BiMapLaws IoId (ChannelId * Id) BM} `{Semaphore S Permit}
    (ba bb : IoCoreBuilder) (qa qb : Snd) (tr tr' : list Event) (log log' : list CallEvent) (a b : Side (Permit := Permit) (BM := BM))
    (ch : ChannelId) (chn : Channel) (io : IoId) (payload : option bytes) :
  let p := protocol ba in
  protocol bb = p → Forall ChannelConfiguration_wf (pb_channel_config p) → len (pb_channel_config p) ≤ 256 →
  MaxFrameSize_wf (pb_max_frame_size p) →
  calls_run (IoError := IoError) (initial_side (S := S) ba qa) (initial_side (S := S) bb qb) tr tr' log log' a b →
  drained a b → drained b a → ChannelId_wf ch → chan_at (juliet (core a)) ch = Some chn → 0 < request_limit (config chn) →
  (∀ id, Reported (ResponseCancellation ch id) ∉ tr ∧ Reported (ResponseCancellation ch id) ∉ tr') →
  answerable b ch = ∅ → CeCall io ch payload ∈ log → ∃ answer, CeReturn io answer ∈ log.
Proof.
  intros p Hp Hc Hn Hm Hrun Hd Hd' Hch Hchn Hlim Hrep Hans Hin. pose proof (initial_accounted (S := S) ba bb qa qb Hp Hc Hn Hm) as Ha.
  destruct (accounted_run _ _ _ _ _ _ _ _ _ Ha Hrun) as [(pa & pb & la & lb & s & s' & Hj & Hl & _ & Ht & _)].
  pose proof (tracks_standing _ _ _ _ _ _ _ _ Hj Ht) as Hs. destruct (call_run_called _ _ _ _ _ Hl Hin) as [st Hst].
  destruct (both_calm (IoError := IoError) (S := S) ba bb qa qb tr tr' a b ch chn Hp Hc Hn Hm (calls_run_cores _ _ _ _ _ _ _ _ Hrun) Hch Hchn Hrep) as [Hca Hcb].
  destruct (jn_here _ _ _ _ _ _ _ Hj) as [cura Hla]. destruct (jn_there _ _ _ _ _ _ _ Hj) as [curb Hlb].
  destruct (call_run_channel _ _ _ _ _ _ Hl Hst Hin) as [(answer & _ & Hret)|Hstc]; [by exists answer|exfalso].
  destruct st as [ch' pl|ch' id pl|ch' id|ch' id answer|]; try done; injection Hstc as ->.
  - apply (sd_called _ _ _ Hs) in Hst as [permit Hq]. pose proof (in_wait_of _ _ _ _ _ _ _ _ Hla Hq eq_refl Hch) as Hw.
    destruct (waiting_request _ _ _ _ _ _ _ _ _ _ Hj Hd Hca Hch Hchn Hw) as [_ Hfull].
    rewrite (outstanding_at_rest _ _ _ _ _ _ _ _ _ Hj Hd Hd' Hch Hchn Hcb), Hans in Hfull. unfold hs_len in Hfull.
    rewrite size_empty in Hfull. lia.
  - by apply (sd_sent _ _ _ Hs) in Hst.
  - assert (id ∈ answerable b ch) as Hid by (apply (sd_told _ _ _ Hs); by exists io). rewrite Hans in Hid. set_solver.
  - destruct (sd_answered _ _ _ Hs _ _ _ _ Hst Hd') as (item & Hq & Hg).
    assert (item_channel item = Some ch) as Hic by (destruct item; naive_solver).
    pose proof (in_wait_of _ _ _ _ _ _ _ _ Hlb Hq Hic Hch) as Hw.
    pose proof (dx_same _ _ (lk_duplex _ _ _ _ _ _ Hla)) as Hsame. rewrite (lk_proto _ _ _ _ _ _ Hla), (lk_proto _ _ _ _ _ _ Hlb) in Hsame.
    destruct (same_config_chan _ _ _ _ Hsame Hchn) as (cb & Hcbn & _).
    destruct (waiting_request _ _ _ _ _ _ _ _ _ _ (joined_sym _ _ _ _ _ _ _ Hj) Hd' Hcb Hch Hcbn Hw) as [(? & ? & ? & ->) _]. done.
Qed.
