(* ===== verification/RpcSpec.v ===== *)
(** * What the RPC layer promises

    Every request handed to the client is answered exactly once, whoever answers it: the peer, a
    timeout, the closing of the connection or of the server.  The client, the server, the queue
    between them and the guards they share are one system; its steps are the operations of
    [Rpc]. *)
From Stdlib Require Import Sorting.Sorted.
From stdpp Require Import strings relations.
From S2P Require Import Prelude Lib Varint Header FrameSize OutgoingMessage Multiframe Protocol Io Rpc Instances.
From stdpp Require Import options.

(** ** Guards *)
Section guard_lemmas.
Context {C N : Type} `{OnceCellLaws C Response} `{NotifyLaws N}.
#[local] Set Default Proof Using "Type*".
Implicit Types store : GuardStore C N.

(** The answer a guard has. *)
Definition answer store (r : nat) : option Response :=
  g ← guards store !! r; cell_get (outcome g).
(** A guard without an answer: whoever waits for it is not woken up. *)
Definition unanswered store (r : nat) : Prop :=
  ∃ g n, guards store !! r = Some g ∧ cell_get (outcome g) = None ∧ ready g = Some n ∧ notified n = None.
(** A guard with an answer does not make its owner wait. *)
Definition answered store (r : nat) (v : Response) : Prop :=
  ∃ g, guards store !! r = Some g ∧ cell_get (outcome g) = Some v ∧
       ∀ n, ready g = Some n → is_Some (notified n).

Lemma answer_put store r g r' : answer (put_guard store r g) r'
  = if decide (r = r') then cell_get (outcome g) else answer store r'.
Proof.
  unfold answer, put_guard. cbn [guards]. case_decide; [subst; by rewrite lookup_insert_eq|].
  by rewrite lookup_insert_ne.
Qed.
Lemma unanswered_put store r g r' : r ≠ r' → unanswered (put_guard store r g) r' ↔ unanswered store r'.
Proof. intros Hne. unfold unanswered, put_guard. cbn [guards]. by rewrite lookup_insert_ne. Qed.
Lemma answered_put store r g r' v : r ≠ r' → answered (put_guard store r g) r' v ↔ answered store r' v.
Proof. intros Hne. unfold answered, put_guard. cbn [guards]. by rewrite lookup_insert_ne. Qed.

(** The first answer stays; it wakes up the owner. *)
Lemma set_and_notify_unanswered store r v : unanswered store r →
  ∃ store', set_and_notify store r v = Done store' ∧ next_guard store' = next_guard store ∧
    answered store' r v ∧ answer store' r = Some v ∧
    ∀ r', r' ≠ r → guards store' !! r' = guards store !! r'.
Proof.
  intros (g & n & Hg & Ho & Hr & Hn). unfold set_and_notify. rewrite Hg. cbn [unwrap]. rewrite bind_Done.
  destruct (cell_set_empty (outcome g) v Ho) as [Hs Hget]. destruct (cell_set (outcome g) v) as [set cell].
  cbn in Hs, Hget. subst set. eexists. split; [reflexivity|]. split; [done|]. split; [|split].
  - eexists. unfold put_guard. cbn [guards]. rewrite lookup_insert_eq. split; [done|]. cbn [outcome ready].
    split; [done|]. rewrite Hr. intros n' [= <-]. apply notified_one.
  - rewrite answer_put. by rewrite decide_True.
  - intros r' Hne. unfold put_guard. cbn [guards]. by rewrite lookup_insert_ne.
Qed.
Lemma set_and_notify_answered store r v w g : guards store !! r = Some g →
  cell_get (outcome g) = Some w → set_and_notify store r v = Done store.
Proof.
  intros Hg Ho. unfold set_and_notify. rewrite Hg. cbn [unwrap]. rewrite bind_Done.
  rewrite (cell_set_full _ _ w) by done. destruct g as [o n]. unfold put_guard. cbn [outcome ready].
  rewrite insert_id by done. by destruct store.
Qed.
Lemma set_and_notify_stable store store' r v r' w : set_and_notify store r v = Done store' →
  answer store r' = Some w → answer store' r' = Some w.
Proof.
  unfold answer at 1. intros Hs Ha. destruct (guards store !! r') as [g'|] eqn:Hg'; [|done]. cbn in Ha.
  destruct (decide (r = r')) as [->|Hne].
  - rewrite (set_and_notify_answered store r' v w g') in Hs by done. injection Hs as <-.
    unfold answer. by rewrite Hg'.
  - unfold set_and_notify in Hs. destruct (guards store !! r) as [g|]; [|done]. cbn [unwrap] in Hs.
    rewrite bind_Done in Hs. destruct (cell_set (outcome g) v) as [[|] cell];
      injection Hs as <-; rewrite answer_put, decide_False by done; unfold answer; by rewrite Hg'.
Qed.

Lemma wait_unanswered store g : unanswered store (inner g) →
  wait_for_response store g = Done (None, store) ∧ try_get_response store g = Done (Err g).
Proof.
  intros (x & n & Hg & Ho & Hr & Hn). unfold wait_for_response, try_get_response. rewrite Hg.
  cbn [unwrap]. rewrite !bind_Done, Hr, Hn, Ho. done.
Qed.
Lemma wait_answered store g v : answered store (inner g) v →
  (∃ store', wait_for_response store g = Done (Some v, store') ∧ next_guard store' = next_guard store ∧
     answer store' (inner g) = Some v ∧
     ∀ r', r' ≠ inner g → guards store' !! r' = guards store !! r') ∧
  try_get_response store g = Done (Ok v).
Proof.
  intros (x & Hg & Ho & Hr). unfold wait_for_response, try_get_response. rewrite Hg.
  cbn [unwrap]. rewrite !bind_Done, Ho. unfold take_inner. split.
  - destruct (ready x) as [n|] eqn:Hn.
    + destruct (Hr n eq_refl) as [n' Hn']. rewrite Hn'. set (store' := put_guard _ _ _).
      assert (guards store' !! inner g = Some (mkRequestGuardInner (outcome x) (Some n'))) as ->
        by apply lookup_insert_eq.
      cbn [unwrap]. rewrite bind_Done. cbn [outcome]. rewrite Ho.
      exists store'. split; [done|]. split; [done|]. split.
      * unfold store'. rewrite answer_put. by rewrite decide_True.
      * intros r' Hne. unfold store', put_guard. cbn [guards]. by rewrite lookup_insert_ne.
    + rewrite Hg. cbn [unwrap]. rewrite bind_Done, Ho. exists store. split; [done|]. split; [done|].
      split; [|done]. unfold answer. by rewrite Hg.
  - rewrite Hg. cbn [unwrap]. rewrite bind_Done, Ho. done.
Qed.

(** Making a guard: with an answer, or without. *)
Lemma new_error_Done store e : ∃ store',
  RequestGuard_new_error store e = Done (mkRequestGuard (next_guard store), store') ∧
  next_guard store' = S (next_guard store) ∧ answered store' (next_guard store) (Err e) ∧
  ∀ r', r' ≠ next_guard store → guards store' !! r' = guards store !! r'.
Proof.
  unfold RequestGuard_new_error. destruct (cell_set_empty cell_new (Err e : Response) cell_get_new) as [Hs Hget].
  destruct (cell_set cell_new _) as [set cell]. cbn in Hs, Hget. subst set. cbn [assert]. rewrite bind_Done.
  unfold alloc_guard. eexists. split; [reflexivity|]. split; [done|]. split.
  - eexists. cbn [guards]. rewrite lookup_insert_eq. split; [done|]. by cbn [outcome ready].
  - intros r' Hne. cbn [guards]. by rewrite lookup_insert_ne.
Qed.
Lemma alloc_guard_unanswered store :
  unanswered (alloc_guard store RequestGuardInner_new).2 (next_guard store).
Proof.
  unfold unanswered, alloc_guard, RequestGuardInner_new. cbn [snd guards]. rewrite lookup_insert_eq.
  do 2 eexists. split; [done|]. cbn [outcome ready]. split; [apply cell_get_new|]. split; [done|]. apply notified_new.
Qed.
Lemma unanswered_lookup store store' r : guards store' !! r = guards store !! r →
  unanswered store r → unanswered store' r.
Proof. unfold unanswered. by intros ->. Qed.
Lemma answered_lookup store store' r v : guards store' !! r = guards store !! r →
  answered store r v → answered store' r v.
Proof. unfold answered. by intros ->. Qed.
Lemma unanswered_not_answered store r v : unanswered store r → answered store r v → False.
Proof. intros (g & n & Hg & Ho & _) (g' & Hg' & Ho' & _). congruence. Qed.
End guard_lemmas.

(** ** Timeouts *)

Definition heap_sorted (heap : Heap) : Prop := StronglySorted (λ a b, timeout_le a b = true) heap.

Lemma timeout_le_total a b : timeout_le a b = false → timeout_le b a = true.
Proof. unfold timeout_le. rewrite orb_false_iff, andb_false_iff, orb_true_iff, andb_true_iff. lia. Qed.
Lemma timeout_le_trans a b c : timeout_le a b = true → timeout_le b c = true → timeout_le a c = true.
Proof. unfold timeout_le. rewrite !orb_true_iff, !andb_true_iff. lia. Qed.
Lemma timeout_le_fst a b : timeout_le a b = true → a.1 ≤ b.1.
Proof. unfold timeout_le. rewrite orb_true_iff, andb_true_iff. lia. Qed.

Lemma heap_push_elem heap t x : x ∈ heap_push heap t ↔ x = t ∨ x ∈ heap.
Proof.
  induction heap as [|y heap IH]; cbn [heap_push]; [set_solver|].
  destruct (timeout_le t y); rewrite ?elem_of_cons; [done|]. rewrite IH. tauto.
Qed.
Lemma heap_push_sorted heap t : heap_sorted heap → heap_sorted (heap_push heap t).
Proof.
  unfold heap_sorted. induction heap as [|y heap IH]; cbn [heap_push].
  { intros _. constructor; [constructor|apply Forall_nil_2]. }
  intros Hs. inversion_clear Hs as [|? ? Hs' Hy]. destruct (timeout_le t y) eqn:E.
  - constructor; [by constructor|]. constructor; [done|]. eapply Forall_impl; [exact Hy|].
    intros z Hz. by eapply timeout_le_trans.
  - constructor; [auto|]. apply Forall_forall. intros z [->|Hz]%heap_push_elem.
    + by apply timeout_le_total.
    + by eapply Forall_forall in Hy.
Qed.

Definition overdue (now : Z) (t : Timeout) : Prop := t.1 ≤ now.
#[export] Instance overdue_dec now t : Decision (overdue now t).
Proof. unfold overdue. apply _. Defined.

Lemma filter_all_not {A} (P : A → Prop) `{∀ x, Decision (P x)} (l : list A) :
  Forall (λ x, ¬ P x) l → filter P l = [] ∧ filter (λ x, ¬ P x) l = l.
Proof.
  induction 1 as [|x l Hx Hl [IH1 IH2]]; [done|]. rewrite !filter_cons.
  rewrite decide_False by done. rewrite decide_True by done. split; [done|by rewrite IH2].
Qed.

(** What is drained is what is overdue, in the order of the deadlines. *)
Lemma drain_overdue now : ∀ fuel heap, heap_sorted heap → (length heap < fuel)%nat →
  drain_heap_while_from fuel heap (λ t, t.1 <=? now)
  = Done (filter (overdue now) heap, filter (λ t, ¬ overdue now t) heap).
Proof.
  induction fuel as [|fuel IH]; intros heap Hs Hf; [lia|]. cbn [drain_heap_while_from].
  destruct heap as [|t heap]; [done|]. unfold drain_next. cbn [heap_peek head].
  inversion_clear Hs as [|? ? Hs' Ht]. cbn [length] in Hf. rewrite !filter_cons.
  destruct (Z.leb_spec t.1 now) as [Hle|Hgt].
  - cbn [heap_pop head tail unwrap]. rewrite !bind_Done, IH by (done || lia). rewrite bind_Done.
    rewrite decide_True by done. rewrite decide_False by (intros Hn; by apply Hn). done.
  - rewrite bind_Done. assert (Forall (λ x, ¬ overdue now x) heap) as Hall.
    { eapply Forall_impl; [exact Ht|]. intros x Hx%timeout_le_fst. unfold overdue. lia. }
    assert (¬ overdue now t) as Hn by (unfold overdue; lia).
    destruct (filter_all_not _ _ Hall) as [-> ->]. rewrite decide_False by done. by rewrite decide_True.
Qed.
Lemma drain_heap_while_Done now heap : heap_sorted heap →
  drain_heap_while heap (λ t, t.1 <=? now)
  = Done (filter (overdue now) heap, filter (λ t, ¬ overdue now t) heap).
Proof. intros. apply drain_overdue; [done|lia]. Qed.

Lemma StronglySorted_filter {A} (R : A → A → Prop) (P : A → Prop) `{∀ x, Decision (P x)} l :
  StronglySorted R l → StronglySorted R (filter P l).
Proof.
  induction 1 as [|x l Hs IH Hx]; [constructor|]. rewrite filter_cons. case_decide; [|done].
  constructor; [done|]. apply Forall_forall. intros y [_ Hy]%list_elem_of_filter.
  by eapply Forall_forall in Hx.
Qed.

Section server_lemmas.
Context {Permit IoError BM Snd C N : Type} `{BiMap IoId (ChannelId * Id) BM}.
Context `{SenderLaws Snd (QueuedItem Permit)} `{OnceCellLaws C Response} `{NotifyLaws N}.
#[local] Set Default Proof Using "Type*".
Abbreviation Server := (JulietRpcServer Permit BM Snd).
Implicit Types (self : Server) (store : GuardStore C N).

(** Every pending request has a guard of its own that is still waiting. *)
Record pending_ok self store : Prop := {
  po_waiting io r : pending self !! io = Some r → unanswered store r;
  po_own io io' r : pending self !! io = Some r → pending self !! io' = Some r → io = io';
}.

(** [gone] are the requests taken out of [pending]: each gets [v] and nothing else changes. *)
Record resolved self self' store store' (gone : list IoId) (v : Response) : Prop := {
  rs_pending io : pending self' !! io = if decide (io ∈ gone) then None else pending self !! io;
  rs_gone : NoDup gone;
  rs_was io : io ∈ gone → is_Some (pending self !! io);
  rs_answered io r : io ∈ gone → pending self !! io = Some r → answered store' r v;
  rs_others r : (∀ io, io ∈ gone → pending self !! io ≠ Some r) → guards store' !! r = guards store !! r;
  rs_next : next_guard store' = next_guard store;
  rs_core : core self' = core self;
  rs_timeouts : timeouts self' = timeouts self;
  rs_bubble : bubble_timeouts self' = bubble_timeouts self;
  rs_closed : new_requests_closed self' = new_requests_closed self;
}.

Lemma resolved_nil self h store v : resolved self (set_handle self h) store store [] v.
Proof.
  constructor; try done; [apply NoDup_nil_2|intros io Hio; by apply elem_of_nil in Hio
                         |intros io r Hio; by apply elem_of_nil in Hio].
Qed.

Lemma pending_ok_resolved self self' store store' gone v :
  resolved self self' store store' gone v → pending_ok self store → pending_ok self' store'.
Proof.
  intros Hr Hp. constructor.
  - intros io r. rewrite (rs_pending _ _ _ _ _ _ Hr). case_decide as Hg; [done|]. intros Hio.
    eapply unanswered_lookup; [|by eapply po_waiting]. apply (rs_others _ _ _ _ _ _ Hr).
    intros io' Hio' Hr'. assert (io = io') as <- by by eapply (po_own _ _ Hp). done.
  - intros io io' r. rewrite !(rs_pending _ _ _ _ _ _ Hr). do 2 (case_decide; [done|]). apply (po_own _ _ Hp).
Qed.

Lemma resolved_cons self self' h store store1 store' io r gone v :
  pending self !! io = Some r → pending_ok self store →
  next_guard store1 = next_guard store → answered store1 r v →
  (∀ r', r' ≠ r → guards store1 !! r' = guards store !! r') →
  resolved (set_handle (set_pending self (delete io (pending self))) h) self' store1 store' gone v →
  resolved self self' store store' (io :: gone) v.
Proof.
  intros Hio Hok Hn Ha Ho [Hp Hnd Hwas Hans Hoth Hnext Hcore Ht Hb Hc].
  cbn [set_handle set_pending pending core timeouts bubble_timeouts new_requests_closed] in *.
  assert (io ∉ gone) as Hng.
  { intros Hin. destruct (Hwas io Hin) as [x Hx]. by rewrite lookup_delete_eq in Hx. }
  assert (∀ io', io' ∈ gone → delete io (pending self) !! io' = pending self !! io') as Hdel.
  { intros io' Hin. apply lookup_delete_ne. by intros ->. }
  constructor; try done.
  - intros io'. rewrite Hp. destruct (decide (io' = io)) as [->|Hne].
    + rewrite (decide_True (P := io ∈ io :: gone)) by set_solver. case_decide; [done|].
      apply lookup_delete_eq.
    + rewrite lookup_delete_ne by done. destruct (decide (io' ∈ gone)).
      * by rewrite decide_True by set_solver.
      * by rewrite decide_False by set_solver.
  - by apply NoDup_cons.
  - intros io' [->|Hin]%elem_of_cons; [by exists r|]. rewrite <- Hdel by done. by apply Hwas.
  - intros io' r' [->|Hin]%elem_of_cons Hr'.
    + assert (r' = r) as -> by congruence. eapply answered_lookup; [|exact Ha]. apply Hoth.
      intros io' Hin. rewrite Hdel by done. intros Hr2.
      assert (io' = io) as -> by by eapply (po_own _ _ Hok). done.
    + apply (Hans io'); [done|]. by rewrite Hdel.
  - intros r' Hnot. rewrite Hoth.
    + apply Ho. intros ->. apply (Hnot io); [apply elem_of_cons; by left|done].
    + intros io' Hin. rewrite Hdel by done. apply Hnot. apply elem_of_cons. by right.
  - by rewrite Hnext.
Qed.

Lemma gone_size self self' store store' gone v :
  resolved self self' store store' gone v → len gone ≤ Z.of_nat (size (pending self)).
Proof.
  intros Hr. unfold len. rewrite <- size_dom.
  assert (size (list_to_set gone : gset IoId) = length gone) as <- by apply size_list_to_set, Hr.
  apply Nat2Z.inj_le, subseteq_size. intros io Hio%elem_of_list_to_set.
  by apply elem_of_dom, (rs_was _ _ _ _ _ _ Hr).
Qed.

(** The loop over the expired timeouts. *)
Lemma expire_all_spec items : ∀ self store n, pending_ok self store →
  ∃ gone self' store',
    (expire_all self store n items = Done (n + len gone, (self', store')) ∨
     expire_all self store n items = Panicked ∧ usize_max < n + len gone) ∧
    resolved self self' store store' gone (Err TimedOut) ∧
    (∀ io, io ∈ gone ↔ is_Some (pending self !! io) ∧ io ∈ items.*2) ∧
    (closed (sender (handle self)) = true → handle self' = handle self) ∧
    (closed (sender (handle self)) = false →
       closed (sender (handle self')) = false ∧
       queued (sender (handle self')) = queued (sender (handle self)) ++ map QRequestCancellation gone).
Proof.
  induction items as [|[d io] items IH]; intros self store n Hok; cbn [expire_all].
  { exists [], self, store. change (len (@nil IoId)) with 0. rewrite Z.add_0_r. split; [by left|].
    split; [by destruct self; apply (resolved_nil (mkJulietRpcServer _ _ _ _ _ _) (_))|].
    split; [intros io; cbn; set_solver|]. split; [done|]. intros Hc. cbn [map]. by rewrite app_nil_r. }
  destruct (pending self !! io) as [r|] eqn:Hio.
  - destruct (set_and_notify_unanswered store r (Err TimedOut)) as (store1 & Hs & Hnext & Ha & _ & Ho);
      [by eapply po_waiting|]. rewrite Hs, bind_Done.
    unfold enqueue_request_cancellation, enqueue_item.
    destruct (send (sender (handle (set_pending self (delete io (pending self))))) (QRequestCancellation io))
      as [sent sn] eqn:Hsend.
    cbn [set_pending handle] in Hsend.
    set (self1 := set_handle _ _).
    assert (resolved self self1 store store1 [io] (Err TimedOut)) as Hr1.
    { eapply resolved_cons; [exact Hio|done..|]. apply (resolved_nil self1). }
    destruct (IH self1 store1 (n + 1)) as (gone & self' & store' & Hd & Hr & Hg & Hcl & Hop).
    { by eapply pending_ok_resolved. }
    exists (io :: gone), self', store'. pose proof (len_nonneg gone). rewrite len_cons, Z.add_assoc. split.
    { unfold uadd. case_decide; [rewrite bind_Done; exact Hd|]. right. split; [done|lia]. }
    split; [by eapply resolved_cons|]. split; [|split].
    + intros io'. rewrite elem_of_cons, Hg. cbn [self1 set_handle set_pending pending fmap list_fmap snd].
      rewrite elem_of_cons. destruct (decide (io' = io)) as [->|Hne]; [by rewrite Hio; naive_solver|].
      rewrite lookup_delete_ne by done. naive_solver.
    + intros Hc. rewrite send_closed in Hsend by done. injection Hsend as <- <-.
      rewrite Hcl by done. cbn. by destruct (handle self).
    + intros Hc. destruct (send_open _ (QRequestCancellation io) Hc) as (H1' & H2' & H3').
      rewrite Hsend in H1', H2', H3'. cbn [fst snd] in *. destruct (Hop H3') as [? Hq]. split; [done|].
      rewrite Hq. cbn [self1 set_handle handle sender map]. rewrite H2'. by rewrite <- app_assoc.
  - destruct (IH self store n Hok) as (gone & self' & store' & Hd & Hr & Hg & Hcl & Hop).
    exists gone, self', store'. split_and!; try done. intros io'. rewrite Hg. cbn [fmap list_fmap snd].
    rewrite elem_of_cons. destruct (decide (io' = io)) as [->|Hne]; [rewrite Hio; naive_solver|naive_solver].
Qed.

(** An answer for a request: the one that waits for it, if any, gets it. *)
Definition waiting_for self (io : IoId) : list IoId :=
  match pending self !! io with Some _ => [io] | None => [] end.

Lemma resolve_spec self store io v : pending_ok self store →
  ∃ self' store', resolve self store io v = Done (self', store') ∧ handle self' = handle self ∧
    resolved self self' store store' (waiting_for self io) v.
Proof.
  intros Hok. unfold resolve, waiting_for. destruct (pending self !! io) as [r|] eqn:Hio.
  - destruct (set_and_notify_unanswered store r v) as (store1 & Hs & Hnext & Ha & _ & Ho);
      [by eapply po_waiting|]. rewrite Hs, bind_Done. do 2 eexists. split; [reflexivity|]. split; [done|].
    eapply (resolved_cons self _ (handle self)); [exact Hio|done..|].
    constructor; try done; [apply NoDup_nil_2|intros x Hx; by apply elem_of_nil in Hx
                           |intros x y Hx; by apply elem_of_nil in Hx].
  - exists self, store. split; [done|]. split; [done|].
    by destruct self; apply (resolved_nil (mkJulietRpcServer _ _ _ _ _ _) (_)).
Qed.

Lemma take_new_request_spec self store request :
  pending_ok self store → unanswered store (guard request) →
  (∀ io, pending self !! io ≠ Some (guard request)) →
  let io := rt_io_id (ticket request) in
  pending self !! io = None → heap_sorted (timeouts self) →
  ∃ self' store', take_new_request self store request = Done (self', store') ∧
    pending_ok self' store' ∧ heap_sorted (timeouts self') ∧ next_guard store' = next_guard store ∧
    (∀ r, r ≠ guard request → guards store' !! r = guards store !! r) ∧
    (pending self' = <[io := guard request]> (pending self) ∧ store' = store ∧
       (∀ t, t ∈ timeouts self' ↔ t ∈ timeouts self ∨ ∃ e, expires request = Some e ∧ t = (e, io)) ∨
     ∃ payload, pending self' = pending self ∧ timeouts self' = timeouts self ∧
       answered store' (guard request) (Err (RemoteClosed payload))).
Proof.
  intros Hok Hu Hnew io Hio Hs. unfold take_new_request.
  unfold enqueue_request. destruct (send _ _) as [sent sn]. fold io. destruct sent as [item|[]].
  - cbn [handle]. destruct (set_and_notify_unanswered store (guard request) (Err (RemoteClosed (into_payload item))))
      as (store1 & Hst & Hnext & Ha & _ & Ho); [done|]. rewrite Hst, bind_Done.
    do 2 eexists. split; [reflexivity|]. cbn [set_handle pending timeouts]. split; [|split; [done|]].
    { constructor.
      - intros io' r Hr. eapply unanswered_lookup; [|by eapply po_waiting]. apply Ho.
        intros ->. by apply (Hnew io').
      - apply (po_own _ _ Hok). }
    split; [done|]. split; [done|]. right. by eexists.
  - exists (match expires request with
            | Some expires => set_timeouts (set_pending (set_handle self (mkHandle sn)) (<[io := guard request]> (pending self)))
                                (heap_push (timeouts self) (expires, io))
            | None => set_pending (set_handle self (mkHandle sn)) (<[io := guard request]> (pending self))
            end), store.
    split; [by destruct (expires request)|].
    split; [|split; [|split; [done|split; [done|left; split; [by destruct (expires request)|split; [done|]]]]]].
    + assert (∀ io' r, <[io := guard request]> (pending self) !! io' = Some r →
        (io' = io ∧ r = guard request) ∨ (io' ≠ io ∧ pending self !! io' = Some r)) as Hlk.
      { intros io' r. rewrite lookup_insert_Some. naive_solver. }
      constructor.
      * intros io' r Hr. assert (<[io := guard request]> (pending self) !! io' = Some r) as Hr'
          by by destruct (expires request).
        apply Hlk in Hr' as [[-> ->]|[_ Hr']]; [done|by eapply po_waiting].
      * intros io1 io2 r H1' H2'.
        assert (<[io := guard request]> (pending self) !! io1 = Some r) as Hr1 by by destruct (expires request).
        assert (<[io := guard request]> (pending self) !! io2 = Some r) as Hr2 by by destruct (expires request).
        apply Hlk in Hr1 as [[-> ->]|[_ Hr1]], Hr2 as [[-> Heq]|[_ Hr2]]; try done;
          [by apply Hnew in Hr2|subst r; by apply Hnew in Hr1|by eapply (po_own _ _ Hok)].
    + destruct (expires request); cbn [set_timeouts set_pending set_handle timeouts]; [|done].
      by apply heap_push_sorted.
    + intros t. destruct (expires request) as [e|]; cbn [set_timeouts set_pending set_handle timeouts].
      * rewrite heap_push_elem. naive_solver.
      * naive_solver.
Qed.

(** Panics are for counts that do not fit and for the end of time. *)
Lemma process_timeouts_spec instant_max self store now :
  heap_sorted (timeouts self) → pending_ok self store →
  ∃ deadline gone self' store',
    (process_timeouts instant_max self store now = Done ((deadline, len gone), (self', store')) ∨
     process_timeouts instant_max self store now = Panicked ∧
       (usize_max < len gone ∨ instant_max < now + Duration_from_secs 3600)) ∧
    resolved (set_timeouts self (filter (λ t, ¬ overdue now t) (timeouts self))) self' store store' gone (Err TimedOut) ∧
    (∀ io, io ∈ gone ↔ is_Some (pending self !! io) ∧ io ∈ (filter (overdue now) (timeouts self)).*2) ∧
    deadline = match timeouts self' with t :: _ => t.1 | [] => now + Duration_from_secs 3600 end ∧
    (closed (sender (handle self)) = false → closed (sender (handle self')) = false ∧
       queued (sender (handle self')) = queued (sender (handle self)) ++ map QRequestCancellation gone) ∧
    (closed (sender (handle self)) = true → handle self' = handle self).
Proof.
  intros Hs Hok. unfold process_timeouts.
  rewrite drain_heap_while_Done by done. rewrite bind_Done.
  set (self0 := set_timeouts self _).
  destruct (expire_all_spec (filter (overdue now) (timeouts self)) self0 store 0)
    as (gone & self' & store' & Hd & Hr & Hg & Hcl & Hop).
  { by constructor; [apply (po_waiting self)|apply (po_own self store)]. }
  cbn [self0 set_timeouts pending handle] in *. rewrite Z.add_0_l in Hd.
  exists (match timeouts self' with t :: _ => t.1 | [] => now + Duration_from_secs 3600 end), gone, self', store'.
  split; [|split; [done|split; [done|split; [done|split; [intros Hc; by apply Hop|done]]]]].
  destruct Hd as [-> | [-> Hbig]]; [|right; split; [done|by left]].
  rewrite bind_Done. unfold heap_peek. destruct (timeouts self') as [|[d io] heap]; cbn [head]; [|by left].
  unfold uadd. case_decide; [by left|]. right. split; [done|]. right. lia.
Qed.

(** C28: the timeouts that are due: exactly the pending requests with a deadline that has passed
    are taken out, each is answered with [TimedOut] - asking for the answer gives it, and whoever
    waits for it is woken up and gets it -, and, if the queue to the core is open, a
    cancellation for each is queued; later deadlines stay, no other guard is touched, the number
    reported is that of the requests timed out, and the next check is at the first deadline
    left, or in an hour. *)
Theorem process_timeouts_correct instant_max self store now :
  heap_sorted (timeouts self) → pending_ok self store →
  Z.of_nat (size (pending self)) ≤ usize_max → now + Duration_from_secs 3600 ≤ instant_max →
  ∃ deadline gone self' store',
    process_timeouts instant_max self store now = Done ((deadline, len gone), (self', store')) ∧
    NoDup gone ∧
    (∀ io, io ∈ gone ↔ is_Some (pending self !! io) ∧ ∃ d, (d, io) ∈ timeouts self ∧ d ≤ now) ∧
    (∀ io, pending self' !! io = if decide (io ∈ gone) then None else pending self !! io) ∧
    (∀ t, t ∈ timeouts self' ↔ t ∈ timeouts self ∧ now < t.1) ∧ heap_sorted (timeouts self') ∧
    (∀ io r, pending self !! io = Some r →
       if decide (io ∈ gone)
       then try_get_response store' (mkRequestGuard r) = Done (Ok (Err TimedOut)) ∧
            ∃ store'', wait_for_response store' (mkRequestGuard r) = Done (Some (Err TimedOut), store'')
       else guards store' !! r = guards store !! r) ∧
    (closed (sender (handle self)) = false →
       queued (sender (handle self')) = queued (sender (handle self)) ++ map QRequestCancellation gone) ∧
    deadline = match timeouts self' with t :: _ => t.1 | [] => now + Duration_from_secs 3600 end.
Proof.
  intros Hs Hok Hsize Hmax.
  destruct (process_timeouts_spec instant_max self store now Hs Hok)
    as (deadline & gone & self' & store' & Hp & Hr & Hg & Hd & Hq & _).
  pose proof (λ Hc, proj2 (Hq Hc)) as Hqueue. destruct Hp as [Hp|[_ Hp]].
  2:{ apply gone_size in Hr. cbn [set_timeouts pending] in Hr. exfalso. destruct Hp; lia. }
  exists deadline, gone, self', store'. split; [done|]. split; [apply Hr|].
  pose proof (rs_timeouts _ _ _ _ _ _ Hr) as Ht. cbn [set_timeouts timeouts] in Ht.
  split; [|split; [apply Hr|split; [|split; [|split; [|done]]]]].
  - intros io. rewrite Hg, list_elem_of_fmap. apply and_iff_compat_l. split.
    + intros ([d io'] & -> & Hin). apply list_elem_of_filter in Hin as [Ho Hin]. by exists d.
    + intros (d & Hin & Hle). exists (d, io). split; [done|]. by apply list_elem_of_filter.
  - intros t. rewrite Ht, list_elem_of_filter. unfold overdue. rewrite Z.nle_gt. tauto.
  - rewrite Ht. by apply StronglySorted_filter.
  - intros io r Hio. case_decide as Hin.
    + destruct (wait_answered store' (mkRequestGuard r) (Err TimedOut)) as [(store'' & Hwait & _) Htry];
        [by eapply (rs_answered _ _ _ _ _ _ Hr)|]. split; [done|by exists store''].
    + apply (rs_others _ _ _ _ _ _ Hr). intros io' Hin' Hr'. cbn in Hr'.
      assert (io = io') as <- by by eapply (po_own _ _ Hok). done.
Qed.

(** An event of the core: a request from the peer is handed on as it arrived, with a way
    to answer it; a response or a cancellation from the peer answers the request that waits for
    it with the payload as received, wakes up its owner and releases it, and touches no other
    request; for a request nobody waits for any more it changes nothing. *)
Lemma handle_event_correct self store event : pending_ok self store →
  ∃ r self' store', handle_event self store event = Done (r, (self', store')) ∧ pending_ok self' store' ∧
  match event with
  | EvNewRequest channel id payload =>
      r = Some (mkIncomingRequest channel id payload (Some (handle self))) ∧ self' = self ∧ store' = store
  | EvRequestCancelled _ _ => r = None ∧ self' = self ∧ store' = store
  | EvReceivedResponse io _ | EvReceivedCancellationResponse io =>
      let v := match event with EvReceivedResponse _ payload => Ok payload | _ => Err RemoteCancelled end in
      r = None ∧ handle self' = handle self ∧ timeouts self' = timeouts self ∧
      pending self' = delete io (pending self) ∧
      (∀ g, pending self !! io = Some g → try_get_response store' (mkRequestGuard g) = Done (Ok v)) ∧
      ∀ g, pending self !! io ≠ Some g → guards store' !! g = guards store !! g
  end.
Proof.
  intros Hok. destruct event as [channel id payload|channel id|io payload|io]; cbn [handle_event].
  1: by do 3 eexists. 1: by do 3 eexists.
  all: match goal with |- context [resolve _ _ _ ?v] =>
    destruct (resolve_spec self store io v Hok) as (self' & store' & -> & Hh & Hr) end.
  all: rewrite bind_Done; exists None, self', store'; split; [done|].
  all: split; [by eapply pending_ok_resolved|]; split; [done|]; split; [done|].
  all: split; [apply (rs_timeouts _ _ _ _ _ _ Hr)|].
  all: pose proof (rs_pending _ _ _ _ _ _ Hr) as Hp; unfold waiting_for in *.
  all: split; [|split].
  all: try (apply map_eq; intros x; rewrite Hp; destruct (decide (x = io)) as [->|Hne];
    [rewrite lookup_delete_eq; destruct (pending self !! io) eqn:E;
       [by rewrite decide_True by set_solver|by rewrite decide_False by set_solver]
    |rewrite lookup_delete_ne by done; rewrite decide_False; [done|destruct (pending self !! io); set_solver]]).
  all: try (intros g Hg; apply wait_answered; eapply (rs_answered _ _ _ _ _ _ Hr io); [|done];
    rewrite Hg; set_solver).
  all: intros g Hg; apply (rs_others _ _ _ _ _ _ Hr); intros x Hx; destruct (pending self !! io) eqn:E;
    set_solver.
Qed.
End server_lemmas.

(** ** A server to evaluate *)
Definition sample_server : JulietRpcServer () (list (IoId * (ChannelId * Id))) (ListQueue (QueuedItem ())) :=
  mkJulietRpcServer
    (mkIoCore (mkJulietProtocol [] (mkMaxFrameSize 10)) [] 0 None 0 None [] [] [] false bm_new [])
    (mkHandle (mkListQueue [] false)) {[mkIoId 3 := 0%nat; mkIoId 4 := 1%nat]}
    [(5, mkIoId 3); (90, mkIoId 4)] false false.
Definition sample_store : GuardStore (option Response) bool :=
  (alloc_guard (alloc_guard (mkGuardStore ∅ 0%nat) RequestGuardInner_new).2 RequestGuardInner_new).2.
Lemma sample_pending_ok : pending_ok sample_server sample_store.
Proof.
  assert (∀ io r, pending sample_server !! io = Some r →
    (io = mkIoId 3 ∧ r = 0%nat) ∨ (io = mkIoId 4 ∧ r = 1%nat)) as Hl.
  { intros io r Hr. cbn in Hr. apply lookup_insert_Some in Hr as [[<- <-]|[_ Hr]]; [by left|].
    apply lookup_singleton_Some in Hr as [<- <-]. by right. }
  constructor.
  - intros io r [[_ ->]|[_ ->]]%Hl; by do 2 eexists.
  - intros io io' r [[-> ->]|[-> ->]]%Hl [[-> ?]|[-> ?]]%Hl; done.
Qed.
Lemma sample_sorted : heap_sorted (timeouts sample_server).
Proof. do 2 (constructor; [|repeat constructor]). constructor. Qed.

(** At time 10 the first request is overdue. *)
Lemma process_timeouts_correct_witness :
  ∃ deadline gone self' store',
    process_timeouts (2 ^ 63) sample_server sample_store 10 = Done ((deadline, len gone), (self', store')) ∧
    (∀ io, io ∈ gone ↔ is_Some (pending sample_server !! io) ∧ ∃ d, (d, io) ∈ timeouts sample_server ∧ d ≤ 10) ∧
    (∃ store'', wait_for_response sample_store (mkRequestGuard 0) = Done (None, sample_store) ∧
       wait_for_response store' (mkRequestGuard 0) = Done (Some (Err TimedOut), store'')) ∧
    deadline = match timeouts self' with t :: _ => t.1 | [] => 10 + Duration_from_secs 3600 end.
Proof.
  destruct (process_timeouts_correct (2 ^ 63) sample_server sample_store 10 sample_sorted sample_pending_ok)
    as (deadline & gone & self' & store' & Hp & _ & Hg & _ & _ & _ & Hr & _ & Hd);
    [vm_compute; discriminate|vm_compute; discriminate|].
  exists deadline, gone, self', store'. split; [done|]. split; [done|]. split; [|done].
  assert (mkIoId 3 ∈ gone) as Hin by (apply Hg; split; [by eexists|]; exists 5; split; [by left|lia]).
  specialize (Hr (mkIoId 3) 0%nat eq_refl). rewrite decide_True in Hr by done. destruct Hr as [_ [store'' Hw]].
  exists store''. split; [by vm_compute|done].
Defined.


(** ** Answering a request of the peer *)

Section incoming_lemmas.
Context {Permit Snd : Type} `{SenderLaws Snd (QueuedItem Permit)}.
#[local] Set Default Proof Using "Type*".

(** What ends the life of an incoming request: an answer, a cancellation, its destructor. *)
Inductive Ending := EndRespond (payload : option bytes) | EndCancel | EndDrop.
Definition end_request (self : IncomingRequest Snd) (e : Ending) : exec (option (Handle Snd) * IncomingRequest Snd) :=
  match e with
  | EndRespond payload => IncomingRequest_respond self payload
  | EndCancel => IncomingRequest_cancel self
  | EndDrop => IncomingRequest_drop self
  end.
Definition ending_item (self : IncomingRequest Snd) (e : Ending) : QueuedItem Permit :=
  match e with
  | EndRespond payload => QResponse (ir_channel self) (ir_id self) payload
  | _ => QResponseCancellation (ir_channel self) (ir_id self)
  end.

Lemma enqueue_item_spec (h : Handle Snd) (item : QueuedItem Permit) : ∃ sent h',
  enqueue_item h item = (sent, h') ∧ ignore_closed sent = Done () ∧
  queued (sender h') = queued (sender h) ++ (if closed (sender h) then [] else [item]) ∧
  closed (sender h') = closed (sender h).
Proof.
  unfold enqueue_item. destruct (closed (sender h)) eqn:Hc.
  - rewrite send_closed by done. do 2 eexists. split; [reflexivity|]. split; [done|]. split; [by rewrite app_nil_r|exact Hc].
  - destruct (send_open _ item Hc) as (H1' & H2' & H3'). destruct (send (sender h) item) as [sent q].
    cbn [fst snd] in *. subst sent. do 2 eexists. by split; [reflexivity|].
Qed.

Lemma end_request_sends (self : IncomingRequest Snd) h e : ir_handle self = Some h →
  ∃ h', end_request self e = Done (Some h', mkIncomingRequest (ir_channel self) (ir_id self) (ir_payload self) None) ∧
    queued (sender h') = queued (sender h) ++ (if closed (sender h) then [] else [ending_item self e]) ∧
    closed (sender h') = closed (sender h).
Proof.
  intros Hh. destruct (enqueue_item_spec h (ending_item self e)) as (sent & h' & He & Hi & Hq). exists h'. split; [|done].
  destruct e; cbn [end_request ending_item] in *;
    unfold IncomingRequest_respond, IncomingRequest_cancel, IncomingRequest_drop, IncomingRequest_do_cancel, take_handle,
      enqueue_response, enqueue_response_cancellation; rewrite Hh; cbn [ir_channel ir_id];
    rewrite He, Hi; by rewrite ?bind_Done.
Qed.

(** C29: a request from the peer is answered at most once, and exactly once unless the
    connection is closed: responding, cancelling or dropping it queues exactly one message for
    it - the response with the payload given, or the cancellation of the response - takes the
    handle away, and whatever ends it afterwards, such as the destructor that runs at the end
    of [respond], sends nothing more. *)
Theorem incoming_answered_once (self : IncomingRequest Snd) h e : ir_handle self = Some h →
  ∃ h' self', end_request self e = Done (Some h', self') ∧
    queued (sender h') = queued (sender h) ++ (if closed (sender h) then [] else [ending_item self e]) ∧
    ir_handle self' = None ∧
    ∀ e', end_request self' e' = Done (None, self').
Proof.
  intros Hh. destruct (end_request_sends self h e Hh) as (h' & He & Hq & _). do 2 eexists. split; [exact He|]. split; [done|].
  split; [done|]. by intros [pl'| |].
Qed.
End incoming_lemmas.

Lemma incoming_answered_once_witness :
  let h := mkHandle (mkListQueue (Item := QueuedItem ()) [] false) in
  let self := mkIncomingRequest (ChannelId_new 1) (Id_new 9) None (Some h) in
  ∃ h' self', end_request self (EndRespond (Some [7])) = Done (Some h', self') ∧
    lq_items (sender h') = [QResponse (ChannelId_new 1) (Id_new 9) (Some [7])] ∧ ir_handle self' = None.
Proof.
  intros h self. destruct (incoming_answered_once self h (EndRespond (Some [7])) eq_refl)
    as (h' & self' & He & Hq & Hn & _). by exists h', self'.
Defined.
