(* ===== verification/RpcSystem.v ===== *)
(** * The client and the server together

    A caller queues requests with the client, waits for answers or gives up on them; the server
    takes the requests over, lets them time out, and passes on what the core below reports,
    until it is dropped.  Whatever the core and the environment do, every request handed out is
    either still on its way, once, or answered for good. *)
From stdpp Require Import strings relations.
From S2P Require Import Prelude Lib Varint Header FrameSize OutgoingMessage Multiframe Protocol Io Rpc Instances RpcSpec.
From stdpp Require Import options.

Section system.
Context {Permit IoError BM S Snd RSnd C N : Type} `{BiMap IoId (ChannelId * Id) BM} `{Semaphore S Permit}.
Context `{SenderLaws Snd (QueuedItem Permit)} `{SenderLaws RSnd (NewOutgoingRequest Permit)}.
Context `{OnceCellLaws C Response} `{NotifyLaws N} (instant_max : Z).
#[local] Set Default Proof Using "Type*".
Abbreviation Client := (JulietRpcClient S Snd RSnd).
Abbreviation Server := (JulietRpcServer Permit BM Snd).

(** [issued] are the guards callers hold. *)
Record rpc_system := mkRpcSystem {
  sys_client : Client;
  sys_server : option Server;
  sys_store : GuardStore C N;
  issued : gset nat;
}.

(** The requests the client has sent that the server has not received. *)
Definition in_queue (c : Client) : list (NewOutgoingRequest Permit) := queued (new_request_sender c).
Definition set_sender (c : Client) (q : RSnd) : Client :=
  mkJulietRpcClient q (request_handle c) (default_timeout c).

(** The operations, as the steps of the system.  The ids of requests are drawn from a counter
    of 64 bits that is taken not to have wrapped around. *)
Inductive rpc_step : rpc_system → rpc_system → Prop :=
  | rpc_queued s rq now g client' store' :
      next_io_id (request_handle (sys_client s)) + 1 < 2 ^ 64 →
      queue_for_sending instant_max rq now (sys_client s) (sys_store s) = Done (Some g, (client', store')) →
      rpc_step s (mkRpcSystem client' (sys_server s) store' ({[inner g]} ∪ issued s))
  | rpc_try_queued s rq now g client' store' :
      next_io_id (request_handle (sys_client s)) + 1 < 2 ^ 64 →
      try_queue_for_sending instant_max rq now (sys_client s) (sys_store s) = Done (Ok g, (client', store')) →
      rpc_step s (mkRpcSystem client' (sys_server s) store' ({[inner g]} ∪ issued s))
  | rpc_not_queued s rq now r client' store' :
      queue_for_sending instant_max rq now (sys_client s) (sys_store s) = Done (None, (client', store')) ∨
      try_queue_for_sending instant_max rq now (sys_client s) (sys_store s) = Done (Err r, (client', store')) →
      rpc_step s (mkRpcSystem client' (sys_server s) store' (issued s))
  | rpc_response s g v store' :
      inner g ∈ issued s → wait_for_response (sys_store s) g = Done (Some v, store') →
      rpc_step s (mkRpcSystem (sys_client s) (sys_server s) store' (issued s ∖ {[inner g]}))
  | rpc_forget s g :
      rpc_step s (mkRpcSystem (sys_client s) (sys_server s)
                    (RequestGuard_forget (sys_store s) g) (issued s ∖ {[inner g]}))
  (* a turn that takes nothing from the queue of new requests *)
  | rpc_turn s server (t : RpcTurn Permit IoError) r server' store' :
      sys_server s = Some server → (∀ request, branch t ≠ NewOutgoing (Some request)) →
      next_request_turn instant_max server (sys_store s) t = Done (r, (server', store')) →
      rpc_step s (mkRpcSystem (sys_client s) (Some server') store' (issued s))
  (* a turn that takes the oldest request from it, before the core below is polled or has something to report *)
  | rpc_turn_new s server (t : RpcTurn Permit IoError) request rest core' server' store' queue' :
      sys_server s = Some server → branch t = NewOutgoing (Some request) →
      poll_core t (core server) = Done (None, core') →
      in_queue (sys_client s) = request :: rest → queued queue' = rest →
      closed queue' = closed (new_request_sender (sys_client s)) →
      next_request_turn instant_max server (sys_store s) t = Done (None, (server', store')) →
      rpc_step s (mkRpcSystem (set_sender (sys_client s) queue') (Some server') store' (issued s))
  (* the server is dropped: the queue is closed and emptied *)
  | rpc_dropped s server server' store' queue' :
      sys_server s = Some server →
      Server_drop server (sys_store s) (in_queue (sys_client s)) = Done (server', store') →
      queued queue' = [] → closed queue' = true →
      rpc_step s (mkRpcSystem (set_sender (sys_client s) queue') None store' (issued s)).

Definition rpc_init (b : RpcBuilder) (q : Snd) (rq : RSnd) : rpc_system :=
  let '(client, server) := RpcBuilder_build b q rq in
  mkRpcSystem client (Some server) (mkGuardStore ∅ 0%nat) ∅.

Definition pending_guards (s : rpc_system) : list nat :=
  match sys_server s with Some server => (map_to_list (pending server)).*2 | None => [] end.
(** The guards of the requests still on their way. *)
Definition waiting (s : rpc_system) : list nat :=
  map guard (in_queue (sys_client s)) ++ pending_guards s.

(** ** The invariant *)

Record queue_ok (queue : list (NewOutgoingRequest Permit)) (server : Server) (store : GuardStore C N) : Prop := {
  qo_unanswered request : request ∈ queue → unanswered store (guard request);
  qo_guards : NoDup (map guard queue);
  qo_ids : NoDup (map (λ request, rt_io_id (ticket request)) queue);
  qo_apart request io : request ∈ queue → pending server !! io ≠ Some (guard request);
  qo_new request : request ∈ queue → pending server !! rt_io_id (ticket request) = None;
}.

Record rpc_inv (s : rpc_system) : Prop := {
  ri_server server : sys_server s = Some server →
    pending_ok server (sys_store s) ∧ heap_sorted (timeouts server) ∧
    queue_ok (in_queue (sys_client s)) server (sys_store s) ∧
    ∀ io r, pending server !! io = Some r → ioid_raw io < next_io_id (request_handle (sys_client s));
  ri_queue_ids request : request ∈ in_queue (sys_client s) →
    ioid_raw (rt_io_id (ticket request)) < next_io_id (request_handle (sys_client s));
  ri_dropped : sys_server s = None → in_queue (sys_client s) = [] ∧ closed (new_request_sender (sys_client s)) = true;
  ri_alloc r : r ∈ issued s ∨ r ∈ waiting s → (r < next_guard (sys_store s))%nat;
  ri_issued r : r ∈ issued s → r ∈ waiting s ∨ ∃ v, answered (sys_store s) r v;
  ri_counter : 0 ≤ next_io_id (request_handle (sys_client s));
}.

Lemma elem_of_pending_guards (server : Server) r :
  r ∈ (map_to_list (pending server)).*2 ↔ ∃ io, pending server !! io = Some r.
Proof.
  rewrite list_elem_of_fmap. split.
  - intros ([io r'] & -> & Hin%elem_of_map_to_list). by exists io.
  - intros [io Hio]. exists (io, r). split; [done|]. by apply elem_of_map_to_list.
Qed.

Lemma elem_of_waiting s r : r ∈ waiting s ↔
  (∃ request, request ∈ in_queue (sys_client s) ∧ guard request = r) ∨
  ∃ server io, sys_server s = Some server ∧ pending server !! io = Some r.
Proof.
  unfold waiting, pending_guards. rewrite elem_of_app.
  change (map guard (in_queue (sys_client s))) with (guard <$> in_queue (sys_client s)). rewrite list_elem_of_fmap.
  split.
  - intros [(request & -> & Hin)|Hin]; [left; by exists request|right].
    destruct (sys_server s) as [server|]; [|by apply elem_of_nil in Hin].
    apply elem_of_pending_guards in Hin as [io Hio]. by exists server, io.
  - intros [(request & Hin & <-)|(server & io & -> & Hio)]; [left; by exists request|right].
    apply elem_of_pending_guards. by exists io.
Qed.

(** ** The client's operations *)

(** Nothing already in the store changes. *)
Definition extends (store store' : GuardStore C N) : Prop :=
  (next_guard store ≤ next_guard store')%nat ∧
  ∀ r, (r < next_guard store)%nat → guards store' !! r = guards store !! r.

(** What queueing a request comes to: it is queued behind the others, or answered at once. *)
Definition queueing (client client' : Client) (store store' : GuardStore C N) (g : RequestGuard) : Prop :=
  extends store store' ∧ (next_guard store ≤ inner g < next_guard store')%nat ∧
  closed (new_request_sender client') = closed (new_request_sender client) ∧
  ((∃ e, answered store' (inner g) (Err e) ∧ in_queue client' = in_queue client ∧
         next_io_id (request_handle client) ≤ next_io_id (request_handle client')) ∨
   unanswered store' (inner g) ∧ closed (new_request_sender client) = false ∧
   next_io_id (request_handle client') = next_io_id (request_handle client) + 1 ∧
   ∃ request, in_queue client' = in_queue client ++ [request] ∧ guard request = inner g ∧
     ioid_raw (rt_io_id (ticket request)) = next_io_id (request_handle client)).

Lemma extends_refl store : extends store store.
Proof. split; [lia|done]. Qed.
Lemma new_error_extends store e : ∃ g store',
  RequestGuard_new_error store e = Done (g, store') ∧ extends store store' ∧
  (next_guard store ≤ inner g < next_guard store')%nat ∧ answered store' (inner g) (Err e).
Proof.
  destruct (new_error_Done store e) as (store' & -> & Hn & Ha & Ho).
  eexists _, store'. split; [done|]. cbn [inner]. split; [|split; [lia|done]].
  split; [lia|]. intros r Hr. apply Ho. lia.
Qed.
Lemma alloc_extends store : extends store (alloc_guard store RequestGuardInner_new).2.
Proof.
  split; cbn; [lia|]. intros r Hr. by rewrite lookup_insert_ne by lia.
Qed.
Lemma extends_trans s1 s2 s3 : extends s1 s2 → extends s2 s3 → extends s1 s3.
Proof. intros [H1' H2'] [H3' H4']. split; [lia|]. intros r Hr. rewrite H4', H2' by lia. done. Qed.

(** What [do_enqueue_request] does with the guard it has made, as the request's id is [h0]. *)
Definition enqueued (client client' : Client) (store store' : GuardStore C N) (g : RequestGuard) (h0 : Z) : Prop :=
  request_handle client' = request_handle client ∧
  extends store store' ∧ (next_guard store ≤ inner g < next_guard store')%nat ∧
  closed (new_request_sender client') = closed (new_request_sender client) ∧
  ((∃ e, answered store' (inner g) (Err e) ∧ in_queue client' = in_queue client) ∨
   unanswered store' (inner g) ∧ closed (new_request_sender client) = false ∧
   ∃ request, in_queue client' = in_queue client ++ [request] ∧ guard request = inner g ∧
     ioid_raw (rt_io_id (ticket request)) = h0).

(** Sending it: a closed queue gives the payload back. *)
Lemma send_new_request_spec (client : Client) store store1 (request : NewOutgoingRequest Permit) r :
  extends store store1 → next_guard store1 = Datatypes.S r → (next_guard store ≤ r)%nat →
  unanswered store1 r → guard request = r →
  ∃ g client' store',
    (let '(sent, snd) := send (new_request_sender client) request in
     let client := mkJulietRpcClient snd (request_handle client) (default_timeout client) in
     match sent with
     | Ok _ => mret (mkRequestGuard r, (client, store1))
     | Err request =>
         '(g, store) ← RequestGuard_new_error store1 (RemoteClosed (no_payload request));
         mret (g, (client, store))
     end) = Done (g, (client', store')) ∧
    enqueued client client' store store' g (ioid_raw (rt_io_id (ticket request))).
Proof.
  intros Hx Hn Hr Hu Hg. destruct (closed (new_request_sender client)) eqn:Hc.
  - rewrite send_closed by done.
    destruct (new_error_extends store1 (RemoteClosed (no_payload request))) as (g & store2 & -> & Hx2 & Hgl & Ha).
    do 3 eexists. split; [reflexivity|]. split; [done|]. split; [by eapply extends_trans|].
    split; [lia|]. split; [done|]. left. by eexists.
  - destruct (send_open _ request Hc) as (H1' & H2' & H3').
    destruct (send (new_request_sender client) request) as [sent q]. cbn [fst snd] in *. subst sent.
    do 3 eexists. split; [reflexivity|]. split; [done|]. split; [done|]. cbn [inner new_request_sender].
    split; [lia|]. split; [by rewrite Hc|]. right. split; [done|]. split; [done|]. by exists request.
Qed.

Lemma do_enqueue_request_spec rq now (client : Client) store ticket :
  ∃ g client' store', do_enqueue_request instant_max rq now client store ticket = Done (g, (client', store')) ∧
    enqueued client client' store store' g (ioid_raw (rt_io_id ticket)).
Proof.
  unfold do_enqueue_request.
  pose proof (alloc_guard_unanswered store) as Hu. pose proof (alloc_extends store) as Hx.
  destruct (alloc_guard store RequestGuardInner_new) as [r store1] eqn:Ea.
  assert (r = next_guard store ∧ next_guard store1 = Datatypes.S (next_guard store)) as [-> Hn1]
    by (unfold alloc_guard in Ea; by injection Ea as <- <-).
  cbn [snd] in Hu, Hx.
  assert (∀ expires, ∃ g client' store',
    (let '(sent, snd) := send (new_request_sender client)
        (mkNewOutgoingRequest ticket (next_guard store) (rq_payload rq) expires) in
     let client := mkJulietRpcClient snd (request_handle client) (default_timeout client) in
     match sent with
     | Ok _ => mret (mkRequestGuard (next_guard store), (client, store1))
     | Err request =>
         '(g, store) ← RequestGuard_new_error store1 (RemoteClosed (no_payload request));
         mret (g, (client, store))
     end) = Done (g, (client', store')) ∧
    enqueued client client' store store' g (ioid_raw (rt_io_id ticket))) as Hsend
    by (intros expires; by apply (send_new_request_spec client store store1 (mkNewOutgoingRequest ticket _ _ _))).
  destruct (rq_timeout rq) as [timeout|]; [|apply Hsend].
  destruct (checked_add instant_max now timeout); [apply Hsend|].
  destruct (new_error_extends store1 (TimeoutOverflow timeout)) as (g & store2 & -> & Hx2 & Hg & Ha).
  rewrite bind_Done. exists g, client, store2. split; [done|]. split; [done|]. split; [by eapply extends_trans|].
  split; [lia|]. split; [done|]. left. by eexists.
Qed.

(** The counter of the ids, after a reservation. *)
Lemma fetch_add_small n : 0 ≤ n → n + 1 < 2 ^ 64 → fetch_add n = (mkIoId n, n + 1).
Proof. intros Hn Hlt. unfold fetch_add. rewrite Z.mod_small by lia. done. Qed.

Lemma reserve_request_inv (h h' : RequestHandle S Snd) ch r :
  0 ≤ next_io_id h → next_io_id h + 1 < 2 ^ 64 → reserve_request h ch = Done (Some (Some r), h') →
  next_io_id h' = next_io_id h + 1 ∧ ioid_raw (rt_io_id r) = next_io_id h.
Proof.
  intros H0' Hlt Hr. unfold reserve_request in Hr. inv_exec. destruct (acquire_owned a) as [acquired sem].
  inv_exec. destruct acquired as [[|permit]|]; try done.
  rewrite fetch_add_small in Hr by done. by injection Hr as <- <-.
Qed.
Lemma reserve_request_same (h h' : RequestHandle S Snd) ch r :
  reserve_request h ch = Done (r, h') → (∀ t, r ≠ Some (Some t)) → next_io_id h' = next_io_id h.
Proof.
  intros Hr Hne. unfold reserve_request in Hr. inv_exec. destruct (acquire_owned a) as [acquired sem].
  inv_exec. destruct acquired as [[|permit]|]; [by injection Hr as <- <-| |by injection Hr as <- <-].
  exfalso. destruct (fetch_add _). injection Hr as <- <-. by eapply Hne.
Qed.
Lemma try_reserve_request_inv (h h' : RequestHandle S Snd) ch r :
  0 ≤ next_io_id h → next_io_id h + 1 < 2 ^ 64 → try_reserve_request h ch = Done (Ok r, h') →
  next_io_id h' = next_io_id h + 1 ∧ ioid_raw (rt_io_id r) = next_io_id h.
Proof.
  intros H0' Hlt Hr. unfold try_reserve_request in Hr. inv_exec. destruct (try_acquire_owned a) as [acquired sem].
  inv_exec. destruct acquired as [[]|permit]; try done.
  rewrite fetch_add_small in Hr by done. by injection Hr as <- <-.
Qed.
Lemma try_reserve_request_same (h h' : RequestHandle S Snd) ch e :
  try_reserve_request (Permit := Permit) h ch = Done (Err e, h') → next_io_id h' = next_io_id h.
Proof.
  intros Hr. unfold try_reserve_request in Hr. inv_exec. destruct (try_acquire_owned a) as [acquired sem].
  inv_exec. destruct acquired as [[]|permit]; [by injection Hr as _ <-|by injection Hr as _ <-|].
  by destruct (fetch_add _).
Qed.

Lemma enqueued_queueing rq now (client : Client) h store ticket g client' store' :
  next_io_id h = next_io_id (request_handle client) + 1 →
  ioid_raw (rt_io_id ticket) = next_io_id (request_handle client) →
  do_enqueue_request instant_max rq now (set_request_handle client h) store ticket
    = Done (g, (client', store')) →
  queueing client client' store store' g.
Proof.
  intros Hh Ht Hd.
  destruct (do_enqueue_request_spec rq now (set_request_handle client h) store ticket)
    as (g0 & c0 & s0 & Hd0 & Hrh & Hx & Hg & Hc & Hcase). rewrite Ht in Hcase.
  rewrite Hd in Hd0. injection Hd0 as <- <- <-. split; [done|]. split; [done|]. split; [done|].
  rewrite Hrh. cbn [set_request_handle request_handle].
  destruct Hcase as [(v & Ha & Hq)|(Hu & Ho & request & Hq & Hgd & Hid)].
  - left. exists v. split; [done|]. split; [done|]. lia.
  - right. split; [done|]. split; [done|]. split; [done|]. by exists request.
Qed.
Lemma refused_queueing (client : Client) h store g store' e :
  next_io_id h = next_io_id (request_handle client) →
  RequestGuard_new_error store e = Done (g, store') →
  queueing client (set_request_handle client h) store store' g.
Proof.
  intros Hh He. destruct (new_error_extends store e) as (g0 & s0 & He0 & Hx & Hg & Ha).
  rewrite He in He0. injection He0 as <- <-. split; [done|]. split; [done|]. split; [done|].
  left. eexists. split; [done|]. split; [done|]. cbn. lia.
Qed.

Lemma queue_for_sending_queueing rq now (client client' : Client) store store' g :
  0 ≤ next_io_id (request_handle client) → next_io_id (request_handle client) + 1 < 2 ^ 64 →
  queue_for_sending instant_max rq now client store = Done (Some g, (client', store')) →
  queueing client client' store store' g.
Proof.
  intros H0' Hlt Hq. unfold queue_for_sending in Hq. inv_exec. destruct a as [reserved h].
  destruct reserved as [[t|]|]; inv_exec.
  - destruct a as [g' [c' s']]. injection Hq as <- <- <-.
    destruct (reserve_request_inv _ _ _ _ H0' Hlt E) as [Hh Ht]. by eapply enqueued_queueing.
  - destruct a as [g' s']. injection Hq as <- <- <-. eapply refused_queueing; [|done].
    by eapply reserve_request_same.
  - done.
Qed.
Lemma try_queue_for_sending_queueing rq now (client client' : Client) store store' g :
  0 ≤ next_io_id (request_handle client) → next_io_id (request_handle client) + 1 < 2 ^ 64 →
  try_queue_for_sending instant_max rq now client store = Done (Ok g, (client', store')) →
  queueing client client' store store' g.
Proof.
  intros H0' Hlt Hq. unfold try_queue_for_sending in Hq. inv_exec. destruct a as [reserved h].
  destruct reserved as [[|]|t]; inv_exec; try done.
  - destruct a as [g' s']. injection Hq as <- <- <-. eapply refused_queueing; [|done].
    by eapply try_reserve_request_same.
  - destruct a as [g' [c' s']]. injection Hq as <- <- <-.
    destruct (try_reserve_request_inv _ _ _ _ H0' Hlt E) as [Hh Ht]. by eapply enqueued_queueing.
Qed.
(** Without room nothing is queued and nothing changes but the semaphores. *)
Lemma not_queued_same rq now (client client' : Client) store store' r :
  queue_for_sending instant_max rq now client store = Done (None, (client', store')) ∨
  try_queue_for_sending instant_max rq now client store = Done (Err r, (client', store')) →
  store' = store ∧ new_request_sender client' = new_request_sender client ∧
  next_io_id (request_handle client') = next_io_id (request_handle client).
Proof.
  intros [Hq|Hq].
  - unfold queue_for_sending in Hq. inv_exec. destruct a as [reserved h].
    destruct reserved as [[t|]|]; inv_exec; [by destruct a as [? [? ?]]|by destruct a|].
    simplify_eq. split; [done|]. split; [done|]. cbn. by eapply reserve_request_same.
  - unfold try_queue_for_sending in Hq. inv_exec. destruct a as [reserved h].
    destruct reserved as [[|]|t]; inv_exec; [|by destruct a|by destruct a as [? [? ?]]].
    simplify_eq. split; [done|]. split; [done|]. cbn. by eapply try_reserve_request_same.
Qed.

Lemma unanswered_extends store store' r : extends store store' → (r < next_guard store)%nat →
  unanswered store r → unanswered store' r.
Proof. intros [_ Hx] Hr. apply unanswered_lookup. by apply Hx. Qed.
Lemma answered_extends store store' r v : extends store store' → (r < next_guard store)%nat →
  answered store r v → answered store' r v.
Proof. intros [_ Hx] Hr. apply answered_lookup. by apply Hx. Qed.
Lemma pending_ok_extends (server : Server) store store' : extends store store' →
  (∀ io r, pending server !! io = Some r → (r < next_guard store)%nat) →
  pending_ok server store → pending_ok server store'.
Proof.
  intros Hx Hlt Hok. constructor; [|apply (po_own _ _ Hok)]. intros io r Hio.
  eapply unanswered_extends; [done|by eapply Hlt|by eapply po_waiting].
Qed.

Lemma NoDup_snoc_map {A B} (f : A → B) (l : list A) x : NoDup (map f l) → f x ∉ map f l →
  NoDup (map f (l ++ [x])).
Proof.
  intros Hl Hx. rewrite map_app. apply NoDup_app. split; [done|]. split; [|apply NoDup_singleton].
  intros y Hy. cbn [map]. rewrite list_elem_of_singleton. by intros ->.
Qed.

(** Guards in use were allocated. *)
Lemma waiting_allocated s : rpc_inv s →
  (∀ server io r, sys_server s = Some server → pending server !! io = Some r → (r < next_guard (sys_store s))%nat) ∧
  (∀ request, request ∈ in_queue (sys_client s) → (guard request < next_guard (sys_store s))%nat).
Proof.
  intros Hi. split.
  - intros server io r Hs Hio. apply (ri_alloc s Hi). right. apply elem_of_waiting. right. by exists server, io.
  - intros request Hr. apply (ri_alloc s Hi). right. apply elem_of_waiting. left. by exists request.
Qed.

(** A request in the queue afterwards was there before, or is the new one. *)
Lemma queueing_elem (client client' : Client) store store' g request :
  queueing client client' store store' g → request ∈ in_queue client' →
  request ∈ in_queue client ∨
  unanswered store' (inner g) ∧ guard request = inner g ∧ in_queue client' = in_queue client ++ [request] ∧
  ioid_raw (rt_io_id (ticket request)) = next_io_id (request_handle client) ∧
  next_io_id (request_handle client') = next_io_id (request_handle client) + 1.
Proof.
  intros (_ & _ & _ & Hcase) Hr.
  destruct Hcase as [(v & Ha & Hqe & _)|(Hu & _ & Hn & new & Hqe & Hgd & Hid)]; [left; by rewrite <- Hqe|].
  rewrite Hqe, elem_of_app, list_elem_of_singleton in Hr. destruct Hr as [Hr|<-]; [by left|right].
  split_and!; done.
Qed.

Lemma queueing_queue_ok s server client' store' g : rpc_inv s → sys_server s = Some server →
  queueing (sys_client s) client' (sys_store s) store' g → queue_ok (in_queue client') server store'.
Proof.
  intros Hi Hs Hqg. pose proof (λ request, queueing_elem _ _ _ _ _ request Hqg) as Hq.
  destruct (waiting_allocated s Hi) as [Hpl Hql].
  destruct (ri_server s Hi server Hs) as (_ & _ & Hqo & Hids). destruct Hqg as (Hx & Hg & _ & Hcase). constructor.
  - intros request [Hr|(Hu & -> & _)]%Hq; [|done].
    eapply unanswered_extends; [done|by apply Hql|by apply (qo_unanswered _ _ _ Hqo)].
  - destruct Hcase as [(v & _ & -> & _)|(_ & _ & _ & new & -> & Hgd & _)]; [apply Hqo|].
    apply NoDup_snoc_map; [apply Hqo|]. rewrite Hgd.
    intros (request & Hreq & Hr)%list_elem_of_fmap. apply Hql in Hr. lia.
  - destruct Hcase as [(v & _ & -> & _)|(_ & _ & _ & new & -> & _ & Hid)]; [apply Hqo|].
    apply NoDup_snoc_map; [apply Hqo|].
    intros (request & Hreq & Hr)%list_elem_of_fmap. apply (ri_queue_ids s Hi) in Hr. rewrite <- Hreq in Hr. lia.
  - intros request io [Hr|(_ & -> & _)]%Hq Hio; [by eapply (qo_apart _ _ _ Hqo)|].
    apply Hpl in Hio; [lia|done].
  - intros request [Hr|(_ & _ & _ & Hid & _)]%Hq; [by apply (qo_new _ _ _ Hqo)|].
    destruct (pending server !! _) as [r|] eqn:Hio; [|done]. apply Hids in Hio. lia.
Qed.

(** A request handed out keeps the invariant. *)
Lemma queueing_inv s client' store' g : rpc_inv s →
  queueing (sys_client s) client' (sys_store s) store' g →
  rpc_inv (mkRpcSystem client' (sys_server s) store' ({[inner g]} ∪ issued s)).
Proof.
  intros Hi Hqg. pose proof (λ request, queueing_elem _ _ _ _ _ request Hqg) as Hq.
  destruct (waiting_allocated s Hi) as [Hpl Hql]. pose proof (queueing_queue_ok s) as Hqok.
  pose proof Hqg as (Hx & Hg & Hc & Hcase). pose proof Hx as [Hnx _].
  assert (next_io_id (request_handle (sys_client s)) ≤ next_io_id (request_handle client')) as Hcnt
    by (destruct Hcase as [(v & _ & _ & H')|(_ & _ & H' & _)]; lia).
  constructor; cbn [sys_client sys_server sys_store issued].
  - intros server Hs. destruct (ri_server s Hi server Hs) as (Hok & Hsort & _ & Hids).
    split; [by eapply pending_ok_extends, Hok; eauto|]. split; [done|]. split; [by eapply Hqok|].
    intros io r Hio. apply Hids in Hio. lia.
  - intros request [Hr|(_ & _ & _ & Hid & Hn)]%Hq; [apply (ri_queue_ids s Hi) in Hr; lia|lia].
  - intros Hs. destruct (ri_dropped s Hi Hs) as [Hqe Hcl]. rewrite Hc. split; [|done].
    destruct Hcase as [(v & _ & -> & _)|(_ & Hop & _)]; [done|congruence].
  - intros r [Hr|Hr].
    + apply elem_of_union in Hr as [->%elem_of_singleton|Hr]; [lia|].
      pose proof (ri_alloc s Hi r (or_introl Hr)). lia.
    + apply elem_of_waiting in Hr as [(request & Hr & <-)|(server & io & Hs & Hio)]; cbn in *.
      * apply Hq in Hr as [Hr|(_ & -> & _)]; [apply Hql in Hr|]; lia.
      * apply Hpl in Hio; [lia|done].
  - intros r [->%elem_of_singleton|Hr]%elem_of_union.
    + destruct Hcase as [(v & Ha & _)|(_ & _ & _ & new & Hqe & Hgd & _)]; [right; by eexists|left].
      apply elem_of_waiting. left. exists new. cbn [sys_client]. rewrite Hqe, elem_of_app, list_elem_of_singleton. tauto.
    + destruct (ri_issued s Hi r Hr) as [Hw|[v Ha]].
      * left. apply elem_of_waiting. apply elem_of_waiting in Hw as [(request & Hrq & <-)|(server & io & Hs & Hio)].
        -- left. exists request. split; [|done]. cbn [sys_client].
           destruct Hcase as [(v & _ & -> & _)|(_ & _ & _ & new & -> & _)]; [done|]. apply elem_of_app. by left.
        -- right. by exists server, io.
      * right. exists v. eapply answered_extends; [done| |done]. apply (ri_alloc s Hi). by left.
  - pose proof (ri_counter s Hi). lia.
Qed.

(** ** The server's operations *)

Definition with_server (s : rpc_system) (server : Server) (store : GuardStore C N) : rpc_system :=
  mkRpcSystem (sys_client s) (Some server) store (issued s).

(** The invariant reads the server's pending requests and timeouts. *)
Lemma rpc_inv_same s server server' : sys_server s = Some server →
  pending server' = pending server → timeouts server' = timeouts server →
  rpc_inv s → rpc_inv (with_server s server' (sys_store s)).
Proof.
  intros Hs Hp Ht Hi. assert (waiting (with_server s server' (sys_store s)) = waiting s) as Hw.
  { unfold waiting, pending_guards. cbn. by rewrite Hs, Hp. }
  destruct (ri_server s Hi server Hs) as (Hok & Hsort & Hqo & Hids).
  constructor; cbn [with_server sys_client sys_server sys_store issued].
  - intros ? [= <-]. rewrite Ht. split; [|split; [done|split; [|by rewrite Hp]]].
    + constructor; rewrite Hp; apply Hok.
    + constructor; rewrite ?Hp; apply Hqo.
  - apply (ri_queue_ids s Hi).
  - done.
  - rewrite Hw. apply (ri_alloc s Hi).
  - rewrite Hw. apply (ri_issued s Hi).
  - apply (ri_counter s Hi).
Qed.

(** Answering pending requests keeps the invariant. *)
Lemma resolved_inv s server server0 server' store' gone v : rpc_inv s → sys_server s = Some server →
  pending server0 = pending server → heap_sorted (timeouts server') →
  resolved server0 server' (sys_store s) store' gone v → rpc_inv (with_server s server' store').
Proof.
  intros Hi Hs Hp0 Ht Hr. destruct (ri_server s Hi server Hs) as (Hok & _ & Hqo & Hids).
  assert (pending_ok server0 (sys_store s)) as Hok0 by (constructor; rewrite Hp0; apply Hok).
  pose proof (rs_pending _ _ _ _ _ _ Hr) as Hp. pose proof (rs_others _ _ _ _ _ _ Hr) as Ho. rewrite Hp0 in Hp, Ho.
  assert (∀ io r, pending server' !! io = Some r → pending server !! io = Some r ∧ io ∉ gone) as Hp'.
  { intros io r. rewrite Hp. by case_decide. }
  assert (∀ request, request ∈ in_queue (sys_client s) →
    guards store' !! guard request = guards (sys_store s) !! guard request) as Hqg.
  { intros request Hrq. apply Ho. intros io _. by apply (qo_apart _ _ _ Hqo). }
  constructor; cbn [with_server sys_client sys_server sys_store issued].
  - intros ? [= <-]. split; [by eapply pending_ok_resolved|]. split; [done|]. split.
    + constructor; try apply Hqo.
      * intros request Hrq. eapply unanswered_lookup; [by apply Hqg|by apply (qo_unanswered _ _ _ Hqo)].
      * intros request io Hrq [Hio _]%Hp'. by apply (qo_apart _ _ _ Hqo) in Hio.
      * intros request Hrq. rewrite Hp. case_decide; [done|]. by apply (qo_new _ _ _ Hqo).
    + intros io r [Hio _]%Hp'. by eapply Hids.
  - apply (ri_queue_ids s Hi).
  - done.
  - intros r Hr'. rewrite (rs_next _ _ _ _ _ _ Hr). apply (ri_alloc s Hi).
    destruct Hr' as [Hr'|Hr']; [by left|right]. rewrite elem_of_waiting in Hr'. rewrite elem_of_waiting.
    destruct Hr' as [?|(sv & io & [= <-] & Hio)]; [by left|right].
    exists server, io. split; [done|]. by apply Hp'.
  - intros r Hr'. rewrite elem_of_waiting. cbn [with_server sys_client sys_server].
    destruct (ri_issued s Hi r Hr') as [Hw|[w Ha]].
    + apply elem_of_waiting in Hw as [Hw|(sv & io & Hsv & Hio)]; [by left; left|].
      assert (sv = server) as -> by congruence. destruct (decide (io ∈ gone)) as [Hg|Hg].
      * right. exists v. apply (rs_answered _ _ _ _ _ _ Hr io); [done|]. by rewrite Hp0.
      * left. right. exists server', io. split; [done|]. rewrite Hp. by rewrite decide_False.
    + right. exists w. eapply answered_lookup; [|done]. apply Ho. intros io _ Hio.
      apply (unanswered_not_answered (sys_store s) r w); [by eapply (po_waiting _ _ Hok)|done].
  - apply (ri_counter s Hi).
Qed.

Lemma handle_event_inv s server event r server' store' : rpc_inv s → sys_server s = Some server →
  handle_event server (sys_store s) event = Done (r, (server', store')) → rpc_inv (with_server s server' store').
Proof.
  intros Hi Hs He. destruct (ri_server s Hi server Hs) as (Hok & Hsort & _).
  assert (rpc_inv (with_server s server (sys_store s))) as Hsame by by eapply rpc_inv_same.
  assert (∀ io v x, (t ← resolve server (sys_store s) io v; mret (x, t)) = Done (r, (server', store')) →
    rpc_inv (with_server s server' store')) as Hres.
  { intros io v x Hd. destruct (resolve_spec server (sys_store s) io v Hok) as (sv & st & Hrs & _ & Hr).
    rewrite Hrs, bind_Done in Hd. injection Hd as _ <- <-. eapply resolved_inv; [done..| |exact Hr].
    rewrite (rs_timeouts _ _ _ _ _ _ Hr). done. }
  destruct event; cbn [handle_event] in He; try (injection He as _ <- <-; done); by eapply Hres.
Qed.

Lemma process_timeouts_inv s server now x server' store' : rpc_inv s → sys_server s = Some server →
  process_timeouts instant_max server (sys_store s) now = Done (x, (server', store')) →
  core server' = core server ∧ rpc_inv (with_server s server' store').
Proof.
  intros Hi Hs Hp. destruct (ri_server s Hi server Hs) as (Hok & Hsort & _).
  destruct (process_timeouts_spec instant_max server (sys_store s) now Hsort Hok)
    as (deadline & gone & sv & st & [Hd|[Hd _]] & Hr & _); rewrite Hd in Hp; [|done].
  injection Hp as <- <- <-. split; [apply (rs_core _ _ _ _ _ _ Hr)|].
  eapply (resolved_inv s server _ sv st gone); [done|done| | |exact Hr]; [done|].
  rewrite (rs_timeouts _ _ _ _ _ _ Hr). cbn [set_timeouts timeouts]. by apply StronglySorted_filter.
Qed.

(** A turn that takes no new request. *)
Lemma turn_inv s server (t : RpcTurn Permit IoError) r server' store' : rpc_inv s → sys_server s = Some server →
  (∀ request, branch t ≠ NewOutgoing (Some request)) →
  next_request_turn instant_max server (sys_store s) t = Done (r, (server', store')) →
  rpc_inv (with_server s server' store').
Proof.
  intros Hi Hs Hb Ht. unfold next_request_turn in Ht.
  apply bind_Done_inv in Ht as ([[deadline timed_out] [sv st]] & Hp & Ht).
  destruct (process_timeouts_inv _ _ _ _ _ _ Hi Hs Hp) as [_ Hi1].
  destruct (bubble_timeouts sv && (0 <? timed_out)); [by injection Ht as _ <- <-|].
  apply bind_Done_inv in Ht as ([result c] & _ & Ht).
  assert (rpc_inv (with_server (with_server s sv st) (set_core sv c) st)) as Hi2
    by by apply (rpc_inv_same (with_server s sv st) sv).
  destruct result as [[e|[event|]]|]; [by injection Ht as _ <- <-| |by injection Ht as _ <- <-|].
  - apply bind_Done_inv in Ht as ([request [sv2 st2]] & He & Ht). injection Ht as _ <- <-.
    by eapply (handle_event_inv (with_server s (set_core sv c) st)).
  - destruct (branch t) as [|[request|]]; [by injection Ht as _ <- <-|by destruct (Hb request)|
      by injection Ht as _ <- <-].
Qed.

(** Taking the oldest request from the queue. *)
Lemma taken_inv s server request rest server' store' queue' : rpc_inv s → sys_server s = Some server →
  in_queue (sys_client s) = request :: rest → queued queue' = rest →
  closed queue' = closed (new_request_sender (sys_client s)) →
  take_new_request server (sys_store s) request = Done (server', store') →
  rpc_inv (mkRpcSystem (set_sender (sys_client s) queue') (Some server') store' (issued s)).
Proof.
  intros Hi Hs Hq Hq' Hc Ht. destruct (ri_server s Hi server Hs) as (Hok & Hsort & Hqo & Hids). rewrite Hq in Hqo.
  destruct Hqo as [Hqu Hqg Hqi Hqa Hqn]. cbn [map] in Hqg, Hqi.
  apply NoDup_cons in Hqg as [Hg Hqg], Hqi as [Hid Hqi].
  assert (request ∈ request :: rest) as Hin by (apply elem_of_cons; by left).
  assert (∀ x, x ∈ rest → x ∈ request :: rest) as Hrest by (intros; apply elem_of_cons; by right).
  assert (∀ x, x ∈ rest → guard x ≠ guard request ∧ rt_io_id (ticket x) ≠ rt_io_id (ticket request)) as Hne.
  { intros x Hx. split; intros Heq; [apply Hg|apply Hid]; rewrite <- Heq; apply list_elem_of_fmap; by exists x. }
  destruct (take_new_request_spec server (sys_store s) request Hok (Hqu _ Hin)
    (λ io, Hqa request io Hin) (Hqn _ Hin) Hsort) as (sv & st & Hd & Hok' & Hsort' & Hn & Ho & Hcase).
  rewrite Hd in Ht. injection Ht as -> ->.
  assert (∀ io r, pending server' !! io = Some r → pending server !! io = Some r ∨
    io = rt_io_id (ticket request) ∧ r = guard request) as Hp.
  { intros io r Hio. destruct Hcase as [(Hp & _)|(pl & Hp & _)]; rewrite Hp in Hio; [|by left].
    apply lookup_insert_Some in Hio as [[<- <-]|[_ Hio]]; [by right|by left]. }
  constructor; cbn [sys_client sys_server sys_store issued set_sender request_handle new_request_sender];
    unfold in_queue, set_sender; cbn [new_request_sender]; rewrite ?Hq'.
  - intros ? [= <-]. split; [done|]. split; [done|]. split.
    + constructor; [|done|done| |].
      * intros x Hx. eapply unanswered_lookup; [by apply Ho, Hne|by apply Hqu, Hrest].
      * intros x io Hx [Hio|[_ Heq]]%Hp; [by apply (Hqa x io (Hrest x Hx))|by apply Hne in Hx as [? _]].
      * intros x Hx. apply eq_None_not_Some. intros [r [Hio|[Heq _]]%Hp]; [|by apply Hne in Hx as [_ ?]].
        by rewrite Hqn in Hio by auto.
    + intros io r [Hio|[-> _]]%Hp; [by eapply Hids|]. apply (ri_queue_ids s Hi). by rewrite Hq.
  - intros x Hx. apply (ri_queue_ids s Hi). rewrite Hq. auto.
  - done.
  - intros r Hr. rewrite Hn. apply (ri_alloc s Hi). destruct Hr as [Hr|Hr]; [by left|right].
    rewrite elem_of_waiting in Hr |- *. cbn in Hr. unfold in_queue in Hr at 1. cbn in Hr. rewrite Hq' in Hr. rewrite Hq.
    destruct Hr as [(x & Hx & <-)|(? & io & [= <-] & Hio)]; [left; exists x; by split; [apply Hrest|]|].
    apply Hp in Hio as [Hio|[_ ->]]; [right; by exists server, io|left; by exists request].
  - intros r Hr. rewrite elem_of_waiting. unfold in_queue. cbn. rewrite Hq'.
    destruct (ri_issued s Hi r Hr) as [Hw|[v Ha]].
    + apply elem_of_waiting in Hw as [(x & Hx & <-)|(? & io & Hs' & Hio)].
      * rewrite Hq in Hx. apply elem_of_cons in Hx as [->|Hx]; [|left; left; by exists x].
        destruct Hcase as [(Hp' & _)|(pl & _ & _ & Ha)]; [left; right|right; by eexists].
        exists server', (rt_io_id (ticket request)). split; [done|]. rewrite Hp'. apply lookup_insert_eq.
      * left. right. rewrite Hs in Hs'. injection Hs' as <-. exists server', io. split; [done|].
        destruct Hcase as [(Hp' & _)|(pl & Hp' & _)]; rewrite Hp'; [|done].
        rewrite lookup_insert_ne; [done|]. intros <-. by rewrite (Hqn _ Hin) in Hio.
    + right. exists v. eapply answered_lookup; [|done]. apply Ho. intros ->.
      by eapply unanswered_not_answered; [apply (Hqu _ Hin)|].
  - apply (ri_counter s Hi).
Qed.

Lemma turn_new_inv s server (t : RpcTurn Permit IoError) request rest core' server' store' queue' :
  rpc_inv s → sys_server s = Some server → branch t = NewOutgoing (Some request) →
  poll_core t (core server) = Done (None, core') →
  in_queue (sys_client s) = request :: rest → queued queue' = rest →
  closed queue' = closed (new_request_sender (sys_client s)) →
  next_request_turn instant_max server (sys_store s) t = Done (None, (server', store')) →
  rpc_inv (mkRpcSystem (set_sender (sys_client s) queue') (Some server') store' (issued s)).
Proof.
  intros Hi Hs Hb Hev Hq Hq' Hc Ht. unfold next_request_turn in Ht.
  apply bind_Done_inv in Ht as ([[deadline timed_out] [sv st]] & Hp & Ht).
  destruct (process_timeouts_inv _ _ _ _ _ _ Hi Hs Hp) as [Hcore Hi1].
  destruct (bubble_timeouts sv && (0 <? timed_out)); [done|]. rewrite Hcore, Hev, bind_Done, Hb in Ht.
  apply bind_Done_inv in Ht as ([sv2 st2] & He & Ht). injection Ht as <- <-.
  eapply (taken_inv (with_server s (set_core sv core') st)); [|done..].
  by apply (rpc_inv_same (with_server s sv st) sv).
Qed.

(** ** Dropping the server *)

Lemma notify_all_spec (values : list (nat * Response)) : ∀ store, NoDup values.*1 →
  (∀ r v, (r, v) ∈ values → unanswered store r) →
  ∃ store', notify_all store values = Done store' ∧ next_guard store' = next_guard store ∧
    (∀ r v, (r, v) ∈ values → answered store' r v) ∧
    ∀ r, r ∉ values.*1 → guards store' !! r = guards store !! r.
Proof.
  induction values as [|[r v] values IH]; intros store Hnd Hu; cbn [notify_all].
  { exists store. split; [done|]. split; [done|]. split; [|done]. intros r v Hr. by apply elem_of_nil in Hr. }
  apply NoDup_cons in Hnd as [Hr Hnd].
  destruct (set_and_notify_unanswered store r v) as (st & -> & Hn & Ha & _ & Ho);
    [by apply (Hu r v), elem_of_cons; left|]. rewrite bind_Done.
  destruct (IH st Hnd) as (st' & -> & Hn' & Ha' & Ho').
  { intros r' v' Hin. eapply unanswered_lookup; [|by apply (Hu r' v'), elem_of_cons; right]. apply Ho.
    intros ->. apply Hr, list_elem_of_fmap. by exists (r, v'). }
  exists st'. split; [done|]. split; [by rewrite Hn'|]. split.
  - intros r' v' [[= -> ->]|Hin]%elem_of_cons; [|by apply Ha']. eapply answered_lookup; [by apply Ho'|done].
  - intros r' Hn2. cbn in Hn2. apply not_elem_of_cons in Hn2 as [Hne Hn2]. rewrite Ho' by done. by apply Ho.
Qed.
Lemma notify_all_app a b : ∀ store : GuardStore C N,
  notify_all store (a ++ b) = (st ← notify_all store a; notify_all st b).
Proof.
  induction a as [|[r v] a IH]; intros store; cbn [app notify_all]; [done|].
  rewrite bind_assoc. apply bind_ext. intros st _. apply IH.
Qed.

(** What the guards are answered with. *)
Definition drop_answers (server : Server) (queue : list (NewOutgoingRequest Permit)) : list (nat * Response) :=
  map (λ kv, (kv.2, Err Shutdown)) (map_to_list (pending server)) ++
  map (λ r, (guard r, Err (RemoteClosed (no_payload r)))) queue.
Lemma Server_drop_answers (server : Server) (store : GuardStore C N) queue : Server_drop server store queue =
  (store ← notify_all store (drop_answers server queue);
   mret (mkJulietRpcServer (core server) (handle server) ∅ (timeouts server) (bubble_timeouts server) true, store)).
Proof. unfold Server_drop, drop_answers. by rewrite notify_all_app, bind_assoc. Qed.
Lemma drop_answers_ok s server : rpc_inv s → sys_server s = Some server →
  let values := drop_answers server (in_queue (sys_client s)) in
  NoDup values.*1 ∧ (∀ r, r ∈ values.*1 ↔ r ∈ waiting s) ∧ ∀ r v, (r, v) ∈ values → unanswered (sys_store s) r.
Proof.
  intros Hi Hs values. destruct (ri_server s Hi server Hs) as (Hok & _ & Hqo & _).
  assert (values.*1 = pending_guards s ++ map guard (in_queue (sys_client s))) as Hv.
  { unfold values, drop_answers, pending_guards. rewrite fmap_app, Hs. f_equal; rewrite <- list_fmap_compose; done. }
  assert (∀ r, r ∈ values.*1 ↔ r ∈ waiting s) as Hw.
  { intros r. rewrite Hv. unfold waiting. rewrite !elem_of_app. tauto. }
  split; [|split; [done|]].
  - rewrite Hv. apply NoDup_app. split; [|split; [|apply Hqo]].
    + unfold pending_guards. rewrite Hs. apply NoDup_fmap_2_strong; [|apply NoDup_map_to_list].
      intros [i x] [j y] Hx%elem_of_map_to_list Hy%elem_of_map_to_list Heq. cbn in Heq. subst y.
      f_equal. by eapply (po_own _ _ Hok).
    + intros r Hr (x & -> & Hx)%list_elem_of_fmap. unfold pending_guards in Hr. rewrite Hs in Hr.
      apply elem_of_pending_guards in Hr as [io Hio]. by apply (qo_apart _ _ _ Hqo) in Hio.
  - intros r v Hin. assert (r ∈ waiting s) as Hr by (apply Hw, list_elem_of_fmap; by exists (r, v)).
    apply elem_of_waiting in Hr as [(x & Hx & <-)|(sv & io & Hsv & Hio)]; [by apply (qo_unanswered _ _ _ Hqo)|].
    rewrite Hs in Hsv. injection Hsv as <-. by eapply (po_waiting _ _ Hok).
Qed.
Lemma dropped_inv s server server' store' queue' : rpc_inv s → sys_server s = Some server →
  Server_drop server (sys_store s) (in_queue (sys_client s)) = Done (server', store') →
  queued queue' = [] → closed queue' = true →
  rpc_inv (mkRpcSystem (set_sender (sys_client s) queue') None store' (issued s)).
Proof.
  intros Hi Hs Hd Hq Hc. rewrite Server_drop_answers in Hd. destruct (drop_answers_ok s server Hi Hs) as (Hnd & Hw & Hu).
  set (values := drop_answers _ _) in *.
  destruct (notify_all_spec values (sys_store s) Hnd Hu) as (st & Hst & Hn & Ha & Ho).
  rewrite Hst, bind_Done in Hd. injection Hd as _ <-.
  constructor; unfold in_queue; cbn [sys_client sys_server sys_store issued set_sender new_request_sender request_handle];
    rewrite ?Hq.
  - done.
  - intros x Hx. by apply elem_of_nil in Hx.
  - done.
  - intros r [Hr|Hr]; rewrite Hn; [apply (ri_alloc s Hi); by left|]. exfalso. revert Hr.
    unfold waiting, pending_guards, in_queue. cbn. rewrite Hq. apply not_elem_of_nil.
  - intros r Hr. right. destruct (decide (r ∈ waiting s)) as [Hin|Hin].
    + apply Hw, list_elem_of_fmap in Hin as ([r' v] & -> & Hin). exists v. by apply Ha.
    + destruct (ri_issued s Hi r Hr) as [?|[v Hans]]; [done|]. exists v.
      eapply answered_lookup; [|done]. apply Ho. by rewrite Hw.
  - apply (ri_counter s Hi).
Qed.

(** ** Steps of the callers *)

Lemma rpc_inv_issued s (X : gset nat) : X ⊆ issued s → rpc_inv s →
  rpc_inv (mkRpcSystem (sys_client s) (sys_server s) (sys_store s) X).
Proof.
  intros HX Hi. constructor; cbn; try apply Hi.
  - intros r [Hr|Hr]; apply (ri_alloc s Hi); [left; auto|by right].
  - intros r Hr. apply (ri_issued s Hi). auto.
Qed.

Lemma response_inv s g v store' : rpc_inv s → inner g ∈ issued s →
  wait_for_response (sys_store s) g = Done (Some v, store') →
  rpc_inv (mkRpcSystem (sys_client s) (sys_server s) store' (issued s ∖ {[inner g]})).
Proof.
  intros Hi Hg Hw.
  assert (∀ r, r ∈ waiting s → unanswered (sys_store s) r) as Hwu.
  { intros r [(x & Hx & <-)|(sv & io & Hsv & Hio)]%elem_of_waiting.
    - destruct (sys_server s) as [sv|] eqn:Hs.
      + destruct (ri_server s Hi sv Hs) as (_ & _ & Hqo & _). by apply (qo_unanswered _ _ _ Hqo).
      + destruct (ri_dropped s Hi Hs) as [Hq _]. rewrite Hq in Hx. by apply elem_of_nil in Hx.
    - destruct (ri_server s Hi sv Hsv) as (Hok & _). by eapply (po_waiting _ _ Hok). }
  destruct (ri_issued s Hi _ Hg) as [Hin|[w Ha]].
  { apply Hwu, wait_unanswered in Hin as [Hin _]. congruence. }
  destruct (wait_answered _ _ _ Ha) as [(st & Hst & Hn & _ & Ho) _]. rewrite Hst in Hw. injection Hw as _ <-.
  assert (∀ r, unanswered (sys_store s) r → guards st !! r = guards (sys_store s) !! r) as Hsame.
  { intros r Hr. apply Ho. intros ->. by eapply unanswered_not_answered. }
  constructor; cbn [sys_client sys_server sys_store issued]; try apply Hi.
  - intros sv Hsv. destruct (ri_server s Hi sv Hsv) as (Hok & Hsort & Hqo & Hids). split; [|split; [done|split; [|done]]].
    + constructor; [|apply Hok]. intros io r Hio. pose proof (po_waiting _ _ Hok io r Hio) as Hu.
      eapply unanswered_lookup; [by apply Hsame|done].
    + constructor; try apply Hqo. intros x Hx. pose proof (qo_unanswered _ _ _ Hqo x Hx) as Hu.
      eapply unanswered_lookup; [by apply Hsame|done].
  - intros r Hr. rewrite Hn. apply (ri_alloc s Hi). rewrite elem_of_difference in Hr. tauto.
  - intros r [Hr Hne]%elem_of_difference. destruct (ri_issued s Hi r Hr) as [?|[w' Ha']]; [by left|right].
    exists w'. eapply answered_lookup; [|done]. apply Ho. set_solver.
Qed.

Lemma rpc_step_inv s s' : rpc_step s s' → rpc_inv s → rpc_inv s'.
Proof.
  intros Hstep Hi. destruct Hstep as [s rq now g c' st' Hlt Hq|s rq now g c' st' Hlt Hq|s rq now r c' st' Hq
    |s g v st' Hg Hw|s g|s sv t r sv' st' Hs Hb Ht|s sv t rq rest core' sv' st' q' Hs Hb Hev Hq Hq' Hc Ht
    |s sv sv' st' q' Hs Hd Hq Hc].
  - apply queueing_inv; [done|]. eapply queue_for_sending_queueing; [apply (ri_counter s Hi)|done..].
  - apply queueing_inv; [done|]. eapply try_queue_for_sending_queueing; [apply (ri_counter s Hi)|done..].
  - destruct (not_queued_same _ _ _ _ _ _ _ Hq) as (-> & Hs & Hn).
    destruct Hi as [H1' H2' H3' H4' H5' H6']. unfold waiting, in_queue in *.
    constructor; unfold waiting, in_queue; cbn [sys_client sys_server sys_store issued]; rewrite ?Hs, ?Hn; done.
  - by eapply response_inv.
  - by apply rpc_inv_issued; [set_solver|].
  - by eapply turn_inv.
  - by eapply turn_new_inv.
  - by eapply dropped_inv.
Qed.

(** ** Properties *)

Lemma rpc_init_inv b (q : Snd) (rq : RSnd) : queued rq = [] → rpc_inv (rpc_init b q rq).
Proof.
  intros Hq. constructor; unfold waiting, pending_guards, in_queue; cbn; rewrite ?Hq.
  - intros ? [= <-]. split; [by constructor|]. split; [constructor|]. split; [|done].
    constructor; try done; [intros x Hx; by apply elem_of_nil in Hx|apply NoDup_nil_2|apply NoDup_nil_2].
  - intros x Hx. by apply elem_of_nil in Hx.
  - done.
  - intros r [Hr|Hr]; [set_solver|by apply elem_of_nil in Hr].
  - set_solver.
  - done.
Qed.
Lemma rpc_reachable_inv b (q : Snd) (rq : RSnd) s : queued rq = [] →
  rtc rpc_step (rpc_init b q rq) s → rpc_inv s.
Proof.
  intros Hq Hr. pose proof (rpc_init_inv b q rq Hq) as Hi. induction Hr as [|x y z Hstep _ IH]; [done|].
  by eapply IH, rpc_step_inv.
Qed.

Lemma waiting_NoDup s : rpc_inv s → NoDup (waiting s).
Proof.
  intros Hi. unfold waiting, pending_guards. destruct (sys_server s) as [sv|] eqn:Hs.
  - destruct (ri_server s Hi sv Hs) as (Hok & _ & Hqo & _). apply NoDup_app. split; [apply Hqo|]. split.
    + intros r (x & -> & Hx)%list_elem_of_fmap [io Hio]%elem_of_pending_guards.
      by apply (qo_apart _ _ _ Hqo) in Hio.
    + apply NoDup_fmap_2_strong; [|apply NoDup_map_to_list].
      intros [i x] [j y] Hx%elem_of_map_to_list Hy%elem_of_map_to_list Heq. cbn in Heq. subst y.
      f_equal. by eapply (po_own _ _ Hok).
  - destruct (ri_dropped s Hi Hs) as [-> _]. apply NoDup_nil_2.
Qed.
Lemma waiting_unanswered s r : rpc_inv s → r ∈ waiting s → unanswered (sys_store s) r.
Proof.
  intros Hi [(x & Hx & <-)|(sv & io & Hsv & Hio)]%elem_of_waiting.
  - destruct (sys_server s) as [sv|] eqn:Hs.
    + destruct (ri_server s Hi sv Hs) as (_ & _ & Hqo & _). by apply (qo_unanswered _ _ _ Hqo).
    + destruct (ri_dropped s Hi Hs) as [Hq _]. rewrite Hq in Hx. by apply elem_of_nil in Hx.
  - destruct (ri_server s Hi sv Hsv) as (Hok & _). by eapply (po_waiting _ _ Hok).
Qed.

(** C18: no request is lost and none is answered twice.  In every state the client and the
    server can reach before the 64-bit counter of request ids wraps around, a request whose guard a caller holds either is on its way, in exactly one
    place - the queue to the server, or the server's pending requests - and then waiting for it
    waits and trying to get the answer gives the guard back; or it has an answer, and both give
    that answer at once without panicking.  Once the server is gone every request has one. *)
Theorem rpc_requests_accounted b (q : Snd) (rq : RSnd) s : queued rq = [] →
  rtc rpc_step (rpc_init b q rq) s →
  NoDup (waiting s) ∧ (sys_server s = None → waiting s = []) ∧
  ∀ g, inner g ∈ issued s →
    if decide (inner g ∈ waiting s)
    then wait_for_response (sys_store s) g = Done (None, sys_store s) ∧
         try_get_response (sys_store s) g = Done (Err g)
    else ∃ v store', wait_for_response (sys_store s) g = Done (Some v, store') ∧
                     try_get_response (sys_store s) g = Done (Ok v).
Proof.
  intros Hq Hr. pose proof (rpc_reachable_inv _ _ _ _ Hq Hr) as Hi. split; [by apply waiting_NoDup|]. split.
  - intros Hs. unfold waiting, pending_guards. rewrite Hs. by destruct (ri_dropped s Hi Hs) as [-> _].
  - intros g Hg. case_decide as Hw; [by apply wait_unanswered, waiting_unanswered|].
    destruct (ri_issued s Hi _ Hg) as [?|[v Ha]]; [done|].
    destruct (wait_answered _ _ _ Ha) as [(st & Hst & _) Ht]. by exists v, st.
Qed.

(** *** The first answer stays *)

Definition keeps (store store' : GuardStore C N) : Prop :=
  ∀ r v, answer store r = Some v → answer store' r = Some v.
Lemma keeps_refl store : keeps store store.
Proof. by intros r v. Qed.
Lemma keeps_trans s1 s2 s3 : keeps s1 s2 → keeps s2 s3 → keeps s1 s3.
Proof. intros H1' H2' r v Hr. auto. Qed.
Lemma set_keeps (store store' : GuardStore C N) r v : set_and_notify store r v = Done store' → keeps store store'.
Proof. intros Hs r' w. by eapply set_and_notify_stable. Qed.

Lemma expire_all_keeps items : ∀ (server : Server) (store : GuardStore C N) n x server' store',
  expire_all server store n items = Done (x, (server', store')) → keeps store store'.
Proof.
  induction items as [|[d io] items IH]; intros server store n x server' store' He; cbn [expire_all] in He.
  { injection He as _ _ <-. apply keeps_refl. }
  destruct (pending server !! io); [|by eapply IH].
  apply bind_Done_inv in He as (st & Hs & He). destruct (enqueue_request_cancellation _ _) as [? h].
  apply bind_Done_inv in He as (n' & _ & He). eapply keeps_trans; [by eapply set_keeps|by eapply IH].
Qed.
Lemma notify_all_keeps (values : list (nat * Response)) : ∀ store store' : GuardStore C N,
  notify_all store values = Done store' → keeps store store'.
Proof.
  induction values as [|[r v] values IH]; intros store store' Hn; cbn [notify_all] in Hn.
  { injection Hn as <-. apply keeps_refl. }
  apply bind_Done_inv in Hn as (st & Hs & Hn). eapply keeps_trans; [by eapply set_keeps|by eapply IH].
Qed.
Lemma process_timeouts_keeps (server server' : Server) (store store' : GuardStore C N) now x :
  process_timeouts instant_max server store now = Done (x, (server', store')) → keeps store store'.
Proof.
  unfold process_timeouts. intros Hp. apply bind_Done_inv in Hp as ([items heap] & _ & Hp).
  apply bind_Done_inv in Hp as ([n [sv st]] & He & Hp). apply bind_Done_inv in Hp as (d & _ & Hp).
  injection Hp as _ _ <-. by eapply expire_all_keeps.
Qed.
Lemma resolve_keeps (server server' : Server) (store store' : GuardStore C N) io v :
  resolve server store io v = Done (server', store') → keeps store store'.
Proof.
  unfold resolve. intros Hr. destruct (pending server !! io); [|injection Hr as _ <-; apply keeps_refl].
  apply bind_Done_inv in Hr as (st & Hs & Hr). injection Hr as _ <-. by eapply set_keeps.
Qed.
Lemma handle_event_keeps (server server' : Server) (store store' : GuardStore C N) event r :
  handle_event server store event = Done (r, (server', store')) → keeps store store'.
Proof.
  destruct event; cbn [handle_event]; intros He; try (injection He as _ _ <-; apply keeps_refl).
  all: apply bind_Done_inv in He as ([sv st] & Hr & He); injection He as _ _ <-; by eapply resolve_keeps.
Qed.
Lemma take_new_request_keeps (server server' : Server) (store store' : GuardStore C N) request :
  take_new_request server store request = Done (server', store') → keeps store store'.
Proof.
  unfold take_new_request. destruct (enqueue_request _ _ _) as [[payload|io] h]; intros Ht.
  - apply bind_Done_inv in Ht as (st & Hs & Ht). injection Ht as _ <-. by eapply set_keeps.
  - injection Ht as _ <-. apply keeps_refl.
Qed.
Lemma next_request_turn_keeps (server server' : Server) (store store' : GuardStore C N)
    (t : RpcTurn Permit IoError) r :
  next_request_turn instant_max server store t = Done (r, (server', store')) → keeps store store'.
Proof.
  unfold next_request_turn. intros Ht. apply bind_Done_inv in Ht as ([[d n] [sv st]] & Hp & Ht).
  apply process_timeouts_keeps in Hp. eapply keeps_trans; [exact Hp|]. clear Hp.
  destruct (bubble_timeouts sv && (0 <? n)); [injection Ht as _ _ <-; apply keeps_refl|].
  apply bind_Done_inv in Ht as ([result c] & _ & Ht).
  destruct result as [[e|[event|]]|]; try (injection Ht as _ _ <-; apply keeps_refl).
  - apply bind_Done_inv in Ht as ([rq [sv2 st2]] & He & Ht). injection Ht as _ _ <-. by eapply handle_event_keeps.
  - destruct (branch t) as [|[rq|]]; try (injection Ht as _ _ <-; apply keeps_refl).
    apply bind_Done_inv in Ht as ([sv2 st2] & He & Ht). injection Ht as _ _ <-. by eapply take_new_request_keeps.
Qed.

Lemma try_get_answer (store : GuardStore C N) g v :
  try_get_response store g = Done (Ok v) ↔ answer store (inner g) = Some v.
Proof.
  unfold try_get_response, answer, take_inner.
  destruct (guards store !! inner g) as [x|]; cbn; [|done]. destruct (cell_get (outcome x)) as [w|]; cbn; [|done].
  split; [by intros [= ->]|by intros [= ->]].
Qed.

(** C25: an answer is final.  Whatever step the system takes, the guard a caller holds keeps the
    answer it got first: a late response does not replace a timeout, nor the shutdown of the
    server a response. *)
Theorem rpc_answers_final b (q : Snd) (rq : RSnd) s s' g v : queued rq = [] →
  rtc rpc_step (rpc_init b q rq) s → inner g ∈ issued s →
  try_get_response (sys_store s) g = Done (Ok v) → rpc_step s s' →
  try_get_response (sys_store s') g = Done (Ok v).
Proof.
  intros Hq Hr Hg Hv Hstep. pose proof (rpc_reachable_inv _ _ _ _ Hq Hr) as Hi.
  pose proof (ri_alloc s Hi _ (or_introl Hg)) as Hlt. apply try_get_answer in Hv. apply try_get_answer.
  assert (∀ store', extends (sys_store s) store' → answer store' (inner g) = Some v) as Hext.
  { intros store' [_ Hx]. unfold answer. by rewrite Hx. }
  destruct Hstep as [s rq' now g' c' st' Hc Hqs|s rq' now g' c' st' Hc Hqs|s rq' now r c' st' Hqs
    |s g' w st' Hg' Hw|s g'|s sv t r sv' st' Hs Hb Ht|s sv t rq' rest core' sv' st' q' Hs Hb Hev Hqq Hq' Hc Ht
    |s sv sv' st' q' Hs Hd Hqq Hc]; cbn [sys_store].
  - apply queue_for_sending_queueing in Hqs; [|apply (ri_counter s Hi)|done]. by apply Hext, Hqs.
  - apply try_queue_for_sending_queueing in Hqs; [|apply (ri_counter s Hi)|done]. by apply Hext, Hqs.
  - by destruct (not_queued_same _ _ _ _ _ _ _ Hqs) as (-> & _).
  - destruct (ri_issued s Hi _ Hg') as [Hin|[u Ha]].
    { apply (waiting_unanswered _ _ Hi), wait_unanswered in Hin as [Hin _]. congruence. }
    destruct (wait_answered _ _ _ Ha) as [(st & Hst & _ & Hans & Ho) _]. rewrite Hst in Hw. injection Hw as _ <-.
    destruct (decide (inner g = inner g')) as [Heq|Hne].
    + rewrite Heq in Hv |- *. rewrite Hans. destruct Ha as (x & Hx & Hox & _). unfold answer in Hv.
      rewrite Hx in Hv. cbn in Hv. congruence.
    + unfold answer. by rewrite Ho.
  - done.
  - by eapply next_request_turn_keeps.
  - by eapply next_request_turn_keeps.
  - rewrite Server_drop_answers in Hd.
    apply bind_Done_inv in Hd as (st & Hn & Hd). injection Hd as _ <-. by eapply notify_all_keeps.
Qed.
End system.

(** ** A system to evaluate: one request queued *)

Abbreviation SampleSystem :=
  (rpc_system (Permit := ()) (BM := list (IoId * (ChannelId * Id))) (S := Z)
     (Snd := ListQueue (QueuedItem ())) (RSnd := ListQueue (NewOutgoingRequest ()))
     (C := option Response) (N := bool)).
Definition sample_builder : RpcBuilder :=
  RpcBuilder_new (IoCoreBuilder_new (builder 1 (mkChannelConfiguration 2 100 50))).
Definition sample_init : SampleSystem :=
  rpc_init sample_builder (mkListQueue [] false) (mkListQueue [] false).
Definition sample_request : JulietRpcRequestBuilder :=
  {| rq_channel := ChannelId_new 0; rq_payload := Some [1; 2; 3]; rq_timeout := Some 50 |}.
Definition sample_queued : SampleSystem :=
  match queue_for_sending (2 ^ 63) sample_request 7 (sys_client sample_init) (sys_store sample_init) with
  | Done (Some g, (client, store)) => mkRpcSystem client (sys_server sample_init) store ({[inner g]} ∪ ∅)
  | _ => sample_init
  end.
Lemma sample_queued_step : rpc_step (IoError := ()) (2 ^ 63) sample_init sample_queued.
Proof. by eapply (rpc_queued (2 ^ 63) sample_init sample_request 7 (mkRequestGuard 0)). Qed.

Lemma rpc_requests_accounted_witness :
  queued (mkListQueue (Item := NewOutgoingRequest ()) [] false) = [] ∧
  waiting sample_queued = [0%nat] ∧
  wait_for_response (sys_store sample_queued) (mkRequestGuard 0) = Done (None, sys_store sample_queued).
Proof.
  split; [done|]. split; [done|].
  destruct (rpc_requests_accounted (IoError := ()) (2 ^ 63) sample_builder (mkListQueue [] false)
    (mkListQueue [] false) sample_queued) as (_ & _ & Hg); [done|apply rtc_once, sample_queued_step|].
  by apply (Hg (mkRequestGuard 0)).
Defined.

(** The server is dropped: the request was never sent. *)
Definition sample_store_dropped : GuardStore (option Response) bool :=
  match set_and_notify (sys_store sample_queued) 0 (Err (RemoteClosed (Some [1; 2; 3]))) with
  | Done store => store
  | _ => sys_store sample_queued
  end.
Definition sample_dropped : SampleSystem :=
  mkRpcSystem (set_sender (sys_client sample_queued) (mkListQueue [] true)) None sample_store_dropped
    (issued sample_queued).
Lemma sample_dropped_step : rpc_step (IoError := ()) (2 ^ 63) sample_queued sample_dropped.
Proof. by eapply (rpc_dropped (2 ^ 63) sample_queued _ _ _ (mkListQueue [] true)). Qed.
Lemma sample_forget_step : rpc_step (IoError := ()) (2 ^ 63) sample_dropped
  (mkRpcSystem (sys_client sample_dropped) None sample_store_dropped (issued sample_queued ∖ {[5%nat]})).
Proof. apply (rpc_forget (2 ^ 63) sample_dropped (mkRequestGuard 5)). Qed.

Lemma rpc_answers_final_witness :
  try_get_response sample_store_dropped (mkRequestGuard 0) = Done (Ok (Err (RemoteClosed (Some [1; 2; 3])))).
Proof.
  apply (rpc_answers_final (IoError := ()) (2 ^ 63) sample_builder (mkListQueue [] false) (mkListQueue [] false)
    sample_dropped (mkRpcSystem (sys_client sample_dropped) None sample_store_dropped (issued sample_queued ∖ {[5%nat]}))
    (mkRequestGuard 0)); [done| |by vm_compute|done|apply sample_forget_step].
  eapply rtc_l; [apply sample_queued_step|]. apply rtc_once, sample_dropped_step.
Defined.
