(* ===== verification/Endpoint.v ===== *)
(** * An endpoint of the RPC layer

    A client, a server with the core below it, and the application behind them: the requests it
    has queued, the requests of the peer it holds and the answers it gave.  The steps are the
    operations of [Rpc] between two awaits.  The queue to the core is one queue, whose sender
    is shared by the server and by the requests of the peer: it is the one in the
    server's handle. *)
From stdpp Require Import strings relations.
From S2P Require Import Prelude Lib Varint Header FrameSize OutgoingMessage WireFormat Multiframe Protocol Io CoreOps.
From S2P Require Import Peers Duplex Link Cores Calls Dialogue Rpc Instances RpcSpec RpcSystem.
From stdpp Require Import options.

(** ** Calls of a log *)

Definition call_in (e : CallEvent) : option (IoId * (ChannelId * option bytes)) :=
  match e with CeCall io ch payload => Some (io, (ch, payload)) | _ => None end.
Definition calls_in (log : list CallEvent) : list (IoId * (ChannelId * option bytes)) := omap call_in log.
Lemma calls_in_app log log' : calls_in (log ++ log') = calls_in log ++ calls_in log'.
Proof. apply omap_app. Qed.
Lemma calls_in_elem log io ch payload : (io, (ch, payload)) ∈ calls_in log ↔ CeCall io ch payload ∈ log.
Proof.
  unfold calls_in. rewrite list_elem_of_omap. split; [|intros Hin; by exists (CeCall io ch payload)].
  intros ([]& Hin & He); try done. by injection He as -> -> ->.
Qed.

Section endpoint.
Context {Permit IoError BM S Snd RSnd C N : Type} `{BiMapLaws IoId (ChannelId * Id) BM} `{Semaphore S Permit}.
Context `{SenderLaws Snd (QueuedItem Permit)} `{SenderLaws RSnd (NewOutgoingRequest Permit)}.
Context `{OnceCellLaws C Response} `{NotifyLaws N} (instant_max : Z).
#[local] Set Default Proof Using "Type*".
Abbreviation Client := (JulietRpcClient S Snd RSnd).
Abbreviation Server := (JulietRpcServer Permit BM Snd).
Implicit Types (client : Client) (server : Server) (store : GuardStore C N) (op : CoreOp Permit IoError) (log : list CallEvent).

(** ** The system *)

(** A request of the peer that was not answered yet, and the answer it was given. *)
Abbreviation Incoming := (ChannelId * Id * option bytes)%type.

(** [made]: all requests put into the queue to the server; [given]: all answers. *)
Record Endpoint := mkEndpoint {
  ep_client : Client;
  ep_server : Server;
  ep_store : GuardStore C N;
  ep_issued : gset nat;
  ep_held : list Incoming;
  made : list (NewOutgoingRequest Permit);
  given : list (Incoming * Answer);
}.
Definition system_of (e : Endpoint) : rpc_system :=
  mkRpcSystem (ep_client e) (Some (ep_server e)) (ep_store e) (ep_issued e).
Definition io_queue server : list (QueuedItem Permit) := queued (sender (handle server)).
Definition newly_made client client' : list (NewOutgoingRequest Permit) :=
  drop (length (in_queue client)) (in_queue client').
Definition answer_of_ending (ending : Ending) : Answer :=
  match ending with EndRespond payload => Some payload | EndCancel | EndDrop => None end.
Definition with_queue server (queue : Snd) : Server := set_handle server (mkHandle queue).

(** What the application and the server do between two polls of the core. *)
Inductive local_step : Endpoint → Endpoint → Prop :=
  | ep_queued e rq now g client' store' :
      next_io_id (request_handle (ep_client e)) + 1 < 2 ^ 64 →
      queue_for_sending instant_max rq now (ep_client e) (ep_store e) = Done (Some g, (client', store')) ∨
      try_queue_for_sending instant_max rq now (ep_client e) (ep_store e) = Done (Ok g, (client', store')) →
      local_step e (mkEndpoint client' (ep_server e) store' ({[inner g]} ∪ ep_issued e) (ep_held e)
        (made e ++ newly_made (ep_client e) client') (given e))
  | ep_not_queued e rq now r client' store' :
      queue_for_sending instant_max rq now (ep_client e) (ep_store e) = Done (None, (client', store')) ∨
      try_queue_for_sending instant_max rq now (ep_client e) (ep_store e) = Done (Err r, (client', store')) →
      local_step e (mkEndpoint client' (ep_server e) store' (ep_issued e) (ep_held e) (made e) (given e))
  | ep_response e g v store' : inner g ∈ ep_issued e →
      wait_for_response (ep_store e) g = Done (Some v, store') →
      local_step e (mkEndpoint (ep_client e) (ep_server e) store' (ep_issued e ∖ {[inner g]}) (ep_held e) (made e) (given e))
  | ep_forget e g :
      local_step e (mkEndpoint (ep_client e) (ep_server e) (RequestGuard_forget (ep_store e) g)
        (ep_issued e ∖ {[inner g]}) (ep_held e) (made e) (given e))
  | ep_timeouts e now x server' store' :
      process_timeouts instant_max (ep_server e) (ep_store e) now = Done (x, (server', store')) →
      local_step e (mkEndpoint (ep_client e) server' store' (ep_issued e) (ep_held e) (made e) (given e))
  | ep_taken e request rest server' store' queue' :
      in_queue (ep_client e) = request :: rest → queued queue' = rest →
      closed queue' = closed (new_request_sender (ep_client e)) →
      take_new_request (ep_server e) (ep_store e) request = Done (server', store') →
      local_step e (mkEndpoint (set_sender (ep_client e) queue') server' store' (ep_issued e) (ep_held e) (made e) (given e))
  | ep_answered e held1 ch id payload held2 ending h' r' :
      ep_held e = held1 ++ (ch, id, payload) :: held2 →
      end_request (mkIncomingRequest ch id payload (Some (handle (ep_server e)))) ending = Done (Some h', r') →
      local_step e (mkEndpoint (ep_client e) (set_handle (ep_server e) h') (ep_store e) (ep_issued e) (held1 ++ held2) (made e)
        (given e ++ [((ch, id, payload), answer_of_ending ending)])).

(** An operation of the core, which becomes [c']: it takes the first item of the queue, or what
    it reports is handled. *)
Inductive core_turn : Endpoint → CoreOp Permit IoError → IoCore Permit BM → Endpoint → Prop :=
  | ep_item e item rest r c' queue' : io_queue (ep_server e) = item :: rest → queued queue' = rest →
      closed queue' = receiver_closed c' →
      core_turn e (OpItem item r) c' (mkEndpoint (ep_client e) (with_queue (set_core (ep_server e) c') queue') (ep_store e)
        (ep_issued e) (ep_held e) (made e) (given e))
  | ep_event e c' event request server' store' queue' : queued queue' = io_queue (ep_server e) →
      closed queue' = receiver_closed c' →
      handle_event (with_queue (set_core (ep_server e) c') queue') (ep_store e) event = Done (request, (server', store')) →
      core_turn e (OpParse (Some (Ok (Some event)))) c' (mkEndpoint (ep_client e) server' store' (ep_issued e)
        (ep_held e ++ match request with Some r => [(ir_channel r, ir_id r, ir_payload r)] | None => [] end) (made e) (given e))
  | ep_quiet e op c' queue' : queued queue' = io_queue (ep_server e) → closed queue' = receiver_closed c' →
      ops_items [op] = [] → (∀ event, op ≠ OpParse (Some (Ok (Some event)))) →
      core_turn e op c' (mkEndpoint (ep_client e) (with_queue (set_core (ep_server e) c') queue') (ep_store e)
        (ep_issued e) (ep_held e) (made e) (given e)).

(** ** The calls it makes *)

Definition call_of (request : NewOutgoingRequest Permit) : IoId * (ChannelId * option bytes) :=
  (rt_io_id (ticket request), (rt_channel (ticket request), no_payload request)).
(** The calls known to the core or on the way to it. *)
Definition calls_taken log (queue : list (QueuedItem Permit)) : list (IoId * (ChannelId * option bytes)) :=
  calls_in log ++ omap request_of queue.

(** [log] is what happened to its calls: the requests made are those taken, in order, and those
    in the queue to the server; a request that pends was taken and not returned; and a guard has
    a response only if that was returned. *)
Record asks (e : Endpoint) log : Prop := {
  ak_rpc : rpc_inv (system_of e);
  ak_taken : ∃ taken, made e = taken ++ in_queue (ep_client e) ∧
    calls_taken log (io_queue (ep_server e)) `sublist_of` map call_of taken;
  ak_ids : NoDup (map (λ r, rt_io_id (ticket r)) (made e)) ∧
    Forall (λ r, ioid_raw (rt_io_id (ticket r)) < next_io_id (request_handle (ep_client e))) (made e);
  ak_guards : NoDup (map guard (made e)) ∧ Forall (λ r, (guard r < next_guard (ep_store e))%nat) (made e);
  ak_pending io g : pending (ep_server e) !! io = Some g →
    (∃ r, r ∈ made e ∧ rt_io_id (ticket r) = io ∧ guard r = g ∧ call_of r ∈ calls_taken log (io_queue (ep_server e))) ∧
    ∀ an, CeReturn io an ∉ log;
  ak_answers r payload : r ∈ made e → answer (ep_store e) (guard r) = Some (Ok payload) →
    CeReturn (rt_io_id (ticket r)) (Some payload) ∈ log;
  ak_issued g : g ∈ ep_issued e → (∃ r, r ∈ made e ∧ guard r = g) ∨ ∃ err, answer (ep_store e) g = Some (Err err);
}.

(** Steps that make no request and take none. *)
Lemma asks_keeps (e e' : Endpoint) log log' : asks e log → rpc_inv (system_of e') → made e' = made e →
  in_queue (ep_client e') = in_queue (ep_client e) →
  calls_taken log' (io_queue (ep_server e')) = calls_taken log (io_queue (ep_server e)) →
  next_io_id (request_handle (ep_client e')) = next_io_id (request_handle (ep_client e)) →
  next_guard (ep_store e') = next_guard (ep_store e) →
  (∀ io g, pending (ep_server e') !! io = Some g → pending (ep_server e) !! io = Some g ∧
    ∀ an, CeReturn io an ∈ log' → CeReturn io an ∈ log) →
  (∀ r payload, r ∈ made e → answer (ep_store e') (guard r) = Some (Ok payload) →
    answer (ep_store e) (guard r) = Some (Ok payload) ∨ CeReturn (rt_io_id (ticket r)) (Some payload) ∈ log') →
  (∀ io an, CeReturn io an ∈ log → CeReturn io an ∈ log') →
  ep_issued e' ⊆ ep_issued e → keeps (ep_store e) (ep_store e') → asks e' log'.
Proof.
  intros [K1 K2 K3 K4 K5 K6 K7] Hrpc Hm Hq Hc Hid Hg Hp Ha Hr Hiss Hkeep. constructor; rewrite ?Hm, ?Hq, ?Hc, ?Hid, ?Hg; try done.
  - intros io g Hio. apply Hp in Hio as [Hio Hret]. destruct (K5 _ _ Hio) as [Hr5 Hno]. split; [done|].
    intros an Hin. by eapply Hno, Hret.
  - intros r payload Hin Hans. apply Ha in Hans as [Hans|Hans]; [|done|done]. by apply Hr, K6.
  - intros g Hin. destruct (K7 g) as [?|[err Herr]]; [by apply Hiss|by left|right]. exists err. by apply Hkeep.
Qed.

Lemma taken_distinct (e : Endpoint) log : asks e log → NoDup (calls_taken log (io_queue (ep_server e))).*1.
Proof.
  intros [_ (taken & K2 & K2') [K3 _] _ _ _ _]. eapply sublist_NoDup; [|by apply fmap_sublist]. rewrite K2, map_app in K3.
  apply NoDup_app in K3 as [K3 _]. by rewrite <- list_fmap_compose.
Qed.
Ltac keep_asks e log :=
  apply (asks_keeps e _ log); cbn [ep_client ep_server ep_store ep_issued made]; try (done || apply keeps_refl).

Lemma newly_made_app client client' l : in_queue client' = in_queue client ++ l → newly_made client client' = l.
Proof. intros Hq. unfold newly_made. by rewrite Hq, drop_app_length. Qed.

(** A request is made. *)
Lemma asks_queued (e : Endpoint) log client' store' g : asks e log →
  queueing (ep_client e) client' (ep_store e) store' g →
  asks (mkEndpoint client' (ep_server e) store' ({[inner g]} ∪ ep_issued e) (ep_held e)
    (made e ++ newly_made (ep_client e) client') (given e)) log.
Proof.
  intros Ha Hq. pose proof (queueing_inv (system_of e) client' store' g (ak_rpc _ _ Ha) Hq) as Hrpc.
  destruct Ha as [K1 (taken & K2 & K2') [K3 K3'] [K4 K4'] K5 K6 K7]. pose proof Hq as ([Hnext Hsame] & Hg & _ & Hcase).
  assert (∀ r payload, r ∈ made e → answer store' (guard r) = Some (Ok payload) → answer (ep_store e) (guard r) = Some (Ok payload)) as Hans.
  { intros r payload Hin. rewrite Forall_forall in K4'. unfold answer. by rewrite Hsame by by apply K4'. }
  assert (Forall (λ r, (guard r < next_guard store')%nat) (made e)) as Hgl by (eapply Forall_impl; [exact K4'|]; cbn; lia).
  assert (∀ g0, g0 ∈ ep_issued e → (∃ r, r ∈ made e ∧ guard r = g0) ∨ ∃ err, answer store' g0 = Some (Err err)) as Hiss.
  { intros g0 Hin. destruct (K7 g0 Hin) as [?|[err Herr]]; [by left|right]. exists err. unfold answer in *.
    rewrite Hsame; [done|]. apply (ri_alloc _ K1). by left. }
  destruct Hcase as [(v & (x & Hx & Hv & _) & Hqe & Hid)|(Hu & _ & Hid & request & Hqe & Hgd & Hio)].
  - rewrite (newly_made_app _ _ []), app_nil_r by by rewrite app_nil_r.
    constructor; cbn [ep_client ep_server ep_store made]; try done.
    + exists taken. by rewrite Hqe.
    + split; [done|]. eapply Forall_impl; [exact K3'|]. cbn. lia.
    + intros r payload Hin Ha. by apply K6, Hans.
    + intros g0 [->%elem_of_singleton|Hin]%elem_of_union; [right|by apply Hiss]. exists v. unfold answer. by rewrite Hx.
  - rewrite (newly_made_app _ _ [request]) by done. constructor; cbn [ep_client ep_server ep_store made]; try done.
    + exists taken. split; [by rewrite Hqe, K2, app_assoc|done].
    + split.
      * apply NoDup_snoc_map; [done|]. intros (r & Hr & Hin)%list_elem_of_fmap. rewrite Forall_forall in K3'.
        specialize (K3' _ Hin). rewrite <- Hr in K3'. lia.
      * apply Forall_app. split; [eapply Forall_impl; [exact K3'|]; cbn; lia|]. apply Forall_singleton. lia.
    + split; [|apply Forall_app; split; [done|apply Forall_singleton; lia]].
      apply NoDup_snoc_map; [done|]. intros (r & Hr & Hin)%list_elem_of_fmap. rewrite Forall_forall in K4'.
      specialize (K4' _ Hin). lia.
    + intros io g0 Hp. destruct (K5 _ _ Hp) as [(r & Hin & Hr) Hno]. split; [|done]. exists r. split; [|done].
      apply elem_of_app. by left.
    + intros r payload [Hin|Hin]%elem_of_app Ha; [by apply K6, Hans|]. apply list_elem_of_singleton in Hin as ->.
      rewrite Hgd in Ha. destruct Hu as (x & n & Hx & Hnone & _). unfold answer in Ha. rewrite Hx in Ha. cbn in Ha. congruence.
    + intros g0 [->%elem_of_singleton|Hin]%elem_of_union.
      * left. exists request. rewrite elem_of_app, list_elem_of_singleton. auto.
      * destruct (Hiss g0 Hin) as [(r & Hr & Hrg)|?]; [left|by right]. exists r. rewrite elem_of_app. auto.
Qed.

(** ** What the steps do to the queue to the core and to the answers *)

Lemma resolved_answer server server' store store' gone v r w : resolved server server' store store' gone v →
  answer store' r = Some w → answer store r = Some w ∨ w = v ∧ ∃ io, io ∈ gone ∧ pending server !! io = Some r.
Proof.
  intros Hr Ha. destruct (decide (Exists (λ io, pending server !! io = Some r) gone)) as [He|He].
  - apply Exists_exists in He as (io & Hin & Hio). right. destruct (rs_answered _ _ _ _ _ _ Hr io r Hin Hio) as (x & Hx & Hv & _).
    unfold answer in Ha. rewrite Hx in Ha. cbn in Ha. split; [congruence|by exists io].
  - left. unfold answer in *. rewrite (rs_others _ _ _ _ _ _ Hr r) in Ha; [done|]. intros io Hin Hio. apply He, Exists_exists. by exists io.
Qed.
Lemma resolved_pending server server' store store' gone v io g : resolved server server' store store' gone v →
  pending server' !! io = Some g → pending server !! io = Some g ∧ io ∉ gone.
Proof. intros Hr. rewrite (rs_pending _ _ _ _ _ _ Hr). by case_decide. Qed.

(** Only cancellations are added to the queue. *)
Definition adds_cancellations server server' : Prop :=
  ∃ ios, io_queue server' = io_queue server ++ map QRequestCancellation ios.
Lemma cancellations_hold (ios : list IoId) : omap request_of (map (QRequestCancellation (Permit := Permit)) ios) = [] ∧
  omap answer_given (map (QRequestCancellation (Permit := Permit)) ios) = [].
Proof. by induction ios. Qed.
Lemma adds_requests server server' : adds_cancellations server server' →
  omap request_of (io_queue server') = omap request_of (io_queue server) ∧
  omap answer_given (io_queue server') = omap answer_given (io_queue server).
Proof.
  intros [ios ->]. destruct (cancellations_hold ios) as [Hr Ha]. by rewrite !omap_app, Hr, Ha, !app_nil_r.
Qed.
Lemma timeouts_effect server store now x server' store' : heap_sorted (timeouts server) → pending_ok server store →
  process_timeouts instant_max server store now = Done (x, (server', store')) →
  core server' = core server ∧ adds_cancellations server server' ∧ next_guard store' = next_guard store ∧
  (∀ io g, pending server' !! io = Some g → pending server !! io = Some g) ∧
  (∀ r payload, answer store' r = Some (Ok payload) → answer store r = Some (Ok payload)).
Proof.
  intros Hs Hok Hp. destruct (process_timeouts_spec instant_max server store now Hs Hok)
    as (deadline & gone & sv & st & [Hd|[Hd _]] & Hr & _ & _ & Hop & Hcl); rewrite Hp in Hd; [|done]. injection Hd as -> <- <-.
  split; [apply (rs_core _ _ _ _ _ _ Hr)|]. split; [|split; [apply (rs_next _ _ _ _ _ _ Hr)|split]].
  - unfold adds_cancellations, io_queue. destruct (closed (sender (handle server))).
    + exists []. rewrite Hcl by done. by rewrite app_nil_r.
    + exists gone. by apply Hop.
  - intros io g Hio. by apply (resolved_pending _ _ _ _ _ _ _ _ Hr) in Hio as [Hio _].
  - intros r payload Ha. by apply (resolved_answer _ _ _ _ _ _ _ _ Hr) in Ha as [Ha|[? _]].
Qed.

Definition request_item (request : NewOutgoingRequest Permit) : QueuedItem Permit :=
  QRequest (rt_channel (ticket request)) (rt_io_id (ticket request)) (no_payload request) (rt_permit (ticket request)).
Lemma take_effect server store request server' store' : unanswered store (guard request) →
  take_new_request server store request = Done (server', store') → core server' = core server ∧
  next_guard store' = next_guard store ∧
  (io_queue server' = io_queue server ++ [request_item request] ∧ store' = store ∧
     pending server' = <[rt_io_id (ticket request) := guard request]> (pending server) ∨
   io_queue server' = io_queue server ∧ pending server' = pending server ∧
     ∀ r payload, answer store' r = Some (Ok payload) → answer store r = Some (Ok payload)).
Proof.
  intros Hu. unfold take_new_request, enqueue_request, io_queue.
  destruct (closed (sender (handle server))) eqn:Hc.
  - rewrite send_closed by done.
    destruct (set_and_notify_unanswered store (guard request) (Err (RemoteClosed (into_payload (request_item request)))) Hu)
      as (st & Hst & Hn & _ & Ha & Ho). unfold request_item in Hst. rewrite Hst, bind_Done. intros [= <- <-].
    split; [done|]. split; [done|]. right. split; [done|]. split; [done|]. intros r payload Hr.
    destruct (decide (r = guard request)) as [->|Hne]; [congruence|]. unfold answer in *. by rewrite Ho in Hr.
  - destruct (send_open (sender (handle server)) (request_item request) Hc) as (H1' & H2' & _). unfold request_item in *.
    destruct (send _ _) as [sent q]. cbn [fst snd] in *. subst sent. intros [= <- <-].
    destruct (expires request); (split; [done|]; split; [done|]; by left).
Qed.

Lemma wait_effect store g v store' : (∃ w, answered store (inner g) w) → wait_for_response store g = Done (Some v, store') →
  next_guard store' = next_guard store ∧ ∀ r, answer store' r = answer store r.
Proof.
  intros [w Ha] Hw. destruct (wait_answered _ _ _ Ha) as [(st & Hst & Hn & Hans & Ho) _]. rewrite Hst in Hw. injection Hw as _ <-.
  split; [done|]. intros r. destruct (decide (r = inner g)) as [->|Hne]; [|unfold answer; by rewrite Ho].
  rewrite Hans. destruct Ha as (x & Hx & Hox & _). unfold answer. by rewrite Hx.
Qed.
Lemma issued_answered (e : Endpoint) g v store' : rpc_inv (system_of e) → inner g ∈ ep_issued e →
  wait_for_response (ep_store e) g = Done (Some v, store') → ∃ w, answered (ep_store e) (inner g) w.
Proof.
  intros Hi Hg Hw. destruct (ri_issued _ Hi _ Hg) as [Hin|Ha]; [|done].
  apply (waiting_unanswered _ _ Hi), wait_unanswered in Hin as [Hin _]. cbn in Hin. congruence.
Qed.

(** ** The steps keep it *)

(** A request still to be taken has not been returned. *)
Lemma not_returned (e : Endpoint) log s request rest : asks e log → call_run ∅ log s →
  in_queue (ep_client e) = request :: rest → ∀ an, CeReturn (rt_io_id (ticket request)) an ∉ log.
Proof.
  intros [_ (taken & K2 & K2') [K3 _] _ _ _ _] Hlog Hq an Hin. apply list_elem_of_split in Hin as (l1 & l2 & ->).
  destruct (return_accounted _ _ _ _ _ _ Hlog eq_refl) as [(ch & id & payload & Hsub) _].
  assert (CeCall (rt_io_id (ticket request)) ch payload ∈ l1) as Hin by (eapply elem_of_sublist; [|exact Hsub]; by left).
  assert ((rt_io_id (ticket request), (ch, payload)) ∈ map call_of taken) as Ht.
  { eapply elem_of_sublist; [|exact K2']. unfold calls_taken. apply elem_of_app. left. rewrite calls_in_elem, elem_of_app. by left. }
  apply list_elem_of_fmap in Ht as (r & Hr & Ht). rewrite K2, Hq, map_app in K3. apply NoDup_app in K3 as (_ & K3 & _).
  apply (K3 (rt_io_id (ticket request))); [|by left]. apply list_elem_of_fmap. exists r. split; [|done]. by injection Hr.
Qed.

Lemma asks_taken (e : Endpoint) log s request rest server' store' queue' : asks e log → call_run ∅ log s →
  in_queue (ep_client e) = request :: rest → queued queue' = rest →
  closed queue' = closed (new_request_sender (ep_client e)) →
  take_new_request (ep_server e) (ep_store e) request = Done (server', store') →
  asks (mkEndpoint (set_sender (ep_client e) queue') server' store' (ep_issued e) (ep_held e) (made e) (given e)) log.
Proof.
  intros Ha Hlog Hq Hq' Hc Ht. pose proof (not_returned _ _ _ _ _ Ha Hlog Hq) as Hret.
  pose proof (taken_inv (system_of e) (ep_server e) request rest server' store' queue' (ak_rpc _ _ Ha) eq_refl Hq Hq' Hc Ht) as Hrpc.
  pose proof (take_new_request_keeps _ _ _ _ _ Ht) as Hkeep.
  destruct Ha as [K1 (taken & K2 & K2') K3 [K4 K4'] K5 K6 K7].
  assert (unanswered (ep_store e) (guard request)) as Hu.
  { destruct (ri_server _ K1 _ eq_refl) as (_ & _ & Hqo & _). apply (qo_unanswered _ _ _ Hqo). cbn [system_of sys_client]. rewrite Hq. by left. }
  destruct (take_effect _ _ _ _ _ Hu Ht) as (_ & Hn & Hcase).
  assert (∃ taken', made e = taken' ++ queued queue' ∧ taken' = taken ++ [request]) as (taken' & Hm & Ht').
  { exists (taken ++ [request]). by rewrite Hq', <- app_assoc, K2, Hq. }
  assert (request ∈ made e) as Hin by (rewrite K2, Hq, elem_of_app; right; by left).
  destruct Hcase as [(Hio & -> & Hp)|(Hio & Hp & Hans)]; constructor;
    cbn [ep_client ep_server ep_store made set_sender request_handle]; rewrite ?Hn, ?Hio, ?Hp; try done.
  - exists taken'. split; [done|]. unfold calls_taken. rewrite omap_app, app_assoc, Ht', map_app. by apply sublist_app.
  - intros io g [[<- <-]|[_ Hg]]%lookup_insert_Some.
    + split; [|apply Hret]. exists request. split; [done|]. split; [done|]. split; [done|]. unfold calls_taken.
      rewrite omap_app, !elem_of_app. right. right. by left.
    + destruct (K5 _ _ Hg) as [(r & H1' & H2' & H3' & H4') Hno]. split; [|done]. exists r. split_and!; try done.
      unfold calls_taken in *. rewrite omap_app, !elem_of_app in *. naive_solver.
  - exists taken'. split; [done|]. rewrite Ht', map_app. by apply sublist_inserts_r.
  - intros r payload Hr Ha. by apply K6, Hans.
  - intros g Hg. destruct (K7 g Hg) as [?|[err Herr]]; [by left|right]. exists err. by apply Hkeep.
Qed.

Lemma local_step_asks (e e' : Endpoint) log s : asks e log → call_run ∅ log s → local_step e e' → asks e' log.
Proof.
  intros Ha Hlog Hstep. pose proof (ak_rpc _ _ Ha) as Hi. pose proof (ri_server _ Hi _ eq_refl) as (Hok & Hsort & _).
  destruct Hstep as [e rq now g client' store' Hlt Hq|e rq now r client' store' Hq|e g v store' Hg Hw|e g
    |e now x server' store' Hp|e request rest server' store' queue' Hq Hq' Hc Ht|e held1 ch id payload held2 ending h' r' Hh He].
  - apply asks_queued; [done|]. destruct Hq as [Hq|Hq].
    + eapply queue_for_sending_queueing; [apply (ri_counter _ Hi)|done..].
    + eapply try_queue_for_sending_queueing; [apply (ri_counter _ Hi)|done..].
  - destruct (not_queued_same _ _ _ _ _ _ _ _ Hq) as (-> & Hs & Hn).
    keep_asks e log.
    + apply (rpc_step_inv (IoError := ()) instant_max (system_of e)); [by eapply rpc_not_queued|done].
    + unfold in_queue. by rewrite Hs.
    + intros. by left.
  - destruct (wait_effect _ _ _ _ (issued_answered _ _ _ _ Hi Hg Hw) Hw) as [Hn Hans].
    keep_asks e log.
    + by eapply (response_inv (system_of e)).
    + intros r payload _ Hr. left. by rewrite <- Hans.
    + set_solver.
    + intros r w Hr. by rewrite Hans.
  - keep_asks e log.
    + apply (rpc_inv_issued (system_of e)); [set_solver|done].
    + intros. by left.
    + set_solver.
  - destruct (timeouts_effect _ _ _ _ _ _ Hsort Hok Hp) as (_ & Hadd & Hn & Hpend & Hans).
    apply adds_requests in Hadd as [Hadd _].
    keep_asks e log.
    + by eapply (process_timeouts_inv instant_max (system_of e)).
    + unfold calls_taken. by rewrite Hadd.
    + intros io g Hio. split; [by apply Hpend|done].
    + intros r payload _ Hr. left. by apply Hans.
    + by eapply process_timeouts_keeps.
  - by eapply asks_taken.
  - destruct (end_request_sends (mkIncomingRequest ch id payload (Some (handle (ep_server e)))) (handle (ep_server e)) ending eq_refl)
      as (h2 & He2 & Hqe & _).
    rewrite He in He2. injection He2 as <- _.
    keep_asks e log.
    + by apply (rpc_inv_same (system_of e) (ep_server e)).
    + unfold calls_taken, io_queue. cbn [set_handle handle]. rewrite Hqe, omap_app.
      assert (omap request_of (if closed (sender (handle (ep_server e))) then [] else [ending_item (mkIncomingRequest ch id payload
        (Some (handle (ep_server e)))) ending]) = []) as -> by (by destruct (closed _), ending). by rewrite app_nil_r.
    + intros. by left.
Qed.

Lemma asking_calls op (c c' : IoCore Permit BM) : calls_in (asking op c c') = omap request_of (ops_items [op]).
Proof.
  unfold asking. rewrite !calls_in_app.
  assert (calls_in (omap send_event (sent_by op c c')) = []) as ->.
  { induction (sent_by op c c') as [|[] l IH]; [done|..]; cbn [omap list_omap send_event]; exact IH. }
  destruct op as [r| | | | |item r|]; try done; [|by destruct item]. by destruct r as [[[]|[[]|]]|].
Qed.
Lemma asking_returns op (c c' : IoCore Permit BM) io an :
  CeReturn io an ∈ asking op c c' ↔ ∃ r, op = OpParse r ∧ CeReturn io an ∈ returned r.
Proof.
  unfold asking. rewrite !elem_of_app. split.
  - intros [Hin|[Hin|Hin]].
    + destruct op as [| | | | |[] r|]; try (by apply elem_of_nil in Hin). by apply list_elem_of_singleton in Hin.
    + apply list_elem_of_omap in Hin as (msg & _ & Hs). by destruct msg.
    + destruct op as [r| | | | | |]; try (by apply elem_of_nil in Hin). by exists r.
  - intros (r & -> & Hin). by right; right.
Qed.

Lemma event_asks (e : Endpoint) log event server1 request server' store' new : asks e log →
  pending server1 = pending (ep_server e) → timeouts server1 = timeouts (ep_server e) →
  io_queue server1 = io_queue (ep_server e) →
  handle_event server1 (ep_store e) event = Done (request, (server', store')) →
  calls_in new = [] → (∀ io an, CeReturn io an ∈ new ↔ CeReturn io an ∈ returned (IoError := IoError) (Some (Ok (Some event)))) →
  asks (mkEndpoint (ep_client e) server' store' (ep_issued e)
    (ep_held e ++ match request with Some r => [(ir_channel r, ir_id r, ir_payload r)] | None => [] end) (made e) (given e)) (log ++ new).
Proof.
  intros Ha Hp Ht Hio He Hnew Hret. pose proof (ak_rpc _ _ Ha) as Hi.
  assert (rpc_inv (with_server (system_of e) server1 (ep_store e))) as Hi1
    by by apply (rpc_inv_same (system_of e) (ep_server e) server1).
  pose proof (handle_event_inv _ server1 event request server' store' Hi1 eq_refl He) as Hi'.
  pose proof (ri_server _ Hi1 _ eq_refl) as (Hok & _). cbn [with_server sys_store] in Hok.
  assert (∀ io v, resolve server1 (ep_store e) io v = Done (server', store') →
    (∀ io' an, CeReturn io' an ∈ new → io' = io) → (∀ payload, v = Ok payload → CeReturn io (Some payload) ∈ new) →
    asks (mkEndpoint (ep_client e) server' store' (ep_issued e) (ep_held e ++ []) (made e) (given e)) (log ++ new)) as Hres.
  { intros io v Hd Hno Hv. destruct (resolve_spec server1 (ep_store e) io v Hok) as (sv & st & Hd' & Hh & Hr).
    rewrite Hd in Hd'. injection Hd' as <- <-.
    assert (∀ io', io' ∈ waiting_for server1 io ↔ io' = io ∧ is_Some (pending (ep_server e) !! io)) as Hgone.
    { intros io'. unfold waiting_for. rewrite Hp. destruct (pending (ep_server e) !! io).
      - rewrite list_elem_of_singleton. naive_solver.
      - rewrite elem_of_nil. split; [done|]. by intros [_ [? ?]]. }
    keep_asks e log.
    - unfold calls_taken, io_queue in *. rewrite calls_in_app, Hnew, app_nil_r, Hh. by rewrite Hio.
    - apply (rs_next _ _ _ _ _ _ Hr).
    - intros io' g Hg. destruct (resolved_pending _ _ _ _ _ _ _ _ Hr Hg) as [Hg' Hni]. rewrite Hp in Hg'. split; [done|].
      intros an [Hin|Hin]%elem_of_app; [done|]. apply Hno in Hin as ->. destruct Hni. apply Hgone. split; [done|by eexists].
    - intros r payload Hin Hans. apply (resolved_answer _ _ _ _ _ _ _ _ Hr) in Hans as [Hans|(<- & io' & Hgo & Hio')]; [by left|right].
      apply Hgone in Hgo as [-> _]. rewrite Hp in Hio'. destruct (ak_pending _ _ Ha _ _ Hio') as [(r' & Hin' & <- & Hg & _) _].
      assert (r' = r) as ->.
      { pose proof (ak_guards _ _ Ha) as [Hnd _]. by eapply (NoDup_map_inj guard). }
      apply elem_of_app. right. by apply Hv.
    - intros. apply elem_of_app. by left.
    - by eapply resolve_keeps. }
  destruct event as [ch id payload|ch id|io payload|io]; cbn [handle_event] in He.
  3-4: apply bind_Done_inv in He as ([sv st] & Hd & He); injection He as <- <- <-; apply (Hres _ _ Hd).
  3-6: intros *; try (intros Hin%Hret%list_elem_of_singleton; by injection Hin). 
  3-4: intros Hv; try done; injection Hv as <-; apply Hret; by left.
  all: injection He as <- <- <-; keep_asks e log.
  all: try (unfold calls_taken; by rewrite calls_in_app, Hnew, app_nil_r, Hio).
  all: try (intros io g Hg; rewrite Hp in Hg; split; [done|]; intros an [Hin|Hin]%elem_of_app; [done|]; apply Hret in Hin; by apply elem_of_nil in Hin).
  all: intros; try (by left); apply elem_of_app; by left.
Qed.

Lemma quiet_returns op io an : (∀ event, op ≠ OpParse (Some (Ok (Some event)))) →
  ¬ ∃ r, op = OpParse r ∧ CeReturn io an ∈ returned r.
Proof.
  intros Hq (r & -> & Hin). destruct r as [[[]|[event|]]|]; try (by apply elem_of_nil in Hin); [|by destruct (Hq event)].
  by apply list_elem_of_singleton in Hin.
Qed.
Lemma core_turn_asks (e e' : Endpoint) op (c c' : IoCore Permit BM) log : asks e log → core_turn e op c' e' →
  asks e' (log ++ asking op c c').
Proof.
  intros Ha Hstep. pose proof (ak_rpc _ _ Ha) as Hi.
  assert (∀ queue', rpc_inv (system_of (mkEndpoint (ep_client e) (with_queue (set_core (ep_server e) c') queue') (ep_store e)
    (ep_issued e) (ep_held e) (made e) (given e)))) as Hsame
    by (intros queue'; by apply (rpc_inv_same (system_of e) (ep_server e))).
  destruct Hstep as [e item rest r c' queue' Hq Hq' Hc|e c' event request server' store' queue' Hq Hc He|e op c' queue' Hq Hc Hno Hev].
  - keep_asks e log.
    + unfold calls_taken. rewrite calls_in_app, asking_calls, <- app_assoc, Hq. f_equal. unfold io_queue.
      cbn [with_queue set_handle handle sender]. rewrite Hq'. cbn [ops_items omap list_omap]. by destruct (request_of item).
    + intros io g Hg. split; [done|]. intros an [Hin|Hin]%elem_of_app; [done|]. by apply asking_returns in Hin as (? & ? & _).
    + intros. by left.
    + intros. apply elem_of_app. by left.
  - apply (event_asks e log event (with_queue (set_core (ep_server e) c') queue')); try done.
    + by rewrite asking_calls.
    + intros io an. rewrite asking_returns. split; [intros (r & [= <-] & Hin); done|]. intros Hin. by eexists.
  - keep_asks e log.
    + unfold calls_taken, io_queue. cbn [with_queue set_handle handle sender]. by rewrite Hq, calls_in_app, asking_calls, Hno, app_nil_r.
    + intros io g Hg. split; [done|]. intros an [Hin|Hin]%elem_of_app; [done|]. apply asking_returns in Hin.
      by destruct (quiet_returns op io an Hev).
    + intros. by left.
    + intros. apply elem_of_app. by left.
Qed.

(** ** The calls it serves

    [log]: the calls of the peer, in the stages [s].  The requests the application holds and those
    whose answer is in the queue are calls it was told of, each once; and an answer on its way
    or returned is one it gave to that call. *)
Definition held_keys (e : Endpoint) : list (ChannelId * Id) :=
  (ep_held e).*1 ++ (omap answer_given (io_queue (ep_server e))).*1.
Record serves (e : Endpoint) (s : gmap IoId Stage) log : Prop := {
  sv_keys : NoDup (held_keys e);
  sv_held ch id payload : (ch, id, payload) ∈ ep_held e →
    ∃ io, s !! io = Some (Told ch id) ∧ CeCall io ch payload ∈ log;
  sv_queued ch id an : (ch, id, an) ∈ omap answer_given (io_queue (ep_server e)) →
    ∃ io payload, s !! io = Some (Told ch id) ∧ CeCall io ch payload ∈ log ∧ ((ch, id, payload), an) ∈ given e;
  sv_answered io ch id an : s !! io = Some (Answered ch id an) →
    ∃ payload, CeCall io ch payload ∈ log ∧ ((ch, id, payload), an) ∈ given e;
  sv_finished io an : s !! io = Some (Finished an) →
    ∃ ch id payload, [CeCall io ch payload; CeSend ch id payload; CeTell ch id payload; CeAnswer ch id an] `sublist_of` log ∧
      ((ch, id, payload), an) ∈ given e;
}.

Lemma held_told (e : Endpoint) s log ch id : serves e s log → (ch, id) ∈ held_keys e → ∃ io, s !! io = Some (Told ch id).
Proof.
  intros Hs [Hin|Hin]%elem_of_app; apply list_elem_of_fmap in Hin as ([[ch' id'] x] & Hk & Hin); injection Hk as <- <-.
  - apply (sv_held _ _ _ Hs) in Hin as (io & Hio & _). by exists io.
  - apply (sv_queued _ _ _ Hs) in Hin as (io & ? & Hio & _). by exists io.
Qed.

(** What the peer does for its calls. *)
Definition own_event (ev : CallEvent) : Prop := match ev with CeTell _ _ _ | CeAnswer _ _ _ => False | _ => True end.
Lemma serves_own (e : Endpoint) s ev s' log : serves e s log → call_run ∅ log s → call_step s ev s' → own_event ev → serves e s' (log ++ [ev]).
Proof.
  intros [V1 V2 V3 V4 V5] Hlogs Hstep Hown.
  assert (∀ io ch id, s !! io = Some (Told ch id) → s' !! io = Some (Told ch id)) as Htold.
  { intros io ch id Hio. inversion Hstep as [? io0 ? ? Hn|? io0 ? ? ? Hn _|? io0 ? ? ? Hn|? io0 ? ? ? Hn|? io0 ? ? ? Hn]; subst; try done;
      rewrite lookup_insert_ne; congruence. }
  assert (∀ io ch payload, CeCall io ch payload ∈ log → CeCall io ch payload ∈ log ++ [ev]) as Hlog by (intros; apply elem_of_app; by left).
  constructor; [done|..].
  - intros ch id payload (io & Hio & Hc)%V2. exists io. auto.
  - intros ch id an (io & payload & Hio & Hc & Hg)%V3. exists io, payload. auto.
  - intros io ch id an Hio. assert (s !! io = Some (Answered ch id an)) as (payload & Hc & Hg)%V4; [|exists payload; auto].
    inversion Hstep as [? io0|? io0|? io0|? io0|? io0]; subst; try done;
      (destruct (decide (io = io0)) as [->|Hne]; [by rewrite lookup_insert_eq in Hio|by rewrite lookup_insert_ne in Hio]).
  - intros io an Hio. assert (s !! io = Some (Finished an) ∨ ∃ ch id, s !! io = Some (Answered ch id an)) as [Hf|(ch & id & Ha)].
    { inversion Hstep as [? io0|? io0|? io0|? io0|? io0 ch id an0 Hn]; subst; try done;
        (destruct (decide (io = io0)) as [->|Hne]; [rewrite lookup_insert_eq in Hio; try done|rewrite lookup_insert_ne in Hio by done; by left]).
      right. exists ch, id. injection Hio as <-. done. }
    + apply V5 in Hf as (ch & id & payload & Hc & Hg). exists ch, id, payload. split; [by apply sublist_inserts_r|done].
    + destruct (call_run_history _ _ _ _ Hlogs Ha) as (l & [pl ->] & Hsub). apply V4 in Ha as (payload & Hc & Hg).
      assert (CeCall io ch pl ∈ log) as Hc' by (eapply elem_of_sublist; [|exact Hsub]; by left).
      destruct (call_run_once _ _ _ _ _ _ _ Hlogs Hc Hc') as [_ ->]. exists ch, id, payload. split; [by apply sublist_inserts_r|done].
Qed.
Lemma serves_own_run (e : Endpoint) s new s' : call_run s new s' → ∀ log, serves e s log → call_run ∅ log s → Forall own_event new → serves e s' (log ++ new).
Proof.
  induction 1 as [s|s ev s1 new s' Hstep _ IH]; intros log Hs Hlog Hown; [by rewrite app_nil_r|].
  apply Forall_cons in Hown as [He Hown]. change (ev :: new) with ([ev] ++ new). rewrite app_assoc. apply IH; [by eapply serves_own|by eapply call_run_snoc|done].
Qed.
Lemma asking_own op (c c' : IoCore Permit BM) : Forall own_event (asking op c c').
Proof.
  unfold asking. rewrite !Forall_app. split; [|split].
  - destruct op as [| | | | |[] r|]; repeat constructor.
  - apply Forall_forall. intros ev Hin. apply list_elem_of_omap in Hin as (msg & _ & Hev). destruct msg; try done. by injection Hev as <-.
  - destruct op as [r| | | | | |]; try constructor. destruct r as [[[]|[[]|]]|]; repeat constructor.
Qed.

(** Steps that neither hold a request nor answer one. *)
Lemma serves_keeps (e e' : Endpoint) s log : serves e s log → ep_held e' = ep_held e → given e' = given e →
  omap answer_given (io_queue (ep_server e')) = omap answer_given (io_queue (ep_server e)) → serves e' s log.
Proof. intros [V1 V2 V3 V4 V5] Hh Hg Hq. constructor; unfold held_keys in *; rewrite ?Hh, ?Hg, ?Hq; done. Qed.

Lemma call_run_single s ev s' : call_run s [ev] s' → call_step s ev s'.
Proof. intros Hr. inversion Hr as [|? ? s1 ? ? Hs Hr1]; subst. by inversion Hr1; subst. Qed.

Lemma serves_tell (e e' : Endpoint) s s' log ch id payload : serves e s log → call_run ∅ log s →
  call_step s (CeTell ch id payload) s' → ep_held e' = ep_held e ++ [(ch, id, payload)] → given e' = given e →
  omap answer_given (io_queue (ep_server e')) = omap answer_given (io_queue (ep_server e)) →
  serves e' s' (log ++ [CeTell ch id payload]).
Proof.
  intros Hs Hlog Hstep Hh Hg Hq. pose proof (call_run_keyed _ _ Hlog) as Hkeyed.
  inversion Hstep as [| |? io0 ? ? ? Hn| |]; subst. pose proof (call_run_numbered _ _ _ _ _ _ Hlog Hn) as Hcall.
  assert ((ch, id) ∉ held_keys e) as Hfresh.
  { intros Hin. destruct (held_told _ _ _ _ _ Hs Hin) as [io Hio]. pose proof (Hkeyed _ _ _ _ _ Hio Hn eq_refl eq_refl). congruence. }
  destruct Hs as [V1 V2 V3 V4 V5].
  assert (∀ io ch0 id0, s !! io = Some (Told ch0 id0) → <[io0:=Told ch id]> s !! io = Some (Told ch0 id0)) as Htold
    by (intros; rewrite lookup_insert_ne; congruence).
  assert (∀ io ch0 pl, CeCall io ch0 pl ∈ log → CeCall io ch0 pl ∈ log ++ [CeTell ch id payload]) as Hl by (intros; apply elem_of_app; by left).
  unfold held_keys in *. constructor; unfold held_keys; rewrite ?Hh, ?Hg, ?Hq.
  - rewrite fmap_app, <- app_assoc. cbn [fmap list_fmap fst app]. rewrite <- Permutation_middle. by constructor.
  - intros ch0 id0 pl [(io & Hio & Hc)%V2|Hin]%elem_of_app; [exists io; auto|]. apply list_elem_of_singleton in Hin as [= -> -> ->].
    exists io0. rewrite lookup_insert_eq. auto.
  - intros ch0 id0 an (io & pl & Hio & Hc & Hgv)%V3. exists io, pl. auto.
  - intros io ch0 id0 an Hio. destruct (decide (io = io0)) as [->|Hne]; [by rewrite lookup_insert_eq in Hio|].
    rewrite lookup_insert_ne in Hio by done. apply V4 in Hio as (pl & Hc & Hgv). exists pl. auto.
  - intros io an Hio. destruct (decide (io = io0)) as [->|Hne]; [by rewrite lookup_insert_eq in Hio|].
    rewrite lookup_insert_ne in Hio by done. apply V5 in Hio as (ch0 & id0 & pl & Hc & Hgv). exists ch0, id0, pl.
    split; [by apply sublist_inserts_r|done].
Qed.

Lemma serves_answer (e e' : Endpoint) s s' log ch id an : serves e s log → call_run ∅ log s →
  call_step s (CeAnswer ch id an) s' → ep_held e' = ep_held e → given e' = given e →
  omap answer_given (io_queue (ep_server e)) = (ch, id, an) :: omap answer_given (io_queue (ep_server e')) →
  serves e' s' (log ++ [CeAnswer ch id an]).
Proof.
  intros [V1 V2 V3 V4 V5] Hlog Hstep Hh Hg Hq. pose proof (call_run_keyed _ _ Hlog) as Hkeyed.
  inversion Hstep as [| | |? io0 ? ? ? Hn|]; subst.
  unfold held_keys in *. rewrite Hq in V1, V3. cbn [fmap list_fmap fst] in V1.
  rewrite <- Permutation_middle in V1. apply NoDup_cons in V1 as [Hno V1].
  assert (∀ io ch0 id0, s !! io = Some (Told ch0 id0) → (ch0, id0) ≠ (ch, id) →
    <[io0:=Answered ch id an]> s !! io = Some (Told ch0 id0)) as Htold
    by (intros; rewrite lookup_insert_ne; congruence).
  assert (∀ io ch0 pl, CeCall io ch0 pl ∈ log → CeCall io ch0 pl ∈ log ++ [CeAnswer ch id an]) as Hl by (intros; apply elem_of_app; by left).
  constructor; unfold held_keys; rewrite ?Hh, ?Hg; try done.
  - intros ch0 id0 pl Hin. destruct (V2 _ _ _ Hin) as (io & Hio & Hc). exists io. split; [|auto]. apply Htold; [done|].
    intros [= -> ->]. apply Hno, elem_of_app. left. apply list_elem_of_fmap. by exists (ch, id, pl).
  - intros ch0 id0 an0 Hin. destruct (V3 ch0 id0 an0) as (io & pl & Hio & Hc & Hgv); [by right|]. exists io, pl.
    split; [|auto]. apply Htold; [done|]. intros [= -> ->]. apply Hno, elem_of_app. right. apply list_elem_of_fmap. by exists (ch, id, an0).
  - intros io ch0 id0 an0 Hio. destruct (decide (io = io0)) as [->|Hne].
    + rewrite lookup_insert_eq in Hio. injection Hio as <- <- <-. destruct (V3 ch id an) as (io & pl & Hio & Hc & Hgv); [by left|].
      assert (io = io0) as -> by (by eapply (Hkeyed _ _ _ _ (ch, id))). exists pl. auto.
    + rewrite lookup_insert_ne in Hio by done. apply V4 in Hio as (pl & Hc & Hgv). exists pl. auto.
  - intros io an0 Hio. destruct (decide (io = io0)) as [->|Hne]; [by rewrite lookup_insert_eq in Hio|].
    rewrite lookup_insert_ne in Hio by done. apply V5 in Hio as (ch0 & id0 & pl & Hc & Hgv). exists ch0, id0, pl.
    split; [by apply sublist_inserts_r|done].
Qed.

Lemma quiet_serving op : ops_items [op] = [] → (∀ event, op ≠ OpParse (Some (Ok (Some event)))) → serving op = [].
Proof.
  intros Hi Hq. destruct op as [r| | | | |item r|]; try done. destruct r as [[|[event|]]|]; try done. by destruct (Hq event).
Qed.
Lemma handle_event_handle server store event request server' store' :
  handle_event server store event = Done (request, (server', store')) → handle server' = handle server ∧
  request = match event with EvNewRequest ch id payload => Some (mkIncomingRequest ch id payload (Some (handle server))) | _ => None end.
Proof.
  assert (∀ io v x, (t ← resolve server store io v; mret (x, t)) = Done (request, (server', store')) →
    handle server' = handle server ∧ request = x) as Hres.
  { intros io v x Hd. unfold resolve in Hd. destruct (pending _ !! io); [|by injection Hd as <- <- _].
    apply bind_Done_inv in Hd as ([sv st] & Hd & Hx). injection Hx as <- <- _. apply bind_Done_inv in Hd as (st' & _ & Hx).
    by injection Hx as <- _. }
  destruct event; cbn [handle_event]; intros He; try (by injection He as <- <- _); by eapply Hres.
Qed.
Lemma core_turn_serves (e e' : Endpoint) op c' s s' log : serves e s log → call_run ∅ log s → core_turn e op c' e' →
  call_run s (serving op) s' → serves e' s' (log ++ serving op).
Proof.
  intros Hs Hlog Hstep Hrun.
  destruct Hstep as [e item rest r c' queue' Hq Hq' Hc|e c' event request server' store' queue' Hq Hc He|e op c' queue' Hq Hc Hno Hev].
  - assert (omap answer_given (io_queue (ep_server e)) = option_list (answer_given item) ++ omap answer_given (queued queue')) as Hans.
    { rewrite Hq, Hq'. cbn [omap list_omap]. by destruct (answer_given item). }
    destruct (answer_given item) as [[[ch id] an]|] eqn:Hg.
    + assert (serving (OpItem (IoError := IoError) item r) = [CeAnswer ch id an]) as Hsv by (destruct item; try done; by injection Hg as <- <- <-).
      rewrite Hsv in *. apply call_run_single in Hrun. eapply serves_answer; [exact Hs|done..].
    + assert (serving (OpItem (IoError := IoError) item r) = []) as Hsv by by destruct item.
      rewrite Hsv, app_nil_r in *. inversion Hrun; subst. eapply serves_keeps; [exact Hs|done..].
  - destruct (handle_event_handle _ _ _ _ _ _ He) as [Hh Hreq].
    assert (io_queue server' = io_queue (ep_server e)) as Hio by (unfold io_queue; by rewrite Hh). rewrite Hreq. clear He Hreq.
    destruct event as [ch id payload|ch id|io payload|io]; cbn [serving ir_channel ir_id ir_payload] in *;
      [apply call_run_single in Hrun; eapply serves_tell; [exact Hs|done..|cbn; by rewrite Hio]|..].
    all: inversion Hrun; subst; rewrite !app_nil_r; eapply serves_keeps; [exact Hs|done|done|cbn; by rewrite Hio].
  - rewrite (quiet_serving op) in * by done. inversion Hrun; subst. rewrite app_nil_r. eapply serves_keeps; [exact Hs|done..|].
    cbn. unfold io_queue. cbn. by rewrite Hq.
Qed.

Lemma ending_answer (self : IncomingRequest Snd) ending :
  answer_given (ending_item (Permit := Permit) self ending) = Some (ir_channel self, ir_id self, answer_of_ending ending).
Proof. by destruct ending. Qed.
Lemma serves_ending (e e' : Endpoint) s log held1 ch id payload held2 an : serves e s log →
  ep_held e = held1 ++ (ch, id, payload) :: held2 → ep_held e' = held1 ++ held2 → given e' = given e ++ [((ch, id, payload), an)] →
  omap answer_given (io_queue (ep_server e')) = omap answer_given (io_queue (ep_server e)) ∨
  omap answer_given (io_queue (ep_server e')) = omap answer_given (io_queue (ep_server e)) ++ [(ch, id, an)] →
  serves e' s log.
Proof.
  intros [V1 V2 V3 V4 V5] Hh Hh' Hg Hq. unfold held_keys in *. rewrite Hh in V1, V2.
  assert (∀ x, x ∈ given e → x ∈ given e') as Hgv by (intros x Hx; rewrite Hg; apply elem_of_app; by left).
  assert ((ch, id) :: (held1 ++ held2).*1 ++ (omap answer_given (io_queue (ep_server e))).*1 ≡ₚ
    (held1 ++ (ch, id, payload) :: held2).*1 ++ (omap answer_given (io_queue (ep_server e))).*1) as Hperm.
  { rewrite !fmap_app. cbn [fmap list_fmap fst]. by rewrite <- Permutation_middle. }
  rewrite <- Hperm in V1. apply NoDup_cons in V1 as [Hno V1].
  assert (∀ ch0 id0 pl, (ch0, id0, pl) ∈ held1 ++ held2 → (ch0, id0, pl) ∈ held1 ++ (ch, id, payload) :: held2) as Hsub
    by (intros ch0 id0 pl; rewrite !elem_of_app, elem_of_cons; tauto).
  constructor; unfold held_keys; rewrite ?Hh'.
  - destruct Hq as [->| ->]; [done|]. rewrite (fmap_app _ (omap answer_given _)), app_assoc. cbn [fmap list_fmap fst]. rewrite <- Permutation_cons_append. by constructor.
  - intros ch0 id0 pl Hin. by apply V2, Hsub.
  - intros ch0 id0 an0 Hin. assert ((ch0, id0, an0) ∈ omap answer_given (io_queue (ep_server e)) ∨ (ch0, id0, an0) = (ch, id, an)) as [Hin'|Heq].
    { destruct Hq as [Hq|Hq]; rewrite Hq in Hin; [by left|]. rewrite elem_of_app, list_elem_of_singleton in Hin. tauto. }
    + apply V3 in Hin' as (io & pl & Hio & Hc & Hx). exists io, pl. auto.
    + injection Heq as -> -> ->. destruct (V2 ch id payload) as (io & Hio & Hc); [rewrite elem_of_app; right; by left|].
      exists io, payload. split; [done|]. split; [done|]. rewrite Hg, elem_of_app. right. by left.
  - intros io ch0 id0 an0 (pl & Hc & Hx)%V4. exists pl. auto.
  - intros io an0 (ch0 & id0 & pl & Hc & Hx)%V5. exists ch0, id0, pl. auto.
Qed.

Lemma local_step_serves (e e' : Endpoint) s log : rpc_inv (system_of e) → serves e s log → local_step e e' → serves e' s log.
Proof.
  intros Hi Hs Hstep. pose proof (ri_server _ Hi _ eq_refl) as (Hok & Hsort & Hqo & _).
  destruct Hstep as [e rq now g client' store' Hlt Hq|e rq now r client' store' Hq|e g v store' Hg Hw|e g
    |e now x server' store' Hp|e request rest server' store' queue' Hq Hq' Hc Ht|e held1 ch id payload held2 ending h' r' Hh He];
    try (eapply serves_keeps; [exact Hs|done..]).
  - eapply serves_keeps; [exact Hs|done..|]. destruct (timeouts_effect _ _ _ _ _ _ Hsort Hok Hp) as (_ & Hadd & _).
    by apply adds_requests in Hadd as [_ Hadd].
  - eapply serves_keeps; [exact Hs|done..|]. destruct (take_effect (ep_server e) (ep_store e) request server' store') as (_ & _ & Hcase); [|done|].
    + apply (qo_unanswered _ _ _ Hqo). cbn [system_of sys_client]. rewrite Hq. by left.
    + destruct Hcase as [(Hio & _)|(Hio & _)]; cbn [ep_server]; rewrite Hio; [|done]. rewrite omap_app. cbn. by rewrite app_nil_r.
  - destruct (end_request_sends (mkIncomingRequest ch id payload (Some (handle (ep_server e)))) (handle (ep_server e)) ending eq_refl)
      as (h2 & He2 & Hqe & _). rewrite He in He2. injection He2 as <- _.
    eapply serves_ending; [exact Hs|exact Hh|done|done|]. cbn [ep_server]. unfold io_queue. cbn [set_handle handle]. rewrite Hqe.
    destruct (closed (sender (handle (ep_server e)))); [left; by rewrite app_nil_r|right]. rewrite omap_app.
    cbn [omap list_omap]. by rewrite ending_answer.
Qed.

(** ** The core of an endpoint *)

Lemma handle_event_core server store event request server' store' :
  handle_event server store event = Done (request, (server', store')) → core server' = core server.
Proof.
  assert (∀ io v x, (t ← resolve server store io v; mret (x, t)) = Done (request, (server', store')) → core server' = core server) as Hres.
  { intros io v x Hd. unfold resolve in Hd. destruct (pending _ !! io); [|by injection Hd as _ <- _].
    apply bind_Done_inv in Hd as ([sv st] & Hd & Hx). injection Hx as _ <- _. apply bind_Done_inv in Hd as (st' & _ & Hx).
    by injection Hx as <- _. }
  destruct event; cbn [handle_event]; intros He; try (by injection He as _ <- _); by eapply Hres.
Qed.
Lemma core_turn_core (e e' : Endpoint) op c' : core_turn e op c' e' → core (ep_server e') = c'.
Proof.
  intros [e0 item rest r c queue' _ _ _|e0 c event request server' store' queue' _ _ He|e0 op0 c queue' _ _ _ _]; try done.
  by apply handle_event_core in He.
Qed.
Lemma local_step_core (e e' : Endpoint) : rpc_inv (system_of e) → local_step e e' → core (ep_server e') = core (ep_server e).
Proof.
  intros Hi Hstep. pose proof (ri_server _ Hi _ eq_refl) as (Hok & Hsort & Hqo & _).
  destruct Hstep as [| | | |e now x server' store' Hp|e request rest server' store' queue' Hq Hq' Hc Ht|]; try done.
  - by destruct (timeouts_effect _ _ _ _ _ _ Hsort Hok Hp) as (Hcore & _).
  - destruct (take_effect (ep_server e) (ep_store e) request server' store') as (Hcore & _); [|done|done].
    apply (qo_unanswered _ _ _ Hqo). cbn [system_of sys_client]. rewrite Hq. by left.
Qed.
(** The calls it serves are none of its own. *)
Lemma asks_serving (e : Endpoint) log op : asks e log → asks e (log ++ serving op).
Proof.
  intros Ha. assert (calls_in (serving op) = [] ∧ ∀ io an, CeReturn io an ∉ serving op) as [Hc Hr].
  { destruct op as [r| | | | |item r|]; cbn [serving]; try (split; [done|intros; apply not_elem_of_nil]).
    - destruct r as [[|[[]|]]|]; split; try done; intros; rewrite ?list_elem_of_singleton; try done; apply not_elem_of_nil.
    - destruct item; split; try done; intros; rewrite ?list_elem_of_singleton; try done; apply not_elem_of_nil. }
  keep_asks e log.
  - apply Ha.
  - unfold calls_taken. by rewrite calls_in_app, Hc, app_nil_r.
  - intros io g Hio. split; [done|]. intros an [Hin|Hin]%elem_of_app; [done|]. by destruct (Hr io an).
  - intros. by left.
  - intros. apply elem_of_app. by left.
Qed.

(** ** Nothing is dropped while the queue is open *)

Definition listens (e : Endpoint) : Prop := closed (sender (handle (ep_server e))) = false.
(** Every call it was told of is with the application, or its answer is in the queue. *)
Definition hears (e : Endpoint) (s : gmap IoId Stage) : Prop :=
  ∀ io ch id, s !! io = Some (Told ch id) → (ch, id) ∈ held_keys e.

Lemma local_step_listens (e e' : Endpoint) : rpc_inv (system_of e) → local_step e e' → listens e → listens e'.
Proof.
  intros Hi Hstep Hl. pose proof (ri_server _ Hi _ eq_refl) as (Hok & Hsort & Hqo & _). unfold listens in *.
  destruct Hstep as [| | | |e now x server' store' Hp|e request rest server' store' queue' Hq Hq' Hc Ht|e held1 ch id payload held2 ending h' r' Hh He]; try done.
  - destruct (process_timeouts_spec instant_max (ep_server e) (ep_store e) now Hsort Hok)
      as (deadline & gone & sv & st & [Hd|[Hd _]] & _ & _ & _ & Hop & _); rewrite Hp in Hd; [|done]. injection Hd as -> <- <-. by apply Hop.
  - unfold take_new_request, enqueue_request in Ht.
    destruct (send_open (sender (handle (ep_server e))) (request_item request) Hl) as (H1' & _ & H3'). unfold request_item in *.
    destruct (send _ _) as [sent q]. cbn [fst snd] in *. subst sent. injection Ht as <- _. by destruct (expires request).
  - destruct (end_request_sends (mkIncomingRequest ch id payload (Some (handle (ep_server e)))) (handle (ep_server e)) ending eq_refl)
      as (h2 & He2 & _ & Hcl). rewrite He in He2. injection He2 as <- _. cbn [ep_server set_handle handle]. by rewrite Hcl.
Qed.
Lemma core_turn_listens (e e' : Endpoint) op c' : core_turn e op c' e' → receiver_closed c' = false → listens e'.
Proof.
  unfold listens. intros [e0 item rest r c queue' _ _ Hc|e0 c event request server' store' queue' _ Hc He|e0 op0 c queue' _ Hc _ _] Hr;
    cbn [ep_server with_queue set_handle handle sender]; try congruence.
  apply handle_event_handle in He as [-> _]. cbn. congruence.
Qed.

Lemma local_step_hears (e e' : Endpoint) s : rpc_inv (system_of e) → local_step e e' → listens e → hears e s → hears e' s.
Proof.
  intros Hi Hstep Hl Hs io ch0 id0 Hio. apply Hs in Hio. pose proof (ri_server _ Hi _ eq_refl) as (Hok & Hsort & Hqo & _). unfold held_keys in *.
  destruct Hstep as [| | | |e now x server' store' Hp|e request rest server' store' queue' Hq Hq' Hc Ht|e held1 ch id payload held2 ending h' r' Hh He]; try done.
  - destruct (timeouts_effect _ _ _ _ _ _ Hsort Hok Hp) as (_ & Hadd & _). apply adds_requests in Hadd as [_ Hadd].
    cbn [ep_held ep_server]. by rewrite Hadd.
  - destruct (take_effect (ep_server e) (ep_store e) request server' store') as (_ & _ & Hcase); [|done|].
    + apply (qo_unanswered _ _ _ Hqo). cbn [system_of sys_client]. rewrite Hq. by left.
    + cbn [ep_held ep_server]. destruct Hcase as [(-> & _)|(-> & _)]; [|done]. rewrite omap_app. cbn. by rewrite app_nil_r.
  - destruct (end_request_sends (mkIncomingRequest ch id payload (Some (handle (ep_server e)))) (handle (ep_server e)) ending eq_refl)
      as (h2 & He2 & Hqe & _). rewrite He in He2. injection He2 as <- _. unfold listens in Hl. rewrite Hl in Hqe.
    cbn [ep_held ep_server]. unfold io_queue at 1. cbn [set_handle handle]. rewrite Hqe, omap_app. cbn [omap list_omap].
    rewrite ending_answer. cbn [ir_channel ir_id]. rewrite Hh in Hio. unfold io_queue in Hio. revert Hio.
    rewrite !fmap_app, !elem_of_app. cbn [fmap list_fmap fst]. rewrite !elem_of_cons, !elem_of_nil. tauto.
Qed.
Lemma own_run_hears (e : Endpoint) s new s' : call_run s new s' → Forall own_event new → hears e s → hears e s'.
Proof.
  induction 1 as [s|s ev s1 new s' Hstep _ IH]; intros Hown Hs; [done|]. apply Forall_cons in Hown as [He Hown]. apply IH; [done|].
  intros io ch id Hio. apply (Hs io). inversion Hstep as [? io0|? io0|? io0|? io0|? io0]; subst; try done;
    (destruct (decide (io = io0)) as [->|Hne]; [by rewrite lookup_insert_eq in Hio|by rewrite lookup_insert_ne in Hio]).
Qed.
Lemma core_turn_hears (e e' : Endpoint) op c' s s' log : call_run ∅ log s → core_turn e op c' e' → call_run s (serving op) s' →
  hears e s → hears e' s'.
Proof.
  intros Hlog Hstep Hrun Hs. pose proof (call_run_keyed _ _ Hlog) as Hkeyed.
  destruct Hstep as [e item rest r c' queue' Hq Hq' Hc|e c' event request server' store' queue' Hq Hc He|e op c' queue' Hq Hc Hno Hev].
  - assert (omap answer_given (io_queue (ep_server e)) = option_list (answer_given item) ++ omap answer_given (queued queue')) as Hans.
    { rewrite Hq, Hq'. cbn [omap list_omap]. by destruct (answer_given item). }
    unfold hears, held_keys in *. cbn [ep_held ep_server]. rewrite Hans in Hs. intros io ch id Hio.
    destruct (answer_given item) as [[[ch0 id0] an]|] eqn:Hg.
    + assert (serving (OpItem (IoError := IoError) item r) = [CeAnswer ch0 id0 an]) as Hsv by (destruct item; try done; by injection Hg as <- <- <-).
      rewrite Hsv in Hrun. apply call_run_single in Hrun. inversion Hrun as [| | |? io0 ? ? ? Hn|]; subst.
      destruct (decide (io = io0)) as [->|Hne]; [by rewrite lookup_insert_eq in Hio|]. rewrite lookup_insert_ne in Hio by done.
      specialize (Hs _ _ _ Hio). change (option_list (Some (ch0, id0, an))) with [(ch0, id0, an)] in Hs.
      rewrite fmap_app, !elem_of_app in Hs. change ([(ch0, id0, an)].*1) with [(ch0, id0)] in Hs.
      rewrite list_elem_of_singleton in Hs.
      destruct Hs as [Hs|[[= -> ->]|Hs]]; [by apply elem_of_app; left| |by apply elem_of_app; right].
      destruct Hne. by eapply (Hkeyed _ _ _ _ (ch0, id0)).
    + assert (serving (OpItem (IoError := IoError) item r) = []) as Hsv by by destruct item.
      rewrite Hsv in Hrun. inversion Hrun; subst. by eapply Hs.
  - destruct (handle_event_handle _ _ _ _ _ _ He) as [Hh ->]. unfold hears, held_keys in *. cbn [ep_held ep_server]. unfold io_queue at 1.
    rewrite Hh. cbn [with_queue set_handle handle sender]. rewrite Hq. intros io ch id Hio. rewrite fmap_app, <- app_assoc, !elem_of_app.
    destruct event as [ch0 id0 payload| | |]; cbn [serving] in Hrun;
      [apply call_run_single in Hrun|inversion Hrun; subst; specialize (Hs _ _ _ Hio); rewrite elem_of_app in Hs; tauto..].
    inversion Hrun as [| |? io0 ? ? ? Hn| |]; subst. destruct (decide (io = io0)) as [->|Hne].
    + rewrite lookup_insert_eq in Hio. injection Hio as <- <-. right; left. by left.
    + rewrite lookup_insert_ne in Hio by done. specialize (Hs _ _ _ Hio). rewrite elem_of_app in Hs. tauto.
  - rewrite (quiet_serving op) in Hrun by done. inversion Hrun; subst. unfold hears, held_keys in *. cbn [ep_held ep_server].
    unfold io_queue at 1. cbn [with_queue set_handle handle sender]. by rewrite Hq.
Qed.

(** A call is the request that was made under its id. *)
Lemma call_made (e : Endpoint) log io ch payload r : asks e log → CeCall io ch payload ∈ log → r ∈ made e →
  rt_io_id (ticket r) = io → rt_channel (ticket r) = ch ∧ no_payload r = payload.
Proof.
  intros [_ (taken & K2 & K2') [K3 _] _ _ _ _] Hin Hr Hio.
  assert ((io, (ch, payload)) ∈ map call_of taken) as Ht.
  { eapply elem_of_sublist; [|exact K2']. apply elem_of_app. left. by apply calls_in_elem. }
  apply list_elem_of_fmap in Ht as (r' & Hr' & Hin'). injection Hr' as Hio' Hch Hpl.
  assert (r' = r) as ->; [|done]. eapply (NoDup_map_inj (λ r, rt_io_id (ticket r))); [exact K3| |done|congruence].
  rewrite K2, elem_of_app. by left.
Qed.

(** ** The start *)

Definition initial_end (b : RpcBuilder) (queue : Snd) (requests : RSnd) : Endpoint :=
  let '(client, server) := RpcBuilder_build b queue requests in mkEndpoint client server (mkGuardStore ∅ 0%nat) ∅ [] [] [].
Lemma initial_asks b (queue : Snd) (requests : RSnd) : queued queue = [] → queued requests = [] → asks (initial_end b queue requests) [].
Proof.
  intros Hq Hr. pose proof (rpc_init_inv b queue requests Hr) as Hi. constructor; cbn; try done; try set_solver.
  - exists []. unfold in_queue, io_queue. cbn. rewrite Hr, Hq. done.
  - split; [constructor|apply Forall_nil_2].
  - split; [constructor|apply Forall_nil_2].
Qed.
Lemma initial_serves b (queue : Snd) (requests : RSnd) : queued queue = [] → serves (initial_end b queue requests) ∅ [].
Proof.
  intros Hq. constructor; unfold held_keys, io_queue; cbn; rewrite ?Hq; cbn; try (by intros; set_solver).
  constructor.
Qed.
End endpoint.
