(* ===== verification/Fizzbuzz.v ===== *)
(** * The example program

    [examples/fizzbuzz.rs]: a server that answers every number it is sent with its line of the
    fizz buzz game, and a client that asks for them in turn.  The sockets, the tasks and the
    time a request takes are left to the runtime. *)
From stdpp Require Import strings.
From S2P Require Import Prelude Lib Varint Header FrameSize OutgoingMessage Multiframe Protocol ProtocolInv Io Rpc Display.
From S2P Require Import Instances RpcSpec Delivery Peers Link RpcSystem Endpoint.
From stdpp Require Import options.

(** ** What it uses of the standard library *)

Definition u32_to_be_bytes (x : Z) : bytes := map (λ k, (x / 256 ^ k) mod 256) [3; 2; 1; 0].
Definition u32_from_be_bytes (bs : bytes) : Z := fold_left (λ x b, 256 * x + b) bs 0.
(** [<[u8; 4]>::try_from] *)
Definition array_try_from (n : Z) (bs : bytes) : option bytes := if len bs =? n then Some bs else None.
Definition expect {A} (o : option A) : exec A := match o with Some x => mret x | None => Panicked end.

(** The bytes of a text. *)
Definition string_bytes (s : string) : bytes := map (λ a, Z.of_nat (Ascii.nat_of_ascii a)) (String.list_ascii_of_string s).

(** [String::from_utf8] checks that the bytes are well-formed UTF-8. *)
Definition between (lo hi b : Z) : bool := (lo <=? b) && (b <=? hi).
Definition continues (b : Z) : bool := between 128 191 b.
Fixpoint utf8_valid (bs : bytes) : bool :=
  match bs with
  | [] => true
  | b0 :: r0 =>
      if b0 <? 128 then utf8_valid r0
      else match r0 with
      | [] => false
      | b1 :: r1 =>
          if between 194 223 b0 then continues b1 && utf8_valid r1
          else match r1 with
          | [] => false
          | b2 :: r2 =>
              if between 224 239 b0 then
                (if b0 =? 224 then between 160 191 b1 else if b0 =? 237 then between 128 159 b1 else continues b1) &&
                continues b2 && utf8_valid r2
              else match r2 with
              | [] => false
              | b3 :: r3 =>
                  between 240 244 b0 &&
                  (if b0 =? 240 then between 144 191 b1 else if b0 =? 244 then between 128 143 b1 else continues b1) &&
                  continues b2 && continues b3 && utf8_valid r3
              end
          end
      end
  end.
Definition string_from_utf8 (bs : bytes) : option bytes := if utf8_valid bs then Some bs else None.

(** ** The configuration *)

Definition protocol_builder : ProtocolBuilder :=
  with_default_channel_config 2
    (with_max_response_payload_size (with_max_request_payload_size (with_request_limit ChannelConfiguration_default 3) 4) 512).
Definition io_builder : exec IoCoreBuilder :=
  b ← buffer_size (IoCoreBuilder_new protocol_builder) (ChannelId_new 0) 2;
  buffer_size b (ChannelId_new 1) 2.
Definition rpc_builder : exec RpcBuilder := b ← io_builder; mret (RpcBuilder_new b).

(** ** The server *)

(** The response to [num]. *)
Definition response_payload (num : Z) : bytes :=
  let response_payload := [] in
  let response_payload := if num mod 3 =? 0 then response_payload ++ string_bytes "Fizz " else response_payload in
  let response_payload := if num mod 5 =? 0 then response_payload ++ string_bytes "Buzz " else response_payload in
  if len response_payload =? 0 then response_payload ++ string_bytes (show num) else response_payload.

Section server.
Context {Permit Snd : Type} `{Sender Snd (QueuedItem Permit)}.

Definition handle_request (incoming_request : IncomingRequest Snd) : exec (option (Handle Snd) * IncomingRequest Snd) :=
  payload ← expect (IncomingRequest_payload incoming_request);
  num ← expect (array_try_from 4 payload);
  IncomingRequest_respond incoming_request (Some (response_payload (u32_from_be_bytes num))).

(** The task: a panic ends it, and drops the request. *)
Definition request_task (incoming_request : IncomingRequest Snd) : exec (option (Handle Snd) * IncomingRequest Snd) :=
  match handle_request incoming_request with
  | Panicked => IncomingRequest_drop incoming_request
  | r => r
  end.

(** A connection: every call of [next_request] with its turns.  Gives the requests that tasks
    were spawned for, and whether the loop was left. *)
Context {IoError BM C N : Type} `{BiMap IoId (ChannelId * Id) BM} `{OnceCell C Response} `{Notify N} (instant_max : Z).
Fixpoint handle_client (calls : list (list (RpcTurn Permit IoError))) (server : JulietRpcServer Permit BM Snd)
    (store : GuardStore C N) : exec (list (IncomingRequest Snd) * bool * (JulietRpcServer Permit BM Snd * GuardStore C N)) :=
  match calls with
  | [] => mret ([], false, (server, store))
  | turns :: calls =>
      '(r, (server, store)) ← next_request instant_max turns server store;
      match r with
      | None => mret ([], false, (server, store))
      | Some (Ok (Some incoming_request)) =>
          '(spawned, ended, s) ← handle_client calls server store;
          mret (incoming_request :: spawned, ended, s)
      | Some (Ok None) | Some (Err _) => mret ([], true, (server, store))
      end
  end.
End server.

(** ** The client *)

(** What the client prints; [None] ends its loop. *)
Definition print_answer (response : Response) : exec (option bytes) :=
  match response with
  | Ok response => payload ← expect response; decoded ← expect (string_from_utf8 payload); mret (Some decoded)
  | Err _ => mret None
  end.

(** Where its loop is: before [queue_for_sending], before [wait_for_response], or left. *)
Inductive ClientAt := Asking (num : Z) | Awaiting (num : Z) (request_guard : RequestGuard) | Stopped.

Section client.
Context {Permit S Snd RSnd C N : Type} `{Semaphore S Permit} `{Sender Snd (QueuedItem Permit)}.
Context `{Sender RSnd (NewOutgoingRequest Permit)} `{OnceCell C Response} `{Notify N} (instant_max : Z).

Definition ask (num now : Z) (client : JulietRpcClient S Snd RSnd) (store : GuardStore C N)
    : exec (option RequestGuard * (JulietRpcClient S Snd RSnd * GuardStore C N)) :=
  queue_for_sending instant_max
    (with_payload (Client_create_request client (ChannelId_new 0)) (u32_to_be_bytes num)) now client store.

(** The loop up to where it waits or has printed a line, with the client and the guards as the
    other tasks have left them. *)
Definition client_turn (at_ : ClientAt) (now : Z) (client : JulietRpcClient S Snd RSnd) (store : GuardStore C N)
    : exec (list (Z * bytes) * ClientAt * (JulietRpcClient S Snd RSnd * GuardStore C N)) :=
  match at_ with
  | Asking num =>
      if num <? u32_max then
        '(request_guard, s) ← ask num now client store;
        mret ([], match request_guard with Some g => Awaiting num g | None => Asking num end, s)
      else mret ([], Stopped, (client, store))
  | Awaiting num request_guard =>
      '(response, store) ← wait_for_response store request_guard;
      match response with
      | None => mret ([], Awaiting num request_guard, (client, store))
      | Some response =>
          decoded ← print_answer response;
          match decoded with
          | Some decoded => mret ([(num, decoded)], Asking (num + 1), (client, store))
          | None => mret ([], Stopped, (client, store))
          end
      end
  | Stopped => mret ([], Stopped, (client, store))
  end.
End client.

(** ** Lemmas *)

Lemma u32_be_bytes_roundtrip x : u32 x → u32_from_be_bytes (u32_to_be_bytes x) = x.
Proof.
  intros Hx. unfold u32_from_be_bytes, u32_to_be_bytes. cbn [map fold_left].
  change (256 ^ 3) with 16777216. change (256 ^ 2) with 65536. change (256 ^ 1) with 256. change (256 ^ 0) with 1.
  unfold u32, u32_max in Hx. Z.to_euclidean_division_equations. lia.
Qed.
Lemma u32_to_be_bytes_ok x : Forall u8 (u32_to_be_bytes x) ∧ len (u32_to_be_bytes x) = 4.
Proof.
  split; [|done]. apply Forall_map, Forall_forall. intros k _. unfold u8, u8_max. pose proof (Z.mod_pos_bound (x / 256 ^ k) 256). lia.
Qed.

Lemma u32_from_be_bytes_ok bs : Forall u8 bs → len bs = 4 → u32 (u32_from_be_bytes bs).
Proof.
  intros Hb Hl. destruct bs as [|b0 [|b1 [|b2 [|b3 [|]]]]]; try (unfold len in Hl; cbn in Hl; lia).
  rewrite !Forall_cons in Hb. destruct Hb as (H0 & H1 & H2 & H3 & _). unfold u32_from_be_bytes. cbn [fold_left].
  unfold u8, u8_max, u32, u32_max in *. lia.
Qed.

Definition ascii (b : Z) : Prop := 0 ≤ b < 128.
Lemma ascii_utf8 bs : Forall ascii bs → utf8_valid bs = true.
Proof. induction 1 as [|b bs [_ Hb] _ IH]; [done|]. cbn [utf8_valid]. by rewrite (proj2 (Z.ltb_lt _ _)). Qed.
Lemma string_bytes_cons a s : string_bytes (String a s) = Z.of_nat (Ascii.nat_of_ascii a) :: string_bytes s.
Proof. done. Qed.
Lemma digits_ascii s : chars_all digit s = true → Forall ascii (string_bytes s).
Proof.
  induction s as [|a s IH]; intros Hs; [constructor|]. cbn in Hs. apply andb_prop in Hs as [Ha Hs]. rewrite string_bytes_cons.
  constructor; [|by apply IH]. unfold digit in Ha. apply andb_prop in Ha as [H1%Nat.leb_le H2%Nat.leb_le]. unfold ascii. lia.
Qed.
Lemma string_bytes_len s : len (string_bytes s) = Z.of_nat (String.length s).
Proof. induction s as [|a s IH]; [done|]. rewrite string_bytes_cons, len_cons, IH. cbn [String.length]. lia. Qed.

(** The line of the game. *)
Definition fizzbuzz (num : Z) : string :=
  if num mod 15 =? 0 then "Fizz Buzz " else if num mod 3 =? 0 then "Fizz " else if num mod 5 =? 0 then "Buzz " else show num.
Lemma response_payload_fizzbuzz num : 0 ≤ num → response_payload num = string_bytes (fizzbuzz num).
Proof.
  intros Hn. unfold response_payload, fizzbuzz. destruct (Z.eqb_spec (num mod 15) 0) as [H15|H15].
  - assert (num mod 3 = 0 ∧ num mod 5 = 0) as [-> ->]; [|done]. Z.to_euclidean_division_equations. lia.
  - destruct (Z.eqb_spec (num mod 3) 0) as [H3|H3], (Z.eqb_spec (num mod 5) 0) as [H5|H5]; try done.
    exfalso. Z.to_euclidean_division_equations. lia.
Qed.
Lemma response_payload_ok num : u32 num → Forall ascii (response_payload num) ∧ len (response_payload num) ≤ 10.
Proof.
  intros [H0 Hn]. rewrite response_payload_fizzbuzz by done. unfold fizzbuzz.
  repeat (case_match; [split; [repeat constructor|]; vm_compute; discriminate|]). split; [by apply digits_ascii, show_digits|].
  rewrite string_bytes_len. assert (String.length (show num) ≤ 10)%nat; [|lia].
  apply show_length; [unfold u32_max in Hn; lia|lia].
Qed.

(** ** The loop of the client *)

Section client_loop.
Context {Permit S Snd RSnd C N : Type} `{Semaphore S Permit} `{Sender Snd (QueuedItem Permit)}.
Context `{Sender RSnd (NewOutgoingRequest Permit)} `{OnceCell C Response} `{Notify N} (instant_max : Z).
#[local] Set Default Proof Using "Type*".

(** The turns of the loop, with anything the other tasks do between them; a response to the
    request for a number is its line. *)
Inductive client_plays : ClientAt → list (Z * bytes) → ClientAt → Prop :=
  | plays_none at_ : client_plays at_ [] at_
  | plays_turn at0 out at_ now (client : JulietRpcClient S Snd RSnd) (store : GuardStore C N) printed at_' s : client_plays at0 out at_ →
      client_turn (Permit := Permit) instant_max at_ now client store = Done (printed, at_', s) →
      (∀ num g response store', at_ = Awaiting num g → wait_for_response store g = Done (Some (Ok response), store') →
         response = Some (string_bytes (fizzbuzz num))) →
      client_plays at0 (out ++ printed) at_'.

Lemma print_answer_line num : u32 num → print_answer (Ok (Some (string_bytes (fizzbuzz num)))) = Done (Some (string_bytes (fizzbuzz num))).
Proof.
  intros Hn. cbn. unfold string_from_utf8. rewrite <- response_payload_fizzbuzz by apply Hn.
  by rewrite ascii_utf8 by by apply response_payload_ok.
Qed.
(** It prints the game, line by line, up to the last number. *)
Lemma client_prints out at_ : client_plays (Asking 0) out at_ →
  ∃ k, 0 ≤ k ≤ u32_max ∧ out = map (λ num, (num, string_bytes (fizzbuzz num))) (seqZ 0 k) ∧
    match at_ with Asking num => num = k | Awaiting num _ => num = k ∧ k < u32_max | Stopped => True end.
Proof.
  intros Hp. remember (Asking 0) as at0 eqn:Hat0. induction Hp as [|at0 out at_ now client store printed at_' s Hp IH Hd Hright].
  { subst. exists 0. split; [unfold u32_max; lia|done]. }
  destruct (IH Hat0) as (k & Hk & -> & Hat). clear IH. destruct at_ as [num|num g|]; cbn [client_turn] in Hd.
  - subst num. destruct (Z.ltb_spec k u32_max); inv_exec; simplify_eq; [destruct a as [rg s']; inv_exec; simplify_eq|];
      exists k; rewrite app_nil_r; (split; [done|]); (split; [done|]); [by destruct rg|done].
  - destruct Hat as [-> Hlt]. inv_exec. destruct a as [[response|] store']; inv_exec; simplify_eq.
    2: { exists k. by rewrite app_nil_r. }
    destruct response as [e|response].
    { cbn [print_answer] in E0. inv_exec; simplify_eq. inv_exec; simplify_eq. exists k. by rewrite app_nil_r. }
    specialize (Hright k g response store' eq_refl E). subst response.
    rewrite print_answer_line in E0 by (unfold u32; lia). injection E0 as <-.
    inv_exec; simplify_eq. exists (k + 1). split; [lia|]. split; [|done]. rewrite seqZ_app by lia. by rewrite map_app.
  - inv_exec; simplify_eq. exists k. by rewrite app_nil_r.
Qed.
End client_loop.

(** ** The server's task *)

(** The item the task queues, whatever the payload is. *)
Definition task_queues {Permit Snd} `{SenderLaws Snd (QueuedItem Permit)} (r : IncomingRequest Snd) (h : Handle Snd) (item : QueuedItem Permit) : Prop :=
  ∃ h' r', request_task r = Done (Some h', r') ∧ ir_handle r' = None ∧
    queued (sender h') = queued (sender h) ++ (if closed (sender h) then [] else [item]).

Lemma task_answers {Permit Snd} `{SenderLaws Snd (QueuedItem Permit)} (r : IncomingRequest Snd) (h : Handle Snd) payload :
  ir_handle r = Some h → ir_payload r = Some payload → len payload = 4 →
  task_queues (Permit := Permit) r h (QResponse (ir_channel r) (ir_id r) (Some (response_payload (u32_from_be_bytes payload)))).
Proof.
  intros Hh Hp Hl. unfold task_queues, request_task, handle_request, IncomingRequest_payload, array_try_from. rewrite Hp. cbn [expect].
  rewrite bind_Done, (proj2 (Z.eqb_eq _ _) Hl). cbn [expect]. rewrite bind_Done.
  destruct (end_request_sends r h (EndRespond (Some (response_payload (u32_from_be_bytes payload)))) Hh) as (h' & Hr & Hq & _).
  cbn [end_request] in Hr. rewrite Hr. exists h'. eexists. split; [reflexivity|]. split; [done|exact Hq].
Qed.
Lemma task_panics {Permit Snd} `{SenderLaws Snd (QueuedItem Permit)} (r : IncomingRequest Snd) (h : Handle Snd) :
  ir_handle r = Some h → (∀ payload, ir_payload r = Some payload → len payload ≠ 4) →
  handle_request (Permit := Permit) r = Panicked ∧ task_queues (Permit := Permit) r h (QResponseCancellation (ir_channel r) (ir_id r)).
Proof.
  intros Hh Hno. assert (handle_request (Permit := Permit) r = Panicked) as Hpanic.
  { unfold handle_request, IncomingRequest_payload, array_try_from. destruct (ir_payload r) as [payload|] eqn:Hp; [|done].
    cbn [expect]. rewrite bind_Done. by rewrite (proj2 (Z.eqb_neq _ _) (Hno payload eq_refl)). }
  split; [done|]. unfold task_queues, request_task. rewrite Hpanic.
  destruct (end_request_sends r h EndDrop Hh) as (h' & Hr & Hq & _). cbn [end_request] in Hr. rewrite Hr.
  exists h'. eexists. split; [reflexivity|]. split; [done|exact Hq].
Qed.

(** ** The request of a round *)

(** With a ticket for the first channel, [ask] queues a request that carries it and the number. *)
Lemma ask_queues {Permit S Snd RSnd C N} `{Semaphore S Permit} `{Sender Snd (QueuedItem Permit)}
    `{SenderLaws RSnd (NewOutgoingRequest Permit)} `{OnceCell C Response} `{Notify N} (instant_max : Z)
    num now (client : JulietRpcClient S Snd RSnd) (store : GuardStore C N) t h :
  default_timeout client = None → closed (new_request_sender client) = false →
  reserve_request (request_handle client) (ChannelId_new 0) = Done (Some (Some t), h) →
  ∃ g client' store', ask (Permit := Permit) instant_max num now client store = Done (Some (mkRequestGuard g), (client', store')) ∧
    in_queue client' = in_queue client ++ [mkNewOutgoingRequest t g (Some (u32_to_be_bytes num)) None].
Proof.
  intros Hto Hopen Hr. unfold ask, queue_for_sending. cbn [with_payload Client_create_request rq_channel]. rewrite Hr, bind_Done.
  unfold do_enqueue_request. cbn [with_payload Client_create_request rq_timeout rq_payload]. rewrite Hto.
  set (request := mkNewOutgoingRequest t (next_guard store) (Some (u32_to_be_bytes num)) None).
  destruct (send_open (new_request_sender client) request Hopen) as (Hs & Hq & _).
  cbn [alloc_guard set_request_handle new_request_sender]. fold request.
  destruct (send (new_request_sender client) request) as [sent snd]. cbn in Hs. subst sent. do 3 eexists. split; [done|exact Hq].
Qed.
Lemma ticket_channel {Permit S Snd} `{Semaphore S Permit} (h h' : RequestHandle S Snd) ch (t : RequestTicket Permit) :
  reserve_request h ch = Done (Some (Some t), h') → rt_channel t = ch.
Proof.
  unfold reserve_request. intros Hr. inv_exec. destruct (acquire_owned a) as [acquired sem]. inv_exec.
  destruct acquired as [[|permit]|]; [done| |done]. destruct (fetch_add _). by injection Hr as <- <-.
Qed.

(** What the task queues fits the limits of the channel, whatever the payload is. *)
Lemma task_answers_fit {Permit Snd} `{SenderLaws Snd (QueuedItem Permit)} (r : IncomingRequest Snd) (h : Handle Snd) :
  let p := ProtocolBuilder_build protocol_builder in
  ir_handle r = Some h → ChannelId_wf (ir_channel r) → is_Some (chan_at p (ir_channel r)) → payload_bytes (ir_payload r) →
  ∃ item : QueuedItem Permit, task_queues r h item ∧ item_fits p item ∧
    (∀ payload, ir_payload r = Some payload → len payload = 4 →
       item = QResponse (ir_channel r) (ir_id r) (Some (string_bytes (fizzbuzz (u32_from_be_bytes payload))))) ∧
    ((∀ payload, ir_payload r = Some payload → len payload ≠ 4) →
       handle_request (Permit := Permit) r = Panicked ∧ item = QResponseCancellation (ir_channel r) (ir_id r)).
Proof.
  intros p Hh Hch [c Hc] Hpl.
  assert ((∃ payload, ir_payload r = Some payload ∧ len payload = 4) ∨ ∀ payload, ir_payload r = Some payload → len payload ≠ 4) as [(payload & Hp & Hl)|Hno].
  { destruct (ir_payload r) as [payload|]; [|by right]. destruct (Z.eq_dec (len payload) 4); [left; by exists payload|right; congruence]. }
  - exists (QResponse (ir_channel r) (ir_id r) (Some (response_payload (u32_from_be_bytes payload)))).
    split; [by apply task_answers|]. rewrite Hp in *. change (Forall u8 payload) in Hpl. pose proof (u32_from_be_bytes_ok _ Hpl Hl) as Hu.
    split; [|split].
    + split; [done|]. exists c. split; [done|].
      assert (max_response_payload_size (config c) = 512) as ->.
      { assert (Forall (λ c, max_response_payload_size (config c) = 512) (channels p)) as Hall by by repeat constructor.
        exact (Forall_lookup_1 _ _ _ _ Hall Hc). }
      destruct (response_payload_ok _ Hu) as [Ha Hlen]. split; [|lia].
      eapply Forall_impl; [exact Ha|]. intros x Hx. unfold ascii, u8, u8_max in *. lia.
    + intros ? [= <-] _. by rewrite response_payload_fizzbuzz by apply Hu.
    + intros Hno. by destruct (Hno payload eq_refl).
  - destruct (task_panics (Permit := Permit) r h Hh) as [Hpanic Hq]; [done|].
    exists (QResponseCancellation (ir_channel r) (ir_id r)). split; [done|]. split; [split; [done|by exists c]|].
    split; [|done]. intros payload Hp Hl. by destruct (Hno _ Hp).
Qed.

(** C39: the example plays the game.  Its configuration is one the theorems on cores apply to, and
    setting it up does not panic.  In the round for a number, once the client - which has no default
    timeout - has room in the buffer of channel 0 and its server runs, it queues one request, on channel 0, which fits the
    limit for requests; and when a request with that channel and that payload arrives at the
    server, the task for it queues one answer, on channel 0, with the number's line of the game.
    Whatever request the peer sends on a channel that exists, its task queues one answer,
    which fits the limit for responses: the line of the number in its payload, or,
    if there is no payload of four bytes, the cancellation that dropping the request sends,
    as the task panics.  Given the line of each number as the response to its request, the client
    prints the game, line by line from zero, and never past the last number but one of 32 bits. *)
Theorem fizzbuzz_served {Permit S Snd RSnd C N} `{Semaphore S Permit} `{SenderLaws Snd (QueuedItem Permit)}
    `{SenderLaws RSnd (NewOutgoingRequest Permit)} `{OnceCell C Response} `{Notify N} (instant_max : Z)
    (num now : Z) (client : JulietRpcClient S Snd RSnd) (store : GuardStore C N) t handle
    (r : IncomingRequest Snd) (h : Handle Snd) (out : list (Z * bytes)) (at_ : ClientAt) :
  let p := ProtocolBuilder_build protocol_builder in let line num := string_bytes (fizzbuzz num) in
  u32 num → default_timeout client = None → closed (new_request_sender client) = false →
  reserve_request (request_handle client) (ChannelId_new 0) = Done (Some (Some t), handle) →
  ir_handle r = Some h → ChannelId_wf (ir_channel r) → is_Some (chan_at p (ir_channel r)) → payload_bytes (ir_payload r) →
  client_plays (Permit := Permit) (S := S) (Snd := Snd) (RSnd := RSnd) (C := C) (N := N) instant_max (Asking 0) out at_ →
  Forall ChannelConfiguration_wf (pb_channel_config protocol_builder) ∧
  (∃ b, rpc_builder = Done b ∧ Io.protocol (rpc_core b) = protocol_builder ∧ b_buffer_size (rpc_core b) = [2; 2] ∧
     rb_default_timeout b = None) ∧
  (∃ request client' store',
     ask (Permit := Permit) instant_max num now client store = Done (Some (mkRequestGuard (guard request)), (client', store')) ∧
     in_queue client' = in_queue client ++ [request] ∧ item_fits p (request_item request) ∧
     (ir_channel r = rt_channel (ticket request) → ir_payload r = no_payload request →
      task_queues (Permit := Permit) r h (QResponse (ChannelId_new 0) (ir_id r) (Some (line num))))) ∧
  (∃ item : QueuedItem Permit, task_queues r h item ∧ item_fits p item ∧
     (∀ payload, ir_payload r = Some payload → len payload = 4 →
        item = QResponse (ir_channel r) (ir_id r) (Some (line (u32_from_be_bytes payload)))) ∧
     ((∀ payload, ir_payload r = Some payload → len payload ≠ 4) →
        handle_request (Permit := Permit) r = Panicked ∧ item = QResponseCancellation (ir_channel r) (ir_id r))) ∧
  ∃ k, 0 ≤ k ≤ u32_max ∧ out = map (λ num, (num, line num)) (seqZ 0 k).
Proof.
  intros p line Hnum Hto Hopen Hres Hh Hch Hc Hpl Hplay. destruct (u32_to_be_bytes_ok num) as [Hb Hl].
  destruct (task_answers_fit (Permit := Permit) r h Hh Hch Hc Hpl) as (item & Hq & Hf & Hline & Hno).
  split; [apply Forall_replicate; split; [|split]; split; vm_compute; discriminate|]. split; [by eexists|]. split; [|split].
  - destruct (ask_queues (Permit := Permit) instant_max num now client store t handle Hto Hopen Hres) as (g & client' & store' & Hask & Hin).
    pose proof (ticket_channel _ _ _ _ Hres) as Ht.
    exists (mkNewOutgoingRequest t g (Some (u32_to_be_bytes num)) None), client', store'. split; [done|]. split; [done|]. split.
    + unfold request_item. cbn [ticket no_payload]. rewrite Ht. split; [split; vm_compute; discriminate|].
      eexists. split; [reflexivity|]. by split; [|rewrite Hl].
    + cbn [ticket no_payload]. rewrite Ht. intros Hr Hp. rewrite <- Hr. rewrite (Hline _ Hp Hl) in Hq. by rewrite u32_be_bytes_roundtrip in Hq.
  - by exists item.
  - destruct (client_prints _ _ _ Hplay) as (k & Hk & Hout & _). by exists k.
Qed.
(** The first round of the client, between which its guard is given the line for zero. *)
Abbreviation SampleClient := (JulietRpcClient Z (ListQueue (QueuedItem ())) (ListQueue (NewOutgoingRequest ()))).
Definition client_of (b : RpcBuilder) : SampleClient :=
  (RpcBuilder_build (BM := list (IoId * (ChannelId * Id))) b (mkListQueue [] false) (mkListQueue [] false)).1.
Definition sample_client : SampleClient :=
  match rpc_builder with Done b => client_of b | _ => client_of (RpcBuilder_new (IoCoreBuilder_new protocol_builder)) end.
Definition answered_store : GuardStore (option Response) bool :=
  mkGuardStore {[0%nat := mkRequestGuardInner (Some (Ok (Some (string_bytes (fizzbuzz 0))))) (Some true)]} 1.
Definition shown {A} (turn : exec (list (Z * bytes) * ClientAt * A)) : option (list (Z * bytes) * ClientAt) :=
  match turn with Done (printed, at_, _) => Some (printed, at_) | _ => None end.
Lemma shown_Done {A} (turn : exec (list (Z * bytes) * ClientAt * A)) printed at_ : shown turn = Some (printed, at_) →
  ∃ s, turn = Done (printed, at_, s).
Proof. destruct turn as [[[? ?] s]| |]; [|done..]. cbn. intros [= -> ->]. by exists s. Qed.
Definition zero_line : bytes := string_bytes "Fizz Buzz ".
Lemma first_round_plays : client_plays (Permit := ()) (S := Z) (Snd := ListQueue (QueuedItem ()))
  (RSnd := ListQueue (NewOutgoingRequest ())) (C := option Response) (N := bool) 1000 (Asking 0) [(0, zero_line)] (Asking 1).
Proof.
  change [(0, zero_line)] with (([] ++ []) ++ [(0, zero_line)]).
  destruct (shown_Done (client_turn (Permit := ()) 1000 (Asking 0) 0 sample_client (mkGuardStore ∅ 0 : GuardStore (option Response) bool))
    [] (Awaiting 0 (mkRequestGuard 0))) as [s1 H1]; [vm_compute; reflexivity|].
  destruct (shown_Done (client_turn (Permit := ()) 1000 (Awaiting 0 (mkRequestGuard 0)) 0 sample_client answered_store)
    [(0, zero_line)] (Asking 1)) as [s2 H2]; [vm_compute; reflexivity|].
  eapply plays_turn; [eapply plays_turn; [apply plays_none|exact H1|done]|exact H2|].
  intros num g response store' [= <- <-] Hw.
  assert (match wait_for_response answered_store (mkRequestGuard 0) with
    | Done (Some (Ok response), _) => response = Some (string_bytes (fizzbuzz 0)) | _ => False end) as Hok by (vm_compute; reflexivity).
  by rewrite Hw in Hok.
Qed.
(** Fifteen is asked for and answered, and a request of three bytes is refused. *)
Lemma fizzbuzz_served_witness :
  let h := mkHandle (mkListQueue (Item := QueuedItem ()) [] false) in
  let request payload := mkIncomingRequest (ChannelId_new 0) (Id_new 9) payload (Some h) in
  (∃ asked client' store', ask (Permit := ()) 1000 15 0 sample_client answered_store
       = Done (Some (mkRequestGuard (guard asked)), (client', store')) ∧ in_queue client' = [asked]) ∧
  task_queues (Permit := ()) (request (Some [0; 0; 0; 15])) h (QResponse (ChannelId_new 0) (Id_new 9) (Some zero_line)) ∧
  task_queues (Permit := ()) (request (Some [0; 0; 15])) h (QResponseCancellation (ChannelId_new 0) (Id_new 9)).
Proof.
  intros h request. assert (u32 15) as H15 by (split; vm_compute; discriminate).
  assert (∃ t handle, reserve_request (Permit := ()) (request_handle sample_client) (ChannelId_new 0) = Done (Some (Some t), handle)) as (t & handle & Hres)
    by (do 2 eexists; vm_compute; reflexivity).
  assert (∀ payload, payload = [0; 0; 0; 15] ∨ payload = [0; 0; 15] → payload_bytes (Some payload)) as Hb.
  { intros payload [-> | ->]; repeat constructor; vm_compute; discriminate. }
  assert (closed (new_request_sender sample_client) = false) as Hopen by (vm_compute; reflexivity).
  assert (ChannelId_wf (ChannelId_new 0)) as Hch by (split; vm_compute; discriminate).
  assert (is_Some (chan_at (ProtocolBuilder_build protocol_builder) (ChannelId_new 0))) as Hc by by eexists.
  destruct (fizzbuzz_served 1000 15 0 sample_client answered_store t handle (request (Some [0; 0; 0; 15])) h _ _
    H15 eq_refl Hopen Hres eq_refl Hch Hc (Hb _ (or_introl eq_refl)) first_round_plays)
    as (_ & _ & (asked & client' & store' & Hask & Hin & _) & (item & Hq & _ & Hi & _) & _).
  destruct (fizzbuzz_served 1000 15 0 sample_client answered_store t handle (request (Some [0; 0; 15])) h _ _
    H15 eq_refl Hopen Hres eq_refl Hch Hc (Hb _ (or_intror eq_refl)) first_round_plays)
    as (_ & _ & _ & (item' & Hq' & _ & _ & Hi') & _).
  split; [by exists asked, client', store'|]. split.
  - by rewrite (Hi _ eq_refl eq_refl) in Hq.
  - destruct Hi' as [_ ->]; [|exact Hq']. intros payload [= <-]. vm_compute. discriminate.
Defined.
