(* ===== verification/RpcSafe.v ===== *)
(** * The RPC layer does not panic

    Whatever the callers do, whatever the core below reports and whenever a turn of the server's
    loop happens: every operation of a client and its server ends with a result. *)
From stdpp Require Import strings relations.
From S2P Require Import Prelude Lib Varint Header FrameSize OutgoingMessage Protocol ProtocolInv ProcessIncoming Io IoSafe CoreOps.
From S2P Require Import Calls Rpc Instances RpcSpec RpcSystem Endpoint.
From stdpp Require Import options.

(** A queue may be in any state. *)
Class SenderStates (Snd Item : Type) `{SenderLaws Snd Item} := {
  in_state : list Item → bool → Snd;
  in_state_queued l b : Io.queued (in_state l b) = l;
  in_state_closed l b : closed (in_state l b) = b;
}.
#[export] Instance list_sender_states Item : SenderStates (ListQueue Item) Item := {
  in_state := mkListQueue;
  in_state_queued _ _ := eq_refl;
  in_state_closed _ _ := eq_refl;
}.

Section safe.
Context {Permit IoError BM S Snd RSnd C N : Type} `{BiMapLaws IoId (ChannelId * Id) BM} `{Semaphore S Permit}.
Context `{SenderLaws Snd (QueuedItem Permit)} `{SenderStates RSnd (NewOutgoingRequest Permit)}.
Context `{OnceCellLaws C Response} `{NotifyLaws N} (instant_max : Z).
#[local] Set Default Proof Using "Type*".
Abbreviation Client := (JulietRpcClient S Snd RSnd).
Abbreviation Server := (JulietRpcServer Permit BM Snd).
Abbreviation System := (rpc_system (Permit := Permit) (BM := BM) (S := S) (Snd := Snd) (RSnd := RSnd) (C := C) (N := N)).
Implicit Types (self : Server) (client : Client) (store : GuardStore C N) (s : System) (t : RpcTurn Permit IoError).

(** ** The client *)

(** The client has a semaphore for the channel. *)
Definition channel_known client (ch : ChannelId) : Prop :=
  0 ≤ chan_raw ch < len (buffered_requests (shared (request_handle client))).

Lemma array_get_returns {A} (l : list A) i : 0 ≤ i < len l → returns (array_get l i) (λ _, True).
Proof.
  intros Hi. destruct (lookup_lt_is_Some_2 l (Z.to_nat i)) as [x Hx]; [unfold len in Hi; lia|].
  exists x. split; [|done]. apply array_get_Done; [lia|done].
Qed.
Lemma array_set_returns {A} (l : list A) i x : 0 ≤ i < len l → returns (array_set l i x) (λ _, True).
Proof. intros Hi. eexists. split; [|done]. by apply array_set_Done. Qed.

Lemma reserve_returns (h : RequestHandle S Snd) ch : 0 ≤ chan_raw ch < len (buffered_requests (shared h)) →
  returns (reserve_request (Permit := Permit) h ch) (λ _, True) ∧ returns (try_reserve_request (Permit := Permit) h ch) (λ _, True).
Proof.
  intros Hch. split; (eapply returns_bind; [apply array_get_returns; exact Hch|]); intros sem _ _;
    [destruct (acquire_owned sem) as [got sem']|destruct (try_acquire_owned sem) as [got sem']];
    (eapply returns_bind; [apply array_set_returns; exact Hch|]); intros sems _ _.
  - destruct got as [[[]|permit]|]; by apply returns_ret.
  - destruct got as [[]|permit]; by apply returns_ret.
Qed.
Lemma enqueue_returns rq now client store ticket :
  returns (do_enqueue_request instant_max rq now client store ticket) (λ _, True).
Proof. destruct (do_enqueue_request_spec instant_max rq now client store ticket) as (g & c & st & Hd & _). by eexists. Qed.
Lemma new_error_returns store e : returns (RequestGuard_new_error store e) (λ _, True).
Proof. destruct (new_error_extends store e) as (g & st & Hd & _). by eexists. Qed.
Lemma queueing_returns rq now client store : channel_known client (rq_channel rq) →
  returns (queue_for_sending instant_max rq now client store) (λ _, True) ∧
  returns (try_queue_for_sending instant_max rq now client store) (λ _, True).
Proof.
  intros Hch. destruct (reserve_returns (request_handle client) (rq_channel rq) Hch) as [Hr Ht].
  split; (eapply returns_bind; [done|]); intros [reserved h] _ _.
  - destruct reserved as [[ticket|]|]; [|eapply returns_bind; [apply new_error_returns|intros [] _ _; by apply returns_ret]|by apply returns_ret].
    eapply returns_bind; [apply enqueue_returns|]. intros [] _ _. by apply returns_ret.
  - destruct reserved as [[]|ticket]; [by apply returns_ret|eapply returns_bind; [apply new_error_returns|intros [] _ _; by apply returns_ret]|].
    eapply returns_bind; [apply enqueue_returns|]. intros [] _ _. by apply returns_ret.
Qed.

(** ** The end of the server *)

Lemma drop_returns s self : rpc_inv s → sys_server s = Some self →
  returns (Server_drop self (sys_store s) (in_queue (sys_client s))) (λ _, True).
Proof.
  intros Hi Hs. destruct (drop_answers_ok s self Hi Hs) as (Hnd & _ & Hu). rewrite Server_drop_answers.
  destruct (notify_all_spec _ _ Hnd Hu) as (st & -> & _). by apply returns_ret.
Qed.

(** ** A turn of the server *)

(** What a turn does with the outcome of the core. *)
Definition waited (t : RpcTurn Permit IoError) self store (result : option (result (option IoEvent) (CoreError IoError)))
    : exec (option (Prelude.result (option (IncomingRequest Snd)) (RpcServerError IoError)) * (Server * GuardStore C N)) :=
  match result with
  | Some (Err e) => mret (Some (Err (RpcCoreError e)), (self, store))
  | Some (Ok None) => mret (Some (Ok None), (self, store))
  | Some (Ok (Some event)) =>
      '(request, s) ← handle_event self store event;
      mret (match request with Some r => Some (Ok (Some r)) | None => None end, s)
  | None =>
      match branch t with
      | TimeoutCheck => mret (None, (self, store))
      | NewOutgoing (Some request) => s ← take_new_request self store request; mret (None, s)
      | NewOutgoing None => mret (Some (Ok None), (self, store))
      end
  end.
Lemma turn_waited self store (t : RpcTurn Permit IoError) : next_request_turn instant_max self store t =
  ('((_, timed_out), (self, store)) ← process_timeouts instant_max self store (now t);
   if bubble_timeouts self && (0 <? timed_out) then mret (Some (Err (FatalTimeout timed_out)), (self, store))
   else '(result, c) ← poll_core t (Rpc.core self); waited t (set_core self c) store result).
Proof.
  unfold next_request_turn. apply bind_ext. intros [[? timed_out] [self1 store1]] _. destruct (_ && _); [done|].
  apply bind_ext. by intros [[[?|[?|]]|] core1] _.
Qed.

Lemma poll_core_safe p t b (c : IoCore Permit BM) : 0 ≤ b → good p b c → Forall (input_ok (len (channels p))) (core_inputs t) →
  b + input_bytes (core_inputs t) + u32_max ≤ usize_max →
  ∃ result c', poll_core t c = Done (result, c') ∧ good p (b + input_bytes (core_inputs t)) c'.
Proof.
  intros Hb0 Hg Hin Hb. unfold poll_core, core_inputs in *. destruct (core_polls t) as [|polls l].
  - exists None, c. split; [done|]. change (input_bytes (concat [])) with 0. by rewrite Z.add_0_r.
  - by apply (next_event_from_safe p (concat (polls :: l)) false b c).
Qed.
Lemma resolved_size self self' store store' gone v : resolved self self' store store' gone v →
  (size (pending self') ≤ size (pending self))%nat.
Proof.
  intros Hr. rewrite <- !size_dom. apply subseteq_size. intros io [g Hio]%elem_of_dom.
  rewrite (rs_pending _ _ _ _ _ _ Hr) in Hio. case_decide; [done|]. by apply elem_of_dom.
Qed.

(** An operation of the server goes well: what it leaves is a server of the system. *)
Definition served s self client' n (x : Server * GuardStore C N) : Prop :=
  rpc_inv (mkRpcSystem client' (Some x.1) x.2 (issued s)) ∧ Rpc.core x.1 = Rpc.core self ∧
  (size (pending x.1) ≤ size (pending self) + n)%nat.
Lemma timeouts_return s self now : rpc_inv s → sys_server s = Some self → Z.of_nat (size (pending self)) ≤ usize_max →
  now + Duration_from_secs 3600 ≤ instant_max →
  returns (process_timeouts instant_max self (sys_store s) now) (λ x, served s self (sys_client s) 0 x.2).
Proof.
  intros Hi Hs Hsize Hnow. destruct (ri_server s Hi self Hs) as (Hok & Hsort & _).
  destruct (process_timeouts_spec instant_max self (sys_store s) now Hsort Hok)
    as (deadline & gone & sv & st & Hd & Hr & _). pose proof (gone_size _ _ _ _ _ _ Hr) as Hg. cbn [set_timeouts pending] in Hg.
  destruct Hd as [Hd|[_ Hd]]; [|exfalso; destruct Hd; lia]. eexists. split; [exact Hd|].
  destruct (process_timeouts_inv _ s self now _ sv st Hi Hs Hd) as [Hc Hi']. split; [exact Hi'|]. split; [done|].
  apply resolved_size in Hr. cbn [set_timeouts pending] in *. cbn [fst snd]. lia.
Qed.
Lemma handled_return s self event : rpc_inv s → sys_server s = Some self →
  returns (handle_event self (sys_store s) event) (λ x, served s self (sys_client s) 0 x.2).
Proof.
  intros Hi Hs. destruct (ri_server s Hi self Hs) as (Hok & _).
  destruct (handle_event_correct self (sys_store s) event Hok) as (r & sv & st & Hd & _ & Hcase).
  eexists. split; [exact Hd|]. split; [by eapply handle_event_inv|]. split; [by eapply handle_event_core|]. cbn [fst snd].
  rewrite Nat.add_0_r. destruct event as [ch id pl|ch id|io pl|io]; [by destruct Hcase as (_ & -> & _)..| |];
    destruct Hcase as (_ & _ & _ & -> & _); rewrite map_size_delete; destruct (pending self !! io); cbn; lia.
Qed.
Lemma taken_return s self request rest : rpc_inv s → sys_server s = Some self → in_queue (sys_client s) = request :: rest →
  returns (take_new_request self (sys_store s) request)
    (λ x, ∃ client', in_queue client' = rest ∧ served s self client' 1 x).
Proof.
  intros Hi Hs Hq. destruct (ri_server s Hi self Hs) as (Hok & Hsort & Hqo & _). rewrite Hq in Hqo.
  assert (request ∈ request :: rest) as Hin by by left.
  destruct (take_new_request_spec self (sys_store s) request Hok (qo_unanswered _ _ _ Hqo _ Hin)
    (λ io, qo_apart _ _ _ Hqo _ io Hin) (qo_new _ _ _ Hqo _ Hin) Hsort) as (sv & st & Hd & _ & _ & _ & _ & Hcase).
  eexists. split; [exact Hd|]. exists (set_sender (sys_client s) (in_state rest (closed (new_request_sender (sys_client s))))).
  split; [apply in_state_queued|]. split; [|split].
  - eapply taken_inv; [done..|apply in_state_queued|apply in_state_closed|exact Hd].
  - by apply (take_effect self (sys_store s) request sv st (qo_unanswered _ _ _ Hqo _ Hin) Hd).
  - cbn [fst]. destruct Hcase as [(-> & _)|(_ & -> & _)]; [|lia]. rewrite map_size_insert. destruct (pending self !! _); cbn; lia.
Qed.

(** What the turns of a call receive from the queue of new requests. *)
Definition new_request t : option (NewOutgoingRequest Permit) :=
  match branch t with NewOutgoing request => request | TimeoutCheck => None end.
Definition turn_bytes (turns : list (RpcTurn Permit IoError)) : Z :=
  foldr (λ t n, input_bytes (core_inputs t) + n) 0 turns.
Definition turn_ok (n : Z) t : Prop :=
  Forall (input_ok n) (core_inputs t) ∧ now t + Duration_from_secs 3600 ≤ instant_max.

Lemma turn_returns p b s self t : rpc_inv s → sys_server s = Some self → good p b (Rpc.core self) → 0 ≤ b → turn_ok (len (channels p)) t →
  b + input_bytes (core_inputs t) + u32_max ≤ usize_max → Z.of_nat (size (pending self)) ≤ usize_max →
  (∀ request, new_request t = Some request → ∃ rest, in_queue (sys_client s) = request :: rest) →
  returns (next_request_turn instant_max self (sys_store s) t) (λ x, good p (b + input_bytes (core_inputs t)) (Rpc.core x.2.1) ∧
    (size (pending x.2.1) ≤ size (pending self) + 1)%nat ∧ ∃ client', rpc_inv (mkRpcSystem client' (Some x.2.1) x.2.2 (issued s)) ∧
      (in_queue client' = in_queue (sys_client s) ∨ ∃ request, new_request t = Some request ∧ in_queue (sys_client s) = request :: in_queue client')).
Proof.
  intros Hi Hs Hg Hb0 [Hin Hnow] Hb Hsize Hnew. rewrite turn_waited.
  assert (0 ≤ input_bytes (core_inputs t)) as Hn by apply len_nonneg.
  eapply returns_bind; [by eapply timeouts_return|]. intros [[deadline n] [sv st]] _ (Hi1 & Hc1 & Hsz1). cbn [fst snd] in *.
  destruct (bubble_timeouts sv && (0 <? n)).
  { apply returns_ret. cbn [fst snd]. split; [rewrite Hc1; eapply good_mono; [|exact Hg]; lia|].
    split; [lia|]. exists (sys_client s). split; [done|by left]. }
  rewrite <- Hc1 in Hg. destruct (poll_core_safe p t b (Rpc.core sv) Hb0 Hg Hin) as (result & c & He & Hg'); [lia|].
  rewrite He, bind_Done.
  assert (rpc_inv (mkRpcSystem (sys_client s) (Some (set_core sv c)) st (issued s))) as Hi2
    by by apply (rpc_inv_same (mkRpcSystem (sys_client s) (Some sv) st (issued s)) sv).
  destruct result as [[err|[event|]]|]; cbn [waited].
  1,3: apply returns_ret; cbn [fst snd]; split; [exact Hg'|]; split; [cbn; lia|]; exists (sys_client s); split; [exact Hi2|by left].
  - eapply returns_bind; [by eapply (handled_return _ (set_core sv c) event Hi2)|]. intros [rq [sv2 st2]] _ (Hi3 & Hc3 & Hsz3).
    apply returns_ret. cbn [fst snd] in *. split; [by rewrite Hc3|]. split; [cbn in Hsz3; lia|].
    exists (sys_client s). split; [exact Hi3|by left].
  - unfold new_request in Hnew |- *. destruct (branch t) as [|[request|]].
    1,3: apply returns_ret; cbn [fst snd]; split; [exact Hg'|]; split; [cbn; lia|]; exists (sys_client s); split; [exact Hi2|by left].
    destruct (Hnew request eq_refl) as [rest Hq].
    eapply returns_bind; [by eapply (taken_return _ (set_core sv c) request rest Hi2)|]. intros [sv2 st2] _ (client' & Hq' & Hi3 & Hc3 & Hsz3).
    apply returns_ret. cbn [fst snd] in *. split; [by rewrite Hc3|]. split; [cbn in Hsz3; lia|].
    exists client'. split; [exact Hi3|]. right. exists request. split; [done|]. by rewrite Hq, Hq'.
Qed.

(** ** The loop *)

(** The server goes on with fewer requests in its queue. *)
Lemma rpc_inv_requests s self l : rpc_inv s → sys_server s = Some self → l `sublist_of` in_queue (sys_client s) →
  ∃ client', in_queue client' = l ∧ rpc_inv (mkRpcSystem client' (Some self) (sys_store s) ∅).
Proof.
  intros Hi Hs Hl. destruct (ri_server s Hi self Hs) as (Hok & Hsort & Hqo & Hids).
  assert (∀ x, x ∈ l → x ∈ in_queue (sys_client s)) as Hin by (intros x Hx; by eapply elem_of_sublist).
  set (queue := in_state l false). assert (queued queue = l) as Hq by apply in_state_queued.
  exists (set_sender (sys_client s) queue). split; [done|].
  assert (in_queue (set_sender (sys_client s) queue) = l) as Hq' by done. constructor; cbn [sys_client sys_server sys_store issued]; rewrite ?Hq'.
  - intros ? [= <-]. split; [done|]. split; [done|]. split; [|done]. destruct Hqo as [Hqu Hqg Hqi Hqa Hqn].
    constructor; [auto|eapply sublist_NoDup; [exact Hqg|by apply fmap_sublist]|eapply sublist_NoDup; [exact Hqi|by apply fmap_sublist]|auto..].
  - intros x Hx. by apply (ri_queue_ids s Hi), Hin.
  - done.
  - intros r [Hr|Hr]; [set_solver|]. apply (ri_alloc s Hi). right. rewrite elem_of_waiting in Hr |- *.
    cbn [sys_client sys_server] in Hr. rewrite Hq' in Hr. destruct Hr as [(x & Hx & <-)|(? & io & [= <-] & Hio)].
    + left. exists x. auto.
    + right. by exists self, io.
  - intros r Hr. set_solver.
  - apply (ri_counter s Hi).
Qed.

Lemma turn_bytes_nonneg turns : 0 ≤ turn_bytes turns.
Proof.
  induction turns as [|t turns IH]; [done|]. cbn [turn_bytes foldr]. apply Z.add_nonneg_nonneg; [apply len_nonneg|exact IH].
Qed.
Lemma turn_bytes_app turns turns' : turn_bytes (turns ++ turns') = turn_bytes turns + turn_bytes turns'.
Proof. induction turns as [|t turns IH]; [done|]. unfold turn_bytes in *. cbn [app foldr]. rewrite IH. apply Z.add_assoc. Qed.
(** After [turns] the server has a queue of the requests in [later]. *)
Definition goes_on p b n (later : list (NewOutgoingRequest Permit)) (x : Server * GuardStore C N) : Prop :=
  good p b (Rpc.core x.1) ∧ Z.of_nat (size (pending x.1)) ≤ n ∧
  ∃ client', in_queue client' = later ∧ rpc_inv (mkRpcSystem client' (Some x.1) x.2 ∅).
Lemma goes_on_weaken p b b' n n' later x : goes_on p b n later x → b ≤ b' → n ≤ n' → goes_on p b' n' later x.
Proof. intros (Hg & Hn & Hc) Hb Hle. split; [by eapply good_mono|]. split; [lia|done]. Qed.
Lemma goes_on_now s self p b later : rpc_inv s → sys_server s = Some self → good p b (Rpc.core self) →
  later `sublist_of` in_queue (sys_client s) → goes_on p b (Z.of_nat (size (pending self))) later (self, sys_store s).
Proof. intros Hi Hs Hg Hl. split; [done|]. split; [done|]. by eapply rpc_inv_requests. Qed.

Lemma next_request_returns p later turns : ∀ b n x, goes_on p b n (omap new_request turns ++ later) x → 0 ≤ b →
  Forall (turn_ok (len (channels p))) turns → b + turn_bytes turns + u32_max ≤ usize_max → n + len turns ≤ usize_max →
  returns (next_request instant_max turns x.1 x.2) (λ y, goes_on p (b + turn_bytes turns) (n + len turns) later y.2).
Proof.
  induction turns as [|t turns IH]; intros b n [self store] (Hg & Hsz & client & Hq & Hi) Hb0 Hok Hb Hsize; cbn [fst snd] in *.
  { apply returns_ret. cbn [fst snd turn_bytes foldr]. change (len []) with 0. rewrite !Z.add_0_r. split; [done|]. split; [done|]. by exists client. }
  apply Forall_cons in Hok as [Hok Hoks]. rewrite len_cons in *.
  change (turn_bytes (t :: turns)) with (input_bytes (core_inputs t) + turn_bytes turns) in *.
  assert (0 ≤ input_bytes (core_inputs t)) as Hn by apply len_nonneg.
  pose proof (turn_bytes_nonneg turns) as Hn2. pose proof (len_nonneg turns). cbn [next_request].
  eapply returns_bind; [eapply (turn_returns p b _ self t Hi); [done..|lia|lia|]|].
  { intros request Hr. cbn [sys_client]. rewrite Hq. cbn [omap list_omap]. rewrite Hr. by eexists. }
  cbn [sys_client sys_store]. intros [r [sv st]] _ (Hg1 & Hsz1 & client' & Hi1 & Hq1). cbn [fst snd issued] in *.
  assert (omap new_request turns ++ later `sublist_of` in_queue client') as Hnew.
  { destruct Hq1 as [Hq1|(request & Hr & Hq1)]; rewrite Hq in Hq1; cbn [omap list_omap] in Hq1.
    - rewrite Hq1. destruct (new_request t); [by apply sublist_cons|done].
    - rewrite Hr in Hq1. by injection Hq1 as ->. }
  assert (∀ l, l `sublist_of` in_queue client' → goes_on p (b + input_bytes (core_inputs t)) (n + 1) l (sv, st)) as Hgo.
  { intros l Hl. eapply goes_on_weaken; [by eapply (goes_on_now (mkRpcSystem client' (Some sv) st ∅))|lia|lia]. }
  destruct r as [r|].
  - apply returns_ret. cbn [fst snd]. eapply goes_on_weaken; [apply Hgo|lia|lia]. etrans; [|exact Hnew]. by apply sublist_inserts_l.
  - rewrite !Z.add_assoc in *. apply (IH _ (n + 1) (sv, st)); [by apply Hgo|lia|done|lia|lia].
Qed.

(** The calls of a shutdown. *)
Lemma discard_returns p later calls : ∀ b n x, goes_on p b n (omap new_request (concat calls) ++ later) x → 0 ≤ b →
  Forall (turn_ok (len (channels p))) (concat calls) → b + turn_bytes (concat calls) + u32_max ≤ usize_max →
  n + len (concat calls) ≤ usize_max →
  returns (discard_requests instant_max calls x.1 x.2) (λ y, ∃ b' n' later', b' ≤ b + turn_bytes (concat calls) ∧ goes_on p b' n' later' y).
Proof.
  induction calls as [|turns calls IH]; intros b n x Hx Hb0 Hok Hb Hsize; cbn [discard_requests concat] in *.
  { apply returns_ret. exists b, n, later. split; [cbn; lia|]. by destruct x. }
  apply Forall_app in Hok as [Hok Hoks]. rewrite omap_app, <- app_assoc in Hx. rewrite turn_bytes_app in *. rewrite len_app in Hsize.
  pose proof (turn_bytes_nonneg turns). pose proof (turn_bytes_nonneg (concat calls)). pose proof (len_nonneg (concat calls)).
  eapply returns_bind; [apply (next_request_returns p _ turns b n x Hx Hb0 Hok); lia|].
  intros [r [self store]] _ Hy. cbn [snd] in Hy. destruct r as [[err|[request|]]|]; [|..].
  1,3,4: apply returns_ret; do 3 eexists; split; [|exact Hy]; lia.
  eapply returns_weaken; [apply (IH _ _ (self, store) Hy); [lia|done|lia|lia]|].
  intros z (b' & n' & later' & Hle & Hz). exists b', n', later'. split; [lia|done].
Qed.
Lemma shutdown_returns p later calls b n x ch id error : goes_on p b n (omap new_request (concat calls) ++ later) x → 0 ≤ b →
  Forall (turn_ok (len (channels p))) (concat calls) → b + turn_bytes (concat calls) + u32_max ≤ usize_max →
  n + len (concat calls) ≤ usize_max →
  returns (send_custom_error_and_shutdown instant_max x.1 x.2 ch id error calls) (λ y, io_wf (Rpc.core y.1)).
Proof.
  destruct x as [self store]. intros (Hg & Hn & client & Hq & Hi) Hb0 Hok Hb Hsize. cbn [fst snd] in *.
  unfold send_custom_error_and_shutdown, Server_send_custom_error. destruct (enqueue_error _ _ _ _) as [sent h].
  destruct sent as [err|[]]; [apply returns_ret; apply Hg|].
  eapply returns_weaken; [apply (discard_returns p later calls b n (set_handle self h, store)); [|done..]|].
  - split; [exact Hg|]. split; [exact Hn|]. exists client. split; [done|].
    by apply (rpc_inv_same (mkRpcSystem client (Some self) store ∅) self).
  - intros y (b' & n' & later' & _ & Hy). apply Hy.
Qed.
End safe.

(** ** Claims *)

(** C9: the RPC layer never panics.  In every state the client and the server can reach: queueing
    a request for a channel there is, with any payload and timeout at any time, ends with a
    guard, or waits, or says that there is no room; the server can be dropped; and if its
    core has its invariant, [next_request] and the shutdown with an error run through any number of
    turns - whatever the core is polled with, whichever requests come in from the client in the
    order of its queue, and whatever times out - and leave a core with the invariant.  The
    conditions are that what is read fits the address space and that the clock can tell the
    time of the next check of the timeouts. *)
Theorem rpc_never_panics {Permit IoError BM S Snd RSnd C N} `{BiMapLaws IoId (ChannelId * Id) BM} `{Semaphore S Permit}
    `{SenderLaws Snd (QueuedItem Permit)} `{SenderStates RSnd (NewOutgoingRequest Permit)} `{OnceCellLaws C Response} `{NotifyLaws N}
    (instant_max : Z) (builder : RpcBuilder) (q : Snd) (rq : RSnd)
    (s : rpc_system (Permit := Permit) (BM := BM) (S := S) (Snd := Snd) (RSnd := RSnd) (C := C) (N := N)) :
  Io.queued rq = [] → rtc (rpc_step (IoError := IoError) instant_max) (rpc_init builder q rq) s →
  (∀ request now, channel_known (sys_client s) (rq_channel request) →
    (∃ x, queue_for_sending instant_max request now (sys_client s) (sys_store s) = Done x) ∧
    ∃ x, try_queue_for_sending instant_max request now (sys_client s) (sys_store s) = Done x) ∧
  ∀ self, sys_server s = Some self →
    (∃ x, Server_drop self (sys_store s) (in_queue (sys_client s)) = Done x) ∧
    ∀ calls : list (list (RpcTurn Permit IoError)), let turns := concat calls in
      io_wf (Rpc.core self) → Forall (turn_ok instant_max (len (channels (juliet (Rpc.core self))))) turns →
      len (buffer (Rpc.core self)) + turn_bytes turns + u32_max ≤ usize_max →
      Z.of_nat (size (pending self)) + len turns ≤ usize_max → omap new_request turns `sublist_of` in_queue (sys_client s) →
      (∃ r self' store', next_request instant_max turns self (sys_store s) = Done (r, (self', store')) ∧ io_wf (Rpc.core self')) ∧
      ∀ ch id error, ∃ self' store',
        send_custom_error_and_shutdown instant_max self (sys_store s) ch id error calls = Done (self', store') ∧ io_wf (Rpc.core self').
Proof.
  intros Hq Hrun. pose proof (rpc_reachable_inv _ _ _ _ _ Hq Hrun) as Hi. split.
  { intros request now Hch. destruct (queueing_returns instant_max request now (sys_client s) (sys_store s) Hch) as [(x & Hx & _) (y & Hy & _)]. eauto. }
  intros self Hs. split; [destruct (drop_returns s self Hi Hs) as (x & Hx & _); eauto|].
  intros calls turns Hw Hok Hb Hsize Hnew. pose proof (len_nonneg (buffer (Rpc.core self))).
  assert (good (juliet (Rpc.core self)) (len (buffer (Rpc.core self))) (Rpc.core self)) as Hg by (split; [done|split; [done|lia]]).
  pose proof (goes_on_now s self _ _ (omap new_request turns ++ []) Hi Hs Hg) as Hgo. rewrite app_nil_r in Hgo.
  specialize (Hgo Hnew). rewrite <- (app_nil_r (omap _ _)) in Hgo. split.
  - destruct (next_request_returns instant_max _ [] turns _ _ _ Hgo) as ([r [self' store']] & Hd & Hy); [done..|].
    exists r, self', store'. split; [exact Hd|apply Hy].
  - intros ch id error.
    destruct (shutdown_returns instant_max _ [] calls _ _ _ ch id error Hgo) as ([self' store'] & Hd & Hy); [done..|].
    exists self', store'. by split.
Qed.
(** The request that is queued is taken over; then the peer makes a request. *)
Definition sample_turns : list (RpcTurn () ()) :=
  [mkRpcTurn 7 [mkSelectPoll false (Some (Some (mkNewOutgoingRequest (mkRequestTicket (ChannelId_new 0) () (mkIoId 0)) 0 (Some [1; 2; 3]) (Some 57)))) []];
   mkRpcTurn 8 [mkSelectPoll false None [InPoll (mkPoll 0 None [ReadOk [0; 0]; ReadOk [7; 0]] None)]]].
Lemma rpc_never_panics_witness :
  match sys_server sample_queued with
  | Some self => ∃ r self' store', next_request (2 ^ 63) sample_turns self (sys_store sample_queued) = Done (r, (self', store')) ∧
      io_wf (core self')
  | None => False
  end.
Proof.
  destruct (rpc_never_panics (IoError := ()) (2 ^ 63) sample_builder (mkListQueue [] false) (mkListQueue [] false) sample_queued) as [_ Hserver];
    [done|apply rtc_once, sample_queued_step|].
  assert (match sys_server sample_queued with Some self => io_wf (core self) | None => False end) as Hw.
  { change (io_wf (IoCoreBuilder_build (Permit := ()) (BM := list (IoId * (ChannelId * Id))) (S := Z) (rpc_core sample_builder)
      (mkListQueue (@nil (QueuedItem ())) false)).1).
    apply IoCoreBuilder_build_wf, build_wf; [|vm_compute; discriminate|split; vm_compute; discriminate].
    apply Forall_singleton. split; [|split]; split; vm_compute; discriminate. }
  destruct (sys_server sample_queued) as [self|] eqn:Hs; [|done].
  destruct (Hserver self eq_refl) as [_ Hturns]. vm_compute in Hs. injection Hs as <-.
  destruct (Hturns [sample_turns] Hw) as [Hrun _]; [..|exact Hrun].
  - repeat constructor; vm_compute; discriminate.
  - vm_compute. discriminate.
  - vm_compute. discriminate.
  - vm_compute. repeat constructor.
Defined.
