(* ===== verification/Turns.v ===== *)
(** * Turns of the server

    A turn of the loop of [next_request] is a run of the steps of [Endpoint]: what the turn does in
    one call, with all inputs given beforehand, they do one after the other. *)
From stdpp Require Import strings relations.
From S2P Require Import Prelude Lib Varint Header FrameSize OutgoingMessage Protocol Io IoSafe CoreOps Permits.
From S2P Require Import Calls Rpc Instances RpcSpec RpcSystem Endpoint RpcSafe.
From stdpp Require Import options.

Section turns.
Context {Permit IoError BM S Snd RSnd C N : Type} `{BiMapLaws IoId (ChannelId * Id) BM} `{Semaphore S Permit}.
Context `{SenderStates Snd (QueuedItem Permit)} `{SenderStates RSnd (NewOutgoingRequest Permit)}.
Context `{OnceCellLaws C Response} `{NotifyLaws N} (instant_max : Z).
#[local] Set Default Proof Using "Type*".
Abbreviation Server := (JulietRpcServer Permit BM Snd).
Abbreviation End := (Endpoint (Permit := Permit) (BM := BM) (S := S) (Snd := Snd) (RSnd := RSnd) (C := C) (N := N)).
Implicit Types (self : Server) (store : GuardStore C N) (e : End) (op : CoreOp Permit IoError) (ops : list (CoreOp Permit IoError)).

(** ** Runs *)

(** [ops] are the operations of the core among the steps. *)
Inductive endpoint_run : End → list (CoreOp Permit IoError) → End → Prop :=
  | er_done e : endpoint_run e [] e
  | er_local e e1 ops e2 : local_step instant_max e e1 → endpoint_run e1 ops e2 → endpoint_run e ops e2
  | er_core e op c' e1 ops e2 : core_step (Rpc.core (ep_server e)) op c' → core_turn e op c' e1 → endpoint_run e1 ops e2 →
      endpoint_run e (op :: ops) e2.
Lemma endpoint_run_app e ops e1 ops' e2 : endpoint_run e ops e1 → endpoint_run e1 ops' e2 → endpoint_run e (ops ++ ops') e2.
Proof. induction 1; cbn [app]; eauto using endpoint_run. Qed.

(** [e] with another server, and the requests of the peer it got. *)
Definition serving_on e self store (held : list (ChannelId * Id * option bytes)) : End :=
  mkEndpoint (ep_client e) self store (ep_issued e) (ep_held e ++ held) (made e) (given e).
(** The core did [c'], and [queue] is left. *)
Definition moved_on e (c' : IoCore Permit BM) (queue : Snd) : End :=
  mkEndpoint (ep_client e) (with_queue (set_core (ep_server e) c') queue) (ep_store e) (ep_issued e) (ep_held e) (made e) (given e).
Lemma moved_on_same e : moved_on e (Rpc.core (ep_server e)) (sender (handle (ep_server e))) = e.
Proof. by destruct e as [? [? [] ? ? ? ?] ? ? ? ? ?]. Qed.

(** Operations that report nothing take what they take from the queue. *)
Lemma silent_run c ops c' : core_run c ops c' → ∀ e rest, Rpc.core (ep_server e) = c → Forall silent ops →
  io_queue (ep_server e) = ops_items ops ++ rest → closed (sender (handle (ep_server e))) = receiver_closed c →
  ∃ queue, Io.queued queue = rest ∧ closed queue = receiver_closed c' ∧ endpoint_run e ops (moved_on e c' queue).
Proof.
  induction 1 as [c|c op c1 ops c' Hstep _ IH]; intros e rest Hc Hs Hq Hcl; subst.
  { exists (sender (handle (ep_server e))). split; [exact Hq|]. split; [done|]. rewrite moved_on_same. constructor. }
  apply Forall_cons in Hs as [Hop Hs]. change (op :: ops) with ([op] ++ ops) in Hq. rewrite ops_items_app in Hq.
  set (queue1 := in_state (ops_items ops ++ rest) (receiver_closed c1)).
  assert (Io.queued queue1 = ops_items ops ++ rest) as Hq1 by apply in_state_queued.
  assert (closed queue1 = receiver_closed c1) as Hcl1 by apply in_state_closed.
  destruct (IH (moved_on e c1 queue1) rest) as (queue & Hq' & Hcl' & Hrun); [done..|].
  exists queue. split; [done|]. split; [done|]. change (op :: ops) with ([op] ++ ops).
  eapply (er_core _ op c1 (moved_on e c1 queue1)); [done| |exact Hrun].
  destruct op as [r| |bs|bs r|bs|item r|w]; cbn [ops_items omap list_omap app] in Hq;
    try (by apply ep_quiet; [congruence|done..]).
  by eapply ep_item.
Qed.

(** ** What does not depend on the queue *)

Lemma resolve_queue self store io v h : resolve (set_handle self h) store io v =
  ('(self', store') ← resolve self store io v; mret (set_handle self' h, store')).
Proof.
  unfold resolve. cbn [pending set_handle]. destruct (pending self !! io); [|done]. rewrite bind_assoc.
  by destruct (set_and_notify _ _ _).
Qed.
Lemma handle_event_queue self store event request self' store' h :
  handle_event self store event = Done (request, (self', store')) → ∃ request',
  handle_event (set_handle self h) store event = Done (request', (set_handle self' h, store')) ∧
  (λ r, (ir_channel r, ir_id r, ir_payload r)) <$> request' = (λ r, (ir_channel r, ir_id r, ir_payload r)) <$> request.
Proof.
  destruct event as [ch id payload|ch id|io payload|io]; cbn [handle_event]; [by intros [= <- <- <-]; eexists..| |];
    rewrite resolve_queue; intros ([sv st] & Hd & [= <- <- <-])%bind_Done_inv; rewrite Hd; by eexists.
Qed.
Definition taken self (request : NewOutgoingRequest Permit) (queue : Snd) : Server :=
  let self := set_pending (with_queue self queue) (<[rt_io_id (ticket request) := guard request]> (pending self)) in
  match expires request with
  | Some expires => set_timeouts self (heap_push (timeouts self) (expires, rt_io_id (ticket request)))
  | None => self
  end.
Lemma take_open self store request : closed (sender (handle self)) = false → ∃ queue,
  take_new_request self store request = Done (taken self request queue, store) ∧
  Io.queued queue = io_queue self ++ [request_item request].
Proof.
  intros Hc. unfold take_new_request, enqueue_request. destruct (send_open _ (request_item request) Hc) as (Hok & Hq & _).
  unfold request_item in *. destruct (send _ _) as [sent queue]. cbn [fst snd] in *. subst sent. exists queue.
  split; [|done]. unfold taken. by destruct (expires request).
Qed.

(** ** A turn *)

(** What the application gets of a request of the peer. *)
Definition kept_of (request : option (IncomingRequest Snd)) : list (ChannelId * Id * option bytes) :=
  match request with Some r => [(ir_channel r, ir_id r, ir_payload r)] | None => [] end.
Definition same_but_queue self self' : Prop := self = set_handle self' (handle self).

Lemma core_run_snoc_inv (c c' : IoCore Permit BM) ops op : core_run c (ops ++ [op]) c' → ∃ c1, core_run c ops c1 ∧ core_step c1 op c'.
Proof.
  revert c. induction ops as [|o ops IH]; intros c Hrun; cbn [app] in Hrun.
  - inversion Hrun as [|? ? c1 ? ? Hs Hr]; subst. inversion Hr; subst. exists c. by split; [constructor|].
  - inversion Hrun as [|? ? c1 ? ? Hs Hr]; subst. destruct (IH _ Hr) as (c2 & Hr2 & Hs2). exists c2. split; [by econstructor|done].
Qed.

(** The part of a turn that waits for the core. *)
Lemma core_part e ops result c : core_run (Rpc.core (ep_server e)) ops c → explains ops result →
  closed (sender (handle (ep_server e))) = receiver_closed (Rpc.core (ep_server e)) → ops_items ops `prefix_of` io_queue (ep_server e) →
  ∃ queue, io_queue (ep_server e) = ops_items ops ++ Io.queued queue ∧ closed queue = receiver_closed c ∧
  match result with
  | Some (Ok (Some event)) => ∀ request self' store',
      handle_event (set_core (ep_server e) c) (ep_store e) event = Done (request, (self', store')) →
      endpoint_run e ops (serving_on e (with_queue self' queue) store' (kept_of request))
  | _ => endpoint_run e ops (moved_on e c queue)
  end.
Proof.
  intros Hrun Hex Hcl [rest Hq].
  assert (Forall silent ops → ∃ queue, io_queue (ep_server e) = ops_items ops ++ Io.queued queue ∧ closed queue = receiver_closed c ∧
    endpoint_run e ops (moved_on e c queue)) as Hsilent.
  { intros Hs. destruct (silent_run _ _ _ Hrun e rest eq_refl Hs Hq Hcl) as (queue & <- & ? & ?). by exists queue. }
  destruct result as [[err|[event|]]|]; [by apply Hsilent| |by apply Hsilent..]. clear Hsilent.
  destruct Hex as (ops' & -> & Hs). apply core_run_snoc_inv in Hrun as (c1 & Hrun & Hstep).
  assert (ops_items (ops' ++ [OpParse (Some (Ok (Some event)))]) = ops_items ops') as Hit by by rewrite ops_items_app, app_nil_r.
  rewrite Hit in *. destruct (silent_run _ _ _ Hrun e rest eq_refl Hs Hq Hcl) as (queue1 & Hq1 & Hcl1 & Hrun1).
  set (queue := in_state rest (receiver_closed c)).
  assert (Io.queued queue = rest) as Hq2 by apply in_state_queued.
  exists queue. rewrite Hq2. split; [done|]. split; [apply in_state_closed|]. intros request self' store' He.
  eapply endpoint_run_app; [exact Hrun1|].
  destruct (handle_event_queue _ _ _ _ _ _ (mkHandle queue) He) as (request' & He' & Hreq).
  replace (kept_of request) with (kept_of request').
  2: { destruct request' as [[]|], request as [[]|]; cbn in Hreq; try done. by injection Hreq as -> -> ->. }
  eapply er_core; [exact Hstep| |constructor].
  apply (ep_event (moved_on e c1 queue1) c event request' (with_queue self' queue) store' queue); [|apply in_state_closed|exact He'].
  by rewrite Hq2.
Qed.

(** [e'] is where the turn leaves [e], if the core took [items] from the queue; [start] is the
    queue without what other tasks put into it. *)
Record turned_to (e e' : End) (r : option (result (option (IncomingRequest Snd)) (RpcServerError IoError)))
    self store (start items : list (QueuedItem Permit)) : Prop := {
  tt_server : same_but_queue self (ep_server e');
  tt_queue : ∃ added, io_queue self = start ++ added ∧ io_queue (ep_server e) ++ added = items ++ io_queue (ep_server e');
  tt_store : ep_store e' = store;
  tt_held : ep_held e' = ep_held e ++ kept_of match r with Some (Ok request) => request | _ => None end;
  tt_same : made e' = made e ∧ given e' = given e ∧ ep_issued e' = ep_issued e;
}.
Lemma moved_on_turned e c queue r items : io_queue (ep_server e) = items ++ Io.queued queue →
  match r with Some (Ok (Some _)) => False | _ => True end →
  turned_to e (moved_on e c queue) r (set_core (ep_server e) c) (ep_store e) (io_queue (ep_server e)) items.
Proof.
  intros Hq Hr. constructor; [done|by exists []; rewrite !app_nil_r|done| |done]. by destruct r as [[?|[]]|]; cbn; rewrite ?app_nil_r.
Qed.

(** After the core waited in vain: the branch of the [select!] for a new request. *)
Lemma taken_turned e c queue request rest self store items : in_queue (ep_client e) = request :: rest →
  io_queue (ep_server e) = items ++ Io.queued queue → closed queue = false → listens e →
  take_new_request (set_core (ep_server e) c) (ep_store e) request = Done (self, store) →
  ∃ e', local_step instant_max (moved_on e c queue) e' ∧ turned_to e e' None self store (io_queue (ep_server e)) items.
Proof.
  intros Hin Hq Hcl Hl Ht.
  destruct (take_open (set_core (ep_server e) c) (ep_store e) request) as (q1 & Ht1 & Hq1); [exact Hl|].
  rewrite Ht in Ht1. injection Ht1 as -> ->. change (io_queue (set_core (ep_server e) c)) with (io_queue (ep_server e)) in Hq1.
  destruct (take_open (ep_server (moved_on e c queue)) (ep_store e) request) as (q2 & Ht2 & Hq2); [exact Hcl|].
  set (requests := in_state rest (closed (new_request_sender (ep_client e)))).
  exists (mkEndpoint (set_sender (ep_client e) requests) (taken (ep_server (moved_on e c queue)) request q2) (ep_store e)
    (ep_issued e) (ep_held e) (made e) (given e)). split.
  - by apply (ep_taken _ (moved_on e c queue) request rest _ _ requests); [|apply in_state_queued|apply in_state_closed|].
  - constructor; [..|done|by cbn; rewrite app_nil_r|done].
    + unfold same_but_queue, taken. by destruct (expires request).
    + exists [request_item request].
      replace (io_queue (taken (set_core (ep_server e) c) request q1)) with (Io.queued q1) by (unfold taken; by destruct (expires request)).
      cbn [ep_server]. replace (io_queue (taken _ request q2)) with (Io.queued q2) by (unfold taken; by destruct (expires request)).
      split; [exact Hq1|]. rewrite Hq2, Hq. symmetry. apply app_assoc.
Qed.

(** A turn after its timeouts. *)
Lemma waited_turned e (t : RpcTurn Permit IoError) ops result c r self store :
  closed (sender (handle (ep_server e))) = false → receiver_closed (Rpc.core (ep_server e)) = false →
  core_run (Rpc.core (ep_server e)) ops c → explains ops result → ops_items ops `prefix_of` io_queue (ep_server e) →
  (∀ request, branch t = NewOutgoing (Some request) → ∃ rest, in_queue (ep_client e) = request :: rest) →
  waited t (set_core (ep_server e) c) (ep_store e) result = Done (r, (self, store)) → receiver_closed (Rpc.core self) = false →
  ∃ e', endpoint_run e ops e' ∧ turned_to e e' r self store (io_queue (ep_server e)) (ops_items ops).
Proof.
  intros Hl Ho Hrun Hex Hpre Hbranch Hd Hclosed.
  destruct (core_part e ops result c Hrun Hex) as (queue & Hq & Hcl & Hpart); [congruence|done|].
  destruct result as [[err|[event|]]|]; cbn [waited] in Hd.
  1,3: injection Hd as <- <- <-; exists (moved_on e c queue); split; [exact Hpart|by apply moved_on_turned].
  - apply bind_Done_inv in Hd as ([request [sv st]] & He & Hd). injection Hd as <- <- <-.
    exists (serving_on e (with_queue sv queue) st (kept_of request)). split; [by apply Hpart|].
    constructor; [by destruct sv| |done|by destruct request|done]. apply handle_event_handle in He as [Hh _].
    exists []. rewrite !app_nil_r. unfold io_queue in *. by rewrite Hh.
  - destruct (branch t) as [|[request|]] eqn:Hb.
    1,3: injection Hd as <- <- <-; exists (moved_on e c queue); split; [exact Hpart|by apply moved_on_turned].
    apply bind_Done_inv in Hd as ([sv st] & Ht & Hd). injection Hd as <- <- <-.
    destruct (Hbranch request eq_refl) as [rest Hin].
    assert (Rpc.core sv = c) as Hc.
    { destruct (take_open (set_core (ep_server e) c) (ep_store e) request) as (q & Ht1 & _); [exact Hl|].
      rewrite Ht in Ht1. injection Ht1 as -> _. unfold taken. by destruct (expires request). }
    destruct (taken_turned e c queue request rest sv st (ops_items ops) Hin Hq) as (e' & Hstep & Hturned); [congruence|done|done|].
    exists e'. split; [|done]. rewrite <- (app_nil_r ops). eapply endpoint_run_app; [exact Hpart|].
    eapply er_local; [exact Hstep|constructor].
Qed.

(** ** While it waits *)

(** [e] with another queue to the core, and what the application has and answered. *)
Definition queued_on e (h : Handle Snd) held answers : End :=
  mkEndpoint (ep_client e) (set_handle (ep_server e) h) (ep_store e) (ep_issued e) held (made e) answers.
(** What other tasks do in the meantime: they answer requests of the peer. *)
Definition meanwhile e e' : Prop := local_step instant_max e e' ∧ ∃ h held answers, e' = queued_on e h held answers.
Lemma meanwhile_queued e e' : rtc meanwhile e e' → rpc_inv (system_of e) → listens e →
  listens e' ∧ endpoint_run e [] e' ∧ ∃ h held answers, e' = queued_on e h held answers.
Proof.
  induction 1 as [e|e e1 e2 [Hs (h & held & answers & ->)] _ IH]; intros Hi Hl.
  { split; [done|]. split; [constructor|]. exists (handle (ep_server e)), (ep_held e), (given e). by destruct e as [? [] ? ? ? ? ?]. }
  destruct IH as (? & ? & h' & held' & answers' & ->).
  - by apply (rpc_inv_same (system_of e) (ep_server e)).
  - by eapply local_step_listens.
  - split; [done|]. split; [by eapply er_local|]. by exists h', held', answers'.
Qed.
Lemma waited_queued (t : RpcTurn Permit IoError) self store result r self' store' h :
  closed (sender (handle self)) = false → closed (sender h) = false →
  waited t self store result = Done (r, (self', store')) → ∃ r2 self2 added,
  waited t (set_handle self h) store result = Done (r2, (self2, store')) ∧ same_but_queue self' self2 ∧
  io_queue self' = io_queue self ++ added ∧ io_queue self2 = Io.queued (sender h) ++ added ∧
  kept_of match r2 with Some (Ok request) => request | _ => None end = kept_of match r with Some (Ok request) => request | _ => None end.
Proof.
  intros Hc Hc2 Hd. destruct result as [[err|[event|]]|]; cbn [waited] in *.
  1,3: injection Hd as <- <- <-; do 2 eexists; exists []; rewrite !app_nil_r; split; [reflexivity|]; by destruct self.
  - apply bind_Done_inv in Hd as ([request [sv st]] & He & Hd). injection Hd as <- <- <-.
    destruct (handle_event_queue _ _ _ _ _ _ h He) as (request2 & He2 & Hreq). rewrite He2, bind_Done. apply handle_event_handle in He as [Hh _].
    do 2 eexists. exists []. rewrite !app_nil_r. split; [reflexivity|]. split; [by destruct sv|]. split; [unfold io_queue; by rewrite Hh|].
    split; [done|]. destruct request as [[]|], request2 as [[]|]; cbn in Hreq; try done. by injection Hreq as -> -> ->.
  - destruct (branch t) as [|[request|]].
    1,3: injection Hd as <- <- <-; do 2 eexists; exists []; rewrite !app_nil_r; split; [reflexivity|]; by destruct self.
    apply bind_Done_inv in Hd as ([sv st] & Ht & Hd). injection Hd as <- <- <-.
    destruct (take_open self store request Hc) as (q1 & Ht1 & Hq1). rewrite Ht in Ht1. injection Ht1 as -> ->.
    destruct (take_open (set_handle self h) store request Hc2) as (q2 & Ht2 & Hq2). rewrite Ht2, bind_Done.
    do 2 eexists. exists [request_item request]. split; [reflexivity|]. unfold same_but_queue, taken. by destruct (expires request).
Qed.
Lemma turned_requeued e e' r r2 self self2 store start start2 added items :
  turned_to e e' r2 self2 store start2 items → same_but_queue self self2 → io_queue self = start ++ added → io_queue self2 = start2 ++ added →
  kept_of match r2 with Some (Ok request) => request | _ => None end = kept_of match r with Some (Ok request) => request | _ => None end →
  turned_to e e' r self store start items.
Proof.
  intros [Ts (added2 & Hq2 & Hqe) Tst Th Tsm] Hs Hq Hq2' Hk. constructor; [|exists added|done|by rewrite <- Hk|done].
  - unfold same_but_queue in *. by rewrite Hs, Ts.
  - split; [done|]. rewrite Hq2 in Hq2'. apply app_inv_head in Hq2'. by rewrite <- Hq2'.
Qed.
Lemma turn_begins e (now : Z) x sv st : rpc_inv (system_of e) → listens e →
  process_timeouts instant_max (ep_server e) (ep_store e) now = Done (x, (sv, st)) →
  let e1 := serving_on e sv st [] in
  local_step instant_max e e1 ∧ listens e1 ∧ Rpc.core sv = Rpc.core (ep_server e) ∧ rpc_inv (system_of e1).
Proof.
  intros Hi Hl Hp e1. assert (local_step instant_max e e1) as Hstep.
  { subst e1. unfold serving_on. rewrite app_nil_r. by eapply ep_timeouts. }
  split; [done|]. split; [by eapply local_step_listens|]. split; [by apply (local_step_core instant_max e e1)|].
  by eapply (process_timeouts_inv _ (system_of e)).
Qed.
Lemma poll_core_run (t : RpcTurn Permit IoError) (c : IoCore Permit BM) result c' : io_wf c →
  Forall (input_ok (len (channels (juliet c)))) (core_inputs t) → len (buffer c) + input_bytes (core_inputs t) + u32_max ≤ usize_max →
  poll_core t c = Done (result, c') → follows (core_inputs t) c result c'.
Proof.
  intros Hw Hin Hb He. unfold poll_core, core_inputs in *. destruct (core_polls t) as [|polls l].
  - injection He as <- <-. apply follows_wait.
  - eapply (next_event_from_run (juliet c) _ false (len (buffer c))); [apply len_nonneg|by split_and!|done..].
Qed.
Lemma turn_runs e (t : RpcTurn Permit IoError) r server' store' : let c := Rpc.core (ep_server e) in
  rpc_inv (system_of e) → listens e → io_wf c → receiver_closed c = false → Forall (input_ok (len (channels (juliet c)))) (core_inputs t) →
  len (buffer c) + input_bytes (core_inputs t) + u32_max ≤ usize_max →
  (∀ request, new_request t = Some request → ∃ rest, in_queue (ep_client e) = request :: rest) →
  next_request_turn instant_max (ep_server e) (ep_store e) t = Done (r, (server', store')) → receiver_closed (Rpc.core server') = false →
  ∃ ops : list (CoreOp Permit IoError), ops_read ops `sublist_of` input_reads (core_inputs t) ∧ ops_items ops `sublist_of` input_items (core_inputs t) ∧
    ∀ x server1 store1 e1,
      process_timeouts instant_max (ep_server e) (ep_store e) (now t) = Done (x, (server1, store1)) →
      rtc meanwhile (serving_on e server1 store1 []) e1 → ops_items ops `prefix_of` io_queue (ep_server e1) →
      ∃ e', endpoint_run e ops e' ∧ turned_to e1 e' r server' store' (io_queue server1) (ops_items ops).
Proof.
  intros c Hi Hl Hw Ho Hin Hb Hnew Hd Hclosed. rewrite turn_waited in Hd.
  apply bind_Done_inv in Hd as ([[deadline timed_out] [sv st]] & Hp & Hd).
  pose proof (turn_begins e (now t) _ sv st Hi Hl Hp) as (Hstep & Hl1 & Hc & Hi1).
  destruct (bubble_timeouts sv && (0 <? timed_out)).
  { injection Hd as <- <- <-. exists []. split; [apply sublist_nil_l|]. split; [apply sublist_nil_l|].
    intros x sv2 st2 e1 Hp2 Hmean _. rewrite Hp in Hp2. injection Hp2 as _ <- <-.
    destruct (meanwhile_queued _ _ Hmean Hi1 Hl1) as (_ & Hrun & h & held & answers & ->).
    eexists. split; [eapply er_local; [exact Hstep|exact Hrun]|]. constructor; [by destruct sv| |done|by cbn; rewrite app_nil_r|done].
    exists []. by rewrite !app_nil_r. }
  apply bind_Done_inv in Hd as ([result c'] & He & Hd). rewrite Hc in He. fold c in He.
  destruct (poll_core_run t c result c' Hw Hin Hb He) as (ops & Hrun & Hr & Hit & Hex).
  exists ops. split; [done|]. split; [done|]. intros x sv2 st2 e1 Hp2 Hmean Hpre. rewrite Hp in Hp2. injection Hp2 as _ <- <-.
  destruct (meanwhile_queued _ _ Hmean Hi1 Hl1) as (Hl2 & Hrun1 & h & held & answers & ->).
  destruct (waited_queued t (set_core sv c') st result r server' store' h Hl1 Hl2 Hd) as (r2 & sv2 & added & Hd2 & Hsame & Hq & Hq2 & Hk).
  destruct (waited_turned _ t ops result c' r2 sv2 store' Hl2) as (e' & Hrun' & Hturned);
    [..|exact Hpre|intros rq Hrq; apply Hnew; unfold new_request; by rewrite Hrq|exact Hd2|by rewrite Hsame in Hclosed|]; [by cbn; rewrite Hc..|done|].
  exists e'. split; [eapply er_local; [exact Hstep|]; by eapply (endpoint_run_app _ [])|].
  eapply turned_requeued; [exact Hturned|done..].
Qed.
End turns.

(** A server whose core drops a response in its queue - nobody asked - and reads a request. *)
Definition sample_talk_builder : RpcBuilder := RpcBuilder_new sample_io_builder.
Definition unasked : QueuedItem () := QResponse (ChannelId_new 1) (Id_new 3) (Some [1; 2]).
Definition turn_start : Endpoint (Permit := ()) (BM := list (IoId * (ChannelId * Id))) (S := Z) (Snd := ListQueue (QueuedItem ()))
    (RSnd := ListQueue (NewOutgoingRequest ())) (C := option Response) (N := bool) :=
  initial_end sample_talk_builder (mkListQueue [unasked] false) (mkListQueue [] false).
Definition sample_turn : RpcTurn () () := mkRpcTurn 7
  [mkSelectPoll false None [InPoll (mkPoll 0 None [] (Some (RecvItems unasked [] false)))];
   mkSelectPoll false None [InPoll (mkPoll 0 None [ReadOk [0; 1]; ReadOk [7; 0]] None)]].

(** C14: the loop of [next_request] consists of the steps of [Endpoint]. Take a turn of the loop on
    an endpoint whose RPC layer and core have their invariants and whose core has not failed, given
    items for channels that exist and bytes that fit the address space. In each poll of its biased
    [select!] the deadline comes first, then the queue of new requests, and the core is polled only
    if neither is ready; so the turn ends by a timeout or a new request, before the core was polled
    or after any number of polls that found nothing to report, or by the core. Other tasks may
    answer requests of the peer while it waits. The turn comes to an end. Unless the core fails in
    it, the steps - first the timeouts, then the answers of other tasks and the operations of the
    core, of which the last may report an event that is handled, and at the end the new request, if
    that branch is taken - lead to the same state: the same server, the same responses for the
    guards, the request of the peer that is returned with the application, and in the queue to the
    core what was put there, less the items the core took. The bytes and the items it used are among
    those offered; the conditions are that these items are the first in the queue, that a new
    request is the first in the client's, and that the clock can tell the time of the next check of
    the timeouts. *)
Theorem next_request_turn_runs {Permit IoError BM S Snd RSnd C N} `{BiMapLaws IoId (ChannelId * Id) BM} `{Semaphore S Permit}
    `{SenderStates Snd (QueuedItem Permit)} `{SenderStates RSnd (NewOutgoingRequest Permit)} `{OnceCellLaws C Response} `{NotifyLaws N}
    (instant_max : Z) (e : Endpoint (Permit := Permit) (BM := BM) (S := S) (Snd := Snd) (RSnd := RSnd) (C := C) (N := N))
    (t : RpcTurn Permit IoError) :
  let c := Rpc.core (ep_server e) in
  rpc_inv (system_of e) → listens e → io_wf c → receiver_closed c = false →
  turn_ok instant_max (len (channels (juliet c))) t →
  len (buffer c) + input_bytes (core_inputs t) + u32_max ≤ usize_max → Z.of_nat (size (pending (ep_server e))) ≤ usize_max →
  (∀ request, new_request t = Some request → ∃ rest, in_queue (ep_client e) = request :: rest) →
  ∃ r server' store', next_request_turn instant_max (ep_server e) (ep_store e) t = Done (r, (server', store')) ∧
  (receiver_closed (Rpc.core server') = false →
   ∃ ops : list (CoreOp Permit IoError), ops_read ops `sublist_of` input_reads (core_inputs t) ∧ ops_items ops `sublist_of` input_items (core_inputs t) ∧
    ∀ x server1 store1 e1,
      process_timeouts instant_max (ep_server e) (ep_store e) (now t) = Done (x, (server1, store1)) →
      rtc (meanwhile instant_max) (serving_on e server1 store1 []) e1 → ops_items ops `prefix_of` io_queue (ep_server e1) →
      ∃ e', endpoint_run instant_max e ops e' ∧ turned_to e1 e' r server' store' (io_queue server1) (ops_items ops)).
Proof.
  intros c Hi Hl Hw Ho Hok Hb Hsize Hnew. pose proof (len_nonneg (buffer c)) as Hb0.
  assert (good (juliet c) (len (buffer c)) c) as Hg by (split; [done|split; [done|lia]]).
  destruct (turn_returns instant_max (juliet c) (len (buffer c)) (system_of e) (ep_server e) t Hi eq_refl Hg Hb0 Hok Hb Hsize Hnew)
    as ([r [server' store']] & Hd & _).
  exists r, server', store'. split; [exact Hd|]. intros Hclosed. pose proof (proj1 Hok). by eapply turn_runs.
Qed.

Lemma next_request_turn_runs_witness :
  ∃ r server' store' (ops : list (CoreOp () ())) e',
    next_request_turn (2 ^ 63) (ep_server turn_start) (ep_store turn_start) sample_turn = Done (r, (server', store')) ∧
    endpoint_run (2 ^ 63) turn_start ops e' ∧ same_but_queue server' (ep_server e') ∧ ep_store e' = store' ∧
    ep_held e' = [(ChannelId_new 1, Id_new 7, None)].
Proof.
  assert (match next_request_turn (2 ^ 63) (ep_server turn_start) (ep_store turn_start) sample_turn with
    | Done (Some (Ok (Some r)), (server', _)) => kept_of (Some r) = [(ChannelId_new 1, Id_new 7, None)] ∧ receiver_closed (core server') = false
    | _ => False end) as Hok by (vm_compute; done).
  destruct (next_request_turn_runs (2 ^ 63) turn_start sample_turn) as (r & server' & store' & Ht & Hrun);
    [by apply rpc_init_inv|done|exact sample_core_wf|done| |vm_compute; discriminate|vm_compute; discriminate|done|].
  { repeat constructor; vm_compute; discriminate. }
  rewrite Ht in Hok. destruct r as [[|[request|]]|]; try done. destruct Hok as [Hk Ho]. destruct (Hrun Ho) as (ops & _ & Hit & Hruns).
  destruct (process_timeouts (2 ^ 63) (ep_server turn_start) (ep_store turn_start) (now sample_turn)) as [[x [sv st]]| |] eqn:Hp; [|done..].
  destruct (Hruns x sv st (serving_on turn_start sv st []) eq_refl (rtc_refl _ _)) as (e' & Hrun' & Hturned).
  - vm_compute in Hp. injection Hp as _ <- _. change (input_items _) with [unasked] in Hit.
    apply sublist_cons_r in Hit as [->%sublist_nil_r|(l & -> & ->%sublist_nil_r)]; [apply prefix_nil|done].
  - do 3 eexists. exists ops, e'. split; [exact Ht|]. split; [done|]. destruct Hturned as [? _ ? Hh _]. split; [done|]. split; [done|].
    rewrite Hh. by rewrite <- Hk.
Defined.
