(* ===== verification/Conversation.v ===== *)
(** * Two endpoints

    Two endpoints of the RPC layer whose cores are connected by two streams of bytes: the whole
    of the library, with an application on either side.  A run of them, seen at the cores, is
    a run of [Dialogue]; seen at the guards, it is requests and the answers of the other
    application to them. *)
From stdpp Require Import strings relations.
From S2P Require Import Prelude Lib Varint Header FrameSize OutgoingMessage WireFormat Multiframe Protocol ProtocolInv Io Rpc Instances.
From S2P Require Import IoSafe CoreOps Peers Transfer Flow Duplex Stream Link Permits RpcSpec RpcSystem Cores Waiting Calls Dialogue Endpoint Turns.
From stdpp Require Import options.

Section conversation.
Context {Permit IoError BM S Snd RSnd C N : Type} `{BiMapLaws IoId (ChannelId * Id) BM} `{Semaphore S Permit}.
Context `{SenderLaws Snd (QueuedItem Permit)} `{SenderLaws RSnd (NewOutgoingRequest Permit)}.
Context `{OnceCellLaws C Response} `{NotifyLaws N} (instant_max : Z).
#[local] Set Default Proof Using "Type*".
Abbreviation CoreSide := (Side (Permit := Permit) (BM := BM)).
Abbreviation End := (Endpoint (Permit := Permit) (BM := BM) (S := S) (Snd := Snd) (RSnd := RSnd) (C := C) (N := N)).
Implicit Types (op : CoreOp Permit IoError) (a b : CoreSide) (e : End).

(** ** The system *)

(** The two sides, with the messages and the calls of either direction. *)
Record Conversation := mkConversation {
  sent_to : list Event; sent_back : list Event;
  own_calls : list CallEvent; their_calls : list CallEvent;
  near : CoreSide; far : CoreSide;
  near_end : End; far_end : End;
}.
Definition turned (v : Conversation) : Conversation :=
  mkConversation (sent_back v) (sent_to v) (their_calls v) (own_calls v) (far v) (near v) (far_end v) (near_end v).

(** What the application has to see to: its payloads fit the limits of their channels, it sends no
    error of its own, and a cancellation - also that of a timeout - comes at most once, and not while
    the request is being sent in several frames. *)
Definition heeds a op : Prop :=
  match op with
  | OpItem (QRequestCancellation io) _ => may_queue (core a) (answerable a) (withdrawn a) (QRequestCancellation io)
  | OpItem item _ => item_fits (juliet (core a)) item
  | _ => True
  end.
(** A parse sends no request under the id whose answer it has just read. *)
Definition unambiguous op (c c' : IoCore Permit BM) : Prop :=
  ∀ r read ch id answer, op = OpParse r → parsed c = Some read → read_answer read = Some (ch, id, answer) →
    (ch, id) ∉ omap request_key (sent_by op c c').

Inductive near_step : Conversation → Conversation → Prop :=
  | near_local v e' : local_step instant_max (near_end v) e' →
      near_step v (mkConversation (sent_to v) (sent_back v) (own_calls v) (their_calls v) (near v) (far v) e' (far_end v))
  | near_core v op c' e' : core_step (core (near v)) op c' → heeds (near v) op → op_taken op `prefix_of` in_transit (far v) →
      unambiguous op (core (near v)) c' → core_turn (near_end v) op c' e' →
      near_step v (mkConversation (sent_to v ++ map Sent (sent_by op (core (near v)) c'))
        (sent_back v ++ reported_by op (core (near v)))
        (own_calls v ++ asking op (core (near v)) c') (their_calls v ++ serving op)
        (acting (near v) op c') (beside (far v) op) e' (far_end v)).
Definition conversation_step (v w : Conversation) : Prop := near_step v w ∨ near_step (turned v) (turned w).

(** ** The invariant *)

Record conversing m a0 b0 (v : Conversation) : Prop := {
  cv_calls : calls_run (IoError := IoError) a0 b0 (sent_to v) (sent_back v) (own_calls v) (their_calls v) (near v) (far v);
  cv_near : asks (near_end v) (own_calls v);
  cv_far : asks (far_end v) (their_calls v);
  cv_tracks : ∃ pa pb la lb s s', joined m (near v) (far v) pa pb la lb ∧
    call_run ∅ (own_calls v) s ∧ call_run ∅ (their_calls v) s' ∧
    tracks (near v) (far v) la lb s ∧ tracks (far v) (near v) lb la s' ∧
    serves (near_end v) s' (their_calls v) ∧ serves (far_end v) s (own_calls v) ∧
    hears (near_end v) s' ∧ hears (far_end v) s;
  cv_core : Rpc.core (ep_server (near_end v)) = core (near v) ∧ Rpc.core (ep_server (far_end v)) = core (far v);
  cv_open : (listens (near_end v) ∧ receiver_closed (core (near v)) = false) ∧
    listens (far_end v) ∧ receiver_closed (core (far v)) = false;
}.
Lemma calls_run_turned a0 b0 tr tr' log log' a b : calls_run (IoError := IoError) a0 b0 tr tr' log log' a b →
  calls_run (IoError := IoError) b0 a0 tr' tr log' log b a.
Proof. induction 1; [constructor|by apply calls_there|by apply calls_here]. Qed.
Lemma conversing_turned m a0 b0 v : conversing m a0 b0 v → conversing m b0 a0 (turned v).
Proof.
  intros [V1 V2 V3 (pa & pb & la & lb & s & s' & Hj & ? & ? & ? & ? & ? & ? & ? & ?) [] []]. constructor; try done.
  - by apply calls_run_turned.
  - exists pb, pa, lb, la, s', s. split; [by apply joined_sym|done].
Qed.

Lemma turn_item e op c' e' item r : core_turn e op c' e' → op = OpItem item r → ∃ rest, io_queue (ep_server e) = item :: rest.
Proof.
  intros Ht Hop. destruct Ht as [e it rest r0 c' queue' Hq _ _| |e op c' queue' _ _ Hno _]; [injection Hop as -> ->; by exists rest|done|by subst].
Qed.
(** The conditions of [Dialogue] hold. *)
Lemma heeds_allowed m a b e e' op c' pa pb la lb s log : joined m a b pa pb la lb → tracks b a lb la s → serves e s log →
  core_turn e op c' e' → heeds a op → op_taken op `prefix_of` in_transit b → allowed a b op.
Proof.
  intros Hj Ht Hs Hturn Hh Hp. destruct op as [r| |bs|bs r|bs|item r|w]; try done.
  destruct (turn_item _ _ _ _ _ _ Hturn eq_refl) as [rest Hq].
  assert (∀ ch id an, answer_given item = Some (ch, id, an) → id ∈ answerable a ch) as Hans.
  { intros ch id an Hg. destruct (sv_queued _ _ _ Hs ch id an) as (io & ? & Hio & _).
    - rewrite Hq. cbn [omap list_omap]. rewrite Hg. by left.
    - apply (tr_told _ _ _ _ _ _ Ht). by exists io. }
  destruct item; cbn [allowed heeds may_queue] in *; try done; (split; [by eapply Hans|done]).
Qed.
Lemma turn_distinct e log op c c' e' : asks e log → core_turn e op c' e' → unambiguous op c c' → distinct op c c' log.
Proof.
  intros Ha Hturn Hu. split; [|exact Hu]. intros ch io payload permit r -> ch' pl Hin.
  destruct (turn_item _ _ _ _ _ _ Hturn eq_refl) as [rest Hq]. pose proof (taken_distinct _ _ Ha) as Hnd.
  unfold calls_taken in Hnd. rewrite Hq, fmap_app in Hnd. cbn [omap list_omap request_of fmap list_fmap fst] in Hnd.
  apply NoDup_app in Hnd as (_ & Hno & _). apply (Hno io); [|by left]. apply list_elem_of_fmap. exists (io, (ch', pl)).
  split; [done|]. by apply calls_in_elem.
Qed.

Lemma near_step_conversing m a0 b0 v w : conversing m a0 b0 v → near_step v w → conversing m a0 b0 w.
Proof.
  intros [Hcalls Hna Hfa (pa & pb & la & lb & s & s' & Hj & Hlog & Hlog' & Ht & Ht' & Hs & Hs' & Hh1 & Hh2) [Hc Hc'] [[Hl1 Ho1] [Hl2 Ho2]]] Hstep.
  destruct Hstep as [v e' Hl|v op c' e' Hcs Hh Hp Hu Hturn].
  - constructor; try done.
    + by eapply local_step_asks.
    + exists pa, pb, la, lb, s, s'. split_and!; try done; [eapply local_step_serves|eapply local_step_hears]; try apply Hna; done.
    + split; [|done]. cbn [near_end near]. rewrite <- Hc. eapply local_step_core; [apply Hna|done].
    + split; [|done]. split; [|done]. eapply local_step_listens; [apply Hna|done|done].
  - pose proof (heeds_allowed _ _ _ _ _ _ _ _ _ _ _ _ _ Hj Ht' Hs Hturn Hh Hp) as Hal.
    pose proof (turn_distinct _ _ _ (core (near v)) _ _ Hna Hturn Hu) as Hd.
    destruct (joined_step m (near v) (far v) pa pb la lb op c' Hj Hcs Hal) as (pa' & pb' & la' & lb' & Hj' & -> & Htr & _).
    destruct (step_moves m (near v) (far v) pa pb la lb op c' Hj Hcs Hal) as [map Hm].
    destruct (asking_step m (near v) (far v) pa pb la lb pa' pb' lb' op c' map (own_calls v) s) as (s1 & Hr & Ht1); [done..|].
    destruct (serving_step m (near v) (far v) pa pb la lb pa' pb' lb' op c' map s') as (s1' & Hr' & Ht1'); [done..|].
    constructor; cbn [sent_to sent_back own_calls their_calls near far near_end far_end].
    + by apply calls_here.
    + by eapply core_turn_asks.
    + by apply asks_serving.
    + exists pa', pb', (la ++ sent_by op (core (near v)) c'), lb', s1, s1'. split; [done|]. split; [by eapply call_run_app|].
      split; [by eapply call_run_app|]. split; [done|]. split; [done|].
      split; [by eapply core_turn_serves|]. split; [eapply serves_own_run; [done..|apply asking_own]|].
      split; [by eapply core_turn_hears|]. eapply own_run_hears; [done|apply asking_own|done].
    + split; [by eapply core_turn_core|done].
    + assert (receiver_closed c' = false) as Hop.
      { destruct (jn_here _ _ _ _ _ _ _ Hj) as [? Hl], (jn_here _ _ _ _ _ _ _ Hj') as [? Hl'].
        rewrite (core_step_open _ _ _ Hcs); [done|apply Hl|apply Hl']. }
      split; [|done]. split; [by eapply core_turn_listens|done].
Qed.
Lemma conversation_conversing m a0 b0 v w : conversing m a0 b0 v → rtc conversation_step v w → conversing m a0 b0 w.
Proof.
  intros Hv Hrun. induction Hrun as [v|v w w' [Hs|Hs] _ IH]; [done|..]; apply IH.
  - by eapply near_step_conversing.
  - apply conversing_turned in Hv. pose proof (near_step_conversing _ _ _ _ _ Hv Hs) as Hw. apply conversing_turned in Hw.
    by destruct w.
Qed.

(** ** The start *)

Definition initial_conversation (ba bb : RpcBuilder) (qa qb : Snd) (ra rb : RSnd) : Conversation :=
  mkConversation [] [] [] [] (initial_side (S := S) (rpc_core ba) qa) (initial_side (S := S) (rpc_core bb) qb)
    (initial_end ba qa ra) (initial_end bb qb rb).
Definition built_alike (p : ProtocolBuilder) (ba bb : RpcBuilder) : Prop :=
  protocol (rpc_core ba) = p ∧ protocol (rpc_core bb) = p ∧ Forall ChannelConfiguration_wf (pb_channel_config p) ∧
  len (pb_channel_config p) ≤ 256 ∧ MaxFrameSize_wf (pb_max_frame_size p).
Lemma initial_conversing p ba bb (qa qb : Snd) (ra rb : RSnd) : built_alike p ba bb → Io.queued qa = [] → Io.queued qb = [] →
  Io.queued ra = [] → Io.queued rb = [] → closed qa = false → closed qb = false →
  conversing (pb_max_frame_size p) (initial_side (S := S) (rpc_core ba) qa) (initial_side (S := S) (rpc_core bb) qb)
    (initial_conversation ba bb qa qb ra rb).
Proof.
  intros (<- & Hp & Hc & Hn & Hm) Hqa Hqb Hra Hrb Hca Hcb. constructor; try by apply initial_asks.
  - constructor.
  - do 2 eexists. exists [], [], ∅, ∅. split; [by apply (Cores.initial_joined (S := S) (rpc_core ba) (rpc_core bb) qa qb)|].
    split; [constructor|]. split; [constructor|]. split; [apply initial_tracks|]. split; [apply initial_tracks|].
    split; [by apply initial_serves|]. split; [by apply initial_serves|]. by split; intros io ch id Hio; rewrite lookup_empty in Hio.
  - done.
  - done.
Qed.

(** ** What a guard got *)

Lemma guard_response m a0 b0 v g payload : conversing m a0 b0 v → inner g ∈ ep_issued (near_end v) →
  try_get_response (ep_store (near_end v)) g = Done (Ok (Ok payload)) →
  ∃ request id, request ∈ made (near_end v) ∧ guard request = inner g ∧
    let io := rt_io_id (ticket request) in let ch := rt_channel (ticket request) in
    [CeCall io ch (no_payload request); CeSend ch id (no_payload request); CeTell ch id (no_payload request);
     CeAnswer ch id (Some payload)] `sublist_of` own_calls v ∧
    CeReturn io (Some payload) ∈ own_calls v ∧
    ((ch, id, no_payload request), Some payload) ∈ given (far_end v).
Proof.
  intros [_ Ha _ (pa & pb & la & lb & s & s' & _ & Hlog & _ & _ & _ & _ & Hs & _) _ _] Hg Ht.
  apply try_get_answer in Ht.
  destruct (ak_issued _ _ Ha _ Hg) as [(request & Hin & Hgd)|[err Herr]]; [|congruence].
  rewrite <- Hgd in Ht. pose proof (ak_answers _ _ Ha _ _ Hin Ht) as Hret.
  destruct (sv_finished _ _ _ Hs _ _ (call_run_returned _ _ _ _ Hlog Hret)) as (ch & id & pl & Hsub & Hgiven).
  assert (CeCall (rt_io_id (ticket request)) ch pl ∈ own_calls v) as Hcall by (eapply elem_of_sublist; [|exact Hsub]; by left).
  destruct (call_made _ _ _ _ _ _ Ha Hcall Hin eq_refl) as [<- <-]. exists request, id. by split_and!.
Qed.

Lemma rest_answerable m a0 b0 v ch : conversing m a0 b0 v → io_queue (ep_server (far_end v)) = [] → ep_held (far_end v) = [] →
  answerable (far v) ch = ∅.
Proof.
  intros [_ _ _ (pa & pb & la & lb & s & s' & _ & _ & _ & Ht & _ & _ & _ & _ & Hh) _ _] Hq Hhd. apply set_eq. intros id. split; [|set_solver].
  intros [io Hio]%(tr_told _ _ _ _ _ _ Ht). apply Hh in Hio. unfold held_keys in Hio. rewrite Hq, Hhd in Hio. by apply elem_of_nil in Hio.
Qed.
(** A request whose call was returned is answered. *)
Lemma guard_resolved m a0 b0 v request : conversing m a0 b0 v → request ∈ made (near_end v) → guard request ∈ ep_issued (near_end v) →
  in_queue (ep_client (near_end v)) = [] → io_queue (ep_server (near_end v)) = [] →
  (CeCall (rt_io_id (ticket request)) (rt_channel (ticket request)) (no_payload request) ∈ own_calls v →
   ∃ answer, CeReturn (rt_io_id (ticket request)) answer ∈ own_calls v) →
  ∃ answer, answered (ep_store (near_end v)) (guard request) answer.
Proof.
  intros [_ Ha _ _ _ _] Hin Hiss Hq Hio Hret. destruct (ri_issued _ (ak_rpc _ _ Ha) _ Hiss) as [Hw|[w Hans]].
  2: { by exists w. }
  exfalso. apply elem_of_waiting in Hw as [(r & Hr & _)|(server & io & [= <-] & Hp)]; [cbn [system_of sys_client] in Hr; rewrite Hq in Hr; by apply elem_of_nil in Hr|].
  destruct (ak_pending _ _ Ha _ _ Hp) as [(r & Hr & Hid & Hg & Hc) Hno].
  assert (r = request) as -> by (eapply (NoDup_map_inj guard); [apply (ak_guards _ _ Ha)|done..]).
  unfold calls_taken in Hc. rewrite Hio, app_nil_r in Hc. apply calls_in_elem in Hc. destruct (Hret Hc) as [w Hr']. subst io.
  by eapply Hno.
Qed.
End conversation.

(** ** Running the system *)

Section play.
Context {Permit IoError BM S C N : Type} `{BiMapLaws IoId (ChannelId * Id) BM} `{Semaphore S Permit}.
Context `{OnceCellLaws C Response} `{NotifyLaws N} (instant_max : Z).
#[local] Set Default Proof Using "Type*".
Abbreviation Talk := (Conversation (Permit := Permit) (BM := BM) (S := S) (Snd := ListQueue (QueuedItem Permit))
  (RSnd := ListQueue (NewOutgoingRequest Permit)) (C := C) (N := N)).
Implicit Types (v w : Talk) (op : CoreOp Permit IoError).

(** A step to take: its outcome is computed. *)
Inductive Move :=
  | MvRequest (rq : JulietRpcRequestBuilder) (now : Z)
  | MvTake
  | MvItem
  | MvCore (t : Turn (Permit := Permit))
  | MvRespond (payload : option bytes).

Definition with_end v e : Talk :=
  mkConversation (sent_to v) (sent_back v) (own_calls v) (their_calls v) (near v) (far v) e (far_end v).
Definition after_core v op (c' : IoCore Permit BM) e : Talk :=
  mkConversation (sent_to v ++ map Sent (sent_by op (core (near v)) c')) (sent_back v ++ reported_by op (core (near v)))
    (own_calls v ++ asking op (core (near v)) c') (their_calls v ++ serving op) (acting (near v) op c') (beside (far v) op) e (far_end v).
Definition unambiguousb op (c c' : IoCore Permit BM) : bool :=
  match op, parsed c ≫= read_answer with
  | OpParse _, Some (k, _) => bool_decide (k ∉ omap request_key (sent_by op c c'))
  | _, _ => true
  end.
Lemma unambiguousb_ok op (c c' : IoCore Permit BM) : unambiguousb op c c' = true → unambiguous op c c'.
Proof.
  intros Hu r read ch id an -> Hp Ha. unfold unambiguousb in Hu. rewrite Hp in Hu. cbn [mbind option_bind] in Hu. rewrite Ha in Hu.
  by apply bool_decide_eq_true in Hu.
Qed.
Definition item_fitsb (p : JulietProtocol) (item : QueuedItem Permit) : bool :=
  match item with
  | QRequest ch _ (Some payload) _ => payload_fits max_request_payload_size p ch payload
  | QResponse ch _ (Some payload) => payload_fits max_response_payload_size p ch payload
  | _ => false
  end.
Lemma item_fitsb_ok (a : Side) item r : item_fitsb (juliet (core a)) item = true → heeds a (OpItem (IoError := IoError) item r).
Proof. destruct item as [ch io [pl|] permit| |ch id [pl|]| |]; try done; apply payload_fits_ok. Qed.

(** What a turn of the core leaves of the endpoint. *)
Definition turn_end (e : Endpoint (Permit := Permit) (BM := BM) (S := S) (Snd := ListQueue (QueuedItem Permit))
    (RSnd := ListQueue (NewOutgoingRequest Permit)) (C := C) (N := N)) op (c' : IoCore Permit BM) :=
  let server queue := with_queue (set_core (ep_server e) c') (mkListQueue queue (receiver_closed c')) in
  let left queue := Some (mkEndpoint (ep_client e) (server queue) (ep_store e) (ep_issued e) (ep_held e) (made e) (given e)) in
  match op with
  | OpItem item _ => match io_queue (ep_server e) with _ :: rest => left rest | [] => None end
  | OpParse (Some (Ok (Some event))) =>
      match handle_event (server (io_queue (ep_server e))) (ep_store e) event with
      | Done (request, (server', store')) => Some (mkEndpoint (ep_client e) server' store' (ep_issued e)
          (ep_held e ++ match request with Some r => [(ir_channel r, ir_id r, ir_payload r)] | None => [] end) (made e) (given e))
      | _ => None
      end
  | _ => left (io_queue (ep_server e))
  end.
Definition quiet_turn (t : Turn (Permit := Permit)) : bool :=
  match t with TRequest _ _ _ _ | TRespond _ _ _ => false | _ => true end.

Definition take_move v (mv : Move) : option Talk :=
  let e := near_end v in
  match mv with
  | MvRequest rq now =>
      if next_io_id (request_handle (ep_client e)) + 1 <? 2 ^ 64 then
        match queue_for_sending instant_max rq now (ep_client e) (ep_store e) with
        | Done (Some g, (client', store')) => Some (with_end v (mkEndpoint client' (ep_server e) store' ({[inner g]} ∪ ep_issued e)
            (ep_held e) (made e ++ newly_made (ep_client e) client') (given e)))
        | _ => None
        end
      else None
  | MvTake =>
      match in_queue (ep_client e) with
      | request :: rest =>
          match take_new_request (ep_server e) (ep_store e) request with
          | Done (server', store') => Some (with_end v (mkEndpoint
              (set_sender (ep_client e) (mkListQueue rest (lq_closed (new_request_sender (ep_client e))))) server' store'
              (ep_issued e) (ep_held e) (made e) (given e)))
          | _ => None
          end
      | [] => None
      end
  | MvItem =>
      match io_queue (ep_server e) with
      | item :: _ =>
          if item_fitsb (juliet (core (near v))) item then
            '(op, c') ← perform_item (IoError := IoError) (near v) item;
            after_core v op c' <$> turn_end e op c'
          else None
      | [] => None
      end
  | MvCore t =>
      '(op, c') ← perform (IoError := IoError) (near v) t (in_transit (far v));
      if quiet_turn t && unambiguousb op (core (near v)) c' then after_core v op c' <$> turn_end e op c' else None
  | MvRespond payload =>
      match ep_held e with
      | (ch, id, pl) :: held2 =>
          match end_request (mkIncomingRequest ch id pl (Some (handle (ep_server e)))) (EndRespond payload) with
          | Done (Some h', _) => Some (with_end v (mkEndpoint (ep_client e) (set_handle (ep_server e) h') (ep_store e) (ep_issued e)
              held2 (made e) (given e ++ [((ch, id, pl), Some payload)])))
          | _ => None
          end
      | [] => None
      end
  end.

Lemma turn_end_turn e op c' e' : turn_end e op c' = Some e' →
  (∀ item r, op = OpItem item r → ∃ rest, io_queue (ep_server e) = item :: rest) → core_turn e op c' e'.
Proof.
  intros Ht Hitem.
  assert (∀ o, op = o → ops_items [o] = [] → (∀ event, o ≠ OpParse (Some (Ok (Some event)))) →
    Some (mkEndpoint (ep_client e) (with_queue (set_core (ep_server e) c') (mkListQueue (io_queue (ep_server e)) (receiver_closed c')))
      (ep_store e) (ep_issued e) (ep_held e) (made e) (given e)) = Some e' → core_turn e op c' e') as Hquiet.
  { intros o -> Ho Hne [= <-]. by apply ep_quiet. }
  destruct op as [r| |bs|bs r|bs|item r|w0]; cbn [turn_end] in Ht; try by eapply Hquiet.
  - destruct r as [[err|[event|]]|]; try by eapply Hquiet.
    destruct (handle_event _ _ _) as [[request [server' store']]| |] eqn:He; [|done..]. injection Ht as <-.
    by apply (ep_event _ _ _ _ _ _ (mkListQueue (io_queue (ep_server e)) (receiver_closed c'))).
  - destruct (Hitem item r eq_refl) as [rest Hq]. rewrite Hq in Ht. injection Ht as <-. by eapply ep_item.
Qed.
Lemma take_move_step v mv w : take_move v mv = Some w → near_step (IoError := IoError) instant_max v w.
Proof.
  destruct mv as [rq now| | |t|payload]; cbn [take_move]; intros Hm.
  - destruct (Z.ltb_spec (next_io_id (request_handle (ep_client (near_end v))) + 1) (2 ^ 64)) as [Hlt|]; [|done].
    destruct (queue_for_sending _ _ _ _ _) as [[[g|] [client' store']]| |] eqn:Hq; [|done..]. injection Hm as <-.
    eapply near_local, (ep_queued _ _ rq now); [done|by left].
  - destruct (in_queue (ep_client (near_end v))) as [|request rest] eqn:Hq; [done|].
    destruct (take_new_request _ _ _) as [[server' store']| |] eqn:Ht; [|done..]. injection Hm as <-. by eapply near_local, ep_taken.
  - destruct (io_queue (ep_server (near_end v))) as [|item rest] eqn:Hq; [done|]. destruct (item_fitsb _ _) eqn:Hf; [|done].
    unfold perform_item in Hm. destruct (handle_incoming_item _ _) as [[r c']| |] eqn:Hh; [|done..]. cbn [mbind option_bind] in Hm.
    destruct (turn_end _ _ _) as [e'|] eqn:Ht; [|done]. injection Hm as <-. apply near_core.
    + by constructor.
    + by apply item_fitsb_ok.
    + apply prefix_nil.
    + done.
    + apply turn_end_turn; [done|]. intros item' r' [= <- <-]. by exists rest.
  - destruct (perform _ _ _) as [[op c']|] eqn:Hp; [|done]. cbn [mbind option_bind] in Hm.
    destruct (quiet_turn t) eqn:Hqt; [|done]. cbn [andb] in Hm. destruct (unambiguousb _ _ _) eqn:Hu; [|done].
    destruct (turn_end _ _ _) as [e'|] eqn:Ht; [|done]. injection Hm as <-. apply unambiguousb_ok in Hu.
    assert (∀ item r, op ≠ OpItem item r) as Hno.
    { intros item r ->. destruct t; try done; cbn [perform] in Hp.
      - destruct (pending_error _); [done|]. by destruct (parse_step _) as [[]| |].
      - destruct (current_frame _); [done|]. destruct (ready_queue _); [done|]. by destruct (ready_next_frame _) as [[[|[]] ?]| |].
      - destruct (current_frame _) as [[]|]; [|done]. destruct (OutgoingFrame_advance _ _); [|done..]. by destruct (write_branch _ _) as [[]| |]. }
    destruct (perform_step (near v) (far v) t op c' Hp) as [Hs Hal]. apply near_core; try done.
    + by destruct op; try done; destruct (Hno item r).
    + destruct op; try apply prefix_nil. exact Hal.
    + apply turn_end_turn; [done|]. intros item r ->. by destruct (Hno item r).
  - destruct (ep_held (near_end v)) as [|[[ch id] pl] held2] eqn:Hh; [done|].
    destruct (end_request _ _) as [[[h'|] r']| |] eqn:He; [|done..]. injection Hm as <-.
    by apply near_local, (ep_answered _ _ [] ch id pl held2 (EndRespond payload) h' r').
Qed.

(** [true]: it is the near end's move. *)
Fixpoint play (moves : list (bool * Move)) v : option Talk :=
  match moves with
  | [] => Some v
  | (true, mv) :: moves => take_move v mv ≫= play moves
  | (false, mv) :: moves => take_move (turned v) mv ≫= λ w, play moves (turned w)
  end.
Lemma play_run moves : ∀ v w, play moves v = Some w → rtc (conversation_step (IoError := IoError) instant_max) v w.
Proof.
  induction moves as [|[[] mv] moves IH]; intros v w Hp; cbn [play] in Hp.
  - injection Hp as ->. constructor.
  - destruct (take_move v mv) as [v1|] eqn:Hm; [|done]. eapply rtc_l; [|by apply IH]. left. by eapply take_move_step.
  - destruct (take_move (turned v) mv) as [v1|] eqn:Hm; [|done]. eapply rtc_l; [|by apply IH]. right. apply take_move_step in Hm.
    by destruct v1.
Qed.
End play.

(** ** A conversation

    One end asks twice, once in several frames; the other answers the second request first. *)
Abbreviation SampleTalk := (Conversation (Permit := ()) (BM := list (IoId * (ChannelId * Id))) (S := Z) (Snd := ListQueue (QueuedItem ()))
  (RSnd := ListQueue (NewOutgoingRequest ())) (C := option Response) (N := bool)).
Definition talk_start : SampleTalk := initial_conversation sample_talk_builder sample_talk_builder
  (mkListQueue [] false) (mkListQueue [] false) (mkListQueue [] false) (mkListQueue [] false).
Definition long_payload : bytes := [1; 2; 3; 4; 5; 6; 7; 8; 9; 10; 11; 12].
Definition long_request : JulietRpcRequestBuilder := mkJulietRpcRequestBuilder (ChannelId_new 0) (Some long_payload) (Some 100).
Definition short_request : JulietRpcRequestBuilder := mkJulietRpcRequestBuilder (ChannelId_new 1) (Some [5; 5]) None.
Definition frames_out (n : nat) (side : bool) : list (bool * Move (Permit := ())) :=
  concat (replicate n [(side, MvCore TReady); (side, MvCore TWritten)]).
Definition talk_moves : list (bool * Move (Permit := ())) :=
  [(true, MvRequest long_request 7); (true, MvRequest short_request 8); (true, MvTake); (true, MvTake); (true, MvItem); (true, MvItem)] ++
  frames_out 4 true ++ [(false, MvCore (TRead 100)); (false, MvCore TParse); (false, MvCore TParse)] ++
  [(false, MvRespond (Some [7])); (false, MvRespond (Some [8; 8])); (false, MvItem); (false, MvItem)] ++
  frames_out 2 false ++ [(true, MvCore (TRead 100)); (true, MvCore TParse); (true, MvCore TParse)].
Definition talk : option SampleTalk := play (IoError := ()) (2 ^ 63) talk_moves talk_start.

Definition cancelled_response (e : Event) : bool :=
  match e with Reported (ResponseCancellation _ _) => true | _ => false end.
(** What it comes to: all is at rest and both guards have their response. *)
Lemma talk_ok :
  match talk with
  | Some v =>
      let e := near_end v in
      made e = [mkNewOutgoingRequest (mkRequestTicket (ChannelId_new 0) () (mkIoId 0)) 0 (Some long_payload) (Some 107);
        mkNewOutgoingRequest (mkRequestTicket (ChannelId_new 1) () (mkIoId 1)) 1 (Some [5; 5]) None] ∧
      bool_decide ({[0%nat; 1%nat]} ⊆ ep_issued e) = true ∧
      map (try_get_response (ep_store e)) [mkRequestGuard 0; mkRequestGuard 1] = [Done (Ok (Ok (Some [8; 8]))); Done (Ok (Ok (Some [7])))] ∧
      (drained (near v) (far v) ∧ drained (far v) (near v)) ∧
      (io_queue (ep_server e) = [] ∧ io_queue (ep_server (far_end v)) = [] ∧ in_queue (ep_client e) = [] ∧ ep_held (far_end v) = []) ∧
      (λ chn, request_limit (config chn)) <$> channels (juliet (core (near v))) !! 0%nat = Some 2 ∧
      forallb (negb ∘ cancelled_response) (sent_to v ++ sent_back v) = true
  | None => False
  end.
Proof. vm_compute. done. Qed.

Lemma talk_run v : talk = Some v → rtc (conversation_step (IoError := ()) (2 ^ 63)) talk_start v.
Proof. apply play_run. Qed.
Lemma sample_built_alike : built_alike (protocol sample_io_builder) sample_talk_builder sample_talk_builder.
Proof. split_and!; try done. exact demo_configured. Qed.

(** ** Claims *)

(** C4: the response an application gets is the other application's answer to its request. Take two
    endpoints - client, server and core - built with the same protocol configuration and connected
    by two streams of bytes. They run in any interleaving of these steps: applications queue
    requests, wait for responses, forget guards, and answer or drop the requests they are handed,
    each once; servers take requests, pass events on and time requests out; cores do any of their
    operations with any partial read and write. The runs meant keep to four conditions. Every
    request and response a core takes fits the payload limit of a channel there is, and no custom
    errors are queued. The cancellation of a request - which a timeout queues - is taken at most
    once while it is outstanding, and not while a message with its channel and id is being sent in
    several frames, as that would corrupt the stream. A parse that reads an answer does not send a
    waiting request under the id just answered, as the response would then be reported for that one.
    And neither server is dropped, nor does the 64-bit counter of request ids wrap around. Then,
    when a guard in the application's hands has a response, there is exactly one request with that
    guard; it was called, sent, reported to the other application, and answered, in this order; and
    the response is what the other application answered precisely this request with, as it was made. *)
Theorem responses_are_answers {Permit IoError BM S Snd RSnd C N} `{BiMapLaws IoId (ChannelId * Id) BM} `{Semaphore S Permit}
    `{SenderLaws Snd (QueuedItem Permit)} `{SenderLaws RSnd (NewOutgoingRequest Permit)} `{OnceCellLaws C Response} `{NotifyLaws N}
    (instant_max : Z) (p : ProtocolBuilder) (ba bb : RpcBuilder) (qa qb : Snd) (ra rb : RSnd)
    (v : Conversation (Permit := Permit) (BM := BM) (S := S) (Snd := Snd) (RSnd := RSnd) (C := C) (N := N))
    (g : RequestGuard) (payload : option bytes) :
  built_alike p ba bb → Io.queued qa = [] → Io.queued qb = [] → Io.queued ra = [] → Io.queued rb = [] →
  closed qa = false → closed qb = false →
  rtc (conversation_step (IoError := IoError) instant_max) (initial_conversation ba bb qa qb ra rb) v →
  inner g ∈ ep_issued (near_end v) → try_get_response (ep_store (near_end v)) g = Done (Ok (Ok payload)) →
  ∃ request id, request ∈ made (near_end v) ∧ guard request = inner g ∧
    (∀ other, other ∈ made (near_end v) → guard other = inner g → other = request) ∧
    let io := rt_io_id (ticket request) in let ch := rt_channel (ticket request) in
    [CeCall io ch (no_payload request); CeSend ch id (no_payload request); CeTell ch id (no_payload request);
     CeAnswer ch id (Some payload)] `sublist_of` own_calls v ∧
    ((ch, id, no_payload request), Some payload) ∈ given (far_end v).
Proof.
  intros Hb Hqa Hqb Hra Hrb Hca Hcb Hrun Hg Ht.
  pose proof (conversation_conversing _ _ _ _ _ _ (initial_conversing p ba bb qa qb ra rb Hb Hqa Hqb Hra Hrb Hca Hcb) Hrun) as Hv.
  destruct (guard_response _ _ _ _ _ _ Hv Hg Ht) as (request & id & Hin & Hgd & Hsub & _ & Hgiven).
  exists request, id. split_and!; try done. intros other Hin' Hgd'.
  eapply (NoDup_map_inj guard); [apply (ak_guards _ _ (cv_near _ _ _ _ Hv))|done..|congruence].
Qed.
Lemma responses_are_answers_witness :
  match talk with
  | Some v => ∃ (request : NewOutgoingRequest ()) id, guard request = 0%nat ∧
      ((rt_channel (ticket request), id, no_payload request), Some (Some [8; 8])) ∈ given (far_end v)
  | None => False
  end.
Proof.
  pose proof talk_ok as Hok. pose proof talk_run as Hrun. destruct talk as [v|]; [|done].
  destruct Hok as (_ & Hiss%bool_decide_eq_true & Hresp & _). injection Hresp as Hresp _.
  destruct (responses_are_answers (IoError := ()) (2 ^ 63) (protocol sample_io_builder) sample_talk_builder sample_talk_builder
    (mkListQueue [] false) (mkListQueue [] false) (mkListQueue [] false) (mkListQueue [] false) v (mkRequestGuard 0) (Some [8; 8])
    sample_built_alike) as (request & id & _ & Hg & _ & _ & Hgiven); try done.
  - by apply Hrun.
  - apply Hiss. set_solver.
  - by exists request, id.
Defined.

(** C5: every request is answered. Take a run of two endpoints as in the theorem on responses, under
    its conditions: payloads within the limits of channels there are and no custom errors; the
    cancellation of a request, also that of a timeout, at most once and not while a message with its
    channel and id is being sent in several frames; no parse that sends a request under the id whose
    answer it has just read; no server dropped and no counter wrapped around. When the run has come
    to rest - nothing is on its way in either direction, the queues of both servers and that of the
    client are empty, the other application has answered or dropped every request it was handed -
    then, on a channel with a positive request limit on which no response was cancelled in either
    direction, every guard of a request that its holder has kept has its answer: waiting for it does
    not wait. *)
Theorem requests_get_answers {Permit IoError BM S Snd RSnd C N} `{BiMapLaws IoId (ChannelId * Id) BM} `{Semaphore S Permit}
    `{SenderLaws Snd (QueuedItem Permit)} `{SenderLaws RSnd (NewOutgoingRequest Permit)} `{OnceCellLaws C Response} `{NotifyLaws N}
    (instant_max : Z) (p : ProtocolBuilder) (ba bb : RpcBuilder) (qa qb : Snd) (ra rb : RSnd)
    (v : Conversation (Permit := Permit) (BM := BM) (S := S) (Snd := Snd) (RSnd := RSnd) (C := C) (N := N))
    (request : NewOutgoingRequest Permit) (chn : Channel) :
  let ch := rt_channel (ticket request) in
  built_alike p ba bb → Io.queued qa = [] → Io.queued qb = [] → Io.queued ra = [] → Io.queued rb = [] →
  closed qa = false → closed qb = false →
  rtc (conversation_step (IoError := IoError) instant_max) (initial_conversation ba bb qa qb ra rb) v →
  drained (near v) (far v) → drained (far v) (near v) →
  io_queue (ep_server (near_end v)) = [] → io_queue (ep_server (far_end v)) = [] →
  in_queue (ep_client (near_end v)) = [] → ep_held (far_end v) = [] →
  ChannelId_wf ch → chan_at (juliet (core (near v))) ch = Some chn → 0 < request_limit (config chn) →
  (∀ id, Reported (ResponseCancellation ch id) ∉ sent_to v ∧ Reported (ResponseCancellation ch id) ∉ sent_back v) →
  request ∈ made (near_end v) → guard request ∈ ep_issued (near_end v) →
  ∃ answer store', try_get_response (ep_store (near_end v)) (mkRequestGuard (guard request)) = Done (Ok answer) ∧
    wait_for_response (ep_store (near_end v)) (mkRequestGuard (guard request)) = Done (Some answer, store').
Proof.
  intros ch Hb Hqa Hqb Hra Hrb Hca Hcb Hrun Hd Hd' Hq Hq' Hin Hheld Hch Hchn Hlim Hrep Hmade Hiss.
  pose proof (conversation_conversing _ _ _ _ _ _ (initial_conversing p ba bb qa qb ra rb Hb Hqa Hqb Hra Hrb Hca Hcb) Hrun) as Hv.
  pose proof (rest_answerable _ _ _ _ ch Hv Hq' Hheld) as Hans. destruct Hb as (Hpa & Hpb & Hc & Hn & Hm).
  destruct (guard_resolved _ _ _ _ request Hv Hmade Hiss Hin Hq) as [answer Ha].
  - intros Hcall. subst p. by eapply (call_returned _ _ qa qb _ _ _ _ _ _ ch chn _ _ Hpb Hc Hn Hm (cv_calls _ _ _ _ Hv)).
  - destruct (wait_answered _ (mkRequestGuard (guard request)) _ Ha) as [(store' & Hw & _) Ht]. by exists answer, store'.
Qed.
Lemma requests_get_answers_witness :
  match talk with
  | Some v => ∃ answer store', try_get_response (ep_store (near_end v)) (mkRequestGuard 0) = Done (Ok answer) ∧
      wait_for_response (ep_store (near_end v)) (mkRequestGuard 0) = Done (Some answer, store')
  | None => False
  end.
Proof.
  pose proof talk_ok as Hok. pose proof talk_run as Hrun. destruct talk as [v|]; [|done].
  destruct Hok as (Hmade & Hiss%bool_decide_eq_true & _ & (Hd & Hd') & (Hq & Hq' & Hin & Hheld) & Hlim & Hrep).
  destruct (channels (juliet (core (near v))) !! 0%nat) as [chn|] eqn:Hchn; [|done]. injection Hlim as Hlim.
  assert (∀ id l, (l = sent_to v ∨ l = sent_back v) → Reported (ResponseCancellation (ChannelId_new 0) id) ∉ l) as Hno.
  { intros id l Hl Hi. rewrite forallb_forall in Hrep. specialize (Hrep (Reported (ResponseCancellation (ChannelId_new 0) id))).
    discriminate Hrep. apply list_elem_of_In, elem_of_app. destruct Hl as [<-|<-]; auto. }
  apply (requests_get_answers (IoError := ()) (2 ^ 63) (protocol sample_io_builder) sample_talk_builder sample_talk_builder
    (mkListQueue [] false) (mkListQueue [] false) (mkListQueue [] false) (mkListQueue [] false) v
    (mkNewOutgoingRequest (mkRequestTicket (ChannelId_new 0) () (mkIoId 0)) 0 (Some long_payload) (Some 107)) chn
    sample_built_alike); try done.
  - by apply Hrun.
  - by rewrite Hlim.
  - intros id. split; eapply Hno; auto.
  - rewrite Hmade. by left.
  - apply Hiss. set_solver.
Defined.
